(* ===== verification/_CoqProject ===== *)
-Q . S2P
Prelude.v
Machine.v
IpcQueue.v
IpcQueueMpsc.v
IpcQueueSolo.v
IpcQueueFifo.v
ShmUtils.v
QueueBytes.v
QueuePrograms.v
QueueSession.v
Stacks.v
MutexStack.v
TreiberStack.v
BufferedStack.v
FutexLatch.v
Locks.v
CondVar.v
Races.v
CounterPrograms.v
LockScripts.v
LockPrograms.v
DataManager.v
IpcSemaphores.v
IpcPrograms.v
MessageQueue.v
Pipes.v
Futures.v
ThreadPool.v
Barriers.v
Channels.v
ChannelBenchmarks.v
Descriptors.v
Signals.v
Processes.v
SystemErrors.v
ShmAtomics.v
FalseSharing.v
Senders.v
EchoServer.v
