(* ===== verification/Prelude.v ===== *)
(** * A verification development for hse-multithreading-examples

    The repository is a course on multithreading in C++: a shared-memory message
    queue between processes (hw4/), three concurrent stacks (lock_free/, also
    ipc/shm_atomics.cpp), a latch on a futex (futex/), programs that show what
    locks, condition variables, barriers and atomics do and do not guarantee
    (synchronization_primitives/), futures and a thread pool
    (structured_concurrency/), processes that exchange data (ipc/), and what
    processes and threads share (processes_and_threads/).  The parts
    hardly call each other; within a part, a data structure is used by one or two
    programs.

    ** How code is modelled

    A function that runs alone is a Rocq function.  Memory it may leave through a
    bad index or a null pointer is an [option]: [None] is undefined behaviour (or
    a fatal signal), and the safety theorems show that it does not occur.
    Integers are [Z] with the wrap-around of their width written out.  System
    calls are the members of a class ([ShmUtils.Kernel]) with documented laws
    ([ShmUtils.KernelLaws]); a concrete kernel shows that the laws can hold.

    A concurrent program is a machine (file [Machine]): the shared memory and a
    list of threads, each an inductive type whose constructors are the points
    between two shared accesses, with its locals; an executable step function moves
    one thread by one access, and an action names the thread and settles what the
    code leaves open (spurious failures and wake-ups, the address [new] returns).
    Interleaving is sequentially consistent: weaker memory orders are not
    modelled.  Theorems quantify over all schedules, by invariants and rule
    induction on reachability; counterexamples are concrete schedules, evaluated.
    Loops that may run for ever are steps; where the code promises an end, a
    measure bounds every schedule.

    ** Files

    - [Prelude], [Machine]: notation, tactics, shared lemmas; runs, invariants,
      measures, forward simulation.
    - [IpcQueue] (hw4/ipc_queue.h, .cpp): layout, [init_queue], [is_queue_valid],
      [get_slot], [try_push_message], [try_pop_message] as whole calls.
      [queue_refines_fifo] relates them to a bounded FIFO queue,
      [queue_memory_safe] needs no invariant at all, and
      [refused_push_strands_next] is the defect of a push that meets a full ring.
    - [IpcQueueMpsc]: the same calls one memory access at a time, one consumer
      and any number of producers: slots are used exclusively, every published
      message is taken exactly once and unchanged, calls are wait-free; messages
      may overtake each other.
    - [IpcQueueSolo]: run alone, the steps of [IpcQueueMpsc] compute the calls of
      [IpcQueue]: memory, value returned, buffer and header, on every path.
    - [IpcQueueFifo]: while fewer than sixteen indices are outstanding the queue is
      FIFO under every interleaving and refuses nothing.
    - [ShmUtils] (hw4/shm_utils.h, .cpp): the region functions over any kernel;
      no descriptor, mapping or name is leaked.
    - [QueueBytes]: the layout of [IpcQueue] as the bytes of the mapping, by codecs
      with laws (class [Lawful]), each member at the offset computed by the rules of
      the ABI from the member lists of [ShmUtils]; the calls on those bytes keep the
      C++ types, and change nothing but one index and one slot.
    - [QueuePrograms] (hw4/producer_hw4.cpp, consumer_hw4.cpp): the two [main]
      functions.  The consumer's loop has fuel 17, one more than the number of slots,
      which [consumer_loop_terminates] shows to be enough.
    - [QueueSession]: producers one after the other and then the consumer, over any
      system whose calls do not fail for lack of resources (class [Healthy], one
      instance): all that they print and what they leave.
    - [Stacks]: the clients of lock_free/spsc_stack.cpp, the atomic stack they may
      rely on (class [Stack]) and [main], with its latch, proved against it: it can
      always be brought to its end, and every end is right.
    - [MutexStack], [TreiberStack]: [SPSCStack] and [LockFreeSPSCStack] as
      instances, by forward simulation; the latter with an explicit heap, for one
      consumer; its destructor; what goes wrong with two consumers.
    - [BufferedStack]: [BufferedLockFreeSPSCStack], which is not an instance: its
      counter is right, its elements need not be; a producer and a consumer can
      always be brought to their ends.
    - [FutexLatch] (futex/latch.cpp): safety, no lost wake-up, termination.
    - [Locks] (mutex/mutex.cpp, mutex/spinlock.cpp): a lock interface (class
      [Lock]), its instances, the counter program proved against it.
    - [CondVar] (condition_variable/): [CVLock], which breaks that interface, and
      [Worker].
    - [Races] (sync_intro/, atomics/): what racing threads can leave in a variable;
      the operations of [std::atomic].
    - [CounterPrograms]: the [main] functions around the runs of [Races], [Locks] and
      [CondVar].
    - [LockScripts] (mutex/): deadlock freedom by lock order, and the programs
      that violate it; [ProtectedData].
    - [LockPrograms]: the [main] functions of deadlock.cpp and livelock.cpp, in which
      calls they can stop and in which not.
    - [DataManager] (mutex/shared_mutex.cpp): a vector behind a mutex is a register.
    - [IpcSemaphores] (ipc/shm_intro.cpp, ipc/mmap_intro.cpp): the exchange of lines
      between two processes, for all interleavings, and what breaks it.
    - [IpcPrograms]: the same programs with the semaphores and the shared memory they
      create and remove by name; where an empty line stops them; what a run leaves to
      the next one.
    - [MessageQueue] (ipc/mqueue.cpp): delivery through a POSIX message queue, and
      exactly when the program can hang.
    - [Pipes] (ipc/pipe_intro.cpp, ipc/dup.cpp, ipc/mkfifo_intro.cpp): delivery
      through a pipe with counted ends, for any capacity.
    - [Futures] (structured_concurrency/future.cpp, shared_future.cpp, async.cpp):
      the shared state of a promise; the output does not depend on the schedule.
    - [ThreadPool] (structured_concurrency/packaged_task.cpp): the race of
      [Submit] with the workers; as long as it does not happen no task runs twice, its
      future gets its result, and the end can be reached.
    - [Barriers] (synchronization_primitives/barrier/): the programs with
      [std::barrier] and [std::latch], for any number of workers.
    - [Channels] (tasks/synchronization_primitives/): the channel benchmarks over
      any channel with the promise of task.md (class [ChannelLaws], two
      instances), and over the empty headers of the repository.
    - [ChannelBenchmarks]: the arguments the benchmarks are registered with, for any
      number of cores, and the rounds of [Run].
    - [Descriptors] (processes_and_threads/fork/fork_fd.cpp, exec/exec_fd.cpp,
      exec/writer.cpp): descriptors and their shared offsets across [fork] and
      [exec]; the way of a descriptor number through its text.
    - [Signals] (ipc/signals.cpp, ipc/sema.cpp, processes_and_threads/stl/jthread.cpp):
      modules [Signal], [Sema] and [JThread]; one party polls or waits until the
      other tells it to go on.
    - [Processes] (the other programs of processes_and_threads/): module [Fork], each
      process on its copy of the memory (which is assumed of [fork]); [Threads], threads that are joined at once
      are calls; [Status], the status of a child; [Exec], arguments and environment.
    - [SystemErrors] (include/utils/error.hpp): [CHECK_ERROR] and [LogSystemError]; the
      starts of shm_intro.cpp, mmap_intro.cpp and sema.cpp with every call that can
      fail; the pthread errors that [CHECK_ERROR] does not see.
    - [ShmAtomics] (ipc/shm_atomics.cpp): the whole program around [BufferedStack],
      from [mmap] to [munmap], whichever calls fail.
    - [FalseSharing] (cache/false_sharing.cpp): the threads behind the latch count
      exactly, each in its member; the members share a cache line.
    - [Senders] (structured_concurrency/continuations.cpp, stdexec_intro.cpp): the
      programs over any library of senders with the documented laws (classes
      [Senders], [SendersLaws]; one instance); the output is a list of characters,
      since tasks that print at the same time may mix them.
    - [EchoServer] (structured_concurrency/echo_server.cpp): the accept loop, which ends
      at the first connection.

    ** Bounds

    Theorems hold for any number of threads, values and iterations, under the
    stated bounds that keep an [int] from overflowing; [producers_then_consumer]
    is for up to eight producers, since a ninth would fill the sixteen slots.

    ** Not modelled

    Weak memory orders, and with them the data races that are not an overlap of two
    accesses (the list of [ThreadPool], the elements of [BufferedStack]); time (sleeps are nothing, time-outs may happen at any
    moment), and with it what cache/false_sharing.cpp measures; the failures of
    [fork] and of the calls inside the loops (a semaphore or pipe call that fails),
    which end the programs through [CHECK_ERROR], outside [ShmUtils], [SystemErrors]
    and [ShmAtomics], where calls may fail; the stdexec library itself and the sockets
    of echo_server.cpp, which has no bodies for them. *)

From Stdlib Require Export Strings.Byte.
From stdpp Require Export base tactics option list gmap strings sets numbers.
From stdpp Require Import options.

(** * Notations, automation and generic lemmas *)

Declare Scope cxx_scope.
Delimit Scope cxx_scope with cxx.

Create HintDb cxx.

Create Rewrite HintDb ring.

(** ** Machine integers

    C++ unsigned arithmetic wraps; [std::atomic<int>] arithmetic wraps as two's
    complement.  A value of a machine type is the mathematical integer it
    denotes, and each operation re-normalises. *)

Definition u32_wrap (z : Z) : Z := z `mod` 2 ^ 32.

Definition u64_wrap (z : Z) : Z := z `mod` 2 ^ 64.

Definition i32_wrap (z : Z) : Z := (z + 2 ^ 31) `mod` 2 ^ 32 - 2 ^ 31.

Definition INT_MIN : Z := - 2 ^ 31.

Definition INT_MAX : Z := 2 ^ 31 - 1.

Definition is_i32 (z : Z) : Prop := (INT_MIN ≤ z ≤ INT_MAX)%Z.

Notation "x +u64 y" := (u64_wrap (x + y)) (at level 50, left associativity) : cxx_scope.

Notation "x +i32 y" := (i32_wrap (x + y)) (at level 50, left associativity) : cxx_scope.

Notation "x -i32 y" := (i32_wrap (x - y)) (at level 50, left associativity) : cxx_scope.

(** ** Raw bytes

    [memcpy dst src n] overwrites the first [n] bytes of [dst] with those of
    [src].  Reading or writing outside an object is undefined behaviour, the
    value [None]. *)

Definition memcpy (dst src : list byte) (n : nat) : option (list byte) :=
  if decide (n ≤ length src ∧ n ≤ length dst)
  then Some (take n src ++ drop n dst)
  else None.

Definition memset (dst : list byte) (v : byte) (n : nat) : option (list byte) :=
  if decide (n ≤ length dst) then Some (replicate n v ++ drop n dst) else None.

#[export] Instance byte_eq_dec : EqDecision byte := Byte.byte_eq_dec.

(** The text a [char*] denotes: the bytes before the first NUL.  [None] when
    the object holds no NUL, where reading it as a C string leaves it. *)

Fixpoint c_string (bs : list byte) : option (list byte) :=
  match bs with
  | [] => None
  | x00 :: _ => Some []
  | b :: bs' => cons b <$> c_string bs'
  end.

(** ** Totals over the threads of a program *)

Definition total {A} (f : A → Z) (l : list A) : Z :=
  foldr (λ x acc, f x + acc)%Z 0%Z l.

Definition count {A} (p : A → bool) (l : list A) : nat :=
  sum_list_with (λ x, Nat.b2n (p x)) l.

(** ** Tactics *)

(** Take apart a computation in the option monad that returned [Some]. *)
Ltac inv_opt :=
  repeat first
    [ progress simplify_option_eq
    | match goal with
      | H : context [match ?x with _ => _ end] |- _ =>
          destruct x eqn:?; simplify_eq/=
      end ].

(** Split every conjunction in sight. *)
Ltac split_ands := repeat match goal with |- _ ∧ _ => split end.

(** Decide [≡ₚ] of two concatenations of the same pieces: bring the first piece
    of the left side to the front of the right side and go on. *)
Ltac perm_rotate :=
  match goal with
  | |- ?x ++ _ ≡ₚ ?x ++ _ => apply Permutation_app_head
  | |- _ ≡ₚ ?y ++ ?r => transitivity (r ++ y); [|apply Permutation_app_comm]; rewrite <- ?app_assoc
  end.

Ltac perm_app :=
  rewrite <- ?app_assoc; rewrite ?app_nil_r;
  repeat first [reflexivity | perm_rotate].

(** ** Lemmas on machine integers *)

Lemma u64_wrap_small z : (0 ≤ z < 2 ^ 64)%Z → u64_wrap z = z.
Proof. intros. by apply Z.mod_small. Qed.

Lemma u64_wrap_range z : (0 ≤ u64_wrap z < 2 ^ 64)%Z.
Proof. by apply Z.mod_pos_bound. Qed.

Lemma u32_wrap_small z : (0 ≤ z < 2 ^ 32)%Z → u32_wrap z = z.
Proof. intros. by apply Z.mod_small. Qed.

Lemma i32_wrap_small z : is_i32 z → i32_wrap z = z.
Proof. unfold is_i32, i32_wrap, INT_MIN, INT_MAX. intros. rewrite Z.mod_small; lia. Qed.

Lemma u64_wrap_add_l a b : u64_wrap (u64_wrap a + b) = u64_wrap (a + b).
Proof. unfold u64_wrap. by rewrite Zplus_mod_idemp_l. Qed.

(** The ring's size divides [2^64], so a wrapped counter still names the
    right slot. *)
Lemma u64_wrap_mod16 a : (u64_wrap a `mod` 16 = a `mod` 16)%Z.
Proof.
  unfold u64_wrap. apply Z.mod_mod_divide. by exists (2 ^ 60)%Z.
Qed.

(** ** Lemmas on bytes *)

Lemma memcpy_ok dst src n :
  n ≤ length src → n ≤ length dst →
  memcpy dst src n = Some (take n src ++ drop n dst).
Proof. intros. unfold memcpy. by rewrite decide_True. Qed.

Lemma memcpy_length dst src n r : memcpy dst src n = Some r → length r = length dst.
Proof.
  unfold memcpy. intros. case_decide; simplify_eq.
  rewrite length_app, length_take, length_drop. lia.
Qed.

Lemma memset_all dst v n : length dst = n → memset dst v n = Some (replicate n v).
Proof.
  intros <-. unfold memset. rewrite decide_True by done.
  by rewrite drop_all, app_nil_r.
Qed.

Lemma c_string_prefix bs rest :
  Forall (λ b, b ≠ x00) bs → c_string (bs ++ x00 :: rest) = Some bs.
Proof.
  induction 1 as [|b bs Hb _ IH]; simpl; [done|].
  rewrite IH. by destruct b.
Qed.

(** A buffer padded with zeros holds a text. *)
Lemma c_string_pad bs n : is_Some (c_string (bs ++ replicate (S n) x00)).
Proof.
  induction bs as [|b bs [t IH]]; [by rewrite replicate_S; eauto|].
  cbn [app c_string]. rewrite IH. destruct b; simpl; eauto.
Qed.

(** ** Lemmas on totals *)

Lemma total_cons {A} (f : A → Z) x (l : list A) : total f (x :: l) = (f x + total f l)%Z.
Proof. reflexivity. Qed.

(** A total of amounts that are not negative: it is not negative, each amount is
    0 when it is 0, and some amount is positive when it is not. *)
Lemma total_nonneg {A} (f : A → Z) (l : list A) : (∀ x, 0 ≤ f x)%Z → (0 ≤ total f l)%Z.
Proof. intros Hf. induction l as [|x l IH]; [done|]. rewrite total_cons. specialize (Hf x). lia. Qed.

Lemma total_zero {A} (f : A → Z) (l : list A) i x :
  (∀ x, 0 ≤ f x)%Z → total f l = 0%Z → l !! i = Some x → f x = 0%Z.
Proof.
  intros Hf. revert i. induction l as [|z l IH]; intros [|i] H Hi; [done..| |];
    rewrite total_cons in H; simplify_eq/=; pose proof (total_nonneg f l Hf).
  - specialize (Hf x). lia.
  - eapply IH; [|done]. specialize (Hf z). lia.
Qed.

Lemma total_pos {A} (f : A → Z) (l : list A) :
  (∀ x, 0 ≤ f x)%Z → total f l ≠ 0%Z → ∃ i x, l !! i = Some x ∧ (0 < f x)%Z.
Proof.
  intros Hf. induction l as [|z l IH]; [done|]. rewrite total_cons. intros H.
  destruct (decide (0 < f z)%Z) as [E|E]; [by exists 0, z|].
  destruct IH as (i & x & Hi & Hx); [specialize (Hf z); lia|]. by exists (S i), x.
Qed.

Lemma total_insert {A} (f : A → Z) (l : list A) i x y :
  l !! i = Some x →
  (total f (<[i:=y]> l) = total f l + f y - f x)%Z.
Proof.
  revert i. induction l as [|z l IH]; intros [|i] H; simplify_eq/=; [lia|].
  rewrite (IH i) by done. lia.
Qed.

Lemma count_insert {A} (p : A → bool) (l : list A) i x y :
  l !! i = Some x →
  count p (<[i:=y]> l) + Nat.b2n (p x) = count p l + Nat.b2n (p y).
Proof.
  unfold count. revert i.
  induction l as [|z l IH]; intros [|i] H; simplify_eq/=; [lia|].
  specialize (IH i H). lia.
Qed.

Lemma count_snoc {A} (p : A → bool) l x : count p (l ++ [x]) = count p l + Nat.b2n (p x).
Proof. unfold count. rewrite sum_list_with_app. simpl. lia. Qed.

Lemma count_pos {A} (p : A → bool) (l : list A) i x :
  l !! i = Some x → p x = true → 1 ≤ count p l.
Proof.
  unfold count. revert i.
  induction l as [|z l IH]; intros [|i] H Hp; simplify_eq/=.
  - rewrite Hp. simpl. lia.
  - specialize (IH i H Hp). lia.
Qed.

Lemma count_unique {A} (p : A → bool) (l : list A) i j x y :
  count p l ≤ 1 → l !! i = Some x → l !! j = Some y →
  p x = true → p y = true → i = j.
Proof.
  unfold count. revert i j.
  induction l as [|z l IH]; intros [|i] [|j] Hc Hi Hj Hx Hy; simplify_eq/=; [done| | |].
  - pose proof (count_pos p l j y Hj Hy) as Hc'. unfold count in Hc'.
    rewrite Hx in Hc. simpl in Hc. lia.
  - pose proof (count_pos p l i x Hi Hx) as Hc'. unfold count in Hc'.
    rewrite Hy in Hc. simpl in Hc. lia.
  - f_equal. apply IH; try done. lia.
Qed.

Lemma count_zero {A} (p : A → bool) (l : list A) i x :
  count p l = 0 → l !! i = Some x → p x = false.
Proof.
  intros H Hi. destruct (p x) eqn:E; [|done].
  pose proof (count_pos p l i x Hi E). lia.
Qed.

(** As many as there are elements: all of them. *)
Lemma count_all {A} (p : A → bool) (l : list A) i x :
  count p l = length l → l !! i = Some x → p x = true.
Proof.
  intros Hc Hi. assert (count p l + count (negb ∘ p) l = length l) as Ht.
  { clear. unfold count. induction l as [|z l IH]; simpl; [done|]. unfold compose. destruct (p z); simpl; unfold compose in IH; lia. }
  destruct (p x) eqn:E; [done|].
  assert (1 ≤ count (negb ∘ p) l) by (eapply count_pos; [done|cbn; by rewrite E]). lia.
Qed.

Lemma count_Forall {A} (p : A → bool) (l : list A) : Forall (λ x, p x = true) l → count p l = length l.
Proof. unfold count. induction 1 as [|x l Hx _ IH]; simpl; [done|]. rewrite Hx, IH. done. Qed.

Lemma count_replicate {A} (p : A → bool) n x : count p (replicate n x) = n * Nat.b2n (p x).
Proof. unfold count. induction n as [|n IH]; simpl; [done|]. rewrite IH. done. Qed.

Lemma count_witness {A} (p : A → bool) (l : list A) :
  1 ≤ count p l → ∃ i x, l !! i = Some x ∧ p x = true.
Proof.
  unfold count. induction l as [|z l IH]; simpl; [lia|].
  destruct (p z) eqn:E; simpl; intros H.
  - by exists 0, z.
  - destruct IH as (i & x & Hi & Hx); [lia|]. by exists (S i), x.
Qed.

Lemma count_fmap {A B} (p : B → bool) (f : A → B) (l : list A) :
  count p (f <$> l) = count (p ∘ f) l.
Proof. unfold count. induction l as [|z l IH]; [done|]. cbn. f_equal. apply IH. Qed.

(** Distinct positions that hold such elements are at most as many as those. *)
Lemma count_positions {A} (p : A → bool) (y : A) (ps : list nat) (l : list A) :
  p y = false → NoDup ps → (∀ i, i ∈ ps → ∃ x, l !! i = Some x ∧ p x = true) →
  length ps ≤ count p l.
Proof.
  intros Hy Hd. revert l. induction Hd as [|i ps Hi Hd IH]; intros l Hl; simpl; [lia|].
  destruct (Hl i) as (x & Hx & Hp); [by left|].
  pose proof (count_insert p l i x y Hx) as E. rewrite Hy, Hp in E. simpl in E.
  enough (length ps ≤ count p (<[i:=y]> l)) by lia.
  apply IH. intros j Hj. rewrite list_lookup_insert_ne by (by intros ->). apply Hl. by right.
Qed.

(** A pointwise bound. *)
Lemma total_le {A} (f g : A → Z) (b : Z) (l : list A) :
  (∀ x, f x ≤ g x + b)%Z → (total f l ≤ total g l + b * Z.of_nat (length l))%Z.
Proof.
  intros H. induction l as [|x l IH]; [simpl; lia|]. rewrite !total_cons. simpl length.
  specialize (H x). lia.
Qed.

(** One element changes, and the amounts of the others do not grow. *)
Lemma total_insert_le {A} (f g : A → Z) (l : list A) i x y :
  (∀ z, g z ≤ f z)%Z → l !! i = Some x →
  (total g (<[i:=y]> l) ≤ total f l - f x + g y)%Z.
Proof.
  intros H. revert i. induction l as [|z l IH]; intros [|i] Hi; [done..| |]; simpl insert.
  - injection Hi as ->. rewrite !total_cons.
    pose proof (total_le g f 0 l ltac:(intros w; specialize (H w); lia)). lia.
  - rewrite !total_cons. specialize (IH i Hi). specialize (H z). lia.
Qed.

Lemma total_count {A} (p : A → bool) (l : list A) :
  total (λ x, if p x then 1 else 0)%Z l = Z.of_nat (count p l).
Proof.
  induction l as [|x l IH]; [done|]. rewrite total_cons, IH. unfold count. simpl.
  destruct (p x); simpl; lia.
Qed.

Lemma total_scale {A} (f : A → Z) (k : Z) (l : list A) :
  total (λ x, k * f x)%Z l = (k * total f l)%Z.
Proof. induction l as [|x l IH]; [simpl; lia|]. rewrite !total_cons, IH. lia. Qed.

Lemma total_app {A} (f : A → Z) (l k : list A) : total f (l ++ k) = (total f l + total f k)%Z.
Proof. induction l as [|x l IH]; [done|]. simpl app. rewrite !total_cons, IH. lia. Qed.

Lemma total_replicate {A} (f : A → Z) n x : total f (replicate n x) = (Z.of_nat n * f x)%Z.
Proof. induction n as [|n IH]; [done|]. simpl replicate. rewrite total_cons, IH. lia. Qed.

Lemma total_ext {A} (f g : A → Z) (l : list A) :
  (∀ x, x ∈ l → f x = g x) → total f l = total g l.
Proof.
  induction l as [|z l IH]; intros H; simpl; [done|].
  rewrite IH by (intros; apply H; by right). by rewrite H by left.
Qed.

(** ** Lemmas on sums *)

Lemma sum_insert {A} (f : A → nat) (l : list A) i x y :
  l !! i = Some x → sum_list_with f (<[i:=y]> l) + f x = sum_list_with f l + f y.
Proof.
  revert i. induction l as [|z l IH]; intros [|i] H; simplify_eq/=; [lia|]. specialize (IH i H). lia.
Qed.

Lemma sum_bound {A} (f : A → nat) b (l : list A) : (∀ x, f x ≤ b) → sum_list_with f l ≤ b * length l.
Proof. intros H. induction l as [|z l IH]; simpl; [lia|]. specialize (H z). lia. Qed.

(** ** Lemmas on updated lists *)

Lemma list_lookup_insert_Some' {A} (l : list A) i j x y :
  <[i:=x]> l !! j = Some y → (j = i ∧ y = x) ∨ (j ≠ i ∧ l !! j = Some y).
Proof.
  intros H. destruct (decide (j = i)) as [->|Hne].
  - left. split; [done|].
    assert (i < length l) as Hi by (apply lookup_lt_Some in H; by rewrite length_insert in H).
    rewrite list_lookup_insert_eq in H by done. by simplify_eq.
  - right. by rewrite list_lookup_insert_ne in H by done.
Qed.

(** The contents of a table of optional entries when one entry changes. *)
Lemma omap_insert_perm {A} (l : list (option A)) i o o' :
  l !! i = Some o →
  option_list o' ++ omap id l ≡ₚ option_list o ++ omap id (<[i:=o']> l).
Proof.
  revert i. induction l as [|z l IH]; intros [|i] H; simplify_eq/=.
  - destruct o, o'; simpl; try done. apply perm_swap.
  - specialize (IH i H). destruct z as [z|]; simpl; [|done].
    rewrite <- !Permutation_middle. by rewrite IH.
Qed.

(** The same for what a function picks from each element. *)
Lemma omap_pick_perm {A B} (f : A → option B) (l : list A) i x y :
  l !! i = Some x →
  option_list (f y) ++ omap f l ≡ₚ option_list (f x) ++ omap f (<[i:=y]> l).
Proof.
  revert i. induction l as [|z l IH]; intros [|i] H; simplify_eq/=.
  - destruct (f x), (f y); simpl; try done. apply perm_swap.
  - specialize (IH i H). destruct (f z); simpl; [|done].
    rewrite <- !Permutation_middle. by rewrite IH.
Qed.

(** The pieces of a list when one element changes. *)
Lemma concat_insert {A B} (f : A → list B) (l : list A) i x y :
  l !! i = Some x →
  f x ++ concat (f <$> <[i:=y]> l) ≡ₚ f y ++ concat (f <$> l).
Proof.
  revert i. induction l as [|z l IH]; intros [|i] H; simplify_eq/=; [perm_app|].
  rewrite (Permutation_app_swap_app (f x)), (IH i H). perm_app.
Qed.

(** All elements pass a test, or one that fails it can be shown. *)
Lemma Forall_or_witness {A} (p : A → bool) (l : list A) :
  Forall (λ x, p x = true) l ∨ ∃ i x, l !! i = Some x ∧ p x = false.
Proof.
  induction l as [|z l [IH|(i & x & Hi & Hx)]].
  - by left.
  - destruct (p z) eqn:E; [left; by constructor|right; by exists 0, z].
  - right. by exists (S i), x.
Qed.

#[export] Hint Resolve u64_wrap_range : cxx.
