(* ===== verification/Machine.v ===== *)
(** Interleaving machines.

    Every concurrent program of the repository is modelled as a machine: an
    executable partial step function [step : A → S → option S], where an action
    says which thread moves and, where the code leaves a choice open (a
    spurious failure of a weak compare-and-swap, a spurious wake-up, the
    address an allocator returns), which way it goes.  [None] means that the
    action is not enabled.  This file holds what the components share: runs and
    reachability, invariants by induction on the run, termination by a measure,
    refinement by forward simulation, and the configurations of a program made
    of a shared state and a list of threads. *)

From S2P Require Import Prelude.
From stdpp Require Import options.

(** * Runs *)

Section machine.
Context {S A : Type} (step : A → S → option S).

(** A schedule is the list of the actions taken. *)
Fixpoint run (sched : list A) (s : S) : option S :=
  match sched with
  | [] => Some s
  | a :: rest => s' ← step a s; run rest s'
  end.

Inductive reach (s : S) : S → Prop :=
  | reach_refl : reach s s
  | reach_step a s' s'' : reach s s' → step a s' = Some s'' → reach s s''.

(** No thread can move. *)
Definition stuck (s : S) : Prop := ∀ a, step a s = None.

(** Every schedule from [s] has at most [n] actions. *)
Definition terminates_within (n : nat) (s : S) : Prop :=
  ∀ sched s', run sched s = Some s' → length sched ≤ n.

Lemma run_app l1 l2 s :
  run (l1 ++ l2) s = (s' ← run l1 s; run l2 s').
Proof.
  revert s. induction l1 as [|a l1 IH]; intros s; simpl; [done|].
  destruct (step a s); simpl; auto.
Qed.

Lemma reach_trans s1 s2 s3 : reach s1 s2 → reach s2 s3 → reach s1 s3.
Proof. intros H1. induction 1; [done|]. by eapply reach_step. Qed.

Lemma run_reach sched s s' : run sched s = Some s' → reach s s'.
Proof.
  revert s. induction sched as [|a sched IH]; intros s H; simplify_option_eq.
  - constructor.
  - eapply reach_trans; [|by apply IH].
    eapply reach_step; [constructor|done].
Qed.

Lemma reach_run s s' : reach s s' → ∃ sched, run sched s = Some s'.
Proof.
  induction 1 as [|a s' s'' _ [sched IH] Hs]; [by exists []|].
  exists (sched ++ [a]). rewrite run_app, IH. simpl. by rewrite Hs.
Qed.

(** Rule induction packaged for invariants. *)
Lemma reach_inv (I : S → Prop) s s' :
  I s → (∀ a s1 s2, I s1 → step a s1 = Some s2 → I s2) → reach s s' → I s'.
Proof. intros H0 HS. induction 1; eauto. Qed.

(** An invariant proved with the help of an earlier one. *)
Lemma reach_inv_strong (J I : S → Prop) s s' :
  (∀ s1, reach s s1 → J s1) → I s →
  (∀ a s1 s2, J s1 → I s1 → step a s1 = Some s2 → I s2) →
  reach s s' → I s'.
Proof. intros HJ H0 HS. induction 1; eauto. Qed.

(** A measure that every step decreases bounds the length of every run. *)
Lemma measure_terminates (I : S → Prop) (m : S → nat) s :
  I s → (∀ a s1 s2, I s1 → step a s1 = Some s2 → I s2 ∧ m s2 < m s1) →
  terminates_within (m s) s.
Proof.
  intros HI HS sched. revert s HI.
  induction sched as [|a sched IH]; intros s HI s' H; simpl in *; [lia|].
  destruct (step a s) as [s1|] eqn:E; simplify_eq/=.
  destruct (HS _ _ _ HI E) as [HI1 Hm].
  specialize (IH s1 HI1 s' H). lia.
Qed.

(** The same for chosen actions: where the others may go on for ever but do not
    increase the measure, a run has a bounded number of the chosen ones. *)
Lemma measure_counts (p : A → bool) (I : S → Prop) (m : S → nat) sched s s' :
  I s →
  (∀ a s1 s2, I s1 → step a s1 = Some s2 → I s2 ∧ m s2 + Nat.b2n (p a) ≤ m s1) →
  run sched s = Some s' → count p sched + m s' ≤ m s.
Proof.
  intros HI HS. revert s HI. induction sched as [|a sched IH]; intros s HI H; simpl in *.
  - simplify_eq. unfold count. simpl. lia.
  - destruct (step a s) as [s1|] eqn:E; simplify_eq/=.
    destruct (HS _ _ _ HI E) as [HI1 Hm]. specialize (IH s1 HI1 H).
    unfold count in *. simpl. destruct (p a); simpl in *; lia.
Qed.

(** A quantity that every step increases bounds the length of a run from above by
    what it has reached. *)
Lemma run_progress (I : S → Prop) (f : S → nat) sched s s' :
  I s → (∀ a s1 s2, I s1 → step a s1 = Some s2 → I s2 ∧ f s1 < f s2) →
  run sched s = Some s' → length sched + f s ≤ f s'.
Proof.
  intros HI HS. revert s HI. induction sched as [|a sched IH]; intros s HI H; simpl in *; [by simplify_eq|].
  destruct (step a s) as [s1|] eqn:E; simplify_eq/=.
  destruct (HS _ _ _ HI E) as [HI1 Hf]. specialize (IH s1 HI1 H). lia.
Qed.

(** A program whose schedules are bounded and that can always move until [P] gets
    to [P]. *)
Lemma run_to_goal (P : S → Prop) n s :
  terminates_within n s → (∀ s', reach s s' → (∃ a s'', step a s' = Some s'') ∨ P s') →
  ∃ sched s', run sched s = Some s' ∧ P s'.
Proof.
  intros Hn HP.
  assert (∀ k sched s', run sched s = Some s' → n - length sched = k →
    ∃ sched' s'', run sched' s = Some s'' ∧ P s'') as H; [|by eapply (H _ [] s)].
  induction k as [|k IH]; intros sched s' Hr Hk;
    (destruct (HP s' (run_reach _ _ _ Hr)) as [(a & s'' & Hs)|?]; [|by eauto]);
    assert (run (sched ++ [a]) s = Some s'') as Hr' by (rewrite run_app, Hr; cbn; by rewrite Hs);
    pose proof (Hn _ _ Hr') as Hle; rewrite length_app in Hle; cbn in Hle.
  - lia.
  - apply (IH _ _ Hr'). rewrite length_app. cbn. lia.
Qed.

(** A program that may also turn in circles, but can always take a step towards
    [P], can get there. *)
Lemma descend_to_goal (I P : S → Prop) (m : S → nat) s :
  (∀ s1, I s1 → P s1 ∨ ∃ a s2, step a s1 = Some s2 ∧ I s2 ∧ m s2 < m s1) →
  I s → ∃ sched s', run sched s = Some s' ∧ P s'.
Proof.
  intros Hstep. remember (m s) as n eqn:En. revert s En.
  induction (lt_wf n) as [n _ IH]. intros s -> HI.
  destruct (Hstep s HI) as [HP|(a & s2 & Hs & HI2 & Hlt)]; [by exists [], s|].
  destruct (IH _ Hlt s2 eq_refl HI2) as (sched & s' & Hr & HP).
  exists (a :: sched), s'. split; [|done]. cbn. by rewrite Hs.
Qed.
End machine.

(** * Forward simulation *)

Section simulation.
Context {S A T B : Type} (stepc : A → S → option S) (stepa : B → T → option T).
Context (R : S → T → Prop).
Context (sim : ∀ a s s' t, R s t → stepc a s = Some s' →
  ∃ t', R s' t' ∧ (t' = t ∨ ∃ b, stepa b t = Some t')).

(** Each concrete step is matched by at most one abstract step, so every
    concrete run has an abstract run that explains it. *)
Lemma simulation_reach s s' t :
  R s t → reach stepc s s' → ∃ t', reach stepa t t' ∧ R s' t'.
Proof using sim.
  intros HR. induction 1 as [|a s' s'' _ (t1 & Ht1 & HR1) Hs].
  - exists t. split; [constructor|done].
  - destruct (sim _ _ _ _ HR1 Hs) as (t2 & HR2 & [->|[b Hb]]).
    + by exists t1.
    + exists t2. split; [by eapply reach_step|done].
Qed.
End simulation.

(** * Programs made of threads *)

Record conf (G L : Type) := Conf { shared : G; threads : list L }.
Arguments Conf {G L} _ _.
Arguments shared {G L} _.
Arguments threads {G L} _.

(** An action: the thread that moves and the choice it is given. *)
Record act (C : Type) := Act { tid : nat; choice : C }.
Arguments Act {C} _ _.
Arguments tid {C} _.
Arguments choice {C} _.

Section threads.
Context {G L C : Type} (tstep : nat → C → G → L → option (G * L)).

(** One thread takes one step; the others keep their local state. *)
Definition conf_step (a : act C) (c : conf G L) : option (conf G L) :=
  l ← threads c !! tid a;
  '(g', l') ← tstep (tid a) (choice a) (shared c) l;
  Some (Conf g' (<[tid a:=l']> (threads c))).

Lemma conf_step_inv a c c' :
  conf_step a c = Some c' →
  ∃ l g' l', threads c !! tid a = Some l ∧
    tstep (tid a) (choice a) (shared c) l = Some (g', l') ∧
    c' = Conf g' (<[tid a:=l']> (threads c)).
Proof.
  unfold conf_step. intros H.
  destruct (threads c !! tid a) as [l|] eqn:E1; simplify_eq/=.
  destruct (tstep _ _ _ l) as [[g' l']|] eqn:E2; simplify_eq/=.
  by exists l, g', l'.
Qed.

(** A thread that can move moves the program. *)
Lemma conf_step_enabled i ch c l :
  threads c !! i = Some l → is_Some (tstep i ch (shared c) l) →
  ∃ c', conf_step (Act i ch) c = Some c'.
Proof.
  intros Hl [[g' l'] Hs]. unfold conf_step. cbn [tid choice]. rewrite Hl. cbn [mbind option_bind].
  rewrite Hs. eauto.
Qed.

Lemma conf_step_threads a c c' :
  conf_step a c = Some c' → length (threads c') = length (threads c).
Proof.
  intros (l & g' & l' & _ & _ & ->)%conf_step_inv. simpl. apply length_insert.
Qed.

Lemma reach_threads c c' :
  reach conf_step c c' → length (threads c') = length (threads c).
Proof. induction 1 as [|a c1 c2 _ IH H]; [done|]. by rewrite (conf_step_threads _ _ _ H). Qed.

(** The program has no enabled action exactly when no thread has one. *)
Lemma stuck_threads c :
  (∀ i l ch, threads c !! i = Some l → tstep i ch (shared c) l = None) →
  stuck conf_step c.
Proof.
  intros H [i ch]. unfold conf_step. simpl.
  destruct (threads c !! i) as [l|] eqn:E; simpl; [|done].
  by rewrite (H i l ch E).
Qed.

(** One thread alone, with the choices it is given. *)
Fixpoint solo (i : nat) (chs : list C) (g : G) (l : L) : option (G * L) :=
  match chs with
  | [] => Some (g, l)
  | ch :: chs' => '(g', l') ← tstep i ch g l; solo i chs' g' l'
  end.

Lemma solo_reach i chs : ∀ c l g' l',
  threads c !! i = Some l → solo i chs (shared c) l = Some (g', l') →
  reach conf_step c (Conf g' (<[i:=l']> (threads c))).
Proof.
  induction chs as [|ch chs IH]; intros [g ls] l g' l' Hl Hs; simpl in *; simplify_eq.
  - rewrite list_insert_id by done. constructor.
  - destruct (tstep i ch g l) as [[g1 l1]|] eqn:E; simplify_eq/=.
    apply (reach_trans _ _ (Conf g1 (<[i:=l1]> ls))).
    + eapply (reach_step _ _ (Act i ch)); [constructor|]. unfold conf_step. cbn. rewrite Hl. cbn. by rewrite E.
    + assert (i < length ls) by (by eapply lookup_lt_Some).
      specialize (IH (Conf g1 (<[i:=l1]> ls)) l1 g' l'). cbn in IH. rewrite list_insert_insert_eq in IH.
      apply IH; [by apply list_lookup_insert_eq|done].
Qed.

(** A thread-modular invariant: the moving thread re-establishes its own
    assertion, and every other thread's assertion is stable. *)
Lemma Forall_step_stable (P Q : G → L → Prop) g g' (ls : list L) i l' :
  Forall (P g) ls → Q g' l' → (∀ l, P g l → Q g' l) → Forall (Q g') (<[i:=l']> ls).
Proof.
  intros HF Hl HS. apply Forall_insert; [|done].
  eapply Forall_impl; [done|auto].
Qed.
End threads.
