(* ===== verification/IpcQueue.v ===== *)
(** The shared-memory message queue: hw4/ipc_queue.h and hw4/ipc_queue.cpp.

    The whole operations as one process runs them with nobody else touching the
    queue.  Memory is explicit: a payload is a list of bytes, [std::memcpy] and
    array indexing outside an object give [None] (undefined behaviour), indices
    are 64-bit and wrap.  A pointer that may be null is an [option].  The file
    [IpcQueueMpsc] takes the same operations apart into their memory accesses
    and interleaves them. *)

From S2P Require Import Prelude Machine.
From stdpp Require Import options.

Local Open Scope Z_scope.

#[local] Arguments replicate : simpl never.

(** * hw4/ipc_queue.h *)

Definition PROTOCOL_MAGIC : Z := 0x48573431.

Definition PROTOCOL_VERSION : Z := 1.

Definition QUEUE_CAPACITY : Z := 16.

Definition MAX_PAYLOAD_SIZE : Z := 256.

Inductive MessageType := UNKNOWN | TEXT | NUMBER.

Inductive SlotState := EMPTY | WRITING | READY.

#[export] Instance MessageType_eq_dec : EqDecision MessageType.
Proof. solve_decision. Defined.

#[export] Instance SlotState_eq_dec : EqDecision SlotState.
Proof. solve_decision. Defined.

(** [static_cast<std::uint32_t>] of the two enumerations. *)
Definition type_u32 (t : MessageType) : Z :=
  match t with UNKNOWN => 0 | TEXT => 1 | NUMBER => 2 end.

Definition state_u32 (s : SlotState) : Z :=
  match s with EMPTY => 0 | WRITING => 1 | READY => 2 end.

Record MessageHeader := Header { hdr_type : Z; hdr_length : Z }.

Record QueueMeta := Meta {
  magic : Z; version : Z; capacity : Z; max_payload_size : Z }.

Record MessageSlot := Slot {
  state : Z; header : MessageHeader; payload : list byte }.

Record SharedQueueLayout := Layout {
  meta : QueueMeta; write_index : Z; read_index : Z; slots : list MessageSlot }.

#[export] Instance MessageHeader_eq_dec : EqDecision MessageHeader.
Proof. solve_decision. Defined.

#[export] Instance MessageSlot_eq_dec : EqDecision MessageSlot.
Proof. solve_decision. Defined.

(** Assignments to the members. *)
Definition set_write_index (w : Z) (q : SharedQueueLayout) : SharedQueueLayout :=
  Layout (meta q) w (read_index q) (slots q).

Definition set_read_index (r : Z) (q : SharedQueueLayout) : SharedQueueLayout :=
  Layout (meta q) (write_index q) r (slots q).

Definition set_slot (i : nat) (s : MessageSlot) (q : SharedQueueLayout) : SharedQueueLayout :=
  Layout (meta q) (write_index q) (read_index q) (<[i:=s]> (slots q)).

Definition set_state (st : SlotState) (s : MessageSlot) : MessageSlot :=
  Slot (state_u32 st) (header s) (payload s).

Definition set_type (t : Z) (s : MessageSlot) : MessageSlot :=
  Slot (state s) (Header t (hdr_length (header s))) (payload s).

Definition set_length (n : Z) (s : MessageSlot) : MessageSlot :=
  Slot (state s) (Header (hdr_type (header s)) n) (payload s).

Definition set_payload (p : list byte) (s : MessageSlot) : MessageSlot :=
  Slot (state s) (header s) p.

(** * hw4/ipc_queue.cpp *)

(** The body of [init_queue]'s loop. *)
Definition init_slot (s : MessageSlot) : option MessageSlot :=
  let s1 := set_state EMPTY s in
  let s2 := set_type (type_u32 UNKNOWN) s1 in
  let s3 := set_length 0 s2 in
  p ← memset (payload s3) x00 (Z.to_nat MAX_PAYLOAD_SIZE);
  Some (set_payload p s3).

Fixpoint init_slots (n i : nat) (ss : list MessageSlot) : option (list MessageSlot) :=
  match n with
  | O => Some ss
  | S n' => s ← ss !! i; s' ← init_slot s; init_slots n' (S i) (<[i:=s']> ss)
  end.

Definition init_queue (q : SharedQueueLayout) : option SharedQueueLayout :=
  let m := Meta PROTOCOL_MAGIC PROTOCOL_VERSION QUEUE_CAPACITY MAX_PAYLOAD_SIZE in
  ss ← init_slots (Z.to_nat QUEUE_CAPACITY) 0 (slots q);
  Some (Layout m 0 0 ss).

Definition is_queue_valid (q : SharedQueueLayout) : bool :=
  if negb (magic (meta q) =? PROTOCOL_MAGIC) then false
  else if negb (version (meta q) =? PROTOCOL_VERSION) then false
  else if negb (capacity (meta q) =? QUEUE_CAPACITY) then false
  else if negb (max_payload_size (meta q) =? MAX_PAYLOAD_SIZE) then false
  else true.

(** The address [get_slot] returns, as an index into [slots]. *)
Definition get_slot (index : Z) : nat := Z.to_nat (index `mod` QUEUE_CAPACITY).

Definition try_push_message (queue : option SharedQueueLayout) (type : MessageType)
    (data : option (list byte)) (length : Z) : option (bool * option SharedQueueLayout) :=
  match queue, data with
  | Some q, Some src =>
      if length >? MAX_PAYLOAD_SIZE then Some (false, queue) else
      let index := write_index q in
      let q1 := set_write_index (u64_wrap (index + 1)) q in
      let i := get_slot index in
      s ← slots q1 !! i;
      if negb (state s =? state_u32 EMPTY) then Some (false, Some q1) else
      let s1 := set_state WRITING s in
      let s2 := set_type (type_u32 type) s1 in
      let s3 := set_length (u32_wrap length) s2 in
      p ← (if length >? 0 then memcpy (payload s3) src (Z.to_nat length)
           else Some (payload s3));
      let s4 := set_state READY (set_payload p s3) in
      Some (true, Some (set_slot i s4 q1))
  | _, _ => Some (false, queue)
  end.

(** The result of a pop: the value returned, then the queue, the buffer and
    the header as the call leaves them. *)
Record pop_result := Popped {
  popped : bool; pop_queue : option SharedQueueLayout;
  pop_buffer : option (list byte); pop_header : option MessageHeader }.

Definition try_pop_message (queue : option SharedQueueLayout) (expected_type : MessageType)
    (out_buffer : option (list byte)) (buffer_size : Z)
    (out_header : option MessageHeader) : option pop_result :=
  match queue, out_buffer, out_header with
  | Some q, Some buf, Some oh =>
      let index := read_index q in
      let i := get_slot index in
      s ← slots q !! i;
      if negb (state s =? state_u32 READY)
      then Some (Popped false queue out_buffer out_header) else
      let h := header s in
      if hdr_length h >? MAX_PAYLOAD_SIZE
      then Some (Popped false queue out_buffer out_header) else
      if hdr_length h >? buffer_size
      then Some (Popped false queue out_buffer out_header) else
      let matches := hdr_type h =? type_u32 expected_type in
      buf' ← (if matches
              then if hdr_length h >? 0
                   then memcpy buf (payload s) (Z.to_nat (hdr_length h))
                   else Some buf
              else Some buf);
      let oh' := if matches then h else oh in
      let s1 := set_length 0 (set_type (type_u32 UNKNOWN) s) in
      p ← memset (payload s1) x00 (Z.to_nat MAX_PAYLOAD_SIZE);
      let s2 := set_state EMPTY (set_payload p s1) in
      let q1 := set_read_index (u64_wrap (index + 1)) (set_slot i s2 q) in
      Some (Popped matches (Some q1) (Some buf') (Some oh'))
  | _, _, _ => Some (Popped false queue out_buffer out_header)
  end.

(** * The contract: a bounded FIFO queue of typed messages *)

(** A message: the [uint32_t] type of its header and its bytes. *)
Definition message : Type := Z * list byte.

Definition fifo_push (m : message) (ms : list message) : list message := ms ++ [m].

(** What a pop answers: the message it delivers, if any, and the rest.  A head
    that does not fit the caller's buffer stays; a head of another type is
    dropped and nothing is delivered. *)
Definition fifo_pop (expected : MessageType) (buffer_size : Z) (ms : list message) :
    option message * list message :=
  match ms with
  | [] => (None, [])
  | m :: rest =>
      if Z.of_nat (length m.2) >? buffer_size then (None, ms)
      else if m.1 =? type_u32 expected then (Some m, rest)
      else (None, rest)
  end.

(** A slot as the queue keeps it while empty, and while it holds [m]. *)
Definition empty_slot : MessageSlot :=
  Slot (state_u32 EMPTY) (Header (type_u32 UNKNOWN) 0) (replicate 256 x00).

Definition ready_slot (m : message) : MessageSlot :=
  Slot (state_u32 READY) (Header m.1 (Z.of_nat (length m.2)))
    (m.2 ++ replicate (256 - length m.2) x00).

Definition slot_for (o : option message) : MessageSlot :=
  match o with Some m => ready_slot m | None => empty_slot end.

(** [queue_rep q ms]: the shared memory [q] holds exactly the messages [ms],
    oldest first, in the slots that follow [read_index] around the ring, and
    every other slot is empty and wiped. *)
Record queue_rep (q : SharedQueueLayout) (ms : list message) : Prop := {
  rep_valid : is_queue_valid q = true;
  rep_bound : (length ms ≤ 16)%nat;
  rep_read : 0 ≤ read_index q < 2 ^ 64;
  rep_write : write_index q = u64_wrap (read_index q + Z.of_nat (length ms));
  rep_nslots : length (slots q) = 16%nat;
  rep_slots : ∀ k, (k < 16)%nat →
    slots q !! get_slot (read_index q + Z.of_nat k) = Some (slot_for (ms !! k));
  rep_fits : Forall (λ m : message, (length m.2 ≤ 256)%nat) ms }.

(** Memory of the right shape, whatever it contains. *)
Definition raw_layout (q : SharedQueueLayout) : Prop :=
  length (slots q) = 16%nat ∧
  Forall (λ s, length (payload s) = 256%nat) (slots q).

(** ** Sequences of calls *)

Inductive op :=
  | OpPush (type : MessageType) (data : list byte)
  | OpPop (expected : MessageType) (buf : list byte) (oh : MessageHeader).

Inductive answer :=
  | APush (ok : bool)
  | APop (ok : bool) (buf : list byte) (oh : MessageHeader).

(** One call on a queue in memory, with the whole of [data] or of [buf]. *)
Definition run_op (o : op) (q : SharedQueueLayout) : option (answer * SharedQueueLayout) :=
  match o with
  | OpPush ty d =>
      '(b, oq) ← try_push_message (Some q) ty (Some d) (Z.of_nat (length d));
      q' ← oq; Some (APush b, q')
  | OpPop ty buf oh =>
      r ← try_pop_message (Some q) ty (Some buf) (Z.of_nat (length buf)) (Some oh);
      q' ← pop_queue r; buf' ← pop_buffer r; oh' ← pop_header r;
      Some (APop (popped r) buf' oh', q')
  end.

Fixpoint run_ops (ops : list op) (q : SharedQueueLayout) :
    option (list answer * SharedQueueLayout) :=
  match ops with
  | [] => Some ([], q)
  | o :: rest =>
      '(a, q1) ← run_op o q; '(l, q2) ← run_ops rest q1; Some (a :: l, q2)
  end.

(** The buffer and the header after a pop that delivers [o]. *)
Definition delivered (o : option message) (buf : list byte) (oh : MessageHeader) :
    list byte * MessageHeader :=
  match o with
  | Some m => (m.2 ++ drop (length m.2) buf, Header m.1 (Z.of_nat (length m.2)))
  | None => (buf, oh)
  end.

(** The same calls on the abstract FIFO. *)
Definition spec_op (o : op) (ms : list message) : answer * list message :=
  match o with
  | OpPush ty d =>
      if Z.of_nat (length d) >? MAX_PAYLOAD_SIZE then (APush false, ms)
      else (APush true, fifo_push (type_u32 ty, d) ms)
  | OpPop ty buf oh =>
      let '(o, ms') := fifo_pop ty (Z.of_nat (length buf)) ms in
      let d := delivered o buf oh in
      (APop (bool_decide (is_Some o)) d.1 d.2, ms')
  end.

Fixpoint spec_ops (ops : list op) (ms : list message) : list answer * list message :=
  match ops with
  | [] => ([], ms)
  | o :: rest =>
      let '(a, ms1) := spec_op o ms in
      let '(l, ms2) := spec_ops rest ms1 in (a :: l, ms2)
  end.

(** No acceptable push arrives while sixteen messages wait. *)
Fixpoint never_full (ops : list op) (ms : list message) : bool :=
  match ops with
  | [] => true
  | o :: rest =>
      (match o with
       | OpPush _ d => (Z.of_nat (length d) >? MAX_PAYLOAD_SIZE) || bool_decide (length ms < 16)%nat
       | OpPop _ _ _ => true
       end) && never_full rest (spec_op o ms).2
  end.

(** [n] pops with a buffer large enough for any message. *)
Fixpoint drain (n : nat) (ty : MessageType) (q : SharedQueueLayout) : option SharedQueueLayout :=
  match n with
  | O => Some q
  | S n' => '(_, q') ← run_op (OpPop ty (replicate 256 x00) (Header 0 0)) q; drain n' ty q'
  end.

(** * Ring arithmetic *)

Lemma get_slot_bound i : (get_slot i < 16)%nat.
Proof.
  unfold get_slot, QUEUE_CAPACITY.
  pose proof (Z.mod_pos_bound i 16). lia.
Qed.

Lemma get_slot_wrap i : get_slot (u64_wrap i) = get_slot i.
Proof. unfold get_slot, QUEUE_CAPACITY. by rewrite u64_wrap_mod16. Qed.

Lemma get_slot_period i : get_slot (i + 16) = get_slot i.
Proof.
  unfold get_slot, QUEUE_CAPACITY. f_equal.
  replace (i + 16) with (i + 1 * 16) by lia. by rewrite Z.mod_add.
Qed.

(** Sixteen consecutive indices name sixteen different slots. *)
Lemma get_slot_inj i j : get_slot i = get_slot j → - 16 < i - j < 16 → i = j.
Proof.
  unfold get_slot, QUEUE_CAPACITY. intros H Hd.
  pose proof (Z.mod_pos_bound i 16). pose proof (Z.mod_pos_bound j 16).
  assert (i `mod` 16 = j `mod` 16) as Hm by lia.
  pose proof (Z.div_mod i 16). pose proof (Z.div_mod j 16). lia.
Qed.

#[export] Hint Resolve get_slot_bound : cxx.
#[export] Hint Rewrite get_slot_wrap get_slot_period : ring.

Lemma lookup_slot q i : length (slots q) = 16%nat → ∃ s, slots q !! get_slot i = Some s.
Proof.
  intros H. destruct (slots q !! get_slot i) eqn:E; [eauto|].
  apply lookup_ge_None in E. pose proof (get_slot_bound i). lia.
Qed.

(** * Initialisation *)

Lemma init_slot_wipes s : length (payload s) = 256%nat → init_slot s = Some empty_slot.
Proof. intros H. unfold init_slot. simpl. by rewrite memset_all. Qed.

Lemma init_slots_wipes n i ss :
  (i + n = length ss)%nat → Forall (λ s, length (payload s) = 256%nat) ss →
  init_slots n i ss = Some (take i ss ++ replicate n empty_slot).
Proof.
  revert i ss. induction n as [|n IH]; intros i ss Hn HF; simpl.
  - rewrite take_ge by lia. by rewrite app_nil_r.
  - destruct (lookup_lt_is_Some_2 ss i) as [s Hs]; [lia|].
    rewrite Hs. simpl. rewrite init_slot_wipes by (by eapply Forall_lookup_1 in HF).
    simpl. rewrite IH.
    + rewrite (take_S_r _ _ empty_slot) by (apply list_lookup_insert_eq; lia).
      rewrite take_insert_ge by lia. by rewrite <- app_assoc.
    + rewrite length_insert. lia.
    + by apply Forall_insert.
Qed.

Lemma init_queue_runs q :
  raw_layout q →
  init_queue q = Some (Layout (Meta PROTOCOL_MAGIC PROTOCOL_VERSION
    QUEUE_CAPACITY MAX_PAYLOAD_SIZE) 0 0 (replicate 16 empty_slot)).
Proof.
  intros [Hl HF]. unfold init_queue. change (Z.to_nat QUEUE_CAPACITY) with 16%nat.
  rewrite init_slots_wipes by (simpl; auto; lia). done.
Qed.

Lemma init_queue_rep q : raw_layout q → ∃ q', init_queue q = Some q' ∧ queue_rep q' [].
Proof.
  intros H. eexists. split; [by apply init_queue_runs|].
  constructor; simpl; try done; [lia|].
  intros k Hk. apply (lookup_replicate_2 16 empty_slot), get_slot_bound.
Qed.

(** * Pushing *)

(** The slot a push fills, from the wiped slot it finds. *)
Lemma push_fills_slot t d rest :
  (length d ≤ 256)%nat →
  (if Z.of_nat (length d) >? 0
   then memcpy (payload empty_slot) (d ++ rest) (length d)
   else Some (payload empty_slot)) = Some (payload (ready_slot (t, d))).
Proof.
  intros H. change (payload empty_slot) with (replicate 256 x00).
  destruct (Z.gtb_spec (Z.of_nat (length d)) 0).
  - rewrite memcpy_ok by (rewrite ?length_app, ?length_replicate; lia).
    by rewrite take_app_length, drop_replicate.
  - destruct d; simpl in *; [done|lia].
Qed.

Lemma push_room q ms ty d rest :
  queue_rep q ms → (length ms < 16)%nat → (length d ≤ 256)%nat →
  ∃ q', try_push_message (Some q) ty (Some (d ++ rest)) (Z.of_nat (length d))
          = Some (true, Some q') ∧
        queue_rep q' (fifo_push (type_u32 ty, d) ms).
Proof.
  intros HR Hroom Hd.
  assert (slots q !! get_slot (write_index q) = Some empty_slot) as Hslot.
  { rewrite (rep_write _ _ HR), get_slot_wrap, (rep_slots _ _ HR) by done.
    by rewrite lookup_ge_None_2. }
  eexists. split.
  - unfold try_push_message.
    destruct (Z.gtb_spec (Z.of_nat (length d)) MAX_PAYLOAD_SIZE);
      [unfold MAX_PAYLOAD_SIZE in *; lia|].
    cbn [slots set_write_index]. rewrite Hslot.
    cbn [mbind option_bind state empty_slot]. simpl (negb _).
    rewrite u32_wrap_small by lia. cbn [payload set_length set_type set_state].
    rewrite Nat2Z.id.
    rewrite (push_fills_slot (type_u32 ty) d rest Hd). done.
  - destruct HR as [Hv Hb Hr Hw Hn Hs Hf]. constructor; try done; simpl.
    + unfold fifo_push. rewrite length_app. simpl. lia.
    + rewrite Hw. rewrite u64_wrap_add_l. f_equal.
      unfold fifo_push. rewrite length_app. simpl. lia.
    + by rewrite length_insert.
    + intros k Hk. unfold fifo_push. destruct (decide (k = length ms)) as [->|Hne].
      * rewrite list_lookup_middle by done.
        rewrite Hw, get_slot_wrap. apply list_lookup_insert_eq.
        rewrite Hn. apply get_slot_bound.
      * rewrite list_lookup_insert_ne.
        { rewrite Hs by done. f_equal. f_equal.
          destruct (decide (k < length ms)%nat).
          - by rewrite lookup_app_l.
          - rewrite !lookup_ge_None_2; [done|rewrite length_app; simpl; lia|lia]. }
        rewrite Hw, get_slot_wrap. intros E%get_slot_inj; lia.
    + unfold fifo_push. apply Forall_app. split; [done|]. by constructor.
Qed.

(** On a full ring the call answers [false] but has already taken an index. *)
Lemma push_full q ms ty src n :
  queue_rep q ms → length ms = 16%nat → n ≤ MAX_PAYLOAD_SIZE →
  try_push_message (Some q) ty (Some src) n
  = Some (false, Some (set_write_index (u64_wrap (write_index q + 1)) q)).
Proof.
  intros HR Hfull Hn. unfold try_push_message.
  destruct (Z.gtb_spec n MAX_PAYLOAD_SIZE); [lia|].
  cbn [slots set_write_index].
  destruct ms as [|m ms]; [done|].
  assert (slots q !! get_slot (write_index q) = Some (ready_slot m)) as ->.
  { rewrite (rep_write _ _ HR), get_slot_wrap, Hfull.
    change (Z.of_nat 16) with 16. rewrite get_slot_period.
    rewrite <- (Z.add_0_r (read_index q)). apply (rep_slots _ _ HR 0). lia. }
  done.
Qed.

(** * Popping *)

Lemma pop_empty q ms ty buf n oh :
  slots q !! get_slot (read_index q) = Some empty_slot ∨ (queue_rep q ms ∧ ms = []) →
  try_pop_message (Some q) ty (Some buf) n (Some oh)
  = Some (Popped false (Some q) (Some buf) (Some oh)).
Proof.
  intros Hc.
  assert (slots q !! get_slot (read_index q) = Some empty_slot) as Hs.
  { destruct Hc as [|[HR ->]]; [done|].
    rewrite <- (Z.add_0_r (read_index q)). apply (rep_slots _ _ HR 0). lia. }
  unfold try_pop_message. by rewrite Hs.
Qed.

Lemma rep_head q m ms :
  queue_rep q (m :: ms) →
  slots q !! get_slot (read_index q) = Some (ready_slot m) ∧ (length m.2 ≤ 256)%nat.
Proof.
  intros HR. split.
  - rewrite <- (Z.add_0_r (read_index q)). apply (rep_slots _ _ HR 0). lia.
  - pose proof (rep_fits _ _ HR) as Hf. by inversion Hf.
Qed.

(** Dropping the head: what a pop does to the shared memory when it consumes. *)
Lemma pop_advance q m ms :
  queue_rep q (m :: ms) →
  queue_rep (set_read_index (u64_wrap (read_index q + 1))
    (set_slot (get_slot (read_index q)) empty_slot q)) ms.
Proof.
  intros [Hv Hb Hr Hw Hn Hs Hf]. simpl in *. constructor; simpl; try done.
  - lia.
  - auto with cxx.
  - rewrite Hw, u64_wrap_add_l. f_equal. lia.
  - by rewrite length_insert.
  - intros k Hk. unfold get_slot at 2.
    assert (∀ z, get_slot (u64_wrap (read_index q + 1) + z) = get_slot (read_index q + 1 + z)) as E.
    { intros z. rewrite <- (get_slot_wrap (u64_wrap _ + _)), u64_wrap_add_l.
      by rewrite get_slot_wrap. }
    change (Z.to_nat ((u64_wrap (read_index q + 1) + Z.of_nat k) `mod` QUEUE_CAPACITY))
      with (get_slot (u64_wrap (read_index q + 1) + Z.of_nat k)).
    rewrite E. destruct (decide (k = 15)%nat) as [->|Hne].
    + replace (read_index q + 1 + Z.of_nat 15) with (read_index q + 16) by lia.
      rewrite get_slot_period, list_lookup_insert_eq by (rewrite Hn; apply get_slot_bound).
      by rewrite lookup_ge_None_2 by lia.
    + rewrite list_lookup_insert_ne by (intros E'%get_slot_inj; lia).
      replace (read_index q + 1 + Z.of_nat k) with (read_index q + Z.of_nat (S k)) by lia.
      by rewrite Hs by lia.
  - by inversion Hf.
Qed.

Lemma pop_refines q ms ty buf oh :
  queue_rep q ms →
  ∃ q', try_pop_message (Some q) ty (Some buf) (Z.of_nat (length buf)) (Some oh)
        = Some (let o := (fifo_pop ty (Z.of_nat (length buf)) ms).1 in
                let d := delivered o buf oh in
                Popped (bool_decide (is_Some o)) (Some q') (Some d.1) (Some d.2)) ∧
      queue_rep q' (fifo_pop ty (Z.of_nat (length buf)) ms).2.
Proof.
  intros HR. destruct ms as [|m ms].
  - exists q. split; [|done]. rewrite (pop_empty q []) by auto. done.
  - destruct (rep_head _ _ _ HR) as [Hs Hm]. destruct m as [t d]. simpl in Hm.
    unfold try_pop_message, fifo_pop. rewrite Hs.
    cbn [mbind option_bind ready_slot state header hdr_length hdr_type fst snd].
    simpl (negb _). unfold MAX_PAYLOAD_SIZE.
    destruct (Z.gtb_spec (Z.of_nat (length d)) 256); [lia|].
    destruct (Z.gtb_spec (Z.of_nat (length d)) (Z.of_nat (length buf))) as [Hbig|Hfit].
    + exists q. by split.
    + assert (memset (payload (set_length 0 (set_type (type_u32 UNKNOWN) (ready_slot (t, d)))))
                x00 (Z.to_nat 256) = Some (replicate 256 x00)) as Hwipe.
      { apply memset_all. simpl. rewrite length_app, length_replicate. lia. }
      exists (set_read_index (u64_wrap (read_index q + 1))
                (set_slot (get_slot (read_index q)) empty_slot q)).
      destruct (t =? type_u32 ty) eqn:Et; simpl in Hwipe |- *.
      * split; [|by eapply pop_advance].
        assert ((if Z.of_nat (length d) >? 0
                 then memcpy buf (d ++ replicate (256 - length d) x00) (Z.to_nat (Z.of_nat (length d)))
                 else Some buf) = Some (d ++ drop (length d) buf)) as ->.
        { destruct (Z.gtb_spec (Z.of_nat (length d)) 0).
          - rewrite Nat2Z.id, memcpy_ok by (rewrite ?length_app; lia).
            by rewrite take_app_length.
          - destruct d; simpl in *; [done|lia]. }
        simpl. by rewrite Hwipe.
      * split; [|by eapply pop_advance]. by rewrite Hwipe.
Qed.

(** * Sequences of calls *)

Lemma push_too_long q ty d :
  (Z.of_nat (length d) >? MAX_PAYLOAD_SIZE) = true →
  run_op (OpPush ty d) q = Some (APush false, q).
Proof. intros H. simpl. by rewrite H. Qed.

Lemma run_op_refines q ms o :
  queue_rep q ms →
  match o with
  | OpPush _ d => (Z.of_nat (length d) >? MAX_PAYLOAD_SIZE) || bool_decide (length ms < 16)%nat
  | OpPop _ _ _ => true
  end = true →
  ∃ q', run_op o q = Some ((spec_op o ms).1, q') ∧ queue_rep q' (spec_op o ms).2.
Proof.
  intros HR Hok. destruct o as [ty d|ty buf oh].
  - unfold spec_op. destruct (Z.of_nat (length d) >? MAX_PAYLOAD_SIZE) eqn:E.
    + exists q. by rewrite push_too_long.
    + simpl in Hok. apply bool_decide_eq_true_1 in Hok.
      destruct (push_room q ms ty d []) as (q' & Hp & HR'); [done|done| |].
      { unfold MAX_PAYLOAD_SIZE in E. lia. }
      rewrite app_nil_r in Hp. exists q'. unfold run_op. by rewrite Hp.
  - destruct (pop_refines q ms ty buf oh HR) as (q' & Hp & HR').
    exists q'. unfold run_op, spec_op. rewrite Hp. simpl.
    destruct (fifo_pop ty (Z.of_nat (length buf)) ms). by split.
Qed.

Lemma run_ops_refines ops : ∀ q ms,
  queue_rep q ms → never_full ops ms = true →
  ∃ q', run_ops ops q = Some ((spec_ops ops ms).1, q') ∧ queue_rep q' (spec_ops ops ms).2.
Proof.
  induction ops as [|o ops IH]; intros q ms HR Hok; simpl in *; [by exists q|].
  apply andb_true_iff in Hok as [Ho Hok].
  destruct (run_op_refines q ms o HR Ho) as (q1 & Hr1 & HR1).
  rewrite Hr1. simpl. destruct (spec_op o ms) as [a ms1]. simpl in *.
  destruct (IH q1 ms1 HR1 Hok) as (q2 & Hr2 & HR2). rewrite Hr2. simpl.
  destruct (spec_ops ops ms1) as [l ms2]. by exists q2.
Qed.

(** A pop neither reads nor writes [write_index]. *)
Lemma pop_write_frame ty buf n oh q w :
  try_pop_message (Some (set_write_index w q)) ty buf n oh
  = (λ r, Popped (popped r) (set_write_index w <$> pop_queue r) (pop_buffer r) (pop_header r))
    <$> try_pop_message (Some q) ty buf n oh.
Proof.
  unfold try_pop_message. destruct buf as [buf|], oh as [oh|]; [|done..].
  cbn [slots set_write_index read_index].
  destruct (slots q !! get_slot (read_index q)) as [s|]; [|done].
  cbn [mbind option_bind]. repeat (case_match; [done|]).
  case_match; [case_match|]; try (destruct (memcpy _ _ _); [|done]); cbn;
    by destruct (memset _ _ _).
Qed.

Lemma drain_write_frame n ty : ∀ q w,
  drain n ty (set_write_index w q) = set_write_index w <$> drain n ty q.
Proof.
  induction n as [|n IH]; intros q w; [done|].
  cbn [drain]. unfold run_op. rewrite pop_write_frame.
  destruct (try_pop_message _ _ _ _ _) as [[b [q'|] [buf|] [oh|]]|]; [|done..].
  cbn. apply IH.
Qed.

Lemma drain_write_index n ty q q' :
  drain n ty q = Some q' → write_index q' = write_index q.
Proof.
  intros H. pose proof (drain_write_frame n ty q (write_index q)) as HF.
  rewrite H in HF. assert (set_write_index (write_index q) q = q) as E by by destruct q.
  rewrite E, H in HF. simpl in HF. injection HF as ->. done.
Qed.

Lemma drain_rep n ty : ∀ q ms,
  queue_rep q ms → n = length ms → ∃ q', drain n ty q = Some q' ∧ queue_rep q' [].
Proof.
  induction n as [|n IH]; intros q ms HR Hn.
  - destruct ms; [|done]. by exists q.
  - destruct ms as [|m ms]; [done|]. injection Hn as Hn. cbn [drain].
    destruct (run_op_refines q (m :: ms) (OpPop ty (replicate 256 x00) (Header 0 0)) HR)
      as (q1 & Hr1 & HR1); [done|].
    rewrite Hr1. cbn [mbind option_bind]. apply IH with ms; [|done].
    revert HR1. unfold spec_op, fifo_pop.
    pose proof (proj2 (rep_head _ _ _ HR)) as Hm. rewrite length_replicate.
    destruct (Z.gtb_spec (Z.of_nat (length m.2)) (Z.of_nat 256)); [lia|].
    by destruct (m.1 =? type_u32 ty).
Qed.

(** The consumer's slot is one behind the producers': nothing that is pushed
    next reaches it. *)
Lemma skipped_index_hides q ty d :
  queue_rep q [] → (length d ≤ 256)%nat →
  ∃ q', run_op (OpPush ty d) (set_write_index (u64_wrap (write_index q + 1)) q)
        = Some (APush true, q') ∧
    ∀ ty' buf oh, run_op (OpPop ty' buf oh) q' = Some (APop false buf oh, q').
Proof.
  intros HR Hd. destruct HR as [Hv Hb Hr Hw Hn Hs Hf]. simpl in Hw.
  rewrite Z.add_0_r, u64_wrap_small in Hw by done.
  set (i := get_slot (u64_wrap (write_index q + 1))).
  assert (slots q !! i = Some empty_slot) as Hi.
  { unfold i. rewrite get_slot_wrap, Hw. apply (Hs 1%nat). lia. }
  eexists. split.
  - unfold run_op, try_push_message.
    destruct (Z.gtb_spec (Z.of_nat (length d)) MAX_PAYLOAD_SIZE);
      [unfold MAX_PAYLOAD_SIZE in *; lia|].
    cbn [slots set_write_index write_index]. fold i. rewrite Hi.
    cbn [mbind option_bind state empty_slot]. simpl (negb _).
    cbn [payload set_length set_type set_state]. rewrite Nat2Z.id.
    pose proof (push_fills_slot (type_u32 ty) d [] Hd) as Hp.
    rewrite app_nil_r in Hp. rewrite Hp. done.
  - intros ty' buf oh. unfold run_op. rewrite (pop_empty _ []); [done|]. left.
    cbn [slots set_slot read_index set_write_index]. fold i.
    rewrite list_lookup_insert_ne.
    + rewrite <- (Z.add_0_r (read_index q)). apply (Hs 0%nat). lia.
    + unfold i. rewrite get_slot_wrap, Hw. intros E%get_slot_inj; lia.
Qed.

(** * Memory safety on arbitrary contents *)

Lemma raw_slot q i s :
  raw_layout q → slots q !! i = Some s → length (payload s) = 256%nat.
Proof. intros [_ HF] Hi. by eapply Forall_lookup_1 in HF. Qed.

Lemma raw_set_slot q i s :
  raw_layout q → length (payload s) = 256%nat → raw_layout (set_slot i s q).
Proof.
  intros [Hl HF] Hs. split; simpl; [by rewrite length_insert|]. by apply Forall_insert.
Qed.

Lemma push_raw q ty src n :
  raw_layout q → (n ≤ Z.of_nat (length src)) →
  ∃ b q', try_push_message (Some q) ty (Some src) n = Some (b, Some q') ∧ raw_layout q'.
Proof.
  intros HR Hn. unfold try_push_message.
  destruct (Z.gtb_spec n MAX_PAYLOAD_SIZE) as [|Hmax]; [by eexists _, q|].
  destruct (lookup_slot q (write_index q) (proj1 HR)) as [s Hs].
  cbn [slots set_write_index]. rewrite Hs. cbn [mbind option_bind].
  case_match; [by eexists _, _|].
  pose proof (raw_slot _ _ _ HR Hs) as Hp. unfold MAX_PAYLOAD_SIZE in Hmax.
  assert (∃ p, (if n >? 0 then memcpy (payload s) src (Z.to_nat n) else Some (payload s)) = Some p
            ∧ length p = 256%nat) as (p & Hc & Hlp).
  { destruct (Z.gtb_spec n 0); [|by eexists].
    rewrite memcpy_ok by lia. eexists. split; [done|].
    rewrite length_app, length_take, length_drop. lia. }
  cbn [payload set_length set_type set_state]. rewrite Hc.
  eexists _, _. split; [done|]. by apply raw_set_slot.
Qed.

Lemma pop_raw q ty buf n oh :
  raw_layout q → n ≤ Z.of_nat (length buf) →
  ∃ b q' buf' oh', try_pop_message (Some q) ty (Some buf) n (Some oh)
    = Some (Popped b (Some q') (Some buf') (Some oh')) ∧
    raw_layout q' ∧ length buf' = length buf.
Proof.
  intros HR Hn. unfold try_pop_message.
  destruct (lookup_slot q (read_index q) (proj1 HR)) as [s Hs].
  pose proof (raw_slot _ _ _ HR Hs) as Hp.
  rewrite Hs. cbn [mbind option_bind]. case_match; [by eexists _, q, buf, oh|].
  destruct (Z.gtb_spec (hdr_length (header s)) MAX_PAYLOAD_SIZE) as [|Hmax];
    [by eexists _, q, buf, oh|].
  destruct (Z.gtb_spec (hdr_length (header s)) n) as [|Hfit]; [by eexists _, q, buf, oh|].
  unfold MAX_PAYLOAD_SIZE in *. set (m := hdr_type (header s) =? type_u32 ty).
  assert (∃ buf', (if m then if hdr_length (header s) >? 0
             then memcpy buf (payload s) (Z.to_nat (hdr_length (header s))) else Some buf
             else Some buf) = Some buf' ∧ length buf' = length buf) as (buf' & -> & Hb).
  { destruct m; [|by eexists]. destruct (Z.gtb_spec (hdr_length (header s)) 0); [|by eexists].
    rewrite memcpy_ok by lia. eexists. split; [done|].
    rewrite length_app, length_take, length_drop. lia. }
  cbn [mbind option_bind payload set_length set_type]. rewrite memset_all by done.
  eexists _, _, _, _. split_ands; [done|by apply raw_set_slot|done].
Qed.

(** * Properties *)

(** Freshly mapped memory, and a conversation on it. *)
Definition zero_memory : SharedQueueLayout :=
  Layout (Meta 0 0 0 0) 0 0 (replicate 16 (Slot 0 (Header 0 0) (replicate 256 x00))).

Definition demo_ops : list op :=
  [OpPush NUMBER [x39; x30; x00; x00]; OpPush TEXT [x68; x69; x00];
   OpPop TEXT (replicate 256 x00) (Header 0 0); OpPop TEXT (replicate 256 x00) (Header 0 0);
   OpPop TEXT (replicate 256 x00) (Header 0 0)].

(** C1: Functional refinement of the ring buffer.  Whatever the memory held,
    after [init_queue] any sequence of [try_push_message] and
    [try_pop_message] calls of one process in which no acceptable push meets
    sixteen waiting messages answers exactly as a bounded FIFO queue of typed
    messages does: same return values, same bytes in the caller's buffer, same
    header; and the memory again represents the FIFO's contents. *)
Theorem queue_refines_fifo q0 ops :
  raw_layout q0 → never_full ops [] = true →
  ∃ q q', init_queue q0 = Some q ∧
    run_ops ops q = Some ((spec_ops ops []).1, q') ∧
    queue_rep q' (spec_ops ops []).2.
Proof.
  intros HR Hok. destruct (init_queue_rep q0 HR) as (q & Hi & Hq).
  destruct (run_ops_refines ops q [] Hq Hok) as (q' & Hr & Hq').
  by exists q, q'.
Qed.

Lemma queue_refines_fifo_witness :
  ∃ q q', init_queue zero_memory = Some q ∧
    run_ops demo_ops q = Some ((spec_ops demo_ops []).1, q') ∧
    queue_rep q' (spec_ops demo_ops []).2.
Proof.
  apply (queue_refines_fifo zero_memory demo_ops); [|reflexivity].
  split; [reflexivity|]. repeat constructor.
Defined.

(** C7: Bounds safety on untrusted memory.  However the shared memory has been
    scribbled over (any indices, slot states, header lengths, payloads), a push
    of [n] bytes the caller owns and a pop into a buffer of at least the stated
    size never access memory outside the payload, the source or the buffer:
    both calls return, and the layout keeps its shape. *)
Theorem queue_memory_safe q ty src n buf size oh :
  raw_layout q → n ≤ Z.of_nat (length src) → size ≤ Z.of_nat (length buf) →
  (∃ b q', try_push_message (Some q) ty (Some src) n = Some (b, Some q') ∧ raw_layout q') ∧
  (∃ b q' buf' oh', try_pop_message (Some q) ty (Some buf) size (Some oh)
    = Some (Popped b (Some q') (Some buf') (Some oh')) ∧
    raw_layout q' ∧ length buf' = length buf).
Proof. intros HR Hn Hs. split; [by apply push_raw|by apply pop_raw]. Qed.

(** A slot that claims to be ready with a length of 4294967295 bytes. *)
Definition hostile_memory : SharedQueueLayout :=
  Layout (Meta 7 7 7 7) (2 ^ 64 - 1) 5
    (replicate 16 (Slot 2 (Header 9 (2 ^ 32 - 1)) (replicate 256 xff))).

Lemma queue_memory_safe_witness :
  (∃ b q', try_push_message (Some hostile_memory) TEXT (Some [x61; x00]) 2 = Some (b, Some q')
    ∧ raw_layout q') ∧
  (∃ b q' buf' oh', try_pop_message (Some hostile_memory) TEXT (Some [x61; x00]) 2
    (Some (Header 0 0)) = Some (Popped b (Some q') (Some buf') (Some oh')) ∧
    raw_layout q' ∧ length buf' = 2%nat).
Proof.
  apply (queue_memory_safe hostile_memory TEXT [x61; x00] 2 [x61; x00] 2 (Header 0 0)).
  - split; [reflexivity|]. repeat constructor.
  - vm_compute. discriminate.
  - vm_compute. discriminate.
Defined.

(** C40: A push refused because the ring is full still takes an index.  After
    one such refusal and the sixteen pops that empty the ring, the next push
    answers [true], yet no pop of any type with any buffer can see the message:
    the consumer looks at a slot the producers have skipped. *)
Theorem refused_push_strands_next q ms ty ty' d :
  queue_rep q ms → length ms = 16%nat → (length d ≤ 256)%nat →
  ∃ q1 q2 q3,
    run_op (OpPush ty d) q = Some (APush false, q1) ∧
    drain 16 ty' q1 = Some q2 ∧
    run_op (OpPush ty d) q2 = Some (APush true, q3) ∧
    ∀ ty'' buf oh, run_op (OpPop ty'' buf oh) q3 = Some (APop false buf oh, q3).
Proof.
  intros HR Hfull Hd.
  destruct (drain_rep 16 ty' q ms HR) as (qe & Hdr & HRe); [done|].
  destruct (skipped_index_hides qe ty d HRe Hd) as (q3 & Hp & Hhide).
  rewrite (drain_write_index _ _ _ _ Hdr) in Hp.
  eexists _, _, q3. split_ands; [| |exact Hp|exact Hhide].
  - unfold run_op. rewrite (push_full q ms) by (try done; unfold MAX_PAYLOAD_SIZE; lia).
    done.
  - by rewrite drain_write_frame, Hdr.
Qed.

(** Sixteen pushes fill the ring. *)
Definition full_memory : option SharedQueueLayout :=
  q ← init_queue zero_memory;
  '(_, q') ← run_ops (replicate 16 (OpPush NUMBER [x01])) q; Some q'.

Lemma refused_push_strands_next_witness :
  ∃ q q1 q2 q3, full_memory = Some q ∧
    run_op (OpPush TEXT [x61; x00]) q = Some (APush false, q1) ∧
    drain 16 TEXT q1 = Some q2 ∧
    run_op (OpPush TEXT [x61; x00]) q2 = Some (APush true, q3) ∧
    ∀ ty'' buf oh, run_op (OpPop ty'' buf oh) q3 = Some (APop false buf oh, q3).
Proof.
  destruct (init_queue_rep zero_memory) as (qi & Hi & HRi).
  { split; [reflexivity|]. repeat constructor. }
  destruct (run_ops_refines (replicate 16 (OpPush NUMBER [x01])) qi [] HRi) as (q & Hr & HR);
    [reflexivity|].
  exists q.
  destruct (refused_push_strands_next q _ TEXT TEXT [x61; x00] HR) as (q1 & q2 & q3 & H);
    [reflexivity|simpl; lia|].
  exists q1, q2, q3. split; [|exact H].
  unfold full_memory. rewrite Hi. cbn [mbind option_bind]. by rewrite Hr.
Defined.
