(* ===== verification/IpcQueueMpsc.v ===== *)
(** The shared-memory queue under concurrency: hw4/ipc_queue.cpp run by any
    number of producer processes and one consumer process.

    [try_push_message] and [try_pop_message] are taken apart into their
    accesses to the shared memory, in program order: one step per atomic
    operation, per header field and per byte of a [memcpy] or [memset].  The
    steps of different threads interleave arbitrarily.  Accesses are
    sequentially consistent; [mpsc_exclusive] shows that the non-atomic ones
    never conflict. *)

From S2P Require Import Prelude Machine IpcQueue.
From stdpp Require Import options.

Local Open Scope Z_scope.

#[local] Arguments replicate : simpl never.

(** * The machine *)

(** What the consumer learnt from a message it took off the queue. *)
Inductive outcome :=
  | Delivered (m : message)
  | Dropped (h : MessageHeader).

(** The shared memory, and two logs no step reads: the messages marked [READY],
    each with its producer's [index], and what the consumer made of the slots it
    marked [EMPTY], each with its own [index]. *)
Record mpsc := Mpsc {
  lay : SharedQueueLayout;
  published : list (Z * message);
  consumed : list (Z * outcome) }.

(** A thread between two accesses.  [P...] is inside [try_push_message] and
    [C...] inside [try_pop_message]; the arguments are the call's parameters
    and locals. *)
Inductive thread :=
  | PIdle
  | PIndexed (ty : MessageType) (data : list byte) (index : Z)
  | PClaimed (ty : MessageType) (data : list byte) (index : Z)
  | PTyped (ty : MessageType) (data : list byte) (index : Z)
  | PCopy (ty : MessageType) (data : list byte) (index : Z) (k : nat)
  | CIdle
  | CIndexed (ex : MessageType) (buf : list byte) (index : Z)
  | CReady (ex : MessageType) (buf : list byte) (index : Z)
  | CTyped (ex : MessageType) (buf : list byte) (index : Z) (t : Z)
  | CHeader (ex : MessageType) (buf : list byte) (index : Z) (h : MessageHeader)
  | CCopy (ex : MessageType) (buf : list byte) (index : Z) (h : MessageHeader) (k : nat)
  | CClear (ex : MessageType) (buf : list byte) (index : Z) (h : MessageHeader)
  | CClearLen (ex : MessageType) (buf : list byte) (index : Z) (h : MessageHeader)
  | CWipe (ex : MessageType) (buf : list byte) (index : Z) (h : MessageHeader) (k : nat)
  | CAdvance (index : Z).

(** An idle thread is told which call to make; a busy one goes on. *)
Inductive choice :=
  | Go
  | CallPush (ty : MessageType) (data : list byte)
  | CallPop (ex : MessageType) (buf : list byte).

Definition set_lay (q : SharedQueueLayout) (g : mpsc) : mpsc :=
  Mpsc q (published g) (consumed g).

(** A write to slot [i] by a function of the slot. *)
Definition upd_slot (i : nat) (f : MessageSlot → option MessageSlot) (g : mpsc) : option mpsc :=
  s ← slots (lay g) !! i; s' ← f s; Some (set_lay (set_slot i s' (lay g)) g).

(** One byte of the payload; outside it, undefined behaviour. *)
Definition write_byte (k : nat) (b : byte) (s : MessageSlot) : option MessageSlot :=
  if decide (k < length (payload s))%nat
  then Some (set_payload (<[k:=b]> (payload s)) s) else None.

Definition push_step (ch : choice) (g : mpsc) (l : thread) : option (mpsc * thread) :=
  match l, ch with
  | PIdle, CallPush ty data =>
      if Z.of_nat (length data) >? MAX_PAYLOAD_SIZE then Some (g, PIdle) else
      let index := write_index (lay g) in
      Some (set_lay (set_write_index (u64_wrap (index + 1)) (lay g)) g, PIndexed ty data index)
  | PIndexed ty data index, Go =>
      s ← slots (lay g) !! get_slot index;
      if negb (state s =? state_u32 EMPTY) then Some (g, PIdle) else
      Some (set_lay (set_slot (get_slot index) (set_state WRITING s) (lay g)) g,
            PClaimed ty data index)
  | PClaimed ty data index, Go =>
      g' ← upd_slot (get_slot index) (λ s, Some (set_type (type_u32 ty) s)) g;
      Some (g', PTyped ty data index)
  | PTyped ty data index, Go =>
      g' ← upd_slot (get_slot index)
             (λ s, Some (set_length (u32_wrap (Z.of_nat (length data))) s)) g;
      Some (g', PCopy ty data index 0)
  | PCopy ty data index k, Go =>
      match data !! k with
      | Some b =>
          g' ← upd_slot (get_slot index) (write_byte k b) g;
          Some (g', PCopy ty data index (S k))
      | None =>
          g' ← upd_slot (get_slot index) (λ s, Some (set_state READY s)) g;
          Some (Mpsc (lay g') (published g' ++ [(index, (type_u32 ty, data))]) (consumed g'), PIdle)
      end
  | _, _ => None
  end.

Definition pop_step (ch : choice) (g : mpsc) (l : thread) : option (mpsc * thread) :=
  match l, ch with
  | CIdle, CallPop ex buf => Some (g, CIndexed ex buf (read_index (lay g)))
  | CIndexed ex buf index, Go =>
      s ← slots (lay g) !! get_slot index;
      if negb (state s =? state_u32 READY) then Some (g, CIdle)
      else Some (g, CReady ex buf index)
  | CReady ex buf index, Go =>
      s ← slots (lay g) !! get_slot index;
      Some (g, CTyped ex buf index (hdr_type (header s)))
  | CTyped ex buf index t, Go =>
      s ← slots (lay g) !! get_slot index;
      Some (g, CHeader ex buf index (Header t (hdr_length (header s))))
  | CHeader ex buf index h, Go =>
      if hdr_length h >? MAX_PAYLOAD_SIZE then Some (g, CIdle)
      else if hdr_length h >? Z.of_nat (length buf) then Some (g, CIdle)
      else if hdr_type h =? type_u32 ex then Some (g, CCopy ex buf index h 0)
      else Some (g, CClear ex buf index h)
  | CCopy ex buf index h k, Go =>
      if bool_decide (Z.of_nat k < hdr_length h) then
        s ← slots (lay g) !! get_slot index;
        b ← payload s !! k;
        if decide (k < length buf)%nat
        then Some (g, CCopy ex (<[k:=b]> buf) index h (S k)) else None
      else Some (g, CClear ex buf index h)
  | CClear ex buf index h, Go =>
      g' ← upd_slot (get_slot index) (λ s, Some (set_type (type_u32 UNKNOWN) s)) g;
      Some (g', CClearLen ex buf index h)
  | CClearLen ex buf index h, Go =>
      g' ← upd_slot (get_slot index) (λ s, Some (set_length 0 s)) g;
      Some (g', CWipe ex buf index h 0)
  | CWipe ex buf index h k, Go =>
      if bool_decide (Z.of_nat k < MAX_PAYLOAD_SIZE) then
        g' ← upd_slot (get_slot index) (write_byte k x00) g;
        Some (g', CWipe ex buf index h (S k))
      else
        g' ← upd_slot (get_slot index) (λ s, Some (set_state EMPTY s)) g;
        let o := if hdr_type h =? type_u32 ex
                 then Delivered (hdr_type h, take (Z.to_nat (hdr_length h)) buf)
                 else Dropped h in
        Some (Mpsc (lay g') (published g') (consumed g' ++ [(index, o)]), CAdvance index)
  | CAdvance index, Go =>
      Some (set_lay (set_read_index (u64_wrap (index + 1)) (lay g)) g, CIdle)
  | _, _ => None
  end.

Definition is_consumer (l : thread) : bool :=
  match l with
  | PIdle | PIndexed _ _ _ | PClaimed _ _ _ | PTyped _ _ _ | PCopy _ _ _ _ => false
  | _ => true
  end.

Definition mpsc_tstep (_ : nat) (ch : choice) (g : mpsc) (l : thread) : option (mpsc * thread) :=
  if is_consumer l then pop_step ch g l else push_step ch g l.

Definition mpsc_step : act choice → conf mpsc thread → option (conf mpsc thread) :=
  conf_step mpsc_tstep.

(** One consumer and [n] producers around the memory [q]. *)
Definition mpsc_init (q : SharedQueueLayout) (n : nat) : conf mpsc thread :=
  Conf (Mpsc q [] []) (CIdle :: replicate n PIdle).

(** * Who uses which slot *)

(** The thread's next accesses go to the non-atomic part of slot [i]. *)
Definition touches (i : nat) (l : thread) : bool :=
  match l with
  | PClaimed _ _ x | PTyped _ _ x | PCopy _ _ x _ | CReady _ _ x | CTyped _ _ x _
  | CHeader _ _ x _ | CCopy _ _ x _ _ | CClear _ _ x _ | CClearLen _ _ x _
  | CWipe _ _ x _ _ => bool_decide (get_slot x = i)
  | PIdle | PIndexed _ _ _ | CIdle | CIndexed _ _ _ | CAdvance _ => false
  end.

(** The slot carries the message [m]. *)
Definition slot_holds (s : MessageSlot) (m : message) : Prop :=
  header s = Header m.1 (Z.of_nat (length m.2)) ∧ (length m.2 ≤ 256)%nat ∧
  take (length m.2) (payload s) = m.2.

(** What the consumer reports is what the message was. *)
Definition outcome_of (ex : MessageType) (buf : list byte) (h : MessageHeader) (m : message) : Prop :=
  h = Header m.1 (Z.of_nat (length m.2)) ∧
  ((hdr_type h =? type_u32 ex) = true → take (length m.2) buf = m.2).

Definition explains (a : Z * outcome) (b : Z * message) : Prop :=
  get_slot a.1 = get_slot b.1 ∧
  match a.2 with
  | Delivered m => b.2 = m
  | Dropped h => h = Header b.2.1 (Z.of_nat (length b.2.2))
  end.

(** What a thread knows about the slot [s] it touches, where [o] is the
    published message the slot stands for. *)
Definition thread_ok (s : MessageSlot) (o : option (Z * message)) (l : thread) : Prop :=
  match l with
  | PClaimed _ d _ => state s = 1 ∧ o = None
  | PTyped ty d _ => state s = 1 ∧ o = None ∧ hdr_type (header s) = type_u32 ty
  | PCopy ty d _ k =>
      state s = 1 ∧ o = None ∧ header s = Header (type_u32 ty) (Z.of_nat (length d)) ∧
      (k ≤ length d)%nat ∧ take k (payload s) = take k d
  | CReady _ _ x => state s = 2 ∧ ∃ m, o = Some m ∧ slot_holds s m.2 ∧ get_slot m.1 = get_slot x
  | CTyped _ _ x t =>
      state s = 2 ∧ ∃ m, o = Some m ∧ slot_holds s m.2 ∧ get_slot m.1 = get_slot x ∧ t = m.2.1
  | CHeader _ _ x h =>
      state s = 2 ∧ ∃ m, o = Some m ∧ slot_holds s m.2 ∧ get_slot m.1 = get_slot x ∧
        h = header s
  | CCopy ex buf x h k =>
      state s = 2 ∧ ∃ m, o = Some m ∧ slot_holds s m.2 ∧ get_slot m.1 = get_slot x ∧
        h = header s ∧ (hdr_type h =? type_u32 ex) = true ∧
        (k ≤ length m.2.2 ≤ length buf)%nat ∧ take k buf = take k m.2.2
  | CClear ex buf x h | CClearLen ex buf x h | CWipe ex buf x h _ =>
      state s = 2 ∧ ∃ m, o = Some m ∧ get_slot m.1 = get_slot x ∧ outcome_of ex buf h m.2
  | PIdle | PIndexed _ _ _ | CIdle | CIndexed _ _ _ | CAdvance _ => False
  end.

(** A producer only starts a message that fits. *)
Definition local_ok (l : thread) : Prop :=
  match l with
  | PIndexed _ d _ | PClaimed _ d _ | PTyped _ d _ | PCopy _ d _ _ => (length d ≤ 256)%nat
  | _ => True
  end.

(** A slot used by [n] threads that stands for [o]. *)
Definition slot_ok (i n : nat) (s : MessageSlot) (o : option (Z * message)) : Prop :=
  length (payload s) = 256%nat ∧
  ((state s = 0 ∧ n = 0%nat ∧ o = None) ∨
   (state s = 1 ∧ n = 1%nat ∧ o = None) ∨
   (state s = 2 ∧ (n ≤ 1)%nat ∧
    ∃ m, o = Some m ∧ get_slot m.1 = i ∧ (n = 0%nat → slot_holds s m.2))).

(** The invariant; [hold] says which published message each slot stands for. *)
Record mpsc_inv (c : conf mpsc thread) (hold : list (option (Z * message))) : Prop := {
  inv_hold : length hold = length (slots (lay (shared c)));
  inv_len : length (slots (lay (shared c))) = 16%nat;
  inv_slots : ∀ i s o, slots (lay (shared c)) !! i = Some s → hold !! i = Some o →
    slot_ok i (count (touches i) (threads c)) s o;
  inv_threads : ∀ t l i s o, threads c !! t = Some l → touches i l = true →
    slots (lay (shared c)) !! i = Some s → hold !! i = Some o → thread_ok s o l;
  inv_local : ∀ t l, threads c !! t = Some l → local_ok l;
  inv_roles : ∀ t l, threads c !! t = Some l → is_consumer l = bool_decide (t = 0%nat);
  inv_log : ∃ ms, Forall2 explains (consumed (shared c)) ms ∧
    published (shared c) ≡ₚ ms ++ omap id hold }.

(** What the slots stand for after a step of a thread from [l] to [l']: a producer
    that ends its copy publishes, the consumer that ends its wipe takes. *)
Definition hold_after (l l' : thread) (hold : list (option (Z * message))) : list (option (Z * message)) :=
  match l, l' with
  | PCopy ty data index _, PIdle => <[get_slot index:=Some (index, (type_u32 ty, data))]> hold
  | CWipe _ _ index _ _, CAdvance _ => <[get_slot index:=None]> hold
  | _, _ => hold
  end.

(** * Preservation *)

(** A thread that leaves the slots alone and touches none before or after. *)
Lemma inv_elsewhere c hold t l l' g' :
  mpsc_inv c hold → threads c !! t = Some l →
  slots (lay g') = slots (lay (shared c)) →
  published g' = published (shared c) → consumed g' = consumed (shared c) →
  (∀ i, touches i l = false ∧ touches i l' = false) →
  local_ok l' → is_consumer l' = is_consumer l →
  mpsc_inv (Conf g' (<[t:=l']> (threads c))) hold.
Proof.
  intros [H1 H2 H3 H4 H5 H6 H7] Ht Hs Hp Hc Hn Hl Hr.
  assert (∀ i, count (touches i) (<[t:=l']> (threads c)) = count (touches i) (threads c)) as Hcnt.
  { intros i. pose proof (count_insert (touches i) _ _ _ l' Ht) as E.
    destruct (Hn i) as [E1 E2]. rewrite E1, E2 in E. simpl in E. lia. }
  constructor; cbn [shared threads]; rewrite ?Hs, ?Hp, ?Hc; try done.
  - intros i s o. rewrite Hcnt. apply H3.
  - intros t2 l2 i s o [[-> ->]|[_ H]]%list_lookup_insert_Some'; [|by apply (H4 t2)].
    by rewrite (proj2 (Hn i)).
  - intros t2 l2 [[-> ->]|[_ H]]%list_lookup_insert_Some'; [done|by apply (H5 t2)].
  - intros t2 l2 [[-> ->]|[_ H]]%list_lookup_insert_Some'; [rewrite Hr|]; by apply H6.
Qed.

(** A thread that changes slot [i], which no other thread touches. *)
Lemma inv_at c hold t l l' g' i s s' o o' :
  mpsc_inv c hold → threads c !! t = Some l →
  slots (lay (shared c)) !! i = Some s → hold !! i = Some o →
  (count (touches i) (threads c) ≤ Nat.b2n (touches i l))%nat →
  (∀ j, j ≠ i → touches j l = false ∧ touches j l' = false) →
  slots (lay g') = <[i:=s']> (slots (lay (shared c))) →
  slot_ok i (Nat.b2n (touches i l')) s' o' →
  (touches i l' = true → thread_ok s' o' l') →
  local_ok l' → is_consumer l' = is_consumer l →
  (∃ ms, Forall2 explains (consumed g') ms ∧
    published g' ≡ₚ ms ++ omap id (<[i:=o']> hold)) →
  mpsc_inv (Conf g' (<[t:=l']> (threads c))) (<[i:=o']> hold).
Proof.
  intros [H1 H2 H3 H4 H5 H6 H7] Ht Hi Ho Hone Hj Hs' Hok Hth Hl Hr Hlog.
  assert (∀ j, j ≠ i → count (touches j) (<[t:=l']> (threads c)) = count (touches j) (threads c)) as Hcj.
  { intros j Hne. pose proof (count_insert (touches j) _ _ _ l' Ht) as E.
    destruct (Hj j Hne) as [E1 E2]. rewrite E1, E2 in E. simpl in E. lia. }
  assert (count (touches i) (<[t:=l']> (threads c)) = Nat.b2n (touches i l')) as Hci.
  { pose proof (count_insert (touches i) _ _ _ l' Ht) as E.
    destruct (touches i l) eqn:El; simpl in *; [|lia].
    pose proof (count_pos (touches i) _ _ _ Ht El). lia. }
  assert (∀ t2 l2, t2 ≠ t → threads c !! t2 = Some l2 → touches i l2 = false) as Hothers.
  { intros t2 l2 Hne H. destruct (touches i l2) eqn:E2; [|done].
    pose proof (count_pos (touches i) _ _ _ H E2).
    destruct (touches i l) eqn:El; simpl in *; [|lia].
    destruct Hne. by apply (count_unique (touches i) (threads c) t2 t l2 l); [lia|..]. }
  constructor; cbn [shared threads]; rewrite ?Hs', ?length_insert; try done.
  - intros j sj oj [[-> ->]|[Hne Hsj]]%list_lookup_insert_Some' [[E ->]|[Hne' Hoj]]%list_lookup_insert_Some';
      try done.
    + by rewrite Hci.
    + rewrite Hcj by done. by apply H3.
  - intros t2 l2 j sj oj [[-> ->]|[Hne2 H]]%list_lookup_insert_Some' Htj
      [[-> ->]|[Hne Hsj]]%list_lookup_insert_Some' [[E ->]|[Hne' Hoj]]%list_lookup_insert_Some';
      try done; auto.
    + by rewrite (proj2 (Hj j Hne)) in Htj.
    + by rewrite (Hothers t2 l2) in Htj.
    + by eapply (H4 t2).
  - intros t2 l2 [[-> ->]|[_ H]]%list_lookup_insert_Some'; [done|by apply (H5 t2)].
  - intros t2 l2 [[-> ->]|[_ H]]%list_lookup_insert_Some'; [rewrite Hr|]; by apply H6.
Qed.

Lemma touches_only i j l : touches i l = true → j ≠ i → touches j l = false.
Proof.
  intros Hi Hj. destruct l; simpl in *; try done;
    apply bool_decide_eq_true_1 in Hi; apply bool_decide_eq_false_2; congruence.
Qed.

(** The slot a thread touches, and what is known of it. *)
Lemma inv_touch c hold t l i :
  mpsc_inv c hold → threads c !! t = Some l → touches i l = true → (i < 16)%nat →
  ∃ s o, slots (lay (shared c)) !! i = Some s ∧ hold !! i = Some o ∧
    thread_ok s o l ∧ length (payload s) = 256%nat ∧
    count (touches i) (threads c) = 1%nat.
Proof.
  intros HI Ht Hi Hlt.
  destruct (lookup_lt_is_Some_2 (slots (lay (shared c))) i) as [s Hs];
    [by rewrite (inv_len _ _ HI)|].
  destruct (lookup_lt_is_Some_2 hold i) as [o Ho];
    [by rewrite (inv_hold _ _ HI), (inv_len _ _ HI)|].
  exists s, o. pose proof (inv_threads _ _ HI _ _ _ _ _ Ht Hi Hs Ho) as Hth.
  pose proof (inv_slots _ _ HI _ _ _ Hs Ho) as [Hp Hst].
  pose proof (count_pos (touches i) _ _ _ Ht Hi).
  split_ands; try done.
  destruct Hst as [(_ & ? & _)|[(_ & ? & _)|(_ & ? & _)]]; lia.
Qed.

(** Work inside a slot by the thread that has it. *)
Lemma inv_private c hold t l l' g' i s s' o :
  mpsc_inv c hold → threads c !! t = Some l → touches i l = true →
  slots (lay (shared c)) !! i = Some s → hold !! i = Some o →
  touches i l' = true → slots (lay g') = <[i:=s']> (slots (lay (shared c))) →
  state s' = state s → length (payload s') = length (payload s) →
  thread_ok s' o l' → local_ok l' → is_consumer l' = is_consumer l →
  published g' = published (shared c) → consumed g' = consumed (shared c) →
  mpsc_inv (Conf g' (<[t:=l']> (threads c))) hold.
Proof.
  intros HI Ht Hi Hs Ho Hi' Hs' Hst Hlen Hok Hl Hr Hp Hc.
  rewrite <- (list_insert_id hold i o Ho).
  pose proof (inv_slots _ _ HI _ _ _ Hs Ho) as [Hpay Hcase].
  pose proof (count_pos (touches i) _ _ _ Ht Hi).
  apply (inv_at c hold t l l' g' i s s' o o); try done.
  - rewrite Hi. destruct Hcase as [(_&?&_)|[(_&?&_)|(_&?&_)]]; simpl; lia.
  - intros j Hj. split; by eapply touches_only.
  - rewrite Hi'. split; [congruence|].
    destruct Hcase as [(_&?&_)|[(?&_&?)|(?&_&m&?&?&_)]]; [lia|..].
    + right. left. split_ands; [congruence|done|done].
    + right. right. split_ands; [congruence|simpl; lia|]. exists m. split_ands; try done.
  - rewrite Hp, Hc, list_insert_id by done. apply (inv_log _ _ HI).
Qed.

(** A thread that starts using a slot nobody uses. *)
Lemma inv_acquire c hold t l l' g' i s s' o :
  mpsc_inv c hold → threads c !! t = Some l → (∀ j, touches j l = false) →
  slots (lay (shared c)) !! i = Some s → hold !! i = Some o →
  count (touches i) (threads c) = 0%nat → touches i l' = true →
  slots (lay g') = <[i:=s']> (slots (lay (shared c))) →
  slot_ok i 1 s' o → thread_ok s' o l' → local_ok l' → is_consumer l' = is_consumer l →
  published g' = published (shared c) → consumed g' = consumed (shared c) →
  mpsc_inv (Conf g' (<[t:=l']> (threads c))) hold.
Proof.
  intros HI Ht Hn Hs Ho H0 Hi' Hs' Hok Hth Hl Hr Hp Hc.
  rewrite <- (list_insert_id hold i o Ho).
  apply (inv_at c hold t l l' g' i s s' o o); try done.
  - lia.
  - intros j Hj. split; [done|by eapply touches_only].
  - by rewrite Hi'.
  - rewrite Hp, Hc, list_insert_id by done. apply (inv_log _ _ HI).
Qed.

(** A thread that stops using its slot. *)
Lemma inv_release c hold t l l' g' i s s' o o' :
  mpsc_inv c hold → threads c !! t = Some l → touches i l = true →
  slots (lay (shared c)) !! i = Some s → hold !! i = Some o →
  count (touches i) (threads c) = 1%nat → (∀ j, touches j l' = false) →
  slots (lay g') = <[i:=s']> (slots (lay (shared c))) →
  slot_ok i 0 s' o' → local_ok l' → is_consumer l' = is_consumer l →
  (∃ ms, Forall2 explains (consumed g') ms ∧
    published g' ≡ₚ ms ++ omap id (<[i:=o']> hold)) →
  mpsc_inv (Conf g' (<[t:=l']> (threads c))) (<[i:=o']> hold).
Proof.
  intros HI Ht Hi Hs Ho H1 Hn Hs' Hok Hl Hr Hlog.
  apply (inv_at c hold t l l' g' i s s' o o'); try done.
  - rewrite H1, Hi. done.
  - intros j Hj. split; [by eapply touches_only|done].
  - by rewrite Hn.
  - by rewrite Hn.
Qed.

(** A ready slot is free for the consumer. *)
Lemma inv_ready_free c hold t l i s o :
  mpsc_inv c hold → threads c !! t = Some l → is_consumer l = true → touches i l = false →
  slots (lay (shared c)) !! i = Some s → hold !! i = Some o → state s = 2 →
  count (touches i) (threads c) = 0%nat.
Proof.
  intros HI Ht Hc Hi Hs Ho H2.
  destruct (decide (1 ≤ count (touches i) (threads c))%nat) as [Hge|]; [|lia].
  destruct (count_witness _ _ Hge) as (t2 & l2 & Ht2 & Hi2).
  pose proof (inv_threads _ _ HI _ _ _ _ _ Ht2 Hi2 Hs Ho) as Hth.
  assert (is_consumer l2 = true) as Hc2.
  { destruct l2; simpl in *; try done; exfalso; destruct Hth; lia. }
  pose proof (inv_roles _ _ HI _ _ Ht2) as E2. pose proof (inv_roles _ _ HI _ _ Ht) as E1.
  rewrite Hc2 in E2. rewrite Hc in E1.
  symmetry in E1, E2. apply bool_decide_eq_true_1 in E1, E2. congruence.
Qed.

Lemma upd_slot_inv i f g g' :
  upd_slot i f g = Some g' →
  ∃ s s', slots (lay g) !! i = Some s ∧ f s = Some s' ∧
    g' = set_lay (set_slot i s' (lay g)) g.
Proof.
  unfold upd_slot. intros H.
  destruct (slots (lay g) !! i) as [s|] eqn:Hs; simplify_eq/=.
  destruct (f s) as [s'|] eqn:Hf; simplify_eq/=. by exists s, s'.
Qed.

Lemma touches_self x : bool_decide (get_slot x = get_slot x) = true.
Proof. by apply bool_decide_eq_true_2. Qed.

(** Bring the slot of the moving thread into the context. *)
Ltac own_slot HI Ht x :=
  destruct (inv_touch _ _ _ _ (get_slot x) HI Ht (touches_self x) (get_slot_bound x))
    as (s & o & Hs & Ho & Hth & Hpay & Hcnt).

(** Open a write to that slot. *)
Ltac open_upd H :=
  match type of H with
  | context [upd_slot ?i ?f ?g] =>
      let Hu := fresh in
      destruct (upd_slot i f g) eqn:Hu; simplify_eq/=;
      apply upd_slot_inv in Hu as (?s & ?s' & ?Hs1 & Hf & ->); simplify_eq/=
  end.

Lemma push_preserves c hold t l ch g' l' :
  mpsc_inv c hold → threads c !! t = Some l → is_consumer l = false →
  push_step ch (shared c) l = Some (g', l') →
  mpsc_inv (Conf g' (<[t:=l']> (threads c))) (hold_after l l' hold).
Proof.
  intros HI Ht Hc Hstep. pose proof (inv_local _ _ HI _ _ Ht) as Hl.
  destruct l, ch; simpl in Hc, Hstep; try discriminate.
  - (* fetch_add *)
    destruct (Z.gtb_spec (Z.of_nat (length data)) MAX_PAYLOAD_SIZE) as [|Hle]; simplify_eq;
      (eapply inv_elsewhere; [done|done|..]; try done).
    simpl. unfold MAX_PAYLOAD_SIZE in *. lia.
  - (* compare_exchange_strong *)
    destruct (slots (lay (shared c)) !! get_slot index) as [s|] eqn:Hs; simplify_eq/=.
    destruct (lookup_lt_is_Some_2 hold (get_slot index)) as [o Ho];
      [rewrite (inv_hold _ _ HI); by eapply lookup_lt_Some|].
    pose proof (inv_slots _ _ HI _ _ _ Hs Ho) as [Hp Hst].
    destruct (Z.eqb_spec (state s) 0) as [E0|E0]; simplify_eq/=.
    + destruct Hst as [(_ & Hn & ->)|[(?&_)|(?&_)]]; [|lia..].
      eapply inv_acquire with (l' := PClaimed ty data index) (i := get_slot index); try done;
        [apply touches_self|].
      split; [done|]. right. by left.
    + eapply inv_elsewhere; [done|done|..]; done.
  - (* header.type *) own_slot HI Ht index. open_upd Hstep.
    eapply inv_private with (l' := PTyped ty data index) (i := get_slot index); try done;
      try apply touches_self. destruct Hth. by split_ands.
  - (* header.length *) own_slot HI Ht index. open_upd Hstep.
    eapply inv_private with (l' := PCopy ty data index 0) (i := get_slot index); try done;
      try apply touches_self. destruct Hth as (? & -> & Hty).
    rewrite u32_wrap_small by lia. simpl. rewrite Hty. split_ands; try done. lia.
  - own_slot HI Ht index. destruct Hth as (Hst & -> & Hh & Hk & Htk).
    destruct (data !! k) as [b|] eqn:Hb.
    + (* one byte *) open_upd Hstep. unfold write_byte in Hf.
      case_decide; simplify_eq.
      eapply inv_private with (l' := PCopy ty data index (S k)) (i := get_slot index); try done;
        try apply touches_self; simpl; rewrite ?length_insert; try done.
      apply lookup_lt_Some in Hb as ?. split_ands; try done.
      rewrite (take_S_r _ _ b) by (by apply list_lookup_insert_eq).
      rewrite (take_S_r data _ b) by done. by rewrite take_insert_ge, Htk by done.
    + (* publish *) open_upd Hstep. apply lookup_ge_None in Hb.
      assert (k = length data) as -> by lia.
      cbn [hold_after].
      eapply inv_release with (l' := PIdle) (i := get_slot index); try done; try apply touches_self.
      * split; [done|]. right. right. split_ands; [done|simpl; lia|].
        eexists. split_ands; [done|done|]. intros _.
        split; [done|]. split; [done|]. cbn. by rewrite Htk, firstn_all.
      * destruct (inv_log _ _ HI) as (ms & Hms & Hperm). exists ms. split; [done|].
        cbn [published set_lay]. rewrite Hperm.
        pose proof (omap_insert_perm hold _ None (Some (index, (type_u32 ty, data))) Ho) as E.
        simpl in E. rewrite <- E. rewrite <- app_assoc. f_equiv.
        by rewrite <- Permutation_cons_append.
Qed.

(** What a reader of a ready slot sees. *)
Lemma slot_holds_byte s m k b :
  slot_holds s m → (k < length m.2)%nat → payload s !! k = Some b → m.2 !! k = Some b.
Proof.
  intros (_ & _ & Ht) Hk Hb. rewrite <- Ht, lookup_take_lt by done. done.
Qed.

(** Reading without writing, inside the slot the consumer has. *)
Lemma inv_read c hold t l l' i s o :
  mpsc_inv c hold → threads c !! t = Some l → touches i l = true →
  slots (lay (shared c)) !! i = Some s → hold !! i = Some o →
  touches i l' = true → thread_ok s o l' → local_ok l' → is_consumer l' = is_consumer l →
  mpsc_inv (Conf (shared c) (<[t:=l']> (threads c))) hold.
Proof.
  intros. eapply inv_private with (i := i) (s' := s); try done. by rewrite list_insert_id.
Qed.

Lemma pop_state_preserves c hold t ex buf index g' l' :
  mpsc_inv c hold → threads c !! t = Some (CIndexed ex buf index) →
  pop_step Go (shared c) (CIndexed ex buf index) = Some (g', l') →
  mpsc_inv (Conf g' (<[t:=l']> (threads c))) hold.
Proof.
  intros HI Ht Hstep. simpl in Hstep.
  destruct (slots (lay (shared c)) !! get_slot index) as [s|] eqn:Hs; simplify_eq/=.
  destruct (lookup_lt_is_Some_2 hold (get_slot index)) as [o Ho];
    [rewrite (inv_hold _ _ HI); by eapply lookup_lt_Some|].
  destruct (Z.eqb_spec (state s) 2) as [E2|E2]; simplify_eq/=;
    [|by eapply inv_elsewhere; [done|done|..]].
  pose proof (inv_ready_free _ _ _ _ _ _ _ HI Ht eq_refl eq_refl Hs Ho E2) as Hn.
  pose proof (inv_slots _ _ HI _ _ _ Hs Ho) as [Hp Hst].
  destruct Hst as [(?&_)|[(?&_)|(_ & _ & m & -> & Hm & Hh)]]; [lia..|].
  eapply inv_acquire with (l' := CReady ex buf index) (i := get_slot index) (s' := s); try done.
  - apply touches_self.
  - by rewrite list_insert_id.
  - split; [done|]. right. right. split_ands; [done|lia|]. by exists m.
  - split; [done|]. exists m. split_ands; auto.
Qed.

Lemma pop_guard_preserves c hold t ex buf index h g' l' :
  mpsc_inv c hold → threads c !! t = Some (CHeader ex buf index h) →
  pop_step Go (shared c) (CHeader ex buf index h) = Some (g', l') →
  mpsc_inv (Conf g' (<[t:=l']> (threads c))) hold.
Proof.
  intros HI Ht Hstep. own_slot HI Ht index.
  destruct Hth as (Hst & m & -> & Hm & Hx & ->).
  assert (∀ b : bool, b = true → mpsc_inv (Conf (shared c) (<[t:=CIdle]> (threads c))) hold) as Hgive.
  { intros _ _. rewrite <- (list_insert_id hold _ _ Ho).
    eapply inv_release with (i := get_slot index) (s' := s) (l' := CIdle); try done;
      try apply touches_self.
    - by rewrite list_insert_id.
    - split; [done|]. right. right. split_ands; [done|lia|]. by exists m.
    - rewrite list_insert_id by done. apply (inv_log _ _ HI). }
  simpl in Hstep.
  destruct (_ >? _) eqn:E1 in Hstep; simplify_eq; [by apply (Hgive true)|].
  destruct (_ >? _) eqn:E3 in Hstep; simplify_eq; [by apply (Hgive true)|].
  destruct Hm as (Hh & Hlen & Htk). rewrite Hh in *. simpl in *.
  destruct (m.2.1 =? type_u32 ex) eqn:Ety; simplify_eq;
    (eapply inv_read with (i := get_slot index); try done; try apply touches_self;
     split; [done|]; exists m; split_ands; try done).
  - lia.
  - lia.
  - split; [done|]. simpl. congruence.
Qed.

Lemma pop_copy_preserves c hold t ex buf index h k g' l' :
  mpsc_inv c hold → threads c !! t = Some (CCopy ex buf index h k) →
  pop_step Go (shared c) (CCopy ex buf index h k) = Some (g', l') →
  mpsc_inv (Conf g' (<[t:=l']> (threads c))) hold.
Proof.
  intros HI Ht Hstep. own_slot HI Ht index.
  destruct Hth as (Hst & m & -> & Hm & Hx & -> & Hty & Hk & Htk).
  pose proof Hm as (Hh & Hlen & Hpl). rewrite Hh in Hty. simpl in Hstep. rewrite Hh in Hstep.
  simpl in Hstep. case_bool_decide as Hlt.
  - rewrite Hs in Hstep. simpl in Hstep.
    destruct (payload s !! k) as [b|] eqn:Hb; simplify_eq/=. case_decide; simplify_eq.
    eapply inv_read with (i := get_slot index); try done; try apply touches_self.
    split; [done|]. exists m. rewrite length_insert. split_ands; try done; [lia|lia|].
    rewrite (take_S_r _ _ b) by (by apply list_lookup_insert_eq).
    rewrite (take_S_r m.2.2 _ b) by (eapply slot_holds_byte; [done|lia|done]).
    by rewrite take_insert_ge, Htk by done.
  - simplify_eq.
    eapply inv_read with (i := get_slot index); try done; try apply touches_self.
    split; [done|]. exists m. split_ands; try done. split; [done|]. intros _.
    assert (k = length m.2.2) as -> by lia. by rewrite Htk, firstn_all.
Qed.

(** What the consumer reports of the message it takes. *)
Definition report (ex : MessageType) (buf : list byte) (h : MessageHeader) : outcome :=
  if hdr_type h =? type_u32 ex
  then Delivered (hdr_type h, take (Z.to_nat (hdr_length h)) buf) else Dropped h.

Lemma report_explains ex buf index h m :
  get_slot m.1 = get_slot index → outcome_of ex buf h m.2 → explains (index, report ex buf h) m.
Proof.
  intros Hx [-> Hbuf]. split; [done|]. unfold report. simpl in *.
  destruct (m.2.1 =? type_u32 ex) eqn:Ety; simpl; [|done].
  rewrite Nat2Z.id, Hbuf by done. by destruct m as [? []].
Qed.

Lemma pop_wipe_preserves c hold t ex buf index h k g' l' :
  mpsc_inv c hold → threads c !! t = Some (CWipe ex buf index h k) →
  pop_step Go (shared c) (CWipe ex buf index h k) = Some (g', l') →
  mpsc_inv (Conf g' (<[t:=l']> (threads c))) (hold_after (CWipe ex buf index h k) l' hold).
Proof.
  intros HI Ht Hstep. own_slot HI Ht index. simpl in Hstep. case_bool_decide as Hlt.
  - open_upd Hstep. unfold write_byte in Hf. case_decide; simplify_eq.
    eapply inv_private with (l' := CWipe ex buf index h (S k)) (i := get_slot index); try done;
      try apply touches_self. simpl. by rewrite length_insert.
  - open_upd Hstep. destruct Hth as (Hst & m & -> & Hx & Hout).
    cbn [hold_after].
    eapply inv_release with (l' := CAdvance index) (i := get_slot index); try done;
      try apply touches_self.
    + split; [done|]. by left.
    + destruct (inv_log _ _ HI) as (ms & Hms & Hperm). exists (ms ++ [m]). split.
      * cbn [consumed set_lay]. apply Forall2_app; [done|]. constructor; [|constructor].
        by apply report_explains.
      * cbn [published set_lay]. rewrite Hperm.
        pose proof (omap_insert_perm hold _ (Some m) None Ho) as E. simpl in E.
        by rewrite E, <- app_assoc.
Qed.

Lemma pop_preserves c hold t l ch g' l' :
  mpsc_inv c hold → threads c !! t = Some l → is_consumer l = true →
  pop_step ch (shared c) l = Some (g', l') →
  mpsc_inv (Conf g' (<[t:=l']> (threads c))) (hold_after l l' hold).
Proof.
  intros HI Ht Hc Hstep. destruct l, ch; try discriminate;
    eauto using pop_state_preserves, pop_guard_preserves, pop_copy_preserves, pop_wipe_preserves;
    simpl in Hstep.
  - simplify_eq. by eapply inv_elsewhere; [done|done|..].
  - own_slot HI Ht index. rewrite Hs in Hstep. simplify_eq/=.
    destruct Hth as (Hst & m & -> & Hm & Hx).
    eapply inv_read with (i := get_slot index); try done; try apply touches_self.
    split; [done|]. exists m. split_ands; try done. by destruct Hm as (-> & _).
  - own_slot HI Ht index. rewrite Hs in Hstep. simplify_eq/=.
    destruct Hth as (Hst & m & -> & Hm & Hx & ->).
    eapply inv_read with (i := get_slot index); try done; try apply touches_self.
    split; [done|]. exists m. split_ands; try done. by destruct Hm as (-> & _).
  - own_slot HI Ht index. open_upd Hstep.
    eapply inv_private with (l' := CClearLen ex buf index h) (i := get_slot index); try done;
      apply touches_self.
  - own_slot HI Ht index. open_upd Hstep.
    eapply inv_private with (l' := CWipe ex buf index h 0) (i := get_slot index); try done;
      apply touches_self.
  - simplify_eq. by eapply inv_elsewhere; [done|done|..].
Qed.

Lemma mpsc_preserves c hold t l ch g' l' :
  mpsc_inv c hold → threads c !! t = Some l → mpsc_tstep t ch (shared c) l = Some (g', l') →
  mpsc_inv (Conf g' (<[t:=l']> (threads c))) (hold_after l l' hold).
Proof.
  intros HI Ht Hstep. unfold mpsc_tstep in Hstep. destruct (is_consumer l) eqn:Hc.
  - by eapply pop_preserves.
  - by eapply push_preserves.
Qed.

Lemma count_replicate_idle i n : count (touches i) (CIdle :: replicate n PIdle) = 0%nat.
Proof. unfold count. simpl. induction n; [done|]. by rewrite replicate_S. Qed.

Lemma mpsc_init_inv q n : queue_rep q [] → mpsc_inv (mpsc_init q n) (replicate 16 None).
Proof.
  intros HR. pose proof (rep_nslots _ _ HR) as Hn.
  assert (∀ i s, slots q !! i = Some s → s = empty_slot) as Hempty.
  { intros i s Hs. apply lookup_lt_Some in Hs as Hi. rewrite Hn in Hi.
    set (k := Z.to_nat ((Z.of_nat i - read_index q) `mod` 16)).
    pose proof (Z.mod_pos_bound (Z.of_nat i - read_index q) 16).
    assert (get_slot (read_index q + Z.of_nat k) = i) as E.
    { unfold get_slot, QUEUE_CAPACITY, k. rewrite Z2Nat.id by lia.
      rewrite Zplus_mod_idemp_r. replace (read_index q + _) with (Z.of_nat i) by lia.
      rewrite Z.mod_small by lia. lia. }
    pose proof (rep_slots _ _ HR k) as Hk. rewrite E, Hs in Hk.
    unfold k in Hk. simpl in Hk. injection (Hk ltac:(lia)) as ->. done. }
  assert (∀ t l, (CIdle :: replicate n PIdle) !! t = Some l →
    (t = 0%nat ∧ l = CIdle) ∨ (t ≠ 0%nat ∧ l = PIdle)) as Hidle.
  { intros [|t] l H; [left; by simplify_eq/=|right].
    simpl in H. apply lookup_replicate in H as [-> _]. done. }
  constructor; cbn [mpsc_init shared threads lay consumed published];
    rewrite ?length_replicate; try done.
  - intros i s o Hs [-> _]%lookup_replicate. rewrite (Hempty _ _ Hs), count_replicate_idle.
    split; [done|]. by left.
  - by intros t l i s o [[_ ->]|[_ ->]]%Hidle.
  - by intros t l [[_ ->]|[_ ->]]%Hidle.
  - intros t l [[-> ->]|[? ->]]%Hidle; [done|]. by rewrite bool_decide_eq_false_2.
  - exists []. done.
Qed.

Lemma mpsc_reach_inv q n c :
  queue_rep q [] → reach mpsc_step (mpsc_init q n) c → ∃ hold, mpsc_inv c hold.
Proof.
  intros HR. apply (reach_inv mpsc_step (λ c, ∃ hold, mpsc_inv c hold)).
  - eexists. by apply mpsc_init_inv.
  - intros a c1 c2 [hold HI] (l & g' & l' & Ht & Hstep & ->)%conf_step_inv.
    eexists. by eapply mpsc_preserves.
Qed.

(** * Consequences of the invariant *)

Lemma held_count hold ss :
  length hold = length ss →
  (∀ i s (o : option (Z * message)), ss !! i = Some s → hold !! i = Some o →
    is_Some o ↔ state s = 2) →
  length (omap id hold) = count (λ s, state s =? state_u32 READY) ss.
Proof.
  unfold count. revert ss. induction hold as [|o hold IH]; intros [|s ss] Hl H; try done; simpl in *.
  pose proof (H 0%nat s o eq_refl eq_refl) as H0.
  rewrite <- (IH ss) by (try lia; intros i; apply (H (S i))).
  destruct o as [m|]; simpl; destruct (Z.eqb_spec (state s) 2) as [E|E]; simpl; try done.
  - destruct E. apply H0. eauto.
  - destruct H0 as [_ H0]. by destruct (H0 E).
Qed.

Lemma inv_held c hold :
  mpsc_inv c hold →
  length (omap id hold) = count (λ s, state s =? state_u32 READY) (slots (lay (shared c))).
Proof.
  intros HI. apply held_count; [apply (inv_hold _ _ HI)|].
  intros i s o Hs Ho. destruct (inv_slots _ _ HI _ _ _ Hs Ho) as [_ Hst].
  destruct Hst as [(E & _ & ->)|[(E & _ & ->)|(E & _ & m & -> & _)]]; rewrite E.
  - split; [by intros []|done].
  - split; [by intros []|done].
  - split; eauto.
Qed.

Lemma inv_exclusive c hold t1 t2 l1 l2 i :
  mpsc_inv c hold → threads c !! t1 = Some l1 → threads c !! t2 = Some l2 →
  touches i l1 = true → touches i l2 = true → (i < 16)%nat → t1 = t2.
Proof.
  intros HI H1 H2 E1 E2 Hi.
  destruct (inv_touch _ _ _ _ _ HI H1 E1 Hi) as (s & o & _ & _ & _ & _ & Hc).
  apply (count_unique (touches i) (threads c) t1 t2 l1 l2); try done. lia.
Qed.

(** How many more accesses a call makes at most. *)
Definition steps_left (l : thread) : nat :=
  match l with
  | PIdle | CIdle => 0
  | PIndexed _ _ _ => 260
  | PClaimed _ _ _ => 259
  | PTyped _ _ _ => 258
  | PCopy _ d _ k => S (length d - k)
  | CIndexed _ _ _ => 521
  | CReady _ _ _ => 520
  | CTyped _ _ _ _ => 519
  | CHeader _ _ _ _ => 518
  | CCopy _ _ _ h k => 261 + Z.to_nat (hdr_length h - Z.of_nat k)
  | CClear _ _ _ _ => 260
  | CClearLen _ _ _ _ => 259
  | CWipe _ _ _ _ k => 2 + (256 - k)
  | CAdvance _ => 1
  end.

Definition busy (l : thread) : bool :=
  match l with PIdle | CIdle => false | _ => true end.

Lemma upd_slot_some i f g s s' :
  slots (lay g) !! i = Some s → f s = Some s' →
  upd_slot i f g = Some (set_lay (set_slot i s' (lay g)) g).
Proof. intros Hs Hf. unfold upd_slot. by rewrite Hs; simpl; rewrite Hf. Qed.

Lemma push_progress c hold t l :
  mpsc_inv c hold → threads c !! t = Some l → is_consumer l = false → busy l = true →
  ∃ g' l', push_step Go (shared c) l = Some (g', l') ∧ (steps_left l' < steps_left l)%nat.
Proof.
  intros HI Ht Hc Hb. pose proof (inv_local _ _ HI _ _ Ht) as Hl.
  destruct l; try discriminate; simpl in Hl |- *; try own_slot HI Ht index.
  - destruct (lookup_slot (lay (shared c)) index (inv_len _ _ HI)) as [s ->]. simpl.
    case_match; eexists _, _; (split; [done|simpl; lia]).
  - erewrite upd_slot_some by done. simpl. eexists _, _. split; [done|simpl; lia].
  - erewrite upd_slot_some by done. simpl. eexists _, _. split; [done|simpl; lia].
  - destruct Hth as (_ & _ & _ & Hk & _). destruct (data !! k) as [b|] eqn:Hd.
    + apply lookup_lt_Some in Hd.
      erewrite upd_slot_some; [|done|unfold write_byte; rewrite decide_True by lia; done].
      simpl. eexists _, _. split; [done|simpl; lia].
    + erewrite upd_slot_some by done. simpl. eexists _, _. split; [done|simpl; lia].
Qed.

Lemma pop_progress c hold t l :
  mpsc_inv c hold → threads c !! t = Some l → is_consumer l = true → busy l = true →
  ∃ g' l', pop_step Go (shared c) l = Some (g', l') ∧ (steps_left l' < steps_left l)%nat.
Proof.
  intros HI Ht Hc Hb.
  destruct l; try discriminate; cbn [pop_step]; try own_slot HI Ht index.
  - destruct (lookup_slot (lay (shared c)) index (inv_len _ _ HI)) as [s ->]. simpl.
    case_match; eexists _, _; (split; [done|simpl; lia]).
  - rewrite Hs. simpl. eexists _, _. split; [done|simpl; lia].
  - rewrite Hs. simpl. eexists _, _. split; [done|simpl; lia].
  - destruct Hth as (_ & m & _ & (Hh & Hlen & _) & _ & ->). rewrite Hh. unfold MAX_PAYLOAD_SIZE.
    repeat case_match; eexists _, _; (split; [done|simpl; lia]).
  - destruct Hth as (_ & m & _ & (Hh & Hlen & Hpl) & _ & -> & _ & Hk & _). rewrite Hh. simpl.
    case_bool_decide as Hlt; [|eexists _, _; split; [done|simpl; lia]].
    rewrite Hs. simpl. destruct (lookup_lt_is_Some_2 (payload s) k) as [b ->]; [lia|]. simpl.
    rewrite decide_True by lia. eexists _, _. split; [done|simpl; lia].
  - erewrite upd_slot_some by done. simpl. eexists _, _. split; [done|simpl; lia].
  - erewrite upd_slot_some by done. simpl. eexists _, _. split; [done|simpl; lia].
  - unfold MAX_PAYLOAD_SIZE. case_bool_decide as Hlt.
    + erewrite upd_slot_some; [|done|unfold write_byte; rewrite decide_True by lia; done].
      simpl. eexists _, _. split; [done|simpl; lia].
    + erewrite upd_slot_some by done. simpl. eexists _, _. split; [done|simpl; lia].
  - eexists _, _. split; [done|simpl; lia].
Qed.

(** * Properties *)

(** The memory [init_queue] leaves. *)
Definition fresh_queue : SharedQueueLayout :=
  Layout (Meta PROTOCOL_MAGIC PROTOCOL_VERSION QUEUE_CAPACITY MAX_PAYLOAD_SIZE) 0 0
    (replicate 16 empty_slot).

Lemma fresh_queue_rep : queue_rep fresh_queue [].
Proof.
  destruct (init_queue_rep zero_memory) as (q & Hi & Hq).
  { split; [reflexivity|]. repeat constructor. }
  rewrite init_queue_runs in Hi by (split; [reflexivity|]; repeat constructor).
  by injection Hi as <-.
Qed.

(** A whole push of [d] by producer [t]: the call, the claim, the two header
    fields, the bytes and the publication. *)
Definition push_schedule (t : nat) (ty : MessageType) (d : list byte) : list (act choice) :=
  Act t (CallPush ty d) :: replicate (4 + length d) (Act t Go).

(** C4: No conflicting access.  With any number of producers and one consumer,
    from an initialised queue and under every interleaving, two different
    threads are never both inside the non-atomic part of the same slot: header
    fields and payload bytes are written and read by one thread at a time. *)
Theorem mpsc_exclusive q n c t1 t2 l1 l2 i :
  queue_rep q [] → reach mpsc_step (mpsc_init q n) c →
  threads c !! t1 = Some l1 → threads c !! t2 = Some l2 → (i < 16)%nat →
  touches i l1 = true → touches i l2 = true → t1 = t2.
Proof.
  intros HR Hc H1 H2 Hi E1 E2. destruct (mpsc_reach_inv _ _ _ HR Hc) as [hold HI].
  by eapply inv_exclusive.
Qed.

Lemma mpsc_exclusive_witness :
  ∃ c l, reach mpsc_step (mpsc_init fresh_queue 2) c ∧ threads c !! 1%nat = Some l ∧
    touches 0 l = true ∧ ∀ t l', threads c !! t = Some l' → touches 0 l' = true → t = 1%nat.
Proof.
  assert (∃ c, run mpsc_step [Act 1 (CallPush TEXT [x61]); Act 1 Go; Act 2 (CallPush TEXT [x62])]
    (mpsc_init fresh_queue 2) = Some c) as [c Hc] by (eexists; vm_compute; reflexivity).
  apply run_reach in Hc as Hr.
  exists c, (PClaimed TEXT [x61] 0). vm_compute in Hc. injection Hc as <-.
  split_ands; [done|reflexivity|reflexivity|]. intros t l' Ht E.
  apply (mpsc_exclusive fresh_queue 2 _ t 1 l' (PClaimed TEXT [x61] 0) 0 fresh_queue_rep Hr Ht);
    [reflexivity|lia|exact E|reflexivity].
Defined.

(** C3: Exactly once, uncorrupted.  Under every interleaving, each message the
    consumer has taken off the queue is one that a producer published (the same
    type and the same bytes when it was delivered, the same header when it was
    dropped for its type), no message is taken twice, and the published
    messages not yet taken are exactly those in the slots still marked
    [READY]. *)
Theorem mpsc_exactly_once q n c :
  queue_rep q [] → reach mpsc_step (mpsc_init q n) c →
  ∃ taken held, Forall2 explains (consumed (shared c)) taken ∧
    published (shared c) ≡ₚ taken ++ held ∧
    length held = count (λ s, state s =? state_u32 READY) (slots (lay (shared c))).
Proof.
  intros HR Hc. destruct (mpsc_reach_inv _ _ _ HR Hc) as [hold HI].
  destruct (inv_log _ _ HI) as (ms & Hms & Hp).
  exists ms, (omap id hold). split_ands; [done|done|by apply inv_held].
Qed.

Lemma mpsc_exactly_once_witness :
  ∃ c, reach mpsc_step (mpsc_init fresh_queue 2) c ∧
    published (shared c) = [(1, (type_u32 TEXT, [x62])); (0, (type_u32 TEXT, [x61]))] ∧
    ∃ taken held, Forall2 explains (consumed (shared c)) taken ∧
      published (shared c) ≡ₚ taken ++ held ∧
      length held = count (λ s, state s =? state_u32 READY) (slots (lay (shared c))).
Proof.
  assert (∃ c, run mpsc_step (Act 1 (CallPush TEXT [x61]) :: push_schedule 2 TEXT [x62] ++
      replicate 5 (Act 1 Go)) (mpsc_init fresh_queue 2) = Some c ∧
    published (shared c) = [(1, (type_u32 TEXT, [x62])); (0, (type_u32 TEXT, [x61]))])
    as (c & Hc & Hp) by (eexists; split; [vm_compute; reflexivity|reflexivity]).
  apply run_reach in Hc. exists c. split_ands; [exact Hc|exact Hp|].
  apply (mpsc_exactly_once fresh_queue 2 c fresh_queue_rep Hc).
Defined.

(** C5: Wait freedom.  In every reachable state a thread inside a call can take
    its next step whatever the others do (no step waits, none is undefined),
    and the number of accesses left in its call goes down with each step from
    at most 521. *)
Theorem mpsc_wait_free q n c t l :
  queue_rep q [] → reach mpsc_step (mpsc_init q n) c →
  threads c !! t = Some l → busy l = true →
  ∃ g' l', mpsc_tstep t Go (shared c) l = Some (g', l') ∧
    (steps_left l' < steps_left l ≤ 521)%nat.
Proof.
  intros HR Hc Ht Hb. destruct (mpsc_reach_inv _ _ _ HR Hc) as [hold HI].
  assert (steps_left l ≤ 521)%nat as Hmax.
  { pose proof (inv_local _ _ HI _ _ Ht). destruct l; simpl in *; try lia.
    own_slot HI Ht index. destruct Hth as (_ & m & _ & (Hh & ? & _) & _ & -> & _).
    rewrite Hh. simpl. lia. }
  unfold mpsc_tstep. destruct (is_consumer l) eqn:Hcons.
  - destruct (pop_progress _ _ _ _ HI Ht Hcons Hb) as (g' & l' & H & Hlt).
    exists g', l'. split; [done|lia].
  - destruct (push_progress _ _ _ _ HI Ht Hcons Hb) as (g' & l' & H & Hlt).
    exists g', l'. split; [done|lia].
Qed.

Lemma mpsc_wait_free_witness :
  ∃ c, reach mpsc_step (mpsc_init fresh_queue 2) c ∧
    ∃ g' l', mpsc_tstep 2 Go (shared c) (PIndexed TEXT [x62] 1) = Some (g', l') ∧
      (steps_left l' < 260 ≤ 521)%nat.
Proof.
  assert (∃ c, run mpsc_step [Act 1 (CallPush TEXT [x61]); Act 1 Go; Act 2 (CallPush TEXT [x62])]
    (mpsc_init fresh_queue 2) = Some c ∧ threads c !! 2%nat = Some (PIndexed TEXT [x62] 1))
    as (c & Hc & Ht) by (eexists; split; [vm_compute; reflexivity|reflexivity]).
  apply run_reach in Hc. exists c. split; [exact Hc|].
  exact (mpsc_wait_free fresh_queue 2 c 2 _ fresh_queue_rep Hc Ht eq_refl).
Defined.

(** The sixteen messages of the second producer, in the order it sends them. *)
Definition texts : list message :=
  (λ k, (type_u32 TEXT, [default x00 (Byte.of_nat k)])) <$> seq 1 16.

(** Producer 1 takes an index and is suspended; producer 2 sends sixteen
    messages, all accepted; the consumer pops once. *)
Definition overtaking_schedule : list (act choice) :=
  Act 1 (CallPush TEXT [xff]) ::
  concat ((λ m : message, push_schedule 2 TEXT m.2) <$> texts) ++
  Act 0 (CallPop TEXT (replicate 256 x00)) :: replicate 266 (Act 0 Go).

(** The queue is not FIFO even for a single producer.  While another
    producer is suspended between [fetch_add] and its compare-and-swap, a
    producer whose sixteen pushes all succeed has its sixteenth message
    delivered first. *)
Theorem mpsc_overtakes :
  ∃ c, run mpsc_step overtaking_schedule (mpsc_init fresh_queue 2) = Some c ∧
    (published (shared c)).*2 = texts ∧
    consumed (shared c) = [(0, Delivered (type_u32 TEXT, [x10]))] ∧
    texts !! 15%nat = Some (type_u32 TEXT, [x10]).
Proof. eexists. split; [vm_compute; reflexivity|]. split_ands; reflexivity. Qed.
