(* ===== verification/IpcQueueSolo.v ===== *)
(** The two models of the queue agree: a call of [try_push_message] or
    [try_pop_message] run step by step with no interference leaves the shared
    memory, and reports, what the whole-call definitions of [IpcQueue] say. *)

From S2P Require Import Prelude Machine IpcQueue IpcQueueMpsc.
From stdpp Require Import options.

Local Open Scope Z_scope.

#[local] Arguments replicate : simpl never.

(** [n] steps of one thread on its own. *)
Fixpoint solo (n : nat) (g : mpsc) (l : thread) : option (mpsc * thread) :=
  match n with
  | O => Some (g, l)
  | S n' => '(g', l') ← mpsc_tstep 0 Go g l; solo n' g' l'
  end.

(** * Running on *)

Lemma solo_app n m g l :
  solo (n + m) g l = ('(g', l') ← solo n g l; solo m g' l').
Proof.
  revert g l. induction n as [|n IH]; intros g l; [done|]. cbn [solo Nat.add].
  destruct (mpsc_tstep 0 Go g l) as [[g1 l1]|]; cbn; auto.
Qed.

Lemma solo_step n g l g1 l1 :
  mpsc_tstep 0 Go g l = Some (g1, l1) → solo (S n) g l = solo n g1 l1.
Proof. intros H. cbn [solo]. by rewrite H. Qed.

(** Writing the bytes of [src] one by one from position [k] on. *)
Lemma copy_byte (src dst : list byte) k b :
  src !! k = Some b → (k < length dst)%nat →
  <[k:=b]> (take k src ++ drop k dst) = take (S k) src ++ drop (S k) dst.
Proof.
  intros Hb Hk. apply lookup_lt_Some in Hb as Hl.
  rewrite insert_app_r_alt by (rewrite length_take; lia).
  rewrite length_take, Nat.min_l, Nat.sub_diag by lia.
  destruct (lookup_lt_is_Some_2 dst k Hk) as [d Hd].
  rewrite (drop_S dst d k Hd). simpl.
  rewrite (take_S_r src k b Hb). by rewrite <- app_assoc.
Qed.

(** The slot at [i] replaced. *)
Definition with_slot (i : nat) (s : MessageSlot) (g : mpsc) : mpsc :=
  set_lay (set_slot i s (lay g)) g.

Lemma with_slot_lookup i s g :
  (i < length (slots (lay g)))%nat → slots (lay (with_slot i s g)) !! i = Some s.
Proof. intros H. simpl. by apply list_lookup_insert_eq. Qed.

Lemma with_slot_twice i s s' g : with_slot i s' (with_slot i s g) = with_slot i s' g.
Proof. unfold with_slot, set_lay, set_slot. simpl. by rewrite list_insert_insert_eq. Qed.

Lemma upd_with_slot i f s s' g :
  (i < length (slots (lay g)))%nat → f s = Some s' →
  upd_slot i f (with_slot i s g) = Some (with_slot i s' g).
Proof.
  intros Hi Hf. erewrite upd_slot_some; [|by apply with_slot_lookup|done].
  by fold (with_slot i s' (with_slot i s g)); rewrite with_slot_twice.
Qed.

(** * A push on its own *)

Lemma solo_copy g ty d index hd n : ∀ k p,
  (get_slot index < length (slots (lay g)))%nat → length p = 256%nat → (length d ≤ 256)%nat →
  (k + n = length d)%nat →
  solo n (with_slot (get_slot index) (Slot 1 hd (take k d ++ drop k p)) g) (PCopy ty d index k)
  = Some (with_slot (get_slot index) (Slot 1 hd (d ++ drop (length d) p)) g,
          PCopy ty d index (length d)).
Proof.
  induction n as [|n IH]; intros k p Hi Hp Hd Hk.
  - replace k with (length d) by lia. simpl. by rewrite firstn_all.
  - destruct (lookup_lt_is_Some_2 d k) as [b Hb]; [lia|].
    rewrite (solo_step _ _ _ (with_slot (get_slot index)
      (Slot 1 hd (take (S k) d ++ drop (S k) p)) g) (PCopy ty d index (S k))).
    + apply IH; try done. lia.
    + unfold mpsc_tstep. cbn [is_consumer push_step]. rewrite Hb.
      rewrite (upd_with_slot _ _ _ (Slot 1 hd (take (S k) d ++ drop (S k) p))); [done|done|].
      unfold write_byte. cbn [payload].
      rewrite decide_True by (rewrite length_app, length_take, length_drop; lia).
      unfold set_payload. cbn. by rewrite copy_byte by (done || lia).
Qed.

Lemma solo_claimed g ty d index s :
  slots (lay g) !! get_slot index = Some s → length (payload s) = 256%nat →
  (length d ≤ 256)%nat →
  solo (3 + length d) (with_slot (get_slot index) (set_state WRITING s) g) (PClaimed ty d index)
  = Some (Mpsc (lay (with_slot (get_slot index)
                 (Slot 2 (Header (type_u32 ty) (Z.of_nat (length d)))
                   (d ++ drop (length d) (payload s))) g))
               (published g ++ [(index, (type_u32 ty, d))]) (consumed g), PIdle).
Proof.
  intros Hs Hp Hd. apply lookup_lt_Some in Hs as Hi.
  replace (3 + length d)%nat with (2 + (length d + 1))%nat by lia.
  rewrite solo_app. cbn [solo mpsc_tstep is_consumer push_step].
  erewrite upd_with_slot; [|exact Hi|reflexivity]. cbn [mbind option_bind].
  cbn [mpsc_tstep is_consumer push_step].
  erewrite upd_with_slot; [|exact Hi|reflexivity]. cbn [mbind option_bind].
  rewrite u32_wrap_small by lia. rewrite solo_app.
  pose proof (solo_copy g ty d index (Header (type_u32 ty) (Z.of_nat (length d)))
    (length d) 0 (payload s) Hi Hp Hd eq_refl) as Hc.
  rewrite take_0, drop_0 in Hc. cbn [app] in Hc.
  unfold set_length, set_type, set_state. cbn [state header hdr_type hdr_length payload].
  change (state_u32 WRITING) with 1. rewrite Hc. cbn [mbind option_bind].
  cbn [solo mpsc_tstep is_consumer push_step]. rewrite (lookup_ge_None_2 d) by done.
  erewrite upd_with_slot; [|exact Hi|reflexivity]. done.
Qed.

Lemma memcpy_prefix (p d : list byte) n :
  length p = n → (length d ≤ n)%nat →
  (if Z.of_nat (length d) >? 0 then memcpy p d (length d) else Some p)
  = Some (d ++ drop (length d) p).
Proof.
  intros Hp Hd. destruct (Z.gtb_spec (Z.of_nat (length d)) 0).
  - rewrite memcpy_ok by lia. by rewrite firstn_all.
  - destruct d; simpl in *; [by rewrite drop_0|lia].
Qed.

Lemma push_alone g ty d :
  raw_layout (lay g) →
  ∃ n g1 l1 g' b,
    mpsc_tstep 0 (CallPush ty d) g PIdle = Some (g1, l1) ∧
    solo n g1 l1 = Some (g', PIdle) ∧
    try_push_message (Some (lay g)) ty (Some d) (Z.of_nat (length d)) = Some (b, Some (lay g')) ∧
    published g' = published g ++
      (if b then [(write_index (lay g), (type_u32 ty, d))] else []) ∧
    consumed g' = consumed g.
Proof.
  intros HR. unfold mpsc_tstep at 1, try_push_message. cbn [is_consumer push_step].
  destruct (Z.gtb_spec (Z.of_nat (length d)) MAX_PAYLOAD_SIZE) as [|Hle].
  { exists 0%nat, g, PIdle, g, false. by rewrite app_nil_r. }
  unfold MAX_PAYLOAD_SIZE in Hle.
  set (w := write_index (lay g)).
  set (g1 := set_lay (set_write_index (u64_wrap (w + 1)) (lay g)) g).
  destruct (lookup_slot (lay g) w (proj1 HR)) as [s Hs].
  pose proof (raw_slot _ _ _ HR Hs) as Hp. cbn [slots set_write_index]. rewrite Hs.
  cbn [mbind option_bind]. destruct (state s =? state_u32 EMPTY) eqn:E0; cbn [negb].
  - exists (1 + (3 + length d))%nat, g1, (PIndexed ty d w). eexists _, true.
    split; [done|]. split.
    { rewrite (solo_step _ _ _ (with_slot (get_slot w) (set_state WRITING s) g1) (PClaimed ty d w)).
      - apply (solo_claimed g1); [exact Hs|done|lia].
      - unfold mpsc_tstep. cbn [is_consumer push_step g1 lay set_lay slots set_write_index].
        rewrite Hs. cbn [mbind option_bind]. by rewrite E0. }
    cbn [payload set_length set_type set_state published consumed lay g1 with_slot set_lay].
    rewrite Nat2Z.id, (memcpy_prefix _ _ 256), u32_wrap_small by lia. done.
  - exists 1%nat, g1, (PIndexed ty d w), g1, false. split; [done|]. split.
    { cbn [solo mpsc_tstep is_consumer push_step g1 lay set_lay slots set_write_index].
      rewrite Hs. cbn [mbind option_bind]. by rewrite E0. }
    by rewrite app_nil_r.
Qed.

(** * A pop on its own *)

(** What the caller of a pop gets: the value returned, its buffer and its header. *)
Record view := View { returned : bool; v_buffer : list byte; v_header : MessageHeader }.

(** A thread that has got to [l] has this in its buffer; behind the test of the type
    it has stored the header and will return [true]. *)
Definition caller (l : thread) (v : view) : view :=
  match l with
  | CIndexed _ buf _ | CReady _ buf _ | CTyped _ buf _ _ | CHeader _ buf _ _ | CCopy _ buf _ _ _
  | CClearLen _ buf _ _ | CWipe _ buf _ _ _ => View (returned v) buf (v_header v)
  | CClear ex buf _ h =>
      if hdr_type h =? type_u32 ex then View true buf h else View (returned v) buf (v_header v)
  | _ => v
  end.

(** A run on its own that keeps account of it. *)
Fixpoint watched (n : nat) (g : mpsc) (l : thread) (v : view) : option (mpsc * thread * view) :=
  match n with
  | O => Some (g, l, v)
  | S n' => '(g', l') ← mpsc_tstep 0 Go g l; watched n' g' l' (caller l' v)
  end.

Lemma watched_app n m g l v :
  watched (n + m) g l v = (r ← watched n g l v; watched m r.1.1 r.1.2 r.2).
Proof.
  revert g l v. induction n as [|n IH]; intros g l v; [done|]. cbn [watched Nat.add].
  destruct (mpsc_tstep 0 Go g l) as [[g1 l1]|]; cbn; auto.
Qed.

Lemma watched_step n g l v g1 l1 :
  mpsc_tstep 0 Go g l = Some (g1, l1) → watched (S n) g l v = watched n g1 l1 (caller l1 v).
Proof. intros H. cbn [watched]. by rewrite H. Qed.

(** Where the thread only visits states that leave the account alone. *)
Lemma watched_quiet (Q : thread → Prop) n g l v g' l' :
  (∀ g l g' l', Q l → mpsc_tstep 0 Go g l = Some (g', l') → Q l') →
  (∀ l, Q l → caller l v = v) →
  Q l → solo n g l = Some (g', l') → watched n g l v = Some (g', l', v).
Proof.
  intros HQ Hv. revert g l. induction n as [|n IH]; intros g l Hl H; cbn in *; [by simplify_eq|].
  destruct (mpsc_tstep 0 Go g l) as [[g1 l1]|] eqn:E; cbn in *; [|done].
  pose proof (HQ _ _ _ _ Hl E) as H1. rewrite (Hv _ H1). by apply IH.
Qed.

Lemma watched_fill g ex index h p n : ∀ k buf r oh,
  slots (lay g) !! get_slot index = Some p → (0 ≤ hdr_length h) →
  (Z.to_nat (hdr_length h) ≤ length (payload p))%nat →
  (Z.to_nat (hdr_length h) ≤ length buf)%nat →
  (k + n = Z.to_nat (hdr_length h))%nat →
  let upto k := take k (payload p) ++ drop k buf in
  watched n g (CCopy ex (upto k) index h k) (View r (upto k) oh)
  = Some (g, CCopy ex (upto (k + n)%nat) index h (k + n), View r (upto (k + n)%nat) oh).
Proof.
  induction n as [|n IH]; intros k buf r oh Hs H0 Hp Hb Hk upto; [by rewrite Nat.add_0_r|].
  destruct (lookup_lt_is_Some_2 (payload p) k) as [b Hpk]; [lia|].
  rewrite (watched_step _ _ _ _ g (CCopy ex (upto (S k)) index h (S k))).
  - cbn [caller returned v_header]. unfold upto. rewrite IH by (done || lia).
    by replace (S k + n)%nat with (k + S n)%nat by lia.
  - unfold mpsc_tstep, upto. cbn [is_consumer pop_step].
    rewrite bool_decide_eq_true_2 by lia. rewrite Hs. cbn [mbind option_bind]. rewrite Hpk.
    cbn [mbind option_bind].
    rewrite decide_True by (rewrite length_app, length_take, length_drop; lia).
    by rewrite copy_byte by (done || lia).
Qed.

Lemma solo_wipe g ex buf index h hd n : ∀ k p,
  (get_slot index < length (slots (lay g)))%nat → length p = 256%nat → (k + n = 256)%nat →
  solo n (with_slot (get_slot index) (Slot 2 hd (replicate k x00 ++ drop k p)) g)
    (CWipe ex buf index h k)
  = Some (with_slot (get_slot index) (Slot 2 hd (replicate 256 x00)) g, CWipe ex buf index h 256).
Proof.
  induction n as [|n IH]; intros k p Hi Hp Hk.
  - replace k with 256%nat by lia. rewrite drop_ge by lia. by rewrite app_nil_r.
  - rewrite (solo_step _ _ _ (with_slot (get_slot index)
      (Slot 2 hd (replicate (S k) x00 ++ drop (S k) p)) g) (CWipe ex buf index h (S k))).
    + apply IH; try done. lia.
    + unfold mpsc_tstep, MAX_PAYLOAD_SIZE. cbn [is_consumer pop_step].
      rewrite bool_decide_eq_true_2 by (unfold MAX_PAYLOAD_SIZE; lia).
      erewrite upd_with_slot; [done|done|]. unfold write_byte. cbn [payload].
      rewrite decide_True by (rewrite length_app, length_replicate, length_drop; lia).
      unfold set_payload. cbn [state header payload].
      pose proof (copy_byte (replicate 256 x00) p k x00) as E.
      rewrite !take_replicate, !Nat.min_l in E by lia.
      rewrite E; [done| |lia]. apply lookup_replicate_2. lia.
Qed.

(** From the wiping of the slot to the return. *)
Lemma solo_clear g ex buf index h s :
  slots (lay g) !! get_slot index = Some s → length (payload s) = 256%nat → state s = 2 →
  solo 260 g (CClear ex buf index h)
  = Some (Mpsc (set_read_index (u64_wrap (index + 1))
                 (lay (with_slot (get_slot index) empty_slot g))) (published g)
               (consumed g ++ [(index, if hdr_type h =? type_u32 ex
                  then Delivered (hdr_type h, take (Z.to_nat (hdr_length h)) buf)
                  else Dropped h)]), CIdle).
Proof.
  intros Hs Hp H2. apply lookup_lt_Some in Hs as Hi.
  assert (g = with_slot (get_slot index) s g) as Eg.
  { unfold with_slot, set_slot, set_lay. rewrite list_insert_id by done. by destruct g as [[] ? ?]. }
  rewrite Eg at 1. change 260%nat with (2 + (256 + 2))%nat. rewrite solo_app.
  cbn [solo mpsc_tstep is_consumer pop_step].
  erewrite upd_with_slot; [|exact Hi|reflexivity]. cbn [mbind option_bind].
  cbn [mpsc_tstep is_consumer pop_step].
  erewrite upd_with_slot; [|exact Hi|reflexivity]. cbn [mbind option_bind].
  rewrite solo_app.
  pose proof (solo_wipe g ex buf index h (Header (type_u32 UNKNOWN) 0) 256 0 (payload s) Hi Hp eq_refl)
    as Hw.
  rewrite drop_0 in Hw. change (replicate 0 x00) with (@nil byte) in Hw. cbn [app] in Hw.
  unfold set_length, set_type. cbn [state header hdr_type hdr_length payload]. rewrite H2, Hw.
  cbn [mbind option_bind solo mpsc_tstep is_consumer pop_step].
  rewrite bool_decide_eq_false_2 by (unfold MAX_PAYLOAD_SIZE; lia).
  erewrite upd_with_slot; [|exact Hi|reflexivity].
  by destruct (hdr_type h =? type_u32 ex).
Qed.

(** The states from the wiping of the slot on. *)
Definition wiping (ex : MessageType) (buf : list byte) (index : Z) (h : MessageHeader) (l : thread) : Prop :=
  match l with
  | CClear ex' buf' index' h' | CClearLen ex' buf' index' h' | CWipe ex' buf' index' h' _ =>
      ex' = ex ∧ buf' = buf ∧ index' = index ∧ h' = h
  | CAdvance _ | CIdle => True
  | _ => False
  end.

Lemma wiping_step ex buf index h g l g' l' :
  wiping ex buf index h l → mpsc_tstep 0 Go g l = Some (g', l') → wiping ex buf index h l'.
Proof.
  unfold mpsc_tstep. destruct l; cbn [wiping is_consumer pop_step]; try done; intros Hw Hs; inv_opt; done.
Qed.

Lemma watched_clear g ex buf index h s r oh :
  slots (lay g) !! get_slot index = Some s → length (payload s) = 256%nat → state s = 2 →
  let v := caller (CClear ex buf index h) (View r buf oh) in
  watched 260 g (CClear ex buf index h) v
  = Some (Mpsc (set_read_index (u64_wrap (index + 1))
                 (lay (with_slot (get_slot index) empty_slot g))) (published g)
               (consumed g ++ [(index, if hdr_type h =? type_u32 ex
                  then Delivered (hdr_type h, take (Z.to_nat (hdr_length h)) buf)
                  else Dropped h)]), CIdle, v).
Proof.
  intros Hs Hp H2 v. apply (watched_quiet (wiping ex buf index h)).
  - apply wiping_step.
  - unfold v. intros l. destruct l; cbn [wiping caller]; try done; intros (-> & -> & -> & ->);
      by destruct (hdr_type h =? type_u32 ex).
  - done.
  - by apply (solo_clear g ex buf index h s).
Qed.

(** The end of a pop that consumes, from the point where the type is known. *)
Lemma watched_consume g ex buf index h s oh :
  slots (lay g) !! get_slot index = Some s → length (payload s) = 256%nat → state s = 2 →
  0 ≤ hdr_length h → hdr_length h ≤ 256 → hdr_length h ≤ Z.of_nat (length buf) →
  let n := Z.to_nat (hdr_length h) in
  let matches := hdr_type h =? type_u32 ex in
  ∃ m g', watched m g (CHeader ex buf index h) (View false buf oh)
      = Some (g', CIdle, if matches then View true (take n (payload s) ++ drop n buf) h
                         else View false buf oh) ∧
    lay g' = set_read_index (u64_wrap (index + 1)) (set_slot (get_slot index) empty_slot (lay g)) ∧
    published g' = published g ∧
    consumed g' = consumed g ++ [(index, if matches
      then Delivered (hdr_type h, take n (payload s)) else Dropped h)].
Proof.
  intros Hs Hp H2 H0 Hmax Hbuf n matches.
  assert (mpsc_tstep 0 Go g (CHeader ex buf index h)
    = Some (g, if matches then CCopy ex buf index h 0 else CClear ex buf index h)) as Hg.
  { unfold mpsc_tstep. cbn [is_consumer pop_step]. unfold MAX_PAYLOAD_SIZE.
    destruct (Z.gtb_spec (hdr_length h) 256); [lia|].
    destruct (Z.gtb_spec (hdr_length h) (Z.of_nat (length buf))); [lia|].
    fold matches. by destruct matches. }
  unfold matches in *. destruct (hdr_type h =? type_u32 ex) eqn:Ety.
  - set (buf' := take n (payload s) ++ drop n buf).
    pose proof (watched_fill g ex index h s n 0 buf false oh Hs H0 ltac:(lia) ltac:(lia) eq_refl) as Hf.
    cbn beta zeta in Hf. rewrite take_0, drop_0 in Hf. cbn [app Nat.add] in Hf. fold buf' in Hf.
    pose proof (watched_clear g ex buf' index h s false oh Hs Hp H2) as Hc.
    exists (1 + (n + (1 + 260)))%nat. eexists. split.
    + rewrite (watched_step _ _ _ _ _ _ Hg), watched_app. cbn [caller returned v_header].
      rewrite Hf. cbn [mbind option_bind fst snd].
      rewrite (watched_step _ _ _ _ g (CClear ex buf' index h));
        [|unfold mpsc_tstep; cbn [is_consumer pop_step]; by rewrite bool_decide_eq_false_2 by lia].
      cbn [caller] in Hc |- *. rewrite Ety in Hc |- *. exact Hc.
    + split_ands; [done|done|]. cbn [consumed]. do 4 f_equal. fold n. unfold buf'.
      rewrite take_app_le by (rewrite length_take; lia). rewrite take_take. by rewrite Nat.min_id.
  - exists (1 + 260)%nat. eexists. split.
    + rewrite (watched_step _ _ _ _ _ _ Hg).
      pose proof (watched_clear g ex buf index h s false oh Hs Hp H2) as Hc.
      cbn [caller returned v_header] in Hc |- *. rewrite Ety in Hc |- *. exact Hc.
    + by split_ands.
Qed.

(** The [uint32_t] lengths of the headers are not negative. *)
Definition typed_layout (q : SharedQueueLayout) : Prop :=
  raw_layout q ∧ Forall (λ s, 0 ≤ hdr_length (header s)) (slots q).

(** What the steps log of a call: the message it delivers, the header of a message it
    drops, or nothing when it leaves the queue alone. *)
Definition logged (q : SharedQueueLayout) (r : pop_result) : list (Z * outcome) :=
  match popped r, pop_buffer r, pop_header r, pop_queue r, slots q !! get_slot (read_index q) with
  | true, Some buf, Some h, _, _ =>
      [(read_index q, Delivered (hdr_type h, take (Z.to_nat (hdr_length h)) buf))]
  | false, _, _, Some q', Some s =>
      if read_index q' =? read_index q then [] else [(read_index q, Dropped (header s))]
  | _, _, _, _, _ => []
  end.

(** The result of the whole call is what the steps leave to the caller, and the log is
    the one of that result. *)
Definition agrees (q : SharedQueueLayout) (g g' : mpsc) (v : view) (r : pop_result) : Prop :=
  r = Popped (returned v) (Some (lay g')) (Some (v_buffer v)) (Some (v_header v)) ∧
  published g' = published g ∧ consumed g' = consumed g ++ logged q r.

Lemma agrees_nothing g s buf oh :
  slots (lay g) !! get_slot (read_index (lay g)) = Some s →
  agrees (lay g) g g (View false buf oh) (Popped false (Some (lay g)) (Some buf) (Some oh)).
Proof.
  intros Hs. split; [done|]. split; [done|]. unfold logged. rewrite Hs. cbn [popped pop_buffer pop_header pop_queue]. 
  by rewrite Z.eqb_refl, app_nil_r.
Qed.

Lemma index_moves r : (u64_wrap (r + 1) =? r) = false.
Proof. apply Z.eqb_neq. unfold u64_wrap. Z.to_euclidean_division_equations. lia. Qed.

Lemma pop_alone g ex buf oh :
  typed_layout (lay g) →
  ∃ n g1 l1 g' v r,
    mpsc_tstep 0 (CallPop ex buf) g CIdle = Some (g1, l1) ∧
    watched n g1 l1 (View false buf oh) = Some (g', CIdle, v) ∧
    try_pop_message (Some (lay g)) ex (Some buf) (Z.of_nat (length buf)) (Some oh) = Some r ∧
    agrees (lay g) g g' v r.
Proof.
  intros [HR HT]. set (r := read_index (lay g)).
  destruct (lookup_slot (lay g) r (proj1 HR)) as [s Hs].
  pose proof (raw_slot _ _ _ HR Hs) as Hp.
  assert (0 ≤ hdr_length (header s)) as H0 by (by eapply Forall_lookup_1 in HT).
  pose proof (agrees_nothing g s buf oh Hs) as Hno.
  unfold try_pop_message. fold r. rewrite Hs. cbn [mbind option_bind].
  destruct (Z.eqb_spec (state s) (state_u32 READY)) as [H2|H2]; cbn [negb].
  2:{ exists 1%nat, g, (CIndexed ex buf r), g. eexists _, _. split_ands; [done| |done|exact Hno].
      cbn [watched mpsc_tstep is_consumer pop_step]. rewrite Hs. cbn [mbind option_bind].
      by destruct (Z.eqb_spec (state s) (state_u32 READY)). }
  assert (∀ n, watched (3 + n) g (CIndexed ex buf r) (View false buf oh)
    = watched n g (CHeader ex buf r (header s)) (View false buf oh)) as Hhd.
  { intros n. cbn [Nat.add].
    rewrite (watched_step _ g _ _ g (CReady ex buf r)), (watched_step _ g _ _ g (CTyped ex buf r (hdr_type (header s)))),
      (watched_step _ g _ _ g (CHeader ex buf r (header s))); [done|..];
      unfold mpsc_tstep; cbn [is_consumer pop_step]; rewrite Hs; cbn [mbind option_bind];
      [by destruct (header s)|done|by rewrite H2]. }
  destruct (Z.gtb_spec (hdr_length (header s)) MAX_PAYLOAD_SIZE) as [Hbig|Hmax].
  { exists (3 + 1)%nat, g, (CIndexed ex buf r), g. eexists _, _. split_ands; [done| |done|exact Hno].
    rewrite Hhd. cbn [watched mpsc_tstep is_consumer pop_step].
    by destruct (Z.gtb_spec (hdr_length (header s)) MAX_PAYLOAD_SIZE); [|lia]. }
  destruct (Z.gtb_spec (hdr_length (header s)) (Z.of_nat (length buf))) as [Hbig|Hfit].
  { exists (3 + 1)%nat, g, (CIndexed ex buf r), g. eexists _, _. split_ands; [done| |done|exact Hno].
    rewrite Hhd. cbn [watched mpsc_tstep is_consumer pop_step].
    destruct (Z.gtb_spec (hdr_length (header s)) MAX_PAYLOAD_SIZE); [lia|].
    by destruct (Z.gtb_spec (hdr_length (header s)) (Z.of_nat (length buf))); [|lia]. }
  unfold MAX_PAYLOAD_SIZE in Hmax.
  destruct (watched_consume g ex buf r (header s) s oh Hs Hp H2 H0 Hmax Hfit)
    as (m & g' & Hrun & Hlay & Hpub & Hcon).
  exists (3 + m)%nat, g, (CIndexed ex buf r), g'.
  cbn [payload set_length set_type]. rewrite memset_all by done. cbn [mbind option_bind].
  destruct (hdr_type (header s) =? type_u32 ex) eqn:Ety.
  - assert ((if hdr_length (header s) >? 0
       then memcpy buf (payload s) (Z.to_nat (hdr_length (header s))) else Some buf)
       = Some (take (Z.to_nat (hdr_length (header s))) (payload s) ++
               drop (Z.to_nat (hdr_length (header s))) buf)) as ->.
    { destruct (Z.gtb_spec (hdr_length (header s)) 0); [apply memcpy_ok; lia|].
      replace (Z.to_nat (hdr_length (header s))) with 0%nat by lia. by rewrite take_0, drop_0. }
    eexists _, _. split_ands; [done|by rewrite Hhd|done|]. split; [by rewrite Hlay|].
    split; [done|]. rewrite Hcon. unfold logged. cbn [popped pop_buffer pop_header pop_queue].
    rewrite take_app_le by (rewrite length_take; lia). by rewrite take_take, Nat.min_id.
  - eexists _, _. split_ands; [done|by rewrite Hhd|done|]. split; [by rewrite Hlay|]. split; [done|].
    rewrite Hcon. unfold logged. fold r. rewrite Hs. cbn [popped pop_buffer pop_header pop_queue read_index set_read_index].
    by rewrite index_moves.
Qed.

(** * Properties *)

(** C6: The step machine runs the code.  On any memory of the right shape, a thread
    that makes a call with nobody interfering finishes it; the memory it leaves and
    the messages it publishes are those of [try_push_message] run as a whole call, and
    the memory, the value returned, the buffer and the header it leaves those of
    [try_pop_message], on every path.  The log is the one of that result: what was
    delivered, the header of what was dropped, or nothing. *)
Theorem steps_implement_calls g ty d ex buf oh :
  typed_layout (lay g) →
  (∃ n g1 l1 g' b,
    mpsc_tstep 0 (CallPush ty d) g PIdle = Some (g1, l1) ∧
    solo n g1 l1 = Some (g', PIdle) ∧
    try_push_message (Some (lay g)) ty (Some d) (Z.of_nat (length d)) = Some (b, Some (lay g')) ∧
    published g' = published g ++
      (if b then [(write_index (lay g), (type_u32 ty, d))] else []) ∧
    consumed g' = consumed g) ∧
  (∃ n g1 l1 g' v,
    mpsc_tstep 0 (CallPop ex buf) g CIdle = Some (g1, l1) ∧
    watched n g1 l1 (View false buf oh) = Some (g', CIdle, v) ∧
    let r := Popped (returned v) (Some (lay g')) (Some (v_buffer v)) (Some (v_header v)) in
    try_pop_message (Some (lay g)) ex (Some buf) (Z.of_nat (length buf)) (Some oh) = Some r ∧
    published g' = published g ∧ consumed g' = consumed g ++ logged (lay g) r).
Proof.
  intros HT. split; [apply push_alone; apply HT|].
  destruct (pop_alone g ex buf oh HT) as (n & g1 & l1 & g' & v & r & H1 & H2 & H3 & -> & H4 & H5).
  by exists n, g1, l1, g', v.
Qed.

Lemma steps_implement_calls_witness :
  ∃ n g1 l1 g' b,
    mpsc_tstep 0 (CallPush TEXT [x61]) (Mpsc fresh_queue [] []) PIdle = Some (g1, l1) ∧
    solo n g1 l1 = Some (g', PIdle) ∧
    try_push_message (Some fresh_queue) TEXT (Some [x61]) 1 = Some (b, Some (lay g')) ∧
    published g' = (if b then [(0, (type_u32 TEXT, [x61]))] else []) ∧ consumed g' = [].
Proof.
  apply (steps_implement_calls (Mpsc fresh_queue [] []) TEXT [x61] TEXT [] (Header 0 0)).
  split; [split; [reflexivity|]|]; repeat constructor; vm_compute; discriminate.
Defined.
