(* ===== verification/IpcQueueFifo.v ===== *)
(** The queue of hw4 delivers in order while it is not overfull.

    [IpcQueueMpsc] shows that under contention a message can overtake others: a
    producer that has drawn its index may find its slot one lap later.  Here a
    push is started only while fewer than sixteen indices are outstanding (drawn
    by a producer and not yet passed by the consumer), which is what a ring of
    sixteen slots is meant for.  Then no compare-and-swap fails, the indices drawn
    are at every moment exactly those a producer works on and those waiting in a
    slot, and the consumer takes the messages in the order of their indices. *)

From S2P Require Import Prelude Machine IpcQueue IpcQueueMpsc.
From stdpp Require Import options.

Local Open Scope Z_scope.

#[local] Arguments replicate : simpl never.

(** * Runs that are never overfull *)

(** Fewer than sixteen indices outstanding, and the counter does not wrap. *)
Definition has_room (q : SharedQueueLayout) : bool :=
  (write_index q - read_index q <? QUEUE_CAPACITY) && (write_index q + 1 <? 2 ^ 64).

Definition roomy_step (a : act choice) (c : conf mpsc thread) : option (conf mpsc thread) :=
  match Machine.choice a with
  | CallPush _ _ => if has_room (lay (shared c)) then mpsc_step a c else None
  | _ => mpsc_step a c
  end.

(** * The invariant *)

(** The index a producer has drawn. *)
Definition drawn (l : thread) : option Z :=
  match l with
  | PIndexed _ _ x | PClaimed _ _ x | PTyped _ _ x | PCopy _ _ x _ => Some x
  | _ => None
  end.

(** The index the consumer works on. *)
Definition reading (l : thread) : option Z :=
  match l with
  | CIndexed _ _ x | CReady _ _ x | CTyped _ _ x _ | CHeader _ _ x _ | CCopy _ _ x _ _
  | CClear _ _ x _ | CClearLen _ _ x _ | CWipe _ _ x _ _ | CAdvance x => Some x
  | _ => None
  end.

(** Between the release of the slot and the store of [read_index]. *)
Definition advancing (l : thread) : Z := match l with CAdvance _ => 1 | _ => 0 end.

(** The first index not yet taken. *)
Definition first_index (c : conf mpsc thread) : Z :=
  read_index (lay (shared c)) + total advancing (threads c).

(** What the consumer reports is the message published with the same index. *)
Definition in_order (a : Z * outcome) (b : Z * message) : Prop := a.1 = b.1 ∧ explains a b.

Record fifo_inv (start : Z) (c : conf mpsc thread) (hold : list (option (Z * message))) : Prop := {
  fifo_mpsc : mpsc_inv c hold;
  fifo_window : 0 ≤ read_index (lay (shared c)) ∧ first_index c ≤ write_index (lay (shared c)) ∧
    write_index (lay (shared c)) ≤ read_index (lay (shared c)) + 16 ∧
    write_index (lay (shared c)) < 2 ^ 64;
  fifo_reading t l x : threads c !! t = Some l → reading l = Some x →
    x = read_index (lay (shared c));
  fifo_drawn : omap drawn (threads c) ++ (omap id hold).*1
    ≡ₚ seqZ (first_index c) (write_index (lay (shared c)) - first_index c);
  fifo_log : ∃ ms, Forall2 in_order (consumed (shared c)) ms ∧
    published (shared c) ≡ₚ ms ++ omap id hold;
  fifo_taken : start ≤ first_index c ∧
    (consumed (shared c)).*1 = seqZ start (first_index c - start) }.

Lemma advancing_nonneg l : 0 ≤ advancing l.
Proof. by destruct l. Qed.

Lemma first_index_ge c : read_index (lay (shared c)) ≤ first_index c.
Proof.
  unfold first_index. pose proof (total_nonneg advancing (threads c) advancing_nonneg). lia.
Qed.

(** Only one thread ever advances: with the consumer at [l], nobody else does. *)
Lemma advancing_consumer c hold t l :
  mpsc_inv c hold → threads c !! t = Some l → is_consumer l = true →
  total advancing (threads c) = advancing l.
Proof.
  intros HI Ht Hc.
  assert (t = 0%nat) as ->.
  { pose proof (inv_roles _ _ HI _ _ Ht) as E. rewrite Hc in E.
    symmetry in E. by apply bool_decide_eq_true_1 in E. }
  pose proof (inv_roles _ _ HI) as Hr. destruct (threads c) as [|l0 ls]; [done|]. injection Ht as ->.
  rewrite total_cons. enough (total advancing ls = 0) by lia.
  rewrite (total_ext _ (λ _, 0)).
  - clear. induction ls; [done|]. by rewrite total_cons.
  - intros x [i Hx]%list_elem_of_lookup. specialize (Hr (S i) x Hx). by destruct x.
Qed.

(** ** Indices in the window *)

Lemma drawn_window start c hold x :
  fifo_inv start c hold → x ∈ omap drawn (threads c) ++ (omap id hold).*1 →
  first_index c ≤ x < write_index (lay (shared c)).
Proof. intros HF Hx. rewrite (fifo_drawn _ _ _ HF), elem_of_seqZ in Hx. lia. Qed.

(** Two outstanding indices with the same slot are the same. *)
Lemma window_inj start c hold x y :
  fifo_inv start c hold → get_slot x = get_slot y →
  x ∈ omap drawn (threads c) ++ (omap id hold).*1 →
  y ∈ omap drawn (threads c) ++ (omap id hold).*1 → x = y.
Proof.
  intros HF Hs Hx%(drawn_window _ _ _ _ HF) Hy%(drawn_window _ _ _ _ HF).
  pose proof (fifo_window _ _ _ HF). pose proof (first_index_ge c). apply get_slot_inj; [done|]. lia.
Qed.

Lemma drawn_elem t l x (ls : list thread) (k : list Z) :
  ls !! t = Some l → drawn l = Some x → x ∈ omap drawn ls ++ k.
Proof.
  intros Ht Hx. apply elem_of_app. left. apply list_elem_of_omap. exists l.
  split; [|done]. apply list_elem_of_lookup. eauto.
Qed.

Lemma hold_elem (hold : list (option (Z * message))) i m (k : list Z) :
  hold !! i = Some (Some m) → m.1 ∈ k ++ (omap id hold).*1.
Proof.
  intros Hi. apply elem_of_app. right. apply list_elem_of_fmap. exists m. split; [done|].
  apply list_elem_of_omap. exists (Some m). split; [|done]. apply list_elem_of_lookup. eauto.
Qed.

(** No index is drawn twice, nor drawn and held. *)
Lemma drawn_once start c hold t1 t2 l1 l2 x :
  fifo_inv start c hold → threads c !! t1 = Some l1 → threads c !! t2 = Some l2 →
  drawn l1 = Some x → drawn l2 = Some x → t1 = t2.
Proof.
  intros HF H1 H2 D1 D2. destruct (decide (t1 = t2)) as [|Hne]; [done|].
  assert (NoDup (omap drawn (threads c))) as Hd.
  { pose proof (NoDup_seqZ (first_index c) (write_index (lay (shared c)) - first_index c)) as H.
    rewrite <- (fifo_drawn _ _ _ HF) in H. by apply list.NoDup_app in H as [? _]. }
  pose proof (omap_pick_perm drawn _ _ _ PIdle H1) as Hp. rewrite D1 in Hp. simpl in Hp.
  rewrite Hp in Hd. apply NoDup_cons_1_1 in Hd. destruct Hd.
  apply list_elem_of_omap. exists l2. split; [|done]. apply list_elem_of_lookup. exists t2.
  by rewrite list_lookup_insert_ne.
Qed.

Lemma drawn_not_held start c hold t l i m :
  fifo_inv start c hold → threads c !! t = Some l → drawn l = Some m.1 →
  hold !! i = Some (Some m) → False.
Proof.
  intros HF Ht Hd Hi.
  pose proof (NoDup_seqZ (first_index c) (write_index (lay (shared c)) - first_index c)) as H.
  rewrite <- (fifo_drawn _ _ _ HF) in H. apply list.NoDup_app in H as (_ & H & _).
  eapply (H m.1); [by rewrite <- (app_nil_r (omap _ _)); eapply drawn_elem|].
  by apply (hold_elem hold i m []).
Qed.

(** The slot of an index a producer has just drawn is empty: its
    compare-and-swap succeeds. *)
Lemma drawn_slot_empty start c hold t ty data index s :
  fifo_inv start c hold → threads c !! t = Some (PIndexed ty data index) →
  slots (lay (shared c)) !! get_slot index = Some s → state s = 0.
Proof.
  intros HF Ht Hs. pose proof (fifo_mpsc _ _ _ HF) as HI.
  destruct (lookup_lt_is_Some_2 hold (get_slot index)) as [o Ho];
    [rewrite (inv_hold _ _ HI); by eapply lookup_lt_Some|].
  destruct (inv_slots _ _ HI _ _ _ Hs Ho) as [_ [(E & _)|[(E & Hn & _)|(E & _ & m & -> & Hm & _)]]]; [done|..].
  - destruct (count_witness (touches (get_slot index)) (threads c)) as (t2 & l2 & Ht2 & Hi2); [lia|].
    pose proof (inv_threads _ _ HI _ _ _ _ _ Ht2 Hi2 Hs Ho) as Hth.
    assert (∃ y, drawn l2 = Some y ∧ get_slot y = get_slot index) as (y & Hy & Hsl).
    { destruct l2; simpl in *; try (destruct Hth; lia); try done;
        (eexists; split; [done|]; by apply bool_decide_eq_true_1 in Hi2). }
    assert (y = index) as ->
      by (eapply window_inj; [done|done|by apply (drawn_elem _ _ _ _ _ Ht2)|by apply (drawn_elem _ _ _ _ _ Ht)]).
    pose proof (drawn_once _ _ _ _ _ _ _ _ HF Ht Ht2 eq_refl Hy) as ->. by simplify_eq.
  - assert (m.1 = index) as Hmi
      by (eapply window_inj; [done|done|by apply (hold_elem _ _ _ _ Ho)|by apply (drawn_elem _ _ _ _ _ Ht)]).
    exfalso. eapply drawn_not_held; [done|done|by rewrite Hmi|done].
Qed.

(** ** Preservation *)

(** A step that draws no index, takes no message and publishes none. *)
Lemma fifo_quiet start c hold t l l' g' :
  fifo_inv start c hold → threads c !! t = Some l →
  mpsc_inv (Conf g' (<[t:=l']> (threads c))) hold →
  write_index (lay g') = write_index (lay (shared c)) →
  read_index (lay g') = read_index (lay (shared c)) →
  published g' = published (shared c) → consumed g' = consumed (shared c) →
  drawn l' = drawn l → advancing l' = advancing l →
  (∀ x, reading l' = Some x → x = read_index (lay (shared c))) →
  fifo_inv start (Conf g' (<[t:=l']> (threads c))) hold.
Proof.
  intros [HI Hw Hr Hd Hlog Ht] Hl HI' EW ER EP EC ED EA Hread.
  assert (first_index (Conf g' (<[t:=l']> (threads c))) = first_index c) as EF.
  { unfold first_index. simpl. rewrite ER, (total_insert _ _ _ _ _ Hl). lia. }
  assert (omap drawn (<[t:=l']> (threads c)) ≡ₚ omap drawn (threads c)) as EO.
  { pose proof (omap_pick_perm drawn _ _ _ l' Hl) as E. rewrite ED in E.
    by apply Permutation_app_inv_l in E. }
  split; simpl; rewrite ?EF, ?EW, ?ER, ?EP, ?EC, ?EO; try done.
  intros t2 l2 x [[-> ->]|[_ H2]]%list_lookup_insert_Some' Hx; [by apply Hread|by eapply Hr].
Qed.

(** [fetch_add]. *)
Lemma fifo_draw start c hold t ty data g' :
  fifo_inv start c hold → threads c !! t = Some PIdle → has_room (lay (shared c)) = true →
  mpsc_inv (Conf g' (<[t:=PIndexed ty data (write_index (lay (shared c)))]> (threads c))) hold →
  g' = set_lay (set_write_index (u64_wrap (write_index (lay (shared c)) + 1)) (lay (shared c))) (shared c) →
  fifo_inv start (Conf g' (<[t:=PIndexed ty data (write_index (lay (shared c)))]> (threads c))) hold.
Proof.
  intros HF Hl Hroom HI' ->. pose proof (first_index_ge c) as Hge. destruct HF as [HI Hw Hr Hd Hlog Ht].
  unfold has_room, QUEUE_CAPACITY in Hroom. rewrite andb_true_iff, !Z.ltb_lt in Hroom.
  rewrite u64_wrap_small in * by lia. set (W := write_index (lay (shared c))) in *.
  match goal with |- fifo_inv _ ?c' _ => assert (first_index c' = first_index c) as EF end.
  { unfold first_index. simpl. rewrite (total_insert _ _ _ _ _ Hl). simpl. lia. }
  pose proof (omap_pick_perm drawn _ _ _ (PIndexed ty data W) Hl) as EO. simpl in EO.
  split; simpl; rewrite ?EF; try done.
  - lia.
  - intros t2 l2 x [[-> ->]|[_ H2]]%list_lookup_insert_Some' Hx; [done|by eapply Hr].
  - replace (W + 1 - first_index c) with ((W - first_index c) + 1) by lia.
    rewrite seqZ_app by lia. rewrite <- EO, <- Hd. simpl.
    replace (first_index c + (W - first_index c)) with W by lia. apply Permutation_cons_append.
Qed.

(** The last byte is in place: the slot becomes ready. *)
Lemma fifo_publish start c hold t ty data index k g' :
  fifo_inv start c hold → threads c !! t = Some (PCopy ty data index k) →
  hold !! get_slot index = Some None →
  mpsc_inv (Conf g' (<[t:=PIdle]> (threads c)))
    (<[get_slot index:=Some (index, (type_u32 ty, data))]> hold) →
  write_index (lay g') = write_index (lay (shared c)) →
  read_index (lay g') = read_index (lay (shared c)) →
  published g' = published (shared c) ++ [(index, (type_u32 ty, data))] →
  consumed g' = consumed (shared c) →
  fifo_inv start (Conf g' (<[t:=PIdle]> (threads c)))
    (<[get_slot index:=Some (index, (type_u32 ty, data))]> hold).
Proof.
  intros [HI Hw Hr Hd Hlog Ht] Hl Ho HI' EW ER EP EC.
  assert (first_index (Conf g' (<[t:=PIdle]> (threads c))) = first_index c) as EF.
  { unfold first_index. simpl. rewrite ER, (total_insert _ _ _ _ _ Hl). simpl. lia. }
  pose proof (omap_pick_perm drawn _ _ _ PIdle Hl) as EO. simpl in EO.
  pose proof (omap_insert_perm hold _ None (Some (index, (type_u32 ty, data))) Ho) as EH. simpl in EH.
  split; simpl; rewrite ?EF, ?EW, ?ER, ?EP, ?EC; try done.
  - intros t2 l2 x [[-> ->]|[_ H2]]%list_lookup_insert_Some' Hx; [done|by eapply Hr].
  - rewrite <- Hd, <- EH, EO. csimpl. by rewrite <- Permutation_middle.
  - destruct Hlog as (ms & Hms & Hp). exists ms. split; [done|].
    rewrite Hp, <- EH, <- app_assoc. f_equiv. symmetry. apply Permutation_cons_append.
Qed.

(** The consumer's slot holds the message of its index. *)
Lemma reading_held start c hold t l x m :
  fifo_inv start c hold → threads c !! t = Some l → is_consumer l = true →
  reading l = Some x → advancing l = 0 →
  hold !! get_slot x = Some (Some m) → get_slot m.1 = get_slot x → m.1 = x.
Proof.
  intros HF Ht Hc Hx Ha Hh Hs. pose proof (fifo_reading _ _ _ HF _ _ _ Ht Hx) as ->.
  pose proof (drawn_window _ _ _ m.1 HF (hold_elem _ _ _ _ Hh)) as Hm.
  pose proof (fifo_window _ _ _ HF). pose proof (first_index_ge c).
  apply get_slot_inj; [done|]. lia.
Qed.

(** The slot is released. *)
Lemma fifo_take start c hold t ex buf index h k m g' :
  fifo_inv start c hold → threads c !! t = Some (CWipe ex buf index h k) →
  hold !! get_slot index = Some (Some m) → get_slot m.1 = get_slot index → outcome_of ex buf h m.2 →
  mpsc_inv (Conf g' (<[t:=CAdvance index]> (threads c))) (<[get_slot index:=None]> hold) →
  write_index (lay g') = write_index (lay (shared c)) →
  read_index (lay g') = read_index (lay (shared c)) →
  published g' = published (shared c) →
  consumed g' = consumed (shared c) ++ [(index, report ex buf h)] →
  fifo_inv start (Conf g' (<[t:=CAdvance index]> (threads c))) (<[get_slot index:=None]> hold).
Proof.
  intros HF Hl Ho Hsl Hout HI' EW ER EP EC.
  pose proof (reading_held _ _ _ _ _ _ _ HF Hl eq_refl eq_refl eq_refl Ho Hsl) as Hm.
  pose proof (fifo_reading _ _ _ HF _ _ _ Hl eq_refl) as Hx.
  assert (first_index c = index) as Efirst.
  { unfold first_index. rewrite (advancing_consumer _ _ _ _ (fifo_mpsc _ _ _ HF) Hl eq_refl). simpl. lia. }
  pose proof (drawn_window _ _ _ m.1 HF (hold_elem _ _ _ _ Ho)) as Hwin.
  destruct HF as [HI Hw Hr Hd Hlog [Hs0 Ht]].
  assert (first_index (Conf g' (<[t:=CAdvance index]> (threads c))) = index + 1) as EF.
  { unfold first_index in *. simpl. rewrite ER, (total_insert _ _ _ _ _ Hl). simpl. lia. }
  pose proof (omap_pick_perm drawn _ _ _ (CAdvance index) Hl) as EO. simpl in EO.
  pose proof (omap_insert_perm hold _ (Some m) None Ho) as EH. simpl in EH.
  rewrite Efirst in *.
  split; simpl; rewrite ?EF, ?EW, ?ER, ?EP, ?EC; try done.
  - lia.
  - intros t2 l2 x [[-> ->]|[_ H2]]%list_lookup_insert_Some' Hy; [by simplify_eq/=|by eapply Hr].
  - rewrite <- EO. rewrite EH in Hd. csimpl in Hd. rewrite <- Permutation_middle in Hd.
    rewrite Hm, seqZ_cons in Hd by lia. apply Permutation_cons_inv in Hd. rewrite Hd.
    f_equiv; lia.
  - destruct Hlog as (ms & Hms & Hp). exists (ms ++ [m]). split.
    + apply Forall2_app; [done|]. constructor; [|constructor]. split; [done|by apply report_explains].
    + by rewrite Hp, EH, <- app_assoc.
  - split; [lia|]. rewrite fmap_app, Ht. simpl.
    replace (index + 1 - start) with ((index - start) + 1) by lia. rewrite seqZ_app by lia.
    f_equal. rewrite seqZ_cons by lia. rewrite seqZ_nil by lia. f_equal. lia.
Qed.

(** The store of [read_index]. *)
Lemma fifo_advance start c hold t index :
  fifo_inv start c hold → threads c !! t = Some (CAdvance index) →
  mpsc_inv (Conf (set_lay (set_read_index (u64_wrap (index + 1)) (lay (shared c))) (shared c))
    (<[t:=CIdle]> (threads c))) hold →
  fifo_inv start (Conf (set_lay (set_read_index (u64_wrap (index + 1)) (lay (shared c))) (shared c))
    (<[t:=CIdle]> (threads c))) hold.
Proof.
  intros HF Hl HI'. pose proof (fifo_reading _ _ _ HF _ _ _ Hl eq_refl) as Hx.
  pose proof (advancing_consumer _ _ _ _ (fifo_mpsc _ _ _ HF) Hl eq_refl) as Ha. simpl in Ha.
  destruct HF as [HI Hw Hr Hd Hlog Ht].
  assert (first_index c = index + 1) as Ef by (unfold first_index; lia).
  rewrite u64_wrap_small in * by lia.
  match goal with |- fifo_inv _ ?c' _ => assert (first_index c' = first_index c) as EF end.
  { unfold first_index. simpl. rewrite (total_insert _ _ _ _ _ Hl). simpl. lia. }
  pose proof (omap_pick_perm drawn _ _ _ CIdle Hl) as EO. simpl in EO.
  split; simpl; rewrite ?EF, ?Ha; try done.
  - lia.
  - intros t2 l2 x [[-> ->]|[Hne H2]]%list_lookup_insert_Some' Hy; [done|]. exfalso.
    assert (is_consumer l2 = true) as Hc2 by (by destruct l2).
    pose proof (inv_roles _ _ HI _ _ H2) as E2. pose proof (inv_roles _ _ HI _ _ Hl) as E1.
    rewrite Hc2 in E2. simpl in E1. symmetry in E1, E2. apply bool_decide_eq_true_1 in E1, E2. congruence.
  - by rewrite <- EO.
Qed.

Lemma upd_slot_frame i f g g' :
  upd_slot i f g = Some g' →
  write_index (lay g') = write_index (lay g) ∧ read_index (lay g') = read_index (lay g) ∧
  published g' = published g ∧ consumed g' = consumed g.
Proof. intros (s & s' & _ & _ & ->)%upd_slot_inv. done. Qed.

(** The quiet steps: those of a producer between its exchange and its last byte,
    those of the consumer up to the end of the wipe. *)
Ltac quiet HF Ht HI' :=
  eapply (fifo_quiet _ _ _ _ _ _ _ HF Ht HI'); try done;
  try (intros ? ?; simplify_eq/=; by eapply (fifo_reading _ _ _ HF _ _ _ Ht)).

Ltac quiet_upd HF Ht HI' Hs :=
  match type of Hs with
  | context [upd_slot ?i ?f ?g] =>
      let E := fresh "E" in
      destruct (upd_slot i f g) as [?g1|] eqn:E; simplify_eq/=;
      apply upd_slot_frame in E as (? & ? & ? & ?); quiet HF Ht HI'
  end.

Lemma fifo_push_preserves start c hold t l ch g' l' :
  fifo_inv start c hold → threads c !! t = Some l → is_consumer l = false →
  (∀ ty d, ch = CallPush ty d → has_room (lay (shared c)) = true) →
  push_step ch (shared c) l = Some (g', l') →
  mpsc_inv (Conf g' (<[t:=l']> (threads c))) (hold_after l l' hold) →
  fifo_inv start (Conf g' (<[t:=l']> (threads c))) (hold_after l l' hold).
Proof.
  intros HF Ht Hc Hroom Hs HI'. pose proof (fifo_mpsc _ _ _ HF) as HI.
  destruct l, ch; simpl in Hc, Hs; try discriminate.
  - destruct (_ >? _); simplify_eq; [quiet HF Ht HI'|]. eapply fifo_draw; eauto.
  - destruct (slots (lay (shared c)) !! get_slot index) as [s|] eqn:Hsl; simplify_eq/=.
    rewrite (drawn_slot_empty _ _ _ _ _ _ _ _ HF Ht Hsl) in Hs. simplify_eq/=. quiet HF Ht HI'.
  - quiet_upd HF Ht HI' Hs.
  - quiet_upd HF Ht HI' Hs.
  - destruct (data !! k) as [b|] eqn:Hb; [quiet_upd HF Ht HI' Hs|].
    destruct (upd_slot _ _ _) as [g1|] eqn:E; simplify_eq/=.
    apply upd_slot_frame in E as (E1 & E2 & E3 & E4).
    destruct (inv_touch _ _ _ _ (get_slot index) HI Ht (touches_self _) (get_slot_bound _))
      as (s & o & Hsl & Ho & (_ & -> & _) & _).
    eapply fifo_publish; simpl; eauto. by rewrite E3.
Qed.

Lemma fifo_pop_preserves start c hold t l ch g' l' :
  fifo_inv start c hold → threads c !! t = Some l → is_consumer l = true →
  pop_step ch (shared c) l = Some (g', l') →
  mpsc_inv (Conf g' (<[t:=l']> (threads c))) (hold_after l l' hold) →
  fifo_inv start (Conf g' (<[t:=l']> (threads c))) (hold_after l l' hold).
Proof.
  intros HF Ht Hc Hs HI'. pose proof (fifo_mpsc _ _ _ HF) as HI.
  destruct l, ch; simpl in Hc, Hs; try discriminate.
  - simplify_eq/=. quiet HF Ht HI'. by intros x [= ->].
  - destruct (slots (lay (shared c)) !! get_slot index) as [s|] eqn:Hsl; simplify_eq/=.
    destruct (negb _); simplify_eq/=; quiet HF Ht HI'.
  - destruct (slots (lay (shared c)) !! get_slot index) as [s|] eqn:Hsl; simplify_eq/=. quiet HF Ht HI'.
  - destruct (slots (lay (shared c)) !! get_slot index) as [s|] eqn:Hsl; simplify_eq/=. quiet HF Ht HI'.
  - destruct (_ >? _); [|destruct (_ >? _); [|destruct (_ =? _)]]; simplify_eq/=; quiet HF Ht HI'.
  - case_bool_decide; [|simplify_eq/=; quiet HF Ht HI'].
    destruct (slots (lay (shared c)) !! get_slot index) as [s|] eqn:Hsl; simplify_eq/=.
    destruct (payload s !! k); simplify_eq/=. case_decide; simplify_eq/=. quiet HF Ht HI'.
  - quiet_upd HF Ht HI' Hs.
  - quiet_upd HF Ht HI' Hs.
  - case_bool_decide; [quiet_upd HF Ht HI' Hs|].
    destruct (upd_slot _ _ _) as [g1|] eqn:E; simplify_eq/=.
    apply upd_slot_frame in E as (E1 & E2 & E3 & E4).
    destruct (inv_touch _ _ _ _ (get_slot index) HI Ht (touches_self _) (get_slot_bound _))
      as (s & o & Hsl & Ho & (_ & m & -> & Hx & Hout) & _).
    eapply fifo_take; simpl; eauto. by rewrite E4.
  - simplify_eq/=. by apply fifo_advance.
Qed.

Lemma fifo_preserves start a c c' :
  (∃ hold, fifo_inv start c hold) → roomy_step a c = Some c' → ∃ hold', fifo_inv start c' hold'.
Proof.
  intros [hold HF] Hstep.
  assert (mpsc_step a c = Some c' ∧
    ∀ ty d, Machine.choice a = CallPush ty d → has_room (lay (shared c)) = true) as [Hs Hroom].
  { unfold roomy_step in Hstep. destruct (Machine.choice a); try done.
    destruct (has_room _); [|done]. done. }
  apply conf_step_inv in Hs as (l & g' & l' & Ht & Hs & ->).
  pose proof (mpsc_preserves _ _ _ _ _ _ _ (fifo_mpsc _ _ _ HF) Ht Hs) as HI'.
  unfold mpsc_tstep in Hs. exists (hold_after l l' hold). destruct (is_consumer l) eqn:Hc.
  - by eapply fifo_pop_preserves.
  - by eapply fifo_push_preserves.
Qed.

Lemma fifo_init q n :
  queue_rep q [] → fifo_inv (read_index q) (mpsc_init q n) (replicate 16 None).
Proof.
  intros HR. pose proof (rep_read _ _ HR) as Hr. pose proof (rep_write _ _ HR) as Hw. simpl in Hw.
  rewrite Z.add_0_r, u64_wrap_small in Hw by done.
  assert (total advancing (CIdle :: replicate n PIdle) = 0) as Ha.
  { rewrite total_cons, total_replicate. simpl. lia. }
  assert (first_index (mpsc_init q n) = read_index q) as EF.
  { unfold first_index. simpl in *. rewrite Ha. lia. }
  split; rewrite ?EF; simpl; rewrite ?Hw; try done.
  - by apply mpsc_init_inv.
  - lia.
  - intros [|t] l x Hl Hx; simplify_eq/=. by apply lookup_replicate in Hl as [-> _].
  - rewrite seqZ_nil, app_nil_r by lia. clear. induction n; [done|]. by rewrite replicate_S.
  - by exists [].
  - split; [done|]. by rewrite seqZ_nil by lia.
Qed.

Lemma fifo_reach q n c :
  queue_rep q [] → reach roomy_step (mpsc_init q n) c → ∃ hold, fifo_inv (read_index q) c hold.
Proof.
  intros HR. apply (reach_inv _ (λ c, ∃ hold, fifo_inv (read_index q) c hold)).
  - eexists. by apply fifo_init.
  - intros a c1 c2. apply fifo_preserves.
Qed.

(** The indices of what was taken and of what is held are different. *)
Lemma fifo_nodup start c hold ms :
  fifo_inv start c hold → Forall2 in_order (consumed (shared c)) ms →
  NoDup (ms ++ omap id hold).*1.
Proof.
  intros HF Hms.
  assert (ms.*1 = (consumed (shared c)).*1) as E.
  { clear HF. induction Hms as [|a b as' bs [Hab _] _ IH]; csimpl; congruence. }
  pose proof (NoDup_seqZ (first_index c) (write_index (lay (shared c)) - first_index c)) as H.
  rewrite <- (fifo_drawn _ _ _ HF) in H. apply list.NoDup_app in H as (_ & _ & H).
  rewrite fmap_app, E. destruct (fifo_taken _ _ _ HF) as [Hs ->].
  apply list.NoDup_app. split_ands; [apply NoDup_seqZ| |done].
  intros x Hx%elem_of_seqZ Hin.
  assert (first_index c ≤ x) by (eapply (drawn_window _ _ _ x HF), elem_of_app; by right). lia.
Qed.

(** * Property *)

(** C2: First in, first out.  As long as a push is started only while fewer
    than sixteen indices are outstanding, with any number of producers, one
    consumer and every interleaving: the consumer takes the indices one after the
    other from the initial one, what it reports for an index is the one message
    published with that index, and every producer that has drawn an index finds
    its slot empty, so that no push is refused. *)
Theorem roomy_queue_is_fifo q n c :
  queue_rep q [] → reach roomy_step (mpsc_init q n) c →
  (consumed (shared c)).*1 = seqZ (read_index q) (Z.of_nat (length (consumed (shared c)))) ∧
  (∃ taken held, Forall2 in_order (consumed (shared c)) taken ∧
     published (shared c) ≡ₚ taken ++ held) ∧
  NoDup (published (shared c)).*1 ∧
  (∀ t ty data index s, threads c !! t = Some (PIndexed ty data index) →
     slots (lay (shared c)) !! get_slot index = Some s → state s = state_u32 EMPTY).
Proof.
  intros HR Hc. destruct (fifo_reach _ _ _ HR Hc) as [hold HF].
  destruct (fifo_log _ _ _ HF) as (ms & Hms & Hp). split_ands.
  - destruct (fifo_taken _ _ _ HF) as [Hs E]. rewrite E. f_equal.
    rewrite <- (length_fmap fst (consumed (shared c))), E, length_seqZ. lia.
  - by exists ms, (omap id hold).
  - rewrite Hp. by eapply fifo_nodup.
  - intros t ty data index s Ht Hs. by eapply drawn_slot_empty.
Qed.

(** Two producers draw their indices in one order and publish in the other; the
    consumer takes both messages. *)
Definition crossing_schedule : list (act choice) :=
  Act 1 (CallPush TEXT [x61]) :: push_schedule 2 TEXT [x62] ++ replicate 5 (Act 1 Go) ++
  Act 0 (CallPop TEXT (replicate 256 x00)) :: replicate 266 (Act 0 Go) ++
  Act 0 (CallPop TEXT (replicate 256 x00)) :: replicate 266 (Act 0 Go).

Lemma roomy_queue_is_fifo_witness :
  ∃ c, run roomy_step crossing_schedule (mpsc_init fresh_queue 2) = Some c ∧
    (published (shared c)).*1 = [1; 0] ∧
    (consumed (shared c)).*1 = seqZ 0 (Z.of_nat (length (consumed (shared c)))) ∧
    consumed (shared c) = [(0, Delivered (type_u32 TEXT, [x61])); (1, Delivered (type_u32 TEXT, [x62]))].
Proof.
  assert (∃ c, run roomy_step crossing_schedule (mpsc_init fresh_queue 2) = Some c ∧
    (published (shared c)).*1 = [1; 0] ∧
    consumed (shared c) = [(0, Delivered (type_u32 TEXT, [x61])); (1, Delivered (type_u32 TEXT, [x62]))])
    as (c & Hc & Hp & Hd) by (eexists; split; [vm_compute; reflexivity|split; reflexivity]).
  exists c. split_ands; [exact Hc|exact Hp| |exact Hd].
  exact (proj1 (roomy_queue_is_fifo fresh_queue 2 c fresh_queue_rep (run_reach _ _ _ _ Hc))).
Defined.
