(* ===== verification/ShmUtils.v ===== *)
(** POSIX shared memory: hw4/shm_utils.h and hw4/shm_utils.cpp.

    The system calls are not code of the repository: they are the operations of
    a class [Kernel], and what the functions rely on, their documented effect
    on the descriptors, mappings and names of the process, is the class
    [KernelLaws].  The functions are state-passing programs over any kernel.
    [Sim] is a concrete kernel that satisfies the laws and on which the
    programs run. *)

From S2P Require Import Prelude IpcQueue.
From stdpp Require Import options.

Local Open Scope Z_scope.

(** * The system interface *)

(** The flags the code combines; [O_RDWR] is always set. *)
Record open_flags := Flags { o_creat : bool; o_excl : bool }.

Definition EEXIST : Z := 17.

Class Kernel (W : Type) := {
  shm_open : string → open_flags → W → (Z * Z) * W;
  ftruncate : Z → Z → W → Z * W;
  mmap : Z → Z → W → option Z * W;
  munmap : Z → Z → W → Z * W;
  close : Z → W → Z * W;
  shm_unlink : string → W → Z * W;
  load_queue : Z → W → option SharedQueueLayout;
  store_queue : Z → SharedQueueLayout → W → option W }.

(** The state monad of a process. *)
Definition M (W A : Type) : Type := W → A * W.

Definition mret {W A} (a : A) : M W A := λ w, (a, w).

Definition mthen {W A B} (m : M W A) (k : A → M W B) : M W B :=
  λ w, let '(a, w') := m w in k a w'.

Notation "x ⇐ m ; k" := (mthen m (λ x, k))
  (at level 20, m at level 100, k at level 200) : cxx_scope.

Notation "' p ⇐ m ; k" := (mthen m (λ x, match x with p => k end))
  (at level 20, p pattern, m at level 100, k at level 200) : cxx_scope.

Notation "m ;;; k" := (mthen m (λ _, k)) (at level 100, right associativity) : cxx_scope.

Local Open Scope cxx_scope.

(** * hw4/shm_utils.h *)

Record SharedMemoryRegion := Region { fd : Z; addr : Z; size : Z }.

(** The default member initialisers; a null [addr] is 0. *)
Definition no_region : SharedMemoryRegion := Region (-1) 0 0.

(** * hw4/shm_utils.cpp *)

Section functions.
Context {W : Type} {K : Kernel W}.

(** [static_cast<off_t>(size)]: from [size_t] to a signed type of 64 bits. *)
Definition off_t (sz : Z) : Z := (sz + 2 ^ 63) `mod` 2 ^ 64 - 2 ^ 63.

(** A pointer parameter that may be null is an [option]; a function returns
    its result and the pointed-to objects as it leaves them. *)
Definition create_shared_memory (name : option string) (sz : Z)
    (region : option SharedMemoryRegion) : M W (bool * option SharedMemoryRegion) :=
  match name, region with
  | Some n, Some _ =>
      if sz =? 0 then mret (false, region) else
      '(f, _) ⇐ shm_open n (Flags true false);
      if f =? -1 then mret (false, region) else
      t ⇐ ftruncate f (off_t sz);
      if t =? -1 then close f;;; mret (false, region) else
      a ⇐ mmap sz f;
      match a with
      | None => close f;;; mret (false, region)
      | Some a => mret (true, Some (Region f a sz))
      end
  | _, _ => mret (false, region)
  end.

Definition open_shared_memory (name : option string) (sz : Z)
    (region : option SharedMemoryRegion) : M W (bool * option SharedMemoryRegion) :=
  match name, region with
  | Some n, Some _ =>
      if sz =? 0 then mret (false, region) else
      '(f, _) ⇐ shm_open n (Flags false false);
      if f =? -1 then mret (false, region) else
      a ⇐ mmap sz f;
      match a with
      | None => close f;;; mret (false, region)
      | Some a => mret (true, Some (Region f a sz))
      end
  | _, _ => mret (false, region)
  end.

(** The part after a descriptor has been obtained. *)
Definition map_or_undo (n : string) (sz f : Z) (created_now : bool)
    (region : option SharedMemoryRegion) (was_created : option bool) :
    M W (bool * option SharedMemoryRegion * option bool) :=
  a ⇐ mmap sz f;
  match a with
  | None =>
      close f;;;
      (if created_now then shm_unlink n else mret 0);;;
      mret (false, region, was_created)
  | Some a => mret (true, Some (Region f a sz), Some created_now)
  end.

Definition create_or_open_shared_memory (name : option string) (sz : Z)
    (region : option SharedMemoryRegion) (was_created : option bool) :
    M W (bool * option SharedMemoryRegion * option bool) :=
  match name, region, was_created with
  | Some n, Some _, Some _ =>
      if sz =? 0 then mret (false, region, was_created) else
      '(f, errno) ⇐ shm_open n (Flags true true);
      if negb (f =? -1) then
        t ⇐ ftruncate f (off_t sz);
        if t =? -1
        then close f;;; shm_unlink n;;; mret (false, region, was_created)
        else map_or_undo n sz f true region was_created
      else if negb (errno =? EEXIST) then mret (false, region, was_created) else
        '(f2, _) ⇐ shm_open n (Flags false false);
        if f2 =? -1 then mret (false, region, was_created)
        else map_or_undo n sz f2 false region was_created
  | _, _, _ => mret (false, region, was_created)
  end.

Definition close_shared_memory (region : option SharedMemoryRegion) :
    M W (option SharedMemoryRegion) :=
  match region with
  | None => mret None
  | Some r =>
      (if negb (addr r =? 0) && (0 <? size r) then munmap (addr r) (size r) else mret 0);;;
      (if 0 <=? fd r then close (fd r) else mret 0);;;
      mret (Some no_region)
  end.

Definition unlink_shared_memory (name : option string) : M W bool :=
  match name with
  | None => mret false
  | Some n => r ⇐ shm_unlink n; mret (r =? 0)
  end.
End functions.

(** ** sizeof, on the LP64 ABI the repository is built for *)

(** A type's size and alignment. *)
Definition ctype : Type := Z * Z.

Definition align_up (off al : Z) : Z := (off + al - 1) / al * al.

Definition uint32_t : ctype := (4, 4).

Definition size_t : ctype := (8, 8).

Definition char : ctype := (1, 1).

Definition array (n : Z) (t : ctype) : ctype := (n * t.1, t.2).

(** Members in order, each at the next offset its alignment allows. *)
Definition struct (fields : list ctype) : ctype :=
  let '(off, al) := foldl (λ acc t, (align_up acc.1 t.2 + t.1, Z.max acc.2 t.2)) (0, 1) fields in
  (align_up off al, al).

(** The members of the structures of ipc_queue.h. *)
Definition MessageHeader_members : list ctype := [uint32_t; uint32_t].

Definition QueueMeta_members : list ctype := [uint32_t; uint32_t; uint32_t; uint32_t].

Definition MessageSlot_members : list ctype :=
  [uint32_t; struct MessageHeader_members; array MAX_PAYLOAD_SIZE char].

Definition sizeof_MessageSlot : ctype := struct MessageSlot_members.

Definition SharedQueueLayout_members : list ctype :=
  [struct QueueMeta_members; size_t; size_t; array QUEUE_CAPACITY sizeof_MessageSlot].

Definition sizeof_SharedQueueLayout : ctype := struct SharedQueueLayout_members.

Definition get_queue_memory_size : Z := sizeof_SharedQueueLayout.1.

(** * A concrete kernel *)

(** One process at a time: its descriptors and mappings, the named objects.  An
    object has a size and, once it is large enough, holds a queue. *)
Record sim := Sim {
  sim_fds : gmap nat nat;
  sim_maps : gmap (Z * Z) nat;
  sim_objs : gmap nat (Z * SharedQueueLayout);
  sim_names : gmap string nat }.

(** The next address to hand out: above every mapping. *)
Definition fresh_addr (m : gmap (Z * Z) nat) : Z :=
  4096 * (1 + Z.of_nat (list_max (Z.to_nat ∘ fst <$> (map_to_list m).*1))).

Definition sim_open (n : string) (f : open_flags) (w : sim) : (Z * Z) * sim :=
  let give o w :=
    let d := fresh (dom (sim_fds w)) in
    ((Z.of_nat d, 0), Sim (<[d:=o]> (sim_fds w)) (sim_maps w) (sim_objs w) (sim_names w)) in
  match sim_names w !! n with
  | Some o =>
      if o_creat f && o_excl f then ((-1, EEXIST), w) else give o w
  | None =>
      if o_creat f then
        let o := fresh (dom (sim_objs w)) in
        give o (Sim (sim_fds w) (sim_maps w) (<[o:=(0, zero_memory)]> (sim_objs w))
                 (<[n:=o]> (sim_names w)))
      else ((-1, 2), w)
  end.

Definition sim_truncate (f sz : Z) (w : sim) : Z * sim :=
  match sim_fds w !! Z.to_nat f with
  | Some o =>
      match sim_objs w !! o with
      | Some (_, q) =>
          (0, Sim (sim_fds w) (sim_maps w) (<[o:=(sz, q)]> (sim_objs w)) (sim_names w))
      | None => (-1, w)
      end
  | None => (-1, w)
  end.

Definition sim_mmap (sz f : Z) (w : sim) : option Z * sim :=
  match sim_fds w !! Z.to_nat f with
  | Some o =>
      let a := fresh_addr (sim_maps w) in
      (Some a, Sim (sim_fds w) (<[(a, sz):=o]> (sim_maps w)) (sim_objs w) (sim_names w))
  | None => (None, w)
  end.

Definition sim_munmap (a sz : Z) (w : sim) : Z * sim :=
  (0, Sim (sim_fds w) (delete (a, sz) (sim_maps w)) (sim_objs w) (sim_names w)).

Definition sim_close (f : Z) (w : sim) : Z * sim :=
  (0, Sim (delete (Z.to_nat f) (sim_fds w)) (sim_maps w) (sim_objs w) (sim_names w)).

Definition sim_unlink (n : string) (w : sim) : Z * sim :=
  match sim_names w !! n with
  | Some _ => (0, Sim (sim_fds w) (sim_maps w) (sim_objs w) (delete n (sim_names w)))
  | None => (-1, w)
  end.

(** The object behind an address; an access past the end of the object is
    fatal. *)
Definition sim_object (a : Z) (w : sim) : option (nat * SharedQueueLayout) :=
  '(_, o) ← list_find (λ '(k, _), k.1 = a) (map_to_list (sim_maps w));
  '(sz, q) ← sim_objs w !! o.2;
  if sz <? get_queue_memory_size then None else Some (o.2, q).

Definition sim_load (a : Z) (w : sim) : option SharedQueueLayout :=
  snd <$> sim_object a w.

Definition sim_store (a : Z) (q : SharedQueueLayout) (w : sim) : option sim :=
  '(o, _) ← sim_object a w;
  '(sz, _) ← sim_objs w !! o;
  Some (Sim (sim_fds w) (sim_maps w) (<[o:=(sz, q)]> (sim_objs w)) (sim_names w)).

#[export] Instance sim_kernel : Kernel sim := {
  shm_open := sim_open; ftruncate := sim_truncate; mmap := sim_mmap;
  munmap := sim_munmap; close := sim_close; shm_unlink := sim_unlink;
  load_queue := sim_load; store_queue := sim_store }.

(** Nothing open, nothing named. *)
Definition empty_sim : sim := Sim ∅ ∅ ∅ ∅.

(** * What the functions rely on *)

Class KernelLaws (W : Type) `{Kernel W} := {
  open_fds : W → gset Z;
  mappings : W → gset (Z * Z);
  names : W → gset string;
  shm_open_ok n f w fd e w' :
    shm_open n f w = ((fd, e), w') → fd ≠ (-1) →
    0 ≤ fd ∧ (fd ∉ open_fds w) ∧ open_fds w' = {[fd]} ∪ open_fds w ∧
    mappings w' = mappings w ∧ names w' = {[n]} ∪ names w ∧
    (o_creat f = true → o_excl f = true → n ∉ names w) ∧
    (o_creat f = false → n ∈ names w);
  shm_open_fail n f w e w' :
    shm_open n f w = (((-1)%Z, e), w') →
    open_fds w' = open_fds w ∧ mappings w' = mappings w ∧ names w' = names w;
  ftruncate_frame f sz w r w' :
    ftruncate f sz w = (r, w') →
    open_fds w' = open_fds w ∧ mappings w' = mappings w ∧ names w' = names w;
  mmap_ok sz f w a w' :
    mmap sz f w = (Some a, w') →
    0 < a ∧ ((a, sz) ∉ mappings w) ∧ mappings w' = {[(a, sz)]} ∪ mappings w ∧
    open_fds w' = open_fds w ∧ names w' = names w;
  mmap_fail sz f w w' :
    mmap sz f w = (None, w') →
    open_fds w' = open_fds w ∧ mappings w' = mappings w ∧ names w' = names w;
  munmap_ok a sz w r w' :
    munmap a sz w = (r, w') → (a, sz) ∈ mappings w →
    mappings w' = mappings w ∖ {[(a, sz)]} ∧ open_fds w' = open_fds w ∧ names w' = names w;
  close_ok f w r w' :
    close f w = (r, w') → f ∈ open_fds w →
    open_fds w' = open_fds w ∖ {[f]} ∧ mappings w' = mappings w ∧ names w' = names w;
  shm_unlink_ok n w r w' :
    shm_unlink n w = (r, w') → n ∈ names w →
    r = 0 ∧ names w' = names w ∖ {[n]} ∧ open_fds w' = open_fds w ∧ mappings w' = mappings w }.

(** * The concrete kernel keeps the laws *)

Lemma list_max_ge (l : list nat) x : x ∈ l → (x ≤ list_max l)%nat.
Proof.
  intros H. induction H as [x l|x y l _ IH]; simpl; lia.
Qed.

Lemma fresh_addr_above m a sz : is_Some (m !! (a, sz)) → a < fresh_addr m.
Proof.
  intros [o Ho]. unfold fresh_addr.
  assert (Z.to_nat a ∈ Z.to_nat ∘ fst <$> (map_to_list m).*1) as Hin.
  { apply list_elem_of_fmap. exists (a, sz). split; [done|].
    apply list_elem_of_fmap. exists ((a, sz), o). split; [done|].
    by apply elem_of_map_to_list. }
  apply list_max_ge in Hin. lia.
Qed.

Definition sim_open_fds (w : sim) : gset Z := set_map Z.of_nat (dom (sim_fds w) : gset nat).

Lemma sim_fds_insert (m : gmap nat nat) d o :
  set_map Z.of_nat (dom (<[d:=o]> m)) = {[Z.of_nat d]} ∪ (set_map Z.of_nat (dom m) : gset Z).
Proof. rewrite dom_insert_L. by rewrite set_map_union_L, set_map_singleton_L. Qed.

Lemma sim_fds_delete (m : gmap nat nat) f :
  f ∈ (set_map Z.of_nat (dom m) : gset Z) →
  set_map Z.of_nat (dom (delete (Z.to_nat f) m)) = (set_map Z.of_nat (dom m) : gset Z) ∖ {[f]}.
Proof.
  intros (d & -> & _)%elem_of_map. rewrite dom_delete_L, Nat2Z.id. apply set_eq. intros z.
  rewrite elem_of_difference, !elem_of_map, elem_of_singleton. split.
  - intros (k & -> & Hk). apply elem_of_difference in Hk as [Hk Hne].
    rewrite elem_of_singleton in Hne. split; [by exists k|]. lia.
  - intros [(k & -> & Hk) Hne]. exists k. split; [done|].
    apply elem_of_difference. split; [done|]. rewrite elem_of_singleton. congruence.
Qed.

Lemma sim_give_fresh (m : gmap nat nat) :
  Z.of_nat (fresh (dom m : gset nat)) ∉ (set_map Z.of_nat (dom m) : gset Z).
Proof.
  intros (k & Hk & Hin)%elem_of_map. apply Nat2Z.inj in Hk.
  apply (is_fresh (dom m : gset nat)). by rewrite Hk.
Qed.

#[export] Program Instance sim_laws : KernelLaws sim := {
  open_fds w := sim_open_fds w;
  mappings w := dom (sim_maps w);
  names w := dom (sim_names w) }.
Next Obligation.
  intros n f w d e w' Hopen Hd. cbn in Hopen. unfold sim_open, sim_open_fds in *.
  pose proof (sim_give_fresh (sim_fds w)) as Hfr.
  destruct (sim_names w !! n) as [o|] eqn:En.
  - destruct (o_creat f && o_excl f) eqn:Ef; simplify_eq/=.
    assert (n ∈ dom (sim_names w)) as Hn by (by apply elem_of_dom_2 in En).
    split_ands; try done; [lia|by rewrite sim_fds_insert|set_solver|].
    intros E1 E2. by rewrite E1, E2 in Ef.
  - destruct (o_creat f) eqn:Ef; simplify_eq/=.
    assert (n ∉ dom (sim_names w)) as Hn by (by apply not_elem_of_dom).
    split_ands; try done; [lia|by rewrite sim_fds_insert|by rewrite dom_insert_L].
Qed.
Next Obligation.
  intros n f w e w' Hopen. cbn in Hopen. unfold sim_open in Hopen.
  repeat case_match; simplify_eq/=; try done; lia.
Qed.
Next Obligation.
  intros f sz w r w' Ht. cbn in Ht. unfold sim_truncate in Ht.
  repeat case_match; simplify_eq/=; done.
Qed.
Next Obligation.
  intros sz f w a w' Hm. cbn in Hm. unfold sim_mmap in Hm.
  case_match; simplify_eq/=. split_ands; try done.
  - unfold fresh_addr. lia.
  - intros Hin. apply elem_of_dom, fresh_addr_above in Hin. lia.
  - by rewrite dom_insert_L.
Qed.
Next Obligation.
  intros sz f w w' Hm. cbn in Hm. unfold sim_mmap in Hm. by case_match; simplify_eq/=.
Qed.
Next Obligation.
  intros a sz w r w' Hm Hin. cbn in Hm. unfold sim_munmap in Hm. simplify_eq/=.
  by rewrite dom_delete_L.
Qed.
Next Obligation.
  intros f w r w' Hc Hin. cbn in Hc. unfold sim_close, sim_open_fds in *. simplify_eq/=.
  split_ands; try done. by apply sim_fds_delete.
Qed.
Next Obligation.
  intros n w r w' Hu Hin. cbn in Hu. unfold sim_unlink in Hu.
  apply elem_of_dom in Hin as [o Ho]. rewrite Ho in Hu. simplify_eq/=.
  by rewrite dom_delete_L.
Qed.

(** * Resources *)

Section resources.
Context {W : Type} {K : Kernel W} {L : KernelLaws W}.

(** Two states of the process hold the same descriptors, mappings and names. *)
Definition same_resources (w w' : W) : Prop :=
  open_fds w' = open_fds w ∧ mappings w' = mappings w ∧ names w' = names w.

(** What a successful call has acquired. *)
Definition acquired (n : string) (sz : Z) (w w' : W) (r : SharedMemoryRegion) : Prop :=
  size r = sz ∧ 0 ≤ fd r ∧ 0 < addr r ∧
  (fd r ∉ open_fds w) ∧ ((addr r, sz) ∉ mappings w) ∧
  open_fds w' = {[fd r]} ∪ open_fds w ∧
  mappings w' = {[(addr r, sz)]} ∪ mappings w ∧
  names w' = {[n]} ∪ names w.

(** The state after a descriptor [d] for [n] has been obtained. *)
Definition opened (n : string) (d : Z) (w w1 : W) : Prop :=
  0 ≤ d ∧ (d ∉ open_fds w) ∧ open_fds w1 = {[d]} ∪ open_fds w ∧
  mappings w1 = mappings w ∧ names w1 = {[n]} ∪ names w.

(** Resource equations one by one. *)
Ltac res := unfold same_resources, opened; split_ands.

#[export] Instance same_resources_equiv : Equivalence same_resources.
Proof.
  split.
  - by intros w.
  - intros w w' (? & ? & ?). by res.
  - intros w w' w'' (? & ? & ?) (? & ? & ?). res; congruence.
Qed.

Lemma shm_open_opened n f w d e w1 :
  shm_open n f w = ((d, e), w1) → d ≠ (-1) → opened n d w w1.
Proof.
  intros Ho Hd. destruct (shm_open_ok _ _ _ _ _ _ Ho Hd) as (? & ? & ? & ? & ? & _).
  by res.
Qed.

Lemma opened_same n d w w1 w2 : opened n d w w1 → same_resources w1 w2 → opened n d w w2.
Proof. intros (? & ? & ? & ? & ?) (? & ? & ?). res; congruence. Qed.

Lemma opened_close n d w w1 r w2 :
  opened n d w w1 → close d w1 = (r, w2) →
  open_fds w2 = open_fds w ∧ mappings w2 = mappings w ∧ names w2 = {[n]} ∪ names w.
Proof.
  intros (_ & Hnew & Hf & Hm & Hn) Hc.
  destruct (close_ok _ _ _ _ Hc) as (Hf2 & Hm2 & Hn2); [rewrite Hf; set_solver|].
  rewrite Hf2, Hm2, Hn2, Hf, Hm, Hn. split_ands; [set_solver|done|done].
Qed.

(** Closing, and unlinking what was just created, undoes everything. *)
Lemma opened_undo n d w w1 r w2 r' w3 :
  opened n d w w1 → n ∉ names w → close d w1 = (r, w2) → shm_unlink n w2 = (r', w3) →
  same_resources w w3.
Proof.
  intros Ho Hnew Hc Hu. destruct (opened_close _ _ _ _ _ _ Ho Hc) as (Hf & Hm & Hn).
  destruct (shm_unlink_ok _ _ _ _ Hu) as (_ & Hn' & Hf' & Hm'); [rewrite Hn; set_solver|].
  res; [congruence|congruence|]. rewrite Hn', Hn. set_solver.
Qed.

Lemma opened_close_existing n d w w1 r w2 :
  opened n d w w1 → n ∈ names w → close d w1 = (r, w2) → same_resources w w2.
Proof.
  intros Ho Hin Hc. destruct (opened_close _ _ _ _ _ _ Ho Hc) as (Hf & Hm & Hn).
  res; [done|done|]. rewrite Hn. set_solver.
Qed.

Lemma opened_mmap n d sz w w1 a w2 :
  opened n d w w1 → mmap sz d w1 = (Some a, w2) → acquired n sz w w2 (Region d a sz).
Proof.
  intros (H0 & Hnew & Hf & Hm & Hn) Em.
  destruct (mmap_ok _ _ _ _ _ Em) as (Ha & Hnm & Hm2 & Hf2 & Hn2).
  unfold acquired. cbn. rewrite Hm2, Hf2, Hn2, Hf, Hm, Hn. rewrite Hm in Hnm. by split_ands.
Qed.

(** From a descriptor to a mapping, or back to nothing. *)
Lemma map_or_undo_spec n sz w d w1 cr reg wc ok reg' wc' w' :
  opened n d w w1 → (if cr : bool then n ∉ names w else n ∈ names w) →
  map_or_undo n sz d cr reg wc w1 = ((ok, reg', wc'), w') →
  if ok then ∃ r, reg' = Some r ∧ acquired n sz w w' r ∧ wc' = Some cr
  else same_resources w w' ∧ reg' = reg ∧ wc' = wc.
Proof.
  intros Ho Hcr. unfold map_or_undo, mthen, mret.
  destruct (mmap sz d w1) as [[a|] w2] eqn:Em.
  - intros E. simplify_eq. eexists. split_ands; [done|by eapply opened_mmap|done].
  - eapply opened_same in Ho; [|by apply (mmap_fail _ _ _ _ Em)].
    destruct (close d w2) as [rc w3] eqn:Ec. destruct cr.
    + destruct (shm_unlink n w3) as [ru w4] eqn:Eu. intros E. simplify_eq.
      split_ands; try done. by eapply opened_undo.
    + intros E. simplify_eq. split_ands; try done. by eapply opened_close_existing.
Qed.

Lemma create_or_open_spec n sz reg wc w ok reg' wc' w' :
  create_or_open_shared_memory (Some n) sz (Some reg) (Some wc) w = ((ok, reg', wc'), w') →
  if ok then ∃ r, reg' = Some r ∧ acquired n sz w w' r ∧
    wc' = Some (bool_decide (n ∉ names w))
  else same_resources w w' ∧ reg' = Some reg ∧ wc' = Some wc.
Proof.
  unfold create_or_open_shared_memory, mthen, mret.
  destruct (sz =? 0); [by intros E; simplify_eq|].
  destruct (shm_open n (Flags true true) w) as [[d e] w1] eqn:Eo.
  destruct (Z.eqb_spec d (-1)) as [->|Hd]; cbn [negb].
  - apply shm_open_fail in Eo. destruct (e =? EEXIST); cbn [negb]; [|by intros E; simplify_eq].
    destruct (shm_open n (Flags false false) w1) as [[d2 e2] w2] eqn:Eo2.
    destruct (Z.eqb_spec d2 (-1)) as [->|Hd2].
    + intros E. simplify_eq. split_ands; try done.
      etransitivity; [exact Eo|]. apply (shm_open_fail _ _ _ _ _ Eo2).
    + intros E. destruct (shm_open_ok _ _ _ _ _ _ Eo2 Hd2) as (_ & _ & _ & _ & _ & _ & Hin).
      specialize (Hin eq_refl). apply shm_open_opened in Eo2; [|done].
      destruct Eo as (Hf & Hm & Hn).
      assert (opened n d2 w w2) as Ho.
      { destruct Eo2 as (? & ? & ? & ? & ?). unfold opened. by rewrite <- Hf, <- Hm, <- Hn. }
      rewrite Hn in Hin. eapply map_or_undo_spec in E; [|exact Ho|exact Hin].
      destruct ok; [|done]. rewrite bool_decide_eq_false_2 by (by intros []). done.
  - destruct (shm_open_ok _ _ _ _ _ _ Eo Hd) as (_ & _ & _ & _ & _ & Hnew & _).
    specialize (Hnew eq_refl eq_refl). apply shm_open_opened in Eo; [|done].
    destruct (ftruncate d (off_t sz) w1) as [t w2] eqn:Et.
    eapply opened_same in Eo; [|by apply (ftruncate_frame _ _ _ _ _ Et)].
    destruct (t =? -1).
    + destruct (close d w2) as [rc w3] eqn:Ec. destruct (shm_unlink n w3) as [ru w4] eqn:Eu.
      intros E. simplify_eq. split_ands; try done. by eapply opened_undo.
    + intros E. eapply map_or_undo_spec in E; [|exact Eo|exact Hnew].
      destruct ok; [|done]. by rewrite bool_decide_eq_true_2.
Qed.

Lemma open_spec n sz reg w ok reg' w' :
  open_shared_memory (Some n) sz (Some reg) w = ((ok, reg'), w') →
  if ok then ∃ r, reg' = Some r ∧ acquired n sz w w' r ∧ n ∈ names w
  else same_resources w w' ∧ reg' = Some reg.
Proof.
  unfold open_shared_memory, mthen, mret.
  destruct (sz =? 0); [by intros E; simplify_eq|].
  destruct (shm_open n (Flags false false) w) as [[d e] w1] eqn:Eo.
  destruct (Z.eqb_spec d (-1)) as [->|Hd].
  - intros E. simplify_eq. split; [|done]. apply (shm_open_fail _ _ _ _ _ Eo).
  - destruct (shm_open_ok _ _ _ _ _ _ Eo Hd) as (_ & _ & _ & _ & _ & _ & Hin).
    specialize (Hin eq_refl). apply shm_open_opened in Eo; [|done].
    destruct (mmap sz d w1) as [[a|] w2] eqn:Em.
    + intros E. simplify_eq. eexists. split_ands; [done|by eapply opened_mmap|done].
    + eapply opened_same in Eo; [|by apply (mmap_fail _ _ _ _ Em)].
      destruct (close d w2) as [rc w3] eqn:Ec. intros E. simplify_eq.
      split; [|done]. by eapply opened_close_existing.
Qed.

Lemma close_spec n sz w w' r reg' w'' :
  acquired n sz w w' r → 0 < sz →
  close_shared_memory (Some r) w' = (reg', w'') →
  reg' = Some no_region ∧ open_fds w'' = open_fds w ∧ mappings w'' = mappings w ∧
  names w'' = {[n]} ∪ names w.
Proof.
  intros (Hsz & H0 & Ha & Hnf & Hnm & Hf & Hm & Hn) Hpos.
  unfold close_shared_memory, mthen, mret. rewrite Hsz.
  destruct (Z.eqb_spec (addr r) 0); [lia|]. destruct (Z.ltb_spec 0 sz); [|lia]. cbn [negb andb].
  destruct (munmap (addr r) sz w') as [r1 w1] eqn:Eu.
  destruct (munmap_ok _ _ _ _ _ Eu) as (Hm1 & Hf1 & Hn1); [rewrite Hm; set_solver|].
  destruct (Z.leb_spec 0 (fd r)); [|lia].
  destruct (close (fd r) w1) as [r2 w2] eqn:Ec.
  destruct (close_ok _ _ _ _ Ec) as (Hf2 & Hm2 & Hn2); [rewrite Hf1, Hf; set_solver|].
  intros E. simplify_eq. rewrite Hf2, Hm2, Hn2, Hm1, Hf1, Hn1, Hf, Hm, Hn.
  split_ands; [done|set_solver|set_solver|done].
Qed.
End resources.

(** * Properties *)

(** C8: No leak and no litter.  On any kernel with the documented behaviour,
    whichever system calls fail, [create_or_open_shared_memory] either leaves
    the descriptors, mappings and names of the process as they were and its
    out-parameters untouched, or returns a region with one new descriptor and
    one new mapping of the requested size and says truthfully whether it
    created the object; [close_shared_memory] then gives both back and resets
    the region. *)
Theorem create_or_open_no_leak W (K : Kernel W) (L : KernelLaws W) n sz reg wc w ok reg' wc' w' :
  0 < sz →
  create_or_open_shared_memory (Some n) sz (Some reg) (Some wc) w = ((ok, reg', wc'), w') →
  if ok then
    ∃ r, reg' = Some r ∧ acquired n sz w w' r ∧ wc' = Some (bool_decide (n ∉ names w)) ∧
      ∃ w'', close_shared_memory reg' w' = (Some no_region, w'') ∧
        open_fds w'' = open_fds w ∧ mappings w'' = mappings w
  else same_resources w w' ∧ reg' = Some reg ∧ wc' = Some wc.
Proof.
  intros Hsz E. apply create_or_open_spec in E. destruct ok; [|done].
  destruct E as (r & -> & Hacq & ->). exists r. split_ands; try done.
  destruct (close_shared_memory (Some r) w') as [reg'' w''] eqn:Ec.
  destruct (close_spec _ _ _ _ _ _ _ Hacq Hsz Ec) as (-> & ? & ? & _). by exists w''.
Qed.

Lemma create_or_open_no_leak_witness :
  ∃ reg' wc' w', create_or_open_shared_memory (Some "/hw4_queue") get_queue_memory_size
      (Some no_region) (Some false) empty_sim = ((true, reg', wc'), w') ∧
    ∃ r, reg' = Some r ∧ acquired "/hw4_queue" get_queue_memory_size empty_sim w' r ∧
      wc' = Some true ∧
      ∃ w'', close_shared_memory reg' w' = (Some no_region, w'') ∧
        open_fds w'' = open_fds empty_sim ∧ mappings w'' = mappings empty_sim.
Proof.
  eexists _, _, _. split; [vm_compute; reflexivity|].
  apply (create_or_open_no_leak sim sim_kernel sim_laws "/hw4_queue" get_queue_memory_size
    no_region false empty_sim true); [reflexivity|vm_compute; reflexivity].
Defined.

(** The consumer's [open_shared_memory] never creates the object, and holds
    nothing back when it fails; what it acquires, [close_shared_memory] gives
    back, leaving the process as it was. *)
Theorem open_close_roundtrip W (K : Kernel W) (L : KernelLaws W) n sz reg w ok reg' w' :
  0 < sz →
  open_shared_memory (Some n) sz (Some reg) w = ((ok, reg'), w') →
  if ok then
    n ∈ names w ∧ ∃ r w'', reg' = Some r ∧ acquired n sz w w' r ∧
      close_shared_memory reg' w' = (Some no_region, w'') ∧ same_resources w w''
  else same_resources w w' ∧ reg' = Some reg.
Proof.
  intros Hsz E. apply open_spec in E. destruct ok; [|done].
  destruct E as (r & -> & Hacq & Hin). split; [done|].
  destruct (close_shared_memory (Some r) w') as [reg'' w''] eqn:Ec.
  destruct (close_spec _ _ _ _ _ _ _ Hacq Hsz Ec) as (-> & ? & ? & Hn).
  exists r, w''. split; [done|]. split; [done|]. split; [done|].
  unfold same_resources. split_ands; [done|done|]. rewrite Hn. set_solver.
Qed.

Lemma open_close_roundtrip_witness :
  ∃ reg' w', open_shared_memory (Some "/hw4_queue") get_queue_memory_size
      (Some no_region) empty_sim = ((false, reg'), w') ∧
    same_resources empty_sim w' ∧ reg' = Some no_region.
Proof.
  eexists _, _. split; [vm_compute; reflexivity|].
  apply (open_close_roundtrip sim sim_kernel sim_laws "/hw4_queue" get_queue_memory_size
    no_region empty_sim false); [reflexivity|vm_compute; reflexivity].
Defined.
