(* ===== verification/QueueBytes.v ===== *)
(** hw4/ipc_queue.h as bytes: how [SharedQueueLayout] lies in the shared memory.

    The processes share bytes, not values.  A codec says how many bytes a type takes,
    which values it has, and how the two correspond; codecs of the members are put
    together to those of the structures, and the laws go along.  The model of
    [IpcQueue] works on values; here any bytes of the right number are such a value
    and back, every operation stays within the values of the C++ types, and an
    assignment to a member changes only the bytes of that member. *)

From S2P Require Import Prelude Machine IpcQueue ShmUtils.
From stdpp Require Import options.

Local Open Scope Z_scope.

(** * Codecs *)

Record codec (A : Type) := Codec {
  size : nat; typed : A → Prop; encode : A → list byte; decode : list byte → A }.
Arguments Codec {A} _ _ _ _.
Arguments size {A} _.
Arguments typed {A} _ _.
Arguments encode {A} _ _.
Arguments decode {A} _ _.

(** The values of the type and the byte strings of its size are in bijection. *)
Class Lawful {A} (c : codec A) : Prop := {
  encode_size a : typed c a → length (encode c a) = size c;
  decode_encode a : typed c a → decode c (encode c a) = a;
  decode_typed bs : length bs = size c → typed c (decode c bs);
  encode_decode bs : length bs = size c → encode c (decode c bs) = bs }.

(** ** Unsigned integers, little endian *)

Definition byte_Z (b : byte) : Z := Z.of_N (Byte.to_N b).

Definition Z_byte (z : Z) : byte := default x00 (Byte.of_N (Z.to_N (z `mod` 256))).

Fixpoint le_bytes (n : nat) (z : Z) : list byte :=
  match n with
  | O => []
  | S n' => Z_byte z :: le_bytes n' (z `div` 256)
  end.

Fixpoint le_value (bs : list byte) : Z :=
  match bs with
  | [] => 0
  | b :: bs' => byte_Z b + 256 * le_value bs'
  end.

Definition uint (n : nat) : codec Z :=
  Codec n (λ z, 0 ≤ z < 256 ^ Z.of_nat n) (le_bytes n) le_value.

Lemma byte_Z_range b : 0 ≤ byte_Z b < 256.
Proof. unfold byte_Z. pose proof (Byte.to_N_bounded b). lia. Qed.

Lemma Z_byte_Z b : Z_byte (byte_Z b) = b.
Proof.
  unfold Z_byte. rewrite Z.mod_small by apply byte_Z_range.
  unfold byte_Z. by rewrite N2Z.id, Byte.of_to_N.
Qed.

Lemma byte_Z_byte z : byte_Z (Z_byte z) = z `mod` 256.
Proof.
  unfold Z_byte, byte_Z. pose proof (Z.mod_pos_bound z 256).
  destruct (Byte.of_N _) as [b|] eqn:E; cbn.
  - apply Byte.to_of_N in E. rewrite E. lia.
  - apply Byte.of_N_None_iff in E. lia.
Qed.

#[export] Instance uint_lawful n : Lawful (uint n).
Proof.
  constructor; cbn.
  - intros z _. revert z. induction n as [|n IH]; intros z; cbn; [done|by rewrite IH].
  - intros z Hz. revert z Hz. induction n as [|n IH]; intros z Hz; cbn; [change (256 ^ Z.of_nat 0) with 1 in Hz; lia|].
    rewrite Nat2Z.inj_succ, Z.pow_succ_r in Hz by lia.
    pose proof (Z.div_mod z 256). rewrite byte_Z_byte, IH; [lia|].
    split; [apply Z.div_pos; lia|]. apply Z.div_lt_upper_bound; lia.
  - intros bs <-. induction bs as [|b bs IH]; cbn; [lia|].
    rewrite Nat2Z.inj_succ, Z.pow_succ_r by lia. pose proof (byte_Z_range b). lia.
  - intros bs <-. induction bs as [|b bs IH]; cbn; [done|]. pose proof (byte_Z_range b).
    f_equal.
    + rewrite <- (Z_byte_Z b) at 2. unfold Z_byte.
      by rewrite (Z.mul_comm 256), Z.mod_add by lia.
    + replace ((byte_Z b + 256 * le_value bs) `div` 256) with (le_value bs); [done|].
      by rewrite (Z.mul_comm 256), Z.div_add, Z.div_small by lia.
Qed.

(** ** Characters, members one after the other, arrays *)

Definition chars (n : nat) : codec (list byte) := Codec n (λ bs, length bs = n) id id.

#[export] Instance chars_lawful n : Lawful (chars n).
Proof. by constructor. Qed.

Definition pair_codec {A B} (a : codec A) (b : codec B) : codec (A * B) :=
  Codec (size a + size b)
    (λ '(x, y), typed a x ∧ typed b y)
    (λ '(x, y), encode a x ++ encode b y)
    (λ bs, (decode a (take (size a) bs), decode b (drop (size a) bs))).

#[export] Instance pair_lawful {A B} (a : codec A) (b : codec B) :
  Lawful a → Lawful b → Lawful (pair_codec a b).
Proof.
  intros La Lb. constructor; cbn.
  - intros [x y] [Hx Hy]. by rewrite length_app, !encode_size.
  - intros [x y] [Hx Hy]. rewrite take_app_length', drop_app_length' by (by rewrite encode_size).
    by rewrite !decode_encode.
  - intros bs H. split; apply decode_typed; [rewrite length_take|rewrite length_drop]; lia.
  - intros bs H. rewrite !encode_decode by (rewrite ?length_take, ?length_drop; lia). apply take_drop.
Qed.

Definition array_codec {A} (n : nat) (a : codec A) : codec (list A) :=
  Codec (n * size a) (λ l, length l = n ∧ Forall (typed a) l)
    (λ l, concat (encode a <$> l))
    (λ bs, decode a <$> reshape (replicate n (size a)) bs).

Lemma array_encode_size {A} (a : codec A) `{!Lawful a} l :
  Forall (typed a) l → length (concat (encode a <$> l)) = (length l * size a)%nat.
Proof. induction 1 as [|x l Hx _ IH]; cbn; [done|]. by rewrite length_app, encode_size, IH. Qed.

#[export] Instance array_lawful {A} n (a : codec A) : Lawful a → Lawful (array_codec n a).
Proof.
  intros La. constructor; cbn.
  - intros l [<- HF]. by apply array_encode_size.
  - intros l [<- HF]. induction HF as [|x l Hx HF IH]; cbn; [done|].
    rewrite take_app_length', drop_app_length' by (by rewrite encode_size). by rewrite decode_encode, IH.
  - intros bs. revert bs. induction n as [|n IH]; intros bs H; cbn in *; [done|].
    destruct (IH (drop (size a) bs)) as [Hl HF]; [rewrite length_drop; lia|].
    split; [by rewrite Hl|]. constructor; [|done]. apply decode_typed. rewrite length_take. lia.
  - intros bs. revert bs. induction n as [|n IH]; intros bs H; cbn in *; [by destruct bs|].
    rewrite encode_decode by (rewrite length_take; lia). rewrite IH by (rewrite length_drop; lia). apply take_drop.
Qed.

(** A structure is the tuple of its members. *)
Definition struct_codec {A B} (members : A → B) (build : B → A) (b : codec B) : codec A :=
  Codec (size b) (λ x, typed b (members x)) (λ x, encode b (members x)) (λ bs, build (decode b bs)).

Lemma struct_lawful {A B} (members : A → B) (build : B → A) (b : codec B) :
  (∀ x, build (members x) = x) → (∀ y, members (build y) = y) → Lawful b → Lawful (struct_codec members build b).
Proof.
  intros H1 H2 Lb. constructor; cbn.
  - intros x Hx. by apply encode_size.
  - intros x Hx. by rewrite decode_encode.
  - intros bs H. rewrite H2. by apply decode_typed.
  - intros bs H. rewrite H2. by apply encode_decode.
Qed.

#[local] Arguments replicate : simpl never.

(** * The structures of hw4/ipc_queue.h *)

Definition u32 : codec Z := uint 4.

Definition u64 : codec Z := uint 8.

Definition MessageHeader_bytes : codec MessageHeader :=
  struct_codec (λ h, (hdr_type h, hdr_length h)) (λ '(t, n), Header t n) (pair_codec u32 u32).

Definition QueueMeta_bytes : codec QueueMeta :=
  struct_codec (λ m, (magic m, (version m, (capacity m, max_payload_size m))))
    (λ '(a, (b, (c, d))), Meta a b c d)
    (pair_codec u32 (pair_codec u32 (pair_codec u32 u32))).

Definition MessageSlot_bytes : codec MessageSlot :=
  struct_codec (λ s, (state s, (header s, payload s))) (λ '(st, (h, p)), Slot st h p)
    (pair_codec u32 (pair_codec MessageHeader_bytes (chars 256))).

Definition SharedQueueLayout_bytes : codec SharedQueueLayout :=
  struct_codec (λ q, (meta q, (write_index q, (read_index q, slots q))))
    (λ '(m, (w, (r, ss))), Layout m w r ss)
    (pair_codec QueueMeta_bytes (pair_codec u64 (pair_codec u64 (array_codec 16 MessageSlot_bytes)))).

#[export] Instance header_lawful : Lawful MessageHeader_bytes.
Proof. apply struct_lawful; [by intros []|by intros []|apply _]. Qed.

#[export] Instance meta_lawful : Lawful QueueMeta_bytes.
Proof. apply struct_lawful; [by intros []|by intros [? [? []]]|apply _]. Qed.

#[export] Instance slot_lawful : Lawful MessageSlot_bytes.
Proof. apply struct_lawful; [by intros []|by intros [? []]|apply _]. Qed.

#[export] Instance queue_lawful : Lawful SharedQueueLayout_bytes.
Proof. apply struct_lawful; [by intros []|by intros [? [? []]]|apply _]. Qed.

(** ** Memory of the right size is a queue *)

Notation queue_typed := (typed SharedQueueLayout_bytes).

Lemma typed_raw q : queue_typed q → raw_layout q.
Proof.
  destruct q as [m w r ss]. intros (_ & _ & _ & Hl & HF). split; [done|]. eapply Forall_impl; [|exact HF].
  by intros [st h p] (_ & _ & Hp).
Qed.

(** * The operations keep the types *)

Lemma state_typed st : typed u32 (state_u32 st).
Proof. by destruct st. Qed.

Lemma type_typed t : typed u32 (type_u32 t).
Proof. by destruct t. Qed.

Lemma u32_wrap_typed z : typed u32 (u32_wrap z).
Proof. apply Z.mod_pos_bound. done. Qed.

Lemma u64_wrap_typed z : typed u64 (u64_wrap z).
Proof. apply Z.mod_pos_bound. done. Qed.

#[local] Hint Resolve state_typed type_typed u32_wrap_typed u64_wrap_typed : core.

Lemma slot_typed_parts s :
  typed MessageSlot_bytes s ↔
  typed u32 (state s) ∧ typed u32 (hdr_type (header s)) ∧ typed u32 (hdr_length (header s)) ∧
  length (payload s) = 256%nat.
Proof. destruct s as [st [t n] p]. cbn. tauto. Qed.

#[local] Arguments typed : simpl never.
#[local] Arguments encode : simpl never.
#[local] Arguments decode : simpl never.

Lemma queue_slot_typed q i s : queue_typed q → slots q !! i = Some s → typed MessageSlot_bytes s.
Proof. intros (_ & _ & _ & _ & HF) Hs. exact (proj1 (Forall_lookup _ _) HF _ _ Hs). Qed.

Lemma set_slot_typed q i s : queue_typed q → typed MessageSlot_bytes s → queue_typed (set_slot i s q).
Proof.
  intros (Hm & Hw & Hr & Hl & HF) Hs. refine (conj Hm (conj Hw (conj Hr (conj _ _)))).
  - etrans; [apply length_insert|exact Hl].
  - by apply Forall_insert.
Qed.

Lemma set_write_typed q w : queue_typed q → typed u64 w → queue_typed (set_write_index w q).
Proof. by intros (Hm & Hw & Hr & Hs). Qed.

Lemma set_read_typed q r : queue_typed q → typed u64 r → queue_typed (set_read_index r q).
Proof. by intros (Hm & Hw & Hr & Hs). Qed.

Lemma memcpy_typed dst src n r : memcpy dst src n = Some r → length dst = 256%nat → length r = 256%nat.
Proof. intros H <-. by eapply memcpy_length. Qed.

(** What a push leaves: the queue as it was, with the next index taken, or with a
    slot filled as well. *)
Lemma push_shape q ty data n b q' :
  queue_typed q → try_push_message (Some q) ty data n = Some (b, Some q') →
  q' = q ∨ let q1 := set_write_index (u64_wrap (write_index q + 1)) q in
    q' = q1 ∨ ∃ s, typed MessageSlot_bytes s ∧ q' = set_slot (get_slot (write_index q)) s q1.
Proof.
  intros Hq Hp. unfold try_push_message in Hp. destruct data as [src|]; [|simplify_eq; by left].
  destruct (n >? MAX_PAYLOAD_SIZE); [simplify_eq; by left|]. right.
  set (q1 := set_write_index (u64_wrap (write_index q + 1)) q) in *. cbv zeta.
  assert (queue_typed q1) as Hq1 by (apply set_write_typed; auto).
  destruct (slots q1 !! get_slot (write_index q)) as [s|] eqn:Es; cbn in Hp; [|done].
  pose proof (queue_slot_typed _ _ _ Hq1 Es) as (_ & _ & _ & Hl)%slot_typed_parts.
  clearbody q1. destruct (state s =? _); cbn in Hp; [|simplify_eq; by left].
  match type of Hp with (?m ≫= _) = _ => destruct m as [p|] eqn:Ep end; cbn in Hp; [|done]. simplify_eq.
  right. eexists. split; [|done]. apply slot_typed_parts.
  refine (conj (state_typed READY) (conj (type_typed ty) (conj (u32_wrap_typed n) _))).
  revert Ep. destruct (n >? 0); intros Ep; [by eapply memcpy_typed|by simplify_eq].
Qed.

Lemma push_typed q ty data n b q' :
  queue_typed q → try_push_message (Some q) ty data n = Some (b, Some q') → queue_typed q'.
Proof.
  intros Hq Hp. assert (queue_typed (set_write_index (u64_wrap (write_index q + 1)) q)) by (apply set_write_typed; auto).
  destruct (push_shape _ _ _ _ _ _ Hq Hp) as [->|[->|(s & Hs & ->)]]; [done|done|by apply set_slot_typed].
Qed.

(** What a pop leaves: the queue as it was, or with the slot emptied and the index
    moved on. *)
Lemma pop_shape q ty obuf n ooh r q' :
  queue_typed q → (∀ oh, ooh = Some oh → typed MessageHeader_bytes oh) →
  try_pop_message (Some q) ty obuf n ooh = Some r → pop_queue r = Some q' →
  (q' = q ∨ ∃ s, typed MessageSlot_bytes s ∧
     q' = set_read_index (u64_wrap (read_index q + 1)) (set_slot (get_slot (read_index q)) s q)) ∧
  (∀ oh', pop_header r = Some oh' → typed MessageHeader_bytes oh').
Proof.
  intros Hq Ho Hp Hr. unfold try_pop_message in Hp.
  destruct obuf as [buf|]; [|simplify_eq/=; eauto]. destruct ooh as [oh|]; [|simplify_eq/=; eauto].
  destruct (slots q !! get_slot (read_index q)) as [s|] eqn:Es; cbn in Hp; [|done].
  pose proof (queue_slot_typed _ _ _ Hq Es) as (Hst & Ht & Hn & Hl)%slot_typed_parts.
  destruct (state s =? _); cbn in Hp; [|simplify_eq/=; eauto].
  destruct (hdr_length (header s) >? MAX_PAYLOAD_SIZE); [simplify_eq/=; eauto|].
  destruct (hdr_length (header s) >? n); [simplify_eq/=; eauto|].
  match type of Hp with (?m ≫= _) = _ => destruct m as [buf'|] eqn:Eb end; cbn in Hp; [|done].
  match type of Hp with (?m ≫= _) = _ => destruct m as [p|] eqn:Ep end; cbn in Hp; [|done].
  simplify_eq/=. rewrite memset_all in Ep by done. simplify_eq. split.
  - right. eexists. split; [|done]. apply slot_typed_parts.
    by refine (conj (state_typed EMPTY) (conj (type_typed UNKNOWN) (conj _ _))).
  - intros h [= <-]. destruct (_ =? _); [by destruct (header s)|by apply Ho].
Qed.

Lemma pop_typed q ty obuf n ooh r q' :
  queue_typed q → (∀ oh, ooh = Some oh → typed MessageHeader_bytes oh) →
  try_pop_message (Some q) ty obuf n ooh = Some r → pop_queue r = Some q' →
  queue_typed q' ∧ (∀ oh', pop_header r = Some oh' → typed MessageHeader_bytes oh').
Proof.
  intros Hq Ho Hp Hr. destruct (pop_shape _ _ _ _ _ _ _ Hq Ho Hp Hr) as [[->|(s & Hs & ->)] Hh]; [done|].
  split; [|done]. apply set_read_typed; [|auto]. by apply set_slot_typed.
Qed.

(** * Calls on bytes *)

(** A sequence of calls of a process that has mapped the bytes [bs]. *)
Definition run_mapped (ops : list op) (bs : list byte) : option (list answer * list byte) :=
  '(l, q) ← run_ops ops (decode SharedQueueLayout_bytes bs);
  Some (l, encode SharedQueueLayout_bytes q).

Definition init_mapped (bs : list byte) : option (list byte) :=
  encode SharedQueueLayout_bytes <$> init_queue (decode SharedQueueLayout_bytes bs).

(** Headers that calls get and give are pairs of [uint32_t]. *)
Definition op_typed (o : op) : Prop :=
  match o with OpPush _ _ => True | OpPop _ _ oh => typed MessageHeader_bytes oh end.

Definition answer_typed (o : op) (a : answer) : Prop :=
  match o, a with
  | OpPush _ _, APush _ => True
  | OpPop _ buf _, APop _ buf' oh' => length buf' = length buf ∧ typed MessageHeader_bytes oh'
  | _, _ => False
  end.

Lemma run_op_typed o q :
  queue_typed q → op_typed o → ∃ a q', run_op o q = Some (a, q') ∧ queue_typed q' ∧ answer_typed o a.
Proof.
  intros Hq Ho. pose proof (typed_raw _ Hq) as Hraw. destruct o as [ty d|ty buf oh]; unfold run_op.
  - destruct (push_raw q ty d (Z.of_nat (length d)) Hraw ltac:(lia)) as (b & q' & E & _).
    rewrite E. cbn. eexists _, _. split; [done|]. split; [|done]. by eapply push_typed.
  - destruct (pop_raw q ty buf (Z.of_nat (length buf)) oh Hraw ltac:(lia)) as (b & q' & buf' & oh' & E & _ & Hl).
    rewrite E. cbn. eexists _, _. split; [done|].
    assert (∀ h, Some oh = Some h → typed MessageHeader_bytes h) as Hoh by (intros h [= <-]; exact Ho).
    destruct (pop_typed _ _ _ _ _ _ q' Hq Hoh E eq_refl) as [Hq' Hh].
    split; [done|]. split; [done|]. by apply Hh.
Qed.

Lemma run_ops_typed ops q :
  queue_typed q → Forall op_typed ops →
  ∃ l q', run_ops ops q = Some (l, q') ∧ queue_typed q' ∧ Forall2 answer_typed ops l.
Proof.
  intros Hq HF. revert q Hq. induction HF as [|o ops Ho _ IH]; intros q Hq; [by eexists _, _|].
  cbn [run_ops]. destruct (run_op_typed o q Hq Ho) as (a & q1 & -> & Hq1 & Ha). cbn [mbind option_bind].
  destruct (IH q1 Hq1) as (l & q2 & -> & Hq2 & Hl). eexists _, _. split; [done|]. split; [done|].
  by constructor.
Qed.

Lemma init_typed q : raw_layout q → ∃ q', init_queue q = Some q' ∧ queue_typed q' ∧ is_queue_valid q' = true.
Proof.
  intros H. eexists. split; [by apply init_queue_runs|]. split; [|done].
  repeat (split; [done|]). apply Forall_replicate, slot_typed_parts. by repeat split.
Qed.

(** ** Where the members are *)

Notation queue_bytes := (encode SharedQueueLayout_bytes).

Definition slot_at (i : nat) : nat := 32 + 268 * i.

Lemma queue_bytes_parts q :
  queue_bytes q = encode QueueMeta_bytes (meta q) ++ le_bytes 8 (write_index q) ++
    le_bytes 8 (read_index q) ++ concat (encode MessageSlot_bytes <$> slots q).
Proof. by destruct q. Qed.

Lemma le_bytes_length n z : length (le_bytes n z) = n.
Proof. revert z. induction n as [|n IH]; intros z; cbn; [done|]. by rewrite IH. Qed.

(** Replacing a part that lies behind [n] bytes. *)
Lemma splice {A} (a x y b : list A) n :
  length a = n → length x = length y →
  a ++ y ++ b = take n (a ++ x ++ b) ++ y ++ drop (n + length y) (a ++ x ++ b).
Proof.
  intros <- Hxy. rewrite take_app_length, (app_assoc a x b). f_equal. f_equal.
  rewrite drop_app_length'; [done|]. rewrite length_app. lia.
Qed.

Lemma array_encode_insert {A} (c : codec A) `{!Lawful c} l i x :
  Forall (typed c) l → typed c x → (i < length l)%nat →
  concat (encode c <$> <[i:=x]> l) =
    take (size c * i) (concat (encode c <$> l)) ++ encode c x ++
    drop (size c * i + size c) (concat (encode c <$> l)).
Proof.
  intros HF Hx Hi. destruct (lookup_lt_is_Some_2 l i Hi) as [y Hy].
  rewrite <- (take_drop_middle l i y Hy) at 2 3. rewrite insert_take_drop by done.
  rewrite !fmap_app, !fmap_cons, !concat_app. cbn [concat].
  assert (Forall (typed c) (take i l)) as HT by (by apply Forall_take).
  pose proof (proj1 (Forall_lookup _ _) HF _ _ Hy) as Hty.
  rewrite (splice _ (encode c y) (encode c x)) with (n := (size c * i)%nat).
  - by rewrite encode_size.
  - rewrite array_encode_size by done. rewrite length_take, Nat.min_l by lia. lia.
  - by rewrite !encode_size.
Qed.

(** *** [offsetof] *)

(** The offsets of the members, each the next one its alignment allows. *)
Definition offsets (members : list ctype) : list Z :=
  (foldl (λ '(os, off) t, let o := align_up off t.2 in (os ++ [o], o + t.1)) ([], 0) members).1.

Definition offsetof (members : list ctype) (i : nat) : nat := Z.to_nat (default 0 (offsets members !! i)).

Definition bytes_at (off n : nat) (bs : list byte) : list byte := take n (drop off bs).

(** The bytes at the offset of each member are those of its value. *)
Definition header_stored (h : MessageHeader) (base : nat) (bs : list byte) : Prop :=
  let at_ i := (base + offsetof MessageHeader_members i)%nat in
  bytes_at (at_ 0%nat) 4 bs = le_bytes 4 (hdr_type h) ∧ bytes_at (at_ 1%nat) 4 bs = le_bytes 4 (hdr_length h).

Definition meta_stored (m : QueueMeta) (base : nat) (bs : list byte) : Prop :=
  let at_ i := (base + offsetof QueueMeta_members i)%nat in
  bytes_at (at_ 0%nat) 4 bs = le_bytes 4 (magic m) ∧ bytes_at (at_ 1%nat) 4 bs = le_bytes 4 (version m) ∧
  bytes_at (at_ 2%nat) 4 bs = le_bytes 4 (capacity m) ∧ bytes_at (at_ 3%nat) 4 bs = le_bytes 4 (max_payload_size m).

Definition slot_stored (s : MessageSlot) (base : nat) (bs : list byte) : Prop :=
  let at_ i := (base + offsetof MessageSlot_members i)%nat in
  bytes_at (at_ 0%nat) 4 bs = le_bytes 4 (state s) ∧ header_stored (header s) (at_ 1%nat) bs ∧
  bytes_at (at_ 2%nat) 256 bs = payload s.

Definition queue_stored (q : SharedQueueLayout) (bs : list byte) : Prop :=
  let at_ i := offsetof SharedQueueLayout_members i in
  meta_stored (meta q) (at_ 0%nat) bs ∧
  bytes_at (at_ 1%nat) 8 bs = le_bytes 8 (write_index q) ∧ bytes_at (at_ 2%nat) 8 bs = le_bytes 8 (read_index q) ∧
  ∀ i s, slots q !! i = Some s → slot_stored s (at_ 3%nat + Z.to_nat sizeof_MessageSlot.1 * i) bs.

Lemma bytes_at_skip off n a b :
  (length a ≤ off)%nat → bytes_at off n (a ++ b) = bytes_at (off - length a) n b.
Proof. intros H. unfold bytes_at. by rewrite drop_app_ge. Qed.

Lemma bytes_at_here n a b : length a = n → bytes_at 0 n (a ++ b) = a.
Proof. intros <-. unfold bytes_at. by rewrite drop_0, take_app_length. Qed.

Lemma bytes_at_all n a : length a = n → bytes_at 0 n a = a.
Proof. intros H. unfold bytes_at. rewrite drop_0. apply take_ge. lia. Qed.

(** Compute the offsets. *)
Ltac offs :=
  repeat match goal with
  | |- context [offsetof ?m ?i] => let v := eval vm_compute in (offsetof m i) in change (offsetof m i) with v
  end; cbn [Nat.add].

(** Skip the members before the one that is asked for. *)
Ltac member :=
  offs; repeat (rewrite bytes_at_skip by (rewrite ?le_bytes_length; cbn; lia));
  rewrite ?le_bytes_length; first [apply bytes_at_here|apply bytes_at_all]; by rewrite ?le_bytes_length.

Lemma slot_is_stored s rest : typed MessageSlot_bytes s → slot_stored s 0 (encode MessageSlot_bytes s ++ rest).
Proof.
  intros (_ & _ & _ & Hp)%slot_typed_parts.
  assert (encode MessageSlot_bytes s ++ rest = le_bytes 4 (state s) ++ le_bytes 4 (hdr_type (header s)) ++
    le_bytes 4 (hdr_length (header s)) ++ payload s ++ rest) as ->.
  { destruct s as [st [t n] p]. unfold encode. cbn. by rewrite <- ?app_assoc. }
  refine (conj _ (conj (conj _ _) _)); member.
Qed.

Lemma stored_shift s base a bs : slot_stored s base bs → slot_stored s (length a + base) (a ++ bs).
Proof.
  unfold slot_stored, header_stored. cbn zeta. intros (H1 & (H2 & H3) & H4).
  repeat split; (rewrite bytes_at_skip by lia; etrans; [|eassumption]; f_equal; lia).
Qed.

Lemma array_lookup_bytes {A} (c : codec A) `{!Lawful c} l i x :
  Forall (typed c) l → l !! i = Some x →
  ∃ a b, concat (encode c <$> l) = a ++ encode c x ++ b ∧ length a = (size c * i)%nat.
Proof.
  intros HF Hx. exists (concat (encode c <$> take i l)), (concat (encode c <$> drop (S i) l)).
  rewrite <- (take_drop_middle l i x Hx) at 1. rewrite fmap_app, fmap_cons, concat_app. split; [done|].
  assert (Forall (typed c) (take i l)) as HT by (by apply Forall_take).
  rewrite array_encode_size by done. apply lookup_lt_Some in Hx.
  rewrite length_take, Nat.min_l by lia. lia.
Qed.

Lemma queue_is_stored q : queue_typed q → queue_stored q (queue_bytes q).
Proof.
  intros (Hm & _ & _ & Hl & HF). rewrite queue_bytes_parts.
  assert (encode QueueMeta_bytes (meta q) = le_bytes 4 (magic (meta q)) ++ le_bytes 4 (version (meta q)) ++
    le_bytes 4 (capacity (meta q)) ++ le_bytes 4 (max_payload_size (meta q))) as -> by (by destruct q as [[]]).
  rewrite <- !app_assoc. refine (conj _ (conj _ (conj _ _))).
  - refine (conj _ (conj _ (conj _ _))); member.
  - member.
  - member.
  - intros i s Hs. destruct (array_lookup_bytes MessageSlot_bytes _ _ _ HF Hs) as (a & b & -> & Ha).
    pose proof (proj1 (Forall_lookup _ _) HF _ _ Hs) as Hts.
    pose proof (stored_shift s 0 (le_bytes 4 (magic (meta q)) ++ le_bytes 4 (version (meta q)) ++
      le_bytes 4 (capacity (meta q)) ++ le_bytes 4 (max_payload_size (meta q)) ++ le_bytes 8 (write_index q) ++
      le_bytes 8 (read_index q) ++ a) _ (slot_is_stored s b Hts)) as H.
    rewrite <- !app_assoc in H. rewrite !length_app, !le_bytes_length, Ha in H.
    change (size MessageSlot_bytes) with 268%nat in H. change (Z.to_nat sizeof_MessageSlot.1) with 268%nat.
    change (offsetof SharedQueueLayout_members 3) with 32%nat.
    refine (eq_ind _ (λ o, slot_stored s o _) H _ _). lia.
Qed.

(** ** Footprints *)

(** The bytes are the same but for those from [lo] up to [hi]. *)
Definition same_but (lo hi : nat) (bs bs' : list byte) : Prop :=
  length bs' = length bs ∧ ∀ k, (k < lo ∨ hi ≤ k)%nat → bs' !! k = bs !! k.

Lemma splice_same n y bs :
  (n + length y ≤ length bs)%nat → same_but n (n + length y) bs (take n bs ++ y ++ drop (n + length y) bs).
Proof.
  intros H. split; [rewrite !length_app, length_take, length_drop; lia|].
  intros k [Hk|Hk].
  - rewrite lookup_app_l by (rewrite length_take; lia). by apply lookup_take_lt.
  - rewrite lookup_app_r by (rewrite length_take; lia). rewrite length_take, Nat.min_l by lia.
    rewrite lookup_app_r by lia. rewrite lookup_drop. f_equal. lia.
Qed.

Lemma same_but_middle a x y b lo :
  length a = lo → length y = length x → same_but lo (lo + length x) (a ++ x ++ b) (a ++ y ++ b).
Proof.
  intros Ha Hxy. rewrite (splice a x y b lo) by done. rewrite <- Hxy. apply splice_same.
  rewrite !length_app. lia.
Qed.

Lemma meta_length m : typed QueueMeta_bytes m → length (encode QueueMeta_bytes m) = 16%nat.
Proof. exact (encode_size (c := QueueMeta_bytes) m). Qed.

Lemma write_footprint q w : queue_typed q → same_but 16 24 (queue_bytes q) (queue_bytes (set_write_index w q)).
Proof.
  intros (Hm & _). rewrite !queue_bytes_parts. cbn [meta write_index read_index slots set_write_index].
  apply (same_but_middle _ (le_bytes 8 (write_index q))); [by apply meta_length|by rewrite !le_bytes_length].
Qed.

Lemma read_footprint q r : queue_typed q → same_but 24 32 (queue_bytes q) (queue_bytes (set_read_index r q)).
Proof.
  intros (Hm & _). rewrite !queue_bytes_parts. cbn [meta write_index read_index slots set_read_index].
  rewrite !(app_assoc (encode QueueMeta_bytes (meta q))).
  apply (same_but_middle _ (le_bytes 8 (read_index q))); [|by rewrite !le_bytes_length].
  by rewrite length_app, meta_length, le_bytes_length.
Qed.

Lemma same_but_app a bs bs' lo hi :
  same_but lo hi bs bs' → same_but (length a + lo) (length a + hi) (a ++ bs) (a ++ bs').
Proof.
  intros [Hl H]. split; [by rewrite !length_app, Hl|]. intros k Hk. destruct (decide (k < length a)%nat).
  - by rewrite !lookup_app_l.
  - rewrite !lookup_app_r by lia. apply H. lia.
Qed.

Lemma slot_footprint q i s :
  queue_typed q → typed MessageSlot_bytes s → (i < 16)%nat →
  same_but (slot_at i) (slot_at i + 268) (queue_bytes q) (queue_bytes (set_slot i s q)).
Proof.
  intros (Hm & _ & _ & Hl & HF) Hs Hi. rewrite !queue_bytes_parts. cbn [meta write_index read_index slots set_slot].
  rewrite !(app_assoc (le_bytes 8 (write_index q))), !(app_assoc (encode QueueMeta_bytes (meta q))).
  set (a := encode QueueMeta_bytes (meta q) ++ le_bytes 8 (write_index q) ++ le_bytes 8 (read_index q)).
  assert (length a = 32%nat) as Ha.
  { unfold a. by rewrite !length_app, meta_length, !le_bytes_length. }
  replace (slot_at i) with (length a + 268 * i)%nat by (unfold slot_at; lia).
  rewrite <- Nat.add_assoc. apply same_but_app. cbn in Hl.
  rewrite (array_encode_insert MessageSlot_bytes) by (done || lia). change (size MessageSlot_bytes) with 268%nat.
  pose proof (encode_size (c := MessageSlot_bytes) s Hs) as Hes. change (size MessageSlot_bytes) with 268%nat in Hes.
  pose proof (splice_same (268 * i) (encode MessageSlot_bytes s) (concat (encode MessageSlot_bytes <$> slots q))) as H.
  rewrite Hes in H. apply H. rewrite (array_encode_size MessageSlot_bytes _ HF).
  change (size MessageSlot_bytes) with 268%nat. lia.
Qed.

Lemma same_but_trans lo hi lo' hi' bs bs' bs'' :
  same_but lo hi bs bs' → same_but lo' hi' bs' bs'' →
  length bs'' = length bs ∧
  ∀ k, (k < lo ∨ hi ≤ k)%nat → (k < lo' ∨ hi' ≤ k)%nat → bs'' !! k = bs !! k.
Proof. intros [L1 H1] [L2 H2]. split; [congruence|]. intros k Hk Hk'. by rewrite H2, H1. Qed.

(** * Properties *)

(** C9: [SharedQueueLayout] in memory.  The structure takes exactly the 4320 bytes
    that [get_queue_memory_size] asks for; every value of the C++ types is stored in
    that many bytes, each member of the queue, of its description and of every slot at
    the offset that the rules of the ABI give it, least significant byte first, and is
    read back as it was; any bytes at all of that number are such a value, of the shape
    the operations need, and storing it gives the same bytes; and the atomic members
    lie at multiples of their size in a page-aligned mapping. *)
Theorem queue_bytes_roundtrip :
  (∀ q, queue_typed q →
     length (queue_bytes q) = Z.to_nat get_queue_memory_size ∧ queue_stored q (queue_bytes q) ∧
     decode SharedQueueLayout_bytes (queue_bytes q) = q) ∧
  (∀ bs, length bs = Z.to_nat get_queue_memory_size →
     let q := decode SharedQueueLayout_bytes bs in
     queue_typed q ∧ raw_layout q ∧ queue_stored q bs ∧ queue_bytes q = bs) ∧
  (∀ base i, (4096 | base)%nat →
     let at_ j := (base + offsetof SharedQueueLayout_members j)%nat in
     (8 | at_ 1%nat)%nat ∧ (8 | at_ 2%nat)%nat ∧
     (4 | at_ 3%nat + Z.to_nat sizeof_MessageSlot.1 * i + offsetof MessageSlot_members 0)%nat).
Proof.
  change (Z.to_nat get_queue_memory_size) with (size SharedQueueLayout_bytes). split_ands.
  - intros q Hq. refine (conj _ (conj _ _)); [by apply encode_size|by apply queue_is_stored|by apply decode_encode].
  - intros bs Hbs q. pose proof (decode_typed (c := SharedQueueLayout_bytes) bs Hbs) as Hq.
    pose proof (encode_decode (c := SharedQueueLayout_bytes) bs Hbs) as He.
    pose proof (queue_is_stored _ Hq) as Hst. rewrite He in Hst.
    refine (conj Hq (conj (typed_raw _ Hq) (conj Hst He))).
  - intros base i [k ->]. cbn beta zeta. change (Z.to_nat sizeof_MessageSlot.1) with 268%nat.
    offs. split_ands.
    + exists (512 * k + 2)%nat. lia.
    + exists (512 * k + 3)%nat. lia.
    + exists (1024 * k + 8 + 67 * i)%nat. lia.
Qed.

Lemma queue_bytes_roundtrip_witness :
  length (queue_bytes zero_memory) = 4320%nat ∧ decode SharedQueueLayout_bytes (queue_bytes zero_memory) = zero_memory ∧
  is_queue_valid (decode SharedQueueLayout_bytes (replicate 4320 x00)) = false.
Proof.
  assert (queue_typed zero_memory) as Hz.
  { repeat (split; [done|]). apply Forall_replicate, slot_typed_parts. by repeat split. }
  destruct (proj1 queue_bytes_roundtrip zero_memory Hz) as (H1 & _ & H2).
  split; [exact H1|]. split; [exact H2|]. vm_compute. reflexivity.
Defined.

(** C10: The operations keep the C++ types.  On any mapped memory, whatever it
    contains, [init_queue] gives a valid queue, and any sequence of pushes and pops
    returns; every member they leave is within the values of its type, the indices
    after their wrap-around too, so that storing the queue loses nothing and the next
    process reads what was left; buffers keep their length and the headers that pops
    give are pairs of [uint32_t]. *)
Theorem mapped_calls_typed bs ops :
  length bs = Z.to_nat get_queue_memory_size → Forall op_typed ops →
  (∃ q, init_queue (decode SharedQueueLayout_bytes bs) = Some q ∧ queue_typed q ∧ is_queue_valid q = true ∧
     init_mapped bs = Some (queue_bytes q) ∧ decode SharedQueueLayout_bytes (queue_bytes q) = q) ∧
  (∃ l q, run_ops ops (decode SharedQueueLayout_bytes bs) = Some (l, q) ∧ queue_typed q ∧ Forall2 answer_typed ops l ∧
     run_mapped ops bs = Some (l, queue_bytes q) ∧ decode SharedQueueLayout_bytes (queue_bytes q) = q).
Proof.
  intros Hbs HF. change (Z.to_nat get_queue_memory_size) with (size SharedQueueLayout_bytes) in *.
  pose proof (decode_typed (c := SharedQueueLayout_bytes) bs Hbs) as Hq. split.
  - destruct (init_typed _ (typed_raw _ Hq)) as (q & E & Ht & Hv). exists q.
    unfold init_mapped. rewrite E. refine (conj _ (conj Ht (conj Hv (conj _ _)))); [done|done|by apply decode_encode].
  - destruct (run_ops_typed ops _ Hq HF) as (l & q & E & Ht & Hl). exists l, q.
    unfold run_mapped. rewrite E. refine (conj _ (conj Ht (conj Hl (conj _ _)))); [done|done|by apply decode_encode].
Qed.

(** The conversation of [demo_ops], on memory full of ones. *)
Lemma mapped_calls_typed_witness :
  ∃ l q, run_ops demo_ops (decode SharedQueueLayout_bytes (replicate 4320 xff)) = Some (l, q) ∧ queue_typed q ∧
    Forall2 answer_typed demo_ops l ∧
    run_mapped demo_ops (replicate 4320 xff) = Some (l, queue_bytes q) ∧ decode SharedQueueLayout_bytes (queue_bytes q) = q.
Proof.
  refine (proj2 (mapped_calls_typed (replicate 4320 xff) demo_ops _ _)); [vm_compute; reflexivity|].
  repeat constructor; try done.
Defined.

(** C11: What the operations touch.  A push changes no byte but those of
    [write_index] and of the one slot the index stands for; a pop no byte but those
    of [read_index] and of its slot; in particular neither touches the description
    of the queue, the index of the other side or any other slot. *)
Theorem call_footprints q ty :
  queue_typed q →
  (∀ data n b q', try_push_message (Some q) ty data n = Some (b, Some q') →
     length (queue_bytes q') = length (queue_bytes q) ∧
     let s := slot_at (get_slot (write_index q)) in
     ∀ k, (k < 16 ∨ 24 ≤ k)%nat → (k < s ∨ s + 268 ≤ k)%nat → queue_bytes q' !! k = queue_bytes q !! k) ∧
  (∀ buf n oh r q', typed MessageHeader_bytes oh →
     try_pop_message (Some q) ty buf n (Some oh) = Some r → pop_queue r = Some q' →
     length (queue_bytes q') = length (queue_bytes q) ∧
     let s := slot_at (get_slot (read_index q)) in
     ∀ k, (k < 24 ∨ 32 ≤ k)%nat → (k < s ∨ s + 268 ≤ k)%nat → queue_bytes q' !! k = queue_bytes q !! k).
Proof.
  intros Hq. split.
  - intros data n b q' Hp.
    assert (queue_typed (set_write_index (u64_wrap (write_index q + 1)) q)) as Hq1 by (apply set_write_typed; auto).
    destruct (push_shape _ _ _ _ _ _ Hq Hp) as [->|[->|(s & Hs & ->)]]; [done| |].
    + destruct (write_footprint q (u64_wrap (write_index q + 1)) Hq) as [Hl H]. split; [done|]. auto.
    + eapply same_but_trans; [by apply write_footprint|]. apply slot_footprint; auto with cxx.
  - intros buf n oh r q' Ho Hp Hr.
    assert (∀ h, Some oh = Some h → typed MessageHeader_bytes h) as Hoh by (intros h [= <-]; exact Ho).
    destruct (pop_shape _ _ _ _ _ _ _ Hq Hoh Hp Hr) as [[->|(s & Hs & ->)] _]; [done|].
    assert (queue_typed (set_slot (get_slot (read_index q)) s q)) as Hq1 by (by apply set_slot_typed).
    destruct (same_but_trans _ _ _ _ _ _ _ (slot_footprint q (get_slot (read_index q)) s Hq Hs (get_slot_bound _))
      (read_footprint _ (u64_wrap (read_index q + 1)) Hq1)) as [Hl H]. split; [done|]. auto.
Qed.

Lemma call_footprints_witness :
  ∃ b q', try_push_message (Some zero_memory) TEXT (Some [x68; x69; x00]) 3 = Some (b, Some q') ∧ b = true ∧
    length (queue_bytes q') = length (queue_bytes zero_memory) ∧
    ∀ k, (k < 16 ∨ 24 ≤ k)%nat → (k < 32 ∨ 300 ≤ k)%nat → queue_bytes q' !! k = queue_bytes zero_memory !! k.
Proof.
  eexists _, _. split; [vm_compute; reflexivity|]. split; [reflexivity|].
  refine (proj1 (call_footprints zero_memory TEXT _) (Some [x68; x69; x00]) 3 _ _ _); [|vm_compute; reflexivity].
  repeat (split; [done|]). apply Forall_replicate, slot_typed_parts. by repeat split.
Defined.
