(* ===== verification/QueuePrograms.v ===== *)
(** The two programs of hw4: producer_hw4.cpp and consumer_hw4.cpp.

    Each [main] is a function of its arguments and of the system it runs on, any
    [Kernel]; it returns the exit status and the lines printed.  A process runs
    alone here ([IpcQueueMpsc] has the concurrent runs); undefined behaviour and
    fatal signals are [None].  The consumer's [while (true)] takes fuel, and
    [consumer_loop_terminates] shows that 17 rounds are always enough. *)

From S2P Require Import Prelude IpcQueue ShmUtils.
From Stdlib Require Import Ascii.
From stdpp Require Import pretty.
From stdpp Require Import options.

Local Open Scope Z_scope.

#[local] Arguments replicate : simpl never.

(** * The C library functions the programs use *)

Definition is_space (c : Ascii.ascii) : bool :=
  let n := Ascii.nat_of_ascii c in
  bool_decide (n = 32%nat) || bool_decide (9 ≤ n ≤ 13)%nat.

Definition digit (c : Ascii.ascii) : option Z :=
  let n := Ascii.nat_of_ascii c in
  if bool_decide (48 ≤ n ≤ 57)%nat then Some (Z.of_nat n - 48) else None.

Fixpoint skip_spaces (s : string) : string :=
  match s with
  | String c s' => if is_space c then skip_spaces s' else s
  | EmptyString => EmptyString
  end.

Fixpoint digits (acc : Z) (s : string) : Z :=
  match s with
  | String c s' => match digit c with Some d => digits (10 * acc + d) s' | None => acc end
  | EmptyString => acc
  end.

Definition ULLONG_MAX : Z := 2 ^ 64 - 1.

(** [std::strtoull(s, nullptr, 10)]: a value out of range saturates, a minus
    sign negates in the unsigned type. *)
Definition strtoull (s : string) : Z :=
  let magnitude t := let v := digits 0 t in if v >? ULLONG_MAX then None else Some v in
  match skip_spaces s with
  | String "-"%char t => match magnitude t with Some v => u64_wrap (- v) | None => ULLONG_MAX end
  | String "+"%char t => default ULLONG_MAX (magnitude t)
  | t => default ULLONG_MAX (magnitude t)
  end.

(** The object representation of an [int], little endian. *)
Fixpoint le_bytes (n : nat) (z : Z) : list byte :=
  match n with
  | O => []
  | S n' => default x00 (Byte.of_N (Z.to_N (z `mod` 256))) :: le_bytes n' (z / 256)
  end.

Definition bytes_of (s : string) : list byte := String.list_byte_of_string s.

Definition text_of (bs : list byte) : string := String.string_of_list_byte bs.

(** * The programs *)

Record outcome (W : Type) := Exit {
  status : Z; out : list string; err : list string; world : W }.
Arguments Exit {W} _ _ _ _.
Arguments status {W} _.
Arguments out {W} _.
Arguments err {W} _.
Arguments world {W} _.

(** The queue's name and size from [argv]; [None] when the size is too small. *)
Definition parse_args (argv : list string) : string * option Z :=
  (default "/hw4_queue" (argv !! 1%nat),
   match argv !! 2%nat with
   | None => Some get_queue_memory_size
   | Some a =>
       let parsed := strtoull a in
       if parsed <? get_queue_memory_size then None else Some parsed
   end).

Section programs.
Context {W : Type} {K : Kernel W}.

(** A call on the queue behind [a]. *)
Definition push_at (a : Z) (ty : MessageType) (data : list byte) (w : W) : option (bool * W) :=
  q ← load_queue a w;
  '(ok, oq) ← try_push_message (Some q) ty (Some data) (Z.of_nat (length data));
  q' ← oq; w' ← store_queue a q' w; Some (ok, w').

Definition init_at (a : Z) (w : W) : option W :=
  q ← load_queue a w; q' ← init_queue q; store_queue a q' w.

Definition number : Z := 12345.

Definition text : string := "hello from producer".

(** [main] once it has the region mapped. *)
Definition produce (region : SharedMemoryRegion) (was_created : bool) (queue_size : Z) (w1 : W) : option (outcome W) :=
  let quit code o e w := Some (Exit code o e (close_shared_memory (Some region) w).2) in
  w2 ← (if was_created then init_at (addr region) w1 else Some w1);
  q ← load_queue (addr region) w2;
  if negb (is_queue_valid q) then quit 1 [] ["Queue is not valid"] w2 else
  '(pushed_number, w3) ← push_at (addr region) NUMBER (le_bytes 4 number) w2;
  if negb pushed_number then quit 1 [] ["Failed to push NUMBER message"] w3 else
  '(pushed_text, w4) ← push_at (addr region) TEXT (bytes_of text ++ [x00]) w3;
  if negb pushed_text then quit 1 [] ["Failed to push TEXT message"] w4 else
  quit 0 [ if was_created then "Shared memory created and queue initialized"
           else "Shared memory opened successfully";
           "Pushed NUMBER message: " +:+ pretty number;
           "Pushed TEXT message: " +:+ text;
           "Queue size: " +:+ pretty queue_size +:+ " bytes" ] [] w4.

Definition producer_main (argv : list string) (w : W) : option (outcome W) :=
  let '(shm_name, sz) := parse_args argv in
  match sz with
  | None => Some (Exit 1 [] ["Queue size is too small"] w)
  | Some queue_size =>
      match create_or_open_shared_memory (Some shm_name) queue_size
              (Some no_region) (Some false) w with
      | ((true, Some region, Some was_created), w1) => produce region was_created queue_size w1
      | (_, w1) => Some (Exit 1 [] ["Failed to create or open shared memory"] w1)
      end
  end.
End programs.

(** The locals of the consumer's loop. *)
Record loop_state := Loop {
  l_queue : SharedQueueLayout; l_buffer : list byte; l_header : MessageHeader;
  received_text_count : nat; skipped_count : nat; printed : list string }.

(** How a run of the loop ends: by [break], by exhausting the fuel, or with
    undefined behaviour. *)
Inductive loop_end := Broke (s : loop_state) | OutOfFuel | Undefined.

(** [std::cout << buffer] reads up to the first NUL. *)
Fixpoint consumer_loop (fuel : nat) (s : loop_state) : loop_end :=
  match fuel with
  | O => OutOfFuel
  | S fuel' =>
      let before := read_index (l_queue s) in
      match try_pop_message (Some (l_queue s)) TEXT (Some (l_buffer s)) MAX_PAYLOAD_SIZE
              (Some (l_header s)) with
      | Some (Popped popped (Some q) (Some buf) (Some h)) =>
          let after := read_index q in
          if popped then
            match c_string buf with
            | Some t =>
                consumer_loop fuel' (Loop q buf h (S (received_text_count s)) (skipped_count s)
                  (printed s ++ ["Received TEXT message: " +:+ text_of t]))
            | None => Undefined
            end
          else if after >? before then
            consumer_loop fuel' (Loop q buf h (received_text_count s) (S (skipped_count s))
              (printed s ++ ["Skipped message with another type"]))
          else Broke (Loop q buf h (received_text_count s) (skipped_count s) (printed s))
      | _ => Undefined
      end
  end.

(** The number of rounds that always suffices. *)
Definition rounds : nat := 17.

Section consumer.
Context {W : Type} {K : Kernel W}.

Definition consumer_main (argv : list string) (w : W) : option (outcome W) :=
  let '(shm_name, sz) := parse_args argv in
  match sz with
  | None => Some (Exit 1 [] ["Queue size is too small"] w)
  | Some queue_size =>
      match open_shared_memory (Some shm_name) queue_size (Some no_region) w with
      | ((true, Some region), w1) =>
          q ← load_queue (addr region) w1;
          if negb (is_queue_valid q)
          then Some (Exit 1 [] ["Queue is not valid"] (close_shared_memory (Some region) w1).2)
          else
            match consumer_loop rounds
                    (Loop q (replicate 256 x00) (Header 0 0) 0 0 []) with
            | Broke s =>
                w2 ← store_queue (addr region) (l_queue s) w1;
                let '(_, w3) := close_shared_memory (Some region) w2 in
                let '(cleaned, w4) := unlink_shared_memory (Some shm_name) w3 in
                Some (Exit 0
                  (printed s ++
                   [ "Shared memory opened successfully"; "Queue is valid";
                     "Received TEXT messages: " +:+ pretty (received_text_count s);
                     "Skipped messages: " +:+ pretty (skipped_count s);
                     "Queue size: " +:+ pretty queue_size +:+ " bytes";
                     if cleaned : bool then "Shared memory cleaned up"
                     else "Failed to cleanup shared memory" ]) [] w4)
            | OutOfFuel | Undefined => None
            end
      | (_, w1) => Some (Exit 1 [] ["Failed to open shared memory"] w1)
      end
  end.
End consumer.

(** [k] producers one after the other, each with the arguments [argv]. *)
Fixpoint producers {W} {K : Kernel W} (k : nat) (argv : list string) (w : W) :
    option (list (list string) * W) :=
  match k with
  | O => Some ([], w)
  | S k' =>
      o ← producer_main argv w;
      if status o =? 0 then '(os, w') ← producers k' argv (world o); Some (out o :: os, w')
      else None
  end.

(** * What the consumer prints *)

(** The line for a message. *)
Definition line_of (m : message) : string :=
  if m.1 =? type_u32 TEXT
  then "Received TEXT message: " +:+ text_of (default [] (c_string m.2))
  else "Skipped message with another type".

Definition is_text (m : message) : bool := m.1 =? type_u32 TEXT.

Definition ready_slots (q : SharedQueueLayout) : nat :=
  count (λ s, state s =? state_u32 READY) (slots q).

Lemma c_string_app bs t rest : c_string bs = Some t → c_string (bs ++ rest) = Some t.
Proof.
  revert t. induction bs as [|b bs IH]; intros t H; [done|]. simpl in *.
  destruct b; try done; destruct (c_string bs) as [t'|]; simplify_eq/=; by rewrite (IH t' eq_refl).
Qed.

(** One round on a queue with a head message. *)
Lemma consumer_round fuel q m ms buf h r k ls :
  queue_rep q (m :: ms) → length buf = 256%nat → read_index q + 1 < 2 ^ 64 →
  (is_text m = true → is_Some (c_string m.2)) →
  ∃ q' buf' h', queue_rep q' ms ∧ length buf' = 256%nat ∧ read_index q' = read_index q + 1 ∧
    consumer_loop (S fuel) (Loop q buf h r k ls) =
    consumer_loop fuel (Loop q' buf' h'
      (r + Nat.b2n (is_text m)) (k + Nat.b2n (negb (is_text m))) (ls ++ [line_of m])).
Proof.
  intros HR Hb Hr Ht. destruct (pop_refines q (m :: ms) TEXT buf h HR) as (q' & Hp & HR').
  rewrite Hb in Hp, HR'. pose proof (proj2 (rep_head _ _ _ HR)) as Hm.
  assert ((Z.of_nat (length m.2) >? Z.of_nat 256) = false) as Efit
    by (destruct (Z.gtb_spec (Z.of_nat (length m.2)) (Z.of_nat 256)); [lia|done]).
  cbn [fifo_pop] in Hp, HR'. rewrite Efit in Hp, HR'.
  assert (read_index q' = read_index q + 1) as Hr'.
  { pose proof (rep_read _ _ HR). pose proof (rep_write _ _ HR) as Hw.
    unfold try_pop_message in Hp. rewrite (proj1 (rep_head _ _ _ HR)) in Hp.
    inv_opt; cbn; try (by rewrite u64_wrap_small by lia);
      exfalso; change MAX_PAYLOAD_SIZE with (Z.of_nat 256) in *; congruence. }
  unfold is_text, line_of. cbn [consumer_loop l_queue l_buffer l_header]. change MAX_PAYLOAD_SIZE with (Z.of_nat 256).
  rewrite Hp. destruct (m.1 =? type_u32 TEXT) eqn:Ety; cbn.
  - destruct (Ht Ety) as [t Et]. rewrite (c_string_app _ _ _ Et), Et. cbn.
    exists q'. eexists _, _. split_ands; [exact HR'| |exact Hr'|].
    2:{ by rewrite Nat.add_1_r, Nat.add_0_r. }
    rewrite length_app, length_drop. lia.
  - rewrite Hr'. destruct (Z.gtb_spec (read_index q + 1) (read_index q)); [|lia].
    exists q', buf, h. split_ands; try done. by rewrite Nat.add_1_r, Nat.add_0_r.
Qed.

Lemma consumer_loop_prints ms : ∀ fuel q buf h r k ls,
  queue_rep q ms → length buf = 256%nat → read_index q + Z.of_nat (length ms) < 2 ^ 64 →
  Forall (λ m, is_text m = true → is_Some (c_string m.2)) ms → (length ms < fuel)%nat →
  ∃ q' buf' h', queue_rep q' [] ∧
    consumer_loop fuel (Loop q buf h r k ls) =
    Broke (Loop q' buf' h' (r + count is_text ms) (k + count (negb ∘ is_text) ms)
      (ls ++ (line_of <$> ms))).
Proof.
  induction ms as [|m ms IH]; intros [|fuel] q buf h r k ls HR Hb Hr Ht Hf; try (simpl in Hf; lia).
  - exists q, buf, h. split; [done|]. cbn [consumer_loop l_queue l_buffer l_header].
    rewrite (pop_empty q []) by auto. rewrite Z.gtb_ltb, Z.ltb_irrefl. cbn.
    by rewrite !Nat.add_0_r, app_nil_r.
  - apply Forall_cons in Ht as [Hm Ht]. cbn [length] in Hr, Hf.
    destruct (consumer_round fuel q m ms buf h r k ls) as (q1 & buf1 & h1 & HR1 & Hb1 & Hr1 & ->);
      [done|done|lia|done|].
    destruct (IH fuel q1 buf1 h1 (r + Nat.b2n (is_text m))%nat (k + Nat.b2n (negb (is_text m)))%nat
      (ls ++ [line_of m])) as (q2 & buf2 & h2 & HR2 & ->); [done|done|lia|done|lia|].
    exists q2, buf2, h2. split; [done|]. unfold count. cbn [sum_list_with fmap list_fmap].
    rewrite <- app_assoc. do 2 f_equal; simpl; lia.
Qed.

(** * Termination on any memory *)

(** A pop either changes nothing and answers [false], or takes a ready slot. *)
Lemma pop_takes_ready q ty buf n h r :
  try_pop_message (Some q) ty (Some buf) n (Some h) = Some r →
  r = Popped false (Some q) (Some buf) (Some h) ∨
  ∃ q', pop_queue r = Some q' ∧ S (ready_slots q') = ready_slots q.
Proof.
  unfold try_pop_message. intros Hp.
  destruct (slots q !! get_slot (read_index q)) as [s|] eqn:Hs;
    cbn [mbind option_bind] in Hp; [|done].
  destruct (Z.eqb_spec (state s) (state_u32 READY)) as [E2|]; simplify_eq/=; [|by left].
  destruct (_ >? _) in Hp; simplify_eq; [by left|].
  destruct (_ >? _) in Hp; simplify_eq; [by left|]. right.
  match type of Hp with context [mbind _ ?m] => destruct m as [buf'|]; [|done] end.
  cbn [mbind option_bind] in Hp. destruct (memset _ _ _) as [p|]; [|done]. simplify_eq/=.
  eexists. split; [done|].
  unfold ready_slots. cbn [slots set_read_index set_slot].
  match goal with |- context [<[_:=?x]> _] =>
    pose proof (count_insert (λ s, state s =? state_u32 READY) _ _ _ x Hs) as E end.
  cbn in E |- *. rewrite E2 in E. cbn in E. lia.
Qed.

Lemma consumer_loop_bounded fuel : ∀ s,
  (ready_slots (l_queue s) < fuel)%nat → consumer_loop fuel s ≠ OutOfFuel.
Proof.
  induction fuel as [|fuel IH]; intros s Hf; [lia|]. cbn [consumer_loop].
  destruct (try_pop_message _ _ _ _ _) as [r|] eqn:Hp; [|done].
  destruct (pop_takes_ready _ _ _ _ _ _ Hp) as [->|(q' & Hq & Hlt)].
  - rewrite Z.gtb_ltb, Z.ltb_irrefl. done.
  - destruct r as [pd [q|] [b|] [hd|]]; simplify_eq/=; try done.
    destruct pd.
    + destruct (c_string b); [|done]. apply IH. cbn. lia.
    + destruct (_ >? _); [|done]. apply IH. cbn. lia.
Qed.

Lemma ready_slots_bound q : length (slots q) = 16%nat → (ready_slots q ≤ 16)%nat.
Proof.
  intros <-. unfold ready_slots, count. induction (slots q) as [|s ss IH]; [done|].
  cbn. destruct (state s =? 2); cbn in IH |- *; lia.
Qed.

(** * Properties *)

(** The consumer prints the queue.  Whatever typed messages wait in the
    ring, as long as each text carries its NUL and the read index does not wrap
    meanwhile, the consumer's loop ends by [break] after reporting every message
    in order, each text with its own characters, each other message as skipped,
    with the two counters right and the ring empty. *)
Theorem consumer_prints_queue q ms :
  queue_rep q ms → read_index q + Z.of_nat (length ms) < 2 ^ 64 →
  Forall (λ m, is_text m = true → is_Some (c_string m.2)) ms →
  ∃ q' buf h, queue_rep q' [] ∧
    consumer_loop rounds (Loop q (replicate 256 x00) (Header 0 0) 0 0 [])
    = Broke (Loop q' buf h (count is_text ms) (count (negb ∘ is_text) ms) (line_of <$> ms)).
Proof.
  intros HR Hr Ht.
  destruct (consumer_loop_prints ms rounds q (replicate 256 x00) (Header 0 0) 0 0 [])
    as (q' & buf & h & HR' & E); try done.
  - pose proof (rep_bound _ _ HR). unfold rounds. lia.
  - by exists q', buf, h.
Qed.

Lemma consumer_prints_queue_witness :
  ∃ q q' buf h, init_queue zero_memory = Some q ∧ queue_rep q' [] ∧
    consumer_loop rounds (Loop q (replicate 256 x00) (Header 0 0) 0 0 [])
    = Broke (Loop q' buf h 0 0 []).
Proof.
  destruct (init_queue_rep zero_memory) as (q & Hi & HR).
  { split; [reflexivity|]. repeat constructor. }
  destruct (consumer_prints_queue q [] HR) as (q' & buf & h & HR' & E).
  - rewrite init_queue_runs in Hi by (split; [reflexivity|]; repeat constructor).
    injection Hi as <-. reflexivity.
  - constructor.
  - exists q, q', buf, h. split_ands; [exact Hi|exact HR'|exact E].
Defined.

(** The consumer stops.  On any sixteen slots, however corrupted, the
    [while (true)] loop leaves within seventeen rounds: each round that goes on
    has taken a slot that was ready. *)
Theorem consumer_loop_terminates s :
  length (slots (l_queue s)) = 16%nat → consumer_loop rounds s ≠ OutOfFuel.
Proof.
  intros H. apply consumer_loop_bounded. pose proof (ready_slots_bound _ H). unfold rounds. lia.
Qed.

Lemma consumer_loop_terminates_witness :
  consumer_loop rounds (Loop hostile_memory [] (Header 0 0) 0 0 []) ≠ OutOfFuel.
Proof. apply (consumer_loop_terminates (Loop hostile_memory [] (Header 0 0) 0 0 [])). reflexivity. Defined.

(** An object that exists but has no size yet: another producer has run
    [shm_open] and not yet [ftruncate]. *)
Definition half_created : sim := (sim_open "/hw4_queue" (Flags true true) empty_sim).2.

(** Start-up is not atomic.  A producer that finds the object another
    producer has created but not yet sized maps it successfully and then dies on
    its first access; if it finds it sized but not initialised it gives up with
    "Queue is not valid". *)
Theorem producer_startup_race :
  producer_main ["producer_hw4"] half_created = None ∧
  ∃ r, producer_main ["producer_hw4"] (sim_truncate 0 get_queue_memory_size half_created).2 = Some r ∧
    status r = 1 ∧ err r = ["Queue is not valid"].
Proof. split; [vm_compute; reflexivity|]. eexists. split; [vm_compute; reflexivity|]. by split. Qed.

(** A full-length text without a NUL, as [try_push_message] accepts it. *)
Definition unterminated : option SharedQueueLayout :=
  q ← init_queue zero_memory; '(_, q') ← run_op (OpPush TEXT (replicate 256 x61)) q; Some q'.

(** The consumer trusts the sender to terminate texts: a text of 256
    characters, which the queue accepts and delivers, makes it read past the end
    of its buffer. *)
Theorem consumer_overreads_unterminated :
  ∃ q, unterminated = Some q ∧
    consumer_loop rounds (Loop q (replicate 256 x00) (Header 0 0) 0 0 []) = Undefined.
Proof. eexists. split; [vm_compute; reflexivity|]. vm_compute. reflexivity. Qed.
