(* ===== verification/QueueSession.v ===== *)
(** hw4 end to end: producers one after the other, then the consumer.

    The programs of [QueuePrograms] run on any system whose calls do not fail for lack
    of resources.  What that means is the class [Healthy]: the documented effect of the
    calls on the named objects, their sizes and their contents.  The objects are
    followed through the names, the descriptors and the mappings; a push by one process
    is what the next process loads. *)

From S2P Require Import Prelude IpcQueue ShmUtils QueuePrograms.
From stdpp Require Import pretty.
From stdpp Require Import options.

Local Open Scope Z_scope.

#[local] Arguments replicate : simpl never.

(** * A system whose calls do not fail *)

(** The named objects with their sizes and contents; the object behind a descriptor,
    and behind the address of a mapping. *)
Class Healthy (W : Type) {K : Kernel W} := {
  files : W → gmap string (Z * SharedQueueLayout);
  file_of : W → Z → option string;
  mapped : W → Z → option string;
  open_new n w : files w !! n = None →
    ∃ f e w', shm_open n (Flags true true) w = ((f, e), w') ∧ 0 ≤ f ∧ file_of w' f = Some n ∧
      files w' = <[n:=(0, zero_memory)]> (files w);
  open_taken n w : is_Some (files w !! n) →
    ∃ w', shm_open n (Flags true true) w = ((-1, EEXIST), w') ∧ files w' = files w;
  open_old n w : is_Some (files w !! n) →
    ∃ f e w', shm_open n (Flags false false) w = ((f, e), w') ∧ 0 ≤ f ∧ file_of w' f = Some n ∧
      files w' = files w;
  open_missing n w : files w !! n = None →
    ∃ e w', shm_open n (Flags false false) w = ((-1, e), w') ∧ files w' = files w;
  truncate_new f sz w n q : file_of w f = Some n → files w !! n = Some (0, q) → 0 < sz →
    ∃ w', ftruncate f sz w = (0, w') ∧ file_of w' f = Some n ∧ files w' = <[n:=(sz, q)]> (files w);
  mmap_works f sz w n : file_of w f = Some n → 0 < sz →
    ∃ a w', mmap sz f w = (Some a, w') ∧ 0 < a ∧ mapped w' a = Some n ∧ files w' = files w;
  load_works a w n sz q : mapped w a = Some n → files w !! n = Some (sz, q) → get_queue_memory_size ≤ sz →
    load_queue a w = Some q;
  store_works a w n sz q q' : mapped w a = Some n → files w !! n = Some (sz, q) → get_queue_memory_size ≤ sz →
    ∃ w', store_queue a q' w = Some w' ∧ mapped w' a = Some n ∧ files w' = <[n:=(sz, q')]> (files w);
  munmap_keeps a sz w : files (munmap a sz w).2 = files w;
  close_keeps f w : files (close f w).2 = files w;
  unlink_works n w : is_Some (files w !! n) →
    ∃ w', shm_unlink n w = (0, w') ∧ files w' = delete n (files w) }.

(** * What the programs print *)

Definition producer_lines (created : bool) (sz : Z) : list string :=
  [ if created then "Shared memory created and queue initialized" else "Shared memory opened successfully";
    "Pushed NUMBER message: 12345"; "Pushed TEXT message: hello from producer";
    "Queue size: " +:+ pretty sz +:+ " bytes" ].

(** The first producer creates the object, the others find it. *)
Definition producers_lines (k : nat) (sz : Z) : list (list string) :=
  match k with O => [] | S k' => producer_lines true sz :: replicate k' (producer_lines false sz) end.

Definition consumer_lines (k : nat) (sz : Z) : list string :=
  concat (replicate k ["Skipped message with another type"; "Received TEXT message: hello from producer"]) ++
  [ "Shared memory opened successfully"; "Queue is valid";
    "Received TEXT messages: " +:+ pretty k; "Skipped messages: " +:+ pretty k;
    "Queue size: " +:+ pretty sz +:+ " bytes"; "Shared memory cleaned up" ].

(** What one producer puts into the queue. *)
Definition produced : list message :=
  [(type_u32 NUMBER, le_bytes 4 number); (type_u32 TEXT, bytes_of text ++ [x00])].

(** * One process after the other *)

Lemma push_keeps_read q ty data n b q' :
  try_push_message (Some q) ty data n = Some (b, Some q') → read_index q' = read_index q.
Proof. unfold try_push_message. intros H. inv_opt; done. Qed.

Section session.
Context {W : Type} {K : Kernel W} {HW : Healthy W}.

(** The object [n] holds a queue with the messages [ms], the other objects are
    [base]. *)
Definition holds (n : string) (sz : Z) (ms : list message) (base : gmap string (Z * SharedQueueLayout)) (w : W) : Prop :=
  ∃ q, files w = <[n:=(sz, q)]> base ∧ queue_rep q ms ∧ read_index q = 0.

Lemma close_region_keeps r w : files (close_shared_memory (Some r) w).2 = files w.
Proof.
  unfold close_shared_memory, mthen, ShmUtils.mret.
  destruct (negb _ && _), (0 <=? fd r); cbn;
    repeat match goal with
    | |- context [munmap ?a ?z ?w0] => pose proof (munmap_keeps a z w0); destruct (munmap a z w0); cbn in *
    | |- context [close ?f ?w0] => pose proof (close_keeps f w0); destruct (close f w0); cbn in *
    end; congruence.
Qed.

(** A push through a mapping. *)
Lemma push_at_works a n sz ms base w ty d :
  holds n sz ms base w → mapped w a = Some n → get_queue_memory_size ≤ sz →
  (length ms < 16)%nat → (length d ≤ 256)%nat →
  ∃ w', push_at a ty d w = Some (true, w') ∧ mapped w' a = Some n ∧ holds n sz (ms ++ [(type_u32 ty, d)]) base w'.
Proof.
  intros (q & Hf & HR & Hr) Hm Hsz Hlen Hd. unfold push_at.
  assert (files w !! n = Some (sz, q)) as Hn by (by rewrite Hf, lookup_insert_eq).
  rewrite (load_works _ _ _ _ _ Hm Hn Hsz). cbn [mbind option_bind].
  destruct (push_room q ms ty d [] HR Hlen Hd) as (q' & Hp & HR').
  rewrite app_nil_r in Hp. rewrite Hp. cbn [mbind option_bind].
  destruct (store_works _ _ _ _ _ q' Hm Hn Hsz) as (w' & -> & Hm' & Hf'). cbn [mbind option_bind].
  exists w'. split_ands; [done|done|]. exists q'. rewrite Hf', Hf, insert_insert_eq.
  split_ands; [done|done|]. by rewrite (push_keeps_read _ _ _ _ _ _ Hp).
Qed.

(** A producer that has the queue mapped, and initialised it if it has created it. *)
Lemma produce_works n sz ms base w1 w r (created : bool) :
  (if created then init_at (addr r) w1 else Some w1) = Some w →
  holds n sz ms base w → mapped w (addr r) = Some n → get_queue_memory_size ≤ sz → (length ms + 2 ≤ 16)%nat →
  ∃ w', produce r created sz w1 = Some (Exit 0 (producer_lines created sz) [] w') ∧ holds n sz (ms ++ produced) base w'.
Proof.
  intros Hi Hh Hm Hsz Hlen. pose proof Hh as (q & Hf & HR & _). unfold produce. rewrite Hi. cbn [mbind option_bind].
  assert (files w !! n = Some (sz, q)) as Hn by (by rewrite Hf, lookup_insert_eq).
  rewrite (load_works _ _ _ _ _ Hm Hn Hsz). cbn [mbind option_bind]. rewrite (rep_valid _ _ HR). cbn [negb].
  destruct (push_at_works (addr r) n sz ms base w NUMBER (le_bytes 4 number) Hh Hm Hsz ltac:(lia) ltac:(cbn; lia))
    as (w3 & -> & Hm3 & Hh3). cbn [mbind option_bind negb].
  destruct (push_at_works (addr r) n sz _ base w3 TEXT (bytes_of text ++ [x00]) Hh3 Hm3 Hsz
    ltac:(rewrite length_app; cbn; lia) ltac:(vm_compute; lia)) as (w4 & -> & Hm4 & Hh4). cbn [mbind option_bind negb].
  eexists. split; [reflexivity|].
  destruct Hh4 as (q4 & Hf4 & HR4). rewrite <- app_assoc in HR4. exists q4. by rewrite close_region_keeps.
Qed.

Lemma init_at_works n sz base w a :
  files w = <[n:=(sz, zero_memory)]> base → mapped w a = Some n → get_queue_memory_size ≤ sz →
  ∃ w', init_at a w = Some w' ∧ mapped w' a = Some n ∧ holds n sz [] base w'.
Proof.
  intros Hf Hm Hsz. assert (files w !! n = Some (sz, zero_memory)) as Hn by (by rewrite Hf, lookup_insert_eq).
  assert (raw_layout zero_memory) as Hz by (split; [reflexivity|]; repeat constructor).
  destruct (init_queue_rep _ Hz) as (q & Hi & HR).
  assert (read_index q = 0) as Hr by (rewrite init_queue_runs in Hi by done; by simplify_eq).
  destruct (store_works _ _ _ _ _ q Hm Hn Hsz) as (w2 & Es & Hm2 & Hf2).
  exists w2. unfold init_at. rewrite (load_works _ _ _ _ _ Hm Hn Hsz). cbn [mbind option_bind].
  rewrite Hi. cbn [mbind option_bind]. rewrite Es. split_ands; [done|done|]. exists q.
  by rewrite Hf2, Hf, insert_insert_eq.
Qed.

Lemma off_t_small sz : 0 ≤ sz < 2 ^ 63 → off_t sz = sz.
Proof. intros H. unfold off_t. rewrite Z.mod_small; lia. Qed.

(** The arguments give a size that [off_t] can hold. *)
Definition args_for (n : string) (sz : Z) (argv : list string) : Prop := parse_args argv = (n, Some sz) ∧ sz < 2 ^ 63.

Lemma args_size n sz argv : args_for n sz argv → get_queue_memory_size ≤ sz ∧ 0 < sz.
Proof.
  intros [H _]. unfold parse_args in H. change get_queue_memory_size with 4320 in *.
  destruct (argv !! 2%nat) as [a|]; simplify_eq; [|lia].
  destruct (Z.ltb_spec (strtoull a) 4320); simplify_eq. lia.
Qed.

(** The first producer. *)
Lemma first_producer n sz argv w :
  args_for n sz argv → files w !! n = None →
  ∃ w', producer_main argv w = Some (Exit 0 (producer_lines true sz) [] w') ∧ holds n sz produced (files w) w'.
Proof.
  intros Ha Hn. destruct (args_size _ _ _ Ha) as [Hsz Hpos]. destruct Ha as [Ha Hlt].
  unfold producer_main. rewrite Ha. unfold create_or_open_shared_memory. rewrite (proj2 (Z.eqb_neq sz 0)) by lia.
  unfold mthen, ShmUtils.mret. destruct (open_new n w Hn) as (f & e & w1 & -> & Hf & Hfo & Hfi).
  rewrite (proj2 (Z.eqb_neq f (-1))) by lia. cbn [negb]. rewrite off_t_small by lia.
  destruct (truncate_new f sz w1 n zero_memory Hfo ltac:(by rewrite Hfi, lookup_insert_eq) Hpos)
    as (w2 & -> & Hfo2 & Hfi2). cbn [Z.eqb]. unfold map_or_undo, mthen, ShmUtils.mret.
  destruct (mmap_works f sz w2 n Hfo2 Hpos) as (a & w3 & -> & Hpa & Hm & Hfi3).
  destruct (init_at_works n sz (files w) w3 a) as (w4 & Hi & Hm4 & Hh); [|done|done|].
  { by rewrite Hfi3, Hfi2, Hfi, insert_insert_eq. }
  apply (produce_works n sz [] (files w) w3 w4 (Region f a sz) true Hi Hh Hm4 Hsz). cbn. lia.
Qed.

(** A later one. *)
Lemma next_producer n sz argv w ms base :
  args_for n sz argv → holds n sz ms base w → (length ms + 2 ≤ 16)%nat →
  ∃ w', producer_main argv w = Some (Exit 0 (producer_lines false sz) [] w') ∧ holds n sz (ms ++ produced) base w'.
Proof.
  intros Ha Hh Hlen. destruct (args_size _ _ _ Ha) as [Hsz Hpos]. destruct Ha as [Ha Hlt].
  pose proof Hh as (q & Hf & HR). assert (is_Some (files w !! n)) as Hn by (rewrite Hf, lookup_insert_eq; eauto).
  unfold producer_main. rewrite Ha. unfold create_or_open_shared_memory. rewrite (proj2 (Z.eqb_neq sz 0)) by lia.
  unfold mthen, ShmUtils.mret. destruct (open_taken n w Hn) as (w1 & -> & Hf1). cbn [Z.eqb negb EEXIST Pos.eqb].
  destruct (open_old n w1 ltac:(by rewrite Hf1)) as (f & e & w2 & -> & Hfd & Hfo & Hf2).
  rewrite (proj2 (Z.eqb_neq f (-1))) by lia. unfold map_or_undo, mthen, ShmUtils.mret.
  destruct (mmap_works f sz w2 n Hfo Hpos) as (a & w3 & -> & Hpa & Hm & Hf3).
  apply (produce_works n sz ms base w3 w3 (Region f a sz) false eq_refl); [|done|done|done].
  exists q. by rewrite Hf3, Hf2, Hf1.
Qed.

Lemma producers_work n sz argv base k : ∀ ms w,
  args_for n sz argv → holds n sz ms base w → (length ms + 2 * k ≤ 16)%nat →
  ∃ w', producers k argv w = Some (replicate k (producer_lines false sz), w') ∧
    holds n sz (ms ++ concat (replicate k produced)) base w'.
Proof.
  induction k as [|k IH]; intros ms w Ha Hh Hlen.
  - exists w. cbn. by rewrite app_nil_r.
  - destruct (next_producer n sz argv w ms base Ha Hh ltac:(lia)) as (w1 & Hp & Hh1). cbn [producers].
    rewrite Hp. cbn [mbind option_bind status world out Z.eqb].
    destruct (IH (ms ++ produced) w1 Ha Hh1) as (w' & -> & Hh'); [rewrite length_app; cbn; lia|].
    exists w'. split; [done|]. by rewrite <- app_assoc in Hh'.
Qed.
Lemma concat_replicate_S {A} k (l : list A) : concat (replicate (S k) l) = l ++ concat (replicate k l).
Proof. done. Qed.

Lemma produced_counts k :
  count is_text (concat (replicate k produced)) = k ∧ count (negb ∘ is_text) (concat (replicate k produced)) = k.
Proof.
  unfold count. induction k as [|k [IH1 IH2]]; [done|].
  rewrite concat_replicate_S, !sum_list_with_app, IH1, IH2. by cbn.
Qed.

Lemma produced_lines k :
  line_of <$> concat (replicate k produced) =
  concat (replicate k ["Skipped message with another type"; "Received TEXT message: hello from producer"]).
Proof. induction k as [|k IH]; [done|]. by rewrite !concat_replicate_S, fmap_app, IH. Qed.

Lemma produced_terminated k :
  Forall (λ m, is_text m = true → is_Some (c_string m.2)) (concat (replicate k produced)).
Proof.
  induction k as [|k IH]; [constructor|]. rewrite concat_replicate_S. apply Forall_app. split; [|done].
  repeat constructor; vm_compute; eauto.
Qed.

Lemma produced_length k : length (concat (replicate k produced)) = (2 * k)%nat.
Proof. induction k as [|k IH]; [done|]. rewrite concat_replicate_S, length_app, IH. cbn. lia. Qed.

(** The consumer on what [k] producers have left. *)
Lemma consumer_works n sz sz' argv base w k :
  args_for n sz' argv → get_queue_memory_size ≤ sz → base !! n = None → (k ≤ 8)%nat →
  holds n sz (concat (replicate k produced)) base w →
  ∃ w', consumer_main argv w = Some (Exit 0 (consumer_lines k sz') [] w') ∧ files w' = base.
Proof.
  intros Ha Hsz Hb Hk (q & Hf & HR & Hr). destruct (args_size _ _ _ Ha) as [_ Hpos]. destruct Ha as [Ha _].
  assert (is_Some (files w !! n)) as Hn by (rewrite Hf, lookup_insert_eq; eauto).
  unfold consumer_main. rewrite Ha. unfold open_shared_memory, unlink_shared_memory.
  rewrite (proj2 (Z.eqb_neq sz' 0)) by lia. unfold mthen, ShmUtils.mret.
  destruct (open_old n w Hn) as (f & e & w1 & -> & Hfd & Hfo & Hf1).
  rewrite (proj2 (Z.eqb_neq f (-1))) by lia.
  destruct (mmap_works f sz' w1 n Hfo Hpos) as (a & w2 & -> & Hpa & Hm & Hf2). cbn [addr].
  assert (files w2 !! n = Some (sz, q)) as Hq by (by rewrite Hf2, Hf1, Hf, lookup_insert_eq).
  rewrite (load_works _ _ _ _ _ Hm Hq Hsz). cbn [mbind option_bind]. rewrite (rep_valid _ _ HR). cbn [negb].
  pose proof (produced_length k) as Hlen. destruct (produced_counts k) as [Ht Hs].
  destruct (consumer_loop_prints _ rounds q (replicate 256 x00) (Header 0 0) 0 0 [] HR eq_refl
    ltac:(rewrite Hlen; lia) (produced_terminated k) ltac:(rewrite Hlen; unfold rounds; lia))
    as (q' & buf & h & HR' & ->). rewrite Ht, Hs, produced_lines.
  cbn [l_queue printed received_text_count skipped_count Nat.add app].
  destruct (store_works _ _ _ _ _ q' Hm Hq Hsz) as (w3 & -> & Hm3 & Hf3). cbn [mbind option_bind].
  pose proof (close_region_keeps (Region f a sz') w3) as Hc.
  destruct (close_shared_memory _ w3) as [o w4]. cbn [snd] in Hc.
  destruct (unlink_works n w4) as (w5 & -> & Hf5).
  { rewrite Hc, Hf3, lookup_insert_eq. eauto. }
  exists w5. split; [done|].
  by rewrite Hf5, Hc, Hf3, Hf2, Hf1, Hf, insert_insert_eq, delete_insert_id.
Qed.

(** C12: producers, then the consumer.  On every system whose calls do not fail for
    lack of resources, from a state without the object: up to eight producers run one
    after the other all succeed; the first prints that it has created the memory, the
    others that they have opened it, each prints its two messages and the size.  The
    consumer then skips the number and prints the text of each producer, in order,
    reports the two counts, removes the object and leaves every other object as it was;
    if no producer has run it fails with its message and changes no object. *)
Theorem producers_then_consumer n sz sz' argv argv' k w :
  args_for n sz argv → args_for n sz' argv' → files w !! n = None → (k ≤ 8)%nat →
  ∃ w1 r, producers k argv w = Some (producers_lines k sz, w1) ∧
    consumer_main argv' w1 = Some r ∧ files (world r) = files w ∧
    if bool_decide (k = 0%nat)
    then status r = 1 ∧ out r = [] ∧ err r = ["Failed to open shared memory"]
    else status r = 0 ∧ out r = consumer_lines k sz' ∧ err r = [].
Proof.
  intros Ha Ha' Hn Hk. destruct (args_size _ _ _ Ha) as [Hsz _]. destruct k as [|k].
  - destruct (args_size _ _ _ Ha') as [_ Hpos]. destruct Ha' as [Ha' _].
    destruct (open_missing n w Hn) as (e & w1 & Ho & Hf).
    exists w, (Exit 1 [] ["Failed to open shared memory"] w1). split_ands; try done.
    unfold consumer_main. rewrite Ha'. unfold open_shared_memory.
    rewrite (proj2 (Z.eqb_neq sz' 0)) by lia. unfold mthen, ShmUtils.mret. by rewrite Ho.
  - destruct (first_producer n sz argv w Ha Hn) as (w1 & Hp & Hh).
    destruct (producers_work n sz argv (files w) k produced w1 Ha Hh) as (w2 & Hps & Hh2); [cbn; lia|].
    destruct (consumer_works n sz sz' argv' (files w) w2 (S k) Ha' Hsz Hn Hk Hh2) as (w3 & Hc & Hf3).
    eexists w2, _. split; [|split; [exact Hc|split; [exact Hf3|done]]].
    cbn [producers]. rewrite Hp. cbn [mbind option_bind status world out Z.eqb]. by rewrite Hps.
Qed.
End session.

(** * A concrete system *)

(** The processes of a session run one after the other and none keeps an object past
    its name, so an object is known by its name here. *)
Record host := Host {
  host_files : gmap string (Z * SharedQueueLayout);
  host_fds : gmap nat string;
  host_maps : gmap nat string }.

Definition host_open (n : string) (f : open_flags) (w : host) : (Z * Z) * host :=
  let d := fresh (dom (host_fds w)) in
  match host_files w !! n with
  | Some _ =>
      if o_creat f && o_excl f then ((-1, EEXIST), w)
      else ((Z.of_nat d, 0), Host (host_files w) (<[d:=n]> (host_fds w)) (host_maps w))
  | None =>
      if o_creat f
      then ((Z.of_nat d, 0), Host (<[n:=(0, zero_memory)]> (host_files w)) (<[d:=n]> (host_fds w)) (host_maps w))
      else ((-1, 2), w)
  end.

Definition host_truncate (f sz : Z) (w : host) : Z * host :=
  match n ← host_fds w !! Z.to_nat f; o ← host_files w !! n; Some (n, o) with
  | Some (n, (_, q)) => (0, Host (<[n:=(sz, q)]> (host_files w)) (host_fds w) (host_maps w))
  | None => (-1, w)
  end.

(** The mapping at the address [S i] has the key [i]. *)
Definition host_mmap (sz f : Z) (w : host) : option Z * host :=
  match host_fds w !! Z.to_nat f with
  | Some n =>
      let i := fresh (dom (host_maps w)) in
      (Some (Z.of_nat (S i)), Host (host_files w) (host_fds w) (<[i:=n]> (host_maps w)))
  | None => (None, w)
  end.

Definition host_munmap (a sz : Z) (w : host) : Z * host :=
  (0, Host (host_files w) (host_fds w) (delete (Z.to_nat (a - 1)) (host_maps w))).

Definition host_close (f : Z) (w : host) : Z * host :=
  (0, Host (host_files w) (delete (Z.to_nat f) (host_fds w)) (host_maps w)).

Definition host_unlink (n : string) (w : host) : Z * host :=
  match host_files w !! n with
  | Some _ => (0, Host (delete n (host_files w)) (host_fds w) (host_maps w))
  | None => (-1, w)
  end.

(** The object behind an address; an access past its end is fatal. *)
Definition host_object (a : Z) (w : host) : option (string * (Z * SharedQueueLayout)) :=
  n ← host_maps w !! Z.to_nat (a - 1);
  o ← host_files w !! n;
  if o.1 <? get_queue_memory_size then None else Some (n, o).

Definition host_load (a : Z) (w : host) : option SharedQueueLayout :=
  '(_, o) ← host_object a w; Some o.2.

Definition host_store (a : Z) (q : SharedQueueLayout) (w : host) : option host :=
  '(n, o) ← host_object a w; Some (Host (<[n:=(o.1, q)]> (host_files w)) (host_fds w) (host_maps w)).

#[export] Instance host_kernel : Kernel host := {
  shm_open := host_open; ftruncate := host_truncate; mmap := host_mmap; munmap := host_munmap;
  close := host_close; shm_unlink := host_unlink; load_queue := host_load; store_queue := host_store }.

Lemma host_object_at a w n sz q :
  host_maps w !! Z.to_nat (a - 1) = Some n → host_files w !! n = Some (sz, q) → get_queue_memory_size ≤ sz →
  host_object a w = Some (n, (sz, q)).
Proof.
  intros Hm Hn Hsz. unfold host_object. rewrite Hm. cbn [mbind option_bind]. rewrite Hn. cbn [mbind option_bind fst].
  destruct (Z.ltb_spec sz get_queue_memory_size); [lia|done].
Qed.

#[export, program] Instance host_healthy : Healthy host := {
  files := host_files;
  file_of w f := host_fds w !! Z.to_nat f;
  mapped w a := host_maps w !! Z.to_nat (a - 1) }.
Next Obligation.
  intros n w H. cbn. unfold host_open. rewrite H. cbn. eexists _, _, _. split_ands; [done|lia| |done].
  cbn. by rewrite Nat2Z.id, lookup_insert_eq.
Qed.
Next Obligation. intros n w [o H]. cbn. unfold host_open. rewrite H. by exists w. Qed.
Next Obligation.
  intros n w [o H]. cbn. unfold host_open. rewrite H. cbn. eexists _, _, _. split_ands; [done|lia| |done].
  cbn. by rewrite Nat2Z.id, lookup_insert_eq.
Qed.
Next Obligation. intros n w H. cbn. unfold host_open. rewrite H. by exists 2, w. Qed.
Next Obligation.
  intros f sz w n q Hf Hn _. cbn. unfold host_truncate. rewrite Hf. cbn [mbind option_bind]. rewrite Hn.
  cbn. by eexists.
Qed.
Next Obligation.
  intros f sz w n Hf _. cbn. unfold host_mmap. rewrite Hf. eexists _, _. split_ands; [done|lia| |done].
  cbn [host_maps]. rewrite Nat2Z.inj_succ, <- Z.add_1_r, Z.add_simpl_r, Nat2Z.id. apply lookup_insert_eq.
Qed.
Next Obligation.
  intros a w n sz q Hm Hn Hsz. cbn -[get_queue_memory_size]. unfold host_load.
  by rewrite (host_object_at _ _ _ _ _ Hm Hn Hsz).
Qed.
Next Obligation.
  intros a w n sz q q' Hm Hn Hsz. cbn -[get_queue_memory_size]. unfold host_store.
  rewrite (host_object_at _ _ _ _ _ Hm Hn Hsz). cbn. by eexists.
Qed.
Next Obligation. done. Qed.
Next Obligation. done. Qed.
Next Obligation. intros n w [o H]. cbn. unfold host_unlink. rewrite H. by eexists. Qed.

(** Three producers with the arguments of TESTS.md and the consumer with none. *)
Lemma producers_then_consumer_witness :
  ∃ w1 r, producers 3 ["producer_hw4"; "/hw4_queue"; "4320"] (Host ∅ ∅ ∅) = Some (producers_lines 3 4320, w1) ∧
    consumer_main ["consumer_hw4"] w1 = Some r ∧ host_files (world r) = ∅ ∧
    out r = consumer_lines 3 4320 ∧ status r = 0.
Proof.
  destruct (producers_then_consumer "/hw4_queue" 4320 4320 ["producer_hw4"; "/hw4_queue"; "4320"] ["consumer_hw4"] 3
    (Host ∅ ∅ ∅)) as (w1 & r & Hp & Hc & Hf & Hs & Ho & _); [by split|by split|reflexivity|lia|].
  exists w1, r. exact (conj Hp (conj Hc (conj Hf (conj Ho Hs)))).
Defined.
