(* ===== verification/Stacks.v ===== *)
(** What the stacks of lock_free/spsc_stack.cpp promise, and the program that
    uses one of them.

    The three stack classes are interchangeable in [main]: a producer thread
    pushes a sequence of values, a consumer thread pops until it has received
    as many.  Here the clients are any number of such producers and consumers.
    The promise is a machine in which every [Push] and [Pop] is one atomic step on
    a list; a class [Stack] states that an implementation, whatever its own
    steps, only does what that machine can do, that operations under way can be
    finished, and that at rest it can do what the machine can do.  The theorems about
    the clients, and about [main] with its start latch, are proved once, against the
    class.  A consumer may poll an empty stack for ever, so that schedules have no
    bound; what is proved is that the end can always be reached. *)

From S2P Require Import Prelude Machine.
From stdpp Require Import options.

(** * The clients *)

(** A producer and the values it has still to push; a consumer, the number of
    values it wants and what its calls of [Pop] have returned so far. *)
Inductive client (T : Type) :=
  | Producer (todo : list T)
  | Consumer (want : nat) (results : list (option T)).
Arguments Producer {T} _.
Arguments Consumer {T} _ _.

(** The values received: [if (value) ++consumed]. *)
Definition received {T} (results : list (option T)) : list T := omap id results.

(** The loop condition [consumed < NumberOfElements]. *)
Definition wants_more {T} (want : nat) (results : list (option T)) : bool :=
  length (received results) <? want.

Definition client_done {T} (c : client T) : bool :=
  match c with
  | Producer todo => bool_decide (length todo = 0)
  | Consumer want results => negb (wants_more want results)
  end.

Definition to_push {T} (c : client T) : list T :=
  match c with Producer todo => todo | Consumer _ _ => [] end.

Definition has {T} (c : client T) : list T :=
  match c with Producer _ => [] | Consumer _ results => received results end.

Definition consuming {T} (c : client T) : bool :=
  match c with Producer _ => false | Consumer _ _ => true end.

(** The two threads of [main]. *)
Definition spsc_main (NumberOfElements : nat) : list (client Z) :=
  [Producer (Z.of_nat <$> seq 0 NumberOfElements); Consumer NumberOfElements []].

(** * The promise *)

(** One whole operation on the contents, top first. *)
Definition atomic_tstep {T} (_ : nat) (_ : unit) (stack : list T) (c : client T) :
    option (list T * client T) :=
  match c with
  | Producer [] => None
  | Producer (v :: todo) => Some (v :: stack, Producer todo)
  | Consumer want results =>
      if wants_more want results then
        match stack with
        | [] => Some ([], Consumer want (results ++ [None]))
        | v :: rest => Some (rest, Consumer want (results ++ [Some v]))
        end
      else None
  end.

Definition atomic_step {T} : act unit → conf (list T) (client T) → option (conf (list T) (client T)) :=
  conf_step atomic_tstep.

(** An implementation: its machine, the clients it is meant for, the clients it
    shows when it is at rest, and the relation [stack_sees] between its states
    and those of the promise. *)
Class Stack (T : Type) := {
  stack_state : Type;
  stack_action : Type;
  stack_step : stack_action → stack_state → option stack_state;
  stack_init : list (client T) → stack_state;
  stack_for : list (client T) → Prop;
  stack_clients : stack_state → option (list (client T));
  stack_sees : stack_state → conf (list T) (client T) → Prop;
  stack_init_sees cs : stack_for cs → stack_sees (stack_init cs) (Conf [] cs);
  stack_simulates a s s' t : stack_sees s t → stack_step a s = Some s' →
    ∃ t', stack_sees s' t' ∧ (t' = t ∨ ∃ b, atomic_step b t = Some t');
  stack_rest s t cs : stack_sees s t → stack_clients s = Some cs → threads t = cs;
  stack_settles s t : stack_sees s t →
    ∃ s' t', reach stack_step s s' ∧ reach atomic_step t t' ∧ stack_sees s' t' ∧
      stack_clients s' = Some (threads t');
  stack_operates s t b t' : stack_sees s t → stack_clients s = Some (threads t) →
    atomic_step b t = Some t' →
    ∃ s', reach stack_step s s' ∧ stack_sees s' t' ∧ stack_clients s' = Some (threads t') }.

(** * The program *)

(** [main] with its [std::latch latch{2}]: each thread arrives once and goes on when the
    count is 0. *)
Section program.
Context (St : Stack Z).

Record main_state := Main { latch : nat; arrived : list bool; stack : stack_state }.

Inductive main_action :=
  | Arrive (i : nat)
  | Use (a : stack_action).

Definition main_step (a : main_action) (m : main_state) : option main_state :=
  match a with
  | Arrive i =>
      match arrived m !! i with
      | Some false => Some (Main (latch m - 1) (<[i:=true]> (arrived m)) (stack m))
      | _ => None
      end
  | Use a =>
      if bool_decide (latch m = 0) then Main (latch m) (arrived m) <$> stack_step a (stack m) else None
  end.

Definition main_init (NumberOfElements : nat) : main_state :=
  Main 2 [false; false] (stack_init (spsc_main NumberOfElements)).

(** Both threads have returned, so that [main] can join them. *)
Definition main_ends (m : main_state) (cs : list (client Z)) : Prop :=
  stack_clients (stack m) = Some cs ∧ Forall (λ c, client_done c = true) cs.
End program.

Arguments Main {St} _ _ _.
Arguments latch {St} _.
Arguments arrived {St} _.
Arguments stack {St} _.
Arguments Arrive {St} _.
Arguments Use {St} _.
Arguments main_step {St} _ _.
Arguments main_ends {St} _ _.

(** * Lemmas *)

Section clients.
Context {T : Type}.
Implicit Types (cs : list (client T)) (t : conf (list T) (client T)).

(** All values of the program, wherever they are. *)
Definition everything t : list T :=
  shared t ++ concat (to_push <$> threads t) ++ concat (has <$> threads t).

Lemma received_app (l k : list (option T)) : received (l ++ k) = received l ++ received k.
Proof. apply omap_app. Qed.

(** Moving a value between the stack and a client keeps [everything]. *)
Lemma everything_move (g g' : list T) ts i l l' :
  ts !! i = Some l →
  g' ++ to_push l' ++ has l' ≡ₚ g ++ to_push l ++ has l →
  everything (Conf g' (<[i:=l']> ts)) ≡ₚ everything (Conf g ts).
Proof.
  intros Hl E. unfold everything; simpl.
  pose proof (concat_insert to_push ts _ l l' Hl) as Hp.
  pose proof (concat_insert has ts _ l l' Hl) as Hh.
  set (P := concat (to_push <$> ts)) in *. set (H := concat (has <$> ts)) in *.
  set (P' := concat (to_push <$> <[i:=l']> ts)) in *.
  set (H' := concat (has <$> <[i:=l']> ts)) in *.
  apply (Permutation_app_inv_l (to_push l ++ has l)).
  transitivity (g' ++ (to_push l ++ P') ++ (has l ++ H')); [perm_app|].
  rewrite Hp, Hh. transitivity ((g' ++ to_push l' ++ has l') ++ P ++ H); [perm_app|].
  rewrite E. perm_app.
Qed.

Lemma everything_step a t t' : atomic_step a t = Some t' → everything t' ≡ₚ everything t.
Proof.
  destruct t as [g ts]. intros (l & g' & l' & Hl & Hs & ->)%conf_step_inv. simpl in *.
  apply (everything_move _ _ _ _ _ _ Hl). unfold atomic_tstep in Hs.
  destruct l as [[|v todo]|want rs]; simplify_eq/=.
  - rewrite !app_nil_r. apply Permutation_middle.
  - destruct (wants_more want rs); [|done].
    destruct g as [|v g]; simplify_eq/=; rewrite received_app; simpl.
    + by rewrite app_nil_r.
    + rewrite app_assoc. by rewrite <- Permutation_cons_append.
Qed.

Lemma everything_reach t t' : reach atomic_step t t' → everything t' ≡ₚ everything t.
Proof. induction 1 as [|a t1 t2 _ IH Hs]; [done|]. by rewrite (everything_step _ _ _ Hs). Qed.

Lemma received_bound_step want (rs : list (option T)) o :
  wants_more want rs = true → length (received (rs ++ [o])) ≤ want.
Proof.
  unfold wants_more. rewrite received_app, length_app. intros ?%Nat.ltb_lt.
  destruct o; simpl; lia.
Qed.

(** No consumer receives more than it wants. *)
Definition modest (c : client T) : Prop :=
  match c with Producer _ => True | Consumer want rs => length (received rs) ≤ want end.

Lemma modest_reach t t' :
  Forall modest (threads t) → reach atomic_step t t' → Forall modest (threads t').
Proof.
  intros H. apply (reach_inv _ (λ t, Forall modest (threads t))); [done|].
  intros a t1 t2 HF (l & g' & l' & Hl & Hs & ->)%conf_step_inv. simpl.
  apply Forall_insert; [done|]. unfold atomic_tstep in Hs.
  destruct l as [[|v todo]|want rs]; simplify_eq/=; [done|].
  destruct (wants_more want rs) eqn:E; [|done].
  destruct (shared t1); simplify_eq/=; by apply received_bound_step.
Qed.
End clients.

(** What an implementation does, the promise explains. *)
Section refinement.
Context {T : Type} {St : Stack T}.

Lemma stack_refines cs s :
  stack_for cs → reach stack_step (stack_init cs) s →
  ∃ t, reach atomic_step (Conf [] cs) t ∧ stack_sees s t.
Proof.
  intros Hf. apply (simulation_reach stack_step atomic_step stack_sees stack_simulates).
  by apply stack_init_sees.
Qed.

Lemma done_has (cs : list (client T)) :
  Forall (λ c, client_done c = true) cs → concat (to_push <$> cs) = [].
Proof.
  induction 1 as [|c cs Hc _ IH]; [done|].
  rewrite fmap_cons. cbn [concat]. rewrite IH, app_nil_r.
  by destruct c as [[|]|].
Qed.

(** What the promise can do, an implementation at rest can do. *)
Lemma stack_follows s t t' :
  stack_sees s t → stack_clients s = Some (threads t) → reach atomic_step t t' →
  ∃ s', reach stack_step s s' ∧ stack_sees s' t' ∧ stack_clients s' = Some (threads t').
Proof.
  intros Hs Hc. induction 1 as [|b t1 t2 _ (s1 & Hr1 & Hs1 & Hc1) Hb]; [exists s; by repeat constructor|].
  destruct (stack_operates _ _ _ _ Hs1 Hc1 Hb) as (s2 & Hr2 & Hs2 & Hc2).
  exists s2. split; [by eapply reach_trans|done].
Qed.
End refinement.

(** The two threads of [main] in the promise: they keep their roles, and every number is
    somewhere. *)
Definition spsc_inv (N : nat) (t : conf (list Z) (client Z)) : Prop :=
  ∃ todo rs, threads t = [Producer todo; Consumer N rs] ∧ length (received rs) ≤ N ∧
    shared t ++ todo ++ received rs ≡ₚ Z.of_nat <$> seq 0 N.

Lemma spsc_inv_reach N t : reach atomic_step (Conf [] (spsc_main N)) t → spsc_inv N t.
Proof.
  intros Ht. assert (∃ todo rs, threads t = [Producer todo; Consumer N rs]) as (todo & rs & E).
  { revert Ht. apply (reach_inv _ (λ t, ∃ todo rs, threads t = [Producer todo; Consumer N rs])); [by eexists _, _|].
    intros a t1 t2 (todo & rs & E) (l & g' & l' & Hl & Hs & ->)%conf_step_inv.
    rewrite E in *. destruct (tid a) as [|[|]]; simplify_eq/=.
    + destruct todo; simplify_eq/=. eauto.
    + destruct (wants_more N rs); [|done]. destruct (shared t1); simplify_eq/=; eauto. }
  pose proof (everything_reach _ _ Ht) as Hall. unfold everything in Hall. rewrite E in Hall. cbn in Hall.
  rewrite !app_nil_r in Hall. exists todo, rs. split_ands; [done| |done].
  assert (Forall modest (threads t)) as Hm by (eapply modest_reach; [|done]; repeat constructor; simpl; lia).
  rewrite E, !Forall_cons_iff in Hm. naive_solver.
Qed.

Lemma spsc_inv_length N t todo rs :
  threads t = [Producer todo; Consumer N rs] → shared t ++ todo ++ received rs ≡ₚ Z.of_nat <$> seq 0 N →
  length (shared t) + length todo + length (received rs) = N.
Proof. intros _ HL%Permutation_length. rewrite !length_app, length_fmap, length_seq in HL. lia. Qed.

(** When both are done, nothing is left on the stack. *)
Lemma spsc_inv_done N t :
  spsc_inv N t → Forall (λ c, client_done c = true) (threads t) →
  ∃ rs, threads t = [Producer []; Consumer N rs] ∧ received rs ≡ₚ Z.of_nat <$> seq 0 N.
Proof.
  intros (todo & rs & E & _ & Hall) Hd. pose proof (spsc_inv_length _ _ _ _ E Hall) as HL.
  rewrite E, !Forall_cons_iff in Hd. destruct Hd as (Hp & Hw & _). cbn in Hp, Hw.
  destruct todo as [|z todo]; [|done]. apply negb_true_iff, Nat.ltb_ge in Hw.
  exists rs. split; [done|]. destruct (shared t) as [|z st]; [done|]. cbn in HL. lia.
Qed.

(** Push what is left, then pop. *)
Lemma spsc_inv_end N t :
  spsc_inv N t → ∃ t', reach atomic_step t t' ∧ spsc_inv N t' ∧ Forall (λ c, client_done c = true) (threads t').
Proof.
  intros HI. destruct (descend_to_goal atomic_step (spsc_inv N)
    (λ t, spsc_inv N t ∧ Forall (λ c, client_done c = true) (threads t))
    (λ t, 2 * length (concat (to_push <$> threads t)) + length (shared t)) t) as (sched & t' & Hr & HP); [|done|].
  2:{ exists t'. split; [by eapply run_reach|done]. }
  clear t HI. intros [st ts] (todo & rs & E & Hle & Hall). cbn [threads shared] in *. subst ts.
  pose proof (spsc_inv_length N (Conf st _) _ _ eq_refl Hall) as HL. cbn [shared] in HL.
  destruct todo as [|z todo]; [destruct st as [|z st]|].
  - left. split; [by exists [], rs|]. cbn in HL. repeat constructor.
    apply negb_true_iff, Nat.ltb_ge. lia.
  - right. exists (Act 1 tt), (Conf st [Producer []; Consumer N (rs ++ [Some z])]).
    assert (wants_more N rs = true) as Hw by (unfold wants_more; rewrite Nat.ltb_lt; cbn in HL; lia).
    unfold atomic_step, conf_step. cbn -[wants_more]. rewrite Hw. split_ands; [done| |cbn; lia].
    exists [], (rs ++ [Some z]). split_ands; [done|by apply received_bound_step|].
    rewrite received_app, <- Hall. cbn [received omap list_omap id shared app].
    by rewrite app_assoc, <- Permutation_cons_append.
  - right. exists (Act 0 tt), (Conf (z :: st) [Producer todo; Consumer N rs]).
    split_ands; [done| |cbn; lia]. exists todo, rs. split_ands; [done|done|].
    rewrite <- Hall. cbn. by rewrite <- Permutation_middle.
Qed.

(** * The program with an implementation *)

Section program_runs.
Context {St : Stack Z}.

Lemma use_reach m s :
  latch m = 0 → reach stack_step (stack m) s → reach main_step m (Main (latch m) (arrived m) s).
Proof.
  intros Hl. induction 1 as [|a s1 s2 _ IH Hs]; [destruct m; constructor|].
  eapply (reach_step _ _ (Use a)); [done|]. cbn. by rewrite bool_decide_true, Hs.
Qed.

(** The threads that have not arrived are those the latch counts. *)
Lemma main_reach N m :
  reach main_step (main_init St N) m →
  reach stack_step (stack_init (spsc_main N)) (stack m) ∧
  (latch m = count negb (arrived m) ∧ length (arrived m) = 2).
Proof.
  apply (reach_inv _ (λ m, reach stack_step (stack_init (spsc_main N)) (stack m) ∧
    (latch m = count negb (arrived m) ∧ length (arrived m) = 2))); [split; [constructor|done]|].
  intros [i|a] m1 m2 (Hr & Hl & Hn) Hs; cbn in Hs.
  - destruct (arrived m1 !! i) as [[]|] eqn:E; simplify_eq/=. split; [done|]. rewrite length_insert.
    pose proof (count_insert negb _ _ _ true E) as Hc. cbn in Hc. lia.
  - case_bool_decide; [|done]. destruct (stack_step a (stack m1)) eqn:E; simplify_eq/=.
    split; [by eapply reach_step|done].
Qed.

(** The threads can arrive. *)
Lemma main_starts m :
  latch m = count negb (arrived m) →
  ∃ m', reach main_step m m' ∧ latch m' = 0 ∧ stack m' = stack m.
Proof.
  intros HI. destruct (descend_to_goal main_step (λ m', latch m' = count negb (arrived m') ∧ stack m' = stack m)
    (λ m', latch m' = 0 ∧ stack m' = stack m) latch m) as (sched & m' & Hr & HP); [|done|].
  2:{ exists m'. split; [by eapply run_reach|done]. }
  intros m1 (Hl & Hst). destruct (Forall_or_witness id (arrived m1)) as [HF|(i & b & Hi & Hb)].
  - left. split; [|done]. rewrite Hl. unfold count. clear -HF. induction HF as [|[] ? ? ? IH]; done.
  - right. destruct b; [done|]. pose proof (count_insert negb _ _ _ true Hi) as Hc. cbn [negb Nat.b2n] in Hc.
    exists (Arrive i). eexists. cbn [main_step]. rewrite Hi. cbn [latch arrived stack].
    split_ands; [done|cbn [latch arrived]; lia|done|cbn [latch]; lia].
Qed.
End program_runs.

(** * Properties *)

(** C17: The program is right with any stack that keeps the promise, in which operations
    under way can be finished and an operation can be made when no other is under way.
    Whatever the threads have done, they can be brought to the end of [main], and however
    they come to the end, the consumer has received exactly the numbers 0 to
    [NumberOfElements] - 1, each once. *)
Theorem spsc_main_correct (St : Stack Z) N m :
  stack_for (spsc_main N) → reach main_step (main_init St N) m →
  (∃ m' cs, reach main_step m m' ∧ main_ends m' cs) ∧
  ∀ m' cs, reach main_step m m' → main_ends m' cs →
    ∃ rs, cs = [Producer []; Consumer N rs] ∧ received rs ≡ₚ Z.of_nat <$> seq 0 N.
Proof.
  intros Hf Hr. split.
  - destruct (main_reach _ _ Hr) as (_ & Hl & _). destruct (main_starts m Hl) as (m1 & Hm1 & Hz & Est).
    destruct (main_reach _ _ (reach_trans _ _ _ _ Hr Hm1)) as (Hs & _).
    destruct (stack_refines _ _ Hf Hs) as (t & Ht & Hse).
    destruct (stack_settles _ _ Hse) as (s1 & t1 & Hs1 & Ht1 & Hse1 & Hc1).
    destruct (spsc_inv_end N t1) as (t2 & Ht2 & _ & Hd).
    { apply spsc_inv_reach. by eapply reach_trans. }
    destruct (stack_follows _ _ _ Hse1 Hc1 Ht2) as (s2 & Hs2 & _ & Hc2).
    exists (Main (latch m1) (arrived m1) s2), (threads t2). split; [|done].
    eapply reach_trans; [done|]. apply use_reach; [done|]. by eapply reach_trans.
  - intros m' cs Hm' [Hc Hd]. destruct (main_reach _ _ (reach_trans _ _ _ _ Hr Hm')) as (Hs & _).
    destruct (stack_refines _ _ Hf Hs) as (t & Ht & Hse).
    rewrite <- (stack_rest _ _ _ Hse Hc) in *. apply spsc_inv_done; [by apply spsc_inv_reach|done].
Qed.
