(* ===== verification/MutexStack.v ===== *)
(** [SPSCStack] of lock_free/spsc_stack.cpp: a [std::stack] behind a mutex.

    One step is one access to the shared state: taking or releasing [m_mtx]
    (a thread that finds it taken cannot move), or one call on [m_stack].
    [MutexStack] proves that it keeps the promise of [Stacks] for any number of
    producers and consumers, and the program of [main] is then right by
    [spsc_main_correct]. *)

From S2P Require Import Prelude Machine Stacks.
From stdpp Require Import options.

Section mutex_stack.
Context {T : Type}.

(** * The machine *)

(** The members; the mutex is the thread that holds it. *)
Record SPSCStack := SPSC { m_mtx : option nat; m_stack : list T }.

(** A thread between two accesses: outside the class; holding the lock in
    [Push] or [Pop]; in [Pop] after [m_stack.top()]; about to release the lock
    at the end of the scope. *)
Inductive sthread :=
  | Outside (c : client T)
  | PushLocked (value : T) (todo : list T)
  | PopLocked (want : nat) (results : list (option T))
  | PopTop (result : T) (want : nat) (results : list (option T))
  | Leaving (c : client T).

Definition spsc_tstep (i : nat) (_ : unit) (g : SPSCStack) (l : sthread) :
    option (SPSCStack * sthread) :=
  match l with
  | Outside (Producer (value :: todo)) =>
      match m_mtx g with
      | None => Some (SPSC (Some i) (m_stack g), PushLocked value todo)
      | Some _ => None
      end
  | Outside (Producer []) => None
  | Outside (Consumer want results) =>
      if wants_more want results then
        match m_mtx g with
        | None => Some (SPSC (Some i) (m_stack g), PopLocked want results)
        | Some _ => None
        end
      else None
  | PushLocked value todo =>
      Some (SPSC (m_mtx g) (value :: m_stack g), Leaving (Producer todo))
  | PopLocked want results =>
      match m_stack g with
      | [] => Some (g, Leaving (Consumer want (results ++ [None])))
      | top :: _ => Some (g, PopTop top want results)
      end
  | PopTop result want results =>
      match m_stack g with
      | [] => None
      | _ :: rest => Some (SPSC (m_mtx g) rest, Leaving (Consumer want (results ++ [Some result])))
      end
  | Leaving c => Some (SPSC None (m_stack g), Outside c)
  end.

Definition spsc_step : act unit → conf SPSCStack sthread → option (conf SPSCStack sthread) :=
  conf_step spsc_tstep.

Definition spsc_init (cs : list (client T)) : conf SPSCStack sthread :=
  Conf (SPSC None []) (Outside <$> cs).

Definition at_rest (l : sthread) : option (client T) :=
  match l with Outside c => Some c | _ => None end.

(** The clients when all threads are outside the class. *)
Definition spsc_clients (c : conf SPSCStack sthread) : option (list (client T)) :=
  mapM at_rest (threads c).

(** * The promise *)

Definition locked (l : sthread) : bool :=
  match l with Outside _ => false | _ => true end.

(** The client as the promise sees it: done with the operation as soon as the
    contents have changed. *)
Definition client_of (l : sthread) : client T :=
  match l with
  | Outside c | Leaving c => c
  | PushLocked value todo => Producer (value :: todo)
  | PopLocked want results | PopTop _ want results => Consumer want results
  end.

(** What a thread inside the lock knows of the contents. *)
Definition knows (g : SPSCStack) (l : sthread) : Prop :=
  match l with
  | PopLocked want results => wants_more want results = true
  | PopTop result want results =>
      wants_more want results = true ∧ head (m_stack g) = Some result
  | _ => True
  end.

Record spsc_sees (c : conf SPSCStack sthread) (t : conf (list T) (client T)) : Prop := {
  sees_contents : shared t = m_stack (shared c);
  sees_clients : threads t = client_of <$> threads c;
  sees_owner i l : threads c !! i = Some l →
    (locked l = true ↔ m_mtx (shared c) = Some i);
  sees_owned i : m_mtx (shared c) = Some i → is_Some (threads c !! i);
  sees_knows i l : threads c !! i = Some l → knows (shared c) l }.

Lemma spsc_init_sees cs : spsc_sees (spsc_init cs) (Conf [] cs).
Proof.
  split; simpl; try done.
  - induction cs; csimpl; congruence.
  - intros i l (c & -> & _)%list_lookup_fmap_Some. done.
  - intros i l (c & -> & _)%list_lookup_fmap_Some. done.
Qed.

(** A step of thread [i] that takes, keeps or releases the lock: the lock is
    its own or free before and its own or free after. *)
Lemma spsc_sees_step c t i l g' l' s' :
  spsc_sees c t → threads c !! i = Some l →
  (m_mtx (shared c) = None ∨ m_mtx (shared c) = Some i) →
  m_mtx g' = (if locked l' then Some i else None) → knows g' l' → m_stack g' = s' →
  spsc_sees (Conf g' (<[i:=l']> (threads c))) (Conf s' (<[i:=client_of l']> (threads t))).
Proof.
  intros [Hc Hcl Ho Hd Hk] Hl Hfree Hm Hkn <-. split; simpl; try done.
  - by rewrite Hcl, list_fmap_insert.
  - intros j x [[-> ->]|[Hne Hj]]%list_lookup_insert_Some'.
    + rewrite Hm. destruct (locked l'); naive_solver.
    + rewrite (Ho _ _ Hj), Hm. destruct (locked l'); naive_solver.
  - intros j Hj. rewrite Hm in Hj. destruct (locked l'); simplify_eq.
    rewrite list_lookup_insert_eq; [done|]. by eapply lookup_lt_Some.
  - intros j x [[-> ->]|[Hne Hj]]%list_lookup_insert_Some'; [done|].
    assert (locked x = false) as Hx.
    { destruct (locked x) eqn:E; [|done]. apply (Ho _ _ Hj) in E. naive_solver. }
    by destruct x.
Qed.

(** A step the promise does not notice. *)
Lemma spsc_sees_silent c t i l g' l' :
  spsc_sees c t → threads c !! i = Some l →
  (m_mtx (shared c) = None ∨ m_mtx (shared c) = Some i) →
  m_mtx g' = (if locked l' then Some i else None) → knows g' l' →
  m_stack g' = m_stack (shared c) → client_of l' = client_of l →
  spsc_sees (Conf g' (<[i:=l']> (threads c))) t.
Proof.
  intros HS Hl Hfree Hm Hk Hst Hcl.
  pose proof (spsc_sees_step c t i l g' l' _ HS Hl Hfree Hm Hk Hst) as H.
  destruct t as [st ts]. rewrite <- (sees_contents _ _ HS), Hcl in H. simpl in *.
  rewrite (list_insert_id ts) in H; [done|].
  pose proof (sees_clients _ _ HS) as E. simpl in E. rewrite E, list_lookup_fmap, Hl. done.
Qed.

(** A step the promise makes too. *)
Lemma spsc_sees_loud c t i l g' l' :
  spsc_sees c t → threads c !! i = Some l →
  (m_mtx (shared c) = None ∨ m_mtx (shared c) = Some i) →
  m_mtx g' = (if locked l' then Some i else None) → knows g' l' →
  atomic_tstep i tt (m_stack (shared c)) (client_of l) = Some (m_stack g', client_of l') →
  ∃ t', spsc_sees (Conf g' (<[i:=l']> (threads c))) t' ∧ ∃ b, atomic_step b t = Some t'.
Proof.
  intros HS Hl Hfree Hm Hk Hat. eexists. split; [by eapply spsc_sees_step|].
  exists (Act i tt). unfold atomic_step, conf_step. simpl.
  rewrite (sees_clients _ _ HS) at 1. rewrite list_lookup_fmap, Hl. simpl.
  by rewrite (sees_contents _ _ HS), Hat.
Qed.

Lemma spsc_simulates a c c' t :
  spsc_sees c t → spsc_step a c = Some c' →
  ∃ t', spsc_sees c' t' ∧ (t' = t ∨ ∃ b, atomic_step b t = Some t').
Proof.
  intros HS (l & g' & l' & Hl & Hs & ->)%conf_step_inv.
  destruct (sees_owner _ _ HS _ _ Hl) as [Ho _]. pose proof (sees_knows _ _ HS _ _ Hl) as Hk.
  destruct l as [[[|v todo]|want rs]|v todo|want rs|v want rs|cl]; simpl in Hs, Ho, Hk;
    try specialize (Ho eq_refl); try done.
  - destruct (m_mtx (shared c)) eqn:E; simplify_eq.
    exists t. split; [|by left]. eapply spsc_sees_silent; eauto.
  - destruct (wants_more want rs) eqn:Hw, (m_mtx (shared c)) eqn:E; simplify_eq.
    exists t. split; [|by left]. eapply spsc_sees_silent; eauto.
  - simplify_eq. edestruct spsc_sees_loud as (t' & ? & ?); eauto; simpl; eauto.
  - destruct (m_stack (shared c)) as [|top rest] eqn:E; simplify_eq.
    + edestruct spsc_sees_loud as (t' & ? & ?); eauto; simpl; eauto. by rewrite Hk, E.
    + exists t. split; [|by left]. eapply spsc_sees_silent; eauto. simpl. by rewrite E.
  - destruct Hk as [Hw Hh]. destruct (m_stack (shared c)) as [|top rest] eqn:E; simplify_eq/=.
    edestruct spsc_sees_loud as (t' & ? & ?); eauto; simpl; eauto. by rewrite Hw, E.
  - simplify_eq. exists t. split; [|by left]. eapply spsc_sees_silent; eauto.
Qed.

(** ** Progress *)

Lemma spsc_clients_all c :
  (∀ i l, threads c !! i = Some l → locked l = false) →
  spsc_clients c = Some (client_of <$> threads c).
Proof.
  intros H. apply mapM_Some, Forall2_fmap_r, Forall_Forall2_diag, Forall_lookup.
  intros i l Hl. specialize (H _ _ Hl). by destruct l.
Qed.

Lemma spsc_rest c t cs : spsc_sees c t → spsc_clients c = Some cs → threads t = cs.
Proof.
  intros HS H%mapM_Some. rewrite (sees_clients _ _ HS).
  induction H as [|l cl ls cls Hl _ IH]; [done|]. csimpl. rewrite IH.
  by destruct l; simplify_eq/=.
Qed.

(** The thread that holds the lock can move. *)
Lemma locked_moves c t i l :
  spsc_sees c t → threads c !! i = Some l → locked l = true →
  is_Some (spsc_tstep i tt (shared c) l).
Proof.
  intros HS Hl Hk. pose proof (sees_knows _ _ HS _ _ Hl) as Hkn.
  destruct l as [| | |v want rs|]; simpl in *; try done; destruct (m_stack (shared c)); eauto; try done.
  by destruct Hkn.
Qed.

Lemma unlocked_rest c t : spsc_sees c t → m_mtx (shared c) = None → spsc_clients c = Some (threads t).
Proof.
  intros HS E. rewrite (sees_clients _ _ HS). apply spsc_clients_all. intros i l Hl.
  destruct (locked l) eqn:Ek; [|done]. apply (sees_owner _ _ HS _ _ Hl) in Ek. congruence.
Qed.

(** The steps to the end of the scope. *)
Definition phase (l : sthread) : nat :=
  match l with
  | Outside _ => 0
  | Leaving _ => 1
  | PushLocked _ _ | PopTop _ _ _ => 2
  | PopLocked _ _ => 3
  end.

Definition holder_phase (c : conf SPSCStack sthread) : nat :=
  default 0 (i ← m_mtx (shared c); l ← threads c !! i; Some (phase l)).

Lemma holder_descends c t i :
  spsc_sees c t → m_mtx (shared c) = Some i →
  ∃ c', spsc_step (Act i tt) c = Some c' ∧ holder_phase c' < holder_phase c.
Proof.
  intros HS E. destruct (sees_owned _ _ HS _ E) as [l Hl].
  assert (locked l = true) as Hk by (by apply (sees_owner _ _ HS _ _ Hl)).
  destruct (conf_step_enabled spsc_tstep i tt c l Hl (locked_moves _ _ _ _ HS Hl Hk)) as [c' Hc'].
  exists c'. split; [done|]. apply conf_step_inv in Hc' as (l1 & g' & l' & Hl1 & Hs & ->).
  cbn in Hl1, Hs. simplify_eq. assert (i < length (threads c)) by (by eapply lookup_lt_Some).
  unfold holder_phase. cbn [shared threads]. rewrite E. cbn. rewrite Hl. cbn.
  destruct l as [|v todo|want rs|v want rs|cl]; cbn in Hs, Hk |- *; try done;
    destruct (m_stack (shared c)); simplify_eq/=; try rewrite E; cbn; rewrite ?list_lookup_insert_eq by done; cbn; lia.
Qed.

Lemma spsc_settles c t :
  spsc_sees c t →
  ∃ c' t', reach spsc_step c c' ∧ reach atomic_step t t' ∧ spsc_sees c' t' ∧ spsc_clients c' = Some (threads t').
Proof.
  intros HS. destruct (descend_to_goal spsc_step (λ c, ∃ t', reach atomic_step t t' ∧ spsc_sees c t')
    (λ c, ∃ t', reach atomic_step t t' ∧ spsc_sees c t' ∧ spsc_clients c = Some (threads t')) holder_phase c)
    as (sched & c' & Hr & t' & Ht' & HS' & Hc').
  - intros c1 (t1 & Ht1 & HS1). destruct (m_mtx (shared c1)) as [i|] eqn:E.
    + right. destruct (holder_descends _ _ _ HS1 E) as (c2 & Hs & Hlt). exists (Act i tt), c2.
      split; [done|]. split; [|done].
      destruct (simulation_reach _ _ _ spsc_simulates _ _ _ HS1 (run_reach _ [Act i tt] _ c2 ltac:(cbn; by rewrite Hs)))
        as (t2 & Ht2 & HS2). exists t2. split; [by eapply reach_trans|done].
    + left. exists t1. split_ands; [done|done|by apply unlocked_rest].
  - exists t. split; [constructor|done].
  - exists c', t'. split; [by eapply run_reach|done].
Qed.

(** An operation of one thread with the lock free. *)
Lemma locked_operation i st cl st' cl' :
  atomic_tstep i tt st cl = Some (st', cl') →
  ∃ n, solo spsc_tstep i (replicate n tt) (SPSC None st) (Outside cl) = Some (SPSC None st', Outside cl').
Proof.
  destruct cl as [[|v todo]|want rs]; intros H; cbn -[wants_more] in H; [done| |].
  - exists 3. simplify_eq. done.
  - destruct (wants_more want rs) eqn:Hw; [|done].
    destruct st; simplify_eq; [exists 3|exists 4]; cbn -[wants_more]; by rewrite Hw.
Qed.

Lemma spsc_operates c t b t' :
  spsc_sees c t → spsc_clients c = Some (threads t) → atomic_step b t = Some t' →
  ∃ c', reach spsc_step c c' ∧ spsc_sees c' t' ∧ spsc_clients c' = Some (threads t').
Proof.
  intros HS Hc (cl & st' & cl' & Hcl & Hs & ->)%conf_step_inv. destruct (choice b).
  pose proof (mapM_Some_1 _ _ _ Hc) as HF.
  destruct (Forall2_lookup_r _ _ _ _ _ HF Hcl) as (l & Hl & Hr). destruct l; simplify_eq/=.
  assert (m_mtx (shared c) = None) as Hm.
  { destruct (m_mtx (shared c)) as [j|] eqn:E; [|done]. destruct (sees_owned _ _ HS _ E) as [l Hj].
    pose proof (proj2 (sees_owner _ _ HS _ _ Hj) E) as Hk.
    destruct (Forall2_lookup_l _ _ _ _ _ HF Hj) as (? & _ & ?). by destruct l. }
  rewrite (sees_contents _ _ HS) in Hs. destruct (locked_operation _ _ _ _ _ Hs) as (n & Hn).
  pose proof (spsc_sees_step c t (tid b) _ (SPSC None st') (Outside cl') st' HS Hl (or_introl Hm) eq_refl I eq_refl) as HS'.
  eexists. split; [|split; [exact HS'|by apply (unlocked_rest _ _ HS')]].
  apply (solo_reach _ _ (replicate n tt) _ (Outside cl)); [done|]. destruct (shared c). cbn in *. by subst.
Qed.
End mutex_stack.

Arguments SPSCStack : clear implicits.
Arguments sthread : clear implicits.

#[export] Instance MutexStack T : Stack T := {
  stack_state := conf (SPSCStack T) (sthread T); stack_action := act unit;
  stack_step := spsc_step; stack_init := spsc_init; stack_for _ := True;
  stack_clients := spsc_clients; stack_sees := spsc_sees;
  stack_init_sees cs _ := spsc_init_sees cs;
  stack_simulates := spsc_simulates; stack_rest := spsc_rest;
  stack_settles := spsc_settles; stack_operates := spsc_operates }.

(** * Properties *)

(** C18: [SPSCStack] is linearizable for any number of producers and
    consumers: every state the threads can reach is explained by a run in which
    each [Push] and [Pop] is one atomic step, with the same contents and the same
    results, an operation counting as done once it has changed the contents. *)
Theorem spsc_stack_linearizable (cs : list (client Z)) c :
  reach spsc_step (spsc_init cs) c →
  ∃ t, reach atomic_step (Conf [] cs) t ∧
    shared t = m_stack (shared c) ∧ threads t = client_of <$> threads c.
Proof.
  intros Hr. destruct (stack_refines (St := MutexStack Z) cs c I Hr) as (t & Ht & HS).
  exists t. split_ands; [done|apply (sees_contents _ _ HS)|apply (sees_clients _ _ HS)].
Qed.

(** Two values pushed and popped by two threads; the consumer finds the stack
    empty first and then waits at the lock. *)
Definition two_values : list (act unit) :=
  (λ i, Act i tt) <$> [1; 1; 1; 0; 0; 0; 0; 0; 0; 1; 1; 1; 1; 1; 1; 1; 1].

Lemma spsc_stack_linearizable_witness :
  ∃ c t, run spsc_step two_values (spsc_init (spsc_main 2)) = Some c ∧
    reach atomic_step (Conf [] (spsc_main 2)) t ∧
    shared t = [] ∧ threads t = [Producer []; Consumer 2 [None; Some 1%Z; Some 0%Z]].
Proof.
  destruct (run spsc_step two_values (spsc_init (spsc_main 2))) as [c|] eqn:E;
    [|vm_compute in E; discriminate].
  destruct (spsc_stack_linearizable (spsc_main 2) c (run_reach _ _ _ _ E)) as (t & Ht & Hs & Hc).
  exists c, t. vm_compute in E. injection E as <-. split_ands; [reflexivity|exact Ht|exact Hs|exact Hc].
Defined.

(** After both threads have arrived and the first value has been pushed. *)
Definition one_pushed : list (main_action (MutexStack Z)) :=
  [Arrive 1; Arrive 0] ++ (Use ∘ (λ i, Act i tt) <$> [1; 1; 1; 0; 0]).

Lemma spsc_main_correct_witness :
  ∃ m m' rs, run main_step one_pushed (main_init (MutexStack Z) 2) = Some m ∧
    m_stack (shared (stack m)) = [0%Z] ∧ reach main_step m m' ∧
    spsc_clients (stack m') = Some [Producer []; Consumer 2 rs] ∧ received rs ≡ₚ [0%Z; 1%Z].
Proof.
  destruct (run main_step one_pushed (main_init (MutexStack Z) 2)) as [m|] eqn:E;
    [|vm_compute in E; discriminate].
  destruct (spsc_main_correct (MutexStack Z) 2 m I (run_reach _ _ _ _ E)) as [(m' & cs & Hr & Hc & Hd) H].
  destruct (H m' cs Hr (conj Hc Hd)) as (rs & -> & Hrs).
  exists m, m', rs. split; [reflexivity|]. split; [|exact (conj Hr (conj Hc Hrs))].
  vm_compute in E. injection E as <-. reflexivity.
Defined.
