(* ===== verification/TreiberStack.v ===== *)
(** [LockFreeSPSCStack] of lock_free/spsc_stack.cpp: a linked stack whose head
    is changed by compare-and-swap.

    The heap is explicit: [new] takes any free address, also one freed before,
    [delete] removes a node, and touching a node that is not there is undefined
    behaviour, which ends the thread in the state [Undefined].  One step is one
    access to [m_head] or to a node; a weak compare-and-swap may fail for no
    reason.

    The source asks "Can it be used as MPSC/SPMC/MPMC?".  With one consumer the
    stack keeps the promise of [Stacks] for any number of producers, never
    touches a freed node and loses no node; with two consumers it does touch
    one, and hands out the same node twice. *)

From S2P Require Import Prelude Machine Stacks.
From stdpp Require Import gmap.
From stdpp Require Import options.

Section treiber.
Context {T : Type}.

(** * The machine *)

Definition loc : Type := nat.

Record Node := MkNode { data : T; next : option loc }.

(** [m_head] and the nodes allocated. *)
Record tstack := TStack { m_head : option loc; heap : gmap loc Node }.

(** A thread between two accesses, with its locals. *)
Inductive tthread :=
  | Outside (c : client T)
  | PushLoad (newHead : loc) (todo : list T)
  | PushCas (newHead : loc) (todo : list T)
  | PopTest (oldHead : option loc) (want : nat) (results : list (option T))
  | PopCas (oldHead : loc) (desired : option loc) (want : nat) (results : list (option T))
  | PopMove (oldHead : loc) (want : nat) (results : list (option T))
  | PopDelete (oldHead : loc) (result : T) (want : nat) (results : list (option T))
  | Undefined.

(** What the allocator and the hardware decide: the address [new] returns,
    whether a weak compare-and-swap fails spuriously. *)
Record choice := Choose { address : loc; spurious : bool }.

(** Any access to a node. *)
Definition with_node (g : tstack) (p : loc) (k : Node → tstack * tthread) : tstack * tthread :=
  match heap g !! p with Some n => k n | None => (g, Undefined) end.

Definition set_node (p : loc) (n : Node) (g : tstack) : tstack :=
  TStack (m_head g) (<[p:=n]> (heap g)).

Definition Push_step (ch : choice) (g : tstack) (l : tthread) : option (tstack * tthread) :=
  match l with
  | Outside (Producer (value :: todo)) =>
      match heap g !! address ch with
      | Some _ => None
      | None => Some (set_node (address ch) (MkNode value None) g, PushLoad (address ch) todo)
      end
  | PushLoad newHead todo =>
      Some (with_node g newHead (λ n,
        (set_node newHead (MkNode (data n) (m_head g)) g, PushCas newHead todo)))
  | PushCas newHead todo =>
      Some (with_node g newHead (λ n,
        if bool_decide (m_head g = next n) && negb (spurious ch)
        then (TStack (Some newHead) (heap g), Outside (Producer todo))
        else (set_node newHead (MkNode (data n) (m_head g)) g, PushCas newHead todo)))
  | _ => None
  end.

Definition Pop_step (ch : choice) (g : tstack) (l : tthread) : option (tstack * tthread) :=
  match l with
  | Outside (Consumer want results) =>
      if wants_more want results then Some (g, PopTest (m_head g) want results) else None
  | PopTest None want results => Some (g, Outside (Consumer want (results ++ [None])))
  | PopTest (Some oldHead) want results =>
      Some (with_node g oldHead (λ n, (g, PopCas oldHead (next n) want results)))
  | PopCas oldHead desired want results =>
      Some (if bool_decide (m_head g = Some oldHead) && negb (spurious ch)
            then (TStack desired (heap g), PopMove oldHead want results)
            else (g, PopTest (m_head g) want results))
  | PopMove oldHead want results =>
      Some (with_node g oldHead (λ n, (g, PopDelete oldHead (data n) want results)))
  | PopDelete oldHead result want results =>
      Some (with_node g oldHead (λ _,
        (TStack (m_head g) (delete oldHead (heap g)),
         Outside (Consumer want (results ++ [Some result])))))
  | _ => None
  end.

Definition consumer_thread (l : tthread) : bool :=
  match l with
  | Outside c => consuming c
  | PushLoad _ _ | PushCas _ _ => false
  | _ => true
  end.

Definition treiber_tstep (_ : nat) (ch : choice) (g : tstack) (l : tthread) :
    option (tstack * tthread) :=
  if consumer_thread l then Pop_step ch g l else Push_step ch g l.

Definition treiber_step : act choice → conf tstack tthread → option (conf tstack tthread) :=
  conf_step treiber_tstep.

Definition treiber_init (cs : list (client T)) : conf tstack tthread :=
  Conf (TStack None ∅) (Outside <$> cs).

Definition at_rest (l : tthread) : option (client T) :=
  match l with Outside c => Some c | _ => None end.

Definition treiber_clients (c : conf tstack tthread) : option (list (client T)) :=
  mapM at_rest (threads c).

(** The destructor's loop, on the nodes from [head]; [None] is undefined
    behaviour or fuel too small. *)
Fixpoint destroy (fuel : nat) (head : option loc) (h : gmap loc Node) : option (gmap loc Node) :=
  match head, fuel with
  | None, _ => Some h
  | Some _, O => None
  | Some p, S fuel' => n ← h !! p; destroy fuel' (next n) (delete p h)
  end.

Definition destructor (g : tstack) : option tstack :=
  TStack None <$> destroy (size (heap g)) (m_head g) (heap g).

(** * The promise *)

(** The nodes from [head] and their values. *)
Fixpoint chain (h : gmap loc Node) (head : option loc) (ns : list (loc * T)) : Prop :=
  match ns with
  | [] => head = None
  | (p, v) :: ns' => head = Some p ∧ ∃ q, h !! p = Some (MkNode v q) ∧ chain h q ns'
  end.

(** The node a thread has for itself: not yet, or no longer, on the stack. *)
Definition owns (l : tthread) : option loc :=
  match l with
  | PushLoad p _ | PushCas p _ | PopMove p _ _ | PopDelete p _ _ _ => Some p
  | _ => None
  end.

(** The thread as the promise sees it. *)
Definition sees (h : gmap loc Node) (ns : list (loc * T)) (l : tthread) (c : client T) : Prop :=
  match l with
  | Outside c' => c = c'
  | PushLoad p todo | PushCas p todo => ∃ v q, h !! p = Some (MkNode v q) ∧ c = Producer (v :: todo)
  | PopTest None want rs => c = Consumer want (rs ++ [None])
  | PopTest (Some p) want rs => p ∈ ns.*1 ∧ wants_more want rs = true ∧ c = Consumer want rs
  | PopCas p q want rs =>
      p ∈ ns.*1 ∧ wants_more want rs = true ∧ c = Consumer want rs ∧ ∃ v, h !! p = Some (MkNode v q)
  | PopMove p want rs => ∃ v q, h !! p = Some (MkNode v q) ∧ c = Consumer want (rs ++ [Some v])
  | PopDelete p v want rs => is_Some (h !! p) ∧ c = Consumer want (rs ++ [Some v])
  | Undefined => False
  end.

(** All nodes there are: those on the stack and those owned by a thread. *)
Definition nodes (ns : list (loc * T)) (ls : list tthread) : list loc :=
  ns.*1 ++ omap owns ls.

Record treiber_inv (c : conf tstack tthread) (ns : list (loc * T)) (cs : list (client T)) : Prop := {
  inv_chain : chain (heap (shared c)) (m_head (shared c)) ns;
  inv_sees : Forall2 (sees (heap (shared c)) ns) (threads c) cs;
  inv_nodup : NoDup (nodes ns (threads c));
  inv_nodes p : is_Some (heap (shared c) !! p) ↔ p ∈ nodes ns (threads c);
  inv_single : count consumer_thread (threads c) ≤ 1 }.

Definition treiber_sees (c : conf tstack tthread) (t : conf (list T) (client T)) : Prop :=
  ∃ ns, treiber_inv c ns (threads t) ∧ shared t = ns.*2.

(** ** Frames *)

Lemma chain_frame h h' head ns :
  (∀ p, p ∈ ns.*1 → h' !! p = h !! p) → chain h head ns → chain h' head ns.
Proof.
  revert head. induction ns as [|[p v] ns IH]; intros head Hf; simpl; [done|].
  intros (-> & q & Hp & Hc). split; [done|]. exists q. split.
  - rewrite Hf; [done|]. csimpl. by left.
  - apply IH; [|done]. intros p' Hp'. apply Hf. csimpl. by right.
Qed.

Lemma chain_head h head ns p : chain h head ns → head = Some p → p ∈ ns.*1.
Proof. destruct ns as [|[p' v] ns]; simpl; intros H ->; [done|]. destruct H. simplify_eq. by left. Qed.

Lemma sees_frame h h' ns ns' l c :
  (∀ p, p ∈ ns.*1 ∨ owns l = Some p → h' !! p = h !! p) →
  (consumer_thread l = true → ns.*1 ⊆ ns'.*1) → sees h ns l c → sees h' ns' l c.
Proof.
  intros Hf Hs. destruct l as [| | |[p|]| | | |]; simpl in *; try done.
  - rewrite Hf by auto. done.
  - rewrite Hf by auto. done.
  - intros (Hp & ? & ?). split; [|done]. by apply Hs.
  - intros (Hp & ? & ? & ?). rewrite Hf by auto. split; [|done]. by apply Hs.
  - rewrite Hf by auto. done.
  - rewrite Hf by auto. done.
Qed.

(** ** Accounting for the nodes *)

(** The nodes owned by the threads other than [i]. *)
Definition others (i : nat) (ls : list tthread) : list loc := omap owns (<[i:=Undefined]> ls).

Lemma owns_split i l (ls : list tthread) :
  ls !! i = Some l → omap owns ls ≡ₚ option_list (owns l) ++ others i ls.
Proof.
  unfold others. revert i. induction ls as [|z ls IH]; intros [|i] H; simplify_eq/=.
  - by destruct (owns l).
  - destruct (owns z); simpl; [|by apply IH].
    rewrite (IH _ H). apply Permutation_middle.
Qed.

Lemma owns_split_insert i l l' (ls : list tthread) :
  ls !! i = Some l → omap owns (<[i:=l']> ls) ≡ₚ option_list (owns l') ++ others i ls.
Proof.
  intros Hl. rewrite (owns_split i l').
  - unfold others. by rewrite list_insert_insert_eq.
  - apply list_lookup_insert_eq. by eapply lookup_lt_Some.
Qed.

Lemma owns_others i j (ls : list tthread) l p :
  ls !! j = Some l → j ≠ i → owns l = Some p → p ∈ others i ls.
Proof.
  intros Hl Hne Hp. apply list_elem_of_omap. exists l. split; [|done].
  apply list_elem_of_lookup. exists j. by rewrite list_lookup_insert_ne.
Qed.

Lemma inv_split c ns cs i l :
  treiber_inv c ns cs → threads c !! i = Some l →
  NoDup (ns.*1 ++ option_list (owns l) ++ others i (threads c)) ∧
  ∀ p, is_Some (heap (shared c) !! p) ↔ p ∈ ns.*1 ++ option_list (owns l) ++ others i (threads c).
Proof.
  intros [_ _ Hd Hn _] Hl. unfold nodes in *.
  rewrite (owns_split _ _ _ Hl) in Hd. split; [done|].
  intros p. by rewrite Hn, (owns_split _ _ _ Hl).
Qed.

Lemma other_producers (ls : list tthread) i j l l' :
  count consumer_thread ls ≤ 1 → ls !! i = Some l → ls !! j = Some l' → j ≠ i →
  consumer_thread l = true → consumer_thread l' = false.
Proof.
  intros Hc Hi Hj Hne Hl. destruct (consumer_thread l') eqn:E; [|done].
  destruct Hne. by eapply count_unique.
Qed.

(** What thread [i] has to show for its step. *)
Lemma treiber_inv_step c ns cs i l g' l' ns' cl' :
  treiber_inv c ns cs → threads c !! i = Some l →
  chain (heap g') (m_head g') ns' → sees (heap g') ns' l' cl' →
  NoDup (ns'.*1 ++ option_list (owns l') ++ others i (threads c)) →
  (∀ p, is_Some (heap g' !! p) ↔ p ∈ ns'.*1 ++ option_list (owns l') ++ others i (threads c)) →
  (∀ p, p ∈ ns.*1 ++ others i (threads c) → heap g' !! p = heap (shared c) !! p) →
  (consumer_thread l = true ∨ ns.*1 ⊆ ns'.*1) →
  consumer_thread l' = consumer_thread l →
  treiber_inv (Conf g' (<[i:=l']> (threads c))) ns' (<[i:=cl']> cs).
Proof.
  intros HI Hl Hch Hse Hd Hn Hf Hc Hk. destruct HI as [_ HS _ _ H1].
  split; simpl; try done.
  - apply Forall2_same_length_lookup. split.
    { rewrite !length_insert. by eapply Forall2_length. }
    intros j x y [[-> ->]|[Hne Hj]]%list_lookup_insert_Some' [[? ->]|[? Hy]]%list_lookup_insert_Some';
      try done.
    eapply sees_frame; [| |by eapply Forall2_lookup_lr].
    + intros p [Hp|Hp]; apply Hf, elem_of_app; [by left|right]. by eapply owns_others.
    + intros Hx. destruct Hc as [Hc|Hc]; [|done].
      by rewrite (other_producers _ _ _ _ _ H1 Hl Hj Hne Hc) in Hx.
  - unfold nodes. by rewrite (owns_split_insert _ _ _ _ Hl).
  - intros p. rewrite Hn. unfold nodes. by rewrite (owns_split_insert _ _ _ _ Hl).
  - pose proof (count_insert consumer_thread _ _ _ l' Hl). rewrite Hk in *. lia.
Qed.

(** A step after which the same nodes are on the stack or with the thread. *)
Lemma inv_step_same c ns cs i l g' l' ns' cl' :
  treiber_inv c ns cs → threads c !! i = Some l →
  chain (heap g') (m_head g') ns' → sees (heap g') ns' l' cl' →
  ns'.*1 ++ option_list (owns l') ≡ₚ ns.*1 ++ option_list (owns l) →
  (∀ p, is_Some (heap g' !! p) ↔ is_Some (heap (shared c) !! p)) →
  (∀ p, owns l ≠ Some p → heap g' !! p = heap (shared c) !! p) →
  (consumer_thread l = true ∨ ns.*1 ⊆ ns'.*1) →
  consumer_thread l' = consumer_thread l →
  treiber_inv (Conf g' (<[i:=l']> (threads c))) ns' (<[i:=cl']> cs).
Proof.
  intros HI Hl Hch Hse Hp Hdom Hf Hc Hk. destruct (inv_split _ _ _ _ _ HI Hl) as [Hd Hn].
  eapply treiber_inv_step; try done.
  - by rewrite app_assoc, Hp, <- app_assoc.
  - intros p. by rewrite Hdom, Hn, !app_assoc, Hp.
  - intros p Hin. apply Hf. intros Hown. rewrite Hown in Hd. simpl in Hd.
    rewrite <- Permutation_middle in Hd. by apply NoDup_cons_1_1 in Hd.
Qed.

(** ** The steps *)

(** The promise stays as it is or makes the same operation. *)
Definition explained (i : nat) (ns ns' : list (loc * T)) (cl cl' : client T) : Prop :=
  ns' = ns ∧ cl' = cl ∨ atomic_tstep i tt ns.*2 cl = Some (ns'.*2, cl').

(** A private node that keeps its value may be given another successor. *)
Lemma inv_relink c ns cs i l p v q q' todo cl l' :
  treiber_inv c ns cs → threads c !! i = Some l → owns l = Some p →
  heap (shared c) !! p = Some (MkNode v q) → consumer_thread l = false →
  l' = PushCas p todo → cl = Producer (v :: todo) →
  treiber_inv (Conf (set_node p (MkNode v q') (shared c)) (<[i:=l']> (threads c))) ns (<[i:=cl]> cs).
Proof.
  intros HI Hl Ho Hp Hk -> ->. destruct (inv_split _ _ _ _ _ HI Hl) as [Hd Hn].
  rewrite Ho in Hd. simpl in Hd. rewrite <- Permutation_middle in Hd.
  apply NoDup_cons_1_1 in Hd as Hnew. rewrite elem_of_app in Hnew.
  eapply inv_step_same; try done; simpl.
  - eapply chain_frame; [|by apply HI]. intros p' Hp'. apply lookup_insert_ne. naive_solver.
  - exists v, q'. by rewrite lookup_insert_eq.
  - by rewrite Ho.
  - intros p'. rewrite lookup_insert_is_Some'. naive_solver.
  - intros p' Hne. apply lookup_insert_ne. naive_solver.
  - by right.
Qed.

Lemma treiber_push_preserves c ns cs i l ch g' l' cl :
  treiber_inv c ns cs → threads c !! i = Some l → cs !! i = Some cl →
  consumer_thread l = false → Push_step ch (shared c) l = Some (g', l') →
  ∃ ns' cl', treiber_inv (Conf g' (<[i:=l']> (threads c))) ns' (<[i:=cl']> cs) ∧
    explained i ns ns' cl cl'.
Proof.
  intros HI Hl Hcl Hk Hs. pose proof (Forall2_lookup_lr _ _ _ _ _ _ (inv_sees _ _ _ HI) Hl Hcl) as Hse.
  destruct (inv_split _ _ _ _ _ HI Hl) as [Hd Hn].
  destruct l as [[[|v todo]|]|p todo|p todo| | | | |]; try done; simpl in Hs, Hse.
  - destruct (heap (shared c) !! address ch) eqn:Ha; simplify_eq. set (p := address ch) in *.
    assert (p ∉ ns.*1 ++ others i (threads c)) as Hp by (intros Hp%Hn; rewrite Ha in Hp; by destruct Hp).
    exists ns, (Producer (v :: todo)). split; [|by left].
    eapply treiber_inv_step; try done; simpl.
    + eapply chain_frame; [|by apply HI]. intros p' Hp'. apply lookup_insert_ne.
      rewrite elem_of_app in Hp. naive_solver.
    + exists v, None. by rewrite lookup_insert_eq.
    + rewrite <- Permutation_middle. by constructor.
    + intros p'. rewrite lookup_insert_is_Some', Hn. simpl. rewrite !elem_of_app. set_solver.
    + intros p' Hp'. apply lookup_insert_ne. naive_solver.
    + by right.
  - destruct Hse as (v & q & Hp & ->). unfold with_node in Hs. rewrite Hp in Hs. simplify_eq/=.
    exists ns, (Producer (v :: todo)). split; [|by left]. by eapply inv_relink.
  - destruct Hse as (v & q & Hp & ->). unfold with_node in Hs. rewrite Hp in Hs. simpl in Hs.
    destruct (bool_decide_reflect (m_head (shared c) = q)) as [Hq|Hq]; simpl in Hs;
      [destruct (spurious ch)|]; simplify_eq/=.
    + exists ns, (Producer (v :: todo)). split; [|by left]. by eapply inv_relink.
    + exists ((p, v) :: ns), (Producer todo). split; [|by right].
      eapply inv_step_same; try done; simpl.
      * split; [done|]. eexists. split; [done|]. apply HI.
      * csimpl. rewrite app_nil_r. apply Permutation_cons_append.
      * right. set_solver.
    + exists ns, (Producer (v :: todo)). split; [|by left]. by eapply inv_relink.
Qed.

(** A consumer reads [m_head], at the start or after a failed exchange: finding
    it null is where an unsuccessful [Pop] takes effect. *)
Lemma inv_observe c ns cs i l want rs :
  treiber_inv c ns cs → threads c !! i = Some l →
  consumer_thread l = true → owns l = None → wants_more want rs = true →
  ∃ cl', treiber_inv (Conf (shared c) (<[i:=PopTest (m_head (shared c)) want rs]> (threads c))) ns
           (<[i:=cl']> cs) ∧ explained i ns ns (Consumer want rs) cl'.
Proof.
  intros HI Hl Hk Ho Hw. pose proof (inv_chain _ _ _ HI) as Hch.
  exists (if m_head (shared c) then Consumer want rs else Consumer want (rs ++ [None])).
  split.
  - eapply inv_step_same; try done; simpl; [|by rewrite Ho|by right].
    destruct (m_head (shared c)) eqn:E; simpl; [|done].
    split; [|done]. by eapply chain_head.
  - destruct (m_head (shared c)) eqn:E; [by left|right]. simpl. rewrite Hw.
    destruct ns as [|[p v] ns]; [done|]. by destruct Hch.
Qed.

Lemma treiber_pop_preserves c ns cs i l ch g' l' cl :
  treiber_inv c ns cs → threads c !! i = Some l → cs !! i = Some cl →
  consumer_thread l = true → Pop_step ch (shared c) l = Some (g', l') →
  ∃ ns' cl', treiber_inv (Conf g' (<[i:=l']> (threads c))) ns' (<[i:=cl']> cs) ∧
    explained i ns ns' cl cl'.
Proof.
  intros HI Hl Hcl Hk Hs. pose proof (Forall2_lookup_lr _ _ _ _ _ _ (inv_sees _ _ _ HI) Hl Hcl) as Hse.
  destruct (inv_split _ _ _ _ _ HI Hl) as [Hd Hn]. pose proof (inv_chain _ _ _ HI) as Hch.
  destruct l as [[|want rs]| | |[p|] want rs|p q want rs|p want rs|p v want rs|]; try done; simpl in Hs, Hse.
  - destruct (wants_more want rs) eqn:Hw; simplify_eq. exists ns. by eapply inv_observe.
  - destruct Hse as (Hp & Hw & ->).
    assert (is_Some (heap (shared c) !! p)) as [[v q] Hv] by (apply Hn, elem_of_app; by left).
    unfold with_node in Hs. rewrite Hv in Hs. simplify_eq/=.
    exists ns, (Consumer want rs). split; [|by left].
    eapply inv_step_same; try done; simpl; eauto.
  - simplify_eq. exists ns, (Consumer want (rs ++ [None])). split; [|by left].
    eapply inv_step_same; try done; simpl; eauto.
  - destruct Hse as (Hp & Hw & -> & v & Hv).
    destruct (bool_decide_reflect (m_head (shared c) = Some p)) as [Hh|Hh]; simpl in Hs;
      [destruct (spurious ch)|]; simplify_eq/=;
      [exists ns; by eapply inv_observe| |exists ns; by eapply inv_observe].
    destruct ns as [|[p' v'] ns]; simpl in Hch; [congruence|].
    destruct Hch as (E & q' & Hv' & Hch). rewrite Hh in E. simplify_eq.
    exists ns, (Consumer want (rs ++ [Some v])). split; [|right; simpl; by rewrite Hw].
    eapply inv_step_same; try done; simpl; eauto.
    csimpl. rewrite app_nil_r. symmetry. apply Permutation_cons_append.
  - destruct Hse as (v & q & Hv & ->). unfold with_node in Hs. rewrite Hv in Hs. simplify_eq/=.
    exists ns, (Consumer want (rs ++ [Some v])). split; [|by left].
    eapply inv_step_same; try done; simpl; eauto.
  - destruct Hse as (Hv & ->). destruct Hv as [n Hv]. unfold with_node in Hs. rewrite Hv in Hs.
    simplify_eq/=. exists ns, (Consumer want (rs ++ [Some v])). split; [|by left].
    rewrite <- Permutation_middle in Hd. apply NoDup_cons in Hd as [Hp Hd].
    assert (∀ p', p' ∈ ns.*1 ++ others i (threads c) →
      delete p (heap (shared c)) !! p' = heap (shared c) !! p') as Hf.
    { intros p' Hp'. apply lookup_delete_ne. naive_solver. }
    eapply treiber_inv_step; try done; simpl; eauto.
    + eapply chain_frame; [|done]. intros p' Hp'. apply Hf, elem_of_app. by left.
    + intros p'. rewrite lookup_delete_is_Some, Hn. set_solver.
Qed.

Lemma treiber_simulates a c c' t :
  treiber_sees c t → treiber_step a c = Some c' →
  ∃ t', treiber_sees c' t' ∧ (t' = t ∨ ∃ b, atomic_step b t = Some t').
Proof.
  intros (ns & HI & Hst) (l & g' & l' & Hl & Hs & ->)%conf_step_inv.
  destruct (Forall2_lookup_l _ _ _ _ _ (inv_sees _ _ _ HI) Hl) as (cl & Hcl & _).
  assert (∃ ns' cl', treiber_inv (Conf g' (<[tid a:=l']> (threads c))) ns' (<[tid a:=cl']> (threads t)) ∧
    explained (tid a) ns ns' cl cl') as (ns' & cl' & HI' & He).
  { unfold treiber_tstep in Hs. destruct (consumer_thread l) eqn:Hk;
      [by eapply treiber_pop_preserves|by eapply treiber_push_preserves]. }
  exists (Conf ns'.*2 (<[tid a:=cl']> (threads t))). split; [by exists ns'|].
  destruct t as [st cs]; simpl in *. destruct He as [[-> ->]|He]; [left|right].
  - by rewrite list_insert_id, Hst.
  - exists (Act (tid a) tt). unfold atomic_step, conf_step. simpl. by rewrite Hcl, Hst; simpl; rewrite He.
Qed.

Lemma treiber_init_sees cs :
  count consuming cs ≤ 1 → treiber_sees (treiber_init cs) (Conf [] cs).
Proof.
  intros Hc. exists []. split; [|done].
  assert (nodes [] (Outside <$> cs) = []) as E.
  { unfold nodes. simpl. induction cs; [done|]. csimpl. apply IHcs. unfold count in *. simpl in Hc. lia. }
  split; simpl; rewrite ?E; try done.
  - by apply Forall2_fmap_l, Forall_Forall2_diag, Forall_true.
  - constructor.
  - intros p. rewrite lookup_empty. split; [by intros []|by intros ?%elem_of_nil].
  - by rewrite count_fmap.
Qed.

(** ** Progress *)

Lemma treiber_rest c t cs : treiber_sees c t → treiber_clients c = Some cs → threads t = cs.
Proof.
  intros (ns & HI & _) H%mapM_Some. pose proof (inv_sees _ _ _ HI) as HS.
  revert HS. generalize (heap (shared c)), (threads t). induction H as [|l cl ls cls Hl _ IH];
    intros h ts HS; inversion HS as [|? y ? ts' Hy HS']; subst; [done|].
  destruct l; simplify_eq/=. f_equal. by eapply IH.
Qed.

Lemma chain_unique h ns ns' : ∀ head, chain h head ns → chain h head ns' → ns = ns'.
Proof.
  revert ns'. induction ns as [|[p v] ns IH]; intros [|[p' v'] ns'] head; simpl; naive_solver.
Qed.

(** A state at rest has one explanation. *)
Lemma treiber_sees_rest c t ns cs :
  treiber_sees c t → treiber_clients c = Some cs → chain (heap (shared c)) (m_head (shared c)) ns → t = Conf ns.*2 cs.
Proof.
  intros HS Hc Hch. pose proof (treiber_rest _ _ _ HS Hc) as E. destruct HS as (ns' & HI & Hst).
  destruct t as [st ts]. cbn in *. subst. by rewrite (chain_unique _ _ _ _ (inv_chain _ _ _ HI) Hch).
Qed.

(** No thread ever waits for another: a thread inside an operation, run alone, gets out
    of it. *)
Definition finishes (i : nat) (g : tstack) (l : tthread) : Prop :=
  ∃ chs g' cl, solo treiber_tstep i chs g l = Some (g', Outside cl).

Lemma finishes_step i ch g l g' l' :
  treiber_tstep i ch g l = Some (g', l') → finishes i g' l' → finishes i g l.
Proof. intros Hs (chs & g2 & cl & Hc). exists (ch :: chs), g2, cl. cbn. by rewrite Hs. Qed.

Lemma push_finishes i g p n todo :
  heap g !! p = Some n → finishes i g (PushCas p todo) ∧ finishes i g (PushLoad p todo).
Proof.
  intros Hp. set (g1 := set_node p (MkNode (data n) (m_head g)) g).
  assert (finishes i g1 (PushCas p todo)) as H1.
  { exists [Choose 0 false], (TStack (Some p) (heap g1)), (Producer todo).
    unfold treiber_tstep. cbn. unfold with_node. cbn. rewrite lookup_insert_eq. cbn. by rewrite bool_decide_true. }
  split.
  - destruct (decide (m_head g = next n)) as [E|E].
    + exists [Choose 0 false], (TStack (Some p) (heap g)), (Producer todo).
      unfold treiber_tstep. cbn. unfold with_node. rewrite Hp. by rewrite bool_decide_true.
    + apply (finishes_step i (Choose 0 false) _ _ g1 (PushCas p todo)); [|done].
      unfold treiber_tstep. cbn. unfold with_node. rewrite Hp. by rewrite bool_decide_false.
  - apply (finishes_step i (Choose 0 false) _ _ g1 (PushCas p todo)); [|done].
    unfold treiber_tstep. cbn. unfold with_node. by rewrite Hp.
Qed.

Lemma pop_tail_finishes i g p n v want rs :
  heap g !! p = Some n → finishes i g (PopDelete p v want rs) ∧ finishes i g (PopMove p want rs).
Proof.
  intros Hp. assert (∀ v, finishes i g (PopDelete p v want rs)) as H.
  { intros v'. eexists [Choose 0 false], _, _. unfold treiber_tstep. cbn. unfold with_node. by rewrite Hp. }
  split; [done|]. apply (finishes_step i (Choose 0 false) _ _ g (PopDelete p (data n) want rs)); [|done].
  unfold treiber_tstep. cbn. unfold with_node. by rewrite Hp.
Qed.

(** The exchange on the current head succeeds; one on an old head fails and is tried again
    on the current one. *)
Lemma pop_fresh_finishes i g want rs :
  (∀ p, m_head g = Some p → is_Some (heap g !! p)) → finishes i g (PopTest (m_head g) want rs).
Proof.
  intros Hh. destruct (m_head g) as [p|] eqn:E; [|by eexists [Choose 0 false], _, _].
  destruct (Hh p eq_refl) as [n Hp].
  apply (finishes_step i (Choose 0 false) _ _ g (PopCas p (next n) want rs)).
  { unfold treiber_tstep. cbn. unfold with_node. by rewrite Hp. }
  apply (finishes_step i (Choose 0 false) _ _ (TStack (next n) (heap g)) (PopMove p want rs)).
  { unfold treiber_tstep. cbn. by rewrite E, bool_decide_true. }
  by apply (pop_tail_finishes i (TStack (next n) (heap g)) p n (data n)).
Qed.

Lemma pop_cas_finishes i g p q n want rs :
  (∀ p, m_head g = Some p → is_Some (heap g !! p)) → heap g !! p = Some n → finishes i g (PopCas p q want rs).
Proof.
  intros Hh Hp. destruct (decide (m_head g = Some p)) as [E|E].
  - apply (finishes_step i (Choose 0 false) _ _ (TStack q (heap g)) (PopMove p want rs)).
    { unfold treiber_tstep. cbn. by rewrite E, bool_decide_true. }
    by apply (pop_tail_finishes i (TStack q (heap g)) p n (data n)).
  - apply (finishes_step i (Choose 0 false) _ _ g (PopTest (m_head g) want rs)); [|by apply pop_fresh_finishes].
    unfold treiber_tstep. cbn. by rewrite bool_decide_false.
Qed.

Lemma inside_finishes c ns cs i l :
  treiber_inv c ns cs → threads c !! i = Some l → finishes i (shared c) l.
Proof.
  intros HI Hl. destruct (Forall2_lookup_l _ _ _ _ _ (inv_sees _ _ _ HI) Hl) as (cl & _ & Hs).
  assert (∀ p, p ∈ ns.*1 → is_Some (heap (shared c) !! p)) as Hns.
  { intros p Hp. apply (inv_nodes _ _ _ HI), elem_of_app. by left. }
  assert (∀ p, m_head (shared c) = Some p → is_Some (heap (shared c) !! p)) as Hh.
  { intros p Hp. apply Hns. eapply chain_head; [apply HI|done]. }
  destruct l as [c'|p todo|p todo|[p|] want rs|p q want rs|p want rs|p v want rs|]; cbn in Hs; [..|done].
  - by exists [], (shared c), c'.
  - destruct Hs as (v & q & Hp & _). by apply (push_finishes i _ _ _ todo Hp).
  - destruct Hs as (v & q & Hp & _). by apply (push_finishes i _ _ _ todo Hp).
  - destruct Hs as (Hp & _). destruct (Hns p Hp) as [n Hn].
    apply (finishes_step i (Choose 0 false) _ _ (shared c) (PopCas p (next n) want rs)); [|by eapply pop_cas_finishes].
    unfold treiber_tstep. cbn. unfold with_node. by rewrite Hn.
  - by eexists [Choose 0 false], _, _.
  - destruct Hs as (_ & _ & _ & v & Hp). by eapply pop_cas_finishes.
  - destruct Hs as (v & q & Hp & _). by apply (pop_tail_finishes i _ _ _ v want rs Hp).
  - destruct Hs as ([n Hp] & _). by apply (pop_tail_finishes i _ _ _ v want rs Hp).
Qed.

Definition inside (l : tthread) : bool := match l with Outside _ => false | _ => true end.

Lemma treiber_settles c t :
  treiber_sees c t →
  ∃ c' t', reach treiber_step c c' ∧ reach atomic_step t t' ∧ treiber_sees c' t' ∧
    treiber_clients c' = Some (threads t').
Proof.
  remember (count inside (threads c)) as k eqn:Ek. revert c t Ek.
  induction (lt_wf k) as [k _ IH]. intros c t -> HS.
  destruct (Forall_or_witness (negb ∘ inside) (threads c)) as [HF|(i & l & Hl & Hd)].
  - exists c, t. split_ands; [constructor|constructor|done|].
    destruct (mapM at_rest (threads c)) as [cs|] eqn:E.
    + by rewrite (treiber_rest _ _ _ HS E).
    + apply mapM_None, Exists_exists in E as (l & Hin & Hl).
      rewrite Forall_forall in HF. specialize (HF l Hin). by destruct l.
  - pose proof HS as (ns & HI & _). destruct (inside_finishes _ _ _ _ _ HI Hl) as (chs & g' & cl & Hsolo).
    pose proof (solo_reach _ _ _ _ _ _ _ Hl Hsolo) as Hr.
    destruct (simulation_reach _ _ _ treiber_simulates _ _ _ HS Hr) as (t1 & Ht1 & HS1).
    pose proof (count_insert inside _ _ _ (Outside cl) Hl) as Hc. cbn in Hd. apply negb_false_iff in Hd.
    rewrite Hd in Hc. cbn [Nat.b2n inside] in Hc.
    destruct (IH (count inside (<[i:=Outside cl]> (threads c))) ltac:(lia) (Conf g' (<[i:=Outside cl]> (threads c))) t1 eq_refl HS1)
      as (c2 & t2 & Hr2 & Ht2 & HS2 & Hc2).
    exists c2, t2. split_ands; [by eapply reach_trans|by eapply reach_trans|done|done].
Qed.

(** A whole operation of one thread. *)
Lemma lone_operation i g ns cl st' cl' :
  chain (heap g) (m_head g) ns → NoDup ns.*1 → atomic_tstep i tt ns.*2 cl = Some (st', cl') →
  ∃ chs g' ns', solo treiber_tstep i chs g (Outside cl) = Some (g', Outside cl') ∧
    chain (heap g') (m_head g') ns' ∧ ns'.*2 = st'.
Proof.
  intros Hch Hd. destruct cl as [[|v todo]|want rs]; intros H; cbn -[wants_more] in H; [done| |].
  - set (p := fresh (dom (heap g))). assert (heap g !! p = None) as Hp by apply not_elem_of_dom_1, is_fresh.
    exists [Choose p false; Choose p false; Choose p false],
      (TStack (Some p) (<[p:=MkNode v (m_head g)]> (heap g))), ((p, v) :: ns). simplify_eq. refine (conj _ (conj (conj eq_refl _) eq_refl)).
    + unfold treiber_tstep. cbn. rewrite Hp. cbn. unfold with_node. cbn. rewrite lookup_insert_eq. cbn. unfold with_node. cbn.
      rewrite lookup_insert_eq. cbn. by rewrite bool_decide_true, insert_insert_eq.
    + exists (m_head g). split; [apply lookup_insert_eq|]. eapply chain_frame; [|done].
      intros p' Hp'. apply lookup_insert_ne. intros <-.
      clear -Hch Hp Hp'. revert Hch Hp'. generalize (m_head g).
      induction ns as [|[p' v'] ns IH]; intros h; cbn; [by intros _ ?%elem_of_nil|].
      intros (-> & q & Hq & Hc) [->|Hin]%elem_of_cons; [congruence|by eapply IH].
  - destruct (wants_more want rs) eqn:Hw; [|done]. destruct ns as [|[p v] ns]; cbn in Hch, H; simplify_eq.
    + exists [Choose 0 false; Choose 0 false], g, []. split_ands; [|done|done].
      unfold treiber_tstep. cbn -[wants_more]. rewrite Hw. cbn. by rewrite Hch.
    + destruct Hch as (Hh & q & Hp & Hch). apply NoDup_cons in Hd as [Hnp _].
      exists (replicate 5 (Choose 0 false)), (TStack q (delete p (heap g))), ns. split_ands; [|idtac|done].
      * unfold treiber_tstep. cbn -[wants_more]. rewrite Hw. cbn. rewrite Hh. cbn. unfold with_node. cbn.
        rewrite Hp. cbn. rewrite Hh, bool_decide_true by done. cbn. unfold with_node. cbn. rewrite Hp. cbn.
        unfold with_node. cbn. by rewrite Hp.
      * eapply chain_frame; [|done]. intros p' Hp'. apply lookup_delete_ne. by intros <-.
Qed.

Lemma treiber_operates c t b t' :
  treiber_sees c t → treiber_clients c = Some (threads t) → atomic_step b t = Some t' →
  ∃ c', reach treiber_step c c' ∧ treiber_sees c' t' ∧ treiber_clients c' = Some (threads t').
Proof.
  intros HS Hc (cl & st' & cl' & Hcl & Hs & ->)%conf_step_inv. destruct (Machine.choice b).
  pose proof (mapM_Some_1 _ _ _ Hc) as HF. pose proof HS as (ns & HI & Hst). rewrite Hst in Hs.
  destruct (Forall2_lookup_r _ _ _ _ _ HF Hcl) as (l & Hl & Hr). destruct l; simplify_eq/=.
  pose proof (inv_nodup _ _ _ HI) as Hd. apply NoDup_app in Hd as [Hd _].
  destruct (lone_operation _ _ _ _ _ _ (inv_chain _ _ _ HI) Hd Hs) as (chs & g' & ns' & Hsolo & Hch & Hst').
  pose proof (solo_reach _ _ _ _ _ _ _ Hl Hsolo) as Hrun.
  destruct (simulation_reach _ _ _ treiber_simulates _ _ _ HS Hrun) as (t1 & _ & HS1).
  assert (treiber_clients (Conf g' (<[tid b:=Outside cl']> (threads c))) = Some (<[tid b:=cl']> (threads t))) as Hc'.
  { apply mapM_Some, Forall2_insert; [done|done]. }
  eexists. split; [exact Hrun|]. cbn [threads]. split; [|exact Hc'].
  by rewrite <- Hst', <- (treiber_sees_rest _ _ _ _ HS1 Hc' Hch).
Qed.

(** ** The destructor *)

Lemma destroy_chain fuel h head ns :
  chain h head ns → NoDup ns.*1 → length ns ≤ fuel →
  ∃ h', destroy fuel head h = Some h' ∧ ∀ p, h' !! p = if decide (p ∈ ns.*1) then None else h !! p.
Proof.
  revert fuel h head. induction ns as [|[p v] ns IH]; intros fuel h head Hc Hd Hf; simpl in *.
  - subst head. exists h. split; by destruct fuel.
  - destruct Hc as (-> & q & Hp & Hc). csimpl in *. apply NoDup_cons in Hd as [Hp' Hd].
    destruct fuel as [|fuel]; [lia|]. cbn [destroy]. rewrite Hp. cbn [mbind option_bind next].
    destruct (IH fuel (delete p h) q) as (h' & E & Hh); [|done|lia|].
    { eapply chain_frame; [|done]. intros p2 Hp2. apply lookup_delete_ne. naive_solver. }
    exists h'. split; [done|]. intros p2. rewrite Hh.
    destruct (decide (p2 = p)) as [->|Hne]; [rewrite lookup_delete_eq|rewrite lookup_delete_ne by done];
      repeat case_decide; set_solver.
Qed.

Lemma chain_size h (ns : list (loc * T)) :
  NoDup ns.*1 → (∀ p, p ∈ ns.*1 → is_Some (h !! p)) → length ns ≤ size (h : gmap loc Node).
Proof.
  intros Hd Hp. rewrite <- size_dom, <- (length_fmap fst), <- (size_list_to_set (C := gset loc)) by done.
  apply subseteq_size. intros p Hin%elem_of_list_to_set. by apply elem_of_dom, Hp.
Qed.

Lemma destructor_frees c ns cs :
  treiber_inv c ns cs → omap owns (threads c) = [] → destructor (shared c) = Some (TStack None ∅).
Proof.
  intros HI Ho. pose proof (inv_nodup _ _ _ HI) as Hd. unfold nodes in Hd.
  rewrite Ho, app_nil_r in Hd.
  assert (∀ p, is_Some (heap (shared c) !! p) ↔ p ∈ ns.*1) as Hn.
  { intros p. rewrite (inv_nodes _ _ _ HI). unfold nodes. by rewrite Ho, app_nil_r. }
  destruct (destroy_chain (size (heap (shared c))) _ _ _ (inv_chain _ _ _ HI) Hd) as (h' & E & Hh).
  { apply chain_size; [done|]. intros p Hp. by apply Hn. }
  unfold destructor. rewrite E. simpl. f_equal. f_equal. apply map_eq. intros p.
  rewrite Hh, lookup_empty. case_decide; [done|]. by rewrite eq_None_not_Some, Hn.
Qed.

Lemma rest_owns ls cs : mapM at_rest ls = Some cs → omap owns ls = [].
Proof.
  intros H%mapM_Some. induction H as [|l cl ls cls Hl _ IH]; [done|]. simpl. by destruct l.
Qed.
End treiber.

Arguments tstack : clear implicits.
Arguments tthread : clear implicits.
Arguments Node : clear implicits.

#[export] Instance TreiberStack T : Stack T := {
  stack_state := conf (tstack T) (tthread T); stack_action := act choice;
  stack_step := treiber_step; stack_init := treiber_init;
  stack_for cs := count consuming cs ≤ 1;
  stack_clients := treiber_clients; stack_sees := treiber_sees;
  stack_init_sees := treiber_init_sees;
  stack_simulates := treiber_simulates; stack_rest := treiber_rest;
  stack_settles := treiber_settles; stack_operates := treiber_operates }.

(** * Properties *)

(** C13: As an MPSC stack it is safe and linearizable.  With any number of
    producers and at most one consumer, in every reachable state no thread has
    touched a freed node, the nodes from [m_head] form a list, and the contents
    and the results are those of a run in which each operation is one atomic
    step. *)
Theorem treiber_mpsc_linearizable (cs : list (client Z)) c :
  count consuming cs ≤ 1 → reach treiber_step (treiber_init cs) c →
  Undefined ∉ threads c ∧
  ∃ t ns, reach atomic_step (Conf [] cs) t ∧
    chain (heap (shared c)) (m_head (shared c)) ns ∧ shared t = ns.*2 ∧
    Forall2 (sees (heap (shared c)) ns) (threads c) (threads t).
Proof.
  intros Hc Hr. destruct (stack_refines (St := TreiberStack Z) cs c Hc Hr) as (t & Ht & ns & HI & Hns).
  pose proof (inv_sees _ _ _ HI) as HS. split.
  - intros [i Hi]%list_elem_of_lookup.
    by destruct (Forall2_lookup_l _ _ _ _ _ HS Hi) as (cl & _ & Hu).
  - exists t, ns. split_ands; [done|apply HI|done|done].
Qed.

(** A producer delayed between its load and its exchange, by another producer
    and by the consumer, which takes the only node and frees it; the address is
    used again. *)
Definition contention : list (act choice) :=
  [Act 0 (Choose 0 false); Act 0 (Choose 0 false); Act 0 (Choose 0 false);
   Act 1 (Choose 1 false); Act 1 (Choose 0 false);
   Act 2 (Choose 0 false); Act 2 (Choose 0 false); Act 2 (Choose 0 false);
   Act 2 (Choose 0 false); Act 2 (Choose 0 false);
   Act 0 (Choose 0 false); Act 0 (Choose 0 false); Act 0 (Choose 0 true);
   Act 1 (Choose 0 false); Act 0 (Choose 0 false); Act 1 (Choose 0 false); Act 1 (Choose 0 false)].

Lemma treiber_mpsc_linearizable_witness :
  ∃ c, run treiber_step contention
         (treiber_init [Producer [10; 11]%Z; Producer [20]%Z; Consumer 3 []]) = Some c ∧
    Undefined ∉ threads c.
Proof.
  destruct (run treiber_step contention
    (treiber_init [Producer [10; 11]%Z; Producer [20]%Z; Consumer 3 []])) as [c|] eqn:E;
    [|vm_compute in E; discriminate].
  exists c. split; [reflexivity|].
  apply (treiber_mpsc_linearizable [Producer [10; 11]%Z; Producer [20]%Z; Consumer 3 []] c).
  - vm_compute. lia.
  - exact (run_reach _ _ _ _ E).
Defined.

(** C19: No node is lost.  Whatever the threads of an MPSC program have done,
    once they are out of the class the destructor walks the list without
    touching a freed node and leaves the heap empty. *)
Theorem treiber_destructor_frees_all (cs : list (client Z)) c cs' :
  count consuming cs ≤ 1 → reach treiber_step (treiber_init cs) c →
  treiber_clients c = Some cs' → destructor (shared c) = Some (TStack None ∅).
Proof.
  intros Hc Hr Hcl. destruct (stack_refines (St := TreiberStack Z) cs c Hc Hr) as (t & _ & ns & HI & _).
  eapply destructor_frees; [done|]. by eapply rest_owns.
Qed.

Lemma treiber_destructor_frees_all_witness :
  ∃ c, run treiber_step contention
         (treiber_init [Producer [10; 11]%Z; Producer [20]%Z; Consumer 1 []]) = Some c ∧
    m_head (shared c) = Some 1 ∧ destructor (shared c) = Some (TStack None ∅).
Proof.
  destruct (run treiber_step contention
    (treiber_init [Producer [10; 11]%Z; Producer [20]%Z; Consumer 1 []])) as [c|] eqn:E;
    [|vm_compute in E; discriminate].
  exists c. split; [reflexivity|].
  pose proof (treiber_destructor_frees_all [Producer [10; 11]%Z; Producer [20]%Z; Consumer 1 []] c
    [Producer []; Producer []; Consumer 1 [Some 10%Z]] ltac:(vm_compute; lia) (run_reach _ _ _ _ E)) as H.
  split; [|apply H]; vm_compute in E; injection E as <-; reflexivity.
Defined.

(** Thread [i] takes [n] steps, nothing failing spuriously. *)
Definition steps (i n : nat) (a : loc) : list (act choice) := replicate n (Act i (Choose a false)).

(** Two consumers read the head; the first takes the node and frees it, the
    second reads its [next]. *)
Definition freed_node : list (act choice) :=
  steps 0 3 7 ++ steps 1 1 0 ++ steps 2 1 0 ++ steps 1 4 0 ++ steps 2 1 0.

(** A consumer is delayed before its exchange, another one empties the stack,
    and the producer pushes a node at the address of the old head. *)
Definition reused_node : list (act choice) :=
  steps 0 3 7 ++ steps 0 3 8 ++ steps 1 2 0 ++ steps 2 10 0 ++ steps 0 3 8 ++ steps 1 3 0.

(** As an SPMC stack it is not safe.  With two consumers there is a
    run in which one of them reads a freed node, and one in which the exchange
    succeeds on a reused address and leaves [m_head] on a freed node. *)
Theorem treiber_spmc_unsafe :
  (∃ c, run treiber_step freed_node
          (treiber_init [Producer [1]%Z; Consumer 1 []; Consumer 1 []]) = Some c ∧
     threads c !! 2 = Some Undefined) ∧
  (∃ c p, run treiber_step reused_node
          (treiber_init [Producer [1; 2; 3]%Z; Consumer 1 []; Consumer 2 []]) = Some c ∧
     threads c = [Outside (Producer []); Outside (Consumer 1 [Some 3%Z]);
                  Outside (Consumer 2 [Some 2%Z; Some 1%Z])] ∧
     m_head (shared c) = Some p ∧ heap (shared c) !! p = None ∧ destructor (shared c) = None).
Proof.
  split.
  - eexists. split; vm_compute; reflexivity.
  - eexists _, _. split; [vm_compute; reflexivity|]. split_ands; vm_compute; reflexivity.
Qed.
