(* ===== verification/BufferedStack.v ===== *)
(** [BufferedLockFreeSPSCStack] of lock_free/spsc_stack.cpp and
    ipc/shm_atomics.cpp: an array and an atomic counter.

    [Push] first moves the counter and then writes the element, [Pop] first
    moves the counter and then reads it.  So the counter is always right: the
    indices stay in the array for any number of threads, and as many values
    come out as went in.  But the two accesses to an element are not ordered:
    a [Pop] between the two steps of a [Push] returns what the element held
    before.  A thread whose calls are not disturbed sees a bounded stack.

    In C++ two such accesses to an element are a data race.  Here each is one read or
    write of memory that takes effect at once, which is what the counters and the
    indices do not depend on; the stale read is one of the outcomes. *)

From S2P Require Import Prelude Machine Stacks.
From stdpp Require Import options.

Local Open Scope Z_scope.

Section buffered.
Context {T : Type}.

(** * The machine *)

Record bstack := BStack { m_head : Z; m_buffer : list T }.

(** [std::array<T, Capacity> m_buffer{}]: every element has its default value. *)
Definition bstack_init (Capacity : nat) (dflt : T) : bstack :=
  BStack 0 (replicate Capacity dflt).

(** A thread between two accesses: outside, at the exchange, at the element.
    The producer calls [while (!stack.Push(i))], so that a full stack and a
    failed exchange both lead back to the load of [m_head]; a [Pop] whose
    exchange fails also goes back there, without returning. *)
Inductive bthread :=
  | Outside (c : client T)
  | PushCas (top : Z) (value : T) (todo : list T)
  | PushWrite (top : Z) (value : T) (todo : list T)
  | PopCas (top : Z) (want : nat) (results : list (option T))
  | PopRead (top : Z) (want : nat) (results : list (option T))
  | Undefined.

(** [top + 1] on [int]; an overflow is undefined. *)
Definition int_add (a b : Z) : option Z :=
  if bool_decide (is_i32 (a + b)) then Some (a + b) else None.

(** The test [top == Capacity] compares in [size_t]. *)
Definition is_full (Capacity : nat) (top : Z) : bool := u64_wrap top =? Z.of_nat Capacity.

(** [m_buffer[i]]: outside the array, undefined. *)
Definition index (g : bstack) (i : Z) : option nat :=
  if bool_decide (0 ≤ i < Z.of_nat (length (m_buffer g))) then Some (Z.to_nat i) else None.

Definition BPush_step (spurious : bool) (g : bstack) (l : bthread) : option (bstack * bthread) :=
  match l with
  | Outside (Producer (value :: todo)) =>
      if is_full (length (m_buffer g)) (m_head g)
      then Some (g, Outside (Producer (value :: todo)))
      else Some (g, PushCas (m_head g) value todo)
  | PushCas top value todo =>
      match int_add top 1 with
      | None => Some (g, Undefined)
      | Some top' =>
          if (m_head g =? top) && negb spurious
          then Some (BStack top' (m_buffer g), PushWrite top value todo)
          else Some (g, Outside (Producer (value :: todo)))
      end
  | PushWrite top value todo =>
      match index g top with
      | Some i => Some (BStack (m_head g) (<[i:=value]> (m_buffer g)), Outside (Producer todo))
      | None => Some (g, Undefined)
      end
  | _ => None
  end.

Definition BPop_step (spurious : bool) (g : bstack) (l : bthread) : option (bstack * bthread) :=
  match l with
  | Outside (Consumer want results) =>
      if wants_more want results then
        if m_head g =? 0
        then Some (g, Outside (Consumer want (results ++ [None])))
        else Some (g, PopCas (m_head g) want results)
      else None
  | PopCas top want results =>
      match int_add top (-1) with
      | None => Some (g, Undefined)
      | Some top' =>
          if (m_head g =? top) && negb spurious
          then Some (BStack top' (m_buffer g), PopRead top want results)
          else Some (g, Outside (Consumer want results))
      end
  | PopRead top want results =>
      match index g (top - 1) with
      | Some i =>
          v ← m_buffer g !! i; Some (g, Outside (Consumer want (results ++ [Some v])))
      | None => Some (g, Undefined)
      end
  | _ => None
  end.

Definition pops (l : bthread) : bool :=
  match l with
  | Outside c => consuming c
  | PopCas _ _ _ | PopRead _ _ _ => true
  | _ => false
  end.

Definition buffered_tstep (_ : nat) (spurious : bool) (g : bstack) (l : bthread) :
    option (bstack * bthread) :=
  if pops l then BPop_step spurious g l else BPush_step spurious g l.

Definition buffered_step : act bool → conf bstack bthread → option (conf bstack bthread) :=
  conf_step buffered_tstep.

Definition buffered_init (Capacity : nat) (dflt : T) (cs : list (client T)) : conf bstack bthread :=
  Conf (bstack_init Capacity dflt) (Outside <$> cs).

(** * The counter *)

(** Values still to push, elements reserved; values received, elements taken. *)
Definition unpushed (l : bthread) : Z :=
  match l with
  | Outside c => Z.of_nat (length (to_push c))
  | PushCas _ _ todo => 1 + Z.of_nat (length todo)
  | PushWrite _ _ todo => Z.of_nat (length todo)
  | _ => 0
  end.

Definition taken (l : bthread) : Z :=
  match l with
  | Outside c => Z.of_nat (length (has c))
  | PopCas _ _ rs => Z.of_nat (length (received rs))
  | PopRead _ _ rs => 1 + Z.of_nat (length (received rs))
  | _ => 0
  end.

(** What a thread knows of its local [top]. *)
Definition top_ok (Capacity : Z) (l : bthread) : Prop :=
  match l with
  | Outside _ => True
  | PushCas top _ _ | PushWrite top _ _ => 0 ≤ top < Capacity
  | PopCas top want rs | PopRead top want rs => 0 < top ≤ Capacity ∧ wants_more want rs = true
  | Undefined => False
  end.

Record buffered_inv (Capacity all : Z) (c : conf bstack bthread) : Prop := {
  inv_buffer : Z.of_nat (length (m_buffer (shared c))) = Capacity;
  inv_head : 0 ≤ m_head (shared c) ≤ Capacity;
  inv_tops : Forall (top_ok Capacity) (threads c);
  inv_count : m_head (shared c) + total unpushed (threads c) + total taken (threads c) = all }.

Lemma buffered_inv_step Capacity all c i l g' l' :
  buffered_inv Capacity all c → threads c !! i = Some l →
  length (m_buffer g') = length (m_buffer (shared c)) → 0 ≤ m_head g' ≤ Capacity →
  top_ok Capacity l' →
  m_head g' + unpushed l' + taken l' = m_head (shared c) + unpushed l + taken l →
  buffered_inv Capacity all (Conf g' (<[i:=l']> (threads c))).
Proof.
  intros [Hb Hh Ht Hc] Hl Hlen Hh' Hok Hsum. split; simpl; [by rewrite Hlen|done| |].
  - by apply Forall_insert.
  - rewrite !(total_insert _ _ _ _ _ Hl). lia.
Qed.

Lemma buffered_push_preserves Capacity all c i l sp g' l' :
  Capacity ≤ INT_MAX → buffered_inv Capacity all c → threads c !! i = Some l → pops l = false →
  BPush_step sp (shared c) l = Some (g', l') →
  buffered_inv Capacity all (Conf g' (<[i:=l']> (threads c))).
Proof.
  intros HC HI Hl Hp Hs. pose proof HI as [Hb Hh Ht _].
  pose proof (proj1 (Forall_lookup _ _) Ht _ _ Hl) as Hok.
  destruct l as [[[|v todo]|]|top v todo|top v todo| | |]; try done; simpl in Hs, Hok.
  - unfold is_full in Hs. rewrite u64_wrap_small in Hs by (unfold INT_MAX in *; lia).
    destruct (Z.eqb_spec (m_head (shared c)) (Z.of_nat (length (m_buffer (shared c)))));
      simplify_eq; eapply buffered_inv_step; simpl; eauto; simpl; lia.
  - unfold int_add in Hs. rewrite bool_decide_true in Hs
      by (unfold is_i32, INT_MIN; lia).
    destruct (Z.eqb_spec (m_head (shared c)) top); simpl in Hs; [destruct sp|];
      simplify_eq/=; eapply buffered_inv_step; simpl; eauto; simpl; lia.
  - unfold index in Hs. rewrite bool_decide_true in Hs by lia. simplify_eq.
    eapply buffered_inv_step; simpl; eauto; by rewrite length_insert.
Qed.

Lemma buffered_pop_preserves Capacity all c i l sp g' l' :
  Capacity ≤ INT_MAX → buffered_inv Capacity all c → threads c !! i = Some l → pops l = true →
  BPop_step sp (shared c) l = Some (g', l') →
  buffered_inv Capacity all (Conf g' (<[i:=l']> (threads c))).
Proof.
  intros HC HI Hl Hp Hs. pose proof HI as [Hb Hh Ht _].
  pose proof (proj1 (Forall_lookup _ _) Ht _ _ Hl) as Hok.
  destruct l as [[|want rs]| | |top want rs|top want rs|]; try done; simpl in Hs, Hok.
  - destruct (wants_more want rs) eqn:Hw; [|done].
    destruct (Z.eqb_spec (m_head (shared c)) 0); simplify_eq; eapply buffered_inv_step; simpl; eauto; simpl;
      rewrite ?received_app, ?length_app; simpl; try (split; [|done]); lia.
  - destruct Hok as [Hok Hw]. unfold int_add in Hs. rewrite bool_decide_true in Hs
      by (unfold is_i32, INT_MIN, INT_MAX in *; lia).
    destruct (Z.eqb_spec (m_head (shared c)) top); simpl in Hs; [destruct sp|];
      simplify_eq/=; eapply buffered_inv_step; simpl; eauto; simpl; lia.
  - destruct Hok as [Hok Hw]. unfold index in Hs. rewrite bool_decide_true in Hs by lia.
    destruct (m_buffer (shared c) !! _) as [v|]; simplify_eq/=.
    eapply buffered_inv_step; simpl; eauto. simpl. rewrite received_app, length_app. simpl. lia.
Qed.

Lemma total_outside (f : client T → list T) (g : bthread → Z) cs :
  (∀ c, g (Outside c) = Z.of_nat (length (f c))) →
  total g (Outside <$> cs) = Z.of_nat (length (concat (f <$> cs))).
Proof.
  intros Hg. induction cs as [|c cs IH]; [done|]. rewrite !fmap_cons. cbn [total foldr concat].
  rewrite Hg, length_app. unfold total in IH. rewrite IH. lia.
Qed.

Lemma buffered_reach Capacity dflt cs c :
  Z.of_nat Capacity ≤ INT_MAX → reach buffered_step (buffered_init Capacity dflt cs) c →
  buffered_inv (Z.of_nat Capacity)
    (Z.of_nat (length (concat (to_push <$> cs)) + length (concat (has <$> cs)))) c.
Proof.
  intros HC. apply reach_inv.
  - split; simpl; [by rewrite length_replicate|lia| |].
    + apply Forall_fmap, Forall_true. done.
    + rewrite (total_outside to_push), (total_outside has) by done. lia.
  - intros a c1 c2 HI (l & g' & l' & Hl & Hs & ->)%conf_step_inv.
    unfold buffered_tstep in Hs. destruct (pops l) eqn:Hp; [by eapply buffered_pop_preserves|by eapply buffered_push_preserves].
Qed.

(** * An undisturbed call *)

(** [n] steps of one thread, none failing spuriously. *)
Fixpoint alone (n : nat) (g : bstack) (l : bthread) : option (bstack * bthread) :=
  match n with
  | O => Some (g, l)
  | S n' => '(g', l') ← buffered_tstep 0 false g l; alone n' g' l'
  end.

(** The elements below the counter are the contents, the newest last. *)
Definition contents (g : bstack) (stack : list T) : Prop :=
  m_head g = Z.of_nat (length stack) ∧ (length stack ≤ length (m_buffer g))%nat ∧
  take (length stack) (m_buffer g) = reverse stack ∧ Z.of_nat (length (m_buffer g)) ≤ INT_MAX.

Lemma alone_push g stack v todo :
  contents g stack → (length stack < length (m_buffer g))%nat →
  ∃ g', alone 3 g (Outside (Producer (v :: todo))) = Some (g', Outside (Producer todo)) ∧
    contents g' (v :: stack) ∧ length (m_buffer g') = length (m_buffer g).
Proof.
  intros (Hh & Hlen & Hb & HC) Hlt. eexists. split; [|split].
  - cbn [alone]. unfold buffered_tstep. cbn [pops consuming BPush_step].
    unfold is_full. rewrite u64_wrap_small by (unfold INT_MAX in *; lia).
    rewrite (proj2 (Z.eqb_neq _ _)) by lia. cbn [mbind option_bind pops BPush_step].
    unfold int_add. rewrite bool_decide_true by (unfold is_i32, INT_MIN, INT_MAX in *; lia).
    rewrite Z.eqb_refl. cbn [andb negb mbind option_bind pops BPush_step].
    unfold index. cbn [m_buffer m_head]. rewrite bool_decide_true by lia. reflexivity.
  - rewrite Hh, Nat2Z.id. split; cbn [m_head m_buffer]; [simpl; lia|].
    rewrite length_insert. simpl length. split_ands; [lia| |done].
    rewrite (take_S_r _ _ v) by (by apply list_lookup_insert_eq).
    rewrite take_insert_ge by lia. by rewrite Hb, reverse_cons.
  - cbn [m_buffer]. apply length_insert.
Qed.

Lemma alone_pop g v stack want rs :
  contents g (v :: stack) → wants_more want rs = true →
  ∃ g', alone 3 g (Outside (Consumer want rs)) = Some (g', Outside (Consumer want (rs ++ [Some v]))) ∧
    contents g' stack ∧ m_buffer g' = m_buffer g.
Proof.
  intros (Hh & Hlen & Hb & HC) Hw. simpl length in *.
  assert (m_buffer g !! length stack = Some v) as Hv.
  { rewrite <- (lookup_take_lt _ (S (length stack))) by lia. rewrite Hb, reverse_cons.
    rewrite lookup_app_r by (by rewrite length_reverse). by rewrite length_reverse, Nat.sub_diag. }
  eexists. split; [|split].
  - cbn [alone]. unfold buffered_tstep. cbn [pops consuming BPop_step]. rewrite Hw.
    rewrite (proj2 (Z.eqb_neq _ _)) by lia. cbn [mbind option_bind pops BPop_step].
    unfold int_add. rewrite bool_decide_true by (unfold is_i32, INT_MIN, INT_MAX in *; lia).
    rewrite Z.eqb_refl. cbn [andb negb mbind option_bind pops BPop_step].
    unfold index. cbn [m_buffer m_head]. rewrite bool_decide_true by lia.
    replace (Z.to_nat (m_head g - 1)) with (length stack) by lia. rewrite Hv. reflexivity.
  - split; cbn [m_head m_buffer]; [lia|]. split_ands; [lia| |done].
    apply (f_equal (take (length stack))) in Hb. rewrite take_take, Nat.min_l in Hb by lia.
    rewrite Hb, reverse_cons. rewrite take_app_le by (by rewrite length_reverse).
    by rewrite take_ge by (by rewrite length_reverse).
  - reflexivity.
Qed.
End buffered.

Arguments bstack : clear implicits.
Arguments bthread : clear implicits.

(** * Progress of the program *)

(** A thread keeps its role: what a consumer wants. *)
Definition role {T} (l : bthread T) : option nat :=
  match l with
  | Outside (Consumer want _) | PopCas _ want _ | PopRead _ want _ => Some want
  | _ => None
  end.

Lemma role_step {T} i sp (g g' : bstack T) l l' :
  buffered_tstep i sp g l = Some (g', l') → l' = Undefined ∨ role l' = role l.
Proof.
  unfold buffered_tstep. destruct (pops l) eqn:Hp; intros Hs;
    destruct l as [[[|]|]| | | | |]; simpl in *; try done; inv_opt; auto.
Qed.

(** * Properties *)

(** C39: The counter is safe for any number of producers and consumers.
    No access leaves the array and no [int] overflows, [m_head] stays between 0
    and the capacity, and it is the number of elements reserved by [Push] less the
    number taken by [Pop]: what is to be pushed, on the stack or received is
    always the same number of values. *)
Theorem buffered_counts Capacity (cs : list (client Z)) c :
  Z.of_nat Capacity ≤ INT_MAX → reach buffered_step (buffered_init Capacity 0 cs) c →
  Undefined ∉ threads c ∧ 0 ≤ m_head (shared c) ≤ Z.of_nat Capacity ∧
  m_head (shared c) + total unpushed (threads c) + total taken (threads c)
  = Z.of_nat (length (concat (to_push <$> cs)) + length (concat (has <$> cs))).
Proof.
  intros HC Hr. pose proof (buffered_reach _ _ _ _ HC Hr) as HI. split; [|split; apply HI].
  intros [i Hi]%list_elem_of_lookup. by apply (proj1 (Forall_lookup _ _) (inv_tops _ _ _ HI) _ _ Hi).
Qed.

(** Two producers and two consumers on two elements, each stopped in the middle
    of its call. *)
Definition crowd : list (act bool) :=
  [Act 0%nat false; Act 1%nat false; Act 1%nat false; Act 2%nat false; Act 0%nat true;
   Act 0%nat false; Act 2%nat false; Act 0%nat false; Act 3%nat false].

Lemma buffered_counts_witness :
  ∃ c, run buffered_step crowd (buffered_init 2 0
         [Producer [1; 2]; Producer [3]; Consumer 1 []; Consumer 1 []]) = Some c ∧
    Undefined ∉ threads c ∧ 0 ≤ m_head (shared c) ≤ 2.
Proof.
  destruct (run buffered_step crowd (buffered_init 2 0
    [Producer [1; 2]; Producer [3]; Consumer 1 []; Consumer 1 []])) as [c|] eqn:E;
    [|vm_compute in E; discriminate].
  exists c. split; [reflexivity|].
  destruct (buffered_counts 2 [Producer [1; 2]; Producer [3]; Consumer 1 []; Consumer 1 []] c)
    as (Hu & Hh & _); [by vm_compute|exact (run_reach _ _ _ _ E)|]. by split.
Defined.

(** ** A step towards the end *)

(** The accesses a thread has before it, within a call: after a counter that has
    changed, the exchange fails and the call starts again. *)
Definition phase (head : Z) {T} (l : bthread T) : nat :=
  match l with
  | Outside c => if client_done c then 0 else 2
  | PushCas top _ _ | PopCas top _ _ => if head =? top then 1 else 3
  | PushWrite _ _ _ | PopRead _ _ _ => 3
  | Undefined => 0
  end.

(** The values that have still to go in and to come out, then the accesses. *)
Definition distance {T} (N : nat) (c : conf (bstack T) (bthread T)) : nat :=
  6 * Z.to_nat (total unpushed (threads c) + (Z.of_nat N - total taken (threads c))) +
  Z.to_nat (total (λ l, Z.of_nat (phase (m_head (shared c)) l)) (threads c)).

(** A producer and a consumer of [N] values. *)
Definition pair_inv {T} (Capacity N : nat) (c : conf (bstack T) (bthread T)) : Prop :=
  buffered_inv (Z.of_nat Capacity) (Z.of_nat N) c ∧ role <$> threads c = [None; Some N].

Definition pair_done {T} (N : nat) (c : conf (bstack T) (bthread T)) : Prop :=
  ∃ rs, threads c = [Outside (Producer []); Outside (Consumer N rs)] ∧
    length (received rs) = N ∧ m_head (shared c) = 0.

Lemma buffered_preserves {T} Capacity all a (c c' : conf (bstack T) (bthread T)) :
  Capacity ≤ INT_MAX → buffered_inv Capacity all c → buffered_step a c = Some c' →
  buffered_inv Capacity all c'.
Proof.
  intros HC HI (l & g' & l' & Hl & Hs & ->)%conf_step_inv. unfold buffered_tstep in Hs.
  destruct (pops l) eqn:Hp; [by eapply buffered_pop_preserves|by eapply buffered_push_preserves].
Qed.

Lemma pair_preserves {T} Capacity N a (c c' : conf (bstack T) (bthread T)) :
  Z.of_nat Capacity ≤ INT_MAX → pair_inv Capacity N c → buffered_step a c = Some c' → pair_inv Capacity N c'.
Proof.
  intros HC [HI Hr] Hs. pose proof (buffered_preserves _ _ _ _ _ HC HI Hs) as HI'. split; [done|].
  pose proof Hs as (l & g' & l' & Hl & Ht & ->)%conf_step_inv. cbn [threads] in *.
  destruct (role_step _ _ _ _ _ _ Ht) as [->|E].
  - exfalso. apply (proj1 (Forall_lookup _ _) (inv_tops _ _ _ HI') (tid a) Undefined).
    apply list_lookup_insert_eq. by eapply lookup_lt_Some.
  - rewrite list_fmap_insert, E, list_insert_id; [done|]. by rewrite list_lookup_fmap, Hl.
Qed.

Lemma pair_threads {T} Capacity N (c : conf (bstack T) (bthread T)) :
  pair_inv Capacity N c → ∃ p q, threads c = [p; q] ∧ role p = None ∧ role q = Some N.
Proof. intros [_ Hr]. destruct (threads c) as [|p [|q [|]]]; simplify_eq/=. by exists p, q. Qed.

(** What one thread has before it.  A step that moves the counter may cost the
    other thread its exchange. *)
Definition cost (head : Z) {T} (l : bthread T) : Z :=
  6 * (unpushed l - taken l) + Z.of_nat (phase head l).

Definition descends {T} (i : nat) (g : bstack T) (l : bthread T) : Prop :=
  ∃ g' l', buffered_tstep i false g l = Some (g', l') ∧
    cost (m_head g') l' + (if m_head g' =? m_head g then 0 else 2) < cost (m_head g) l.

Lemma producer_descends {T} i (g : bstack T) l :
  Z.of_nat (length (m_buffer g)) ≤ INT_MAX → 0 ≤ m_head g → role l = None →
  top_ok (Z.of_nat (length (m_buffer g))) l → l ≠ Outside (Producer []) →
  (∀ c, l = Outside c → m_head g < Z.of_nat (length (m_buffer g))) → descends i g l.
Proof.
  intros HC Hh Hr Hok Hnd Hroom. unfold descends, buffered_tstep, cost.
  destruct l as [[[|v todo]|]|top v todo|top v todo| | |]; try done;
    cbn [pops consuming BPush_step phase client_done unpushed taken to_push has top_ok] in *.
  - specialize (Hroom _ eq_refl). unfold is_full. rewrite u64_wrap_small by (unfold INT_MAX in *; lia).
    rewrite (proj2 (Z.eqb_neq _ _)) by lia. eexists _, _. split; [done|].
    cbn [phase unpushed taken length]. rewrite !Z.eqb_refl. rewrite bool_decide_false by done. lia.
  - unfold int_add. rewrite bool_decide_true by (unfold is_i32, INT_MIN; lia). cbn [negb].
    rewrite andb_true_r. destruct (Z.eqb_spec (m_head g) top) as [->|Hne]; eexists _, _; (split; [done|]).
    + cbn [phase unpushed taken m_head]. rewrite (proj2 (Z.eqb_neq (top + 1) top)) by lia. lia.
    + cbn [phase client_done unpushed taken to_push has length]. rewrite Z.eqb_refl, bool_decide_false by done. lia.
  - unfold index. rewrite bool_decide_true by lia. eexists _, _. split; [done|].
    cbn [m_head phase unpushed taken to_push has length]. rewrite Z.eqb_refl. case_match; lia.
Qed.

Lemma consumer_descends {T} i (g : bstack T) l w :
  Z.of_nat (length (m_buffer g)) ≤ INT_MAX → role l = Some w →
  top_ok (Z.of_nat (length (m_buffer g))) l →
  (∀ c, l = Outside c → client_done c = false ∧ m_head g ≠ 0) → descends i g l.
Proof.
  intros HC Hr Hok Hmore. unfold descends, buffered_tstep, cost.
  destruct l as [[|want rs]| | |top want rs|top want rs|]; try done;
    cbn [pops consuming BPop_step phase unpushed taken to_push has top_ok] in *.
  - destruct (Hmore _ eq_refl) as [Hw%negb_false_iff Hne]. cbn [client_done]. rewrite Hw. cbn [negb].
    rewrite (proj2 (Z.eqb_neq _ _)) by done. eexists _, _. split; [done|].
    cbn [phase unpushed taken]. rewrite !Z.eqb_refl. lia.
  - destruct Hok as [Hok Hw]. unfold int_add. rewrite bool_decide_true by (unfold is_i32, INT_MIN, INT_MAX in *; lia).
    cbn [negb]. rewrite andb_true_r. destruct (Z.eqb_spec (m_head g) top) as [->|Hne]; eexists _, _; (split; [done|]).
    + cbn [phase unpushed taken m_head]. rewrite (proj2 (Z.eqb_neq (top + -1) top)) by lia. lia.
    + cbn [phase client_done unpushed taken to_push has]. rewrite Z.eqb_refl, Hw. cbn. lia.
  - destruct Hok as [Hok Hw]. unfold index. rewrite bool_decide_true by lia.
    destruct (lookup_lt_is_Some_2 (m_buffer g) (Z.to_nat (top - 1))) as [v Hv]; [lia|]. rewrite Hv.
    eexists _, _. split; [done|]. cbn [phase unpushed taken to_push has length].
    rewrite Z.eqb_refl, received_app, length_app. cbn [received omap list_omap id length]. case_match; lia.
Qed.

(** Whoever is inside a call goes on; then the producer, unless the stack is full;
    then the consumer. *)
Lemma pair_chooses {T} Capacity N (c : conf (bstack T) (bthread T)) :
  0 < Z.of_nat Capacity ≤ INT_MAX → pair_inv Capacity N c →
  pair_done N c ∨ ∃ i l, threads c !! i = Some l ∧ descends i (shared c) l.
Proof.
  intros HC HP. destruct (pair_threads _ _ _ HP) as (p & q & Ht & Hp & Hq). pose proof HP as [[Hb Hh Hok Hn] _].
  rewrite Ht in *. apply Forall_cons_1 in Hok as [Hop Hoq]. apply Forall_cons_1 in Hoq as [Hoq _].
  cbn [total foldr] in Hn. rewrite <- Hb in Hop, Hoq.
  assert ((∃ cl, q = Outside cl) ∨ ∀ cl, q ≠ Outside cl) as [[cq ->]|Hqin] by (destruct q; eauto).
  2:{ right. exists 1%nat, q. split; [done|]. eapply consumer_descends; [lia|done..|]. intros cl E. by destruct (Hqin cl). }
  assert ((∃ cl, p = Outside cl) ∨ ∀ cl, p ≠ Outside cl) as [[cp ->]|Hpin] by (destruct p; eauto).
  2:{ right. exists 0%nat, p. split; [done|]. apply producer_descends; try done; try lia. intros cl E. by destruct (Hpin cl). }
  destruct cp as [todo|w0 rs0], cq as [todo0|w1 rs]; simplify_eq/=.
  destruct (Z.ltb_spec (m_head (shared c)) (Z.of_nat (length (m_buffer (shared c))))) as [Hlt|Hfull]; [destruct todo as [|v todo]|].
  - destruct (decide (m_head (shared c) = 0)) as [E0|Hne].
    + left. exists rs. cbn in Hn. split_ands; [done|lia|done].
    + right. exists 1%nat, (Outside (Consumer N rs)). split; [done|]. eapply consumer_descends; [lia|done..|].
      intros cl [= <-]. split; [|done]. cbn. apply negb_false_iff, Nat.ltb_lt. cbn in Hn. lia.
  - right. exists 0%nat, (Outside (Producer (v :: todo))). split; [done|]. apply producer_descends; try done; lia.
  - right. exists 1%nat, (Outside (Consumer N rs)). split; [done|]. eapply consumer_descends; [lia|done..|].
    intros cl [= <-]. split; [|lia]. cbn. apply negb_false_iff, Nat.ltb_lt. cbn in Hn. lia.
Qed.

Lemma unpushed_nonneg {T} (l : bthread T) : 0 ≤ unpushed l.
Proof. destruct l; cbn [unpushed]; lia. Qed.

Lemma phase_moved head head' {T} (l : bthread T) :
  Z.of_nat (phase head' l) ≤ Z.of_nat (phase head l) + (if head' =? head then 0 else 2).
Proof.
  destruct (Z.eqb_spec head' head) as [->|Hne]; [lia|].
  destruct l as [c| | | | |]; cbn; repeat case_match; lia.
Qed.

Lemma pair_descends {T} Capacity N (c : conf (bstack T) (bthread T)) :
  0 < Z.of_nat Capacity ≤ INT_MAX → pair_inv Capacity N c →
  pair_done N c ∨ ∃ a c', buffered_step a c = Some c' ∧ pair_inv Capacity N c' ∧ (distance N c' < distance N c)%nat.
Proof.
  intros HC HP. destruct (pair_chooses _ _ _ HC HP) as [?|(i & l & Hl & g' & l' & Hs & Hlt)]; [by left|right].
  assert (buffered_step (Act i false) c = Some (Conf g' (<[i:=l']> (threads c)))) as Hstep.
  { unfold buffered_step, conf_step. cbn [tid choice]. rewrite Hl. cbn [mbind option_bind]. by rewrite Hs. }
  exists (Act i false), (Conf g' (<[i:=l']> (threads c))).
  assert (pair_inv Capacity N (Conf g' (<[i:=l']> (threads c)))) as HP' by (eapply pair_preserves; [lia|done..]).
  split_ands; [done..|].
  destruct (pair_threads _ _ _ HP) as (p & q & Ht & _ & _). unfold distance. cbn [threads shared].
  destruct HP as [[_ [Hh _] _ Hn] _]. destruct HP' as [[_ [Hh' _] _ Hn'] _]. cbn [threads shared] in *. rewrite Ht in *.
  pose proof (phase_moved (m_head (shared c)) (m_head g') p) as Hmp.
  pose proof (phase_moved (m_head (shared c)) (m_head g') q) as Hmq.
  destruct i as [|[|i]]; [| |done]; simplify_eq/=; unfold cost in Hlt.
  all: pose proof (unpushed_nonneg l); pose proof (unpushed_nonneg l').
  - pose proof (unpushed_nonneg q). lia.
  - pose proof (unpushed_nonneg p). lia.
Qed.

(** From every reachable state of ipc/shm_atomics.cpp's two loops both can be
    brought to their ends; a state without moves is such an end. *)
Lemma pair_can_end {T} Capacity N (c : conf (bstack T) (bthread T)) :
  0 < Z.of_nat Capacity ≤ INT_MAX → pair_inv Capacity N c →
  ∃ sched c', run buffered_step sched c = Some c' ∧ pair_done N c'.
Proof.
  intros HC. apply (descend_to_goal _ (pair_inv Capacity N) _ (distance N)).
  intros c1. by apply pair_descends.
Qed.

Lemma pair_start Capacity N : pair_inv Capacity N (buffered_init Capacity 0 (spsc_main N)).
Proof.
  split; [|done]. split; cbn [shared threads buffered_init bstack_init m_head m_buffer].
  - by rewrite length_replicate.
  - lia.
  - by repeat constructor.
  - unfold spsc_main. csimpl. rewrite length_fmap, length_seq. cbn. lia.
Qed.

(** Calls that are not disturbed implement a bounded stack: [Push] of
    a value on a stack with room puts it on top, on a full one it changes
    nothing and is retried; [Pop] returns the top, or nothing from an empty one. *)
Theorem buffered_alone_is_stack (g : bstack Z) stack v todo want rs :
  contents g stack → wants_more want rs = true →
  (if bool_decide (length stack = length (m_buffer g))
   then alone 1 g (Outside (Producer (v :: todo))) = Some (g, Outside (Producer (v :: todo)))
   else ∃ g', alone 3 g (Outside (Producer (v :: todo))) = Some (g', Outside (Producer todo)) ∧
     contents g' (v :: stack)) ∧
  match stack with
  | [] => alone 1 g (Outside (Consumer want rs)) = Some (g, Outside (Consumer want (rs ++ [None])))
  | top :: rest =>
      ∃ g', alone 3 g (Outside (Consumer want rs)) = Some (g', Outside (Consumer want (rs ++ [Some top]))) ∧
        contents g' rest
  end.
Proof.
  intros Hc Hw. split.
  - case_bool_decide as Hfull.
    + destruct Hc as (Hh & _ & _ & HC). cbn [alone]. unfold buffered_tstep. cbn [pops consuming BPush_step].
      unfold is_full. rewrite u64_wrap_small by (unfold INT_MAX in *; lia).
      by rewrite (proj2 (Z.eqb_eq _ _)) by lia.
    + destruct (alone_push g stack v todo Hc) as (g' & E & Hc' & _); [|by exists g'].
      destruct Hc as (_ & ? & _). lia.
  - destruct stack as [|top rest].
    + destruct Hc as (Hh & _). cbn [alone]. unfold buffered_tstep. cbn [pops consuming BPop_step].
      by rewrite Hw, Hh.
    + destruct (alone_pop g top rest want rs Hc Hw) as (g' & E & Hc' & _). by exists g'.
Qed.

Lemma buffered_alone_is_stack_witness :
  ∃ g', alone 3 (BStack 1 [7; 0]) (Outside (Consumer 1 [])) = Some (g', Outside (Consumer 1 [Some 7])) ∧
    contents g' [].
Proof.
  refine (proj2 (buffered_alone_is_stack (BStack 1 [7; 0]) [7] 8 [] 1 [] _ _)).
  - unfold contents, INT_MAX. simpl. repeat split; lia.
  - reflexivity.
Defined.

(** The consumer pops between the two steps of a push. *)
Definition stale : list (act bool) :=
  (λ i, Act i false) <$> [0; 0; 1; 1]%nat.

(** One producer and one consumer are already too many.  A [Pop]
    between the exchange and the write of a [Push] returns the element's old value
    (here the default 0, which nobody pushed), the pushed value is lost, and both
    threads access the element at the same time. *)
Theorem buffered_pop_reads_stale :
  ∃ c1 c2, run buffered_step stale (buffered_init 1024 0 [Producer [5]; Consumer 1 []]) = Some c1 ∧
    threads c1 = [PushWrite 0 5 []; PopRead 1 1 []] ∧
    run buffered_step [Act 1%nat false; Act 0%nat false] c1 = Some c2 ∧
    threads c2 = [Outside (Producer []); Outside (Consumer 1 [Some 0])] ∧ m_head (shared c2) = 0.
Proof.
  eexists _, _. split; [vm_compute; reflexivity|]. split; [reflexivity|].
  split; [vm_compute; reflexivity|]. split; reflexivity.
Qed.
