(* ===== verification/FutexLatch.v ===== *)
(** futex/latch.cpp: a latch on a futex, and the program that uses it.

    [FUTEX_WAIT] puts the caller to sleep if the word still has the expected
    value, in one step with the test; [FUTEX_WAKE] takes at most [count] threads
    off the word's queue; a sleeper may also wake up for no reason.  One step of
    a thread is one atomic access, one system call or one line printed.

    The workers of [main] count the latch down and wait, the other threads only
    wait.  Shown for any number of both: nobody passes before every worker has
    arrived, no wake-up is lost, and the program ends.  With more arrivals than
    the latch counts it need not end. *)

From S2P Require Import Prelude Machine.
From stdpp Require Import options.

Local Open Scope Z_scope.

(** * The machine *)

(** The lines printed. *)
Inductive line := Finished (worker : nat) | WokeUp (worker : nat) | AllFinished.

#[export] Instance line_eq_dec : EqDecision line.
Proof. solve_decision. Defined.

(** The latch's word, the threads sleeping on it, and the output. *)
Record latch := Latch { m_count : Z; sleepers : list nat; log : list line }.

(** A thread of [main]: a worker before its line and before its call of
    [ArriveAndWait]; in [CountDown] before the wake-up; in [Wait] at the load, at
    the system call, asleep; past the latch; at its end. *)
Inductive thread :=
  | Working | Arriving | Waking | Loading | Waiting (current : Z) | Asleep | Passed | Ended.

#[export] Instance thread_eq_dec : EqDecision thread.
Proof. solve_decision. Defined.

Definition FutexWait (i : nat) (expectedValue : Z) (g : latch) : latch * thread :=
  if m_count g =? expectedValue
  then (Latch (m_count g) (sleepers g ++ [i]) (log g), Asleep) else (g, Loading).

(** [count] is far above any number of threads. *)
Definition FutexWake (count : Z) (g : latch) : latch :=
  Latch (m_count g)
    (if Z.of_nat (length (sleepers g)) <=? count then []
     else drop (Z.to_nat count) (sleepers g)) (log g).

Definition print (l : line) (g : latch) : latch := Latch (m_count g) (sleepers g) (log g ++ [l]).

(** A step without surprises, or a spurious wake-up. *)
Inductive choice := Go | Spurious.

Section latch_main.
Context (WorkersCount : nat).

Definition latch_tstep (i : nat) (ch : choice) (g : latch) (l : thread) : option (latch * thread) :=
  match ch, l with
  | Spurious, Asleep =>
      Some (Latch (m_count g) (filter (λ j, j ≠ i) (sleepers g)) (log g), Loading)
  | Spurious, _ => None
  | Go, Working => Some (print (Finished i) g, Arriving)
  | Go, Arriving =>
      let oldValue := m_count g in
      Some (Latch (i32_wrap (oldValue - 1)) (sleepers g) (log g),
            if oldValue =? 1 then Waking else Loading)
  | Go, Waking => Some (FutexWake INT_MAX g, Loading)
  | Go, Loading =>
      let current := m_count g in
      if current =? 0 then Some (g, Passed) else Some (g, Waiting current)
  | Go, Waiting current => Some (FutexWait i current g)
  | Go, Asleep => if bool_decide (i ∈ sleepers g) then None else Some (g, Loading)
  | Go, Passed =>
      Some (print (if (i <? WorkersCount)%nat then WokeUp i else AllFinished) g, Ended)
  | Go, Ended => None
  end.

Definition latch_step : act choice → conf latch thread → option (conf latch thread) :=
  conf_step latch_tstep.

(** A latch for [count] arrivals, the workers, and [waiters] threads that only
    wait ([main] itself is one). *)
Definition latch_init (count : Z) (waiters : nat) : conf latch thread :=
  Conf (Latch count [] []) (replicate WorkersCount Working ++ replicate waiters Loading).

(** * The invariant *)

(** Workers that have not counted down yet. *)
Definition pending (l : thread) : Z :=
  match l with Working | Arriving => 1 | _ => 0 end.

Definition past (l : thread) : bool := match l with Passed | Ended => true | _ => false end.

(** The lines that may come only after every worker has finished. *)
Definition late (l : line) : bool := match l with Finished _ => false | _ => true end.

(** What a thread relies on. *)
Definition thread_ok (g : latch) (i : nat) (l : thread) : Prop :=
  (past l = true → m_count g = 0) ∧
  (i ∈ sleepers g → l = Asleep) ∧
  match l with Waiting cur => 0 < cur ∧ m_count g ≤ cur | _ => True end ∧
  (l ≠ Working → (i < WorkersCount)%nat → Finished i ∈ log g).

Record latch_inv (c : conf latch thread) : Prop := {
  inv_count : m_count (shared c) = total pending (threads c);
  inv_max : m_count (shared c) ≤ INT_MAX;
  inv_threads i l : threads c !! i = Some l → thread_ok (shared c) i l;
  inv_sleep : m_count (shared c) = 0 → sleepers (shared c) ≠ [] → Waking ∈ threads c;
  inv_nodup : NoDup (sleepers (shared c));
  inv_ids i : i ∈ sleepers (shared c) → (i < length (threads c))%nat;
  inv_len : (WorkersCount ≤ length (threads c))%nat;
  inv_log l1 e l2 : log (shared c) = l1 ++ e :: l2 → late e = true →
    ∀ i, (i < WorkersCount)%nat → Finished i ∈ l1 }.

Lemma thread_ok_stable g g' i l :
  thread_ok g i l → m_count g' ≤ m_count g → (m_count g = 0 → m_count g' = 0) →
  (i ∈ sleepers g' → i ∈ sleepers g) → log g `prefix_of` log g' → thread_ok g' i l.
Proof.
  intros (H1 & H2 & H3 & H4) Hle Hz Hs [k Hk]. unfold thread_ok. split; [|split; [|split]]; auto.
  - destruct l; done || lia.
  - intros Hl Hi. rewrite Hk. apply elem_of_app. left. auto.
Qed.

Lemma pending_nonneg l : 0 ≤ pending l.
Proof. by destruct l. Qed.

(** When the count is 0, every worker has printed its line. *)
Lemma all_finished c :
  latch_inv c → m_count (shared c) = 0 → ∀ i, (i < WorkersCount)%nat → Finished i ∈ log (shared c).
Proof.
  intros HI Hz i Hi. pose proof (inv_len _ HI).
  destruct (lookup_lt_is_Some_2 (threads c) i) as [l Hl]; [lia|].
  apply (inv_threads _ HI _ _ Hl); [|done]. intros ->.
  rewrite (inv_count _ HI) in Hz. by apply (total_zero _ _ _ _ pending_nonneg Hz) in Hl.
Qed.

Lemma latch_inv_step c i l g' l' :
  latch_inv c → threads c !! i = Some l →
  m_count g' + pending l = m_count (shared c) + pending l' →
  m_count g' ≤ m_count (shared c) → (m_count (shared c) = 0 → m_count g' = 0) →
  thread_ok g' i l' →
  (∀ j, j ∈ sleepers g' → j = i ∨ j ∈ sleepers (shared c)) → NoDup (sleepers g') →
  (m_count g' = 0 → sleepers g' ≠ [] → l' = Waking ∨ l ≠ Waking ∧ Waking ∈ threads c) →
  (log g' = log (shared c) ∨ ∃ e, log g' = log (shared c) ++ [e] ∧
     (late e = true → m_count (shared c) = 0)) →
  latch_inv (Conf g' (<[i:=l']> (threads c))).
Proof.
  intros HI Hl Hc Hle Hz Hok Hs Hnd Hw Hlog. pose proof (lookup_lt_Some _ _ _ Hl) as Hi.
  assert (log (shared c) `prefix_of` log g') as Hpre.
  { destruct Hlog as [->|(e & -> & _)]; [done|by eexists]. }
  split; simpl.
  - rewrite (total_insert _ _ _ _ _ Hl), <- (inv_count _ HI). lia.
  - pose proof (inv_max _ HI). lia.
  - intros j lj [[-> ->]|[Hne Hj]]%list_lookup_insert_Some'; [done|].
    eapply thread_ok_stable; [by apply (inv_threads _ HI)|done..| |done].
    intros [->|?]%Hs; done.
  - intros H0 H1. destruct (Hw H0 H1) as [->|[Hne [j Hj]%list_elem_of_lookup]].
    + apply list_elem_of_lookup. exists i. by apply list_lookup_insert_eq.
    + apply list_elem_of_lookup. exists j. rewrite list_lookup_insert_ne; [done|]. intros <-. congruence.
  - done.
  - intros j [->|Hj]%Hs; rewrite length_insert; [done|by apply HI].
  - rewrite length_insert. apply HI.
  - intros l1 e l2 E Hlate. destruct Hlog as [El|(e' & El & He)]; rewrite El in E.
    + by eapply (inv_log _ HI).
    + destruct l2 as [|x l2 _] using rev_ind.
      * apply app_inj_tail in E as [<- <-]. apply all_finished; auto.
      * rewrite app_comm_cons, app_assoc in E. apply app_inj_tail in E as [E _].
        by eapply (inv_log _ HI).
Qed.

(** ** The steps *)

Lemma count_range c : latch_inv c → 0 ≤ m_count (shared c).
Proof. intros HI. rewrite (inv_count _ HI). apply total_nonneg, pending_nonneg. Qed.

Lemma count_pending c i l :
  latch_inv c → threads c !! i = Some l → pending l = 1 → 1 ≤ m_count (shared c).
Proof.
  intros HI Hl Hp. pose proof (count_range _ HI).
  destruct (decide (m_count (shared c) = 0)) as [E|E]; [|lia].
  rewrite (inv_count _ HI) in E. apply (total_zero _ _ _ _ pending_nonneg E) in Hl. lia.
Qed.

Lemma sleepers_bound c : latch_inv c → (length (sleepers (shared c)) ≤ length (threads c))%nat.
Proof.
  intros HI. rewrite <- (length_seq (length (threads c)) 0).
  apply submseteq_length, NoDup_submseteq; [apply HI|].
  intros i Hi%(inv_ids _ HI). apply elem_of_seq. lia.
Qed.

(** A waker is not a sleeper and stays in the program when another thread moves. *)
Lemma inv_sleep_other c l :
  latch_inv c → l ≠ Waking →
  m_count (shared c) = 0 → sleepers (shared c) ≠ [] → l ≠ Waking ∧ Waking ∈ threads c.
Proof. intros HI Hl H0 H1. split; [done|by apply HI]. Qed.

Lemma spurious_preserves c i :
  latch_inv c → threads c !! i = Some Asleep →
  latch_inv (Conf (Latch (m_count (shared c)) (filter (λ j, j ≠ i) (sleepers (shared c))) (log (shared c)))
    (<[i:=Loading]> (threads c))).
Proof.
  intros HI Hl. destruct (inv_threads _ HI _ _ Hl) as (_ & _ & _ & Hf).
  eapply latch_inv_step; simpl; try done; auto.
  - split; [done|]. split; [|split; [done|auto]]. by intros [? _]%list_elem_of_filter.
  - intros j [_ ?]%list_elem_of_filter. by right.
  - eapply sublist_NoDup; [apply HI|apply sublist_filter].
  - intros H0 H1. right. apply inv_sleep_other; auto. intros E. by rewrite E in H1.
Qed.

Lemma arrive_preserves c i g' l' :
  latch_inv c → threads c !! i = Some Arriving →
  latch_tstep i Go (shared c) Arriving = Some (g', l') →
  latch_inv (Conf g' (<[i:=l']> (threads c))).
Proof.
  intros HI Hl Hs. pose proof (count_pending _ _ _ HI Hl eq_refl) as H1.
  pose proof (inv_max _ HI) as Hm. destruct (inv_threads _ HI _ _ Hl) as (_ & Hsl & _ & Hf).
  simpl in Hs. rewrite i32_wrap_small in Hs by (unfold is_i32, INT_MIN; lia).
  eapply latch_inv_step; try done; destruct (Z.eqb_spec (m_count (shared c)) 1); simplify_eq; simpl;
    auto; try lia; try apply HI;
    (split; [done|]; split; [by intros ?%Hsl|split; [done|auto]]).
Qed.

Lemma wake_preserves c i :
  Z.of_nat (length (threads c)) ≤ INT_MAX → latch_inv c → threads c !! i = Some Waking →
  latch_inv (Conf (FutexWake INT_MAX (shared c)) (<[i:=Loading]> (threads c))).
Proof.
  intros Hlen HI Hl. destruct (inv_threads _ HI _ _ Hl) as (_ & _ & _ & Hf).
  unfold FutexWake. pose proof (sleepers_bound _ HI).
  rewrite (proj2 (Z.leb_le _ _)) by lia.
  eapply latch_inv_step; simpl; try done; auto.
  - split; [done|]. split; [by intros ?%elem_of_nil|split; [done|auto]].
  - by intros j ?%elem_of_nil.
  - constructor.
Qed.

Lemma wait_preserves c i cur g' l' :
  latch_inv c → threads c !! i = Some (Waiting cur) → FutexWait i cur (shared c) = (g', l') →
  latch_inv (Conf g' (<[i:=l']> (threads c))).
Proof.
  intros HI Hl Hs. destruct (inv_threads _ HI _ _ Hl) as (_ & Hsl & [Hp Hle] & Hf).
  unfold FutexWait in Hs. destruct (Z.eqb_spec (m_count (shared c)) cur); simplify_eq;
    eapply latch_inv_step; simpl; try done; auto.
  - split; [done|]. split; [done|split; [done|auto]].
  - intros j [?|Hj]%elem_of_app; [auto|]. apply list_elem_of_singleton in Hj. auto.
  - apply list.NoDup_app. split_ands; [apply HI| |apply NoDup_singleton].
    intros j Hj Hji. apply list_elem_of_singleton in Hji as ->. by apply Hsl in Hj.
  - lia.
  - split; [done|]. split; [by intros ?%Hsl|split; [done|auto]].
  - apply HI.
  - intros H0 H1. right. by apply inv_sleep_other.
Qed.

Lemma latch_preserves a c c' :
  Z.of_nat (length (threads c)) ≤ INT_MAX → latch_inv c → latch_step a c = Some c' → latch_inv c'.
Proof.
  intros Hlen HI (l & g' & l' & Hl & Hs & ->)%conf_step_inv.
  destruct (inv_threads _ HI _ _ Hl) as (Hz & Hsl & Hw & Hf).
  destruct (Machine.choice a), l; simpl in Hs; simplify_eq; simpl in *.
  - eapply latch_inv_step; simpl; try done; auto; [|apply HI| |].
    + split; [done|]. split; [by intros ?%Hsl|split; [done|]]. intros. apply elem_of_app. right. by left.
    + intros H0 H1. right. by apply inv_sleep_other.
    + right. by exists (Finished (tid a)).
  - by eapply arrive_preserves.
  - by eapply wake_preserves.
  - pose proof (count_range _ HI).
    destruct (Z.eqb_spec (m_count (shared c)) 0); simplify_eq;
      eapply latch_inv_step; simpl; try done; auto; try (by apply HI);
      first [intros H0 H1; right; by apply inv_sleep_other
            |split; [done|]; split; [by intros ?%Hsl|split; [done || lia|auto]]].
  - by eapply wait_preserves.
  - case_bool_decide; simplify_eq. eapply latch_inv_step; simpl; try done; auto; [|apply HI|].
    + split; [done|]. split; [done|split; [done|auto]].
    + intros H0 H1. right. by apply inv_sleep_other.
  - eapply latch_inv_step; simpl; try done; auto; [|apply HI| |].
    + split; [auto|]. split; [by intros ?%Hsl|split; [done|]]. intros. apply elem_of_app. left. auto.
    + intros H0 H1. right. by apply inv_sleep_other.
    + right. eexists. split; [done|auto].
  - by eapply spurious_preserves.
Qed.

Lemma latch_init_inv waiters :
  Z.of_nat (WorkersCount + waiters) ≤ INT_MAX → latch_inv (latch_init (Z.of_nat WorkersCount) waiters).
Proof.
  intros HW. split; simpl; try done.
  - rewrite total_app, !total_replicate. simpl. lia.
  - lia.
  - intros i l [Hl|[Hi Hl]]%lookup_app_Some.
    + apply lookup_replicate in Hl as [-> _]. split; [done|]. split; [by intros ?%elem_of_nil|done].
    + apply lookup_replicate in Hl as [-> _]. rewrite length_replicate in Hi.
      split; [done|]. split; [by intros ?%elem_of_nil|]. split; [done|lia].
  - constructor.
  - by intros i ?%elem_of_nil.
  - rewrite length_app, !length_replicate. lia.
  - by intros [|??] e l2.
Qed.

Lemma latch_reach_inv waiters c :
  Z.of_nat (WorkersCount + waiters) ≤ INT_MAX →
  reach latch_step (latch_init (Z.of_nat WorkersCount) waiters) c → latch_inv c.
Proof.
  intros HW Hr. eapply (reach_inv_strong _ (λ c, Z.of_nat (length (threads c)) ≤ INT_MAX)); [| | |done].
  - intros c1 H1%reach_threads. rewrite H1. simpl. rewrite length_app, !length_replicate. lia.
  - by apply latch_init_inv.
  - intros a c1 c2. apply latch_preserves.
Qed.

(** ** Progress *)

(** Which threads can move without a surprise: all but the sleepers and those
    that have ended. *)
Lemma awake_moves i g l :
  l ≠ Ended → (l = Asleep → i ∉ sleepers g) → is_Some (latch_tstep i Go g l).
Proof.
  intros He Ha. destruct l; simpl; try done; eauto.
  - destruct (_ =? _); eauto.
  - rewrite bool_decide_false by auto. eauto.
Qed.

Lemma latch_moves c i l :
  latch_inv c → threads c !! i = Some l → l ≠ Ended →
  ∃ j lj, threads c !! j = Some lj ∧ is_Some (latch_tstep j Go (shared c) lj).
Proof.
  intros HI Hl He. destruct (decide (l = Asleep ∧ i ∈ sleepers (shared c))) as [[-> Hs]|Hn].
  2: { exists i, l. split; [done|]. apply awake_moves; naive_solver. }
  destruct (decide (m_count (shared c) = 0)) as [E|E].
  - assert (Waking ∈ threads c) as [j Hj]%list_elem_of_lookup.
    { apply HI; [done|]. intros E0. rewrite E0 in Hs. by apply elem_of_nil in Hs. }
    exists j, Waking. split; [done|]. by apply awake_moves.
  - rewrite (inv_count _ HI) in E. apply (total_pos _ _ pending_nonneg) in E as (j & lj & Hj & Hp).
    exists j, lj. split; [done|]. apply awake_moves; intros ->; simpl in Hp; lia.
Qed.

(** ** Termination *)

(** Steps of a thread up to its next sleep or its end, with what its step may
    give the other threads to do; a sleeper's share is counted apart. *)
Definition weight (n m : Z) (l : thread) : Z :=
  match l with
  | Working => 3 * n + 5
  | Arriving => 3 * n + 4
  | Waking => 3 * n + 3
  | Loading => 2
  | Waiting cur => if cur =? m then 1 else 3
  | Asleep => 3
  | Passed => 1
  | Ended => 0
  end.

Definition work (c : conf latch thread) : Z :=
  let n := Z.of_nat (length (threads c)) in
  total (weight n (m_count (shared c))) (threads c)
  - 3 * Z.of_nat (length (sleepers (shared c))) + (2 * n + 1) * m_count (shared c).

Lemma work_nonneg c : latch_inv c → 0 ≤ work c.
Proof.
  intros HI. unfold work. pose proof (count_range _ HI).
  set (n := Z.of_nat (length (threads c))). set (m := m_count (shared c)) in *.
  assert (length (sleepers (shared c)) ≤ count (λ l, bool_decide (l = Asleep)) (threads c))%nat as Hs.
  { apply (count_positions _ Ended); [done|apply HI|]. intros i Hi.
    destruct (lookup_lt_is_Some_2 _ _ (inv_ids _ HI _ Hi)) as [l Hl].
    exists l. split; [done|]. apply bool_decide_eq_true. by apply (inv_threads _ HI _ _ Hl). }
  pose proof (total_le (λ l, 3 * if bool_decide (l = Asleep) then 1 else 0) (weight n m) 0 (threads c)) as Hw.
  rewrite total_scale, total_count in Hw.
  enough (3 * Z.of_nat (length (sleepers (shared c))) ≤ total (weight n m) (threads c)) by nia.
  etransitivity; [|etransitivity; [apply Hw|]]; [lia| |lia].
  intros l. destruct l; simpl; try lia. destruct (_ =? _); lia.
Qed.

Lemma weight_count n m m' l : 0 ≤ n → weight n m' l ≤ weight n m l + 2.
Proof. intros. destruct l; simpl; try lia. destruct (_ =? m'), (_ =? m); lia. Qed.

Lemma work_decreases c i c' :
  Z.of_nat (length (threads c)) ≤ INT_MAX → latch_inv c →
  latch_step (Act i Go) c = Some c' → work c' < work c.
Proof.
  intros Hlen HI (l & g' & l' & Hl & Hs & ->)%conf_step_inv.
  unfold work. simpl in *. rewrite length_insert.
  set (n := Z.of_nat (length (threads c))) in *.
  assert (0 ≤ n) as Hn by lia.
  assert (∀ m, total (weight n m) (<[i:=l']> (threads c)) =
    total (weight n m) (threads c) + weight n m l' - weight n m l) as Ht.
  { intros m. by apply total_insert. }
  rewrite Ht. destruct l; simpl in Hs; simplify_eq; simpl.
  - lia.
  - pose proof (count_pending _ _ _ HI Hl eq_refl). pose proof (inv_max _ HI).
    rewrite i32_wrap_small by (unfold is_i32, INT_MIN; lia).
    pose proof (total_le (weight n (m_count (shared c) - 1)) (weight n (m_count (shared c))) 2
      (threads c) ltac:(intros; by apply weight_count)).
    destruct (_ =? 1); simpl; lia.
  - pose proof (sleepers_bound _ HI). rewrite (proj2 (Z.leb_le _ _)) by lia. simpl. lia.
  - destruct (_ =? 0); simplify_eq; simpl; rewrite ?Z.eqb_refl; lia.
  - unfold FutexWait in Hs. destruct (Z.eqb_spec (m_count (shared c)) current); simplify_eq; simpl.
    + rewrite Z.eqb_refl, length_app. simpl. lia.
    + rewrite (proj2 (Z.eqb_neq _ _)) by auto. lia.
  - case_bool_decide; simplify_eq. simpl. lia.
  - lia.
Qed.
End latch_main.

(** * Properties *)

(** C15: The latch holds.  With any number of workers and waiters, in every
    reachable state a thread that is past [Wait] has seen all workers arrive: none
    is still before its [fetch_sub]; and in the output every "woke up" and "All
    workers finished" comes after the "finished" line of every worker. *)
Theorem latch_holds (WorkersCount waiters : nat) c :
  Z.of_nat (WorkersCount + waiters) ≤ INT_MAX →
  reach (latch_step WorkersCount) (latch_init WorkersCount (Z.of_nat WorkersCount) waiters) c →
  (∀ i l, threads c !! i = Some l → past l = true →
     ∀ j l', threads c !! j = Some l' → pending l' = 0) ∧
  (∀ l1 e l2, log (shared c) = l1 ++ e :: l2 → late e = true →
     ∀ j, (j < WorkersCount)%nat → Finished j ∈ l1).
Proof.
  intros HW Hr. pose proof (latch_reach_inv _ _ _ HW Hr) as HI. split; [|apply HI].
  intros i l Hl Hp j l' Hj. apply (inv_threads _ _ HI _ _ Hl) in Hp.
  rewrite (inv_count _ _ HI) in Hp. by eapply total_zero; [apply pending_nonneg|..].
Qed.

(** The program of [main] with three workers: the waiting thread sleeps first,
    the workers finish in reverse order, the last one wakes all. *)
Definition main_run : list (act choice) :=
  (λ i, Act i Go) <$>
    [3; 3; 2; 2; 2; 2; 1; 1; 1; 1; 0; 0; 0; 0; 0; 3; 3; 3; 2; 2; 2; 1; 1; 1]%nat.

Lemma latch_holds_witness :
  ∃ c, run (latch_step 3) main_run (latch_init 3 3 1) = Some c ∧
    log (shared c) = [Finished 2; Finished 1; Finished 0] ++ WokeUp 0 :: [AllFinished; WokeUp 2; WokeUp 1] ∧
    Finished 1 ∈ [Finished 2; Finished 1; Finished 0].
Proof.
  destruct (run (latch_step 3) main_run (latch_init 3 3 1)) as [c|] eqn:E; [|vm_compute in E; discriminate].
  destruct (latch_holds 3 1 c) as [_ H]; [by vm_compute|exact (run_reach _ _ _ _ E)|].
  assert (log (shared c) = [Finished 2; Finished 1; Finished 0] ++ WokeUp 0 :: [AllFinished; WokeUp 2; WokeUp 1]) as Hl
    by (vm_compute in E; injection E as <-; reflexivity).
  exists c. split; [reflexivity|]. split; [exact Hl|].
  apply (H _ _ _ Hl); [reflexivity|lia].
Defined.

(** C14: No wake-up is lost.  In every reachable state all threads have
    ended, or one of them can move without a spurious wake-up: nobody sleeps for
    ever. *)
Theorem latch_no_lost_wakeup (WorkersCount waiters : nat) c :
  Z.of_nat (WorkersCount + waiters) ≤ INT_MAX →
  reach (latch_step WorkersCount) (latch_init WorkersCount (Z.of_nat WorkersCount) waiters) c →
  Forall (λ l, l = Ended) (threads c) ∨ ∃ i c', latch_step WorkersCount (Act i Go) c = Some c'.
Proof.
  intros HW Hr. pose proof (latch_reach_inv _ _ _ HW Hr) as HI.
  destruct (Forall_or_witness (λ l, bool_decide (l = Ended)) (threads c)) as [HF|(i & l & Hl & He)].
  - left. apply Forall_lookup. intros i l Hl.
    by apply (bool_decide_eq_true_1 _), (proj1 (Forall_lookup _ _) HF _ _ Hl).
  - right. destruct (latch_moves _ c i l HI Hl) as (j & lj & Hj & Hs).
    { by apply bool_decide_eq_false in He. }
    exists j. by eapply conf_step_enabled.
Qed.

Lemma latch_no_lost_wakeup_witness :
  ∃ c, run (latch_step 3) (take 10 main_run) (latch_init 3 3 1) = Some c ∧
    sleepers (shared c) = [3; 2; 1]%nat ∧
    (Forall (λ l, l = Ended) (threads c) ∨ ∃ i c', latch_step 3 (Act i Go) c = Some c').
Proof.
  destruct (run (latch_step 3) (take 10 main_run) (latch_init 3 3 1)) as [c|] eqn:E;
    [|vm_compute in E; discriminate].
  exists c. split; [reflexivity|]. split.
  - vm_compute in E. injection E as <-. reflexivity.
  - apply (latch_no_lost_wakeup 3 1 c); [by vm_compute|exact (run_reach _ _ _ _ E)].
Defined.

(** C16: The program ends.  Without spurious wake-ups no schedule of [w]
    workers and [k] waiters has more than [(5 (w + k) + 6) w + 2 k] steps, so
    with [latch_no_lost_wakeup] every one that goes on as long as it can leaves
    all threads at their end. *)
Theorem latch_terminates (WorkersCount waiters : nat) :
  Z.of_nat (WorkersCount + waiters) ≤ INT_MAX →
  terminates_within (λ i, latch_step WorkersCount (Act i Go))
    ((5 * (WorkersCount + waiters) + 6) * WorkersCount + 2 * waiters)
    (latch_init WorkersCount (Z.of_nat WorkersCount) waiters).
Proof.
  intros HW.
  replace ((5 * (WorkersCount + waiters) + 6) * WorkersCount + 2 * waiters)%nat
    with (Z.to_nat (work (latch_init WorkersCount (Z.of_nat WorkersCount) waiters))).
  2: { unfold work. simpl. rewrite length_app, total_app, !length_replicate, !total_replicate. simpl. nia. }
  apply (measure_terminates _ (λ c, latch_inv WorkersCount c ∧ Z.of_nat (length (threads c)) ≤ INT_MAX)
    (λ c, Z.to_nat (work c))).
  - split; [by apply latch_init_inv|]. simpl. rewrite length_app, !length_replicate. lia.
  - intros i c1 c2 [HI Hlen] Hs. pose proof (latch_preserves _ _ _ _ Hlen HI Hs) as HI2.
    pose proof (work_decreases _ _ _ _ Hlen HI Hs). pose proof (work_nonneg _ _ HI2).
    split; [split; [done|]|lia]. by rewrite (conf_step_threads _ _ _ _ Hs).
Qed.

Lemma latch_terminates_witness :
  terminates_within (λ i, latch_step 3 (Act i Go)) 80 (latch_init 3 3 1).
Proof. apply (latch_terminates 3 1). by vm_compute. Defined.

(** Two workers arrive at a latch made for one. *)
Definition overrun : list (act choice) :=
  (λ i, Act i Go) <$> [0; 1; 0; 1; 0; 0; 0; 1; 1]%nat.

(** The count must match the arrivals.  When a second worker counts
    down a latch made for one before the first has looked, the count is -1, which
    [Wait] takes for "not yet": both workers sleep and no thread can move. *)
Theorem latch_overrun_hangs :
  ∃ c, run (latch_step 2) overrun (latch_init 2 1 0) = Some c ∧
    m_count (shared c) = -1 ∧ threads c = [Asleep; Asleep] ∧ sleepers (shared c) = [0; 1]%nat ∧
    ∀ i, latch_step 2 (Act i Go) c = None.
Proof.
  eexists. split; [vm_compute; reflexivity|]. split_ands; try reflexivity.
  intros [|[|i]]; reflexivity.
Qed.
