(* ===== verification/Locks.v ===== *)
(** Locks, and the counter they protect: mutex/mutex.cpp, mutex/spinlock.cpp and
    condition_variable/condvar_intro.cpp of synchronization_primitives.

    The three programs are the same but for the lock: two threads increment a
    plain [int] a thousand times each, between [lock] and [unlock].  A class
    [Lock] states what such a program may rely on; the program is proved right
    against the class, for any number of threads and increments.  [std::mutex]
    and [Spinlock] are instances.  [CVLock], which waits with [if] where it needs
    [while], is not: its machine reaches a state with two holders. *)

From S2P Require Import Prelude Machine.
From stdpp Require Import options.

Local Open Scope Z_scope.

(** * The interface *)

(** A lock as C++'s BasicLockable, one atomic access per step: [try_lock i s] is
    an attempt of thread [i] inside [lock()]; it blocks ([None]), goes round
    ([false]) or returns with the lock ([true]).  [holds s h] says that [h] is the
    holder. *)
Class Lock := {
  lock_state : Type;
  lock_fresh : lock_state;
  try_lock : nat → lock_state → option (lock_state * bool);
  unlock : nat → lock_state → lock_state;
  holds : lock_state → option nat → Prop;
  fresh_free : holds lock_fresh None;
  lock_taken i s h s' : holds s h → try_lock i s = Some (s', true) → h = None ∧ holds s' (Some i);
  lock_busy i s h s' : holds s h → try_lock i s = Some (s', false) → holds s' h;
  lock_free i s : holds s None → ∃ s', try_lock i s = Some (s', true);
  unlock_free i s : holds s (Some i) → holds (unlock i s) None }.

(** [std::mutex] blocks while another thread holds it. *)
#[export, refine] Instance mutex : Lock := {
  lock_state := option nat;
  lock_fresh := None;
  try_lock i s := match s with None => Some (Some i, true) | Some _ => None end;
  unlock _ _ := None;
  holds s h := s = h }.
Proof.
  - done.
  - intros i s h s' <- H. by destruct s; simplify_eq.
  - intros i s h s' <- H. by destruct s.
  - intros i s ->. by exists (Some i).
  - done.
Defined.

(** [Spinlock::lock]: [while (m_locked.exchange(true)) {}]. *)
Definition spin_lock (m_locked : bool) : bool * bool := (true, negb m_locked).

(** [Spinlock::unlock]: [m_locked.store(false)]. *)
Definition spin_unlock (m_locked : bool) : bool := false.

#[export, refine] Instance Spinlock : Lock := {
  lock_state := bool;
  lock_fresh := false;
  try_lock _ m_locked := Some (spin_lock m_locked);
  unlock _ m_locked := spin_unlock m_locked;
  holds m_locked h := m_locked = bool_decide (is_Some h) }.
Proof.
  - done.
  - intros i s h s' -> H. unfold spin_lock in H. case_bool_decide as Hh; simplify_eq/=.
    split; [|done]. apply eq_None_not_Some. auto.
  - intros i s h s' -> H. unfold spin_lock in H. by case_bool_decide as Hh; simplify_eq/=.
  - intros i s ->. by exists true.
  - done.
Defined.

(** * The counter *)

Section counter.
Context {L : Lock}.

(** The lock and [x]. *)
Record shared_counter := Counter { guard : lock_state; x : Z }.

(** A thread with [rest] increments to do: outside the lock, holding it, after
    the load of [++x], after the store. *)
Inductive cthread :=
  | Outside (rest : nat)
  | Locked (rest : nat)
  | Loaded (rest : nat) (tmp : Z)
  | Stored (rest : nat)
  | Overflow.

Definition increment_tstep (i : nat) (_ : unit) (g : shared_counter) (l : cthread) :
    option (shared_counter * cthread) :=
  match l with
  | Outside O => None
  | Outside (S rest) =>
      '(s, got) ← try_lock i (guard g);
      Some (Counter s (x g), if (got : bool) then Locked rest else Outside (S rest))
  | Locked rest => Some (g, Loaded rest (x g))
  | Loaded rest tmp =>
      if bool_decide (is_i32 (tmp + 1))
      then Some (Counter (guard g) (tmp + 1), Stored rest) else Some (g, Overflow)
  | Stored rest => Some (Counter (unlock i (guard g)) (x g), Outside rest)
  | Overflow => None
  end.

Definition increment_step : act unit → conf shared_counter cthread → option (conf shared_counter cthread) :=
  conf_step increment_tstep.

(** One run: [threads_n] threads with [n] increments each. *)
Definition increment_init (threads_n n : nat) : conf shared_counter cthread :=
  Conf (Counter lock_fresh 0) (replicate threads_n (Outside n)).

(** ** The invariant *)

Definition inside (l : cthread) : bool :=
  match l with Locked _ | Loaded _ _ | Stored _ => true | _ => false end.

(** Increments not stored yet. *)
Definition todo (l : cthread) : Z :=
  match l with
  | Outside rest | Stored rest => Z.of_nat rest
  | Locked rest | Loaded rest _ => Z.of_nat rest + 1
  | Overflow => 0
  end.

Record counter_inv (all : Z) (c : conf shared_counter cthread) : Prop := {
  inv_holder : ∃ h, holds (guard (shared c)) h ∧ (∀ i, h = Some i → is_Some (threads c !! i)) ∧
    ∀ i l, threads c !! i = Some l → (inside l = true ↔ h = Some i);
  inv_sum : x (shared c) + total todo (threads c) = all;
  inv_tmp i rest tmp : threads c !! i = Some (Loaded rest tmp) → tmp = x (shared c);
  inv_defined : Overflow ∉ threads c;
  inv_nonneg : 0 ≤ x (shared c) }.

Lemma locked_todo_nonneg l : 0 ≤ todo l.
Proof. destruct l; simpl; lia. Qed.

Lemma todo_bound ls i l : ls !! i = Some l → todo l ≤ total todo ls.
Proof.
  revert i. induction ls as [|z ls IH]; intros [|i] Hl; simplify_eq/=; unfold total in *;
    pose proof (total_nonneg todo ls locked_todo_nonneg) as Hn; unfold total in Hn.
  - lia.
  - specialize (IH _ Hl). pose proof (locked_todo_nonneg z). lia.
Qed.

(** What thread [i] has to show for its step; [h] holds the lock before, [h']
    after, and nobody but [i] is concerned. *)
Lemma counter_inv_step all c i l g' l' h h' :
  counter_inv all c → threads c !! i = Some l →
  (∀ j, h = Some j → is_Some (threads c !! j)) →
  (∀ j lj, threads c !! j = Some lj → (inside lj = true ↔ h = Some j)) →
  holds (guard g') h' → (h = None ∨ h = Some i ∨ h' = h) → (h' = Some i ↔ inside l' = true) →
  (h' = None ∨ h' = Some i ∨ h' = h) →
  (x g' = x (shared c) ∨ h = Some i) → 0 ≤ x g' →
  x g' + todo l' = x (shared c) + todo l →
  match l' with Loaded _ tmp => tmp = x g' | Overflow => False | _ => True end →
  counter_inv all (Conf g' (<[i:=l']> (threads c))).
Proof.
  intros HI Hl Hex Hh Hh' Hfrom Hin Hto Hx Hnn Hsum Hl'.
  assert (∀ j lj, threads c !! j = Some lj → j ≠ i → inside lj = true → h' = h ∧ h ≠ Some i) as Hother.
  { intros j lj Hj Hne E. apply (Hh _ _ Hj) in E. naive_solver. }
  split; simpl.
  - exists h'. split; [done|]. split.
    { intros j Hj. apply lookup_lt_is_Some. rewrite length_insert. apply lookup_lt_is_Some.
      destruct Hto as [?|[?|?]]; naive_solver. }
    intros j lj [[-> ->]|[Hne Hj]]%list_lookup_insert_Some'; [naive_solver|].
    split; [naive_solver|]. intros E. apply (Hh _ _ Hj). naive_solver.
  - rewrite (total_insert _ _ _ _ _ Hl). pose proof (inv_sum _ _ HI). lia.
  - intros j rest tmp [[-> E]|[Hne Hj]]%list_lookup_insert_Some'; [by subst l'|].
    destruct (Hother _ _ Hj Hne eq_refl) as [_ ?]. destruct Hx as [->|?]; [|done].
    by eapply (inv_tmp _ _ HI).
  - intros [j [[-> E]|[Hne Hj]]%list_lookup_insert_Some']%list_elem_of_lookup; [by subst l'|].
    apply (inv_defined _ _ HI). apply list_elem_of_lookup. eauto.
  - done.
Qed.

Lemma increment_preserves all a c c' :
  all ≤ INT_MAX → counter_inv all c → increment_step a c = Some c' → counter_inv all c'.
Proof.
  intros Hall HI (l & g' & l' & Hl & Hs & ->)%conf_step_inv.
  destruct (inv_holder _ _ HI) as (h & Hh & Hex & Hin). pose proof (Hin _ _ Hl) as Hi.
  pose proof (inv_nonneg _ _ HI) as Hnn. pose proof (inv_sum _ _ HI) as Hsum.
  pose proof (todo_bound _ _ _ Hl) as Hb.
  destruct l as [[|rest]|rest|rest tmp|rest|]; simpl in Hs, Hi, Hb; try done.
  - destruct (try_lock _ _) as [[s [|]]|] eqn:E; simplify_eq/=.
    + destruct (lock_taken _ _ _ _ Hh E) as [-> Hh'].
      eapply counter_inv_step; simpl; eauto; simpl; try lia; naive_solver.
    + pose proof (lock_busy _ _ _ _ Hh E) as Hh'.
      eapply counter_inv_step; simpl; eauto; simpl; try lia; naive_solver.
  - simplify_eq. eapply counter_inv_step; simpl; eauto; simpl; try lia; naive_solver.
  - pose proof (inv_tmp _ _ HI _ _ _ Hl) as ->.
    rewrite bool_decide_true in Hs by (unfold is_i32, INT_MIN; lia). simplify_eq.
    eapply counter_inv_step; simpl; eauto; simpl; try lia; naive_solver.
  - simplify_eq. destruct Hi as [Hi _]. rewrite (Hi eq_refl) in *.
    pose proof (unlock_free _ _ Hh) as Hh'.
    eapply counter_inv_step; simpl; eauto; simpl; try lia; naive_solver.
Qed.

Lemma increment_reach n k c :
  Z.of_nat (n * k) ≤ INT_MAX → reach increment_step (increment_init n k) c →
  counter_inv (Z.of_nat (n * k)) c.
Proof.
  intros Hall. apply reach_inv; [|intros a c1 c2; by apply increment_preserves].
  assert (∀ i l, replicate n (Outside k) !! i = Some l → l = Outside k) as Hr.
  { by intros i l [-> _]%lookup_replicate. }
  split; simpl.
  - exists None. split; [apply fresh_free|]. split; [done|]. by intros i l ->%Hr.
  - rewrite total_replicate. simpl. lia.
  - by intros i rest tmp ?%Hr.
  - by intros [i ?%Hr]%list_elem_of_lookup.
  - done.
Qed.

(** The holder can move, and with the lock free every thread that is not done
    can. *)
Lemma increment_moves all c i l :
  counter_inv all c → threads c !! i = Some l → l ≠ Outside 0 →
  ∃ a c', increment_step a c = Some c'.
Proof.
  intros HI Hl Hd. destruct (inv_holder _ _ HI) as (h & Hh & Hex & Hin).
  assert (∀ j lj, threads c !! j = Some lj → inside lj = true → ∃ a c', increment_step a c = Some c') as Hgo.
  { intros j lj Hj Hk. exists (Act j tt). eapply conf_step_enabled; [done|].
    destruct lj; try done; simpl; eauto. destruct (bool_decide _); eauto. }
  destruct (inside l) eqn:Ei; [by eapply Hgo|].
  destruct l as [[|rest]| | | |]; try done.
  2: { destruct (inv_defined _ _ HI). apply list_elem_of_lookup. eauto. }
  destruct h as [j|].
  - destruct (Hex j eq_refl) as [lj Hj]. eapply Hgo; [done|]. by apply (Hin _ _ Hj).
  - exists (Act i tt). eapply conf_step_enabled; [done|]. simpl.
    destruct (lock_free i _ Hh) as [s' ->]. simpl. eauto.
Qed.

Lemma total_done ls : Forall (λ l, l = Outside 0) ls → total todo ls = 0.
Proof. induction 1 as [|l ls -> _ IH]; [done|]. by rewrite total_cons, IH. Qed.
End counter.

Arguments shared_counter : clear implicits.

(** [x == 2'000 ? ++correctSum : ++incorrectSum], over the runs. *)
Definition tally (expected : Z) (finals : list Z) : nat * nat :=
  foldl (λ '(correctSum, incorrectSum) x,
    if x =? expected then (S correctSum, incorrectSum) else (correctSum, S incorrectSum)) (0%nat, 0%nat) finals.

Lemma tally_all_from v k a b :
  foldl (λ '(correctSum, incorrectSum) x,
    if x =? v then (S correctSum, incorrectSum) else (correctSum, S incorrectSum)) (a, b) (replicate k v)
  = ((a + k)%nat, b).
Proof.
  revert a. induction k as [|k IH]; intros a; simpl; [by rewrite Nat.add_0_r|].
  rewrite Z.eqb_refl, IH. f_equal. lia.
Qed.

(** * Properties *)

(** C23: A counter behind a lock is exact, with any lock that keeps the
    interface, for any number of threads and increments that fit an [int].  In
    every reachable state at most one thread is between [lock] and [unlock], no
    addition has overflowed, and either some thread can move or all are done and
    [x] is the number of increments; so the program reports every one of its
    runs as correct. *)
Theorem locked_counter_exact (L : Lock) (n k : nat) c :
  Z.of_nat (n * k) ≤ INT_MAX → reach increment_step (increment_init n k) c →
  (∀ i j li lj, threads c !! i = Some li → threads c !! j = Some lj →
     inside li = true → inside lj = true → i = j) ∧
  Overflow ∉ threads c ∧
  ((∃ a c', increment_step a c = Some c') ∨
   Forall (λ l, l = Outside 0) (threads c) ∧ x (shared c) = Z.of_nat (n * k) ∧
   ∀ runs, tally (Z.of_nat (n * k)) (replicate runs (x (shared c))) = (runs, 0%nat)).
Proof.
  intros Hall Hr. pose proof (increment_reach _ _ _ Hall Hr) as HI. split_ands; [|apply HI|].
  - intros i j li lj Hi Hj Ei Ej. destruct (inv_holder _ _ HI) as (h & _ & _ & Hin).
    apply (Hin _ _ Hi) in Ei. apply (Hin _ _ Hj) in Ej. congruence.
  - destruct (Forall_or_witness (λ l, match l with Outside O => true | _ => false end) (threads c))
      as [HF|(i & l & Hl & Hd)]; [right|left].
    + assert (Forall (λ l, l = Outside 0) (threads c)) as HD.
      { apply Forall_lookup. intros i l Hl. pose proof (proj1 (Forall_lookup _ _) HF _ _ Hl).
        by destruct l as [[|]| | | |]. }
      assert (x (shared c) = Z.of_nat (n * k)) as Hx.
      { pose proof (inv_sum _ _ HI) as Hs. rewrite (total_done _ HD) in Hs. lia. }
      split_ands; [done|done|]. intros runs. rewrite Hx. apply tally_all_from.
    + eapply increment_moves; [done|done|]. by intros ->.
Qed.

(** Two threads on a spinlock; the second one goes round while the first is
    inside. *)
Definition spinning : list (act unit) :=
  (λ i, Act i tt) <$> [0; 1; 0; 1; 0; 0; 1; 1; 1; 1]%nat.

Lemma locked_counter_exact_witness :
  ∃ c, run (increment_step (L := Spinlock)) spinning (increment_init 2 1) = Some c ∧
    x (shared c) = 2.
Proof.
  destruct (run (increment_step (L := Spinlock)) spinning (increment_init 2 1)) as [c|] eqn:E;
    [|vm_compute in E; discriminate].
  exists c. split; [reflexivity|].
  destruct (locked_counter_exact Spinlock 2 1 c) as (_ & _ & [(a & c' & Hs)|(_ & Hx & _)]);
    [by vm_compute|exact (run_reach _ _ _ _ E)| |exact Hx].
  exfalso. vm_compute in E. injection E as <-. destruct a as [[|[|i]] []]; discriminate Hs.
Defined.
