(* ===== verification/CondVar.v ===== *)
(** The programs of synchronization_primitives/condition_variable.

    A condition variable is the list of the threads that wait on it: [wait]
    releases the mutex and joins the list in one step, [notify_one] takes a thread
    off it, and a thread off the list continues once it has the mutex again.  A
    wake-up for no reason is a choice of the schedule.

    [CVLock] (condvar_intro.cpp) tests [m_locked] with [if]: a thread that is
    notified takes the lock without looking again, and the lock may have two
    holders.  [Worker] (condition_variable_any.cpp) waits with a predicate: every
    task is executed exactly once and in order, but nothing wakes it up to stop. *)

From S2P Require Import Prelude Machine.
From stdpp Require Import options.

Local Open Scope Z_scope.

(** How a step goes: [Go], or a sleeper's spurious wake-up. *)
Inductive choice := Go | Spurious.

Module CVLock.

(** * The lock and its counter *)

Record state := State {
  m_mtx : option nat; m_mutexUnlocked : list nat; m_locked : bool; x : Z }.

(** A thread with [rest] increments to do after the one under way.  In [lock]:
    at the test, asleep, at the assignment, at the release of [m_mtx]; holding
    the lock around the two halves of [++x]; in [unlock]: before, at the
    assignment, at the notification, at the release. *)
Inductive thread :=
  | Outside (rest : nat)
  | LockTest (rest : nat)
  | LockSleep (rest : nat)
  | LockSet (rest : nat)
  | LockLeave (rest : nat)
  | Holding (rest : nat)
  | Loaded (rest : nat) (tmp : Z)
  | Stored (rest : nat)
  | UnlockSet (rest : nat)
  | UnlockNotify (rest : nat)
  | UnlockLeave (rest : nat).

Definition set_mtx (m : option nat) (g : state) : state :=
  State m (m_mutexUnlocked g) (m_locked g) (x g).

Definition set_locked (b : bool) (g : state) : state :=
  State (m_mtx g) (m_mutexUnlocked g) b (x g).

Definition set_waiters (ws : list nat) (g : state) : state :=
  State (m_mtx g) ws (m_locked g) (x g).

Definition set_x (v : Z) (g : state) : state :=
  State (m_mtx g) (m_mutexUnlocked g) (m_locked g) v.

(** Continue once [m_mtx] is free. *)
Definition acquire (i : nat) (g : state) (l : thread) : option (state * thread) :=
  match m_mtx g with None => Some (set_mtx (Some i) g, l) | Some _ => None end.

Definition cv_tstep (i : nat) (ch : choice) (g : state) (l : thread) : option (state * thread) :=
  match ch, l with
  | Spurious, LockSleep rest =>
      acquire i (set_waiters (filter (λ j, j ≠ i) (m_mutexUnlocked g)) g) (LockSet rest)
  | Spurious, _ => None
  | Go, Outside O => None
  | Go, Outside (S rest) => acquire i g (LockTest rest)
  | Go, LockTest rest =>
      if m_locked g
      then Some (set_mtx None (set_waiters (m_mutexUnlocked g ++ [i]) g), LockSleep rest)
      else Some (g, LockSet rest)
  | Go, LockSleep rest =>
      if bool_decide (i ∈ m_mutexUnlocked g) then None else acquire i g (LockSet rest)
  | Go, LockSet rest => Some (set_locked true g, LockLeave rest)
  | Go, LockLeave rest => Some (set_mtx None g, Holding rest)
  | Go, Holding rest => Some (g, Loaded rest (x g))
  | Go, Loaded rest tmp => Some (set_x (tmp + 1) g, Stored rest)
  | Go, Stored rest => acquire i g (UnlockSet rest)
  | Go, UnlockSet rest => Some (set_locked false g, UnlockNotify rest)
  | Go, UnlockNotify rest => Some (set_waiters (tail (m_mutexUnlocked g)) g, UnlockLeave rest)
  | Go, UnlockLeave rest => Some (set_mtx None g, Outside rest)
  end.

Definition cv_step : act choice → conf state thread → option (conf state thread) := conf_step cv_tstep.

Definition cv_init (n k : nat) : conf state thread :=
  Conf (State None [] false 0) (replicate n (Outside k)).

(** Between the return of [lock] and the call of [unlock]. *)
Definition has_lock (l : thread) : bool :=
  match l with Holding _ | Loaded _ _ | Stored _ => true | _ => false end.

(** The second thread waits, the first one unlocks, notifies it and locks again
    before it has run; then both are inside. *)
Definition barging : list (act choice) :=
  (λ i, Act i Go) <$>
    (replicate 4 0 ++ [1; 1] ++ replicate 6 0 ++ replicate 5 0 ++ [1; 1; 1; 1])%nat.

(** Both finish their increment, and the second one its remaining one. *)
Definition to_the_end : list (act choice) :=
  (λ i, Act i Go) <$> (replicate 5 0 ++ replicate 5 1 ++ replicate 10 1)%nat.

(** [CVLock] is not a lock.  Without any spurious wake-up, a thread that
    was notified takes the lock although the notifier has taken it again: two
    threads are between [lock] and [unlock], both have read the same [x], and of
    four increments only three count. *)
Theorem cvlock_two_holders :
  ∃ c1 c2, run cv_step barging (cv_init 2 2) = Some c1 ∧
    Forall (λ l, has_lock l = true) (threads c1) ∧ threads c1 = [Loaded 0 1; Loaded 1 1] ∧
    run cv_step to_the_end c1 = Some c2 ∧
    threads c2 = [Outside 0; Outside 0] ∧ x (shared c2) = 3.
Proof.
  eexists _, _. split; [vm_compute; reflexivity|]. split; [repeat constructor|].
  split; [reflexivity|]. split; [vm_compute; reflexivity|]. split; reflexivity.
Qed.
End CVLock.

Module Worker.

(** * The worker and the thread that owns it *)

(** [main], with the tasks still to add: outside, in [AddTask] with the mutex, at
    its release, at the notification; in the destructor, waiting for the worker
    thread; at its end. *)
Inductive main_thread :=
  | Main (todo : list Z)
  | AddPush (task : Z) (todo : list Z)
  | AddRelease (todo : list Z)
  | AddNotify (todo : list Z)
  | Joining
  | MainDone.

(** The worker thread: at the loop condition, at the mutex, at the predicate,
    asleep, at the swap, at the release, executing; at its end. *)
Inductive worker_thread :=
  | Check
  | Enter
  | Test
  | Sleeping
  | Swap
  | Release (tasks : list Z)
  | Execute (tasks : list Z)
  | WorkerDone.

#[export] Instance worker_thread_eq_dec : EqDecision worker_thread.
Proof. solve_decision. Defined.

Inductive owner := MainOwns | WorkerOwns.

#[export] Instance owner_eq_dec : EqDecision owner.
Proof. solve_decision. Defined.

(** The members, whether a stop was requested, and the tasks of the lines
    "Executing task" printed so far.  Only the worker thread ever waits on
    [m_newTaskAdded]. *)
Record state := State {
  m_mtx : option owner; m_newTaskAdded : bool; m_tasks : list Z;
  stop_requested : bool; executed : list Z }.

Definition acquire {L} (i : owner) (g : state) (l : L) : option (state * L) :=
  match m_mtx g with
  | None => Some (State (Some i) (m_newTaskAdded g) (m_tasks g) (stop_requested g) (executed g), l)
  | Some _ => None
  end.

Definition release (waiting : bool) (g : state) : state :=
  State None waiting (m_tasks g) (stop_requested g) (executed g).

(** [ended] tells whether the worker thread can be joined. *)
Definition main_tstep (ended : bool) (g : state) (l : main_thread) : option (state * main_thread) :=
  match l with
  | Main (task :: todo) => acquire MainOwns g (AddPush task todo)
  | AddPush task todo =>
      Some (State (m_mtx g) (m_newTaskAdded g) (m_tasks g ++ [task]) (stop_requested g) (executed g),
            AddRelease todo)
  | AddRelease todo => Some (release (m_newTaskAdded g) g, AddNotify todo)
  | AddNotify todo =>
      Some (State (m_mtx g) false (m_tasks g) (stop_requested g) (executed g), Main todo)
  | Main [] => Some (State (m_mtx g) (m_newTaskAdded g) (m_tasks g) true (executed g), Joining)
  | Joining => if ended then Some (g, MainDone) else None
  | MainDone => None
  end.

Definition WorkerThread (ch : choice) (g : state) (l : worker_thread) : option (state * worker_thread) :=
  match ch, l with
  | Spurious, Sleeping =>
      acquire WorkerOwns (State (m_mtx g) false (m_tasks g) (stop_requested g) (executed g)) Test
  | Spurious, _ => None
  | Go, Check => Some (g, if stop_requested g then WorkerDone else Enter)
  | Go, Enter => acquire WorkerOwns g Test
  | Go, Test =>
      match m_tasks g with
      | [] => Some (release true g, Sleeping)
      | _ => Some (g, Swap)
      end
  | Go, Sleeping => if m_newTaskAdded g then None else acquire WorkerOwns g Test
  | Go, Swap =>
      Some (State (m_mtx g) (m_newTaskAdded g) [] (stop_requested g) (executed g), Release (m_tasks g))
  | Go, Release tasks => Some (release (m_newTaskAdded g) g, Execute tasks)
  | Go, Execute (task :: tasks) =>
      Some (State (m_mtx g) (m_newTaskAdded g) (m_tasks g) (stop_requested g) (executed g ++ [task]),
            Execute tasks)
  | Go, Execute [] => Some (g, Check)
  | Go, WorkerDone => None
  end.

(** The program: the shared state and the two threads. *)
Record config := Config { mem : state; mainT : main_thread; workerT : worker_thread }.

Inductive action := StepMain | StepWorker (ch : choice).

Definition worker_step (a : action) (c : config) : option config :=
  match a with
  | StepMain =>
      '(g, l) ← main_tstep (bool_decide (workerT c = WorkerDone)) (mem c) (mainT c);
      Some (Config g l (workerT c))
  | StepWorker ch =>
      '(g, l) ← WorkerThread ch (mem c) (workerT c); Some (Config g (mainT c) l)
  end.

(** [Worker worker;] in a program that adds [tasks] and leaves the scope. *)
Definition worker_init (tasks : list Z) : config :=
  Config (State None false [] false []) (Main tasks) Check.

(** ** The invariant *)

Definition to_add (l : main_thread) : list Z :=
  match l with
  | Main todo | AddRelease todo | AddNotify todo => todo
  | AddPush task todo => task :: todo
  | _ => []
  end.

Definition in_hand (l : worker_thread) : list Z :=
  match l with Release tasks | Execute tasks => tasks | _ => [] end.

Definition main_owns (l : main_thread) : bool :=
  match l with AddPush _ _ | AddRelease _ => true | _ => false end.

Definition worker_owns (l : worker_thread) : bool :=
  match l with Test | Swap | Release _ => true | _ => false end.

(** A task was added and its notification is still to come. *)
Definition will_notify (l : main_thread) : bool :=
  match l with AddRelease _ | AddNotify _ => true | _ => false end.

Definition stopping (l : main_thread) : bool :=
  match l with Joining | MainDone => true | _ => false end.

Record worker_inv (all : list Z) (c : config) : Prop := {
  inv_tasks : executed (mem c) ++ in_hand (workerT c) ++ m_tasks (mem c) ++ to_add (mainT c) = all;
  inv_main : main_owns (mainT c) = bool_decide (m_mtx (mem c) = Some MainOwns);
  inv_worker : worker_owns (workerT c) = bool_decide (m_mtx (mem c) = Some WorkerOwns);
  inv_sleep : m_newTaskAdded (mem c) = true →
    workerT c = Sleeping ∧ (m_tasks (mem c) = [] ∨ will_notify (mainT c) = true);
  inv_stop : stop_requested (mem c) = stopping (mainT c);
  inv_ended : (mainT c = MainDone → workerT c = WorkerDone) }.

Lemma main_preserves all c c' :
  worker_inv all c → worker_step StepMain c = Some c' → worker_inv all c'.
Proof.
  intros [Ht Hm Hw Hs Hst He] Hstep. destruct c as [[mtx nt ts st ex] m w]; simpl in *.
  destruct m as [[|task todo]|task todo|todo|todo| |]; simpl in *; unfold acquire in *; simpl in *;
    inv_opt; split; simpl in *; rewrite ?app_nil_r, <- ?app_assoc in *; simpl in *; try done;
    repeat case_bool_decide; naive_solver.
Qed.

Lemma worker_preserves all ch c c' :
  worker_inv all c → worker_step (StepWorker ch) c = Some c' → worker_inv all c'.
Proof.
  intros [Ht Hm Hw Hs Hst He] Hstep. destruct c as [[mtx nt ts st ex] m w]; simpl in *.
  destruct ch, w as [| | | | |tasks|[|task tasks]|]; simpl in *; unfold acquire in *; simpl in *;
    inv_opt; split; simpl in *; rewrite ?app_nil_r, <- ?app_assoc in *; simpl in *; try done;
    repeat case_bool_decide; destruct (stopping m) eqn:?; simpl in *; intuition congruence.
Qed.

Lemma worker_reach tasks c : reach worker_step (worker_init tasks) c → worker_inv tasks c.
Proof.
  apply reach_inv; [by split|]. intros [|ch] c1 c2; [apply main_preserves|apply worker_preserves].
Qed.

(** ** Progress *)

Lemma main_moves all c :
  worker_inv all c → worker_step StepMain c = None →
  (∃ task todo, mainT c = Main (task :: todo)) ∧ m_mtx (mem c) ≠ None ∨
  mainT c = Joining ∧ workerT c ≠ WorkerDone ∨ mainT c = MainDone.
Proof.
  intros HI Hs. destruct c as [[mtx nt ts st ex] m w]; simpl in *.
  destruct m as [[|task todo]|task todo|todo|todo| |]; simpl in *; unfold acquire in *; simpl in *; inv_opt; eauto 10.
Qed.

Lemma worker_moves all c :
  worker_inv all c → worker_step (StepWorker Go) c = None →
  (workerT c = Enter ∨ workerT c = Sleeping) ∧ m_mtx (mem c) ≠ None ∨
  workerT c = Sleeping ∧ m_newTaskAdded (mem c) = true ∨ workerT c = WorkerDone.
Proof.
  intros HI Hs. destruct c as [[mtx nt ts st ex] m w]; simpl in *.
  destruct w as [| | | | |tasks|[|task tasks]|]; simpl in *; unfold acquire in *; simpl in *; try done;
    destruct ts, nt, mtx; simpl in *; try done; auto 6.
Qed.

(** When neither thread can move: both are at their end, or the worker sleeps
    for ever while [main] waits for it, all tasks executed. *)
Lemma worker_stuck all c :
  worker_inv all c → worker_step StepMain c = None → worker_step (StepWorker Go) c = None →
  mainT c = MainDone ∧ workerT c = WorkerDone ∨
  mainT c = Joining ∧ workerT c = Sleeping ∧ executed (mem c) = all.
Proof.
  intros HI HM HW. apply (main_moves _ _ HI) in HM. apply (worker_moves _ _ HI) in HW.
  destruct HI as [Ht Hm Hw Hs Hst He]. destruct c as [[mtx nt ts st ex] m w]; simpl in *.
  destruct HM as [[(task & todo & ->) Hx]|[[-> Hd]| ->]]; simpl in *;
    destruct HW as [[[->| ->] Hy]|[[-> Hz]| ->]]; simpl in *;
    destruct mtx as [[]|]; try done; simplify_eq/=; auto;
    destruct (Hs eq_refl) as (_ & [->|?]); simplify_eq/=; rewrite ?app_nil_r in *; naive_solver.
Qed.

(** ** Properties *)

(** Every task is executed once and in order.  In every reachable
    state, with spurious wake-ups or without, the tasks executed, those the
    worker has in hand, those queued and those still to be added are, in this
    order, the tasks of the program. *)
Theorem worker_executes_in_order (tasks : list Z) c :
  reach worker_step (worker_init tasks) c →
  executed (mem c) ++ in_hand (workerT c) ++ m_tasks (mem c) ++ to_add (mainT c) = tasks.
Proof. intros Hr. apply (worker_reach _ _ Hr). Qed.

(** The worker falls asleep; a task is added, taken and executed while the next
    two are added; these are taken together. *)
Definition tasks_run : list action :=
  replicate 3 (StepWorker Go) ++ replicate 4 StepMain ++ replicate 4 (StepWorker Go) ++
  replicate 8 StepMain ++ replicate 7 (StepWorker Go).

Lemma worker_executes_in_order_witness :
  ∃ c, run worker_step tasks_run (worker_init [10; 4; 5]) = Some c ∧
    executed (mem c) = [10] ∧ in_hand (workerT c) = [4; 5] ∧
    executed (mem c) ++ in_hand (workerT c) ++ m_tasks (mem c) ++ to_add (mainT c) = [10; 4; 5].
Proof.
  destruct (run worker_step tasks_run (worker_init [10; 4; 5])) as [c|] eqn:E;
    [|vm_compute in E; discriminate].
  exists c. split; [reflexivity|].
  pose proof (worker_executes_in_order [10; 4; 5] c (run_reach _ _ _ _ E)) as H.
  split_ands; [| |exact H]; vm_compute in E; injection E as <-; reflexivity.
Defined.

(** C26: No task waits for a sleeping worker.  When neither thread can
    move without a spurious wake-up, either the program has ended, or all tasks
    have been executed and the destructor waits for a worker that sleeps (which
    the program of [main] does, see the witness). *)
Theorem worker_never_stalls (tasks : list Z) c :
  reach worker_step (worker_init tasks) c →
  (∃ a c', a ≠ StepWorker Spurious ∧ worker_step a c = Some c') ∨
  mainT c = MainDone ∧ workerT c = WorkerDone ∨
  mainT c = Joining ∧ workerT c = Sleeping ∧ executed (mem c) = tasks.
Proof.
  intros Hr%worker_reach.
  destruct (worker_step StepMain c) as [c'|] eqn:EM; [left; by exists StepMain, c'|].
  destruct (worker_step (StepWorker Go) c) as [c'|] eqn:EW; [left; by exists (StepWorker Go), c'|].
  right. by eapply worker_stuck.
Qed.

(** All tasks executed, the worker asleep, [main] at the end of its scope. *)
Definition shutdown_run : list action :=
  tasks_run ++ replicate 6 (StepWorker Go) ++ [StepMain].

(** The program of condition_variable_any.cpp hangs: after its three tasks the
    worker waits on the condition variable without the stop token, so the stop
    requested by the destructor does not wake it, and [main] never returns from
    the join. *)
Lemma worker_never_stalls_witness :
  ∃ c, run worker_step shutdown_run (worker_init [10; 4; 5]) = Some c ∧
    stop_requested (mem c) = true ∧ worker_step StepMain c = None ∧ worker_step (StepWorker Go) c = None ∧
    mainT c = Joining ∧ workerT c = Sleeping ∧ executed (mem c) = [10; 4; 5].
Proof.
  assert (∃ c, run worker_step shutdown_run (worker_init [10; 4; 5]) = Some c ∧
    stop_requested (mem c) = true ∧ worker_step StepMain c = None ∧
    worker_step (StepWorker Go) c = None ∧ mainT c = Joining) as (c & Hc & Hst & HM & HW & Hj)
    by (eexists; split; [vm_compute; reflexivity|split_ands; reflexivity]).
  exists c. split; [exact Hc|]. split_ands; [exact Hst|exact HM|exact HW|..];
    destruct (worker_never_stalls [10; 4; 5] c (run_reach _ _ _ _ Hc))
      as [(a & c' & Ha & Hs)|[[H _]|(H1 & H2 & H3)]]; try assumption; try congruence;
    destruct a as [|[]]; congruence.
Defined.
End Worker.
