(* ===== verification/Races.v ===== *)
(** Races on one variable: sync_intro/data_race.cpp and the atomics/ programs of
    synchronization_primitives.

    Each program runs two threads on one [int] and reports whether the final
    value is the expected one.  Here the threads are any number.  A plain [++x] is
    a load and a store; an atomic operation is one step; a weak compare-and-swap
    may fail spuriously.  (In C++ the plain [++x] of two threads is undefined
    behaviour; the machine shows what it does when each half is an access of its
    own.) *)

From S2P Require Import Prelude Machine.
From stdpp Require Import options.

Local Open Scope Z_scope.

Module Counter.

(** * [++x], plain or atomic *)

(** A thread with [rest] increments to do, outside or between the two halves of
    one. *)
Inductive thread := Idle (rest : nat) | Loaded (rest : nat) (tmp : Z).

Definition plain_increment (x : Z) (l : thread) : option (Z * thread) :=
  match l with
  | Idle O => None
  | Idle (S rest) => Some (x, Loaded rest x)
  | Loaded rest tmp => Some (i32_wrap (tmp + 1), Idle rest)
  end.

Definition atomic_increment (x : Z) (l : thread) : option (Z * thread) :=
  match l with
  | Idle O => None
  | Idle (S rest) => Some (i32_wrap (x + 1), Idle rest)
  | Loaded _ _ => None
  end.

Definition counter_tstep (atomic : bool) (_ : nat) (_ : unit) (x : Z) (l : thread) : option (Z * thread) :=
  if atomic then atomic_increment x l else plain_increment x l.

Definition counter_step (atomic : bool) : act unit → conf Z thread → option (conf Z thread) :=
  conf_step (counter_tstep atomic).

(** [n] threads with [k] increments each. *)
Definition counter_init (n k : nat) : conf Z thread := Conf 0 (replicate n (Idle k)).

Definition done (l : thread) : Prop := l = Idle 0.

(** Increments not stored yet. *)
Definition todo (l : thread) : Z :=
  match l with Idle rest => Z.of_nat rest | Loaded rest _ => Z.of_nat rest + 1 end.

(** The thread has stored before. *)
Definition began (k : nat) (l : thread) : bool :=
  match l with Idle rest => (rest <? k)%nat | Loaded rest _ => (S rest <? k)%nat end.

(** Values are at most the number of stores made, and positive once there was
    one. *)
Record counter_inv (all : Z) (k : nat) (c : conf Z thread) : Prop := {
  inv_sum : 0 ≤ shared c ≤ all - total todo (threads c);
  inv_tmp i rest tmp : threads c !! i = Some (Loaded rest tmp) →
    0 ≤ tmp ≤ all - total todo (threads c) ∧ (began k (Loaded rest tmp) = true → 1 ≤ tmp);
  inv_began i l : threads c !! i = Some l → began k l = true → 1 ≤ shared c }.

Lemma todo_nonneg l : 0 ≤ todo l.
Proof. destruct l; simpl; lia. Qed.

Lemma todo_le ls i l : ls !! i = Some l → todo l ≤ total todo ls.
Proof.
  revert i. induction ls as [|z ls IH]; intros [|i] Hl; [done..| |]; rewrite total_cons;
    pose proof (total_nonneg todo ls todo_nonneg); pose proof (todo_nonneg z); simplify_eq/=; [lia|].
  specialize (IH _ Hl). lia.
Qed.

Lemma load_preserves all k c i rest :
  counter_inv all k c → threads c !! i = Some (Idle (S rest)) →
  counter_inv all k (Conf (shared c) (<[i:=Loaded rest (shared c)]> (threads c))).
Proof.
  intros HI Hl. pose proof (inv_sum _ _ _ HI) as Hx.
  assert (total todo (<[i:=Loaded rest (shared c)]> (threads c)) = total todo (threads c)) as Ht.
  { rewrite (total_insert _ _ _ _ _ Hl). simpl. lia. }
  split; simpl; rewrite ?Ht; [done| |].
  - intros j r tmp [[-> E]|[Hne Hj]]%list_lookup_insert_Some'; rewrite ?Ht.
    + injection E as -> ->. split; [done|]. apply (inv_began _ _ _ HI _ _ Hl).
    + by apply (inv_tmp _ _ _ HI _ _ _ Hj).
  - intros j l [[-> ->]|[Hne Hj]]%list_lookup_insert_Some'; [by apply (inv_began _ _ _ HI _ _ Hl)|].
    by apply (inv_began _ _ _ HI _ _ Hj).
Qed.

Lemma store_preserves all k c i l rest v :
  counter_inv all k c → threads c !! i = Some l → todo l = Z.of_nat rest + 1 →
  0 ≤ v ≤ all - total todo (threads c) →
  counter_inv all k (Conf (v + 1) (<[i:=Idle rest]> (threads c))).
Proof.
  intros HI Hl Hr Hv.
  assert (total todo (<[i:=Idle rest]> (threads c)) = total todo (threads c) - 1) as Ht.
  { rewrite (total_insert _ _ _ _ _ Hl). simpl. lia. }
  split; simpl; rewrite ?Ht; [lia| |intros; lia].
  intros j r tmp [[-> E]|[Hne Hj]]%list_lookup_insert_Some'; [done|].
  destruct (inv_tmp _ _ _ HI _ _ _ Hj) as [? ?]. split; [lia|done].
Qed.

(** No addition wraps as long as all increments together fit an [int]. *)
Lemma store_fits all k c i l v :
  all ≤ INT_MAX → counter_inv all k c → threads c !! i = Some l → 1 ≤ todo l →
  0 ≤ v ≤ all - total todo (threads c) → i32_wrap (v + 1) = v + 1.
Proof.
  intros Hall HI Hl H1 Hv. pose proof (todo_le _ _ _ Hl). apply i32_wrap_small.
  unfold is_i32, INT_MIN. lia.
Qed.

Lemma counter_preserves all k atomic a c c' :
  all ≤ INT_MAX → counter_inv all k c → counter_step atomic a c = Some c' → counter_inv all k c'.
Proof.
  intros Hall HI (l & g' & l' & Hl & Hs & ->)%conf_step_inv. pose proof (inv_sum _ _ _ HI) as Hx.
  destruct atomic, l as [[|rest]|rest tmp]; simpl in Hs; try done; simplify_eq.
  - erewrite store_fits; [|done..|simpl; lia|done].
    eapply store_preserves; [done..|simpl; lia|done].
  - by apply load_preserves.
  - destruct (inv_tmp _ _ _ HI _ _ _ Hl) as [Hv _].
    erewrite store_fits; [|done..|simpl; lia|done]. by eapply store_preserves.
Qed.

Lemma counter_reach atomic n k c :
  Z.of_nat (n * k) ≤ INT_MAX → reach (counter_step atomic) (counter_init n k) c →
  counter_inv (Z.of_nat (n * k)) k c.
Proof.
  intros Hall. apply reach_inv; [|intros a c1 c2; by apply counter_preserves].
  assert (∀ i l, replicate n (Idle k) !! i = Some l → l = Idle k) as Hr by (by intros i l [-> _]%lookup_replicate).
  split; simpl.
  - rewrite total_replicate. simpl. lia.
  - by intros i rest tmp ?%Hr.
  - intros i l ->%Hr. simpl. rewrite Nat.ltb_irrefl. done.
Qed.

(** The step after which all are done stores a value that was read after a
    store. *)
Lemma last_store atomic n k c :
  (0 < n)%nat → (2 ≤ k)%nat → Z.of_nat (n * k) ≤ INT_MAX →
  reach (counter_step atomic) (counter_init n k) c → Forall done (threads c) → 2 ≤ shared c.
Proof.
  intros Hn Hk Hall Hr HF. destruct Hr as [|a c1 c2 Hr Hs].
  { destruct n; [lia|]. apply Forall_cons_iff in HF as [E _]. unfold done in E. simplify_eq. lia. }
  pose proof (counter_reach _ _ _ _ Hall Hr) as HI.
  apply conf_step_inv in Hs as (l & g' & l' & Hl & Hs & ->). simpl in *.
  assert (done l') as ->.
  { eapply Forall_lookup; [done|]. apply list_lookup_insert_eq. by eapply lookup_lt_Some. }
  pose proof (inv_sum _ _ _ HI).
  destruct atomic, l as [[|rest]|rest tmp]; simpl in Hs; try done; simplify_eq.
  - erewrite store_fits; [|done..|simpl; lia|done].
    pose proof (inv_began _ _ _ HI _ _ Hl) as Hb. simpl in Hb.
    rewrite (proj2 (Nat.ltb_lt _ _)) in Hb by lia. specialize (Hb eq_refl). lia.
  - destruct (inv_tmp _ _ _ HI _ _ _ Hl) as [Hv Hb]. simpl in Hb.
    rewrite (proj2 (Nat.ltb_lt _ _)) in Hb by lia. specialize (Hb eq_refl).
    erewrite store_fits; [|done..|simpl; lia|done]. lia.
Qed.

(** An atomic counter counts every increment. *)
Lemma atomic_exact n k c :
  Z.of_nat (n * k) ≤ INT_MAX → reach (counter_step true) (counter_init n k) c →
  Forall (λ l, ∃ rest, l = Idle rest) (threads c) ∧
  shared c + total todo (threads c) = Z.of_nat (n * k).
Proof.
  intros Hall Hr. induction Hr as [|a c1 c2 Hr [IH1 IH2] Hs].
  - simpl. split; [|rewrite total_replicate; simpl; lia].
    apply Forall_lookup. intros i l [-> _]%lookup_replicate. eauto.
  - pose proof (counter_reach _ _ _ _ Hall Hr) as HI.
    apply conf_step_inv in Hs as (l & g' & l' & Hl & Hs & ->). simpl in *.
    destruct (proj1 (Forall_lookup _ _) IH1 _ _ Hl) as [[|rest] ->]; simplify_eq/=.
    split; [apply Forall_insert; eauto|]. rewrite (total_insert _ _ _ _ _ Hl).
    erewrite store_fits; [|done..|simpl; lia|apply HI]. simpl. lia.
Qed.

(** What the counters can end with.  For any number of threads with
    at least two increments each, every run in which all are done leaves a value
    between 2 and the number of increments; with an atomic [x] it is the number of
    increments. *)
Theorem counter_final_value (atomic : bool) (n k : nat) c :
  (0 < n)%nat → (2 ≤ k)%nat → Z.of_nat (n * k) ≤ INT_MAX →
  reach (counter_step atomic) (counter_init n k) c → Forall done (threads c) →
  2 ≤ shared c ≤ Z.of_nat (n * k) ∧ (atomic = true → shared c = Z.of_nat (n * k)).
Proof.
  intros Hn Hk Hall Hr HF.
  assert (total todo (threads c) = 0) as Ht.
  { clear Hr. induction HF as [|l ls -> _ IH]; [done|]. by rewrite total_cons, IH. }
  pose proof (inv_sum _ _ _ (counter_reach _ _ _ _ Hall Hr)) as Hx. split; [split; [|lia]|].
  - by eapply last_store.
  - intros ->. destruct (atomic_exact _ _ _ Hall Hr) as [_ E]. lia.
Qed.

Definition steps (i n : nat) : list (act unit) := replicate n (Act i tt).

(** The first thread's load and store enclose all increments of the second but
    the last, whose load and store enclose the rest of the first. *)
Definition worst_case (k : nat) : list (act unit) :=
  steps 0 1 ++ steps 1 (2 * (k - 1)) ++ steps 0 1 ++ steps 1 1 ++ steps 0 (2 * (k - 1)) ++ steps 1 1.

(** The bound is reached by the program of sync_intro/data_race.cpp: two threads
    with a thousand increments each can leave 2. *)
Lemma counter_final_value_witness :
  ∃ c, run (counter_step false) (worst_case 1000) (counter_init 2 1000) = Some c ∧
    shared c = 2 ∧ 2 ≤ shared c ≤ 2000.
Proof.
  destruct (run (counter_step false) (worst_case 1000) (counter_init 2 1000)) as [c|] eqn:E;
    [|vm_compute in E; discriminate].
  assert (threads c = [Idle 0; Idle 0] ∧ shared c = 2) as [Ht Hx]
    by (vm_compute in E; injection E as <-; split; reflexivity).
  exists c. split; [reflexivity|]. split; [exact Hx|].
  apply (counter_final_value false 2 1000 c); [lia|lia|by vm_compute|exact (run_reach _ _ _ _ E)|].
  rewrite Ht. by repeat constructor.
Defined.
End Counter.

Module Decrement.

(** * Taking 100 off [x] once *)

(** A thread of atomics/race_condition.cpp ([Checking], [Subtracting]) or of
    atomics/cas.cpp ([Reading], [Looping] with its [expected]). *)
Inductive thread := Checking | Subtracting | Reading | Looping (expected : Z) | Done.

Definition checked_decrement (x : Z) (l : thread) : option (Z * thread) :=
  match l with
  | Checking => if x >? 0 then Some (x, Subtracting) else Some (x, Done)
  | Subtracting => Some (i32_wrap (x - 100), Done)
  | _ => None
  end.

(** A failed exchange stores the actual value in [expected]; a successful one
    leaves [expected] as it is, and its result is not looked at. *)
Definition cas_decrement (spurious : bool) (x : Z) (l : thread) : option (Z * thread) :=
  match l with
  | Reading => Some (x, Looping x)
  | Looping expected =>
      if expected >? 0 then
        if (x =? expected) && negb spurious
        then Some (expected - 100, Looping expected) else Some (x, Looping x)
      else Some (x, Done)
  | _ => None
  end.

(** The choice is a spurious failure of the weak exchange. *)
Definition decrement_tstep (_ : nat) (spurious : bool) (x : Z) (l : thread) : option (Z * thread) :=
  match l with
  | Checking | Subtracting => checked_decrement x l
  | Reading | Looping _ => cas_decrement spurious x l
  | Done => None
  end.

Definition decrement_step : act bool → conf Z thread → option (conf Z thread) :=
  conf_step decrement_tstep.

(** [std::atomic<int> x{100}] and [n] threads of one of the programs. *)
Definition decrement_init (start : thread) (n : nat) : conf Z thread :=
  Conf 100 (replicate n start).

(** ** With compare-and-swap *)

Definition cas_ok (x : Z) (l : thread) : Prop :=
  match l with
  | Reading => True
  | Looping expected => expected = 100 ∨ expected = 0 ∧ x = 0
  | Done => x = 0
  | _ => False
  end.

Definition cas_inv (c : conf Z thread) : Prop :=
  (shared c = 100 ∨ shared c = 0) ∧ Forall (cas_ok (shared c)) (threads c).

Lemma cas_preserves a c c' : cas_inv c → decrement_step a c = Some c' → cas_inv c'.
Proof.
  intros [Hx HF] (l & g' & l' & Hl & Hs & ->)%conf_step_inv.
  pose proof (proj1 (Forall_lookup _ _) HF _ _ Hl) as Hok.
  assert ((g' = shared c ∨ g' = 0) ∧ cas_ok g' l') as [Hg Hok'].
  { destruct l as [| | |e|]; simpl in Hs, Hok; try done.
    - simplify_eq. simpl. naive_solver.
    - destruct (Z.gtb_spec e 0); [|simplify_eq; simpl; lia].
      destruct (Z.eqb_spec (shared c) e); [destruct (Machine.choice a)|]; simplify_eq/=; lia. }
  split; simpl; [lia|]. apply Forall_insert; [|done].
  apply Forall_lookup. intros j lj Hj. pose proof (proj1 (Forall_lookup _ _) HF _ _ Hj) as Hj'.
  destruct lj; simpl in *; try done; lia.
Qed.

(** Steps to go when nothing fails spuriously. *)
Definition cas_left (x : Z) (l : thread) : Z :=
  match l with
  | Reading => 4
  | Looping expected => if expected >? 0 then (if x =? expected then 3 else 2) else 1
  | _ => 0
  end.

Lemma cas_left_nonneg x l : 0 ≤ cas_left x l.
Proof. destruct l as [| | |e|]; simpl; try lia. destruct (e >? 0), (x =? e); lia. Qed.

Lemma cas_left_decreases i c c' :
  cas_inv c → decrement_step (Act i false) c = Some c' →
  total (cas_left (shared c')) (threads c') < total (cas_left (shared c)) (threads c).
Proof.
  intros [Hx HF] (l & g' & l' & Hl & Hs & ->)%conf_step_inv. simpl in *.
  pose proof (proj1 (Forall_lookup _ _) HF _ _ Hl) as Hok.
  assert ((g' = shared c ∨ shared c = 100 ∧ g' = 0) ∧ cas_left g' l' < cas_left (shared c) l) as [Hg Hlt].
  { destruct l as [| | |e|]; simpl in Hs, Hok; try done; simplify_eq; simpl.
    - split; [auto|]. destruct (Z.gtb_spec (shared c) 0); [rewrite Z.eqb_refl|]; lia.
    - destruct (Z.gtb_spec e 0); [|simplify_eq; simpl; lia].
      destruct (Z.eqb_spec (shared c) e); simpl in Hs; simplify_eq; simpl.
      + split; [lia|]. destruct (Z.gtb_spec (shared c) 0), (Z.eqb_spec (shared c - 100) (shared c)); lia.
      + split; [auto|]. destruct (Z.gtb_spec (shared c) 0); [|lia]. rewrite Z.eqb_refl. lia. }
  eapply Z.le_lt_trans; [apply (total_insert_le (cas_left (shared c))); [|done]|lia].
  intros z. destruct Hg as [->|[-> ->]]; [lia|]. destruct z as [| | |e|]; cbn [cas_left]; try lia.
  destruct (Z.gtb_spec e 0), (Z.eqb_spec 0 e), (Z.eqb_spec 100 e); lia.
Qed.

(** ** Without *)

(** Threads that may still subtract. *)
Definition may_subtract (l : thread) : Z :=
  match l with Checking | Subtracting => 1 | _ => 0 end.

Definition plain (l : thread) : Prop :=
  match l with Checking | Subtracting | Done => True | _ => False end.

Record race_inv (n : nat) (c : conf Z thread) : Prop := {
  inv_low : 100 - 100 * (Z.of_nat n - total may_subtract (threads c)) ≤ shared c ≤ 100;
  inv_hundreds : (100 | shared c);
  inv_some_done : Done ∈ threads c → shared c ≤ 0;
  inv_plain : Forall plain (threads c) }.

Lemma may_subtract_nonneg l : 0 ≤ may_subtract l.
Proof. by destruct l. Qed.

Lemma elem_of_insert_done (ls : list thread) i l' :
  Done ∈ <[i:=l']> ls → l' = Done ∨ Done ∈ ls.
Proof.
  intros [j [[-> <-]|[_ Hj]]%list_lookup_insert_Some']%list_elem_of_lookup; [by left|right].
  apply list_elem_of_lookup. eauto.
Qed.

Lemma race_preserves n a c c' :
  100 * Z.of_nat n ≤ INT_MAX → race_inv n c → decrement_step a c = Some c' → race_inv n c'.
Proof.
  intros Hn [Hlow Hdiv Hdone Hp] (l & g' & l' & Hl & Hs & ->)%conf_step_inv.
  pose proof (proj1 (Forall_lookup _ _) Hp _ _ Hl) as Hpl.
  pose proof (total_insert may_subtract _ _ _ l' Hl) as Ht.
  pose proof (total_nonneg may_subtract (threads c) may_subtract_nonneg).
  destruct l; simpl in Hs, Hpl, Ht; try done.
  - destruct (Z.gtb_spec (shared c) 0); simplify_eq; split; simpl in *; try (apply Forall_insert; done);
      try done; try lia; intros [?|?]%elem_of_insert_done; auto; done.
  - rewrite i32_wrap_small in Hs by (unfold is_i32, INT_MIN, INT_MAX in *; lia). simplify_eq.
    split; simpl in *; [lia| | |by apply Forall_insert].
    + apply Z.divide_sub_r; [done|by exists 1].
    + intros _. lia.
Qed.

Lemma replicate_lookup_all {A} n (x : A) (P : A → Prop) : P x → Forall P (replicate n x).
Proof. intros Hx. apply Forall_lookup. by intros i l [-> _]%lookup_replicate. Qed.

Lemma race_reach n c :
  100 * Z.of_nat n ≤ INT_MAX → reach decrement_step (decrement_init Checking n) c → race_inv n c.
Proof.
  intros Hn. apply reach_inv; [|intros a c1 c2; by apply race_preserves].
  split; simpl.
  - rewrite total_replicate. simpl. lia.
  - by exists 1.
  - by intros [i [? _]%lookup_replicate]%list_elem_of_lookup.
  - by apply replicate_lookup_all.
Qed.

(** ** Properties *)

(** The compare-and-swap loop takes off the 100 exactly once.  For any
    positive number of threads of atomics/cas.cpp, every run in which all are
    done, whatever exchanges failed spuriously, leaves 0; and without spurious
    failures every run has at most four steps per thread. *)
Theorem cas_leaves_zero (n : nat) :
  (∀ c, (0 < n)%nat → reach decrement_step (decrement_init Reading n) c →
     Forall (λ l, l = Done) (threads c) → shared c = 0) ∧
  terminates_within (λ i, decrement_step (Act i false)) (4 * n) (decrement_init Reading n).
Proof.
  assert (cas_inv (decrement_init Reading n)) as H0.
  { split; [by left|]. by apply replicate_lookup_all. }
  split.
  - intros c Hn Hr HF. assert (cas_inv c) as [_ HF'] by (eapply reach_inv; [done|apply cas_preserves|done]).
    pose proof (reach_threads _ _ _ Hr) as Hlen. simpl in Hlen. rewrite length_replicate in Hlen.
    destruct (lookup_lt_is_Some_2 (threads c) 0) as [l Hl]; [lia|].
    pose proof (proj1 (Forall_lookup _ _) HF _ _ Hl) as ->.
    by apply (proj1 (Forall_lookup _ _) HF' _ _ Hl).
  - replace (4 * n)%nat
      with (Z.to_nat (total (cas_left (shared (decrement_init Reading n))) (threads (decrement_init Reading n))))
      by (simpl; rewrite total_replicate; simpl; lia).
    apply (measure_terminates _ cas_inv (λ c, Z.to_nat (total (cas_left (shared c)) (threads c)))); [done|].
    intros i c1 c2 HI Hs. split; [by eapply cas_preserves|].
    pose proof (cas_left_decreases _ _ _ HI Hs).
    pose proof (total_nonneg (cas_left (shared c2)) (threads c2) (cas_left_nonneg _)). lia.
Qed.

(** Both threads read 100; the first exchange fails spuriously, the second
    succeeds, the first one's fails. *)
Definition contended : list (act bool) :=
  (λ '(i, b), Act i b) <$>
    [(0, false); (1, false); (0, true); (1, false); (0, false); (1, false); (0, false); (1, false)]%nat.

Lemma cas_leaves_zero_witness :
  ∃ c, run decrement_step contended (decrement_init Reading 2) = Some c ∧ shared c = 0.
Proof.
  destruct (run decrement_step contended (decrement_init Reading 2)) as [c|] eqn:E;
    [|vm_compute in E; discriminate].
  exists c. split; [reflexivity|].
  apply (proj1 (cas_leaves_zero 2) c); [lia|exact (run_reach _ _ _ _ E)|].
  vm_compute in E. injection E as <-. by repeat constructor.
Defined.

(** Test and subtraction are two steps.  For any positive number [n] of
    threads of atomics/race_condition.cpp, every run in which all are done leaves
    a multiple of 100 between [100 - 100 n] and 0. *)
Theorem race_final_value (n : nat) c :
  (0 < n)%nat → 100 * Z.of_nat n ≤ INT_MAX → reach decrement_step (decrement_init Checking n) c →
  Forall (λ l, l = Done) (threads c) →
  100 - 100 * Z.of_nat n ≤ shared c ≤ 0 ∧ (100 | shared c).
Proof.
  intros Hn Hmax Hr HF. pose proof (race_reach _ _ Hmax Hr) as [Hlow Hdiv Hdone _].
  assert (total may_subtract (threads c) = 0) as Ht.
  { clear -HF. induction HF as [|l ls -> _ IH]; [done|]. by rewrite total_cons, IH. }
  pose proof (reach_threads _ _ _ Hr) as Hlen. simpl in Hlen. rewrite length_replicate in Hlen.
  destruct (lookup_lt_is_Some_2 (threads c) 0) as [l Hl]; [lia|].
  pose proof (proj1 (Forall_lookup _ _) HF _ _ Hl) as ->.
  split; [|done]. split; [lia|]. apply Hdone, list_elem_of_lookup. eauto.
Qed.

Definition both_check : list (act bool) := (λ i, Act i false) <$> [0; 1; 0; 1]%nat.

Definition one_after_the_other : list (act bool) := (λ i, Act i false) <$> [0; 0; 1]%nat.

(** Both ends of the range are reached by the two threads of the program. *)
Lemma race_final_value_witness :
  (∃ c, run decrement_step both_check (decrement_init Checking 2) = Some c ∧
     shared c = -100 ∧ 100 - 100 * 2 ≤ shared c ≤ 0) ∧
  (∃ c, run decrement_step one_after_the_other (decrement_init Checking 2) = Some c ∧
     shared c = 0).
Proof.
  split; [|eexists; split; [vm_compute; reflexivity|reflexivity]].
  destruct (run decrement_step both_check (decrement_init Checking 2)) as [c|] eqn:E;
    [|vm_compute in E; discriminate].
  assert (threads c = [Done; Done] ∧ shared c = -100) as [Ht Hx]
    by (vm_compute in E; injection E as <-; split; reflexivity).
  exists c. split; [reflexivity|]. split; [exact Hx|].
  apply (race_final_value 2 c); [lia|by vm_compute|exact (run_reach _ _ _ _ E)|].
  rewrite Ht. by repeat constructor.
Defined.
End Decrement.

Module Operations.

(** * atomics/atomic_operations.cpp *)

(** The operations of [std::atomic<int>] for one thread: what they return and the
    value afterwards. *)
Definition load (x : Z) : Z := x.

Definition exchange (v x : Z) : Z * Z := (x, v).

Definition fetch_add (n x : Z) : Z * Z := (x, i32_wrap (x + n)).

Definition fetch_sub (n x : Z) : Z * Z := (x, i32_wrap (x - n)).

(** Whether it exchanged, [expected] afterwards, and the value; [spurious] is a
    failure the weak form may have. *)
Definition compare_exchange (spurious : bool) (expected desired x : Z) : bool * Z * Z :=
  if (x =? expected) && negb spurious then (true, expected, desired) else (false, x, x).

Definition compare_exchange_strong := compare_exchange false.

Inductive line :=
  | Initial (x : Z)
  | AfterWrite (x : Z)
  | BeforeAfter (previousValue x : Z)
  | Actual (expected : Z) (exchanged : bool).

(** [main], with the failures of the two weak exchanges; the last value of [x] and
    the output. *)
Definition operations_main (spurious1 spurious2 : bool) : Z * list line :=
  let x0 := 100 in
  let x1 := 1337 in
  let x2 := 228 in
  let '(previous1, x3) := exchange 322 x2 in
  let '(previous2, x4) := fetch_add 1 x3 in
  let '(previous3, x5) := fetch_sub 10 x4 in
  let '(exchanged1, expected1, x6) := compare_exchange_strong 0 322 x5 in
  let '(exchanged2, expected2, x7) := compare_exchange_strong expected1 322 x6 in
  let '(exchanged3, expected3, x8) := compare_exchange spurious1 0 322 x7 in
  let '(exchanged4, expected4, x9) := compare_exchange spurious2 expected3 322 x8 in
  (x9, [Initial (load x0); Initial (load x0); AfterWrite (load x1); AfterWrite (load x2);
        BeforeAfter previous1 (load x3); BeforeAfter previous2 (load x4); BeforeAfter previous3 (load x5);
        Actual expected1 exchanged1; Actual expected2 exchanged2; Actual expected3 exchanged3;
        Actual expected4 exchanged4]).

(** A retry loop around the weak exchange ends with the desired value as soon as one
    exchange does not fail spuriously: a failure leaves the value as it is, and
    makes [expected] right for the next try. *)
Lemma compare_exchange_retry spurious expected desired x :
  match compare_exchange spurious expected desired x with
  | (true, e, x') => x = expected ∧ e = expected ∧ x' = desired
  | (false, e, x') => x' = x ∧ compare_exchange_strong e desired x' = (true, x, desired)
  end.
Proof.
  unfold compare_exchange_strong, compare_exchange.
  destruct (Z.eqb_spec x expected) as [->|H]; destruct spurious; simpl; by rewrite ?Z.eqb_refl.
Qed.

(** The output: only the success of the last exchange depends on what the weak
    form does, and the value does not. *)
Theorem operations_output spurious1 spurious2 :
  operations_main spurious1 spurious2 =
    (322, [Initial 100; Initial 100; AfterWrite 1337; AfterWrite 228; BeforeAfter 228 322; BeforeAfter 322 323;
           BeforeAfter 323 313; Actual 313 false; Actual 313 true; Actual 322 false; Actual 322 (negb spurious2)]).
Proof. by destruct spurious1, spurious2. Qed.

End Operations.
