(* ===== verification/CounterPrograms.v ===== *)
(** The [main] functions of sync_intro/data_race.cpp and of atomics/data_race.cpp,
    race_condition.cpp and cas.cpp, of mutex/mutex.cpp and mutex/spinlock.cpp, and of
    condition_variable/condvar_intro.cpp: a modelled run is repeated, and the runs
    that leave the expected value are counted.

    Each run has a schedule of its own.  With an atomic counter, with the
    compare-and-swap loop and with any lock every run is right, whatever the
    schedules; the others may report anything between all right and all wrong. *)

From S2P Require Import Prelude Machine Locks CondVar Races.
From stdpp Require Import options.

(** * Counting runs *)

Section programs.
Context {G L C : Type} (tstep : nat → C → G → L → option (G * L)) (ended : L → bool) (value : G → Z).

(** One run: all threads are started, run as the schedule says, and joined.  [None]
    is a schedule that does not fit the program or leaves a thread unfinished. *)
Definition one_run (start : conf G L) (sched : list (act C)) : option Z :=
  c ← run (conf_step tstep) sched start;
  if forallb ended (threads c) then Some (value (shared c)) else None.

(** The loop over the runs: the numbers of right and of wrong ones. *)
Definition count_runs (expected : Z) (start : conf G L) (scheds : list (list (act C))) : option (nat * nat) :=
  tally expected <$> mapM (one_run start) scheds.

Lemma one_run_reach start sched x :
  one_run start sched = Some x →
  ∃ c, reach (conf_step tstep) start c ∧ Forall (λ l, ended l = true) (threads c) ∧ value (shared c) = x.
Proof.
  unfold one_run. destruct (run _ sched start) as [c|] eqn:E; [|done]. cbn.
  destruct (forallb ended (threads c)) eqn:Ef; [|done]. intros. simplify_eq. exists c.
  split_ands; [by eapply run_reach| |done]. apply Forall_forall. intros l Hl.
  rewrite forallb_forall in Ef. apply Ef. done.
Qed.

(** When every complete run leaves the expected value, all runs are right. *)
Lemma count_runs_right expected start scheds r :
  (∀ c, reach (conf_step tstep) start c → Forall (λ l, ended l = true) (threads c) → value (shared c) = expected) →
  count_runs expected start scheds = Some r → r = (length scheds, 0).
Proof.
  intros Hok. unfold count_runs. destruct (mapM _ scheds) as [xs|] eqn:E; [|done]. cbn. intros. simplify_eq.
  assert (xs = replicate (length scheds) expected) as ->.
  { apply mapM_Some_1 in E. induction E as [|sched x scheds xs Hx _ IH]; [done|]. cbn. f_equal; [|done].
    apply one_run_reach in Hx as (c & Hr & HF & <-). by apply Hok. }
  unfold tally. by rewrite tally_all_from.
Qed.

(** In any case all runs are counted. *)
Lemma tally_sum expected xs a b :
  let '(right_, wrong) := foldl (λ '(correctSum, incorrectSum) x,
    if (x =? expected)%Z then (S correctSum, incorrectSum) else (correctSum, S incorrectSum)) (a, b) xs in
  right_ + wrong = a + b + length xs.
Proof.
  revert a b. induction xs as [|x xs IH]; intros a b; cbn; [lia|].
  destruct (x =? expected)%Z; [specialize (IH (S a) b)|specialize (IH a (S b))];
    destruct (foldl _ _ xs) as [r w]; lia.
Qed.

Lemma count_runs_sum expected start scheds right_ wrong :
  count_runs expected start scheds = Some (right_, wrong) → right_ + wrong = length scheds.
Proof.
  unfold count_runs. destruct (mapM _ scheds) as [xs|] eqn:E; [|done]. cbn. intros H. injection H as H.
  apply length_mapM in E. pose proof (tally_sum expected xs 0 0) as Hs. unfold tally in H. rewrite H in Hs. lia.
Qed.

Lemma tally_replicate expected other a b k l :
  other ≠ expected →
  foldl (λ '(correctSum, incorrectSum) x,
    if (x =? expected)%Z then (S correctSum, incorrectSum) else (correctSum, S incorrectSum)) (k, l)
    (replicate a expected ++ replicate b other) = (k + a, l + b).
Proof.
  intros Hne. revert k l. induction a as [|a IH]; intros k l; cbn [replicate app].
  - revert k l. induction b as [|b IH]; intros k l; cbn; [f_equal; lia|].
    rewrite (proj2 (Z.eqb_neq _ _) Hne), IH. f_equal; lia.
  - cbn. rewrite Z.eqb_refl, IH. f_equal; lia.
Qed.

(** A right and a wrong schedule give any report. *)
Lemma count_runs_mixed expected other start good bad a b :
  one_run start good = Some expected → (b = 0 ∨ one_run start bad = Some other) → other ≠ expected →
  count_runs expected start (replicate a good ++ replicate b bad) = Some (a, b).
Proof.
  intros Hg Hb Hne. unfold count_runs.
  rewrite (proj2 (mapM_Some _ _ (replicate a expected ++ replicate b other))).
  - cbn. f_equal. unfold tally. by rewrite tally_replicate.
  - apply Forall2_app; [by apply Forall2_replicate|]. destruct Hb as [->|Hb]; [done|by apply Forall2_replicate].
Qed.

Lemma count_runs_possible expected start good n :
  one_run start good = Some expected → ∃ scheds, length scheds = n ∧ is_Some (count_runs expected start scheds).
Proof.
  intros Hg. exists (replicate n good ++ replicate 0 []). split; [cbn; by rewrite app_nil_r, length_replicate|].
  rewrite (count_runs_mixed _ (expected + 1)); eauto. lia.
Qed.
End programs.

(** * The programs *)

Definition counter_ended (l : Counter.thread) : bool :=
  match l with Counter.Idle O => true | _ => false end.

Definition decrement_ended (l : Decrement.thread) : bool :=
  match l with Decrement.Done => true | _ => false end.

(** sync_intro/data_race.cpp. *)
Definition data_race_main : list (list (act unit)) → option (nat * nat) :=
  count_runs (Counter.counter_tstep false) counter_ended id 2000 (Counter.counter_init 2 1000).

(** atomics/data_race.cpp. *)
Definition atomic_main : list (list (act unit)) → option (nat * nat) :=
  count_runs (Counter.counter_tstep true) counter_ended id 2000 (Counter.counter_init 2 1000).

(** race_condition.cpp. *)
Definition race_condition_main : list (list (act bool)) → option (nat * nat) :=
  count_runs Decrement.decrement_tstep decrement_ended id 0 (Decrement.decrement_init Decrement.Checking 2).

(** cas.cpp. *)
Definition cas_main : list (list (act bool)) → option (nat * nat) :=
  count_runs Decrement.decrement_tstep decrement_ended id 0 (Decrement.decrement_init Decrement.Reading 2).

(** mutex.cpp and spinlock.cpp. *)
Definition locked_ended (l : cthread) : bool := match l with Outside O => true | _ => false end.

Definition mutex_main : list (list (act unit)) → option (nat * nat) :=
  count_runs (increment_tstep (L := mutex)) locked_ended x 2000 (increment_init 2 1000).

Definition spinlock_main : list (list (act unit)) → option (nat * nat) :=
  count_runs (increment_tstep (L := Spinlock)) locked_ended x 2000 (increment_init 2 1000).

(** condvar_intro.cpp. *)
Definition cv_ended (l : CVLock.thread) : bool := match l with CVLock.Outside O => true | _ => false end.

Definition cvlock_main : list (list (act CondVar.choice)) → option (nat * nat) :=
  count_runs CVLock.cv_tstep cv_ended CVLock.x 2000 (CVLock.cv_init 2 1000).

Lemma counter_ended_all ls : Forall (λ l, counter_ended l = true) ls → Forall Counter.done ls.
Proof. apply Forall_impl. by intros [[]|]. Qed.

Lemma decrement_ended_all ls :
  Forall (λ l, decrement_ended l = true) ls → Forall (λ l, l = Decrement.Done) ls.
Proof. apply Forall_impl. by intros []. Qed.

(** A run behind a lock leaves the number of increments. *)
Lemma locked_run_right (L : Lock) c :
  reach increment_step (increment_init (L := L) 2 1000) c →
  Forall (λ l, locked_ended l = true) (threads c) → x (shared c) = 2000%Z.
Proof.
  intros Hr HF. pose proof (increment_reach 2 1000 c ltac:(by vm_compute) Hr) as HI.
  assert (Forall (λ l, l = Outside 0) (threads c)) as HD.
  { eapply Forall_impl; [|exact HF]. by intros [[]| | | |]. }
  pose proof (inv_sum _ _ HI) as Hs. rewrite (total_done _ HD) in Hs. lia.
Qed.

(** * Properties *)

(** Whatever schedules its runs follow, the program reports all of them as right;
    and there are schedules for any number of runs. *)
Definition always_right {C} (main_ : list (list (act C)) → option (nat * nat)) : Prop :=
  (∀ scheds r, main_ scheds = Some r → r = (length scheds, 0)) ∧
  ∀ n, ∃ scheds, length scheds = n ∧ is_Some (main_ scheds).

(** Every run is counted once, and any report is possible. *)
Definition any_report {C} (main_ : list (list (act C)) → option (nat * nat)) : Prop :=
  (∀ scheds right_ wrong, main_ scheds = Some (right_, wrong) → right_ + wrong = length scheds) ∧
  ∀ right_ wrong, ∃ scheds, main_ scheds = Some (right_, wrong).

(** C35: What the seven programs report.  With the atomic counter, the
    compare-and-swap loop (whichever exchanges fail spuriously), the mutex and the
    spinlock all runs are right and none is wrong, whatever schedules they follow, and
    the runs can be completed.  The plain counter and the check before the decrement
    can report any numbers of right and wrong runs.  With the condition variable every
    run is counted once. *)
Theorem counter_programs_report :
  always_right atomic_main ∧ always_right cas_main ∧ always_right mutex_main ∧ always_right spinlock_main ∧
  any_report data_race_main ∧ any_report race_condition_main ∧
  (∀ scheds right_ wrong, cvlock_main scheds = Some (right_, wrong) → right_ + wrong = length scheds).
Proof.
  split_ands.
  - split; [intros scheds r; apply count_runs_right|intros n].
    + intros c Hr HF%counter_ended_all.
      refine (proj2 (Counter.counter_final_value true 2 1000 c _ _ _ Hr HF) eq_refl); [lia|lia|by vm_compute].
    + apply (count_runs_possible _ _ _ _ _ (Counter.steps 0 1000 ++ Counter.steps 1 1000)). by vm_compute.
  - split; [intros scheds r; apply count_runs_right|intros n].
    + intros c Hr HF%decrement_ended_all. refine (proj1 (Decrement.cas_leaves_zero 2) c _ Hr HF). lia.
    + apply (count_runs_possible _ _ _ _ _ Decrement.contended). by vm_compute.
  - split; [intros scheds r; apply count_runs_right, (locked_run_right mutex)|intros n].
    apply (count_runs_possible _ _ _ _ _ (Counter.steps 0 4000 ++ Counter.steps 1 4000)). by vm_compute.
  - split; [intros scheds r; apply count_runs_right, (locked_run_right Spinlock)|intros n].
    apply (count_runs_possible _ _ _ _ _ (Counter.steps 0 4000 ++ Counter.steps 1 4000)). by vm_compute.
  - split; [intros scheds right_ wrong; apply count_runs_sum|intros a b]. eexists.
    apply (count_runs_mixed _ _ _ 2000 2 _ (Counter.steps 0 2000 ++ Counter.steps 1 2000) (Counter.worst_case 1000));
      [by vm_compute|right; vm_compute; reflexivity|done].
  - split; [intros scheds right_ wrong; apply count_runs_sum|intros a b]. eexists.
    apply (count_runs_mixed _ _ _ 0 (-100) _ Decrement.one_after_the_other Decrement.both_check);
      [by vm_compute|right; vm_compute; reflexivity|done].
  - intros scheds right_ wrong. apply count_runs_sum.
Qed.

(** Complete runs, and reports of the racing programs that are all right and all
    wrong. *)
Lemma counter_programs_report_witness :
  atomic_main [Counter.steps 0 1000 ++ Counter.steps 1 1000; Counter.steps 1 1000 ++ Counter.steps 0 1000] = Some (2, 0) ∧
  data_race_main [Counter.worst_case 1000; Counter.worst_case 1000] = Some (0, 2) ∧
  data_race_main [Counter.steps 0 2000 ++ Counter.steps 1 2000] = Some (1, 0) ∧
  race_condition_main [Decrement.both_check; Decrement.one_after_the_other] = Some (1, 1) ∧
  mutex_main [Counter.steps 0 4000 ++ Counter.steps 1 4000] = Some (1, 0) ∧
  spinlock_main [Counter.steps 1 4000 ++ Counter.steps 0 4000] = Some (1, 0) ∧
  (∀ r, cas_main [Decrement.contended; Decrement.contended] = Some r → r = (2, 0)) ∧
  cas_main [Decrement.contended; Decrement.contended] = Some (2, 0).
Proof.
  split; [vm_compute; reflexivity|]. split; [vm_compute; reflexivity|]. split; [vm_compute; reflexivity|].
  split; [vm_compute; reflexivity|]. split; [vm_compute; reflexivity|]. split; [vm_compute; reflexivity|].
  split; [|vm_compute; reflexivity].
  exact (proj1 (proj1 (proj2 counter_programs_report)) [Decrement.contended; Decrement.contended]).
Defined.
