(* ===== verification/LockScripts.v ===== *)
(** Programs that only lock: mutex/deadlock.cpp, mutex/livelock.cpp,
    mutex/recursive_mutex.cpp, mutex/shared_mutex.cpp and mutex/lock_guard.cpp of
    synchronization_primitives.

    A thread's code is a script of lock operations; the unlocks are those of the
    guards' destructors, in reverse order, also on the early returns of
    livelock.cpp.  For scripts that take their mutexes in increasing order (a
    timed attempt may be made in any order, since it gives up) every schedule
    comes to an end with all threads done and all mutexes free; this covers
    [NoDeadlock], [Livelock] and shared_mutex.cpp.  [Deadlock] and
    recursive_mutex.cpp break the rule and can or must stop for ever. *)

From S2P Require Import Prelude Machine.
From stdpp Require Import gmap.
From stdpp Require Import options.

(** * The machine *)

Inductive script :=
  | End
  | Lock (m : nat) (k : script)
  | Unlock (m : nat) (k : script)
  | Yield (k : script)
  | Say (line : string) (k : script)
  | LockFor (m : nat) (got gave_up : script).

(** The holders of the mutexes, the lines printed, and whether a thread has
    unlocked a mutex it does not hold, which is undefined. *)
Record mutexes := Mutexes { holder : gmap nat nat; said : list string; undefined : bool }.

(** A timed attempt may give up at any time. *)
Inductive choice := Go | GiveUp.

Definition script_tstep (i : nat) (ch : choice) (g : mutexes) (l : script) : option (mutexes * script) :=
  let take m k :=
    match holder g !! m with
    | None => Some (Mutexes (<[m:=i]> (holder g)) (said g) (undefined g), k)
    | Some _ => None
    end in
  match ch, l with
  | GiveUp, LockFor _ _ gave_up => Some (g, gave_up)
  | GiveUp, _ => None
  | Go, End => None
  | Go, Lock m k => take m k
  | Go, LockFor m got _ => take m got
  | Go, Unlock m k =>
      Some (if bool_decide (holder g !! m = Some i)
            then Mutexes (delete m (holder g)) (said g) (undefined g)
            else Mutexes (holder g) (said g) true, k)
  | Go, Yield k => Some (g, k)
  | Go, Say line k => Some (Mutexes (holder g) (said g ++ [line]) (undefined g), k)
  end.

Definition script_step : act choice → conf mutexes script → option (conf mutexes script) :=
  conf_step script_tstep.

Definition script_init (ss : list script) : conf mutexes script := Conf (Mutexes ∅ [] false) ss.

(** ** The programs *)

(** The mutexes [m1] and [m2]. *)
Definition m1 : nat := 1.

Definition m2 : nat := 2.

(** A [lock_guard] for the rest of the scope, here one more guard. *)
Definition two_guards (a b : nat) : script :=
  Lock a (Yield (Lock b (Unlock b (Unlock a End)))).

Definition Deadlock : list script := [two_guards m1 m2; two_guards m2 m1].

Definition NoDeadlock : list script := [two_guards m1 m2; two_guards m1 m2].

(** A thread of [Livelock]: two timed guards, each with its early return. *)
Definition two_timed_guards (a b : nat) (no_a no_b : string) : script :=
  LockFor a
    (Yield (LockFor b (Unlock b (Unlock a End)) (Say no_b (Unlock a End))))
    (Yield (Say no_a End)).

Definition Livelock : list script :=
  [two_timed_guards m1 m2 "First thread failed to get m1 lock" "First thread failed to get m2 lock";
   two_timed_guards m2 m1 "Second thread failed to get m2 lock" "Second thread failed to get m1 lock"].

(** The [main] of recursive_mutex.cpp. *)
Definition recursive_main : list script := [Lock m1 (Lock m1 (Unlock m1 (Unlock m1 End)))].

(** [DataManager::GetCopy], [n] times: the copy is made (and slept over) under
    the lock. *)
Fixpoint GetCopy_loop (n : nat) : script :=
  match n with O => End | S n' => Lock m1 (Yield (Unlock m1 (GetCopy_loop n'))) end.

Definition shared_mutex_main : list script := [GetCopy_loop 5; GetCopy_loop 5].

(** * Ordered scripts *)

(** With the mutexes [held], the script locks only above them, unlocks only what
    it holds, and ends holding nothing. *)
Fixpoint ordered (held : list nat) (s : script) : bool :=
  match s with
  | End => bool_decide (held = [])
  | Lock m k => forallb (λ h, h <? m) held && ordered (m :: held) k
  | Unlock m k => bool_decide (m ∈ held) && ordered (filter (λ h, h ≠ m) held) k
  | Yield k | Say _ k => ordered held k
  | LockFor m got gave_up =>
      bool_decide (m ∉ held) && ordered (m :: held) got && ordered held gave_up
  end.

(** The steps a script can still make. *)
Fixpoint script_size (s : script) : nat :=
  match s with
  | End => 0
  | Lock _ k | Unlock _ k | Yield k | Say _ k => S (script_size k)
  | LockFor _ got gave_up => S (max (script_size got) (script_size gave_up))
  end.

(** A thread holds what its script expects. *)
Definition thread_ok (g : mutexes) (i : nat) (s : script) : Prop :=
  ∃ held, ordered held s = true ∧ ∀ m, m ∈ held ↔ holder g !! m = Some i.

Record script_inv (c : conf mutexes script) : Prop := {
  inv_threads i s : threads c !! i = Some s → thread_ok (shared c) i s;
  inv_holders m i : holder (shared c) !! m = Some i → i < length (threads c);
  inv_defined : undefined (shared c) = false }.

Lemma script_inv_step c i s g' s' :
  script_inv c → threads c !! i = Some s → thread_ok g' i s' → undefined g' = false →
  (∀ m j, j ≠ i → holder g' !! m = Some j ↔ holder (shared c) !! m = Some j) →
  script_inv (Conf g' (<[i:=s']> (threads c))).
Proof.
  intros [Ht Hh Hd] Hs Hok Hu Hf. split; simpl; [| |done].
  - intros j sj [[-> ->]|[Hne Hj]]%list_lookup_insert_Some'; [done|].
    destruct (Ht _ _ Hj) as (held & Ho & Hm). exists held. split; [done|].
    intros m. by rewrite Hm, Hf.
  - intros m j Hm. rewrite length_insert. destruct (decide (j = i)) as [->|Hne].
    + by eapply lookup_lt_Some.
    + eapply Hh. by apply Hf.
Qed.

Lemma take_preserves c i s m s' held :
  script_inv c → threads c !! i = Some s → holder (shared c) !! m = None →
  (∀ m, m ∈ held ↔ holder (shared c) !! m = Some i) → ordered (m :: held) s' = true →
  script_inv (Conf (Mutexes (<[m:=i]> (holder (shared c))) (said (shared c)) (undefined (shared c)))
    (<[i:=s']> (threads c))).
Proof.
  intros HI Hs Hm Hh Ho. eapply script_inv_step; simpl; [done..| |apply HI|].
  - exists (m :: held). split; [done|]. intros m'. simpl. rewrite elem_of_cons, Hh, lookup_insert_Some.
    naive_solver.
  - intros m' j Hne. rewrite lookup_insert_Some. naive_solver.
Qed.

Lemma script_preserves a c c' : script_inv c → script_step a c = Some c' → script_inv c'.
Proof.
  intros HI (s & g' & s' & Hs & Hst & ->)%conf_step_inv.
  destruct (inv_threads _ HI _ _ Hs) as (held & Ho & Hh). unfold script_tstep in Hst.
  destruct (Machine.choice a), s as [|m k|m k|k|line k|m got no]; simpl in Ho; try done;
    repeat (rewrite andb_true_iff in Ho || rewrite bool_decide_eq_true in Ho); simplify_eq.
  - destruct (holder _ !! m) eqn:E; simplify_eq. destruct Ho as [_ Ho]. by eapply take_preserves.
  - destruct Ho as [Hin Ho]. rewrite bool_decide_true by (by apply Hh).
    eapply script_inv_step; simpl; [done..| |apply HI|].
    + eexists. split; [done|]. intros m'. rewrite list_elem_of_filter, Hh. simpl.
      rewrite lookup_delete_Some. naive_solver.
    + intros m' j Hne. rewrite lookup_delete_Some. apply Hh in Hin. naive_solver.
  - eapply script_inv_step; [done..| |apply HI|done]. by exists held.
  - eapply script_inv_step; [done..| |apply HI|done]. by exists held.
  - destruct (holder _ !! m) eqn:E; simplify_eq. destruct Ho as [[_ Ho] _]. by eapply take_preserves.
  - destruct Ho as [_ Ho]. eapply script_inv_step; [done..| |apply HI|done]. by exists held.
Qed.

(** ** Progress *)

(** The mutex a thread is waiting for. *)
Definition wants (s : script) : option nat := match s with Lock m _ => Some m | _ => None end.

(** A thread not at its end can move, unless it wants a mutex that is held. *)
Lemma script_moves g i s :
  s ≠ End → (∀ m, wants s = Some m → holder g !! m = None) →
  ∃ ch, is_Some (script_tstep i ch g s).
Proof.
  intros He Hw. destruct s as [|m k|m k|k|line k|m got no]; try done.
  - exists Go. simpl. rewrite Hw by done. eauto.
  - exists Go. simpl. eauto.
  - exists Go. simpl. eauto.
  - exists Go. simpl. eauto.
  - exists GiveUp. simpl. eauto.
Qed.

(** A thread that holds a mutex is not at its end, and wants only greater ones. *)
Lemma holder_wants c m i s :
  script_inv c → threads c !! i = Some s → holder (shared c) !! m = Some i →
  s ≠ End ∧ ∀ m', wants s = Some m' → m < m'.
Proof.
  intros HI Hs Hm. destruct (inv_threads _ HI _ _ Hs) as (held & Ho & Hh). apply Hh in Hm. split.
  - intros ->. simpl in Ho. rewrite bool_decide_eq_true in Ho. by subst held; apply elem_of_nil in Hm.
  - intros m' Hw. destruct s; simplify_eq/=. rewrite andb_true_iff in Ho. destruct Ho as [Ho _].
    rewrite forallb_forall in Ho. by apply Nat.ltb_lt, Ho, list_elem_of_In.
Qed.

(** Following the holders leads to ever greater mutexes, and so to a thread that
    can move. *)
Lemma chain_moves c bound :
  script_inv c → (∀ i s m, threads c !! i = Some s → wants s = Some m → m < bound) →
  ∀ fuel i s, threads c !! i = Some s → s ≠ End →
    (∀ m, wants s = Some m → bound - m ≤ fuel) →
    ∃ a c', script_step a c = Some c'.
Proof.
  intros HI Hb fuel. induction fuel as [|fuel IH]; intros i s Hs He Hf.
  - destruct (script_moves (shared c) i s He) as (ch & Hmv).
    { intros m Hw. pose proof (Hb _ _ _ Hs Hw). specialize (Hf _ Hw). lia. }
    exists (Act i ch). by eapply conf_step_enabled.
  - destruct (wants s) as [m|] eqn:Hw; [destruct (holder (shared c) !! m) as [j|] eqn:Hm|].
    + destruct (lookup_lt_is_Some_2 _ _ (inv_holders _ HI _ _ Hm)) as [sj Hj].
      destruct (holder_wants _ _ _ _ HI Hj Hm) as [He' Hlt].
      apply (IH j sj Hj He'). intros m' Hw'. specialize (Hlt _ Hw'). specialize (Hf _ eq_refl). lia.
    + destruct (script_moves (shared c) i s He) as (ch & Hmv); [by intros m' ?; simplify_eq|].
      exists (Act i ch). by eapply conf_step_enabled.
    + destruct (script_moves (shared c) i s He) as (ch & Hmv); [by intros m' ?; simplify_eq|].
      exists (Act i ch). by eapply conf_step_enabled.
Qed.

Lemma wants_bound (ls : list script) i s m :
  ls !! i = Some s → wants s = Some m → m < S (list_max (omap wants ls)).
Proof.
  intros Hs Hw. assert (m ∈ omap wants ls) as Hin.
  { apply list_elem_of_omap. exists s. split; [|done]. apply list_elem_of_lookup. eauto. }
  pose proof (proj1 (list_max_le (omap wants ls) _) (Nat.le_refl _)) as HF.
  rewrite Forall_forall in HF. specialize (HF m Hin). lia.
Qed.

Lemma ordered_live c :
  script_inv c →
  (∃ a c', script_step a c = Some c') ∨
  Forall (λ s, s = End) (threads c) ∧ holder (shared c) = ∅.
Proof.
  intros HI.
  destruct (Forall_or_witness (λ s, match s with End => true | _ => false end) (threads c))
    as [HF|(i & s & Hs & He)]; [right|left].
  - assert (Forall (λ s, s = End) (threads c)) as HE.
    { apply Forall_lookup. intros i s Hs. pose proof (proj1 (Forall_lookup _ _) HF _ _ Hs). by destruct s. }
    split; [done|]. apply map_empty. intros m. destruct (holder (shared c) !! m) as [j|] eqn:Hm; [|done].
    destruct (lookup_lt_is_Some_2 _ _ (inv_holders _ HI _ _ Hm)) as [sj Hj].
    destruct (holder_wants _ _ _ _ HI Hj Hm) as [He' _].
    by pose proof (proj1 (Forall_lookup _ _) HE _ _ Hj).
  - eapply (chain_moves c _ HI (wants_bound _) _ i s Hs); [by intros ->|].
    intros m _. apply Nat.le_sub_l.
Qed.

(** ** Termination *)

Lemma size_decreases a c c' :
  script_step a c = Some c' →
  sum_list_with script_size (threads c') < sum_list_with script_size (threads c).
Proof.
  intros (s & g' & s' & Hs & Hst & ->)%conf_step_inv. simpl.
  assert (script_size s' < script_size s) as Hlt.
  { unfold script_tstep in Hst. destruct (Machine.choice a), s; simplify_eq; simpl; try lia;
      destruct (holder _ !! m); simplify_eq; lia. }
  clear Hst. revert Hs. generalize (tid a). induction (threads c) as [|z ls IH]; intros [|i] Hs; simplify_eq/=; [lia|].
  specialize (IH _ Hs). lia.
Qed.

Lemma script_init_inv ss :
  Forall (λ s, ordered [] s = true) ss → script_inv (script_init ss).
Proof.
  intros HF. split; simpl; try done.
  intros i s Hs. exists []. split; [by apply (proj1 (Forall_lookup _ _) HF _ _ Hs)|].
  intros m. simpl. rewrite lookup_empty. split; [by intros ?%elem_of_nil|done].
Qed.

(** * [ProtectedData] of lock_guard.cpp *)

(** [UpdateData] runs in a thread that is joined before the next one starts: a
    call that cannot take the mutex never returns ([None]). *)
Record ProtectedData := Protected { m_mtx : bool; m_data : Z }.

Definition UpdateData (newValue : Z) (d : ProtectedData) : option ProtectedData :=
  if m_mtx d then None
  else if (m_data d =? 42)%Z then Some (Protected true (m_data d))
  else Some (Protected false newValue).

Fixpoint updates (vs : list Z) (d : ProtectedData) : option ProtectedData :=
  match vs with [] => Some d | v :: vs' => d' ← UpdateData v d; updates vs' d' end.

Definition fresh_data : ProtectedData := Protected false 0.

(** The calls of [updater] in [main]. *)
Definition lock_guard_main : option ProtectedData := updates [12; 42; 34; 25]%Z fresh_data.

Lemma updates_app vs ws d : updates (vs ++ ws) d = (d' ← updates vs d; updates ws d').
Proof. revert d. induction vs as [|v vs IH]; intros d; simpl; [done|]. destruct (UpdateData v d); simpl; auto. Qed.

(** Values other than 42 are stored and the mutex is released. *)
Lemma updates_plain vs d :
  Forall (λ v, v ≠ 42%Z) vs → m_mtx d = false → m_data d ≠ 42%Z →
  updates vs d = Some (Protected false (default (m_data d) (last vs))).
Proof.
  intros HF. revert d. induction HF as [|v vs Hv HF IH]; intros d Hm Hd; simpl.
  - destruct d; simpl in *; by subst.
  - unfold UpdateData. rewrite Hm, (proj2 (Z.eqb_neq _ _)) by done. simpl.
    rewrite IH by done. rewrite last_cons. by destruct (last vs).
Qed.

(** * Properties *)

(** Programs that lock in order do not deadlock and come to an end.
    When every thread takes its mutexes in increasing order (timed attempts in
    any order), every reachable state allows a step or is one in which all
    threads have ended and all mutexes are free; no mutex was unlocked by a thread
    that did not hold it; and no schedule is longer than the scripts. *)
Theorem ordered_scripts_end (ss : list script) c :
  Forall (λ s, ordered [] s = true) ss → reach script_step (script_init ss) c →
  undefined (shared c) = false ∧
  ((∃ a c', script_step a c = Some c') ∨
   Forall (λ s, s = End) (threads c) ∧ holder (shared c) = ∅) ∧
  terminates_within script_step (sum_list_with script_size ss) (script_init ss).
Proof.
  intros HF Hr.
  assert (script_inv c) as HI
    by (eapply reach_inv; [by apply script_init_inv|apply script_preserves|done]).
  split_ands; [apply HI|by apply ordered_live|].
  apply (measure_terminates _ (λ _, True) (λ c, sum_list_with script_size (threads c))); [done|].
  intros a c1 c2 _ Hs. split; [done|]. by eapply size_decreases.
Qed.

(** [NoDeadlock], [Livelock] and the program of shared_mutex.cpp keep the order. *)
Lemma ordered_scripts_end_witness :
  terminates_within script_step 10 (script_init NoDeadlock) ∧
  terminates_within script_step 10 (script_init Livelock) ∧
  terminates_within script_step 30 (script_init shared_mutex_main).
Proof.
  split_ands.
  - refine (proj2 (proj2 (ordered_scripts_end NoDeadlock (script_init NoDeadlock) _ (reach_refl _ _)))).
    by repeat constructor.
  - refine (proj2 (proj2 (ordered_scripts_end Livelock (script_init Livelock) _ (reach_refl _ _)))).
    by repeat constructor.
  - refine (proj2 (proj2 (ordered_scripts_end shared_mutex_main (script_init shared_mutex_main) _ (reach_refl _ _)))).
    by repeat constructor.
Defined.

(** The other programs stop for ever.  [Deadlock] reaches a state in
    which each thread holds the mutex the other one wants, and a thread that locks
    the same mutex twice is left waiting for itself on its only schedule. *)
Theorem unordered_scripts_stop :
  (∃ c, run script_step [Act 0 Go; Act 1 Go; Act 0 Go; Act 1 Go] (script_init Deadlock) = Some c ∧
     holder (shared c) = {[m1 := 0; m2 := 1]} ∧ stuck script_step c ∧ End ∉ threads c) ∧
  (∀ c, reach script_step (script_init recursive_main) c →
     c = script_init recursive_main ∨ stuck script_step c ∧ End ∉ threads c).
Proof.
  split.
  - eexists. split; [vm_compute; reflexivity|]. split_ands; [by vm_compute| |by vm_compute; set_solver].
    intros [[|[|i]] []]; reflexivity.
  - intros c Hr. induction Hr as [|[[|i] []] c1 c2 Hr [->|[Hst _]] Hs]; auto; try (by rewrite Hst in Hs); right;
      vm_compute in Hs; try discriminate. injection Hs as <-. split; [|by vm_compute; set_solver].
    intros [[|i] []]; reflexivity.
Qed.

(** [UpdateData] returns early without unlocking.  As long as no value
    is 42 every call stores its value and frees the mutex; the call after one that
    stored 42 returns with the mutex taken, and the next one never returns, as
    the fourth one of [main]. *)
Theorem update_data_leaks_lock (vs : list Z) (a b : Z) (ws : list Z) :
  Forall (λ v, v ≠ 42%Z) vs →
  updates (vs ++ [42%Z; a]) fresh_data = Some (Protected true 42) ∧
  updates (vs ++ 42%Z :: a :: b :: ws) fresh_data = None ∧ lock_guard_main = None.
Proof.
  intros HF. rewrite !updates_app, (updates_plain vs) by done. simpl.
  assert (default 0%Z (last vs) ≠ 42%Z) as Hl.
  { destruct (last vs) as [v|] eqn:E; [|done]. simpl. rewrite Forall_forall in HF.
    apply HF. by apply last_Some_elem_of. }
  unfold UpdateData. simpl. rewrite (proj2 (Z.eqb_neq _ _)) by done. simpl. by split_ands.
Qed.

Lemma update_data_leaks_lock_witness :
  updates ([12%Z] ++ [42%Z; 34%Z]) fresh_data = Some (Protected true 42) ∧
  updates ([12%Z] ++ 42%Z :: 34%Z :: 25%Z :: []) fresh_data = None ∧ lock_guard_main = None.
Proof. apply (update_data_leaks_lock [12%Z] 34 25 []). repeat constructor. discriminate. Defined.
