(* ===== verification/LockPrograms.v ===== *)
(** The [main] functions of mutex/deadlock.cpp and mutex/livelock.cpp: functions of
    [LockScripts] called one after the other.

    Each call makes its mutexes and threads and joins the threads before it returns.
    The runs of a program are one machine, so that one can say where it may stop: in a
    run whose threads do not lock in order, and nowhere else. *)

From S2P Require Import Prelude Machine LockScripts.
From stdpp Require Import options.

(** * The machine *)

(** The run that is going on, the runs to come, and what earlier ones have printed. *)
Record runs := Runs { now : conf mutexes script; later : list (list script); printed : list string }.

(** A step of a thread, or the return of the function and the next call. *)
Inductive runs_action := Thread (a : act choice) | NextRun.

(** The destructors of the threads join them. *)
Definition all_ended (c : conf mutexes script) : bool :=
  forallb (λ s, match s with End => true | _ => false end) (threads c).

Definition runs_step (x : runs_action) (s : runs) : option runs :=
  match x with
  | Thread a => c ← script_step a (now s); Some (Runs c (later s) (printed s))
  | NextRun =>
      match later s with
      | ss :: rest =>
          if all_ended (now s)
          then Some (Runs (script_init ss) rest (printed s ++ said (shared (now s))))
          else None
      | [] => None
      end
  end.

(** [main] before its first call. *)
Definition runs_main (programs : list (list script)) : runs := Runs (script_init []) programs [].

Definition deadlock_main : list (list script) := replicate 1000 Deadlock ++ replicate 1000 NoDeadlock.

Definition livelock_main : list (list script) := replicate 1000 Livelock.

(** * Lemmas *)

(** Where in the program a state is. *)
Definition in_run (programs : list (list script)) (cur : list script) (s : runs) : Prop :=
  (∃ past, [] :: programs = past ++ cur :: later s) ∧ reach script_step (script_init cur) (now s).

Lemma runs_reach programs s : reach runs_step (runs_main programs) s → ∃ cur, in_run programs cur s.
Proof.
  apply (reach_inv _ (λ s, ∃ cur, in_run programs cur s)).
  - exists []. split; [by exists []|constructor].
  - intros [a|] s1 s2 (cur & [past E] & Hr) Hs; cbn in Hs.
    + destruct (script_step a (now s1)) as [c|] eqn:Ec; simplify_eq/=. exists cur.
      split; [by exists past|]. by eapply reach_step.
    + destruct (later s1) as [|ss rest] eqn:El; [done|]. destruct (all_ended (now s1)); simplify_eq/=.
      exists ss. split; [|constructor]. exists (past ++ [cur]). by rewrite <- app_assoc.
Qed.

Definition runs_size (programs : list (list script)) : nat :=
  sum_list_with (λ ss, S (sum_list_with script_size ss)) programs.

(** The runs are finite, in order or not. *)
Lemma runs_terminate programs : terminates_within runs_step (runs_size programs) (runs_main programs).
Proof.
  rewrite <- (Nat.add_0_r (runs_size programs)).
  apply (measure_terminates _ (λ _, True) (λ s, runs_size (later s) + sum_list_with script_size (threads (now s)))
    (runs_main programs)); [done|].
  intros [a|] s1 s2 _ Hs; (split; [done|]); cbn in Hs.
  - destruct (script_step a (now s1)) as [c|] eqn:Ec; simplify_eq/=. apply size_decreases in Ec. lia.
  - destruct (later s1) as [|ss rest]; [done|]. destruct (all_ended (now s1)); simplify_eq/=. lia.
Qed.

Lemma all_ended_spec c : all_ended c = true ↔ Forall (λ s, s = End) (threads c).
Proof.
  unfold all_ended. rewrite forallb_forall, Forall_forall. split; intros H s Hs.
  - specialize (H s Hs). by destruct s.
  - by rewrite (H s Hs).
Qed.

(** A run that is in order goes on to its end. *)
Lemma ordered_run_inv cur c :
  Forall (λ s, ordered [] s = true) cur → reach script_step (script_init cur) c → script_inv c.
Proof. intros HF. eapply reach_inv; [by apply script_init_inv|apply script_preserves]. Qed.

Lemma ordered_run_moves programs cur s :
  in_run programs cur s → Forall (λ s, ordered [] s = true) cur →
  (∃ x s', runs_step x s = Some s') ∨
  later s = [] ∧ Forall (λ s, s = End) (threads (now s)) ∧ holder (shared (now s)) = ∅.
Proof.
  intros [_ Hr] HF. destruct (ordered_live _ (ordered_run_inv _ _ HF Hr)) as [(a & c & Hs)|[HE Hh]].
  - left. exists (Thread a). cbn. rewrite Hs. eauto.
  - destruct (later s) as [|ss rest] eqn:El; [by right|left]. exists NextRun. cbn.
    rewrite El, (proj2 (all_ended_spec _) HE). eauto.
Qed.

(** A program that goes on until all calls have returned with all mutexes free. *)
Definition never_stops (programs : list (list script)) : Prop :=
  ∀ s, reach runs_step (runs_main programs) s →
    undefined (shared (now s)) = false ∧
    ((∃ x s', runs_step x s = Some s') ∨
     later s = [] ∧ Forall (λ s, s = End) (threads (now s)) ∧ holder (shared (now s)) = ∅).

Lemma ordered_never_stop programs : Forall (Forall (λ s, ordered [] s = true)) programs → never_stops programs.
Proof.
  intros HF s Hr. destruct (runs_reach _ _ Hr) as (cur & Hin). pose proof Hin as [[past E] Hc].
  assert (Forall (λ s, ordered [] s = true) cur) as Ho.
  { assert (Forall (Forall (λ s, ordered [] s = true)) ([] :: programs)) as HF' by (by constructor).
    rewrite E in HF'. by apply Forall_app in HF' as [_ [? _]%Forall_cons_1]. }
  split; [|by eapply ordered_run_moves]. apply (inv_defined _ (ordered_run_inv _ _ Ho Hc)).
Qed.

(** ** Runs that are completed *)

Lemma thread_run sched c rest out c' :
  run script_step sched c = Some c' →
  run runs_step (Thread <$> sched) (Runs c rest out) = Some (Runs c' rest out).
Proof.
  revert c. induction sched as [|a sched IH]; intros c H; cbn in *; [by simplify_eq|].
  destruct (script_step a c) as [c1|]; cbn in *; [by apply IH|done].
Qed.

(** A program whose runs can be completed gets to where the next one has begun. *)
Lemma skip_runs programs ss rest c out :
  all_ended c = true →
  Forall (λ p, ∃ sched c', run script_step sched (script_init p) = Some c' ∧ all_ended c' = true) programs →
  ∃ sched out', run runs_step sched (Runs c (programs ++ ss :: rest) out) = Some (Runs (script_init ss) rest out').
Proof.
  intros Hc HF. revert c out Hc. induction HF as [|p programs (sched & c' & Hr & He) _ IH]; intros c out Hc.
  - exists [NextRun]. cbn. rewrite Hc. eauto.
  - destruct (IH c' (out ++ said (shared c)) He) as (sched' & out' & H').
    exists (NextRun :: (Thread <$> sched) ++ sched'), out'. cbn [run runs_step later now printed app].
    rewrite Hc. cbn [mbind option_bind]. by rewrite run_app, (thread_run _ _ _ _ _ Hr).
Qed.

(** One thread after the other. *)
Definition in_turn : list (act choice) := (λ i, Act i Go) <$> [0; 0; 0; 0; 0; 1; 1; 1; 1; 1].

(** Each takes its first mutex. *)
Definition crosswise : list (act choice) := (λ i, Act i Go) <$> [0; 1; 0; 1].

Lemma deadlock_completes n :
  Forall (λ p, ∃ sched c', run script_step sched (script_init p) = Some c' ∧ all_ended c' = true)
    (replicate n Deadlock).
Proof. apply Forall_replicate. exists in_turn. eexists. split; [vm_compute; reflexivity|reflexivity]. Qed.

Lemma nodeadlock_completes n :
  Forall (λ p, ∃ sched c', run script_step sched (script_init p) = Some c' ∧ all_ended c' = true)
    (replicate n NoDeadlock).
Proof. apply Forall_replicate. exists in_turn. eexists. split; [vm_compute; reflexivity|reflexivity]. Qed.

(** ** deadlock.cpp *)

Lemma deadlock_stops k :
  k < 1000 → ∃ s, reach runs_step (runs_main deadlock_main) s ∧ length (later s) = 1999 - k ∧ stuck runs_step s.
Proof.
  intros Hk. destruct (skip_runs (replicate k Deadlock) Deadlock (replicate (999 - k) Deadlock ++ replicate 1000 NoDeadlock)
    (script_init []) [] eq_refl (deadlock_completes k)) as (sched & out & Hr).
  exists (Runs (Conf (Mutexes {[m1 := 0; m2 := 1]} [] false)
    [Lock m2 (Unlock m2 (Unlock m1 End)); Lock m1 (Unlock m1 (Unlock m2 End))])
    (replicate (999 - k) Deadlock ++ replicate 1000 NoDeadlock) out).
  split_ands.
  + apply (run_reach _ (sched ++ (Thread <$> crosswise))). rewrite run_app. unfold runs_main, deadlock_main.
    replace (replicate 1000 Deadlock) with (replicate k Deadlock ++ Deadlock :: replicate (999 - k) Deadlock)
      by (rewrite <- replicate_S, <- replicate_add; f_equal; lia).
    rewrite <- app_assoc. cbn [app]. rewrite Hr. cbn [mbind option_bind]. apply thread_run. by vm_compute.
  + cbn [later]. rewrite length_app, !length_replicate. lia.
  + intros [a|]; cbn [runs_step now later].
    * destruct a as [[|[|i]] []]; reflexivity.
    * case_match; reflexivity.
Qed.

Lemma deadlock_stops_early s :
  reach runs_step (runs_main deadlock_main) s → stuck runs_step s →
  later s = [] ∧ all_ended (now s) = true ∨ 1000 ≤ length (later s).
Proof.
  intros Hr Hst. destruct (runs_reach _ _ Hr) as (cur & Hin). pose proof Hin as [[past E] _].
  destruct (decide (1000 ≤ length (later s))) as [?|Hlt]; [by right|left].
  assert (Forall (λ s, ordered [] s = true) cur) as HF.
  { assert (cur = NoDeadlock) as ->; [|by repeat constructor].
    pose proof (f_equal length E) as El. unfold deadlock_main in El.
    cbn [length] in El. rewrite !length_app, !length_replicate in El. cbn [length] in El.
    pose proof (f_equal (λ l, l !! length past) E) as Ec. cbn beta in Ec. rewrite list_lookup_middle in Ec by done.
    destruct past as [|p past]; [cbn [length] in El; lia|]. cbn [length] in El. cbn [length] in Ec.
    rewrite lookup_cons in Ec. unfold deadlock_main in Ec.
    rewrite lookup_app_r in Ec by (rewrite length_replicate; lia). by apply lookup_replicate in Ec as [-> _]. }
  destruct (ordered_run_moves _ _ _ Hin HF) as [(x & s' & Hs)|(? & ? & _)]; [by rewrite Hst in Hs|].
  split; [done|]. by apply all_ended_spec.
Qed.

Lemma deadlock_completes_main :
  ∃ sched s, run runs_step sched (runs_main deadlock_main) = Some s ∧ later s = [] ∧ all_ended (now s) = true.
Proof.
  destruct (skip_runs (replicate 1000 Deadlock ++ replicate 999 NoDeadlock) NoDeadlock [] (script_init []) [] eq_refl)
    as (sched & out & Hr).
  { apply Forall_app. split; [apply deadlock_completes|apply nodeadlock_completes]. }
  destruct (run script_step in_turn (script_init NoDeadlock)) as [c|] eqn:Ec; [|vm_compute in Ec; discriminate].
  exists (sched ++ (Thread <$> in_turn)), (Runs c [] out). rewrite run_app. unfold runs_main, deadlock_main.
  replace (replicate 1000 NoDeadlock) with (replicate 999 NoDeadlock ++ [NoDeadlock])
    by (rewrite <- replicate_S_end; done).
  rewrite app_assoc, Hr. split_ands; [by apply thread_run|done|]. vm_compute in Ec. by injection Ec as <-.
Qed.

(** * Properties *)

(** C25: The mains of livelock.cpp and deadlock.cpp, and any other calls of
    locking functions one after the other.  Every schedule is bounded.  When the threads
    of all functions take their mutexes in order (timed attempts may be made in any
    order), a reachable state allows a step, or all calls have returned with all
    mutexes free, and no thread unlocks a mutex it does not hold; so it is with
    livelock.cpp.  deadlock.cpp can stop for ever in each of its first thousand calls
    and in none of the others, where a run that cannot go on has ended the last call, and
    it can come to its end. *)
Theorem lock_mains_end :
  (∀ programs, terminates_within runs_step (runs_size programs) (runs_main programs) ∧
     (Forall (Forall (λ s, ordered [] s = true)) programs → never_stops programs)) ∧
  never_stops livelock_main ∧
  (∀ k, k < 1000 → ∃ s, reach runs_step (runs_main deadlock_main) s ∧ length (later s) = 1999 - k ∧
     stuck runs_step s) ∧
  (∀ s, reach runs_step (runs_main deadlock_main) s → stuck runs_step s →
     later s = [] ∧ all_ended (now s) = true ∨ 1000 ≤ length (later s)) ∧
  ∃ sched s, run runs_step sched (runs_main deadlock_main) = Some s ∧ later s = [] ∧ all_ended (now s) = true.
Proof.
  split_ands; [|apply ordered_never_stop, Forall_replicate; by repeat constructor|apply deadlock_stops
    |apply deadlock_stops_early|apply deadlock_completes_main].
  intros programs. split; [apply runs_terminate|apply ordered_never_stop].
Qed.

(** [Livelock] with an attempt that gives up, then [NoDeadlock]. *)
Lemma lock_mains_end_witness :
  ∃ sched s, run runs_step sched (runs_main [Livelock; NoDeadlock]) = Some s ∧ later s = [] ∧
    terminates_within runs_step 22 (runs_main [Livelock; NoDeadlock]) ∧
    printed s = ["First thread failed to get m2 lock"] ∧ holder (shared (now s)) = ∅ ∧
    never_stops [Livelock; NoDeadlock].
Proof.
  pose (sched := NextRun :: (Thread <$> [Act 0 Go; Act 1 Go; Act 0 Go; Act 0 GiveUp; Act 0 Go; Act 0 Go;
    Act 1 Go; Act 1 Go; Act 1 Go; Act 1 Go]) ++ NextRun :: (Thread <$> in_turn)).
  destruct (run runs_step sched (runs_main [Livelock; NoDeadlock])) as [s|] eqn:E; [|vm_compute in E; discriminate].
  destruct (proj1 lock_mains_end [Livelock; NoDeadlock]) as [Ht Hn].
  exists sched, s. split; [exact E|]. vm_compute in E. injection E as <-.
  repeat (split; [by try vm_compute|]). apply Hn. by repeat constructor.
Defined.
