(* ===== verification/DataManager.v ===== *)
(** [DataManager] of synchronization_primitives/mutex/shared_mutex.cpp: a vector
    behind a mutex.

    The machine moves the vector in one step and copies it element by element, so
    that a copy could be torn if the mutex did not keep writers out.  The log of the
    calls is a history of a register that holds whole vectors: [GetCopy] returns
    what the last [ChangeData] before it has stored. *)

From S2P Require Import Prelude Machine.
From stdpp Require Import options.

(** * The machine *)

Inductive call := ChangeData (newData : list Z) | GetCopy.

(** What a call of thread [i] has done. *)
Inductive event := Changed (i : nat) (v : list Z) | Copied (i : nat) (v : list Z).

Record manager := Manager { m_mtx : option nat; m_data : list Z; log : list event }.

(** A thread before its next call; in [ChangeData]; in [GetCopy], with the elements
    it has copied; in the destructor of the guard. *)
Inductive accessor :=
  | Calling (calls : list call)
  | Assigning (newData : list Z) (rest : list call)
  | Copying (copy : list Z) (rest : list call)
  | Unlocking (rest : list call).

Definition manager_tstep (i : nat) (_ : unit) (g : manager) (l : accessor) : option (manager * accessor) :=
  match l with
  | Calling [] => None
  | Calling (c :: rest) =>
      match m_mtx g with
      | Some _ => None
      | None =>
          Some (Manager (Some i) (m_data g) (log g),
                match c with ChangeData v => Assigning v rest | GetCopy => Copying [] rest end)
      end
  | Assigning v rest => Some (Manager (m_mtx g) v (log g ++ [Changed i v]), Unlocking rest)
  | Copying copy rest =>
      match m_data g !! length copy with
      | Some x => Some (g, Copying (copy ++ [x]) rest)
      | None => Some (Manager (m_mtx g) (m_data g) (log g ++ [Copied i copy]), Unlocking rest)
      end
  | Unlocking rest => Some (Manager None (m_data g) (log g), Calling rest)
  end.

Definition manager_step : act unit → conf manager accessor → option (conf manager accessor) :=
  conf_step manager_tstep.

Definition manager_init (programs : list (list call)) : conf manager accessor :=
  Conf (Manager None [] []) (Calling <$> programs).

(** [main]: two threads that take five copies each. *)
Definition dataAccessor : list call := replicate 5 GetCopy.

Definition data_manager_main : conf manager accessor := manager_init [dataAccessor; dataAccessor].

(** * The register *)

(** What a register holds after a history, and whether the history is one of a
    register that holds [v] at first. *)
Definition store (v : list Z) (e : event) : list Z :=
  match e with Changed _ w => w | Copied _ _ => v end.

Fixpoint legal (v : list Z) (h : list event) : bool :=
  match h with
  | [] => true
  | Changed _ w :: h' => legal w h'
  | Copied _ w :: h' => bool_decide (w = v) && legal v h'
  end.

(** The calls thread [i] has made, from the history. *)
Definition call_by (i : nat) (e : event) : option call :=
  match e with
  | Changed j v => if decide (j = i) then Some (ChangeData v) else None
  | Copied j _ => if decide (j = i) then Some GetCopy else None
  end.

Definition calls_by (i : nat) (h : list event) : list call := omap (call_by i) h.

Lemma legal_app v h1 h2 : legal v (h1 ++ h2) = legal v h1 && legal (foldl store v h1) h2.
Proof.
  revert v. induction h1 as [|[j w|j w] h1 IH]; intros v; cbn; [done|apply IH|].
  rewrite IH. by rewrite andb_assoc.
Qed.

(** * The invariant *)

(** The thread is between its lock and its unlock. *)
Definition inside (l : accessor) : bool := match l with Calling _ => false | _ => true end.

Definition pending (l : accessor) : list call :=
  match l with
  | Calling cs => cs
  | Assigning v rest => ChangeData v :: rest
  | Copying _ rest => GetCopy :: rest
  | Unlocking rest => rest
  end.

(** The copy so far is a beginning of the vector. *)
Definition copy_ok (d : list Z) (l : accessor) : Prop :=
  match l with Copying copy _ => copy `prefix_of` d | _ => True end.

Record manager_inv (programs : list (list call)) (c : conf manager accessor) : Prop := {
  inv_data : foldl store [] (log (shared c)) = m_data (shared c);
  inv_legal : legal [] (log (shared c)) = true;
  inv_holder : ∀ i l, threads c !! i = Some l → inside l = true ↔ m_mtx (shared c) = Some i;
  inv_holds : ∀ i, m_mtx (shared c) = Some i → i < length (threads c);
  inv_copy : Forall (copy_ok (m_data (shared c))) (threads c);
  inv_calls : ∀ i l cs, threads c !! i = Some l → programs !! i = Some cs →
    calls_by i (log (shared c)) ++ pending l = cs;
  inv_length : length (threads c) = length programs }.

Lemma manager_start programs : manager_inv programs (manager_init programs).
Proof.
  constructor; cbn [shared threads manager_init m_data log m_mtx]; try done.
  - intros i l. rewrite list_lookup_fmap. destruct (programs !! i); intros; simplify_eq/=. done.
  - apply Forall_fmap, Forall_true. done.
  - intros i l cs Hl Hcs. rewrite list_lookup_fmap, Hcs in Hl. by simplify_eq/=.
  - apply length_fmap.
Qed.

(** What a step of thread [i] does to the vector and the history. *)
Lemma manager_data i ch g l g' l' :
  manager_tstep i ch g l = Some (g', l') → copy_ok (m_data g) l →
  foldl store [] (log g) = m_data g → legal [] (log g) = true →
  foldl store [] (log g') = m_data g' ∧ legal [] (log g') = true ∧ copy_ok (m_data g') l'.
Proof.
  intros Hs Hc Hd Hl. destruct l as [[|c cs]|v cs|copy cs|cs]; cbn in Hs; [done| | | |].
  - destruct (m_mtx g); simplify_eq. cbn. split_ands; try done. destruct c; cbn; [done|apply prefix_nil].
  - simplify_eq. cbn. rewrite foldl_app, legal_app, Hl. done.
  - destruct (m_data g !! length copy) as [x|] eqn:Ex; simplify_eq; cbn.
    + split_ands; try done. destruct Hc as [[|y tl] Ed].
      * rewrite Ed, app_nil_r, lookup_ge_None_2 in Ex by lia. done.
      * exists tl. rewrite Ed, list_lookup_middle in Ex by done. simplify_eq. by rewrite <- app_assoc.
    + rewrite foldl_app, legal_app, Hl, Hd. cbn. split_ands; try done. rewrite andb_true_r. apply bool_decide_eq_true.
      destruct Hc as [tl Ed]. apply lookup_ge_None in Ex. rewrite Ed, length_app in Ex.
      destruct tl; [by rewrite app_nil_r in Ed|cbn in Ex; lia].
  - simplify_eq. done.
Qed.

(** Only the holder changes the vector. *)
Lemma manager_data_kept i ch g l g' l' :
  manager_tstep i ch g l = Some (g', l') → m_data g' = m_data g ∨ inside l = true.
Proof. intros Hs. destruct l as [[|c cs]|v cs|copy cs|cs]; cbn in Hs; inv_opt; auto. Qed.

Lemma manager_mutex i ch g l g' l' :
  manager_tstep i ch g l = Some (g', l') → inside l = true ↔ m_mtx g = Some i →
  (inside l' = true ↔ m_mtx g' = Some i) ∧ (∀ j, j ≠ i → m_mtx g' = Some j ↔ m_mtx g = Some j).
Proof.
  intros Hs Hi. destruct l as [[|c cs]|v cs|copy cs|cs]; cbn in Hs; [done| | | |].
  - destruct (m_mtx g) eqn:E; simplify_eq. split; [by destruct c|]. cbn. intros j Hj. split; congruence.
  - simplify_eq. done.
  - destruct (m_data g !! length copy); simplify_eq; done.
  - simplify_eq. cbn in *. destruct Hi as [Hi _]. rewrite Hi by done. split; [done|]. intros j Hj.
    split; congruence.
Qed.

Lemma calls_by_app i h1 h2 : calls_by i (h1 ++ h2) = calls_by i h1 ++ calls_by i h2.
Proof. apply omap_app. Qed.

Lemma manager_calls i ch g l g' l' :
  manager_tstep i ch g l = Some (g', l') →
  calls_by i (log g') ++ pending l' = calls_by i (log g) ++ pending l ∧
  (∀ j, j ≠ i → calls_by j (log g') = calls_by j (log g)).
Proof.
  intros Hs. destruct l as [[|c cs]|v cs|copy cs|cs]; cbn in Hs; inv_opt; (split; [|intros j Hj]); try done;
    rewrite ?calls_by_app; cbn; try (by rewrite decide_False, app_nil_r by done);
    try (by rewrite decide_True, <- app_assoc by done).
  by destruct c.
Qed.

Lemma manager_preserves programs a c c' :
  manager_inv programs c → manager_step a c = Some c' → manager_inv programs c'.
Proof.
  intros HI (l & g' & l' & Hl & Hs & ->)%conf_step_inv.
  pose proof (proj1 (Forall_lookup _ _) (inv_copy _ _ HI) _ _ Hl) as Hc.
  destruct (manager_data _ _ _ _ _ _ Hs Hc (inv_data _ _ HI) (inv_legal _ _ HI)) as (Hd & Hlegal & Hc').
  destruct (manager_mutex _ _ _ _ _ _ Hs (inv_holder _ _ HI _ _ Hl)) as [Hm Hmo].
  destruct (manager_calls _ _ _ _ _ _ Hs) as [Hcalls Hother].
  constructor; cbn [shared threads]; try done.
  - intros j lj [(-> & ->)|[Hne Hj]]%list_lookup_insert_Some'; [done|].
    rewrite Hmo by done. by apply (inv_holder _ _ HI).
  - intros j Hj. rewrite length_insert. destruct (decide (j = tid a)) as [->|Hne]; [by eapply lookup_lt_Some|].
    apply (inv_holds _ _ HI). by apply Hmo.
  - apply Forall_lookup. intros j lj [(-> & ->)|[Hne Hj]]%list_lookup_insert_Some'; [done|].
    pose proof (proj1 (Forall_lookup _ _) (inv_copy _ _ HI) _ _ Hj) as Hcj.
    destruct (manager_data_kept _ _ _ _ _ _ Hs) as [->|Hin]; [done|].
    apply (inv_holder _ _ HI _ _ Hl) in Hin. destruct lj; try done. exfalso.
    assert (m_mtx (shared c) = Some j) as Hh by (by apply (inv_holder _ _ HI _ _ Hj)). congruence.
  - intros j lj cs [(-> & ->)|[Hne Hj]]%list_lookup_insert_Some' Hcs.
    + rewrite Hcalls. by apply (inv_calls _ _ HI).
    + rewrite Hother by done. by apply (inv_calls _ _ HI).
  - rewrite length_insert. apply HI.
Qed.

Lemma manager_reach programs c : reach manager_step (manager_init programs) c → manager_inv programs c.
Proof. apply reach_inv; [apply manager_start|apply manager_preserves]. Qed.

(** ** Progress *)

Definition done_ (l : accessor) : bool := match l with Calling [] => true | _ => false end.

(** The holder of the mutex can always move, and whoever has a call to make can
    move when there is none. *)
Lemma manager_progress programs c :
  manager_inv programs c →
  (∃ a c', manager_step a c = Some c') ∨ Forall (λ l, done_ l = true) (threads c) ∧ m_mtx (shared c) = None.
Proof.
  intros HI. destruct (m_mtx (shared c)) as [i|] eqn:Em.
  - left. destruct (lookup_lt_is_Some_2 _ _ (inv_holds _ _ HI _ Em)) as [l Hl].
    apply (inv_holder _ _ HI _ _ Hl) in Em as Hin. exists (Act i tt). apply (conf_step_enabled _ _ _ _ _ Hl).
    destruct l as [cs|v rest|copy rest|rest]; cbn; [done|by eexists| |by eexists].
    destruct (m_data (shared c) !! length copy); by eexists.
  - destruct (Forall_or_witness done_ (threads c)) as [HD|(i & l & Hl & Hnd)]; [by right|left].
    assert (inside l = false) as Hin.
    { destruct (inside l) eqn:E; [|done]. apply (inv_holder _ _ HI _ _ Hl) in E. congruence. }
    exists (Act i tt). apply (conf_step_enabled _ _ _ _ _ Hl).
    destruct l as [[|call cs]| | |]; try done. cbn. rewrite Em. by eexists.
Qed.

(** ** Termination *)

(** Vectors have at most [L] elements. *)
Definition small (L : nat) (c : call) : Prop := match c with ChangeData v => length v ≤ L | GetCopy => True end.

Definition accessor_left (L : nat) (l : accessor) : nat :=
  match l with
  | Calling cs => (L + 3) * length cs
  | Assigning _ rest => (L + 3) * length rest + 2
  | Copying copy rest => (L + 3) * length rest + 2 + (L - length copy)
  | Unlocking rest => (L + 3) * length rest + 1
  end.

Definition manager_small (L : nat) (c : conf manager accessor) : Prop :=
  length (m_data (shared c)) ≤ L ∧ Forall (λ l, Forall (small L) (pending l)) (threads c).

Lemma manager_tstep_small L i ch g l g' l' :
  manager_tstep i ch g l = Some (g', l') → length (m_data g) ≤ L → Forall (small L) (pending l) →
  length (m_data g') ≤ L ∧ Forall (small L) (pending l') ∧ accessor_left L l' < accessor_left L l.
Proof.
  intros Hs Hd HF. destruct l as [[|c cs]|v cs|copy cs|cs]; cbn in Hs; [done| | | |].
  - destruct (m_mtx g); simplify_eq. cbn. destruct c; cbn; (split_ands; [done|done|lia]).
  - simplify_eq. cbn in *. apply Forall_cons_iff in HF as [Hv HF]. split_ands; [done|done|lia].
  - cbn in HF. destruct (m_data g !! length copy) as [x|] eqn:Ex; simplify_eq; cbn.
    + apply lookup_lt_Some in Ex. rewrite length_app. cbn. split_ands; [done|done|lia].
    + apply Forall_cons_iff in HF as [_ HF]. split_ands; [done|done|lia].
  - simplify_eq. cbn in *. split_ands; [done|done|lia].
Qed.

Definition manager_work (L : nat) (c : conf manager accessor) : nat := sum_list_with (accessor_left L) (threads c).

Lemma manager_work_step L a c c' :
  manager_small L c → manager_step a c = Some c' → manager_small L c' ∧ manager_work L c' < manager_work L c.
Proof.
  intros [Hd HF] (l & g' & l' & Hl & Hs & ->)%conf_step_inv.
  destruct (manager_tstep_small L _ _ _ _ _ _ Hs Hd (proj1 (Forall_lookup _ _) HF _ _ Hl)) as (Hd' & HF' & Hlt).
  split; [split; [done|by apply Forall_insert]|]. unfold manager_work. cbn [threads].
  pose proof (sum_insert (accessor_left L) _ _ _ l' Hl). lia.
Qed.

(** * Properties *)

(** C24: [DataManager] is a register of whole vectors.  For any number of
    threads with any calls and every interleaving: the history of the calls is one
    of a register, so that every [GetCopy] returns exactly the vector the last
    [ChangeData] has stored; the calls of each thread appear in it in their order;
    at most one thread is between its lock and its unlock; the threads can go on
    until all have made all their calls and the mutex is free; and with vectors of
    at most [L] elements no schedule has more than [L + 3] steps for each call. *)
Theorem data_manager_is_register programs c :
  reach manager_step (manager_init programs) c →
  legal [] (log (shared c)) = true ∧
  (∀ i cs, programs !! i = Some cs → calls_by i (log (shared c)) `prefix_of` cs) ∧
  (∀ i j l l', threads c !! i = Some l → threads c !! j = Some l' →
     inside l = true → inside l' = true → i = j) ∧
  ((∃ a c', manager_step a c = Some c') ∨
   m_mtx (shared c) = None ∧ ∀ i cs, programs !! i = Some cs → calls_by i (log (shared c)) = cs) ∧
  (∀ L, Forall (Forall (small L)) programs →
     terminates_within manager_step ((L + 3) * sum_list_with length programs) (manager_init programs)).
Proof.
  intros Hr. pose proof (manager_reach _ _ Hr) as HI. split_ands.
  - apply HI.
  - intros i cs Hcs. destruct (lookup_lt_is_Some_2 (threads c) i) as [l Hl].
    { rewrite (inv_length _ _ HI). by eapply lookup_lt_Some. }
    exists (pending l). by rewrite (inv_calls _ _ HI _ _ _ Hl Hcs).
  - intros i j l l' Hi Hj H1 H2. apply (inv_holder _ _ HI _ _ Hi) in H1. apply (inv_holder _ _ HI _ _ Hj) in H2. congruence.
  - destruct (manager_progress _ _ HI) as [?|[HD Hm]]; [by left|right]. split; [done|]. intros i cs Hcs.
    destruct (lookup_lt_is_Some_2 (threads c) i) as [l Hl].
    { rewrite (inv_length _ _ HI). by eapply lookup_lt_Some. }
    pose proof (proj1 (Forall_lookup _ _) HD _ _ Hl) as Hd. pose proof (inv_calls _ _ HI _ _ _ Hl Hcs) as Hc.
    destruct l as [[|]| | |]; try done. cbn in Hc. by rewrite app_nil_r in Hc.
  - intros L HF. assert (manager_work L (manager_init programs) = (L + 3) * sum_list_with length programs) as <-.
    { unfold manager_work, manager_init. cbn [threads]. clear. induction programs as [|cs ps IH]; cbn; [lia|]. rewrite IH. lia. }
    apply (measure_terminates _ (manager_small L) (manager_work L)); [|intros; by eapply manager_work_step].
    split; [cbn; lia|]. cbn. by apply Forall_fmap.
Qed.

(** A writer and a reader, and the program itself. *)
Lemma data_manager_is_register_witness :
  (∃ c, run manager_step
      [Act 0 tt; Act 0 tt; Act 0 tt; Act 1 tt; Act 1 tt; Act 1 tt; Act 1 tt; Act 1 tt]
      (manager_init [[ChangeData [7; 8]%Z; ChangeData []]; [GetCopy]]) = Some c ∧
     legal [] (log (shared c)) = true ∧ log (shared c) = [Changed 0 [7; 8]%Z; Copied 1 [7; 8]%Z]) ∧
  terminates_within manager_step 30 data_manager_main.
Proof.
  split.
  - eexists. split; [vm_compute; reflexivity|].
    split; [|reflexivity]. refine (proj1 (data_manager_is_register [[ChangeData [7; 8]%Z; ChangeData []]; [GetCopy]] _ _)).
    apply (run_reach _ [Act 0 tt; Act 0 tt; Act 0 tt; Act 1 tt; Act 1 tt; Act 1 tt; Act 1 tt; Act 1 tt]).
    vm_compute. reflexivity.
  - apply (proj2 (proj2 (proj2 (proj2 (data_manager_is_register [dataAccessor; dataAccessor] _ (reach_refl _ _))))) 0).
    repeat constructor.
Defined.
