(* ===== verification/IpcSemaphores.v ===== *)
(** ipc/shm_intro.cpp and ipc/mmap_intro.cpp: a parent process hands the lines of
    its input to a child through shared memory, with two semaphores.

    The two programs differ in how they get the shared memory and are the same
    from the fork on; that part is modelled, one access to the shared memory, one
    semaphore operation or one line printed per step.  The invariant shows the
    strict alternation: the processes are never both at the data.  For non-empty
    lines that leave room for a NUL the output is determined and both processes
    exit; an empty line is taken for the end by the child and hangs the parent, a
    line too long makes the child read past the buffer, and a semaphore left over
    from an earlier run ends the child at once. *)

From S2P Require Import Prelude Machine.
From stdpp Require Import options.

Local Open Scope Z_scope.

#[local] Arguments replicate : simpl never.

(** * The machine *)

(** [SharedData::BufferSize]. *)
Definition BufferSize : nat := 4092.

Inductive line :=
  | Wrote (bytes : nat)
  | ReadSize (messageSize : Z)
  | Content (text : list byte)
  | ChildExited
  | ParentExited.

(** The semaphores, the shared data and the output of both processes. *)
Record memory := Memory {
  writeDone : nat; readDone : nat; m_messageSize : Z; buffer : list byte; output : list line }.

(** The parent, with the line it has read and the lines to come: before each
    access of the loop's body; after the loop; at its end. *)
Inductive parent :=
  | PSize (input : list byte) (more : list (list byte))
  | PMemset (input : list byte) (more : list (list byte))
  | PMemcpy (input : list byte) (more : list (list byte))
  | PPrint (input : list byte) (more : list (list byte))
  | PPost (input : list byte) (more : list (list byte))
  | PWait (more : list (list byte))
  | PStopSize
  | PStopPost
  | PJoin
  | PExit
  | PDone
  | PUndefined.

Inductive child := CWait | CTest | CPrintSize | CPrintContent | CPost | CExit | CDone | CUndefined.

#[export] Instance child_eq_dec : EqDecision child.
Proof. solve_decision. Defined.

(** [while (std::getline(std::cin, input))]. *)
Definition getline (inputs : list (list byte)) : parent :=
  match inputs with [] => PStopSize | input :: more => PSize input more end.

Definition print (l : line) (g : memory) : memory :=
  Memory (writeDone g) (readDone g) (m_messageSize g) (buffer g) (output g ++ [l]).

(** [child_done] tells [wait] whether the child has exited. *)
Definition parent_step (child_done : bool) (g : memory) (p : parent) : option (memory * parent) :=
  match p with
  | PSize input more =>
      Some (Memory (writeDone g) (readDone g) (u32_wrap (Z.of_nat (length input))) (buffer g) (output g),
            PMemset input more)
  | PMemset input more =>
      match memset (buffer g) x00 BufferSize with
      | Some b => Some (Memory (writeDone g) (readDone g) (m_messageSize g) b (output g), PMemcpy input more)
      | None => Some (g, PUndefined)
      end
  | PMemcpy input more =>
      match memcpy (buffer g) input (min (length input) BufferSize) with
      | Some b => Some (Memory (writeDone g) (readDone g) (m_messageSize g) b (output g), PPrint input more)
      | None => Some (g, PUndefined)
      end
  | PPrint input more => Some (print (Wrote (length input)) g, PPost input more)
  | PPost _ more =>
      Some (Memory (S (writeDone g)) (readDone g) (m_messageSize g) (buffer g) (output g), PWait more)
  | PWait more =>
      match readDone g with
      | O => None
      | S n => Some (Memory (writeDone g) n (m_messageSize g) (buffer g) (output g), getline more)
      end
  | PStopSize => Some (Memory (writeDone g) (readDone g) 0 (buffer g) (output g), PStopPost)
  | PStopPost =>
      Some (Memory (S (writeDone g)) (readDone g) (m_messageSize g) (buffer g) (output g), PJoin)
  | PJoin => if child_done then Some (g, PExit) else None
  | PExit => Some (print ParentExited g, PDone)
  | PDone | PUndefined => None
  end.

Definition child_step (g : memory) (l : child) : option (memory * child) :=
  match l with
  | CWait =>
      match writeDone g with
      | O => None
      | S n => Some (Memory n (readDone g) (m_messageSize g) (buffer g) (output g), CTest)
      end
  | CTest => Some (g, if m_messageSize g =? 0 then CExit else CPrintSize)
  | CPrintSize => Some (print (ReadSize (m_messageSize g)) g, CPrintContent)
  | CPrintContent =>
      match c_string (buffer g) with
      | Some text => Some (print (Content text) g, CPost)
      | None => Some (g, CUndefined)
      end
  | CPost =>
      Some (Memory (writeDone g) (S (readDone g)) (m_messageSize g) (buffer g) (output g), CWait)
  | CExit => Some (print ChildExited g, CDone)
  | CDone | CUndefined => None
  end.

Record config := Config { mem : memory; parentP : parent; childP : child }.

Inductive process := Parent | Child.

Definition sema_step (a : process) (c : config) : option config :=
  match a with
  | Parent =>
      '(g, p) ← parent_step (bool_decide (childP c = CDone)) (mem c) (parentP c);
      Some (Config g p (childP c))
  | Child => '(g, l) ← child_step (mem c) (childP c); Some (Config g (parentP c) l)
  end.

(** After the fork.  [sem_open] without [O_EXCL] keeps the value of a semaphore
    that exists already. *)
Definition sema_init (writeSema readSema : nat) (inputs : list (list byte)) : config :=
  Config (Memory writeSema readSema 0 (replicate BufferSize x00) []) (getline inputs) CWait.

(** * The invariant *)

(** The buffer with a line in it, and what is printed of it. *)
Definition padded (input : list byte) : list byte :=
  input ++ replicate (BufferSize - length input) x00.

Definition shown (input : list byte) : list byte := default [] (c_string (padded input)).

(** The lines one message gives. *)
Definition exchange (input : list byte) : list line :=
  [Wrote (length input); ReadSize (Z.of_nat (length input)); Content (shown input)].

Definition transcript (inputs : list (list byte)) : list line := concat (exchange <$> inputs).

Definition fits (input : list byte) : Prop := (length input < BufferSize)%nat.

(** The message in the memory. *)
Definition holds (g : memory) (input : list byte) : Prop :=
  m_messageSize g = Z.of_nat (length input) ∧ buffer g = padded input.

(** Where the child is while the parent waits for it to read [input], after the
    messages that gave [out]. *)
Definition reading (g : memory) (l : child) (out : list line) (input : list byte) : Prop :=
  match l with
  | CWait =>
      writeDone g = 1%nat ∧ readDone g = 0%nat ∧ output g = out ++ [Wrote (length input)] ∨
      writeDone g = 0%nat ∧ readDone g = 1%nat ∧ output g = out ++ exchange input ∧ input ≠ []
  | CTest =>
      writeDone g = 0%nat ∧ readDone g = 0%nat ∧ output g = out ++ [Wrote (length input)]
  | CPrintSize =>
      writeDone g = 0%nat ∧ readDone g = 0%nat ∧ output g = out ++ [Wrote (length input)] ∧ input ≠ []
  | CPrintContent =>
      writeDone g = 0%nat ∧ readDone g = 0%nat ∧ input ≠ [] ∧
      output g = out ++ [Wrote (length input); ReadSize (Z.of_nat (length input))]
  | CPost =>
      writeDone g = 0%nat ∧ readDone g = 0%nat ∧ output g = out ++ exchange input ∧ input ≠ []
  | CExit =>
      writeDone g = 0%nat ∧ readDone g = 0%nat ∧ output g = out ++ [Wrote 0] ∧ input = []
  | CDone =>
      writeDone g = 0%nat ∧ readDone g = 0%nat ∧ output g = out ++ [Wrote 0; ChildExited] ∧ input = []
  | CUndefined => False
  end.

(** Both semaphores at 0 and the child waiting. *)
Definition idle (g : memory) (l : child) : Prop :=
  l = CWait ∧ writeDone g = 0%nat ∧ readDone g = 0%nat.

Definition full (g : memory) : Prop := length (buffer g) = BufferSize.

(** The state between the processes, after the messages [past]. *)
Definition sema_inv (inputs : list (list byte)) (c : config) : Prop :=
  ∃ past, Forall (λ i, i ≠ []) past ∧ Forall fits inputs ∧ full (mem c) ∧
  let g := mem c in
  match parentP c with
  | PSize input more => inputs = past ++ input :: more ∧ idle g (childP c) ∧ output g = transcript past
  | PMemset input more =>
      inputs = past ++ input :: more ∧ idle g (childP c) ∧ output g = transcript past ∧
      m_messageSize g = Z.of_nat (length input)
  | PMemcpy input more =>
      inputs = past ++ input :: more ∧ idle g (childP c) ∧ output g = transcript past ∧
      m_messageSize g = Z.of_nat (length input) ∧ buffer g = replicate BufferSize x00
  | PPrint input more =>
      inputs = past ++ input :: more ∧ idle g (childP c) ∧ output g = transcript past ∧ holds g input
  | PPost input more =>
      inputs = past ++ input :: more ∧ idle g (childP c) ∧
      output g = transcript past ++ [Wrote (length input)] ∧ holds g input
  | PWait more =>
      ∃ input, inputs = past ++ input :: more ∧ holds g input ∧
        reading g (childP c) (transcript past) input
  | PStopSize => inputs = past ∧ idle g (childP c) ∧ output g = transcript past
  | PStopPost =>
      inputs = past ∧ idle g (childP c) ∧ output g = transcript past ∧ m_messageSize g = 0
  | PJoin =>
      inputs = past ∧ m_messageSize g = 0 ∧
      match childP c with
      | CWait => writeDone g = 1%nat ∧ output g = transcript past
      | CTest | CExit => writeDone g = 0%nat ∧ output g = transcript past
      | CDone => writeDone g = 0%nat ∧ output g = transcript past ++ [ChildExited]
      | _ => False
      end
  | PExit => inputs = past ∧ childP c = CDone ∧ output g = transcript past ++ [ChildExited]
  | PDone =>
      inputs = past ∧ childP c = CDone ∧ output g = transcript past ++ [ChildExited; ParentExited]
  | PUndefined => False
  end.

Lemma buffer_size : Z.of_nat BufferSize = 4092.
Proof. reflexivity. Qed.

(** The proofs need no more than this of the size, and must not compute it. *)
#[local] Opaque BufferSize.

Lemma transcript_snoc past input : transcript (past ++ [input]) = transcript past ++ exchange input.
Proof. unfold transcript. by rewrite fmap_app, concat_app. Qed.

Lemma padded_length input : fits input → length (padded input) = BufferSize.
Proof. unfold fits, padded. intros. rewrite length_app, length_replicate. lia. Qed.

(** A line that fits leaves room for its NUL. *)
Lemma padded_shown input : fits input → c_string (padded input) = Some (shown input).
Proof.
  intros Hf. unfold shown. enough (is_Some (c_string (padded input))) as [t ->] by done.
  unfold padded, fits in *. destruct (BufferSize - length input)%nat as [|n] eqn:E; [lia|].
  apply c_string_pad.
Qed.

Lemma fits_at inputs past input more :
  Forall fits inputs → inputs = past ++ input :: more → fits input.
Proof. intros HF ->. by apply Forall_app in HF as [_ [? _]%Forall_cons_iff]. Qed.

(** ** Preservation *)

Lemma parent_preserves inputs c c' :
  sema_inv inputs c → sema_step Parent c = Some c' → sema_inv inputs c'.
Proof.
  intros (past & Hpast & Hfits & Hfull & HI) Hs. destruct c as [g p l]; simpl in *.
  destruct p as [input more|input more|input more|input more|input more|more| | | | | |]; simpl in *; try done.
  - destruct HI as (E & Hidle & Hout). pose proof (fits_at _ _ _ _ Hfits E) as Hf. unfold fits in Hf.
    simplify_eq/=. exists past. simpl. split_ands; try done.
    apply u32_wrap_small. pose proof buffer_size. lia.
  - destruct HI as (E & Hidle & Hout & Hm). rewrite memset_all in Hs by done. simplify_eq/=.
    exists past. simpl. split_ands; try done; apply length_replicate.
  - destruct HI as (E & Hidle & Hout & Hm & Hb).
    pose proof (fits_at _ _ _ _ Hfits E) as Hf. unfold fits in Hf.
    rewrite Hb, Nat.min_l, memcpy_ok in Hs; rewrite ?length_replicate; try lia. simplify_eq/=.
    assert (take (length input) input ++ drop (length input) (replicate BufferSize x00) = padded input) as Ep.
    { by rewrite take_ge, drop_replicate by lia. }
    exists past. unfold full, holds. simpl. rewrite Ep. split_ands; try done. by apply padded_length.
  - destruct HI as (E & Hidle & Hout & Hh). simplify_eq/=. exists past. simpl. by rewrite Hout.
  - destruct HI as (E & (-> & Hw & Hr) & Hout & Hh). simplify_eq/=. exists past.
    simpl. split_ands; try done. exists input. split_ands; try done. simpl. left. by rewrite Hw.
  - destruct HI as (input & E & Hh & Hr). destruct (readDone g) as [|n] eqn:Hrd; [done|]. simplify_eq/=.
    destruct l; simpl in Hr; try (destruct Hr as (? & ? & _); congruence); [|done].
    destruct Hr as [(? & ? & _)|(Hw & Hn & Hout & Hne)]; [congruence|].
    rewrite Hn in Hrd. injection Hrd as <-.
    exists (past ++ [input]). rewrite Forall_app. split_ands; try done; [by repeat constructor|].
    destruct more as [|next more]; simpl; rewrite transcript_snoc, <- ?app_assoc; simpl; by split_ands.
  - destruct HI as (E & Hidle & Hout). simplify_eq/=. by exists past.
  - destruct HI as (E & (-> & Hw & Hr) & Hout & Hm). simplify_eq/=. exists past. simpl.
    by rewrite Hw.
  - destruct HI as (E & Hm & HI). case_bool_decide; [|done]. simplify_eq/=. exists past.
    destruct HI as [_ HI]. by split_ands.
  - destruct HI as (E & -> & Hout). simplify_eq/=. exists past. simpl. rewrite Hout, <- app_assoc. done.
Qed.

(** The child's side while the parent waits. *)
Lemma reading_step g l g' l' out input :
  fits input → holds g input → reading g l out input → child_step g l = Some (g', l') →
  holds g' input ∧ reading g' l' out input ∧ buffer g' = buffer g.
Proof.
  intros Hf [Hm Hb] Hr Hs. destruct l; simpl in Hr, Hs; try done.
  - destruct Hr as [(Hw & Hrd & Hout)|(Hw & _)]; rewrite Hw in Hs; simplify_eq/=. by split_ands.
  - destruct Hr as (Hw & Hrd & Hout). simplify_eq. rewrite Hm. split; [done|]. split; [|done].
    destruct input as [|b input]; simpl in *; by split_ands.
  - destruct Hr as (Hw & Hrd & Hout & Hne). simplify_eq/=. split; [done|]. split; [|done].
    rewrite Hout, Hm, <- app_assoc. by split_ands.
  - destruct Hr as (Hw & Hrd & Hne & Hout). rewrite Hb, padded_shown in Hs by done. simplify_eq/=.
    split; [done|]. split; [|done]. rewrite Hout, <- app_assoc. by split_ands.
  - destruct Hr as (Hw & Hrd & Hout & Hne). simplify_eq/=. split; [done|]. split; [|done].
    right. rewrite Hrd. by split_ands.
  - destruct Hr as (Hw & Hrd & Hout & ->). simplify_eq/=. split; [done|]. split; [|done].
    rewrite Hout, <- app_assoc. by split_ands.
Qed.

Lemma child_preserves inputs c c' :
  sema_inv inputs c → sema_step Child c = Some c' → sema_inv inputs c'.
Proof.
  intros (past & Hpast & Hfits & Hfull & HI) Hs. destruct c as [g p l]; simpl in *.
  assert (∀ P : Prop, idle g l → child_step g l = Some (mem c', childP c') → P) as Hblocked.
  { intros P (-> & Hw & _) H. simpl in H. by rewrite Hw in H. }
  destruct (child_step g l) as [[g' l']|] eqn:E; simplify_eq/=.
  destruct p as [input more|input more|input more|input more|input more|more| | | | | |]; simpl in *; try done;
    try (destruct HI as (_ & Hi & _); by apply (Hblocked _ Hi)).
  - destruct HI as (input & Ei & Hh & Hr). pose proof (fits_at _ _ _ _ Hfits Ei) as Hf.
    destruct (reading_step _ _ _ _ _ _ Hf Hh Hr E) as (Hh' & Hr' & Eb).
    exists past. unfold full in *. simpl. rewrite Eb. split_ands; try done. by exists input.
  - destruct HI as (-> & Hm & HI). exists past.
    destruct l; simpl in E; try done; destruct HI as [Hw Hout]; rewrite ?Hw, ?Hm in E; simplify_eq/=;
      rewrite ?Hout; by split_ands.
  - destruct HI as (-> & -> & _). done.
  - destruct HI as (-> & -> & _). done.
Qed.

Lemma sema_reach inputs c :
  Forall fits inputs → reach sema_step (sema_init 0 0 inputs) c → sema_inv inputs c.
Proof.
  intros Hf. apply reach_inv; [|intros []; [apply parent_preserves|apply child_preserves]].
  exists []. unfold sema_init, full. simpl. split_ands; [constructor|done|apply length_replicate|].
  destruct inputs; by split_ands.
Qed.

(** ** Progress *)

(** The outcome of a run that cannot go on: the whole exchange, or a parent that
    waits for a child which took an empty line for the end. *)
Definition finished (inputs : list (list byte)) (c : config) : Prop :=
  parentP c = PDone ∧ childP c = CDone ∧ Forall (λ i, i ≠ []) inputs ∧
  output (mem c) = transcript inputs ++ [ChildExited; ParentExited].

Definition hung (inputs : list (list byte)) (c : config) : Prop :=
  ∃ past more, inputs = past ++ [] :: more ∧ Forall (λ i, i ≠ []) past ∧
    parentP c = PWait more ∧ childP c = CDone ∧
    output (mem c) = transcript past ++ [Wrote 0; ChildExited].

Lemma sema_stuck inputs c :
  sema_inv inputs c → sema_step Parent c = None → sema_step Child c = None →
  finished inputs c ∨ hung inputs c.
Proof.
  intros (past & Hpast & Hfits & Hfull & HI) HP HC. destruct c as [g p l]; simpl in *.
  destruct (child_step g l) as [[g' l']|] eqn:E; [done|].
  destruct (parent_step _ g p) as [[g' p']|] eqn:EP; [done|]. clear HP HC.
  destruct p as [input more|input more|input more|input more|input more|more| | | | | |]; simpl in *; try done.
  - by rewrite memset_all in EP.
  - by destruct (memcpy _ _ _).
  - destruct HI as (input & Ei & Hh & Hr). right. exists past, more.
    destruct l; simpl in *; try done.
    + destruct Hr as [(Hw & _)|(_ & Hrd & _)]; [by rewrite Hw in E|by rewrite Hrd in EP].
    + by destruct (c_string _).
    + destruct Hr as (_ & _ & Hout & ->). by split_ands.
  - destruct HI as (-> & Hm & HI). case_bool_decide as Hd; [done|]. exfalso.
    destruct l; simpl in *; try done. destruct HI as [Hw _]. by rewrite Hw in E.
  - destruct HI as (-> & -> & Hout). by left.
Qed.

(** ** Termination *)

Definition parent_left (p : parent) : nat :=
  match p with
  | PSize _ more => 12 * S (length more) + 11
  | PMemset _ more => 12 * S (length more) + 10
  | PMemcpy _ more => 12 * S (length more) + 9
  | PPrint _ more => 12 * S (length more) + 8
  | PPost _ more => 12 * S (length more) + 7
  | PWait more => 12 * length more + 12
  | PStopSize => 11
  | PStopPost => 10
  | PJoin => 3
  | PExit => 2
  | PDone | PUndefined => 0
  end%nat.

Definition child_left (l : child) : nat :=
  match l with
  | CTest => 5 | CPrintSize => 4 | CPrintContent => 3 | CPost => 2 | CExit => 1 | _ => 0
  end%nat.

Definition work (c : config) : nat :=
  parent_left (parentP c) + child_left (childP c) + 6 * writeDone (mem c) + readDone (mem c).

Lemma getline_left more : (parent_left (getline more) = 12 * length more + 11)%nat.
Proof. by destruct more. Qed.

Lemma work_step a c c' : sema_step a c = Some c' → (work c' < work c)%nat.
Proof.
  destruct c as [g p l]. unfold work. destruct a; simpl.
  - destruct (parent_step _ g p) as [[g' p']|] eqn:E; simpl; intros; simplify_eq/=.
    destruct p; simpl in E; try done;
      repeat match type of E with context [match ?x with _ => _ end] => destruct x eqn:? end;
      simplify_eq/=; rewrite ?getline_left; lia.
  - destruct (child_step g l) as [[g' l']|] eqn:E; simpl; intros; simplify_eq/=.
    destruct l; simpl in E; try done;
      repeat match type of E with context [match ?x with _ => _ end] => destruct x eqn:? end;
      simplify_eq/=; lia.
Qed.

(** The parent changes the shared data. *)
Definition writing (p : parent) : bool :=
  match p with PSize _ _ | PMemset _ _ | PMemcpy _ _ | PStopSize => true | _ => false end.

Lemma writing_alone inputs c : sema_inv inputs c → writing (parentP c) = true → idle (mem c) (childP c).
Proof.
  intros (past & _ & _ & _ & HI) Hw. destruct (parentP c); try done; by destruct HI as (_ & ? & _).
Qed.

(** * Properties *)

(** The exchange of shm_intro.cpp and mmap_intro.cpp.  For any input
    lines shorter than the buffer and every interleaving: while the parent changes
    the shared data the child waits at its semaphore; no schedule is longer than
    [12 n + 11] steps for [n] lines; and a state in which neither process can move
    is the end, with every line announced, received with its size and printed in
    order and both processes gone, or, when there is an empty line, the parent
    waiting for ever for a child that has taken it for the end. *)
Theorem semaphore_exchange (inputs : list (list byte)) c :
  Forall fits inputs → reach sema_step (sema_init 0 0 inputs) c →
  (writing (parentP c) = true → idle (mem c) (childP c)) ∧
  terminates_within sema_step (12 * length inputs + 11) (sema_init 0 0 inputs) ∧
  ((∃ a c', sema_step a c = Some c') ∨ finished inputs c ∨ hung inputs c).
Proof.
  intros Hf Hr. pose proof (sema_reach _ _ Hf Hr) as HI. split_ands.
  - by eapply writing_alone.
  - replace (12 * length inputs + 11)%nat with (work (sema_init 0 0 inputs)).
    + apply (measure_terminates _ (λ _, True) work); [done|]. intros. split; [done|]. by eapply work_step.
    + unfold work, sema_init. cbn [parentP childP mem writeDone readDone child_left]. rewrite getline_left. lia.
  - destruct (sema_step Parent c) as [c'|] eqn:EP; [left; by exists Parent, c'|].
    destruct (sema_step Child c) as [c'|] eqn:EC; [left; by exists Child, c'|].
    right. by apply sema_stuck.
Qed.

(** Two lines, exchanged; then the end. *)
Definition two_lines : list process :=
  let round := replicate 5 Parent ++ replicate 5 Child ++ [Parent] in
  round ++ round ++ replicate 2 Parent ++ replicate 3 Child ++ replicate 2 Parent.

Lemma semaphore_exchange_witness :
  ∃ c, run sema_step two_lines (sema_init 0 0 [[x61]; [x62; x63]]) = Some c ∧
    output (mem c) = [Wrote 1; ReadSize 1; Content [x61]; Wrote 2; ReadSize 2; Content [x62; x63];
                      ChildExited; ParentExited] ∧
    terminates_within sema_step 35 (sema_init 0 0 [[x61]; [x62; x63]]).
Proof.
  assert (∃ c, run sema_step two_lines (sema_init 0 0 [[x61]; [x62; x63]]) = Some c ∧
    output (mem c) = [Wrote 1; ReadSize 1; Content [x61]; Wrote 2; ReadSize 2; Content [x62; x63];
                      ChildExited; ParentExited]) as (c & Hc & Ho)
    by (eexists; split; [vm_compute; reflexivity|reflexivity]).
  exists c. split; [exact Hc|]. split; [exact Ho|].
  refine (proj1 (proj2 (semaphore_exchange [[x61]; [x62; x63]] c _ (run_reach _ _ _ _ Hc)))).
  repeat constructor; unfold fits; pose proof buffer_size; simpl; lia.
Defined.

(** The parent writes a line, the child reads it. *)
Definition one_line : list process := replicate 5 Parent ++ replicate 4 Child.

(** What the protocol does not handle.  After an empty line neither
    process can move and the parent has not seen the end of its input; a line of
    4092 characters leaves no room for the NUL and the child's output runs past
    the buffer; with a [writeDone] semaphore left at 1 by an earlier run the child
    exits before the first line, and the parent waits for ever. *)
Theorem semaphore_pitfalls :
  (∃ c, run sema_step one_line (sema_init 0 0 [[x61]; []; [x62]]) = Some c ∧
     childP c = CPost ∧
     ∃ c', run sema_step (Child :: replicate 6 Parent ++ replicate 3 Child) c = Some c' ∧
       parentP c' = PWait [[x62]] ∧ childP c' = CDone ∧ stuck sema_step c') ∧
  (∃ c, run sema_step one_line (sema_init 0 0 [replicate 4092 x61]) = Some c ∧ childP c = CUndefined) ∧
  (∃ c, run sema_step (replicate 3 Child ++ replicate 5 Parent) (sema_init 1 0 [[x61]]) = Some c ∧
     parentP c = PWait [] ∧ childP c = CDone ∧ stuck sema_step c).
Proof.
  split_ands.
  - eexists. split; [vm_compute; reflexivity|]. split; [reflexivity|].
    eexists. split; [vm_compute; reflexivity|]. split_ands; [reflexivity|reflexivity|]. by intros [].
  - eexists. split; [vm_compute; reflexivity|reflexivity].
  - eexists. split; [vm_compute; reflexivity|]. split_ands; [reflexivity|reflexivity|]. by intros [].
Qed.
