(* ===== verification/IpcPrograms.v ===== *)
(** ipc/shm_intro.cpp and ipc/mmap_intro.cpp as whole programs: the semaphores and the
    shared memory they create by name, the exchange of [IpcSemaphores], and what they
    remove at the end.

    The programs are the same but for the shared memory, which shm_intro.cpp gets
    through a name.  The system's names are part of the state, so that one can see
    what a run leaves to the next one: nothing if it ends, the semaphores with their
    values if it is killed. *)

From S2P Require Import Prelude Machine IpcSemaphores.
From stdpp Require Import options.

#[local] Opaque BufferSize.

(** * The system's names *)

(** The named semaphores with their values, the shared-memory objects with their
    sizes. *)
Record names := Names { semas : gmap string nat; objects : gmap string nat }.

Definition WriteDoneSema : string := "/write_sema".
Definition ReadDoneSema : string := "/read_done_sema".
Definition ShmFile : string := "/kafka".

(** [SharedData::DataSize]. *)
Definition DataSize : nat := 4096.

(** [MakeSemaphore]: [sem_open] with [O_CREAT] and the value 0, which a semaphore
    that exists does not take. *)
Definition MakeSemaphore (path : string) (ns : names) : names :=
  Names (<[path:=default 0 (semas ns !! path)]> (semas ns)) (objects ns).

(** [sem_unlink] and [shm_unlink]: [None] is -1. *)
Definition sem_unlink (path : string) (ns : names) : option names :=
  _ ← semas ns !! path; Some (Names (delete path (semas ns)) (objects ns)).

Definition shm_unlink (path : string) (ns : names) : option names :=
  _ ← objects ns !! path; Some (Names (semas ns) (delete path (objects ns))).

(** [shm_open] with [O_CREAT], then [ftruncate]. *)
Definition shm_create (path : string) (size : nat) (ns : names) : names :=
  Names (semas ns) (<[path:=size]> (objects ns)).

(** * The programs *)

Inductive variant := ShmIntro | MmapIntro.

(** What the parent still has to remove, in its order. *)
Inductive removal := UnlinkRead | UnlinkWrite | Munmap | UnlinkShm.

Definition removals (v : variant) : list removal :=
  [UnlinkRead; UnlinkWrite; Munmap] ++ match v with ShmIntro => [UnlinkShm] | MmapIntro => [] end.

Definition remove (r : removal) (ns : names) : option names :=
  match r with
  | UnlinkRead => sem_unlink ReadDoneSema ns
  | UnlinkWrite => sem_unlink WriteDoneSema ns
  | Munmap => Some ns
  | UnlinkShm => shm_unlink ShmFile ns
  end.

(** [failed]: a [CHECK_ERROR] of the parent has ended it. *)
Record program := Program {
  system : names; exchange_ : config; todo : list removal; failed : bool }.

(** The values of the semaphores, under their names as long as they have one. *)
Definition publish (c : config) (ns : names) : names :=
  Names (alter (λ _, writeDone (mem c)) WriteDoneSema (alter (λ _, readDone (mem c)) ReadDoneSema (semas ns)))
    (objects ns).

(** The parent removes the names after [wait], before its last line. *)
Definition removing (a : process) (c : config) : bool :=
  match a, parentP c with Parent, PExit => true | _, _ => false end.

Definition program_step (a : process) (s : program) : option program :=
  match removing a (exchange_ s), todo s with
  | true, r :: rest =>
      if failed s then None else
      Some match remove r (system s) with
        | Some ns => Program ns (exchange_ s) rest false
        | None => Program (system s) (exchange_ s) (todo s) true
        end
  | _, _ =>
      c ← sema_step a (exchange_ s);
      Some (Program (publish c (system s)) c (todo s) (failed s))
  end.

(** [main] up to the fork. *)
Definition open_all (v : variant) (ns : names) : names :=
  let ns1 := MakeSemaphore ReadDoneSema (MakeSemaphore WriteDoneSema ns) in
  match v with
  | ShmIntro => shm_create ShmFile DataSize (default ns1 (shm_unlink ShmFile ns1))
  | MmapIntro => ns1
  end.

Definition program_main (v : variant) (ns : names) (inputs : list (list byte)) : program :=
  let value path := default 0 (semas ns !! path) in
  Program (open_all v ns) (sema_init (value WriteDoneSema) (value ReadDoneSema) inputs) (removals v) false.

(** * The invariant *)

(** The names when [k] removals have been made. *)
Definition names_at (v : variant) (ns : names) (c : config) (k : nat) : names :=
  let both := <[WriteDoneSema:=writeDone (mem c)]> (<[ReadDoneSema:=readDone (mem c)]> (semas ns)) in
  Names
    match k with
    | 0 => both
    | 1 => delete ReadDoneSema both
    | _ => delete WriteDoneSema (delete ReadDoneSema both)
    end
    match v with
    | MmapIntro => objects ns
    | ShmIntro => if decide (k < 4) then <[ShmFile:=DataSize]> (objects ns) else delete ShmFile (objects ns)
    end.

Record program_inv (v : variant) (ns : names) (s : program) (k : nat) : Prop := {
  inv_todo : todo s = drop k (removals v);
  inv_system : system s = names_at v ns (exchange_ s) k;
  inv_failed : failed s = false;
  inv_early : match parentP (exchange_ s) with
    | PExit => childP (exchange_ s) = CDone
    | PDone => childP (exchange_ s) = CDone ∧ k = length (removals v)
    | _ => k = 0
    end;
  inv_count : k ≤ length (removals v) }.

Lemma program_start v ns inputs : program_inv v ns (program_main v ns inputs) 0.
Proof.
  constructor; try done; [|by destruct inputs|cbn; lia].
  unfold program_main, names_at, sema_init, open_all, MakeSemaphore. cbn [system exchange_ mem writeDone readDone semas objects].
  rewrite lookup_insert_ne by done.
  destruct v; cbn [semas objects].
  - rewrite decide_True by lia. unfold shm_create, shm_unlink. cbn [semas objects].
    destruct (objects ns !! ShmFile) as [n|] eqn:E; cbn.
    + f_equal; [by apply insert_insert_ne|by rewrite insert_delete_eq].
    + f_equal. by apply insert_insert_ne.
  - f_equal. by apply insert_insert_ne.
Qed.

(** A removal succeeds. *)
Lemma remove_next v ns c k r rest :
  drop k (removals v) = r :: rest →
  rest = drop (S k) (removals v) ∧ S k ≤ length (removals v) ∧
  remove r (names_at v ns c k) = Some (names_at v ns c (S k)).
Proof.
  assert (ReadDoneSema ≠ WriteDoneSema) as Hne by done.
  destruct v; destruct k as [|[|[|[|k]]]]; cbn [removals app drop length]; try (by destruct k);
    intros H; simplify_eq; (split_ands; [done|lia|]); unfold names_at, remove, sem_unlink, shm_unlink;
    cbn [semas objects].
  1,5: by rewrite lookup_insert_ne, lookup_insert_eq by done.
  1,4: by rewrite lookup_delete_ne, lookup_insert_eq by done.
  - done.
  - rewrite decide_True by lia. by rewrite lookup_insert_eq, delete_insert_eq.
  - done.
Qed.

Lemma publish_at v ns c c' k : k = 0 ∨ 2 ≤ k → publish c' (names_at v ns c k) = names_at v ns c' k.
Proof.
  assert (ReadDoneSema ≠ WriteDoneSema) as Hne by done.
  intros Hk. unfold publish, names_at. cbn [semas objects]. f_equal. apply map_eq. intros i.
  destruct k as [|[|k]]; [|lia|]; destruct (decide (i = WriteDoneSema)) as [->|H1].
  - by simplify_map_eq.
  - rewrite lookup_alter_ne by done. destruct (decide (i = ReadDoneSema)) as [->|H2]; [by simplify_map_eq|].
    by rewrite lookup_alter_ne, !(lookup_insert_ne _ WriteDoneSema), !(lookup_insert_ne _ ReadDoneSema) by done.
  - by simplify_map_eq.
  - rewrite lookup_alter_ne by done. destruct (decide (i = ReadDoneSema)) as [->|H2]; [by simplify_map_eq|].
    by rewrite lookup_alter_ne, !(lookup_delete_ne _ WriteDoneSema), !(lookup_delete_ne _ ReadDoneSema),
      !(lookup_insert_ne _ WriteDoneSema), !(lookup_insert_ne _ ReadDoneSema) by done.
Qed.

(** Steps of the exchange before the parent has waited for the child. *)
Lemma sema_step_parent a c c' :
  sema_step a c = Some c' →
  match parentP c' with
  | PExit => parentP c = PJoin ∧ childP c' = CDone ∨ parentP c = PExit ∧ a = Child
  | PDone => parentP c = PExit ∧ a = Parent ∨ parentP c = PDone ∧ a = Child
  | _ => parentP c ≠ PExit ∧ parentP c ≠ PDone
  end.
Proof.
  destruct c as [g p l]. destruct a; cbn; intros Hs.
  - destruct (parent_step _ g p) as [[g' p']|] eqn:E; simplify_eq/=.
    destruct p as [| | | | |more| | | | | |]; cbn in E; try (destruct more as [|i more]; cbn in E); inv_opt; auto.
  - destruct (child_step g l) as [[g' l']|] eqn:E; simplify_eq/=. by destruct p; auto.
Qed.

(** A step of the exchange before the removals. *)
Lemma exchange_early v ns s k a c :
  program_inv v ns s k → removing a (exchange_ s) = false → sema_step a (exchange_ s) = Some c →
  k = 0 ∧ match parentP c with PExit => childP c = CDone | PDone => False | _ => True end.
Proof.
  intros HI Hr Hs. pose proof (sema_step_parent _ _ _ Hs) as Hp. pose proof (inv_early _ _ _ _ HI) as He.
  assert (parentP (exchange_ s) ≠ PExit ∧ parentP (exchange_ s) ≠ PDone) as [H1 H2].
  { destruct (exchange_ s) as [g p l]. split; intros E; cbn in *; subst p.
    - destruct a; [done|]. cbn in Hs. by rewrite He in Hs.
    - destruct He as [-> _]. by destruct a. }
  split; [by destruct (parentP (exchange_ s))|]. destruct (parentP c); try done.
  - by destruct Hp as [[_ ?]|[? _]].
  - by destruct Hp as [[? _]|[? _]].
Qed.

Lemma program_preserves v ns a s s' k :
  program_inv v ns s k → program_step a s = Some s' → ∃ k', program_inv v ns s' k'.
Proof.
  intros HI Hs. unfold program_step in Hs. destruct (removing a (exchange_ s)) eqn:Er.
  - assert (a = Parent ∧ parentP (exchange_ s) = PExit) as [-> Hp].
    { destruct a; cbn in Er; [|done]. by destruct (parentP (exchange_ s)). }
    pose proof (inv_early _ _ _ _ HI) as He. rewrite Hp in He.
    pose proof (inv_todo _ _ _ _ HI) as Ht. pose proof (inv_count _ _ _ _ HI) as Hk.
    destruct (todo s) as [|r rest] eqn:Et.
    + assert (k = length (removals v)) as Ek.
      { apply (f_equal length) in Ht. rewrite length_drop in Ht. cbn [length] in Ht. lia. }
      destruct (exchange_ s) as [g p l] eqn:Ec. cbn in Hp, He. subst p l. cbn in Hs. simplify_eq.
      exists (length (removals v)). constructor; try done; [|apply HI].
      cbn [system exchange_]. rewrite (inv_system _ _ _ _ HI), Ec. apply publish_at. destruct v; cbn; lia.
    + rewrite (inv_failed _ _ _ _ HI) in Hs. symmetry in Ht.
      destruct (remove_next v ns (exchange_ s) _ _ _ Ht) as (-> & Hle & Hrem).
      rewrite (inv_system _ _ _ _ HI), Hrem in Hs. simplify_eq. exists (S k). constructor; try done. cbn. by rewrite Hp.
  - destruct (sema_step a (exchange_ s)) as [c|] eqn:Ec; cbn in Hs; [|done]. simplify_eq.
    destruct (exchange_early _ _ _ _ _ _ HI Er Ec) as [-> Hc]. exists 0. constructor; try apply HI.
    + cbn [system exchange_]. rewrite (inv_system _ _ _ _ HI). apply publish_at. lia.
    + cbn. by destruct (parentP c).
Qed.

Lemma program_reach v ns inputs s :
  reach program_step (program_main v ns inputs) s → ∃ k, program_inv v ns s k.
Proof.
  apply (reach_inv _ (λ s, ∃ k, program_inv v ns s k)); [eexists; apply program_start|].
  intros a s1 s2 [k HI] Hs. by eapply program_preserves.
Qed.

(** The programs do what the exchange does. *)
Lemma program_simulates a s s' :
  program_step a s = Some s' →
  exchange_ s' = exchange_ s ∨ sema_step a (exchange_ s) = Some (exchange_ s').
Proof.
  unfold program_step. intros Hs.
  destruct (removing a (exchange_ s)), (todo s) as [|r rest];
    try (destruct (sema_step a (exchange_ s)) as [c|]; simplify_eq/=; by right).
  destruct (failed s); [done|]. simplify_eq. left. by destruct (remove r (system s)).
Qed.

Lemma program_exchange v ns inputs s :
  reach program_step (program_main v ns inputs) s →
  reach sema_step (exchange_ (program_main v ns inputs)) (exchange_ s).
Proof.
  intros Hr. destruct (simulation_reach program_step sema_step (λ s c, c = exchange_ s)
    ltac:(intros a s1 s2 c -> [->|H]%program_simulates; eauto)
    (program_main v ns inputs) s _ eq_refl Hr) as (c & Hc & ->). done.
Qed.

(** ** Termination *)

Definition program_work (s : program) : nat :=
  work (exchange_ s) + length (todo s) + (if failed s then 0 else 1).

Lemma program_work_step a s s' : program_step a s = Some s' → program_work s' < program_work s.
Proof.
  unfold program_step, program_work. intros Hs.
  destruct (removing a (exchange_ s)), (todo s) as [|r rest] eqn:Et;
    try (destruct (sema_step a (exchange_ s)) as [c|] eqn:Ec; cbn in Hs; [|done]; simplify_eq;
         apply work_step in Ec; cbn [exchange_ todo failed]; rewrite ?Et; lia).
  destruct (failed s); [done|]. simplify_eq. destruct (remove r (system s)); cbn; rewrite ?Et; cbn; lia.
Qed.

(** * Properties *)

(** What the system has when the program has ended. *)
Definition cleaned (v : variant) (ns : names) : names :=
  Names (delete WriteDoneSema (delete ReadDoneSema (semas ns)))
    match v with ShmIntro => delete ShmFile (objects ns) | MmapIntro => objects ns end.

Lemma program_stuck v ns s k :
  program_inv v ns s k → program_step Parent s = None → program_step Child s = None →
  sema_step Parent (exchange_ s) = None ∧ sema_step Child (exchange_ s) = None.
Proof.
  intros HI HP HC. unfold program_step in *. cbn [removing] in *. rewrite (inv_failed _ _ _ _ HI) in HP.
  split; [|by destruct (sema_step Child (exchange_ s))].
  destruct (match parentP (exchange_ s) with PExit => true | _ => false end), (todo s);
    try done; by destruct (sema_step Parent (exchange_ s)).
Qed.

Lemma program_cleaned v ns s k inputs :
  program_inv v ns s k → finished inputs (exchange_ s) → system s = cleaned v ns.
Proof.
  intros HI (Hp & _). pose proof (inv_early _ _ _ _ HI) as He. rewrite Hp in He. destruct He as [_ ->].
  rewrite (inv_system _ _ _ _ HI). unfold names_at, cleaned. assert (ReadDoneSema ≠ WriteDoneSema) as Hne by done.
  f_equal; [|by destruct v].
  assert (∀ m : gmap string nat, delete WriteDoneSema (delete ReadDoneSema
    (<[WriteDoneSema:=writeDone (mem (exchange_ s))]> (<[ReadDoneSema:=readDone (mem (exchange_ s))]> m))) =
    delete WriteDoneSema (delete ReadDoneSema m)) as E.
  { intros m. rewrite delete_insert_ne by done. by rewrite delete_insert_eq, delete_insert_eq. }
  destruct v; cbn [removals app length]; apply E.
Qed.

(** The names a program that hangs leaves behind. *)
Definition left_behind (v : variant) (s : names) : Prop :=
  is_Some (semas s !! WriteDoneSema) ∧ is_Some (semas s !! ReadDoneSema) ∧
  match v with ShmIntro => objects s !! ShmFile = Some DataSize | MmapIntro => True end.

Lemma program_hung v ns s k inputs :
  program_inv v ns s k → hung inputs (exchange_ s) → left_behind v (system s).
Proof.
  intros HI (past & more & _ & _ & Hp & _). pose proof (inv_early _ _ _ _ HI) as He. rewrite Hp in He. subst k.
  rewrite (inv_system _ _ _ _ HI). assert (WriteDoneSema ≠ ReadDoneSema) as Hne by done.
  unfold left_behind, names_at. cbn [semas objects]. split_ands.
  - rewrite lookup_insert_eq. eauto.
  - rewrite lookup_insert_ne, lookup_insert_eq by done. eauto.
  - destruct v; [|done]. rewrite decide_True by lia. apply lookup_insert_eq.
Qed.

(** C33: shm_intro.cpp and mmap_intro.cpp from their first line to their last.
    Whatever shared-memory objects and other semaphores the system has, as long as
    the two semaphores do not exist or have the value 0, and for any lines shorter than
    the buffer: no interleaving has more than [12 n + 16] steps; and a run that cannot
    go on has ended, or it hangs.  When it has ended no line was empty, every line was
    handed over and the last lines of both processes are printed, no removal has failed,
    and the names are gone, with all others as before.  It hangs at the first empty line,
    the lines before it handed over, and leaves its names behind. *)
Theorem programs_clean_up v ns inputs s :
  default 0 (semas ns !! WriteDoneSema) = 0 → default 0 (semas ns !! ReadDoneSema) = 0 →
  Forall fits inputs →
  reach program_step (program_main v ns inputs) s →
  terminates_within program_step (12 * length inputs + 16) (program_main v ns inputs) ∧
  ((∃ a s', program_step a s = Some s') ∨
   finished inputs (exchange_ s) ∧ failed s = false ∧ system s = cleaned v ns ∨
   hung inputs (exchange_ s) ∧ left_behind v (system s)).
Proof.
  intros Hw Hrd Hin Hr. split.
  - intros sched s' Hs. etrans; [apply (measure_terminates program_step (λ _, True) program_work
      (program_main v ns inputs) I) with (2 := Hs); intros; split; [done|by eapply program_work_step]|].
    unfold program_work, program_main, work, sema_init. cbn [exchange_ todo failed parentP childP mem writeDone readDone child_left].
    rewrite Hw, Hrd, getline_left. destruct v; cbn [removals app length]; lia.
  - destruct (program_reach _ _ _ _ Hr) as [k HI]. apply program_exchange in Hr.
    cbn [exchange_ program_main] in Hr. rewrite Hw, Hrd in Hr. apply sema_reach in Hr; [|done].
    destruct (program_step Parent s) as [s'|] eqn:EP; [left; by exists Parent, s'|].
    destruct (program_step Child s) as [s'|] eqn:EC; [left; by exists Child, s'|]. right.
    destruct (program_stuck _ _ _ _ HI EP EC) as [EP' EC'].
    destruct (sema_stuck _ _ Hr EP' EC') as [Hf|Hh]; [left|right].
    + split_ands; [done|apply HI|]. by eapply program_cleaned.
    + split; [done|]. by eapply program_hung.
Qed.

(** Two lines through shm_intro.cpp, in a system that has an object of that name and
    another semaphore. *)
Definition some_names : names := Names {["/other_sema" := 3]} {[ShmFile := 10]}.

Lemma programs_clean_up_witness :
  ∃ s, run program_step (two_lines ++ replicate 4 Parent)
      (program_main ShmIntro some_names [[x61]; [x62; x63]]) = Some s ∧
    output (mem (exchange_ s)) =
      [Wrote 1; ReadSize 1; Content [x61]; Wrote 2; ReadSize 2; Content [x62; x63]; ChildExited; ParentExited] ∧
    system s = Names {["/other_sema" := 3]} ∅ ∧
    terminates_within program_step 40 (program_main ShmIntro some_names [[x61]; [x62; x63]]).
Proof.
  assert (∃ s, run program_step (two_lines ++ replicate 4 Parent)
      (program_main ShmIntro some_names [[x61]; [x62; x63]]) = Some s ∧
    output (mem (exchange_ s)) =
      [Wrote 1; ReadSize 1; Content [x61]; Wrote 2; ReadSize 2; Content [x62; x63]; ChildExited; ParentExited] ∧
    system s = Names {["/other_sema" := 3]} ∅) as (s & Hs & Ho & Hn)
    by (eexists; split; [vm_compute; reflexivity|split; vm_compute; reflexivity]).
  exists s. split; [exact Hs|]. split; [exact Ho|]. split; [exact Hn|].
  refine (proj1 (programs_clean_up ShmIntro some_names [[x61]; [x62; x63]] s _ _ _ (run_reach _ _ _ _ Hs)));
    [reflexivity..|].
  pose proof buffer_size as Hb.
  apply Forall_cons_2; [|apply Forall_singleton]; unfold fits; simpl; lia.
Defined.

(** A run that is killed leaves the semaphores.  Killed when the parent has posted
    the first line, it leaves [writeDone] at 1; the next run of either program does
    not hand over anything: its child exits at once, and its parent waits for ever. *)
Theorem killed_run_spoils_next :
  ∃ s, run program_step (replicate 5 Parent) (program_main ShmIntro (Names ∅ ∅) [[x61]]) = Some s ∧
    semas (system s) !! WriteDoneSema = Some 1 ∧
  ∃ s', run program_step (replicate 3 Child ++ replicate 5 Parent) (program_main MmapIntro (system s) [[x61]]) = Some s' ∧
    parentP (exchange_ s') = PWait [] ∧ childP (exchange_ s') = CDone ∧ stuck program_step s'.
Proof.
  eexists. split; [vm_compute; reflexivity|]. split; [reflexivity|].
  eexists. split; [vm_compute; reflexivity|]. split; [reflexivity|]. split; [reflexivity|]. by intros [].
Qed.
