(* ===== verification/MessageQueue.v ===== *)
(** ipc/mqueue.cpp: a parent process sends the lines of its input to a child
    through a POSIX message queue.

    A queue is an object with at most ten messages that may have a name; [mq_open]
    with [O_CREAT] opens the object of that name or makes a new one, and
    [mq_unlink] takes the name away.  One step is one system call or one line
    printed.  When both processes open the same object every line arrives, in
    order.  But the parent removes the name without knowing whether the child has
    opened the queue: a late child makes a queue of its own and waits for ever.
    That can happen exactly when all messages fit into the queue at once.

    [mq_open], [mq_send] and [mq_receive] are calls of the system, not code of the
    repository: their definitions state what POSIX documents of a queue without
    priorities, for calls that succeed. *)

From S2P Require Import Prelude Machine.
From stdpp Require Import options.

#[local] Arguments replicate : simpl never.

(** * The machine *)

(** [Message::BufferSize]. *)
Definition BufferSize : nat := 1024.

(** [attr.mq_maxmsg]. *)
Definition mq_maxmsg : nat := 10.

(** [sizeof(Message)], which [mq_receive] returns: the type and the data. *)
Definition message_size : nat := 4 + BufferSize.

Inductive Type_ := Default | Stop.

Record Message := Msg { messageType : Type_; data : list byte }.

Inductive mq_line :=
  | Received (size : nat) (text : list byte)
  | ChildExited
  | ParentExited.

(** The object of the name [QueuePath], the objects, and what has been printed. *)
Record system := System {
  named : option nat; queues : list (list Message); printed : list mq_line }.

(** The parent, with its queue and the lines it has still to read: before the
    open, in the loop or at the last message, at the close, the unlink, the wait
    and the last line; at its end. *)
Inductive mq_parent :=
  | POpen (inputs : list (list byte))
  | PSend (queue : nat) (inputs : list (list byte))
  | PClose
  | PUnlink
  | PJoin
  | PExit
  | PDone.

(** The child: before the open, at the receive, at the test of the message, at
    the print, at the close, at its last line, at its end; or with its output
    past the end of the buffer. *)
Inductive mq_child :=
  | COpen
  | CReceive (queue : nat)
  | CTest (queue : nat) (message : Message)
  | CPrint (queue : nat) (message : Message)
  | CClose
  | CExit
  | CDone
  | CUndefined.

#[export] Instance type_eq_dec : EqDecision Type_.
Proof. solve_decision. Defined.

#[export] Instance message_eq_dec : EqDecision Message.
Proof. solve_decision. Defined.

#[export] Instance mq_child_eq_dec : EqDecision mq_child.
Proof. solve_decision. Defined.

(** [mq_open(QueuePath, ... | O_CREAT, ...)]. *)
Definition mq_open (g : system) : system * nat :=
  match named g with
  | Some q => (g, q)
  | None =>
      let q := length (queues g) in
      (System (Some q) (queues g ++ [[]]) (printed g), q)
  end.

(** [mq_send] blocks on a full queue. *)
Definition mq_send (q : nat) (m : Message) (g : system) : option system :=
  ms ← queues g !! q;
  if bool_decide (length ms < mq_maxmsg)
  then Some (System (named g) (<[q:=ms ++ [m]]> (queues g)) (printed g)) else None.

(** [mq_receive] blocks on an empty one. *)
Definition mq_receive (q : nat) (g : system) : option (system * Message) :=
  ms ← queues g !! q;
  match ms with
  | [] => None
  | m :: rest => Some (System (named g) (<[q:=rest]> (queues g)) (printed g), m)
  end.

Definition say (l : mq_line) (g : system) : system :=
  System (named g) (queues g) (printed g ++ [l]).

(** [memset], then [memcpy] of at most [BufferSize] bytes. *)
Definition fill (input : list byte) : list byte :=
  take (min BufferSize (length input)) input ++
  replicate (BufferSize - min BufferSize (length input)) x00.

Definition mq_parent_step (child_done : bool) (g : system) (p : mq_parent) :
    option (system * mq_parent) :=
  match p with
  | POpen inputs => let '(g', q) := mq_open g in Some (g', PSend q inputs)
  | PSend q (input :: more) => g' ← mq_send q (Msg Default (fill input)) g; Some (g', PSend q more)
  | PSend q [] => g' ← mq_send q (Msg Stop (replicate BufferSize x00)) g; Some (g', PClose)
  | PClose => Some (g, PUnlink)
  | PUnlink => Some (System None (queues g) (printed g), PJoin)
  | PJoin => if child_done then Some (g, PExit) else None
  | PExit => Some (say ParentExited g, PDone)
  | PDone => None
  end.

Definition mq_child_step (g : system) (l : mq_child) : option (system * mq_child) :=
  match l with
  | COpen => let '(g', q) := mq_open g in Some (g', CReceive q)
  | CReceive q => '(g', m) ← mq_receive q g; Some (g', CTest q m)
  | CTest q m => Some (g, if bool_decide (messageType m = Stop) then CClose else CPrint q m)
  | CPrint q m =>
      match c_string (data m) with
      | Some text => Some (say (Received message_size text) g, CReceive q)
      | None => Some (g, CUndefined)
      end
  | CClose => Some (g, CExit)
  | CExit => Some (say ChildExited g, CDone)
  | CDone | CUndefined => None
  end.

Record mq_config := MqConfig { sys : system; parentP : mq_parent; childP : mq_child }.

Inductive mq_process := Parent | Child.

Definition mq_step (a : mq_process) (c : mq_config) : option mq_config :=
  match a with
  | Parent =>
      '(g, p) ← mq_parent_step (bool_decide (childP c = CDone)) (sys c) (parentP c);
      Some (MqConfig g p (childP c))
  | Child => '(g, l) ← mq_child_step (sys c) (childP c); Some (MqConfig g (parentP c) l)
  end.

(** After the fork; the name was removed before it. *)
Definition mq_init (inputs : list (list byte)) : mq_config :=
  MqConfig (System None [] []) (POpen inputs) COpen.

(** * The invariant *)

(** The messages of the lines, and all that the parent sends. *)
Definition letters (inputs : list (list byte)) : list Message :=
  (λ i, Msg Default (fill i)) <$> inputs.

Definition stop : Message := Msg Stop (replicate BufferSize x00).

Definition stream (inputs : list (list byte)) : list Message := letters inputs ++ [stop].

(** What is printed of a line. *)
Definition text_of_line (input : list byte) : list byte := default [] (c_string (fill input)).

Definition transcript (inputs : list (list byte)) : list mq_line :=
  (λ i, Received message_size (text_of_line i)) <$> inputs.

(** A line that leaves room for a NUL. *)
Definition short (input : list byte) : Prop := length input < BufferSize.

Definition to_send (p : mq_parent) : list Message :=
  match p with POpen inputs | PSend _ inputs => stream inputs | _ => [] end.

Definition held (l : mq_child) : list Message :=
  match l with CTest _ m | CPrint _ m => [m] | _ => [] end.

(** The name is there until the parent removes it. *)
Definition keeps_name (p : mq_parent) : bool :=
  match p with POpen _ | PSend _ _ | PClose | PUnlink => true | _ => false end.

Definition on_first (p : mq_parent) : Prop :=
  match p with PSend q _ => q = 0 | _ => True end.

(** The child's part of the invariant: the lines [past] have been printed, and
    the messages of the lines [future] and the last one are on their way. *)
Definition child_view (past future : list (list byte)) (ms : list Message) (c : mq_config) : Prop :=
  let out := printed (sys c) in
  let todo := held (childP c) ++ ms ++ to_send (parentP c) in
  match childP c with
  | COpen => past = [] ∧ out = [] ∧ todo = stream future
  | CReceive q | CTest q _ => q = 0 ∧ out = transcript past ∧ todo = stream future
  | CPrint q m => q = 0 ∧ out = transcript past ∧ todo = stream future ∧ messageType m = Default
  | CClose | CExit => future = [] ∧ todo = [] ∧ out = transcript past
  | CDone =>
      future = [] ∧ todo = [] ∧
      out = transcript past ++ ChildExited ::
        match parentP c with PDone => [ParentExited] | _ => [] end
  | CUndefined => False
  end.

(** Nothing is open yet. *)
Definition fresh (inputs : list (list byte)) (c : mq_config) : Prop := c = mq_init inputs.

(** Both use the first object. *)
Definition common (inputs : list (list byte)) (c : mq_config) : Prop :=
  ∃ past future ms, inputs = past ++ future ∧ queues (sys c) = [ms] ∧ length ms ≤ mq_maxmsg ∧
    named (sys c) = (if keeps_name (parentP c) then Some 0 else None) ∧ on_first (parentP c) ∧
    (match parentP c with PExit | PDone => childP c = CDone | _ => True end) ∧
    child_view past future ms c.

(** The child came too late and waits on an object of its own. *)
Definition abandoned (inputs : list (list byte)) (c : mq_config) : Prop :=
  c = MqConfig (System (Some 1) [stream inputs; []] []) PJoin (CReceive 1) ∧ length inputs < mq_maxmsg.

Definition mq_inv (inputs : list (list byte)) (c : mq_config) : Prop :=
  fresh inputs c ∨ common inputs c ∨ abandoned inputs c.

(** The proofs need no more than this of the size, and must not compute it. *)
Lemma buffer_size_more : 8 < BufferSize.
Proof. unfold BufferSize. lia. Qed.

#[local] Opaque BufferSize.

Lemma fill_short input : short input → c_string (fill input) = Some (text_of_line input).
Proof.
  unfold short. intros Hs. unfold text_of_line.
  enough (is_Some (c_string (fill input))) as [t ->] by done.
  unfold fill. rewrite Nat.min_r by lia.
  destruct (BufferSize - length input) as [|n] eqn:E; [lia|]. apply c_string_pad.
Qed.

(** The head of what is on its way: a line's message or the last one. *)
Lemma stream_next future m rest :
  m :: rest = stream future →
  m = stop ∧ rest = [] ∧ future = [] ∨
  ∃ input more, future = input :: more ∧ m = Msg Default (fill input) ∧ rest = stream more.
Proof.
  destruct future as [|input more]; cbn; intros; simplify_eq; [by left|right]. by eexists _, _.
Qed.

Lemma stream_not_nil future : stream future ≠ [].
Proof. by destruct future. Qed.

Lemma mq_transcript_snoc past input :
  transcript (past ++ [input]) = transcript past ++ [Received message_size (text_of_line input)].
Proof. unfold transcript. by rewrite fmap_app. Qed.

Lemma stream_length inputs : length (stream inputs) = S (length inputs).
Proof. unfold stream, letters. rewrite length_app, length_fmap. simpl. lia. Qed.

(** ** Preservation *)

(** A send moves a message from the parent into the queue. *)
Lemma child_view_send past future ms m g g' p p' l :
  printed g' = printed g → to_send p = m :: to_send p' →
  child_view past future ms (MqConfig g p l) → child_view past future (ms ++ [m]) (MqConfig g' p' l).
Proof.
  intros Hg Hp. unfold child_view. cbn [sys parentP childP]. rewrite Hg, Hp, <- app_assoc. cbn [app].
  destruct l; try done; intros (-> & H & _); by apply app_nil in H as [_ [_ ?]%app_nil].
Qed.

Lemma mq_send_ok g q ms m g' :
  queues g = [ms] → q = 0 → mq_send q m g = Some g' →
  length ms < mq_maxmsg ∧ g' = System (named g) [ms ++ [m]] (printed g).
Proof.
  intros Hq -> H. unfold mq_send in H. rewrite Hq in H. simpl in H. case_bool_decide; by simplify_eq.
Qed.

Lemma mq_parent_preserves inputs c c' :
  mq_inv inputs c → mq_step Parent c = Some c' → mq_inv inputs c'.
Proof.
  intros [->|[(past & future & ms & Ein & Hq & Hlen & Hn & H0 & Hd & HV)|[-> _]]] Hs.
  - simpl in Hs. simplify_eq. right; left. exists [], inputs, []. by split_ands; [..|apply Nat.le_0_l| | | |].
  - destruct c as [g p l]. cbn [sys parentP childP] in *. unfold mq_step in Hs. cbn [sys parentP childP] in Hs.
    right; left.
    destruct p as [ins|q [|i ins]| | | | |]; cbn [mq_parent_step keeps_name] in *.
    + unfold mq_open in Hs. rewrite Hn in Hs. simplify_eq/=. exists past, future, ms. by split_ands.
    + destruct (mq_send _ _ _) as [g'|] eqn:E; simplify_eq/=.
      destruct (mq_send_ok _ _ _ _ _ Hq eq_refl E) as [Hlt ->]. exists past, future, (ms ++ [stop]).
      rewrite length_app. simpl. split_ands; try done; [lia|]. by eapply child_view_send; [..|exact HV].
    + destruct (mq_send _ _ _) as [g'|] eqn:E; simplify_eq/=.
      destruct (mq_send_ok _ _ _ _ _ Hq eq_refl E) as [Hlt ->]. eexists past, future, (ms ++ [_]).
      rewrite length_app. simpl. split_ands; try done; [lia|]. by eapply child_view_send; [..|exact HV].
    + simplify_eq/=. by exists past, future, ms.
    + simplify_eq/=. by exists past, future, ms.
    + case_bool_decide; simplify_eq/=. by exists past, future, ms.
    + simplify_eq/=. exists past, future, ms. split_ands; try done.
      destruct HV as (? & ? & Ho). cbn in Ho |- *. rewrite Ho, <- app_assoc. by split_ands.
    + done.
  - done.
Qed.

Lemma mq_child_preserves inputs c c' :
  Forall short inputs → mq_inv inputs c → mq_step Child c = Some c' → mq_inv inputs c'.
Proof.
  intros Hshort [->|[(past & future & ms & Ein & Hq & Hlen & Hn & H0 & Hd & HV)|[-> _]]] Hs.
  - simpl in Hs. simplify_eq. right; left. exists [], inputs, []. by split_ands; [..|apply Nat.le_0_l| | | |].
  - destruct c as [g p l]. cbn [sys parentP childP] in *. unfold mq_step in Hs. cbn [sys parentP childP] in Hs.
    unfold child_view in HV. cbn [sys parentP childP] in HV.
    destruct l as [|q|q m|q m| | | |]; cbn [mq_child_step held app] in *.
    + destruct HV as (-> & Ho & Ht). destruct (keeps_name p) eqn:Hk.
      * right; left. unfold mq_open in Hs. rewrite Hn in Hs. simplify_eq/=.
        exists [], future, ms. cbn. split_ands; try done; [by rewrite Hk|by destruct p].
      * right; right. destruct p; try done. unfold mq_open in Hs. rewrite Hn, Hq in Hs. simplify_eq/=.
        rewrite app_nil_r in Ht. subst. split; [by rewrite Ho|]. rewrite stream_length in Hlen. lia.
    + destruct HV as (-> & Ho & Ht). right; left.
      unfold mq_receive in Hs. rewrite Hq in Hs. simpl in Hs.
      destruct ms as [|m ms]; simplify_eq/=. exists past, future, ms. cbn. split_ands; try done; [lia|by destruct p].
    + destruct HV as (-> & Ho & Ht). right; left. simplify_eq/=.
      destruct (stream_next _ _ _ Ht) as [(-> & Hr & ->)|(i & more & -> & -> & Hr)].
      * exists past, [], ms. cbn. split_ands; try done. by destruct p.
      * exists past, (i :: more), ms. cbn. split_ands; try done. by destruct p.
    + destruct HV as (-> & Ho & Ht & Hm). right; left. simplify_eq/=.
      destruct (stream_next _ _ _ Ht) as [(-> & Hr & ->)|(i & more & -> & -> & Hr)]; [done|].
      cbn [data] in Hs. rewrite fill_short in Hs by (by apply Forall_app in Hshort as [_ [? _]%Forall_cons_iff]).
      simplify_eq/=. exists (past ++ [i]), more, ms. rewrite <- app_assoc. cbn.
      rewrite mq_transcript_snoc, Ho. split_ands; try done. by destruct p.
    + right; left. simplify_eq/=. exists past, future, ms. split_ands; try done. by destruct p.
    + right; left. destruct HV as (-> & Ht & Ho). simplify_eq/=. exists past, [], ms.
      cbn. rewrite Ho. split_ands; try done; by destruct p.
    + done.
    + done.
  - done.
Qed.

Lemma mq_reach inputs c :
  Forall short inputs → reach mq_step (mq_init inputs) c → mq_inv inputs c.
Proof.
  intros Hs. apply reach_inv; [by left|].
  intros []; [apply mq_parent_preserves|intros ??; by apply mq_child_preserves].
Qed.

(** ** Progress *)

(** Both processes have ended and every line has been printed. *)
Definition finished (inputs : list (list byte)) (c : mq_config) : Prop :=
  parentP c = PDone ∧ childP c = CDone ∧
  printed (sys c) = transcript inputs ++ [ChildExited; ParentExited].

(** In the common case the queue gives each process what it waits for: a full
    queue can be received from, and an empty one is empty because the parent has
    still to send. *)
Lemma common_stuck inputs c :
  common inputs c → mq_step Parent c = None → mq_step Child c = None → finished inputs c.
Proof.
  intros (past & future & ms & -> & Hq & Hlen & Hn & H0 & Hd & HV) HP HC.
  destruct c as [g p l]. unfold mq_step, finished in *. cbn [sys parentP childP] in *.
  unfold child_view in HV. cbn [sys parentP childP] in HV.
  destruct l as [|q|q m|q m| | | |]; cbn [mq_child_step held app] in *; try done.
  - destruct (mq_open g). done.
  - destruct HV as (-> & Ho & Ht). unfold mq_receive in HC. rewrite Hq in HC. simpl in HC.
    destruct ms as [|m ms]; [|done]. simpl in Ht.
    destruct p as [ins|q [|i ins]| | | | |]; cbn [mq_parent_step to_send] in *; try done;
      try (by destruct (stream_not_nil future)).
    + destruct (mq_open g). done.
    + cbn in H0. subst q. unfold mq_send in HP. rewrite Hq in HP. by cbn in HP.
    + cbn in H0. subst q. unfold mq_send in HP. rewrite Hq in HP. by cbn in HP.
  - by destruct (c_string _).
  - destruct HV as (-> & [_ Ht]%app_nil & Ho). rewrite app_nil_r.
    rewrite bool_decide_true in HP by done.
    destruct p as [ins|q ins| | | | |]; cbn [mq_parent_step to_send] in *; try done;
      by destruct (stream_not_nil ins).
Qed.

Lemma abandoned_stuck inputs c : abandoned inputs c → stuck mq_step c.
Proof. by intros [-> _] []. Qed.

Lemma mq_progress inputs c :
  mq_inv inputs c → (∃ a c', mq_step a c = Some c') ∨ finished inputs c ∨ abandoned inputs c.
Proof.
  intros HI. destruct (mq_step Parent c) as [c'|] eqn:EP; [left; by exists Parent, c'|].
  destruct (mq_step Child c) as [c'|] eqn:EC; [left; by exists Child, c'|].
  right. destruct HI as [->|[HC|HA]]; [done| |by right]. left. by apply common_stuck.
Qed.

(** ** Termination *)

Definition parent_left (p : mq_parent) : nat :=
  match p with
  | POpen inputs => 4 * S (length inputs) + 5
  | PSend _ inputs => 4 * S (length inputs) + 4
  | PClose => 4 | PUnlink => 3 | PJoin => 2 | PExit => 1 | PDone => 0
  end.

Definition child_left (l : mq_child) : nat :=
  match l with
  | COpen => 4 | CReceive _ => 3 | CTest _ _ => 5 | CPrint _ _ => 4 | CClose => 2 | CExit => 1
  | CDone | CUndefined => 0
  end.

Definition mq_work (c : mq_config) : nat :=
  parent_left (parentP c) + child_left (childP c) + 3 * length (concat (queues (sys c))).

Lemma concat_insert_length {A} (qs : list (list A)) q ms ms' :
  qs !! q = Some ms → length (concat (<[q:=ms']> qs)) + length ms = length (concat qs) + length ms'.
Proof.
  revert q. induction qs as [|x qs IH]; intros [|q] H; simplify_eq/=; rewrite !length_app; [lia|].
  specialize (IH q H). lia.
Qed.

Lemma mq_open_length g : length (concat (queues (mq_open g).1)) = length (concat (queues g)).
Proof. unfold mq_open. destruct (named g); simpl; [done|]. by rewrite concat_app, app_nil_r. Qed.

Lemma mq_send_length q m g g' :
  mq_send q m g = Some g' → length (concat (queues g')) = S (length (concat (queues g))).
Proof.
  unfold mq_send. destruct (queues g !! q) as [ms|] eqn:E; [|done]. simpl.
  case_bool_decide; intros; simplify_eq/=. pose proof (concat_insert_length _ _ _ (ms ++ [m]) E) as H'.
  rewrite length_app in H'. simpl in H'. lia.
Qed.

Lemma mq_receive_length q g g' m :
  mq_receive q g = Some (g', m) → length (concat (queues g)) = S (length (concat (queues g'))).
Proof.
  unfold mq_receive. destruct (queues g !! q) as [[|x ms]|] eqn:E; simpl; intros; simplify_eq/=.
  pose proof (concat_insert_length _ _ _ ms E). simpl in *. lia.
Qed.

Lemma mq_work_step a c c' : mq_step a c = Some c' → mq_work c' < mq_work c.
Proof.
  destruct c as [g p l]. unfold mq_work. destruct a; simpl.
  - destruct (mq_parent_step _ g p) as [[g' p']|] eqn:E; simpl; intros; simplify_eq/=.
    destruct p as [ins|q [|i ins]| | | | |]; cbn [mq_parent_step] in E.
    + pose proof (mq_open_length g). destruct (mq_open g). simplify_eq/=. lia.
    + destruct (mq_send _ _ _) eqn:Es; simplify_eq/=. apply mq_send_length in Es. lia.
    + destruct (mq_send _ _ _) eqn:Es; simplify_eq/=. apply mq_send_length in Es. lia.
    + simplify_eq/=. lia.
    + simplify_eq/=. lia.
    + case_match; simplify_eq/=. lia.
    + simplify_eq/=. lia.
    + done.
  - destruct (mq_child_step g l) as [[g' l']|] eqn:E; simpl; intros; simplify_eq/=.
    destruct l as [|q|q m|q m| | | |]; cbn [mq_child_step] in E.
    + pose proof (mq_open_length g). destruct (mq_open g). simplify_eq/=. lia.
    + destruct (mq_receive _ _) as [[g2 m]|] eqn:Er; simplify_eq/=. apply mq_receive_length in Er. lia.
    + simplify_eq/=. case_bool_decide; simpl; lia.
    + case_match; simplify_eq/=; lia.
    + simplify_eq/=. lia.
    + simplify_eq/=. lia.
    + done.
    + done.
Qed.

(** ** The late child *)

(** The parent alone fills the queue, as long as there is room. *)
Lemma parent_fills ms inputs :
  length ms + length inputs < mq_maxmsg →
  reach mq_step (MqConfig (System (Some 0) [ms] []) (PSend 0 inputs) COpen)
    (MqConfig (System (Some 0) [ms ++ stream inputs] []) PClose COpen).
Proof.
  revert ms. induction inputs as [|i inputs IH]; intros ms Hl; simpl in Hl.
  - eapply reach_step with (a := Parent); [constructor|].
    unfold mq_step. cbn. by rewrite bool_decide_true by lia.
  - eapply reach_trans.
    + eapply reach_step with (a := Parent); [constructor|].
      unfold mq_step. cbn. by rewrite bool_decide_true by lia.
    + change (stream (i :: inputs)) with ([Msg Default (fill i)] ++ stream inputs).
      rewrite (app_assoc ms). apply IH. rewrite length_app. simpl. lia.
Qed.

Lemma late_child inputs :
  length inputs < mq_maxmsg → ∃ c, reach mq_step (mq_init inputs) c ∧ abandoned inputs c.
Proof.
  intros Hl. eexists. split; [|by split].
  eapply reach_trans; [eapply reach_step with (a := Parent); [constructor|reflexivity]|].
  eapply reach_trans; [by apply parent_fills|].
  by eapply run_reach with (sched := [Parent; Parent; Child]).
Qed.

(** * Properties *)

(** C28: The message queue of mqueue.cpp.  For any lines shorter than the
    buffer and every interleaving: no schedule is longer than [4 n + 13] steps for
    [n] lines; at most ten messages wait in the queue the parent uses; and a state
    in which neither process can move is the end, with every line printed once, in
    order, and both processes gone, or it is the one in which the parent has
    removed the name before the child opened the queue, and the child waits on a
    queue of its own. *)
Theorem mq_delivers inputs c :
  Forall short inputs → reach mq_step (mq_init inputs) c →
  terminates_within mq_step (4 * length inputs + 13) (mq_init inputs) ∧
  (∀ ms, queues (sys c) !! 0 = Some ms → length ms ≤ mq_maxmsg) ∧
  ((∃ a c', mq_step a c = Some c') ∨ finished inputs c ∨ abandoned inputs c).
Proof.
  intros Hs Hr. pose proof (mq_reach _ _ Hs Hr) as HI. split_ands; [| |by apply mq_progress].
  - replace (4 * length inputs + 13) with (mq_work (mq_init inputs)) by (unfold mq_work; simpl; lia).
    apply (measure_terminates _ (λ _, True) mq_work); [done|]. intros. split; [done|]. by eapply mq_work_step.
  - intros ms Hms. destruct HI as [->|[(past & future & ms' & _ & Hq & Hl & _)|[-> Hl]]]; [done| |].
    + rewrite Hq in Hms. by simplify_eq/=.
    + simplify_eq/=. rewrite stream_length. lia.
Qed.

(** Two lines, delivered. *)
Definition mq_two_lines : list mq_process :=
  [Child] ++ replicate 6 Parent ++ replicate 10 Child ++ replicate 2 Parent.

Lemma mq_delivers_witness :
  ∃ c, run mq_step mq_two_lines (mq_init [[x61]; [x62; x63]]) = Some c ∧
    printed (sys c) = [Received 1028 [x61]; Received 1028 [x62; x63]; ChildExited; ParentExited] ∧
    terminates_within mq_step 21 (mq_init [[x61]; [x62; x63]]).
Proof.
  assert (∃ c, run mq_step mq_two_lines (mq_init [[x61]; [x62; x63]]) = Some c ∧
    printed (sys c) = [Received 1028 [x61]; Received 1028 [x62; x63]; ChildExited; ParentExited])
    as (c & Hc & Ho) by (eexists; split; [vm_compute; reflexivity|vm_compute; reflexivity]).
  exists c. split; [exact Hc|]. split; [exact Ho|].
  refine (proj1 (mq_delivers [[x61]; [x62; x63]] c _ (run_reach _ _ _ _ Hc))).
  repeat constructor; unfold short; pose proof buffer_size_more; simpl; lia.
Defined.

(** C29: When the program hangs.  A run of mqueue.cpp can end with the child
    still there exactly when the lines and the last message fit into the queue at
    once, that is for fewer than ten lines: only then can the parent reach
    [mq_unlink] before the child has opened the queue. *)
Theorem mq_hangs_iff inputs :
  Forall short inputs →
  ((∃ c, reach mq_step (mq_init inputs) c ∧ stuck mq_step c ∧ childP c ≠ CDone) ↔
   length inputs < mq_maxmsg).
Proof.
  intros Hs. split.
  - intros (c & Hr & Hstuck & Hc).
    destruct (mq_progress _ _ (mq_reach _ _ Hs Hr)) as [(a & c' & Ha)|[(_ & ? & _)|[_ ?]]]; [|done|done].
    by rewrite Hstuck in Ha.
  - intros (c & Hr & HA)%late_child. exists c. split_ands; [done|by eapply abandoned_stuck|]. by destruct HA as [-> _].
Qed.

Lemma mq_hangs_iff_witness :
  ∃ c, reach mq_step (mq_init [[x61]]) c ∧ stuck mq_step c ∧ childP c ≠ CDone.
Proof.
  apply (mq_hangs_iff [[x61]]); [|unfold mq_maxmsg; simpl; lia].
  repeat constructor; unfold short; pose proof buffer_size_more; simpl; lia.
Defined.
