(* ===== verification/Pipes.v ===== *)
(** ipc/pipe_intro.cpp, ipc/dup.cpp and ipc/mkfifo_intro.cpp: a parent process
    writes the lines of its input to a pipe, a child process reads them.

    The three programs have the same loops and differ in how the two ends come
    about: an inherited pipe, an inherited pipe duplicated onto the standard
    input, or a named pipe that both processes open.  The pipe counts its open
    ends: the reader sees the end of the stream when no write end is left, and a
    write without a reader kills the writer.  A write that does not fit proceeds in
    parts, except that one of at most [PIPE_BUF] bytes is atomic.

    All bytes arrive, in order, and both processes end, unless a read fills the
    whole buffer, which leaves no room for the NUL that the output relies on.  The
    boundaries of the lines do not survive. *)

From S2P Require Import Prelude Machine.
From stdpp Require Import options.

#[local] Arguments replicate : simpl never.

(** * The machine *)

Inductive program := PipeIntro | Dup | Mkfifo.

Inductive pipe_end := ReadEnd | WriteEnd.

(** The calls on descriptors before the loops.  [open] of a named pipe counts as an
    open end when it is entered, and is left when the other end has been opened. *)
Inductive fd_call := Close (e : pipe_end) | Dup2 | Enter (e : pipe_end) | Leave (e : pipe_end).

#[export] Instance pipe_end_eq_dec : EqDecision pipe_end.
Proof. solve_decision. Defined.

#[export] Instance fd_call_eq_dec : EqDecision fd_call.
Proof. solve_decision. Defined.

Inductive pipe_line :=
  | Wrote (bytes : nat)
  | Read (bytes : nat) (text : list byte)
  | ChildExited
  | ParentExited.

(** The bytes in the pipe, its open ends, whether each end has been opened at all,
    and the output of both processes. *)
Record pipe := Pipe {
  bytes : list byte; readers : nat; writers : nat; was_read : bool; was_written : bool;
  output : list pipe_line }.

(** The parent, with the lines to come: before the loop, at [getline], at the
    [write] of [n] bytes of which [rest] is left, at the print; at [close], [wait],
    its last line, its end; killed by SIGPIPE. *)
Inductive pipe_parent :=
  | PSetup (calls : list fd_call) (inputs : list (list byte))
  | PGet (inputs : list (list byte))
  | PWrite (n : nat) (rest : list byte) (more : list (list byte))
  | PPrint (n : nat) (more : list (list byte))
  | PClose
  | PJoin
  | PExit
  | PDone
  | PKilled.

Inductive pipe_child :=
  | CSetup (calls : list fd_call)
  | CRead
  | CPrint (chunk : list byte)
  | CClose
  | CExit
  | CDone
  | CUndefined.

#[export] Instance pipe_child_eq_dec : EqDecision pipe_child.
Proof. solve_decision. Defined.

(** [sizeof(buf)]. *)
Definition buf_size : nat := 1024.

(** The ends at the fork. *)
Definition pipe_open (prog : program) : pipe :=
  match prog with
  | PipeIntro | Dup => Pipe [] 2 2 true true []
  | Mkfifo => Pipe [] 0 0 false false []
  end.

Definition child_calls (prog : program) : list fd_call :=
  match prog with
  | PipeIntro => [Close WriteEnd]
  | Dup => [Close WriteEnd; Dup2]
  | Mkfifo => [Enter ReadEnd; Leave ReadEnd]
  end.

Definition parent_calls (prog : program) : list fd_call :=
  match prog with
  | PipeIntro | Dup => [Close ReadEnd]
  | Mkfifo => [Enter WriteEnd; Leave WriteEnd]
  end.

Definition fd_step (k : fd_call) (g : pipe) : option pipe :=
  match k with
  | Close ReadEnd =>
      Some (Pipe (bytes g) (pred (readers g)) (writers g) (was_read g) (was_written g) (output g))
  | Close WriteEnd =>
      Some (Pipe (bytes g) (readers g) (pred (writers g)) (was_read g) (was_written g) (output g))
  | Dup2 => Some (Pipe (bytes g) (S (readers g)) (writers g) (was_read g) (was_written g) (output g))
  | Enter ReadEnd => Some (Pipe (bytes g) (S (readers g)) (writers g) true (was_written g) (output g))
  | Enter WriteEnd => Some (Pipe (bytes g) (readers g) (S (writers g)) (was_read g) true (output g))
  | Leave ReadEnd => if was_written g then Some g else None
  | Leave WriteEnd => if was_read g then Some g else None
  end.

Definition say (l : pipe_line) (g : pipe) : pipe :=
  Pipe (bytes g) (readers g) (writers g) (was_read g) (was_written g) (output g ++ [l]).

Definition set_bytes (bs : list byte) (g : pipe) : pipe :=
  Pipe bs (readers g) (writers g) (was_read g) (was_written g) (output g).

Section pipe.
Context (capacity PIPE_BUF : nat).

(** How many bytes of a [write] of [n] bytes go into the pipe next. *)
Definition portion (n k : nat) : nat := if bool_decide (n ≤ PIPE_BUF) then n else k.

Definition pipe_parent_step (k : nat) (child_done : bool) (g : pipe) (p : pipe_parent) :
    option (pipe * pipe_parent) :=
  match p with
  | PSetup (call :: calls) inputs => g' ← fd_step call g; Some (g', PSetup calls inputs)
  | PSetup [] inputs => Some (g, PGet inputs)
  | PGet (input :: more) => Some (g, PWrite (length input) input more)
  | PGet [] => Some (g, PClose)
  | PWrite n [] more => Some (g, PPrint n more)
  | PWrite n rest more =>
      if bool_decide (readers g = 0) then Some (g, PKilled) else
      let m := portion n k in
      if bool_decide (0 < m ∧ m ≤ length rest ∧ m ≤ capacity - length (bytes g))
      then Some (set_bytes (bytes g ++ take m rest) g, PWrite n (drop m rest) more) else None
  | PPrint n more => Some (say (Wrote n) g, PGet more)
  | PClose => g' ← fd_step (Close WriteEnd) g; Some (g', PJoin)
  | PJoin => if child_done then Some (g, PExit) else None
  | PExit => Some (say ParentExited g, PDone)
  | PDone | PKilled => None
  end.

Definition pipe_child_step (g : pipe) (l : pipe_child) : option (pipe * pipe_child) :=
  match l with
  | CSetup (call :: calls) => g' ← fd_step call g; Some (g', CSetup calls)
  | CSetup [] => Some (g, CRead)
  | CRead =>
      match bytes g with
      | [] => if bool_decide (writers g = 0) then Some (g, CClose) else None
      | bs => Some (set_bytes (drop buf_size bs) g, CPrint (take buf_size bs))
      end
  | CPrint chunk =>
      match c_string (chunk ++ replicate (buf_size - length chunk) x00) with
      | Some text => Some (say (Read (length chunk) text) g, CRead)
      | None => Some (g, CUndefined)
      end
  | CClose => g' ← fd_step (Close ReadEnd) g; Some (g', CExit)
  | CExit => Some (say ChildExited g, CDone)
  | CDone | CUndefined => None
  end.

Record pipe_config := PipeConfig { mem : pipe; parentP : pipe_parent; childP : pipe_child }.

(** A step of the parent says how much of a long write goes through. *)
Inductive pipe_process := Parent (k : nat) | Child.

Definition pipe_step (a : pipe_process) (c : pipe_config) : option pipe_config :=
  match a with
  | Parent k =>
      '(g, p) ← pipe_parent_step k (bool_decide (childP c = CDone)) (mem c) (parentP c);
      Some (PipeConfig g p (childP c))
  | Child => '(g, l) ← pipe_child_step (mem c) (childP c); Some (PipeConfig g (parentP c) l)
  end.

(** After the fork. *)
Definition pipe_init (prog : program) (inputs : list (list byte)) : pipe_config :=
  PipeConfig (pipe_open prog) (PSetup (parent_calls prog) inputs) (CSetup (child_calls prog)).

(** Up to the fork, with the names in the file system: [mkfifo] fails when the
    name exists, and no program removes it. *)
Definition pipe_main (prog : program) (fifo_exists : bool) (inputs : list (list byte)) :
    option pipe_config * bool :=
  match prog with
  | PipeIntro | Dup => (Some (pipe_init prog inputs), fifo_exists)
  | Mkfifo => if fifo_exists then (None, true) else (Some (pipe_init prog inputs), true)
  end.

(** * The invariant *)

(** What the lines of the output say. *)
Definition texts (out : list pipe_line) : list (list byte) :=
  omap (λ l, match l with Read _ t => Some t | _ => None end) out.

Definition wrotes (out : list pipe_line) : list nat :=
  omap (λ l, match l with Wrote n => Some n | _ => None end) out.

Definition exits (out : list pipe_line) : list pipe_line :=
  omap (λ l, match l with ChildExited | ParentExited => Some l | _ => None end) out.

(** A read gives at least one byte and leaves room for the NUL. *)
Definition sound_line (l : pipe_line) : Prop :=
  match l with Read n t => n = length t ∧ 0 < n < buf_size | _ => True end.

(** The bytes of the parent that are not yet in the pipe, and the writes it has
    not yet announced. *)
Definition unsent (p : pipe_parent) : list byte :=
  match p with
  | PSetup _ inputs | PGet inputs => concat inputs
  | PWrite _ rest more => rest ++ concat more
  | PPrint _ more => concat more
  | _ => []
  end.

Definition pending (p : pipe_parent) : list nat :=
  match p with
  | PSetup _ inputs | PGet inputs => length <$> inputs
  | PWrite n _ more | PPrint n more => n :: (length <$> more)
  | _ => []
  end.

Definition in_hand (l : pipe_child) : list byte := match l with CPrint chunk => chunk | _ => [] end.

(** The ends each process holds. *)
Definition parent_writes (p : pipe_parent) : bool :=
  match p with
  | PSetup calls _ => negb (bool_decide (Enter WriteEnd ∈ calls))
  | PGet _ | PWrite _ _ _ | PPrint _ _ | PClose => true
  | _ => false
  end.

Definition child_writes (l : pipe_child) : bool :=
  match l with CSetup calls => bool_decide (Close WriteEnd ∈ calls) | _ => false end.

Definition parent_reads (p : pipe_parent) : bool :=
  match p with PSetup calls _ => bool_decide (Close ReadEnd ∈ calls) | _ => false end.

Definition child_reads (l : pipe_child) : bool :=
  match l with
  | CSetup calls => negb (bool_decide (Enter ReadEnd ∈ calls))
  | CRead | CPrint _ | CClose => true
  | _ => false
  end.

(** A process has still to open its end; it has still to leave [open]. *)
Definition parent_opens (p : pipe_parent) : bool :=
  match p with PSetup calls _ => bool_decide (Enter WriteEnd ∈ calls) | _ => false end.

Definition child_opens (l : pipe_child) : bool :=
  match l with CSetup calls => bool_decide (Enter ReadEnd ∈ calls) | _ => false end.

Definition child_opening (l : pipe_child) : bool :=
  match l with CSetup calls => bool_decide (Leave ReadEnd ∈ calls) | _ => false end.

Definition parent_opening (p : pipe_parent) : bool :=
  match p with PSetup calls _ => bool_decide (Leave WriteEnd ∈ calls) | _ => false end.

Definition parent_phase (prog : program) (p : pipe_parent) (l : pipe_child) : Prop :=
  match p with
  | PSetup calls _ => ∃ done_, parent_calls prog = done_ ++ calls
  | PWrite n rest _ => n ≤ PIPE_BUF → rest = [] ∨ length rest = n
  | PExit | PDone => l = CDone
  | PKilled => False
  | _ => True
  end.

Definition child_phase (prog : program) (g : pipe) (p : pipe_parent) (l : pipe_child) : Prop :=
  match l with
  | CSetup calls => ∃ done_, child_calls prog = done_ ++ calls
  | CRead => True
  | CPrint chunk => 0 < length chunk ≤ buf_size
  | CClose | CExit | CDone => bytes g = [] ∧ writers g = 0 ∧ parent_opens p = false
  | CUndefined => False
  end.

Definition exits_of (p : pipe_parent) (l : pipe_child) : list pipe_line :=
  match l with
  | CDone => ChildExited :: match p with PDone => [ParentExited] | _ => [] end
  | _ => []
  end.

Record pipe_good (prog : program) (inputs : list (list byte)) (c : pipe_config) : Prop := {
  good_stream :
    concat inputs = concat (texts (output (mem c))) ++ in_hand (childP c) ++ bytes (mem c) ++ unsent (parentP c);
  good_wrotes : length <$> inputs = wrotes (output (mem c)) ++ pending (parentP c);
  good_lines : Forall sound_line (output (mem c));
  good_exits : exits (output (mem c)) = exits_of (parentP c) (childP c);
  good_writers : writers (mem c) = Nat.b2n (parent_writes (parentP c)) + Nat.b2n (child_writes (childP c));
  good_readers : Nat.b2n (parent_reads (parentP c)) + Nat.b2n (child_reads (childP c)) ≤ readers (mem c);
  good_was_written : was_written (mem c) = negb (parent_opens (parentP c));
  good_was_read : was_read (mem c) = negb (child_opens (childP c));
  good_opened : child_opening (childP c) = false → was_written (mem c) = true;
  good_peer : parent_opening (parentP c) = false → was_read (mem c) = true;
  good_parent : parent_phase prog (parentP c) (childP c);
  good_child : child_phase prog (mem c) (parentP c) (childP c) }.

(** The child has read a full buffer, which needs that many bytes of input. *)
Definition overread (inputs : list (list byte)) (c : pipe_config) : Prop :=
  childP c = CUndefined ∧ buf_size ≤ length (concat inputs).

Definition pipe_inv prog inputs c : Prop := pipe_good prog inputs c ∨ overread inputs c.

(** Lines without NUL. *)
Definition plain (bs : list byte) : Prop := Forall (λ b, b ≠ x00) bs.

Lemma c_string_plain bs : plain bs → c_string bs = None.
Proof. induction 1 as [|b bs Hb _ IH]; simpl; [done|]. rewrite IH. by destruct b. Qed.

Lemma buf_size_positive : 0 < buf_size.
Proof. unfold buf_size. lia. Qed.

#[local] Opaque buf_size.

Lemma c_string_chunk chunk :
  plain chunk → length chunk ≤ buf_size →
  c_string (chunk ++ replicate (buf_size - length chunk) x00) =
  if bool_decide (length chunk < buf_size) then Some chunk else None.
Proof.
  intros Hp Hl. case_bool_decide.
  - destruct (buf_size - length chunk) as [|n] eqn:E; [lia|]. rewrite replicate_S. by apply c_string_prefix.
  - replace (buf_size - length chunk) with 0 by lia. change (replicate 0 x00) with (@nil byte).
    rewrite app_nil_r. by apply c_string_plain.
Qed.

Lemma texts_snoc out l : texts (out ++ [l]) = texts out ++ match l with Read _ t => [t] | _ => [] end.
Proof. unfold texts. rewrite omap_app. by destruct l. Qed.

Lemma wrotes_snoc out l : wrotes (out ++ [l]) = wrotes out ++ match l with Wrote n => [n] | _ => [] end.
Proof. unfold wrotes. rewrite omap_app. by destruct l. Qed.

Lemma exits_snoc out l :
  exits (out ++ [l]) = exits out ++ match l with ChildExited | ParentExited => [l] | _ => [] end.
Proof. unfold exits. rewrite omap_app. by destruct l. Qed.

Lemma exits_parent p p' l : p ≠ PDone → p' ≠ PDone → exits_of p l = exits_of p' l.
Proof. intros. destruct l, p, p'; done. Qed.

(** ** Preservation *)

(** Each field of the invariant from the same field before. *)
Ltac same_field HG :=
  first [ exact (good_stream _ _ _ HG) | exact (good_wrotes _ _ _ HG) | exact (good_lines _ _ _ HG)
        | exact (good_exits _ _ _ HG) | exact (good_writers _ _ _ HG) | exact (good_readers _ _ _ HG)
        | exact (good_was_written _ _ _ HG) | exact (good_was_read _ _ _ HG)
        | exact (good_opened _ _ _ HG) | exact (good_peer _ _ _ HG)
        | exact (good_parent _ _ _ HG) | exact (good_child _ _ _ HG) | done ].

Ltac keep HG :=
  constructor; cbn [mem parentP childP bytes readers writers was_read was_written output
                    say set_bytes in_hand unsent pending];
  try same_field HG.

(** Compute the memberships of concrete lists of calls. *)
Ltac decide_in :=
  repeat match goal with |- context [bool_decide (?x ∈ ?y)] =>
    let b := eval vm_compute in (bool_decide (x ∈ y)) in change (bool_decide (x ∈ y)) with b end.

Lemma parent_phase_child prog p l l' : l ≠ CDone → parent_phase prog p l → parent_phase prog p l'.
Proof. by destruct p. Qed.

(** The parent's calls before the loop. *)
Lemma parent_setup prog inputs g call calls ins l g' :
  pipe_good prog inputs (PipeConfig g (PSetup (call :: calls) ins) l) → fd_step call g = Some g' →
  pipe_good prog inputs (PipeConfig g' (PSetup calls ins) l).
Proof.
  intros HG Hs. pose proof (good_parent _ _ _ HG) as [done_ E].
  pose proof (good_writers _ _ _ HG) as Hw. pose proof (good_readers _ _ _ HG) as Hr.
  pose proof (good_child _ _ _ HG) as Hc.
  destruct prog, done_ as [|? [|? [|? ?]]]; simplify_eq/=.
  all: try (case_match; simplify_eq/=).
  all: keep HG; cbn in *; try lia.
  all: try (by exists []); try (eexists [_]; reflexivity); try (eexists [_; _]; reflexivity).
  all: try (rewrite Hw in *; destruct l; cbn in *; naive_solver lia).
  all: decide_in; simpl; lia.
Qed.

Lemma fd_step_output k g g' : fd_step k g = Some g' → output g' = output g ∧ bytes g' = bytes g.
Proof. destruct k as [[]| |[]|[]]; simpl; intros; try case_match; by simplify_eq. Qed.

Lemma child_ended_parent prog inputs g p l :
  pipe_good prog inputs (PipeConfig g p l) → parent_writes p = true →
  match l with CClose | CExit | CDone => False | _ => True end.
Proof.
  intros HG Hp. pose proof (good_writers _ _ _ HG) as Hw. pose proof (good_child _ _ _ HG) as Hc.
  cbn in Hw, Hc. rewrite Hp in Hw. destruct l; try done; destruct Hc as (_ & Hc & _); rewrite Hc in Hw; done.
Qed.

(** A write, of the part [m]. *)
Lemma parent_write prog inputs g n rest more l m :
  pipe_good prog inputs (PipeConfig g (PWrite n rest more) l) → 0 < m ≤ length rest →
  (n ≤ PIPE_BUF → m = n) →
  pipe_good prog inputs
    (PipeConfig (set_bytes (bytes g ++ take m rest) g) (PWrite n (drop m rest) more) l).
Proof.
  intros HG Hm Hn. pose proof (child_ended_parent _ _ _ _ _ HG eq_refl) as Hl.
  pose proof (good_parent _ _ _ HG) as Hp. cbn in Hp. keep HG.
  - etrans; [apply (good_stream _ _ _ HG)|]. cbn. by rewrite <- (app_assoc (bytes g)), (app_assoc (take m rest)), take_drop.
  - intros Hb. left. apply drop_ge. specialize (Hn Hb). destruct (Hp Hb) as [->|]; [simpl in *|]; lia.
  - pose proof (good_child _ _ _ HG) as Hc. by destruct l.
Qed.

(** While the parent writes somebody reads. *)
Lemma reader_there prog inputs g p l :
  pipe_good prog inputs (PipeConfig g p l) → parent_writes p = true → parent_opening p = false →
  0 < readers g.
Proof.
  intros HG Hp Ho. pose proof (child_ended_parent _ _ _ _ _ HG Hp) as Hl.
  pose proof (good_readers _ _ _ HG) as Hr. pose proof (good_was_read _ _ _ HG) as Hw.
  pose proof (good_child _ _ _ HG) as Hc. rewrite (good_peer _ _ _ HG Ho) in Hw. cbn in *.
  destruct l; cbn in *; try done; [|lia..]. case_bool_decide; simpl in *; [done|lia].
Qed.

(** A step of the parent that only changes its place. *)
Lemma parent_moves prog inputs g p p' l :
  pipe_good prog inputs (PipeConfig g p l) → parent_writes p = true → parent_writes p' = true →
  unsent p' = unsent p → pending p' = pending p → parent_reads p' = parent_reads p →
  parent_opens p = false → parent_opens p' = false → parent_opening p = false →
  parent_phase prog p' l →
  pipe_good prog inputs (PipeConfig g p' l).
Proof.
  intros HG Hp Hp' Hu Hpe Hr Ho Ho' Hop Hph. pose proof (child_ended_parent _ _ _ _ _ HG Hp) as Hl.
  constructor; cbn; rewrite ?Hu, ?Hpe, ?Hr, ?Hp', ?Ho'; try same_field HG.
  - etrans; [apply (good_exits _ _ _ HG)|]. by destruct l.
  - rewrite (good_writers _ _ _ HG : writers g = _). cbn. by rewrite Hp.
  - etrans; [apply (good_was_written _ _ _ HG)|]. cbn. by rewrite Ho.
  - intros _. by apply (good_peer _ _ _ HG).
  - pose proof (good_child _ _ _ HG) as Hc. by destruct l.
Qed.

Lemma pipe_parent_preserves prog inputs k c c' :
  pipe_good prog inputs c → pipe_step (Parent k) c = Some c' → pipe_good prog inputs c'.
Proof.
  intros HG Hs. destruct c as [g p l]. unfold pipe_step in Hs. cbn [mem parentP childP] in Hs.
  destruct (pipe_parent_step _ _ g p) as [[g' p']|] eqn:E; [|done]. cbn in Hs. simplify_eq.
  destruct p as [[|call calls] ins|[|i more]|n [|b rest] more|n more| | | | |]; cbn [pipe_parent_step] in E.
  - simplify_eq. by apply (parent_moves _ _ _ _ _ _ HG).
  - destruct (fd_step call g) as [g2|] eqn:Ek; simplify_eq/=. by eapply parent_setup.
  - simplify_eq. by apply (parent_moves _ _ _ _ _ _ HG).
  - simplify_eq. apply (parent_moves _ _ _ _ _ _ HG); try done. cbn. auto.
  - simplify_eq. by apply (parent_moves _ _ _ _ _ _ HG).
  - pose proof (reader_there _ _ _ _ _ HG eq_refl eq_refl).
    rewrite bool_decide_false in E by lia.
    case_bool_decide as Hm; simplify_eq. apply parent_write; [done|lia|].
    intros. unfold portion in *. by rewrite bool_decide_true.
  - simplify_eq. pose proof (child_ended_parent _ _ _ _ _ HG eq_refl) as Hl. keep HG.
    + rewrite texts_snoc, app_nil_r. apply (good_stream _ _ _ HG).
    + rewrite wrotes_snoc, <- app_assoc. apply (good_wrotes _ _ _ HG).
    + apply Forall_app. split; [same_field HG|by repeat constructor].
    + rewrite exits_snoc, app_nil_r. etrans; [apply (good_exits _ _ _ HG)|]. by destruct l.
  - cbn in E. simplify_eq. pose proof (child_ended_parent _ _ _ _ _ HG eq_refl) as Hl. keep HG.
    + by rewrite (good_writers _ _ _ HG : writers g = _).
    + pose proof (good_child _ _ _ HG) as Hc. by destruct l.
  - case_bool_decide; simplify_eq. keep HG.
  - simplify_eq. pose proof (good_parent _ _ _ HG) as Hd. cbn in Hd. subst l. keep HG.
    + rewrite texts_snoc, app_nil_r. apply (good_stream _ _ _ HG).
    + rewrite wrotes_snoc. cbn. rewrite app_nil_r. apply (good_wrotes _ _ _ HG).
    + apply Forall_app. split; [same_field HG|by repeat constructor].
    + rewrite exits_snoc. by rewrite (good_exits _ _ _ HG : exits (output g) = _).
  - done.
  - done.
Qed.

(** The child's calls before the loop. *)
Lemma child_setup prog inputs g call calls p g' :
  pipe_good prog inputs (PipeConfig g p (CSetup (call :: calls))) → fd_step call g = Some g' →
  pipe_good prog inputs (PipeConfig g' p (CSetup calls)).
Proof.
  intros HG Hs. pose proof (good_child _ _ _ HG) as [done_ E].
  pose proof (good_writers _ _ _ HG) as Hw. pose proof (good_readers _ _ _ HG) as Hr.
  pose proof (good_parent _ _ _ HG) as Hc.
  destruct prog, done_ as [|? [|? [|? ?]]]; simplify_eq/=.
  all: try (case_match; simplify_eq/=).
  all: keep HG; cbn in *; try lia.
  all: try (by exists []); try (eexists [_]; reflexivity); try (eexists [_; _]; reflexivity).
  all: try (by apply (parent_phase_child _ _ _ _ (ltac:(done) : CSetup _ ≠ CDone) Hc)).
  all: decide_in; simpl; lia.
Qed.

(** A read takes what is there, up to the size of the buffer. *)
Lemma child_read prog inputs g p :
  pipe_good prog inputs (PipeConfig g p CRead) → bytes g ≠ [] →
  pipe_good prog inputs
    (PipeConfig (set_bytes (drop buf_size (bytes g)) g) p (CPrint (take buf_size (bytes g)))).
Proof.
  intros HG Hb. keep HG.
  - rewrite (app_assoc (take _ _)), take_drop. exact (good_stream _ _ _ HG).
  - by apply (parent_phase_child _ _ CRead), (good_parent _ _ _ HG).
  - cbn. rewrite length_take. pose proof buf_size_positive. destruct (bytes g); [done|]. simpl. lia.
Qed.

Lemma child_print prog inputs g p chunk c' :
  plain (concat inputs) → pipe_good prog inputs (PipeConfig g p (CPrint chunk)) →
  pipe_step Child (PipeConfig g p (CPrint chunk)) = Some c' → pipe_inv prog inputs c'.
Proof.
  intros Hplain HG Hs. pose proof (good_child _ _ _ HG) as Hl. cbn in Hl.
  pose proof (good_stream _ _ _ HG) as Hst. cbn in Hst.
  rewrite Hst in Hplain. apply Forall_app in Hplain as [_ [Hp _]%Forall_app].
  unfold pipe_step in Hs. cbn [pipe_child_step mem parentP childP] in Hs.
  rewrite c_string_chunk in Hs by (done || lia). case_bool_decide; simplify_eq/=.
  - left. keep HG.
    + rewrite texts_snoc, concat_app. cbn. rewrite app_nil_r, <- app_assoc. done.
    + rewrite wrotes_snoc, app_nil_r. exact (good_wrotes _ _ _ HG).
    + apply Forall_app. split; [same_field HG|]. repeat constructor; lia.
    + rewrite exits_snoc, app_nil_r. exact (good_exits _ _ _ HG).
    + by apply (parent_phase_child _ _ (CPrint chunk)), (good_parent _ _ _ HG).
  - right. split; [done|]. rewrite Hst, !length_app. lia.
Qed.

Lemma pipe_child_preserves prog inputs c c' :
  plain (concat inputs) → pipe_good prog inputs c → pipe_step Child c = Some c' → pipe_inv prog inputs c'.
Proof.
  intros Hplain HG Hs. destruct c as [g p l].
  destruct l as [[|call calls]| |chunk| | | |]; [..|by eapply child_print| | | |];
    unfold pipe_step in Hs; cbn [pipe_child_step mem parentP childP] in Hs; try done; try left.
  - simplify_eq/=. keep HG. by apply (parent_phase_child _ _ (CSetup [])), (good_parent _ _ _ HG).
  - destruct (fd_step call g) as [g2|] eqn:Ek; simplify_eq/=. by eapply child_setup.
  - destruct (bytes g) as [|b bs] eqn:Eb.
    + case_bool_decide as E0; simplify_eq/=.
      pose proof (good_opened _ _ _ HG eq_refl) as Ho. rewrite (good_was_written _ _ _ HG) in Ho. cbn in Ho.
      keep HG; [by apply (parent_phase_child _ _ CRead), (good_parent _ _ _ HG)|].
      cbn. by destruct (parent_opens p).
    + simplify_eq/=. rewrite <- Eb. apply child_read; [done|by rewrite Eb].
  - cbn in Hs. simplify_eq/=. pose proof (good_readers _ _ _ HG) as Hr. cbn in Hr. keep HG; [cbn; lia|].
    by apply (parent_phase_child _ _ CClose), (good_parent _ _ _ HG).
  - simplify_eq/=. keep HG.
    + rewrite texts_snoc, app_nil_r. exact (good_stream _ _ _ HG).
    + rewrite wrotes_snoc, app_nil_r. exact (good_wrotes _ _ _ HG).
    + apply Forall_app. split; [same_field HG|by repeat constructor].
    + rewrite exits_snoc, (good_exits _ _ _ HG : exits (output g) = _). cbn.
      pose proof (good_parent _ _ _ HG) as Hp. by destruct p.
    + by apply (parent_phase_child _ _ CExit), (good_parent _ _ _ HG).
Qed.

Lemma pipe_reach prog inputs c :
  plain (concat inputs) → reach pipe_step (pipe_init prog inputs) c → pipe_inv prog inputs c.
Proof.
  intros Hp. apply reach_inv.
  - left. constructor; destruct prog; cbn; decide_in; simpl; try done; try lia; by exists [].
  - intros a c1 c2 [HG|[Hu Hl]] Hs.
    + destruct a; [left; by eapply pipe_parent_preserves|by eapply pipe_child_preserves].
    + right. split; [|done]. destruct c1 as [g p l], a; cbn in *; subst; [|done].
      by destruct (pipe_parent_step _ _ _ _) as [[? ?]|]; simplify_eq/=.
Qed.

(** ** Termination *)

Definition parent_left (p : pipe_parent) : nat :=
  match p with
  | PSetup calls inputs => 3 * length inputs + 5 + length calls
  | PGet inputs => 3 * length inputs + 4
  | PWrite _ _ more => 3 * length more + 6
  | PPrint _ more => 3 * length more + 5
  | PClose => 3 | PJoin => 2 | PExit => 1 | PDone | PKilled => 0
  end.

Definition child_left (l : pipe_child) : nat :=
  match l with
  | CSetup calls => 4 + length calls
  | CRead => 3 | CPrint _ => 4 | CClose => 2 | CExit => 1 | CDone | CUndefined => 0
  end.

Definition pipe_work (c : pipe_config) : nat :=
  parent_left (parentP c) + child_left (childP c) +
  4 * length (unsent (parentP c)) + 3 * length (bytes (mem c)).

Lemma fd_step_bytes k g g' : fd_step k g = Some g' → bytes g' = bytes g.
Proof. destruct k as [[]| |[]|[]]; simpl; intros; try case_match; by simplify_eq. Qed.

Lemma pipe_work_step a c c' : pipe_step a c = Some c' → pipe_work c' < pipe_work c.
Proof.
  destruct c as [g p l]. unfold pipe_work, pipe_step. destruct a as [k|]; cbn [mem parentP childP].
  - destruct (pipe_parent_step k _ g p) as [[g' p']|] eqn:E; simpl; intros; simplify_eq/=.
    destruct p as [[|call calls] ins|[|i more]|n [|b rest] more|n more| | | | |]; cbn [pipe_parent_step] in E.
    all: try (case_bool_decide; [|try done]).
    all: try (case_bool_decide; [|try done]).
    all: simplify_eq/=; rewrite ?length_app; try lia.
    + destruct (fd_step call g) eqn:Ek; simplify_eq/=. rewrite (fd_step_bytes _ _ _ Ek). lia.
    + pose proof (length_take_le (b :: rest) (portion n k)). pose proof (length_drop (b :: rest) (portion n k)).
      simpl in *. lia.
  - destruct (pipe_child_step g l) as [[g' l']|] eqn:E; simpl; intros; simplify_eq/=.
    destruct l as [[|call calls]| |chunk| | | |]; cbn [pipe_child_step] in E; try done.
    + simplify_eq/=. lia.
    + destruct (fd_step call g) eqn:Ek; simplify_eq/=. rewrite (fd_step_bytes _ _ _ Ek). lia.
    + pose proof buf_size_positive. destruct (bytes g) as [|b bs] eqn:Eb.
      * case_bool_decide; simplify_eq/=. rewrite Eb. simpl. lia.
      * simplify_eq. cbn [set_bytes bytes]. rewrite length_drop. simpl. lia.
    + case_match; simplify_eq/=; lia.
    + simplify_eq/=. lia.
    + simplify_eq/=. lia.
Qed.

(** ** Progress *)

(** Both processes have ended, all bytes have been printed in order in parts that
    fit the buffer, and every line has been announced with its length. *)
Definition pipe_finished (inputs : list (list byte)) (c : pipe_config) : Prop :=
  parentP c = PDone ∧ childP c = CDone ∧
  concat (texts (output (mem c))) = concat inputs ∧
  wrotes (output (mem c)) = length <$> inputs ∧
  exits (output (mem c)) = [ChildExited; ParentExited] ∧
  Forall sound_line (output (mem c)).

Context (room : 0 < PIPE_BUF ≤ capacity).

Lemma parent_step_able k g p l :
  is_Some (pipe_parent_step k (bool_decide (l = CDone)) g p) →
  ∃ a c', pipe_step a (PipeConfig g p l) = Some c'.
Proof.
  intros [[g' p'] E]. exists (Parent k). unfold pipe_step. cbn [mem parentP childP]. rewrite E. cbn. eauto.
Qed.

Lemma child_step_able g p l :
  is_Some (pipe_child_step g l) → ∃ a c', pipe_step a (PipeConfig g p l) = Some c'.
Proof.
  intros [[g' l'] E]. exists Child. unfold pipe_step. cbn [mem parentP childP]. rewrite E. cbn. eauto.
Qed.

(** With the pipe empty and read, a parent that holds the write end can go on. *)
Lemma parent_goes_on prog inputs g p l :
  pipe_good prog inputs (PipeConfig g p l) → parent_writes p = true → bytes g = [] → was_read g = true →
  ∃ a c', pipe_step a (PipeConfig g p l) = Some c'.
Proof using room.
  intros HG Hw Hb Hr. apply (parent_step_able 1). pose proof (good_parent _ _ _ HG) as Hp. cbn in Hp.
  destruct p as [[|[[]| |[]|[]] calls] ins|[|i more]|n [|b rest] more|n more| | | | |]; try done;
    cbn [pipe_parent_step fd_step]; rewrite ?Hr; try done; eauto.
  - destruct Hp as [done_ E]. by destruct prog, done_ as [|? [|? [|? ?]]].
  - case_bool_decide; [eauto|]. unfold portion.
    rewrite (bool_decide_true (_ ∧ _)); [eauto|]. rewrite Hb. cbn [length].
    case_bool_decide as Hn; [destruct (Hp Hn) as [|<-]|]; simpl in *; [done|lia..].
Qed.

Lemma pipe_progress prog inputs c :
  pipe_good prog inputs c → (∃ a c', pipe_step a c = Some c') ∨ pipe_finished inputs c.
Proof using room.
  intros HG. destruct c as [g p l]. pose proof (good_child _ _ _ HG) as Hc. pose proof (good_parent _ _ _ HG) as Hp.
  pose proof (good_writers _ _ _ HG) as Hw. pose proof (good_was_written _ _ _ HG) as Hww.
  cbn in Hc, Hp, Hw, Hww. destruct l as [[|call calls]| |chunk| | | |].
  - left. by apply child_step_able; eexists.
  - left. destruct (fd_step call g) as [g'|] eqn:E.
    + apply child_step_able. cbn. rewrite E. by eexists.
    + destruct call as [[]| |[]|[]]; try done; cbn in E.
      * destruct (was_written g); [done|]. apply (parent_step_able 0).
        destruct p as [[|[[]| |[]|[]] ks] ins| | | | | | | |]; try done; try by eexists.
        all: destruct Hp as [done_ Ed]; destruct prog, done_ as [|? [|? [|? ?]]]; simplify_eq/=; try done; by vm_compute in Hww.
      * destruct Hc as [done_ Ed]. by destruct prog, done_ as [|? [|? [|? ?]]]; simplify_eq.
  - left. destruct (bytes g) as [|b bs] eqn:Eb; [|apply child_step_able; cbn; rewrite Eb; by eexists].
    destruct (decide (writers g = 0)) as [E0|E0].
    + apply child_step_able. cbn. rewrite Eb, E0. by eexists.
    + cbn in Hw. eapply (parent_goes_on _ _ _ _ _ HG); [by destruct (parent_writes p)|done|].
      exact (good_was_read _ _ _ HG).
  - left. apply child_step_able. cbn. case_match; by eexists.
  - left. by apply child_step_able; eexists.
  - left. by apply child_step_able; eexists.
  - destruct Hc as (Hb & Hw0 & Ho). rewrite Hw0 in Hw.
    destruct p as [calls ins| | | | | | | |]; try done.
    + cbn in *. by rewrite Ho in Hw.
    + left. apply (parent_step_able 0). by eexists.
    + left. apply (parent_step_able 0). by eexists.
    + right. pose proof (good_stream _ _ _ HG) as H1. pose proof (good_wrotes _ _ _ HG) as H2.
      cbn in H1, H2. rewrite Hb, !app_nil_r in H1. rewrite app_nil_r in H2.
      unfold pipe_finished. cbn. by split_ands; try same_field HG.
  - done.
Qed.

(** * Properties *)

(** C27: The three pipe programs.  For lines without NUL, a pipe that holds at
    least one atomic write, and every interleaving: no schedule is longer than a
    bound in the number of lines and bytes, the parent is never killed by SIGPIPE,
    and a run that cannot go on is complete, with all bytes printed in order in
    parts that fit the buffer, every line announced with its length and the child
    gone before the parent, unless a read of 1024 bytes has left no room for a NUL,
    which cannot happen with less input than that. *)
Theorem pipe_delivers prog inputs c :
  plain (concat inputs) → reach pipe_step (pipe_init prog inputs) c →
  terminates_within pipe_step (3 * length inputs + 4 * length (concat inputs) + 13) (pipe_init prog inputs) ∧
  (parentP c ≠ PKilled ∧ ((∃ a c', pipe_step a c = Some c') ∨ pipe_finished inputs c) ∨
   overread inputs c).
Proof using room.
  intros Hp Hr. split.
  - assert (pipe_work (pipe_init prog inputs) ≤ 3 * length inputs + 4 * length (concat inputs) + 13) as Hb
      by (destruct prog; unfold pipe_work; simpl; lia).
    intros sched c' Hrun. etrans; [|exact Hb]. revert sched c' Hrun.
    apply (measure_terminates _ (λ _, True) pipe_work); [done|]. intros. split; [done|]. by eapply pipe_work_step.
  - destruct (pipe_reach _ _ _ Hp Hr) as [HG|]; [left|by right]. split; [|by eapply pipe_progress].
    pose proof (good_parent _ _ _ HG) as H. by destruct (parentP c).
Qed.

End pipe.

(** The sizes of Linux. *)
Definition linux_capacity : nat := Z.to_nat 65536.

Definition linux_pipe_buf : nat := Z.to_nat 4096.

(** The parent writes two lines and closes, then the child reads; at last the
    parent ends. *)
Definition two_lines_one_read : list pipe_process :=
  replicate 12 (Parent 0) ++ replicate 8 Child ++ replicate 2 (Parent 0).

Lemma pipe_delivers_witness :
  ∃ c, run (pipe_step linux_capacity linux_pipe_buf) two_lines_one_read
         (pipe_init Dup [[x61]; [x62; x63]]) = Some c ∧
    output (mem c) = [Wrote 1; Wrote 2; Read 3 [x61; x62; x63]; ChildExited; ParentExited] ∧
    terminates_within (pipe_step linux_capacity linux_pipe_buf) 31 (pipe_init Dup [[x61]; [x62; x63]]).
Proof.
  assert (∃ c, run (pipe_step linux_capacity linux_pipe_buf) two_lines_one_read
         (pipe_init Dup [[x61]; [x62; x63]]) = Some c ∧
    output (mem c) = [Wrote 1; Wrote 2; Read 3 [x61; x62; x63]; ChildExited; ParentExited])
    as (c & Hc & Ho) by (eexists; split; [vm_compute; reflexivity|reflexivity]).
  exists c. split; [exact Hc|]. split; [exact Ho|].
  refine (proj1 (pipe_delivers linux_capacity linux_pipe_buf _ Dup [[x61]; [x62; x63]] c _
    (run_reach _ _ _ _ Hc))).
  - unfold linux_capacity, linux_pipe_buf. lia.
  - repeat constructor; done.
Defined.

(** What the pipe programs do not handle.  The lines [a] and [bc] can
    arrive in one read, as [abc]: the reader cannot tell where a line ends.  A line
    of 1024 characters can fill the reader's buffer, and printing it as a C string
    runs past the end.  A second run of mkfifo_intro.cpp ends at once, whatever its
    input, because nobody removes the named pipe. *)
Theorem pipe_pitfalls :
  (∃ c, reach (pipe_step linux_capacity linux_pipe_buf) (pipe_init PipeIntro [[x61]; [x62; x63]]) c ∧
     texts (output (mem c)) = [[x61; x62; x63]]) ∧
  (∃ c, reach (pipe_step linux_capacity linux_pipe_buf) (pipe_init Mkfifo [replicate 1024 x61]) c ∧
     childP c = CUndefined) ∧
  (∀ inputs1 inputs2,
     (pipe_main Mkfifo (pipe_main Mkfifo false inputs1).2 inputs2).1 = None).
Proof.
  split_ands; [| |done].
  - eexists. split; [eapply run_reach with (sched := replicate 12 (Parent 0) ++ replicate 4 Child);
                     vm_compute; reflexivity|reflexivity].
  - eexists. split; [eapply run_reach with (sched := [Child] ++ replicate 5 (Parent 0) ++ replicate 4 Child);
                     vm_compute; reflexivity|reflexivity].
Qed.
