(* ===== verification/Futures.v ===== *)
(** structured_concurrency/future.cpp, shared_future.cpp and async.cpp: a worker
    hands a value or an exception to the caller through a shared state.

    The shared state is written once by the worker; [get] waits for it, takes it
    and leaves the future without a state, so that a second [get] throws.  One step
    is one call on the shared state, one piece of output, or the end of the worker.
    The output is the text of [std::cout]: its pieces are written from left to
    right as the operands of [<<] are evaluated, so that ["Result: "] is there
    before [get] throws.  It does not depend on the interleaving. *)

From S2P Require Import Prelude Machine.
From stdpp Require Import pretty options.

Local Open Scope Z_scope.

(** * The machine *)

Inductive future_program := Future | SharedFuture | Async.

(** What a shared state holds: a value, or the text of an exception. *)
Inductive result := Value (v : Z) | Exception (what : string).

(** [WorkerFunction]: [None] is the overflow of an [int]. *)
Definition WorkerFunction (n : Z) : option result :=
  if n =? 228 then Some (Exception "Invalid value")
  else if bool_decide (is_i32 (n * 2)) then Some (Value (n * 2)) else None.

(** The end of a line. *)
Definition nl : string := String (Ascii.ascii_of_nat 10) EmptyString.

(** The text of the [future_error] that [get] throws without a state. *)
Definition no_state : string := "std::future_error: No associated state".

(** The worker: before the write of the shared state, after it, ended. *)
Inductive fut_worker := WRun (n : Z) | WExit | WEnd.

(** The caller, with the arguments of the calls of [RunWorker] to come: at a call,
    at each piece of the first and of the second line, at the handler, at the end
    of the function, and at the end. *)
Inductive fut_caller :=
  | Start (ns : list Z)
  | First (ns : list Z)
  | FirstGet (ns : list Z)
  | FirstValue (v : Z) (ns : list Z)
  | Second (ns : list Z)
  | SecondGet (ns : list Z)
  | SecondValue (v : Z) (ns : list Z)
  | Unwind (what : string) (ns : list Z)
  | Handler (what : string) (ns : list Z)
  | Join (ns : list Z)
  | Done
  | Undefined.

Record future_state := FutureState {
  shared_state : option result; valid : bool; worker_ : fut_worker; main_ : fut_caller; cout : list string }.

(** [future.get()]: [None] blocks. *)
Definition future_get (s : future_state) : option result :=
  if valid s then shared_state s else Some (Exception no_state).

(** Where an exception goes: [async.cpp] catches outside the scope of the future,
    whose destructor waits for the worker; the others inside the scope of the
    thread. *)
Definition throw (prog : future_program) (what : string) (ns : list Z) : fut_caller :=
  match prog with Async => Unwind what ns | _ => Handler what ns end.

Definition after_handler (prog : future_program) (ns : list Z) : fut_caller :=
  match prog with Async => Start ns | _ => Join ns end.

Definition after_first (prog : future_program) (ns : list Z) : fut_caller :=
  match prog with SharedFuture => Second ns | _ => Join ns end.

Definition at_ (m : fut_caller) (s : future_state) : future_state :=
  FutureState (shared_state s) (valid s) (worker_ s) m (cout s).

Definition print_ (text : string) (m : fut_caller) (s : future_state) : future_state :=
  FutureState (shared_state s) (valid s) (worker_ s) m (cout s ++ [text]).

(** After [get]: the future has no state. *)
Definition got (m : fut_caller) (s : future_state) : future_state :=
  FutureState (shared_state s) false (worker_ s) m (cout s).

Definition caller_step (prog : future_program) (s : future_state) : option future_state :=
  match main_ s with
  | Start [] => Some (at_ Done s)
  | Start (n :: ns) => Some (FutureState None true (WRun n) (First ns) (cout s))
  | First ns => Some (print_ "Result: " (FirstGet ns) s)
  | FirstGet ns =>
      match future_get s with
      | Some (Value v) => Some (got (FirstValue v ns) s)
      | Some (Exception what) => Some (got (throw prog what ns) s)
      | None => None
      end
  | FirstValue v ns => Some (print_ (pretty v +:+ nl) (after_first prog ns) s)
  | Second ns => Some (print_ "Another try: " (SecondGet ns) s)
  | SecondGet ns =>
      match future_get s with
      | Some (Value v) => Some (got (SecondValue v ns) s)
      | Some (Exception what) => Some (got (throw prog what ns) s)
      | None => None
      end
  | SecondValue v ns => Some (print_ (pretty v +:+ nl) (Join ns) s)
  | Unwind what ns => match worker_ s with WEnd => Some (at_ (Handler what ns) s) | _ => None end
  | Handler what ns =>
      Some (print_ ("Exception caught: " +:+ what +:+ nl) (after_handler prog ns) s)
  | Join ns => match worker_ s with WEnd => Some (at_ (Start ns) s) | _ => None end
  | Done | Undefined => None
  end.

Definition future_worker_step (s : future_state) : option future_state :=
  match worker_ s with
  | WRun n =>
      match WorkerFunction n with
      | Some o => Some (FutureState (Some o) (valid s) WExit (main_ s) (cout s))
      | None => Some (at_ Undefined s)
      end
  | WExit => Some (FutureState (shared_state s) (valid s) WEnd (main_ s) (cout s))
  | WEnd => None
  end.

Inductive fut_thread := Caller | Worker.

Definition future_step (prog : future_program) (a : fut_thread) (s : future_state) : option future_state :=
  match a with Caller => caller_step prog s | Worker => future_worker_step s end.

(** A program that calls [RunWorker] with each of [ns]. *)
Definition future_main (ns : list Z) : future_state := FutureState None false WEnd (Start ns) [].

(** * The output *)

Definition handler_text (what : string) : string := "Exception caught: " +:+ what +:+ nl.

(** What one call of [RunWorker] prints. *)
Definition call_output (prog : future_program) (o : result) : list string :=
  match o with
  | Value v =>
      ["Result: "; pretty v +:+ nl] ++
      match prog with SharedFuture => ["Another try: "; handler_text no_state] | _ => [] end
  | Exception what => ["Result: "; handler_text what]
  end.

Definition script (prog : future_program) (ns : list Z) : list string :=
  concat ((λ n, from_option (call_output prog) [] (WorkerFunction n)) <$> ns).

(** What is still to be printed in a call whose worker makes [o]. *)
Definition left_of_call (prog : future_program) (o : result) (m : fut_caller) : list string :=
  match m with
  | First _ => call_output prog o
  | FirstGet _ => drop 1 (call_output prog o)
  | FirstValue _ _ => drop 1 (call_output prog o)
  | Second _ => drop 2 (call_output prog o)
  | SecondGet _ => drop 3 (call_output prog o)
  | Unwind what _ | Handler what _ => [handler_text what]
  | _ => []
  end.

Definition later (m : fut_caller) : list Z :=
  match m with
  | Start ns | First ns | FirstGet ns | FirstValue _ ns | Second ns | SecondGet ns | SecondValue _ ns
  | Unwind _ ns | Handler _ ns | Join ns => ns
  | Done | Undefined => []
  end.

(** The places a call can be at. *)
Definition place (prog : future_program) (o : result) (s : future_state) : Prop :=
  match main_ s with
  | First _ | FirstGet _ => valid s = true
  | FirstValue v _ => o = Value v ∧ valid s = false
  | Second _ | SecondGet _ => prog = SharedFuture ∧ valid s = false ∧ ∃ v, o = Value v
  | Unwind _ _ => prog = Async
  | Handler _ _ => prog = Async → worker_ s = WEnd
  | Join _ => True
  | _ => False
  end.

(** The worker and the shared state agree. *)
Definition promised (n : Z) (o : result) (s : future_state) : Prop :=
  WorkerFunction n = Some o ∧
  match worker_ s with
  | WRun m => m = n ∧ shared_state s = None
  | _ => shared_state s = Some o
  end.

Definition future_inv (prog : future_program) (ns : list Z) (s : future_state) : Prop :=
  (∃ past, main_ s = Start (later (main_ s)) ∧ ns = past ++ later (main_ s) ∧
     worker_ s = WEnd ∧ cout s = script prog past) ∨
  (main_ s = Done ∧ worker_ s = WEnd ∧ cout s = script prog ns) ∨
  (∃ past n o, ns = past ++ n :: later (main_ s) ∧ promised n o s ∧ place prog o s ∧
     cout s ++ left_of_call prog o (main_ s) = script prog past ++ call_output prog o).

Lemma script_snoc prog past n o :
  WorkerFunction n = Some o → script prog (past ++ [n]) = script prog past ++ call_output prog o.
Proof. intros H. unfold script. rewrite fmap_app, concat_app. simpl. rewrite H. simpl. by rewrite app_nil_r. Qed.

#[local] Arguments WorkerFunction : simpl never.

Lemma caller_preserves prog ns s s' :
  Forall (λ n, is_Some (WorkerFunction n)) ns →
  future_inv prog ns s → caller_step prog s = Some s' → future_inv prog ns s'.
Proof.
  intros Hok [(past & Hm & Hns & Hw & Ho)|[(Hm & Hw & Ho)|(past & n & o & Hns & [HW Hp] & Hpl & Ho)]] Hs;
    unfold caller_step in Hs.
  - rewrite Hm in Hs. destruct (later (main_ s)) as [|n more] eqn:El; simplify_eq.
    + right; left. rewrite app_nil_r. by split.
    + apply Forall_app in Hok as [_ [[o HW] _]%Forall_cons_iff].
      right; right. exists past, n, o. split_ands; try done. simpl. by rewrite Ho.
  - by rewrite Hm in Hs.
  - destruct s as [st v w m out]. cbn [main_ valid worker_ shared_state cout] in *.
    unfold future_get, place, promised in *. cbn [main_ valid worker_ shared_state cout] in *.
    destruct m as [l|l|l|x l|l|l|x l|x l|x l|l| |]; cbn [later left_of_call] in *; try done.
    + simplify_eq. right; right. exists past, n, o. split_ands; try done. cbn.
      rewrite <- app_assoc. by destruct o.
    + subst v. destruct st as [[x|what]|]; [| |done].
      * assert (o = Value x) as -> by (by destruct w as [? | |]; [destruct Hp| |]; simplify_eq). simplify_eq.
        right; right. exists past, n, (Value x). by split_ands.
      * assert (o = Exception what) as -> by (by destruct w as [? | |]; [destruct Hp| |]; simplify_eq). simplify_eq.
        right; right. exists past, n, (Exception what). destruct prog; by split_ands.
    + simplify_eq. destruct Hpl as [-> ->]. right; right. exists past, n, (Value x).
      destruct prog; split_ands; try done; cbn; rewrite <- ?app_assoc; eauto.
    + simplify_eq. destruct Hpl as (-> & -> & x & ->). right; right. exists past, n, (Value x).
      split_ands; try done; cbn; [by eauto|]. by rewrite <- app_assoc.
    + destruct Hpl as (-> & -> & x & ->). simplify_eq. right; right. exists past, n, (Value x). by split_ands.
    + destruct w; simplify_eq. right; right. exists past, n, o. by split_ands.
    + simplify_eq. destruct prog; cbn.
      * right; right. exists past, n, o. split_ands; try done. by rewrite app_nil_r.
      * right; right. exists past, n, o. split_ands; try done. by rewrite app_nil_r.
      * left. exists (past ++ [n]). cbn. rewrite <- app_assoc, (script_snoc _ _ _ _ HW). by split_ands; auto.
    + destruct w; simplify_eq. left. exists (past ++ [n]). cbn. rewrite app_nil_r in Ho.
      rewrite <- app_assoc, (script_snoc _ _ _ _ HW). by split_ands.
Qed.

Lemma future_worker_preserves prog ns s s' :
  future_inv prog ns s → future_worker_step s = Some s' → future_inv prog ns s'.
Proof.
  intros [(past & Hm & Hns & Hw & Ho)|[(Hm & Hw & Ho)|(past & n & o & Hns & [HW Hp] & Hpl & Ho)]] Hs;
    unfold future_worker_step in Hs.
  - by rewrite Hw in Hs.
  - by rewrite Hw in Hs.
  - right; right. exists past, n, o. unfold promised, place in *. destruct s as [st v w m out].
    cbn [main_ valid worker_ shared_state cout] in *. destruct w as [k| |]; [|simplify_eq/=|done].
    + destruct Hp as [-> Hp]. rewrite HW in Hs. simplify_eq/=. split_ands; try done.
      destruct m; try done. intros Hp'. by specialize (Hpl Hp').
    + split_ands; try done. by destruct m.
Qed.

Lemma future_reach prog ns s :
  Forall (λ n, is_Some (WorkerFunction n)) ns →
  reach (future_step prog) (future_main ns) s → future_inv prog ns s.
Proof.
  intros Hok. apply reach_inv; [left; by exists []|].
  intros [] s1 s2; [by apply caller_preserves|apply future_worker_preserves].
Qed.

(** The caller waits only for a worker that can go on. *)
Lemma future_progress prog ns s :
  future_inv prog ns s →
  (∃ a s', future_step prog a s = Some s') ∨ main_ s = Done ∧ cout s = script prog ns.
Proof.
  intros [(past & Hm & Hns & Hw & Ho)|[(Hm & Hw & Ho)|(past & n & o & Hns & [HW Hp] & Hpl & Ho)]]; [|by right|].
  - left. exists Caller. simpl. unfold caller_step. rewrite Hm. case_match; eauto.
  - left. destruct (worker_ s) as [k| |] eqn:Ew.
    + exists Worker. simpl. unfold future_worker_step. rewrite Ew. case_match; eauto.
    + exists Worker. simpl. unfold future_worker_step. rewrite Ew. eauto.
    + exists Caller. simpl. unfold caller_step, place, future_get in *. rewrite Ew, Hp.
      destruct (main_ s) as [[|? ?]|l|l|x l|l|l|x l|x l|x l|l| |]; try done; eauto.
      all: destruct (valid s), o; eauto.
Qed.

Definition caller_left (m : fut_caller) : nat :=
  match m with
  | Start ns => 12 * length ns + 1
  | First ns => 12 * length ns + 10
  | FirstGet ns => 12 * length ns + 9
  | FirstValue _ ns => 12 * length ns + 8
  | Second ns => 12 * length ns + 7
  | SecondGet ns => 12 * length ns + 6
  | SecondValue _ ns | Unwind _ ns => 12 * length ns + 5
  | Handler _ ns => 12 * length ns + 4
  | Join ns => 12 * length ns + 3
  | Done | Undefined => 0
  end%nat.

Definition worker_left (w : fut_worker) : nat := match w with WRun _ => 2 | WExit => 1 | WEnd => 0 end.

Definition future_work (s : future_state) : nat := caller_left (main_ s) + worker_left (worker_ s).

Lemma future_work_step prog ns a s s' :
  future_inv prog ns s → future_step prog a s = Some s' → (future_work s' < future_work s)%nat.
Proof.
  intros HI. unfold future_work. destruct s as [st v w m out], a; simpl.
  - unfold caller_step, future_get. cbn [main_ worker_ valid shared_state]. destruct m; intros; simplify_eq/=;
      repeat case_match; simplify_eq/=; destruct prog; simpl; try lia.
    all: by destruct HI as [(? & _ & _ & H & _)|[(H & _)|(? & ? & ? & _ & _ & H & _)]].
  - unfold future_worker_step. cbn [worker_]. repeat case_match; intros; simplify_eq/=; try lia.
    destruct HI as [(? & _ & _ & H' & _)|[(_ & H' & _)|(? & n0 & o & _ & [HW Hp] & _ & _)]]; [done|done|].
    destruct Hp as [-> _]. congruence.
Qed.

(** * Properties *)

(** C31: Futures.  For any arguments for which [n * 2] does not overflow and
    every interleaving of caller and worker, in each of the three programs: no
    schedule is longer than [12 n + 1] steps for [n] calls, and a run that cannot go
    on has ended with the output determined by the arguments alone: the worker's
    value, or the handler's text for its exception, and for shared_future.cpp the
    handler's text for the second [get]. *)
Theorem futures_deliver prog ns s :
  Forall (λ n, is_Some (WorkerFunction n)) ns → reach (future_step prog) (future_main ns) s →
  terminates_within (future_step prog) (12 * length ns + 1) (future_main ns) ∧
  ((∃ a s', future_step prog a s = Some s') ∨ main_ s = Done ∧ cout s = script prog ns).
Proof.
  intros Hok Hr. split; [|by eapply future_progress, future_reach].
  replace (12 * length ns + 1)%nat with (future_work (future_main ns)) by (unfold future_work; simpl; lia).
  apply (measure_terminates _ (future_inv prog ns) future_work); [left; by exists []|].
  intros a s1 s2 HI Hs. split; [|by eapply future_work_step].
  destruct a; [by eapply caller_preserves|by eapply future_worker_preserves].
Qed.

(** The programs call [RunWorker] with 10 and 228. *)
Lemma futures_deliver_witness :
  String.concat "" (script Future [10; 228]) =
    "Result: 20" +:+ nl +:+ "Result: Exception caught: Invalid value" +:+ nl ∧
  script Async [10; 228] = script Future [10; 228] ∧
  String.concat "" (script SharedFuture [10; 228]) =
    "Result: 20" +:+ nl +:+
    "Another try: Exception caught: std::future_error: No associated state" +:+ nl +:+
    "Result: Exception caught: Invalid value" +:+ nl ∧
  terminates_within (future_step SharedFuture) 25 (future_main [10; 228]).
Proof.
  split; [vm_compute; reflexivity|]. split; [vm_compute; reflexivity|]. split; [vm_compute; reflexivity|].
  refine (proj1 (futures_deliver SharedFuture [10; 228] (future_main [10; 228]) _ (reach_refl _ _))).
  repeat constructor; eexists; vm_compute; reflexivity.
Defined.
