(* ===== verification/ThreadPool.v ===== *)
(** structured_concurrency/packaged_task.cpp: the thread pool and its [main].

    Workers take tasks from the front of a list under a mutex, run them and make
    their futures ready; [main] submits tasks, gets the futures in order and
    destroys the pool.  One step is one operation on the mutex, the list, a future
    or the output.  [Submit] does not take the mutex: its [emplace_back] is two
    steps, and a worker that works on the list in between makes the behaviour
    undefined: the machine stops there.  That can happen; as long as it does not, no
    task runs twice, its future gets its own result, and the end can always be
    reached.  Only such an overlap counts as the race here.  The C++ memory model asks
    for more: [main] does nothing a worker could synchronise with between the start of
    the workers and the stop requests, so that a worker's use of the list and a
    [Submit] are never ordered, and the standard promises nothing even when they do
    not overlap.  The theorems describe the runs in which the operations on the list
    take effect one at a time. *)

From S2P Require Import Prelude Machine.
From stdpp Require Import options.

Local Open Scope Z_scope.

(** * The machine *)

(** The bodies of the tasks that [main] submits. *)
Inductive task :=
  | PrintTask
  | ThrowTask (what : string)
  | AssignTask (v : Z).

(** What a [std::future<void>] becomes. *)
Inductive task_result := Finished | Threw (what : string).

Inductive pool_line :=
  | Printing (thread : nat)
  | Caught (what : string)
  | ValueIs (v : Z).

(** The members of [ThreadPool], the futures, the stop tokens, [value], the output
    and, for the proofs, the tasks in the order in which they ran. *)
Record pool := Pool {
  m_mtx : option nat; m_tasks : list nat; futures : list (option task_result); stop : list bool;
  value : Z; out : list pool_line; ran : list nat }.

(** [WorkerThread] and [GetTask]: at the test of the token, at the lock, at
    [empty()], at [front()], at [pop_front()], at the unlock with the task taken,
    asleep, at the call of the task, at the end of the call. *)
Inductive pool_worker :=
  | WCheck
  | WLock
  | WEmpty
  | WFront
  | WPop (t : nat)
  | WUnlock (t : option nat)
  | WSleep
  | WRun (t : nat)
  | WSet (t : nat) (r : task_result)
  | WEnd.

(** [main]: at a [Submit], inside its [emplace_back], at a [get], at a handler, at
    the last line, at the destructors of the threads, at its end; ended by an
    exception that nobody catches. *)
Inductive pool_main :=
  | MSubmit (i : nat)
  | MEmplace (i : nat)
  | MGet (i : nat)
  | MCaught (what : string) (i : nat)
  | MPrintValue
  | MStop (i : nat)
  | MJoin (i : nat)
  | MDone
  | MTerminate.

#[export] Instance task_result_eq_dec : EqDecision task_result.
Proof. solve_decision. Defined.

#[export] Instance pool_worker_eq_dec : EqDecision pool_worker.
Proof. solve_decision. Defined.

Record pool_config := PoolConfig {
  shared : pool; main_ : pool_main; workers : list pool_worker; undefined : bool }.

Inductive pool_thread := Main | Worker (i : nat).

Definition set_mtx o (g : pool) := Pool o (m_tasks g) (futures g) (stop g) (value g) (out g) (ran g).
Definition set_tasks ts (g : pool) := Pool (m_mtx g) ts (futures g) (stop g) (value g) (out g) (ran g).
Definition set_futures fs (g : pool) := Pool (m_mtx g) (m_tasks g) fs (stop g) (value g) (out g) (ran g).
Definition set_stop ss (g : pool) := Pool (m_mtx g) (m_tasks g) (futures g) ss (value g) (out g) (ran g).
Definition say (l : pool_line) (g : pool) :=
  Pool (m_mtx g) (m_tasks g) (futures g) (stop g) (value g) (out g ++ [l]) (ran g).

(** The call of the task [t] in the worker [i]. *)
Definition run_task (i t : nat) (body : task) (g : pool) : pool * task_result :=
  let log := ran g ++ [t] in
  match body with
  | PrintTask =>
      (Pool (m_mtx g) (m_tasks g) (futures g) (stop g) (value g) (out g ++ [Printing i]) log, Finished)
  | ThrowTask what =>
      (Pool (m_mtx g) (m_tasks g) (futures g) (stop g) (value g) (out g) log, Threw what)
  | AssignTask v =>
      (Pool (m_mtx g) (m_tasks g) (futures g) (stop g) v (out g) log, Finished)
  end.

(** A step of the worker [i]. *)
Definition pool_worker_step (bodies : list task) (i : nat) (g : pool) (w : pool_worker) :
    option (pool * pool_worker) :=
  match w with
  | WCheck => b ← stop g !! i; Some (g, if b : bool then WEnd else WLock)
  | WLock => match m_mtx g with None => Some (set_mtx (Some i) g, WEmpty) | Some _ => None end
  | WEmpty => Some (g, match m_tasks g with [] => WUnlock None | _ => WFront end)
  | WFront => t ← head (m_tasks g); Some (g, WPop t)
  | WPop t => Some (set_tasks (tail (m_tasks g)) g, WUnlock (Some t))
  | WUnlock o => Some (set_mtx None g, match o with Some t => WRun t | None => WSleep end)
  | WSleep => Some (g, WCheck)
  | WRun t => body ← bodies !! t; let '(g', r) := run_task i t body g in Some (g', WSet t r)
  | WSet t r => Some (set_futures (<[t:=Some r]> (futures g)) g, WCheck)
  | WEnd => None
  end.

(** A worker that is about to use the list. *)
Definition uses_list (w : pool_worker) : bool :=
  match w with WEmpty | WFront | WPop _ => true | _ => false end.

(** [get] of each future; [guarded] tells which are inside a [try]. *)
Definition main_step (bodies : list task) (guarded : list bool) (g : pool) (ws : list pool_worker)
    (m : pool_main) : option (pool * pool_main) :=
  match m with
  | MSubmit i => Some (g, if bool_decide (i < length bodies)%nat then MEmplace i else MGet 0)
  | MEmplace i => Some (set_tasks (m_tasks g ++ [i]) g, MSubmit (S i))
  | MGet i =>
      if bool_decide (i < length bodies)%nat then
        match futures g !! i with
        | Some (Some Finished) => Some (g, MGet (S i))
        | Some (Some (Threw what)) =>
            Some (g, if default false (guarded !! i) then MCaught what i else MTerminate)
        | _ => None
        end
      else Some (g, MPrintValue)
  | MCaught what i => Some (say (Caught what) g, MGet (S i))
  | MPrintValue => Some (say (ValueIs (value g)) g, MStop 0)
  | MStop i =>
      if bool_decide (i < length ws)%nat then Some (set_stop (<[i:=true]> (stop g)) g, MJoin i)
      else Some (g, MDone)
  | MJoin i => if bool_decide (ws !! i = Some WEnd) then Some (g, MStop (S i)) else None
  | MDone | MTerminate => None
  end.

Definition pool_step (bodies : list task) (guarded : list bool) (a : pool_thread) (c : pool_config) :
    option pool_config :=
  if undefined c then None else
  match a with
  | Main =>
      '(g, m) ← main_step bodies guarded (shared c) (workers c) (main_ c);
      Some (PoolConfig g m (workers c) false)
  | Worker i =>
      w ← workers c !! i;
      '(g, w') ← pool_worker_step bodies i (shared c) w;
      let race := match main_ c with MEmplace _ => uses_list w | _ => false end in
      Some (PoolConfig g (main_ c) (<[i:=w']> (workers c)) race)
  end.

(** [ThreadPool pool{numberOfThreads}], with the futures still to be made. *)
Definition pool_init (bodies : list task) (numberOfThreads : nat) : pool_config :=
  PoolConfig
    (Pool None [] (replicate (length bodies) None) (replicate numberOfThreads false) 0 [] [])
    (MSubmit 0) (replicate numberOfThreads WCheck) false.

(** The tasks of [main], and which [get] is inside a [try]. *)
Definition main_bodies : list task :=
  [PrintTask; PrintTask; ThrowTask "Exception in task!"; AssignTask 42].

Definition main_guarded : list bool := [false; false; true; false].

(** * The invariant *)

Section pool.
Context (bodies : list task) (guarded : list bool).

Local Notation n := (length bodies).

Definition result_of (t : nat) : option task_result :=
  (λ b, match b with ThrowTask what => Threw what | _ => Finished end) <$> bodies !! t.

Definition is_print (t : nat) : bool :=
  match bodies !! t with Some PrintTask => true | _ => false end.

(** The variable after the tasks [log]. *)
Definition assigned (log : list nat) : Z :=
  foldl (λ acc t, match bodies !! t with Some (AssignTask v) => v | _ => acc end) 0 log.

(** A task that a worker has taken and not yet run. *)
Definition waiting (w : pool_worker) : option nat :=
  match w with WUnlock (Some t) | WRun t => Some t | _ => None end.

Definition critical (w : pool_worker) : bool :=
  match w with WEmpty | WFront | WPop _ | WUnlock _ => true | _ => false end.

Definition submitted (m : pool_main) : nat :=
  match m with MSubmit i | MEmplace i => i | _ => n end.

(** The lines of [main] when it has got the first [i] futures, and its lines. *)
Definition handled (i : nat) : list pool_line :=
  omap (λ b, match b with ThrowTask what => Some (Caught what) | _ => None end) (take i bodies).

Definition main_lines (o : list pool_line) : list pool_line :=
  omap (λ l, match l with Printing _ => None | _ => Some l end) o.

Definition printing (l : pool_line) : bool := match l with Printing _ => true | _ => false end.

Definition ready (g : pool) (t : nat) : Prop := ∃ r, futures g !! t = Some (Some r).

(** Where the task [t] that ran has its result. *)
Definition settled (g : pool) (ws : list pool_worker) (t : nat) : Prop :=
  ready g t ∨ ∃ i r, ws !! i = Some (WSet t r).

Definition worker_ok (g : pool) (i : nat) (w : pool_worker) : Prop :=
  (critical w = true → m_mtx g = Some i) ∧
  match w with
  | WFront => m_tasks g ≠ []
  | WPop t => head (m_tasks g) = Some t
  | WSet t r => t ∈ ran g ∧ result_of t = Some r
  | WEnd => stop g !! i = Some true
  | _ => True
  end.

Definition main_ok (g : pool) (W : nat) (m : pool_main) : Prop :=
  match m with
  | MSubmit i => (i ≤ n)%nat ∧ main_lines (out g) = [] ∧ stop g = replicate W false
  | MEmplace i => (i < n)%nat ∧ main_lines (out g) = [] ∧ stop g = replicate W false
  | MGet i =>
      (∀ t, (t < i)%nat → ready g t) ∧ (i ≤ n)%nat ∧ main_lines (out g) = handled i ∧
      stop g = replicate W false
  | MCaught what i =>
      (∀ t, (t ≤ i)%nat → ready g t) ∧ bodies !! i = Some (ThrowTask what) ∧
      main_lines (out g) = handled i ∧ stop g = replicate W false
  | MPrintValue =>
      (∀ t, (t < n)%nat → ready g t) ∧ main_lines (out g) = handled n ∧ stop g = replicate W false
  | MStop i =>
      (∀ t, (t < n)%nat → ready g t) ∧ main_lines (out g) = handled n ++ [ValueIs (value g)] ∧
      stop g = replicate i true ++ replicate (W - i) false ∧ (i ≤ W)%nat
  | MJoin i =>
      (∀ t, (t < n)%nat → ready g t) ∧ main_lines (out g) = handled n ++ [ValueIs (value g)] ∧
      stop g = replicate (S i) true ++ replicate (W - S i) false ∧ (i < W)%nat
  | MDone =>
      (∀ t, (t < n)%nat → ready g t) ∧ main_lines (out g) = handled n ++ [ValueIs (value g)]
  | MTerminate => ∃ t what, bodies !! t = Some (ThrowTask what) ∧ guarded !! t ≠ Some true
  end.

Record pool_inv (c : pool_config) : Prop := {
  inv_once : ran (shared c) ++ omap waiting (workers c) ++ m_tasks (shared c) ++
               seq (submitted (main_ c)) (n - submitted (main_ c)) ≡ₚ seq 0 n;
  inv_queue : (length (m_tasks (shared c)) ≤ submitted (main_ c))%nat ∧
    m_tasks (shared c) = seq (submitted (main_ c) - length (m_tasks (shared c))) (length (m_tasks (shared c)));
  inv_ran : ∀ t, t ∈ ran (shared c) → settled (shared c) (workers c) t;
  inv_futures : ∀ t r, futures (shared c) !! t = Some (Some r) → t ∈ ran (shared c) ∧ result_of t = Some r;
  inv_length : length (futures (shared c)) = n;
  inv_value : value (shared c) = assigned (ran (shared c));
  inv_prints : count printing (out (shared c)) = count is_print (ran (shared c));
  inv_workers : ∀ i w, workers c !! i = Some w → worker_ok (shared c) i w;
  inv_lock : ∀ i, m_mtx (shared c) = Some i → ∃ w, workers c !! i = Some w ∧ critical w = true;
  inv_main : main_ok (shared c) (length (workers c)) (main_ c) }.

(** ** Lemmas for the parts of the invariant *)

Lemma waiting_same ws i w w' :
  ws !! i = Some w → waiting w' = waiting w → omap waiting (<[i:=w']> ws) ≡ₚ omap waiting ws.
Proof.
  intros Hi E. pose proof (omap_pick_perm waiting ws i w w' Hi) as H. rewrite E in H.
  symmetry. by eapply Permutation_app_inv_l.
Qed.

Lemma waiting_take ws i w w' t :
  ws !! i = Some w → waiting w = None → waiting w' = Some t →
  omap waiting (<[i:=w']> ws) ≡ₚ t :: omap waiting ws.
Proof.
  intros Hi E E'. pose proof (omap_pick_perm waiting ws i w w' Hi) as H. rewrite E, E' in H. by symmetry.
Qed.

Lemma waiting_give ws i w w' t :
  ws !! i = Some w → waiting w = Some t → waiting w' = None →
  omap waiting ws ≡ₚ t :: omap waiting (<[i:=w']> ws).
Proof. intros Hi E E'. pose proof (omap_pick_perm waiting ws i w w' Hi) as H. by rewrite E, E' in H. Qed.

Lemma settled_insert g g' ws i w w' t :
  settled g ws t → (ready g t → ready g' t) → ws !! i = Some w → (∀ r, w ≠ WSet t r) →
  settled g' (<[i:=w']> ws) t.
Proof.
  intros [Hr|(j & r & Hj)] Hg Hi Hw; [left; auto|]. right. exists j, r.
  rewrite list_lookup_insert_ne; [done|]. intros ->. simplify_eq. by destruct (Hw r).
Qed.

(** Every worker's part: the one that moves, and the others. *)
Lemma workers_insert g g' (ws : list pool_worker) i w' :
  (∀ j w, ws !! j = Some w → worker_ok g j w) → worker_ok g' i w' →
  (∀ j w, ws !! j = Some w → j ≠ i → worker_ok g j w → worker_ok g' j w) →
  ∀ j w, <[i:=w']> ws !! j = Some w → worker_ok g' j w.
Proof.
  intros HW Hi Hs j w [[-> ->]|[Hne Hj]]%list_lookup_insert_Some'; [done|]. exact (Hs _ _ Hj Hne (HW _ _ Hj)).
Qed.

(** The mutex keeps its holder. *)
Lemma lock_insert (ws : list pool_worker) i w w' o :
  (∀ j : nat, o = Some j → ∃ w, ws !! j = Some w ∧ critical w = true) →
  ws !! i = Some w → critical w' = critical w →
  ∀ j, o = Some j → ∃ w, <[i:=w']> ws !! j = Some w ∧ critical w = true.
Proof.
  intros HL Hi Hc j Hj. destruct (HL j Hj) as (v & Hv & Hcv). destruct (decide (j = i)) as [->|Hne].
  - exists w'. rewrite list_lookup_insert_eq by (by eapply lookup_lt_Some). simplify_eq. by rewrite Hc.
  - exists v. by rewrite list_lookup_insert_ne.
Qed.

(** What [main] relies on is stable under the workers' steps. *)
Lemma main_stable g g' W m :
  main_ok g W m → (∀ t, ready g t → ready g' t) → stop g' = stop g →
  main_lines (out g') = main_lines (out g) →
  (value g' = value g ∨ ¬ ∀ t, (t < n)%nat → ready g t) → main_ok g' W m.
Proof.
  intros HM Hr Hs Ho Hv. destruct m; cbn in *; rewrite ?Hs, ?Ho; try done.
  all: try (destruct HM as (Ha & HM); split; [by auto|done]).
  all: destruct HM as (Ha & HM); destruct Hv as [->|Hv]; [split; [by auto|done]|done].
Qed.

(** ** The workers' steps *)

(** A step within a worker. *)
Lemma worker_local c i w w' u :
  pool_inv c → workers c !! i = Some w → waiting w' = waiting w → critical w' = critical w →
  (∀ t r, w ≠ WSet t r) → worker_ok (shared c) i w' →
  pool_inv (PoolConfig (shared c) (main_ c) (<[i:=w']> (workers c)) u).
Proof.
  intros HI Hi Hwt Hcr Hset Hok. constructor; cbn [shared main_ workers]; try apply HI.
  - rewrite (waiting_same _ _ _ _ Hi Hwt). apply HI.
  - intros t Ht. eapply settled_insert; [by apply HI| |done|]; auto.
  - eapply workers_insert; [apply HI|done|auto].
  - eapply lock_insert; [apply HI|done|done].
  - rewrite length_insert. apply HI.
Qed.

Lemma worker_lock c i u :
  pool_inv c → workers c !! i = Some WLock → m_mtx (shared c) = None →
  pool_inv (PoolConfig (set_mtx (Some i) (shared c)) (main_ c) (<[i:=WEmpty]> (workers c)) u).
Proof.
  intros HI Hi Hm. constructor; cbn [shared main_ workers set_mtx ran m_tasks futures value out m_mtx]; try apply HI.
  - rewrite (waiting_same _ _ _ WEmpty Hi eq_refl). apply HI.
  - intros t Ht. eapply settled_insert; [by apply HI| |done|]; auto.
  - eapply workers_insert; [apply HI|by split|]. intros j w Hj Hne [Hc Hw]. split; [|by destruct w].
    intros Hcw. rewrite (Hc Hcw) in Hm. done.
  - intros j [= <-]. exists WEmpty. by rewrite list_lookup_insert_eq by (by eapply lookup_lt_Some).
  - rewrite length_insert. eapply main_stable; [apply HI|auto..].
Qed.

Lemma worker_unlock c i o u :
  pool_inv c → workers c !! i = Some (WUnlock o) →
  pool_inv (PoolConfig (set_mtx None (shared c)) (main_ c)
    (<[i:=match o with Some t => WRun t | None => WSleep end]> (workers c)) u).
Proof.
  intros HI Hi. destruct (inv_workers _ HI _ _ Hi) as [Hm _]. specialize (Hm eq_refl).
  constructor; cbn [shared main_ workers set_mtx ran m_tasks futures value out m_mtx]; try apply HI.
  - rewrite (waiting_same _ _ _ _ Hi) by (by destruct o). apply HI.
  - intros t Ht. eapply settled_insert; [by apply HI| |done|]; auto.
  - eapply workers_insert; [apply HI|by destruct o|]. intros j w Hj Hne [Hc Hw]. split; [|by destruct w].
    intros Hcw. rewrite (Hc Hcw) in Hm. by simplify_eq.
  - done.
  - rewrite length_insert. eapply main_stable; [apply HI|auto..].
Qed.

Lemma worker_pop c i t u :
  pool_inv c → workers c !! i = Some (WPop t) →
  pool_inv (PoolConfig (set_tasks (tail (m_tasks (shared c))) (shared c)) (main_ c)
    (<[i:=WUnlock (Some t)]> (workers c)) u).
Proof.
  intros HI Hi. destruct (inv_workers _ HI _ _ Hi) as [Hm Hh]. specialize (Hm eq_refl).
  destruct (m_tasks (shared c)) as [|t' rest] eqn:Et; [done|]. injection Hh as ->.
  constructor; cbn [shared main_ workers set_tasks ran m_tasks futures value out m_mtx tail]; try apply HI.
  - rewrite (waiting_take _ _ _ _ t Hi) by done. rewrite <- (inv_once _ HI), Et. simpl.
    apply Permutation_app_head. rewrite <- Permutation_middle. done.
  - destruct (inv_queue _ HI) as [Hl Hq]. rewrite Et in Hl, Hq. simpl in *. split; [lia|].
    injection Hq as Ht Hq. rewrite Hq at 1. f_equal. lia.
  - intros x Hx. eapply settled_insert; [by apply HI| |done|]; auto.
  - eapply workers_insert; [apply HI|by split|]. intros j w Hj Hne [Hc Hw]. split; [done|].
    destruct w; try done; rewrite Hc in Hm by done; by simplify_eq.
  - eapply lock_insert; [apply HI|done|done].
  - rewrite length_insert. eapply main_stable; [apply HI|auto..].
Qed.

Lemma main_lines_snoc o l :
  main_lines (o ++ [l]) = main_lines o ++ match l with Printing _ => [] | _ => [l] end.
Proof. unfold main_lines. rewrite omap_app. by destruct l. Qed.

Lemma run_task_spec i t body g g' r :
  bodies !! t = Some body → run_task i t body g = (g', r) →
  m_mtx g' = m_mtx g ∧ m_tasks g' = m_tasks g ∧ futures g' = futures g ∧ stop g' = stop g ∧
  ran g' = ran g ++ [t] ∧ main_lines (out g') = main_lines (out g) ∧ result_of t = Some r ∧
  (value g = assigned (ran g) → value g' = assigned (ran g')) ∧
  (count printing (out g) = count is_print (ran g) → count printing (out g') = count is_print (ran g')).
Proof.
  intros Hb Hr. unfold result_of, assigned, run_task in *. rewrite Hb.
  destruct body; simplify_eq/=; split_ands; try done.
  all: try (intros H; rewrite foldl_app; simpl; by rewrite Hb).
  all: try (rewrite main_lines_snoc, app_nil_r; done).
  all: intros H; rewrite ?count_snoc; unfold is_print at 2; rewrite Hb, H; simpl; lia.
Qed.

(** A task that waits has not run. *)
Lemma waiting_not_ran c i w t :
  pool_inv c → workers c !! i = Some w → waiting w = Some t → t ∉ ran (shared c) ∧ (t < n)%nat.
Proof.
  intros HI Hi Hw. assert (t ∈ omap waiting (workers c)) as Hin
    by (apply list_elem_of_omap; exists w; split; [by eapply list_elem_of_lookup_2|done]).
  pose proof (NoDup_seq 0 n) as Hnd. rewrite <- (inv_once _ HI) in Hnd.
  apply list.NoDup_app in Hnd as (_ & Hd & _). split.
  - intros Hr. apply (Hd _ Hr). set_solver.
  - assert (t ∈ seq 0 n) as Ht%elem_of_seq by (rewrite <- (inv_once _ HI); set_solver). lia.
Qed.

Lemma worker_run c i t body g' r u :
  pool_inv c → workers c !! i = Some (WRun t) → bodies !! t = Some body →
  run_task i t body (shared c) = (g', r) →
  pool_inv (PoolConfig g' (main_ c) (<[i:=WSet t r]> (workers c)) u).
Proof.
  intros HI Hi Hb Hr. destruct (waiting_not_ran _ _ _ _ HI Hi eq_refl) as [Hnew Hlt].
  destruct (run_task_spec _ _ _ _ _ _ Hb Hr) as (Em & Et & Ef & Es & Er & El & Hres & Hv & Hp).
  constructor; cbn [shared main_ workers]; rewrite ?Em, ?Et, ?Ef, ?Er; try apply HI.
  - rewrite <- (inv_once _ HI), (waiting_give _ _ _ (WSet t r) t Hi) by done. by rewrite <- app_assoc.
  - intros x Hx. destruct (decide (x = t)) as [->|Hne].
    + right. exists i, r. by rewrite list_lookup_insert_eq by (by eapply lookup_lt_Some).
    + eapply settled_insert; [apply HI; set_solver| |done|done]. unfold ready. by rewrite Ef.
  - intros x rx Hx. destruct (inv_futures _ HI _ _ Hx). set_solver.
  - rewrite <- Er. apply Hv, HI.
  - rewrite <- Er. apply Hp, HI.
  - eapply workers_insert; [apply HI|split; [done|rewrite Er; set_solver]|].
    intros j w Hj Hne [Hc Hw]. split; [by rewrite Em|].
    destruct w; try done; [by rewrite Et..|rewrite Er; set_solver|by rewrite Es].
  - eapply lock_insert; [apply HI|done|done].
  - rewrite length_insert. eapply main_stable; [apply HI| |done|done|].
    + unfold ready. by rewrite Ef.
    + right. intros Hall. destruct (Hall t Hlt) as [rt Hrt]. by destruct (inv_futures _ HI _ _ Hrt).
Qed.

Lemma worker_set c i t r u :
  pool_inv c → workers c !! i = Some (WSet t r) →
  pool_inv (PoolConfig (set_futures (<[t:=Some r]> (futures (shared c))) (shared c)) (main_ c)
    (<[i:=WCheck]> (workers c)) u).
Proof.
  intros HI Hi. destruct (inv_workers _ HI _ _ Hi) as [_ [Hran Hres]].
  assert (t < length (futures (shared c)))%nat as Hlt.
  { rewrite (inv_length _ HI). unfold result_of in Hres. apply fmap_Some in Hres as (b & Hb & _).
    by eapply lookup_lt_Some. }
  assert (∀ x, ready (shared c) x → ready (set_futures (<[t:=Some r]> (futures (shared c))) (shared c)) x) as Hmon.
  { intros x [rx Hx]. unfold ready. cbn. destruct (decide (x = t)) as [->|Hne].
    - exists r. by rewrite list_lookup_insert_eq.
    - exists rx. by rewrite list_lookup_insert_ne. }
  constructor; cbn [shared main_ workers set_futures ran m_tasks futures value out m_mtx]; try apply HI.
  - rewrite (waiting_same _ _ _ WCheck Hi eq_refl). apply HI.
  - intros x Hx. destruct (decide (x = t)) as [->|Hne].
    + left. exists r. cbn. by rewrite list_lookup_insert_eq.
    + eapply settled_insert; [by apply HI|apply Hmon|done|]. intros r' [= ->]. done.
  - intros x rx [[-> [= ->]]|[Hne Hx]]%list_lookup_insert_Some'; [done|by apply (inv_futures _ HI)].
  - rewrite length_insert. apply HI.
  - eapply workers_insert; [apply HI|by split|]. intros j w Hj Hne Hok. exact Hok.
  - eapply lock_insert; [apply HI|done|done].
  - rewrite length_insert. eapply main_stable; [apply HI|done|done|done|by left].
Qed.

Lemma pool_worker_preserves c i c' :
  pool_inv c → pool_step bodies guarded (Worker i) c = Some c' → pool_inv c'.
Proof.
  intros HI Hs. unfold pool_step in Hs. destruct (undefined c); [done|].
  destruct (workers c !! i) as [w|] eqn:Hi; [|done]. cbn [mbind option_bind] in Hs.
  destruct (pool_worker_step bodies i (shared c) w) as [[g' w']|] eqn:Hw; [|done].
  cbn [mbind option_bind] in Hs. injection Hs as <-. destruct (inv_workers _ HI _ _ Hi) as [Hc Hok].
  destruct w as [| | | |t|o| |t|t r|]; cbn [pool_worker_step] in Hw.
  - destruct (stop (shared c) !! i) as [b|] eqn:Eb; [|done]. simplify_eq/=.
    eapply worker_local; try done; destruct b; split; done.
  - destruct (m_mtx (shared c)) eqn:Em; simplify_eq/=. by apply worker_lock.
  - simplify_eq/=. destruct (m_tasks (shared c)) eqn:Et; eapply worker_local; try done; split; cbn; auto; by rewrite Et.
  - destruct (head (m_tasks (shared c))) eqn:Eh; simplify_eq/=. eapply worker_local; try done; split; cbn; auto.
  - simplify_eq/=. by apply worker_pop.
  - simplify_eq/=. by apply worker_unlock.
  - simplify_eq/=. by eapply worker_local.
  - destruct (bodies !! t) as [body|] eqn:Eb; [|done]. simplify_eq/=.
    destruct (run_task i t body (shared c)) as [g2 r] eqn:Er. simplify_eq/=. by eapply worker_run.
  - simplify_eq/=. by apply worker_set.
  - done.
Qed.

(** ** The steps of [main] *)

(** A step of [main] that leaves the pool alone. *)
Lemma main_local c m' u :
  pool_inv c → submitted m' = submitted (main_ c) → main_ok (shared c) (length (workers c)) m' →
  pool_inv (PoolConfig (shared c) m' (workers c) u).
Proof. intros HI Hs Hm. constructor; cbn [shared main_ workers]; rewrite ?Hs; done || apply HI. Qed.

(** A line of [main]. *)
Lemma main_says c l m' u :
  pool_inv c → submitted m' = submitted (main_ c) → printing l = false →
  main_ok (say l (shared c)) (length (workers c)) m' →
  pool_inv (PoolConfig (say l (shared c)) m' (workers c) u).
Proof.
  intros HI Hs Hl Hm. constructor; cbn [shared main_ workers]; rewrite ?Hs; try done; try apply HI.
  cbn [say out ran]. rewrite count_snoc, Hl. simpl. rewrite Nat.add_0_r. apply HI.
Qed.

Lemma main_emplace c i u :
  pool_inv c → main_ c = MEmplace i →
  pool_inv (PoolConfig (set_tasks (m_tasks (shared c) ++ [i]) (shared c)) (MSubmit (S i)) (workers c) u).
Proof.
  intros HI Hm. pose proof (inv_main _ HI) as HM. rewrite Hm in HM. destruct HM as (Hi & Ho & Hst).
  constructor; cbn [shared main_ workers set_tasks ran m_tasks futures value out m_mtx submitted]; try apply HI.
  - rewrite <- (inv_once _ HI), Hm. cbn [submitted]. replace (n - i)%nat with (S (n - S i)) by lia.
    simpl. by rewrite <- (app_assoc (m_tasks _)).
  - destruct (inv_queue _ HI) as [Hl Hq]. rewrite Hm in Hl, Hq. cbn [submitted] in Hl, Hq.
    rewrite length_app. simpl. split; [lia|]. rewrite Hq at 1.
    replace (length (m_tasks (shared c)) + 1)%nat with (S (length (m_tasks (shared c)))) by lia.
    rewrite seq_S. f_equal; repeat f_equal; lia.
  - intros j w Hj. destruct (inv_workers _ HI _ _ Hj) as [Hc Hw]. split; [done|].
    destruct w; try done; cbn; [by destruct (m_tasks _)|]. by destruct (m_tasks (shared c)).
  - cbn. by split_ands.
Qed.

Lemma stop_next i W :
  (i < W)%nat → <[i:=true]> (replicate i true ++ replicate (W - i) false) =
  replicate (S i) true ++ replicate (W - S i) false.
Proof.
  intros. rewrite insert_app_r_alt by (rewrite length_replicate; lia). rewrite length_replicate, Nat.sub_diag.
  replace (W - i)%nat with (S (W - S i)) by lia. by rewrite (replicate_S_end i), <- app_assoc.
Qed.

Lemma main_stop c i u :
  pool_inv c → main_ c = MStop i → (i < length (workers c))%nat →
  pool_inv (PoolConfig (set_stop (<[i:=true]> (stop (shared c))) (shared c)) (MJoin i) (workers c) u).
Proof.
  intros HI Hm Hi. pose proof (inv_main _ HI) as HM. rewrite Hm in HM. destruct HM as (Ha & Ho & Hst & _).
  constructor; cbn [shared main_ workers set_stop ran m_tasks futures value out m_mtx submitted];
    try (pose proof HI as HI'; destruct HI'; rewrite Hm in *; done).
  - intros j w Hj. destruct (inv_workers _ HI _ _ Hj) as [Hc Hw]. split; [done|].
    destruct w; try done. cbn. destruct (decide (j = i)) as [->|Hne].
    + by rewrite list_lookup_insert_eq by (by eapply lookup_lt_Some).
    + by rewrite list_lookup_insert_ne.
  - cbn. rewrite Hst, stop_next by done. by split_ands.
Qed.

(** The result of a task decides where [main] goes. *)
Lemma handled_S t b :
  bodies !! t = Some b →
  handled (S t) = handled t ++ match b with ThrowTask what => [Caught what] | _ => [] end.
Proof.
  intros H. unfold handled. rewrite (take_S_r _ _ _ H), omap_app. by destruct b.
Qed.

Lemma main_get c i c' :
  pool_inv c → main_ c = MGet i → (i < n)%nat → pool_step bodies guarded Main c = Some c' → pool_inv c'.
Proof.
  intros HI Hm Hi Hs. pose proof (inv_main _ HI) as HM. rewrite Hm in HM. destruct HM as (Ha & _ & Ho & Hst).
  unfold pool_step in Hs. destruct (undefined c); [done|]. rewrite Hm in Hs. cbn [main_step] in Hs.
  rewrite bool_decide_true in Hs by done.
  destruct (futures (shared c) !! i) as [[r|]|] eqn:Ef; [|done|done].
  destruct (inv_futures _ HI _ _ Ef) as [_ Hres]. unfold result_of in Hres.
  apply fmap_Some in Hres as (b & Hb & Hr).
  assert (∀ t, (t ≤ i)%nat → ready (shared c) t) as Ha'.
  { intros t Ht. destruct (decide (t = i)) as [->|]; [by exists r|]. apply Ha. lia. }
  destruct r as [|what]; cbn in Hs; simplify_eq.
  - apply main_local; [done|by rewrite Hm|]. cbn. split_ands; try done; [intros; apply Ha'; lia|].
    rewrite Ho, (handled_S _ _ Hb). destruct b; by rewrite ?app_nil_r.
  - destruct b as [|w|]; simplify_eq. destruct (guarded !! i) as [[]|] eqn:Eg; cbn;
      (apply main_local; [done|by rewrite Hm|]); [by cbn|..]; exists i, w; by rewrite Eg.
Qed.

Lemma pool_main_preserves c c' :
  pool_inv c → pool_step bodies guarded Main c = Some c' → pool_inv c'.
Proof.
  intros HI Hs. pose proof (inv_main _ HI) as HM. destruct (main_ c) as [i|i|i|what i| |i|i| |] eqn:Hm.
  3: { destruct (decide (i < n)%nat) as [Hi|Hi]; [by eapply main_get|].
    unfold pool_step in Hs. destruct (undefined c); [done|]. rewrite Hm in Hs. cbn [main_step] in Hs.
    rewrite bool_decide_false in Hs by done. cbn in Hs. simplify_eq. destruct HM as (Ha & Hi' & Ho & Hst).
    apply main_local; [done|by rewrite Hm|]. assert (i = n) as -> by lia. done. }
  all: unfold pool_step in Hs; destruct (undefined c); [done|]; rewrite Hm in Hs; cbn in Hs; cbn in HM.
  - simplify_eq. apply main_local; [done|..].
    + rewrite Hm. case_bool_decide; simpl; [done|]. destruct HM. lia.
    + case_bool_decide; destruct HM as (? & ? & ?); cbn; split_ands; try done; intros; lia.
  - simplify_eq. by apply main_emplace.
  - simplify_eq. destruct HM as (Ha & Hb & Ho & Hst). pose proof (lookup_lt_Some _ _ _ Hb).
    apply main_says; [done|by rewrite Hm|done|]. cbn. rewrite main_lines_snoc, Ho, (handled_S _ _ Hb).
    split_ands; try done. intros t Ht. apply Ha. lia.
  - simplify_eq. destruct HM as (Ha & Ho & Hst). apply main_says; [done|by rewrite Hm|done|].
    cbn. rewrite main_lines_snoc, Ho, Nat.sub_0_r. split_ands; try done. lia.
  - destruct HM as (Ha & Ho & Hst & Hi). case_bool_decide; simplify_eq/=; [by apply main_stop|].
    apply main_local; [done|by rewrite Hm|]. by split.
  - destruct HM as (Ha & Ho & Hst & Hi). case_bool_decide; simplify_eq/=.
    apply main_local; [done|by rewrite Hm|]. cbn. split_ands; try done.
  - done.
  - done.
Qed.

Lemma pool_reach W c : reach (pool_step bodies guarded) (pool_init bodies W) c → pool_inv c.
Proof.
  apply reach_inv.
  - constructor; cbn.
    + rewrite Nat.sub_0_r. induction W; [done|]. by rewrite replicate_S.
    + done.
    + intros t Ht. by apply not_elem_of_nil in Ht.
    + intros t r Ht. by apply lookup_replicate in Ht as [? _].
    + apply length_replicate.
    + done.
    + done.
    + intros i w [-> _]%lookup_replicate. by split.
    + done.
    + rewrite length_replicate. split_ands; try done. lia.
  - intros [|i] c1 c2; [apply pool_main_preserves|apply pool_worker_preserves].
Qed.

(** ** The end can be reached *)

(** The steps [main] has still to do. *)
Definition main_left (W : nat) (m : pool_main) : nat :=
  match m with
  | MSubmit i => 2 * (n - i) + 2 * n + 2 * W + 6
  | MEmplace i => 2 * (n - i) + 2 * n + 2 * W + 5
  | MGet i => 2 * (n - i) + 2 * W + 5
  | MCaught _ i => 2 * (n - i) + 2 * W + 4
  | MPrintValue => 2 * W + 4
  | MStop i => 2 * (W - i) + 2
  | MJoin i => 2 * (W - i) + 1
  | MDone | MTerminate => 0
  end%nat.

Definition joining (m : pool_main) : bool :=
  match m with MStop _ | MJoin _ | MDone => true | _ => false end.

(** How far a worker is from the end of a task, or, when the threads are joined,
    from its own end. *)
Definition rank (join : bool) (fs : list (option task_result)) (w : pool_worker) : nat :=
  match w with
  | WUnlock None => if join then 5 else 10
  | WSleep => if join then 4 else 9
  | WCheck => if join then 3 else 8
  | WLock => 7 | WEmpty => 6 | WFront => 5 | WPop _ => 4 | WUnlock (Some _) => 3 | WRun _ => 2
  | WSet t _ => if bool_decide (fs !! t = Some None) then 1 else 9
  | WEnd => 0
  end%nat.

Definition is_unready (o : option task_result) : bool := match o with None => true | _ => false end.

Definition potential (c : pool_config) : nat :=
  let W := length (workers c) in
  ((main_left W (main_ c) + count is_unready (futures (shared c))) * (11 * W + 1) +
   sum_list_with (rank (joining (main_ c)) (futures (shared c))) (workers c))%nat.

Lemma rank_bound j g w : (rank j g w ≤ 10)%nat.
Proof. destruct w as [| | | | |[]| | | |], j; cbn; try case_bool_decide; lia. Qed.

(** A step that finishes a stage outweighs all ranks. *)
Lemma potential_stage g m ws u g' m' ws' u' :
  length ws' = length ws →
  (main_left (length ws) m' + count is_unready (futures g') <
   main_left (length ws) m + count is_unready (futures g))%nat →
  (potential (PoolConfig g' m' ws' u') < potential (PoolConfig g m ws u))%nat.
Proof.
  intros Hl Hlt. unfold potential. cbn [shared main_ workers]. rewrite Hl.
  pose proof (sum_bound (rank (joining m') (futures g')) 10 ws' (rank_bound _ _)). rewrite Hl in *. nia.
Qed.

(** A step of one worker within a stage. *)
Lemma potential_rank g m ws u g' w w' i u' :
  ws !! i = Some w → futures g' = futures g →
  (rank (joining m) (futures g) w' < rank (joining m) (futures g) w)%nat →
  (potential (PoolConfig g' m (<[i:=w']> ws) u') < potential (PoolConfig g m ws u))%nat.
Proof.
  intros Hi Hf Hlt. unfold potential. cbn [shared main_ workers]. rewrite length_insert, Hf.
  pose proof (sum_insert (rank (joining m) (futures g)) ws i w w' Hi). lia.
Qed.

(** [advances c]: a step that brings the end nearer and is no race. *)
Definition advances (c : pool_config) : Prop :=
  ∃ a c', pool_step bodies guarded a c = Some c' ∧ undefined c' = false ∧ (potential c' < potential c)%nat.

(** A [main] that can go on does. *)
Lemma main_advances c g' m' :
  pool_inv c → undefined c = false →
  main_step bodies guarded (shared c) (workers c) (main_ c) = Some (g', m') → advances c.
Proof.
  intros HI Hu Hs. exists Main, (PoolConfig g' m' (workers c) false). split_ands; [|done|].
  - unfold pool_step. by rewrite Hu, Hs.
  - pose proof (inv_main _ HI) as HM. destruct c as [g m ws u]. cbn [shared main_ workers] in *.
    apply potential_stage; [done|]. apply Nat.lt_le_trans with (main_left (length ws) m + count is_unready (futures g'))%nat;
      [|destruct m; cbn in Hs; repeat case_match; by simplify_eq/=].
    apply Nat.add_lt_mono_r. destruct m; cbn in Hs, HM; simplify_eq/=.
    all: try (case_bool_decide; [|simplify_eq/=; lia]); try (repeat case_match; simplify_eq/=; lia).
    destruct HM as (_ & Hb%lookup_lt_Some & _). lia.
Qed.

(** A worker's step while [main] is not in the list. *)
Lemma worker_advances c i w g' w' :
  undefined c = false → (∀ j, main_ c ≠ MEmplace j) → workers c !! i = Some w →
  pool_worker_step bodies i (shared c) w = Some (g', w') →
  (potential (PoolConfig g' (main_ c) (<[i:=w']> (workers c)) false) < potential c)%nat → advances c.
Proof.
  intros Hu Hm Hi Hs Hp. exists (Worker i), (PoolConfig g' (main_ c) (<[i:=w']> (workers c)) false).
  split_ands; [|done|done]. unfold pool_step. rewrite Hu, Hi. cbn [mbind option_bind]. rewrite Hs.
  cbn [mbind option_bind]. do 2 f_equal. destruct (main_ c) eqn:E; try done. by destruct (Hm i0).
Qed.

(** The end of a task that is not yet ready finishes a stage. *)
Lemma set_advances c i t r :
  undefined c = false → (∀ j, main_ c ≠ MEmplace j) → workers c !! i = Some (WSet t r) →
  futures (shared c) !! t = Some None → advances c.
Proof.
  intros Hu Hm Hi Ht. eapply worker_advances; [done|done|exact Hi|reflexivity|].
  destruct c as [g m ws u]. cbn [shared main_ workers] in *. apply potential_stage; [apply length_insert|].
  cbn [futures set_futures]. pose proof (count_insert is_unready _ _ _ (Some r) Ht) as H. simpl in H. lia.
Qed.

(** A result that is set again is the same. *)
Lemma set_again c i t r :
  pool_inv c → workers c !! i = Some (WSet t r) → futures (shared c) !! t ≠ Some None →
  <[t:=Some r]> (futures (shared c)) = futures (shared c).
Proof.
  intros HI Hi Ht. destruct (inv_workers _ HI _ _ Hi) as [_ [_ Hres]]. apply list_insert_id.
  destruct (lookup_lt_is_Some_2 (futures (shared c)) t) as [[r'|] Hr']; [|destruct (inv_futures _ HI _ _ Hr')|done].
  - rewrite (inv_length _ HI). unfold result_of in Hres. apply fmap_Some in Hres as (b & Hb & _).
    by eapply lookup_lt_Some.
  - congruence.
Qed.

Lemma unready_not_ran c t :
  pool_inv c → (t < n)%nat → t ∉ ran (shared c) → futures (shared c) !! t = Some None.
Proof.
  intros HI Ht Hr. destruct (lookup_lt_is_Some_2 (futures (shared c)) t) as [[r|] Hf]; [by rewrite (inv_length _ HI)| |done].
  by destruct (inv_futures _ HI _ _ Hf).
Qed.

(** While [main] waits for a future, a worker that is not blocked and does not
    find the list empty gets nearer to the end of a task. *)
Lemma serving_advances c i w :
  pool_inv c → undefined c = false → (∀ j, main_ c ≠ MEmplace j) → joining (main_ c) = false →
  stop (shared c) = replicate (length (workers c)) false → workers c !! i = Some w →
  (w = WLock → m_mtx (shared c) = None) → (w = WEmpty → m_tasks (shared c) ≠ []) → advances c.
Proof.
  intros HI Hu Hm Hj Hst Hi Hlock Hempty. destruct (inv_workers _ HI _ _ Hi) as [Hc Hok].
  assert (∀ g' w', pool_worker_step bodies i (shared c) w = Some (g', w') → futures g' = futures (shared c) →
    (rank false (futures (shared c)) w' < rank false (futures (shared c)) w)%nat → advances c) as Hstep.
  { intros g' w' Hs Hf Hr. eapply worker_advances; [done|done|exact Hi|exact Hs|].
    destruct c as [g m ws u]. cbn [shared main_ workers] in *. apply (potential_rank _ _ _ _ _ w); [done|done|].
    by rewrite Hj. }
  destruct w as [| | | |t|[t|]| |t|t r|]; cbn [pool_worker_step] in Hstep.
  - eapply Hstep; [|done|].
    + rewrite Hst, lookup_replicate_2 by (by eapply lookup_lt_Some). done.
    + cbn. lia.
  - rewrite (Hlock eq_refl) in Hstep. eapply Hstep; [done|done|cbn; lia].
  - specialize (Hempty eq_refl). destruct (m_tasks (shared c)); [done|]. eapply Hstep; [done|done|cbn; lia].
  - destruct (m_tasks (shared c)); [done|]. eapply Hstep; [done|done|cbn; lia].
  - eapply Hstep; [done|done|cbn; lia].
  - eapply Hstep; [done|done|cbn; lia].
  - eapply Hstep; [done|done|cbn; lia].
  - eapply Hstep; [done|done|cbn; lia].
  - destruct (waiting_not_ran _ _ _ _ HI Hi eq_refl) as [Hnew Hlt].
    destruct (lookup_lt_is_Some_2 bodies t Hlt) as [b Hb]. rewrite Hb in Hstep.
    destruct (run_task i t b (shared c)) as [g' r] eqn:Er.
    destruct (run_task_spec _ _ _ _ _ _ Hb Er) as (_ & _ & Ef & _).
    eapply Hstep; [cbn; by rewrite Er|done|]. cbn [rank].
    rewrite bool_decide_true by (by apply unready_not_ran). lia.
  - destruct (decide (futures (shared c) !! t = Some None)) as [Ht|Ht]; [by eapply set_advances|].
    eapply Hstep; [done|by eapply set_again|]. cbn [rank]. rewrite bool_decide_false by done. lia.
  - cbn in Hok. rewrite Hst in Hok. by apply lookup_replicate in Hok as [? _].
Qed.

(** The holder of the mutex is never blocked. *)
Lemma holder c i : pool_inv c → m_mtx (shared c) = Some i →
  ∃ w, workers c !! i = Some w ∧ w ≠ WLock ∧ w ≠ WCheck ∧ critical w = true.
Proof. intros HI Hm. destruct (inv_lock _ HI _ Hm) as (w & Hw & Hc). exists w. by destruct w. Qed.

Lemma get_advances c i :
  pool_inv c → undefined c = false → main_ c = MGet i → (i < n)%nat → workers c ≠ [] →
  futures (shared c) !! i = Some None → advances c.
Proof.
  intros HI Hu Hm Hi HW Hf. pose proof (inv_main _ HI) as HM. rewrite Hm in HM. destruct HM as (_ & _ & _ & Hst).
  assert (∀ j, main_ c ≠ MEmplace j) as Hne by (by rewrite Hm).
  assert (joining (main_ c) = false) as Hj by (by rewrite Hm).
  assert (i ∈ seq 0 n) as Hin by (apply elem_of_seq; lia). rewrite <- (inv_once _ HI) in Hin.
  rewrite !elem_of_app in Hin. destruct Hin as [Hr|[Hw|[Ht|Hs]]].
  - destruct (inv_ran _ HI _ Hr) as [[r Hr']|(j & r & Hj')]; [congruence|]. by eapply set_advances.
  - apply list_elem_of_omap in Hw as (w & [k Hk]%list_elem_of_lookup_1 & Hw).
    eapply (serving_advances c k w); try done; by intros ->.
  - assert (m_tasks (shared c) ≠ []) as Hq by (intros E; rewrite E in Ht; by apply not_elem_of_nil in Ht).
    destruct (m_mtx (shared c)) as [k|] eqn:Em.
    + destruct (holder c k HI Em) as (w & Hk & Hl & _). eapply (serving_advances c k w); done.
    + destruct (workers c) as [|w ws] eqn:Ew; [done|].
      eapply (serving_advances c 0 w); rewrite ?Ew; done.
  - rewrite Hm in Hs. cbn in Hs. rewrite Nat.sub_diag in Hs. by apply not_elem_of_nil in Hs.
Qed.

(** When every future is ready every task has run, and nothing is left. *)
Lemma all_ready c :
  pool_inv c → (∀ t, (t < n)%nat → ready (shared c) t) →
  ran (shared c) ≡ₚ seq 0 n ∧ m_tasks (shared c) = [] ∧ omap waiting (workers c) = [].
Proof.
  intros HI Ha. pose proof (NoDup_seq 0 n) as Hnd. pose proof (inv_once _ HI) as Hp. rewrite <- Hp in Hnd.
  set (rest := omap waiting (workers c) ++ m_tasks (shared c) ++
    seq (submitted (main_ c)) (n - submitted (main_ c))) in *.
  apply list.NoDup_app in Hnd as (_ & Hd & _).
  assert (rest = []) as Er.
  { destruct rest as [|t rest'] eqn:E; [done|]. assert (t ∈ seq 0 n) as Ht%elem_of_seq by (rewrite <- Hp; set_solver).
    destruct (Ha t) as [r Hr]; [lia|]. destruct (inv_futures _ HI _ _ Hr) as [Hin _].
    destruct (Hd t Hin). by left. }
  rewrite Er, app_nil_r in Hp. apply app_nil in Er as [Ew Er]. apply app_nil in Er as [Et _]. done.
Qed.

Lemma join_advances c i w :
  pool_inv c → undefined c = false → main_ c = MJoin i → workers c !! i = Some w → w ≠ WEnd → advances c.
Proof.
  intros HI Hu Hm Hi Hend. pose proof (inv_main _ HI) as HM. rewrite Hm in HM. destruct HM as (Ha & _ & Hst & Hlt).
  destruct (all_ready c HI Ha) as (Hperm & Hq & Hw). assert (∀ j, main_ c ≠ MEmplace j) as Hne by (by rewrite Hm).
  assert (∀ k v g' v', workers c !! k = Some v → pool_worker_step bodies k (shared c) v = Some (g', v') →
    futures g' = futures (shared c) →
    (rank true (futures (shared c)) v' < rank true (futures (shared c)) v)%nat → advances c) as Hstep.
  { intros k v g' v' Hk Hs Hf Hr. eapply worker_advances; [done|done|exact Hk|exact Hs|].
    destruct c as [g m ws u]. cbn [shared main_ workers] in *. apply (potential_rank _ _ _ _ _ v); [done|done|].
    by rewrite Hm. }
  assert (∀ k v, workers c !! k = Some v → waiting v = None) as Hnone.
  { intros k v Hk. destruct (waiting v) as [t|] eqn:E; [|done].
    assert (t ∈ omap waiting (workers c)) as Hin
      by (apply list_elem_of_omap; exists v; split; [by eapply list_elem_of_lookup_2|done]).
    rewrite Hw in Hin. by apply not_elem_of_nil in Hin. }
  assert (∀ k v, workers c !! k = Some v → v ≠ WCheck → v ≠ WEnd → (v = WLock → m_mtx (shared c) = None) →
    advances c) as Hgo.
  { intros k v Hk Hc He Hl. destruct (inv_workers _ HI _ _ Hk) as [_ Hok]. pose proof (Hnone _ _ Hk) as Hn.
    destruct v as [| | | |t|[t|]| |t|t r|]; try done; cbn in Hok.
    - eapply (Hstep k WLock); [done|cbn; by rewrite (Hl eq_refl)|done|cbn; lia].
    - eapply (Hstep k WEmpty); [done|cbn; by rewrite Hq|done|cbn; lia].
    - by rewrite Hq in Hok.
    - eapply (Hstep k (WUnlock None)); [done|done|done|cbn; lia].
    - eapply (Hstep k WSleep); [done|done|done|cbn; lia].
    - destruct (decide (futures (shared c) !! t = Some None)) as [Ht|Ht]; [by eapply set_advances|].
      eapply (Hstep k (WSet t r)); [done|done|by eapply set_again|]. cbn [rank].
      rewrite bool_decide_false by done. lia. }
  destruct (m_mtx (shared c)) as [k|] eqn:Em.
  - destruct (holder c k HI Em) as (v & Hk & Hl & Hc & Hcr). eapply Hgo; [exact Hk|done| |done]. by intros ->.
  - destruct (decide (w = WCheck)) as [->|Hc]; [|by eapply Hgo].
    eapply (Hstep i WCheck); [done| |done|].
    + cbn. rewrite Hst, lookup_app_l by (rewrite length_replicate; lia).
      rewrite lookup_replicate_2 by lia. done.
    + cbn. lia.
Qed.

(** ** The end *)

(** Exceptions are only thrown by tasks whose [get] is inside a [try]. *)
Definition all_guarded : Prop := ∀ t what, bodies !! t = Some (ThrowTask what) → guarded !! t = Some true.

(** What [main] has printed at the end, and what the workers have. *)
Definition pool_ended (c : pool_config) : Prop :=
  main_ c = MDone ∧ ran (shared c) ≡ₚ seq 0 n ∧
  main_lines (out (shared c)) = handled n ++ [ValueIs (assigned (ran (shared c)))] ∧
  count printing (out (shared c)) = count is_print (seq 0 n).

Lemma pool_ends c : pool_inv c → main_ c = MDone → pool_ended c.
Proof.
  intros HI Hm. pose proof (inv_main _ HI) as HM. rewrite Hm in HM. destruct HM as (Ha & Ho).
  destruct (all_ready c HI Ha) as (Hp & _). unfold pool_ended. split_ands; [done|done| |].
  - by rewrite <- (inv_value _ HI).
  - rewrite (inv_prints _ HI). unfold count. by rewrite Hp.
Qed.

Lemma pool_advances c :
  pool_inv c → all_guarded → undefined c = false → workers c ≠ [] → main_ c = MDone ∨ advances c.
Proof.
  intros HI Hg Hu HW. destruct (main_step bodies guarded (shared c) (workers c) (main_ c)) as [[g' m']|] eqn:Hs;
    [right; by eapply main_advances|].
  pose proof (inv_main _ HI) as HM. destruct (main_ c) as [i|i|i|what i| |i|i| |] eqn:Hm; cbn in Hs; try done.
  - right. case_bool_decide as Hi; [|done]. eapply get_advances; try done.
    destruct (lookup_lt_is_Some_2 (futures (shared c)) i) as [[[]|] Hf]; [by rewrite (inv_length _ HI)|..];
      by rewrite Hf in Hs.
  - by case_bool_decide.
  - right. case_bool_decide as He; [done|]. destruct HM as (_ & _ & _ & Hi).
    destruct (lookup_lt_is_Some_2 _ _ Hi) as [w Hw]. eapply join_advances; try done. by intros ->.
  - by left.
  - destruct HM as (t & what & Hb & Hn). by apply Hg in Hb.
Qed.

Lemma pool_step_workers a c c' :
  pool_step bodies guarded a c = Some c' → length (workers c') = length (workers c).
Proof.
  unfold pool_step. destruct (undefined c); [done|]. destruct a as [|i].
  - by destruct (main_step _ _ _ _ _) as [[? ?]|]; intros; simplify_eq/=.
  - destruct (workers c !! i); [|done]. cbn [mbind option_bind].
    destruct (pool_worker_step _ _ _ _) as [[? ?]|]; cbn [mbind option_bind]; intros; simplify_eq/=.
    apply length_insert.
Qed.

Lemma pool_can_end c :
  pool_inv c → all_guarded → undefined c = false → workers c ≠ [] →
  ∃ c', reach (pool_step bodies guarded) c c' ∧ undefined c' = false ∧ pool_ended c'.
Proof.
  intros HI Hg Hu HW. remember (potential c) as p eqn:Ep. revert c HI Hu HW Ep.
  induction (lt_wf p) as [p _ IH]. intros c HI Hu HW ->.
  destruct (pool_advances c HI Hg Hu HW) as [Hd|(a & c1 & Hs & Hu1 & Hlt)].
  { exists c. split_ands; [constructor|done|by apply pool_ends]. }
  assert (pool_inv c1) as HI1 by (destruct a; eauto using pool_main_preserves, pool_worker_preserves).
  assert (workers c1 ≠ []) as HW1.
  { intros E%(f_equal length). rewrite (pool_step_workers _ _ _ Hs) in E. by destruct (workers c). }
  destruct (IH _ Hlt c1 HI1 Hu1 HW1 eq_refl) as (c' & Hr & Hu' & He).
  exists c'. split; [|done]. eapply reach_trans; [|exact Hr]. eapply reach_step; [constructor|exact Hs].
Qed.

End pool.

(** The variable after all tasks, when they agree on its value. *)
Lemma assigned_unique bodies v log :
  (∀ t v', t ∈ log → bodies !! t = Some (AssignTask v') → v' = v) →
  (∃ t, t ∈ log ∧ bodies !! t = Some (AssignTask v)) → assigned bodies log = v.
Proof.
  unfold assigned. induction log as [|t log IH] using rev_ind; intros Hu (t' & Hin & Hb).
  - by apply not_elem_of_nil in Hin.
  - rewrite foldl_app. simpl. destruct (bodies !! t) as [[| |v']|] eqn:E.
    3: { apply (Hu t); [set_solver|done]. }
    all: apply IH; [intros x v' Hx; apply (Hu x); set_solver|].
    all: exists t'; split; [|done]; apply elem_of_app in Hin as [|Hin]; [done|];
      apply list_elem_of_singleton in Hin as ->; congruence.
Qed.

(** The race stops the machine inside [Submit]. *)
Lemma race_in_submit bodies guarded W c :
  reach (pool_step bodies guarded) (pool_init bodies W) c → undefined c = true → ∃ t, main_ c = MEmplace t.
Proof.
  intros Hr. induction Hr as [|a c1 c2 _ IH Hs]; [done|]. unfold pool_step in Hs.
  destruct (undefined c1); [done|]. destruct a as [|i].
  - destruct (main_step _ _ _ _ _) as [[g m]|]; by simplify_eq/=.
  - destruct (workers c1 !! i) as [w|]; [|done]. cbn in Hs.
    destruct (pool_worker_step _ _ _ _) as [[g w']|]; [|done]. simplify_eq/=. destruct (main_ c1); eauto; done.
Qed.

(** * Properties *)

(** C22: The thread pool of packaged_task.cpp up to the race of [Submit].  For any tasks,
    any number of workers and every reachable state: a race, that is a worker using the
    list while the unprotected [emplace_back] of [Submit] is under way, can only have
    happened while [main] submits; and as long as it has not happened, no task has been
    run twice, a future is ready only with the result of its own task, which has run, at
    most one worker is inside the locked region, and the list holds the tasks submitted
    last, in the order of their submission. *)
Theorem pool_runs_once bodies guarded W c :
  reach (pool_step bodies guarded) (pool_init bodies W) c →
  (undefined c = true → ∃ t, main_ c = MEmplace t) ∧
  (undefined c = false →
   NoDup (ran (shared c)) ∧
   (∀ t r, futures (shared c) !! t = Some (Some r) → t ∈ ran (shared c) ∧ result_of bodies t = Some r) ∧
   (∀ i j v w, workers c !! i = Some v → workers c !! j = Some w →
      critical v = true → critical w = true → i = j) ∧
   ∃ first, m_tasks (shared c) = seq first (length (m_tasks (shared c))) ∧
     (first + length (m_tasks (shared c)) = submitted bodies (main_ c))%nat).
Proof.
  intros Hr. split; [by eapply race_in_submit|]. intros _. pose proof (pool_reach _ _ _ _ Hr) as HI. split_ands.
  - pose proof (NoDup_seq 0 (length bodies)) as Hnd. rewrite <- (inv_once _ _ _ HI) in Hnd.
    by apply list.NoDup_app in Hnd as [? _].
  - apply (inv_futures _ _ _ HI).
  - intros i j v w Hi Hj Hv Hw. destruct (inv_workers _ _ _ HI _ _ Hi) as [Ei _].
    destruct (inv_workers _ _ _ HI _ _ Hj) as [Ej _]. rewrite Ei in Ej by done. by injection (Ej Hw).
  - destruct (inv_queue _ _ _ HI) as [Hl Hq]. eexists. split; [exact Hq|lia].
Qed.

(** Two of four tasks are run at once. *)
Definition two_at_once : list pool_thread :=
  replicate 9 Main ++ replicate 6 (Worker 0) ++ replicate 6 (Worker 1) ++ [Worker 0].

Lemma pool_runs_once_witness :
  ∃ c, run (pool_step main_bodies main_guarded) two_at_once (pool_init main_bodies 3) = Some c ∧
    workers c = [WSet 0 Finished; WRun 1; WCheck] ∧ NoDup (ran (shared c)).
Proof.
  assert (∃ c, run (pool_step main_bodies main_guarded) two_at_once (pool_init main_bodies 3) = Some c ∧
    workers c = [WSet 0 Finished; WRun 1; WCheck]) as (c & Hc & Hw)
    by (eexists; split; [vm_compute; reflexivity|reflexivity]).
  exists c. split; [exact Hc|]. split; [exact Hw|].
  refine (proj1 (proj2 (pool_runs_once main_bodies main_guarded 3 c (run_reach _ _ _ _ Hc)) _)).
  vm_compute in Hc. injection Hc as <-. reflexivity.
Defined.

(** C21: The program packaged_task.cpp, with any number of workers.  From
    every reachable state without a race on the list the end can be reached, so
    that no task and no [get] is ever stuck; and whenever [main] ends it has printed
    the text of the third task's exception and the value 42, and the two tasks that
    print have printed. *)
Theorem pool_main_ends W c :
  (0 < W)%nat → reach (pool_step main_bodies main_guarded) (pool_init main_bodies W) c →
  (undefined c = false →
   ∃ c', reach (pool_step main_bodies main_guarded) c c' ∧ main_ c' = MDone ∧ undefined c' = false) ∧
  (main_ c = MDone →
   main_lines (out (shared c)) = [Caught "Exception in task!"; ValueIs 42] ∧
   count printing (out (shared c)) = 2%nat).
Proof.
  intros HW Hr. pose proof (pool_reach _ _ _ _ Hr) as HI. split.
  - intros Hu. destruct (pool_can_end main_bodies main_guarded c HI) as (c' & Hr' & Hu' & He); [|done| |].
    + by intros [|[|[|[|t]]]] what Hb; simplify_eq/=.
    + assert (length (workers c) = W) as El.
      { clear HW HI Hu. induction Hr as [|a c1 c2 _ IH Hs]; [apply length_replicate|].
        by rewrite (pool_step_workers _ _ _ _ _ Hs). }
      intros E. rewrite E in El. simpl in El. lia.
    + exists c'. split_ands; [done|by destruct He|done].
  - intros Hd. destruct (pool_ends _ _ _ HI Hd) as (_ & Hp & Ho & Hc). rewrite Ho, Hc.
    split; [|reflexivity]. cbn. do 3 f_equal. apply assigned_unique.
    + intros [|[|[|[|t]]]] v _ Hb; by simplify_eq/=.
    + exists 3%nat. split; [|done]. rewrite Hp. cbn. set_solver.
Qed.

(** With three workers, from the start. *)
Lemma pool_main_ends_witness :
  ∃ c', reach (pool_step main_bodies main_guarded) (pool_init main_bodies 3) c' ∧ main_ c' = MDone ∧
    undefined c' = false.
Proof.
  refine (proj1 (pool_main_ends 3 (pool_init main_bodies 3) _ (reach_refl _ _)) _); [lia|reflexivity].
Defined.

(** [Submit] races with the workers.  It works on the list without the
    mutex: while it is inside [emplace_back] a worker that holds the mutex can test,
    read or pop the same list. *)
Theorem pool_submit_races :
  ∃ c, reach (pool_step main_bodies main_guarded) (pool_init main_bodies 3) c ∧ undefined c = true ∧
    main_ c = MEmplace 1 ∧ workers c !! 0%nat = Some (WUnlock (Some 0%nat)).
Proof.
  eexists. split; [eapply run_reach with
    (sched := [Main; Main] ++ replicate 4 (Worker 0) ++ [Main; Worker 0]); vm_compute; reflexivity|].
  split_ands; reflexivity.
Qed.
