(* ===== verification/Barriers.v ===== *)
(** synchronization_primitives/barrier/barrier.cpp and latch.cpp: workers that meet
    at a [std::barrier], and a [main] that waits for workers at a [std::latch].

    The barrier counts arrivals; the last one runs the completion function and
    starts the next phase, which releases the others.  One step is one line printed,
    one arrival, one completion, or the return from a wait.  For any number of
    workers and rounds the lines of a round are all there before the completion's
    line, and no line of the next round comes before it. *)

From S2P Require Import Prelude Machine.
From stdpp Require Import options.

(** * The barrier *)

Module Barrier.

(** The line of a worker in a round ("finished", then "finished cleaning up"), and
    the line of the completion function. *)
Inductive line := Line (round worker : nat) | Reached.

(** [std::barrier]: the arrivals still expected in this phase, the number of phases
    completed; and the output. *)
Record barrier := BarrierState { remaining : nat; phase : nat; out : list line }.

(** A worker in a round: at its line, at the arrival, running the completion
    function, waiting for the phase; at its end. *)
Inductive barrier_worker :=
  | Print (round : nat)
  | Arrive (round : nat)
  | Complete (round : nat)
  | Wait (round : nat)
  | Done.

Section barrier.
Context (WorkersCount rounds : nat).

(** [arrive_and_wait] is [Arrive], for the last one [Complete], and [Wait]. *)
Definition barrier_worker_step (i : nat) (_ : unit) (g : barrier) (w : barrier_worker) : option (barrier * barrier_worker) :=
  match w with
  | Print r => Some (BarrierState (remaining g) (phase g) (out g ++ [Line r i]), Arrive r)
  | Arrive r =>
      let left_ := pred (remaining g) in
      Some (BarrierState left_ (phase g) (out g),
            if bool_decide (left_ = 0) then Complete r else Wait r)
  | Complete r => Some (BarrierState WorkersCount (S (phase g)) (out g ++ [Reached]), Wait r)
  | Wait r =>
      if bool_decide (r < phase g)
      then Some (g, if bool_decide (S r < rounds) then Print (S r) else Done) else None
  | Done => None
  end.

Definition barrier_step : act unit → conf barrier barrier_worker → option (conf barrier barrier_worker) :=
  conf_step barrier_worker_step.

(** The workers of [main], which do [rounds] rounds. *)
Definition barrier_main : conf barrier barrier_worker :=
  Conf (BarrierState WorkersCount 0 []) (replicate WorkersCount (if bool_decide (0 < rounds) then Print 0 else Done)).

(** ** The invariant *)

(** The output of the phases in which the workers printed in the orders [past],
    and of the workers [now] in the current one. *)
Fixpoint transcript_from (r : nat) (past : list (list nat)) : list line :=
  match past with
  | [] => []
  | order :: past' => (Line r <$> order) ++ Reached :: transcript_from (S r) past'
  end.

Definition transcript (past : list (list nat)) : list line := transcript_from 0 past.

(** Whether a worker has printed, and arrived, in the phase [p]. *)
Definition has_printed (p : nat) (w : barrier_worker) : bool :=
  match w with
  | Print _ | Done => false
  | Arrive _ | Complete _ => true
  | Wait r => bool_decide (r = p)
  end.

Definition has_arrived (p : nat) (w : barrier_worker) : bool :=
  match w with Complete _ => true | Wait r => bool_decide (r = p) | _ => false end.

Definition is_complete (w : barrier_worker) : bool := match w with Complete _ => true | _ => false end.

Definition in_phase (p : nat) (w : barrier_worker) : Prop :=
  match w with
  | Print r | Arrive r | Complete r => r = p ∧ p < rounds
  | Wait r => r = p ∧ p < rounds ∨ S r = p ∧ p ≤ rounds
  | Done => p = rounds
  end.

Record barrier_inv (c : conf barrier barrier_worker) (past : list (list nat)) (now : list nat) : Prop := {
  inv_length : length (threads c) = WorkersCount;
  inv_phase : Forall (in_phase (phase (shared c))) (threads c);
  inv_count : remaining (shared c) + count (has_arrived (phase (shared c))) (threads c) = WorkersCount;
  inv_complete : count is_complete (threads c) = Nat.b2n (bool_decide (remaining (shared c) = 0));
  inv_past : length past = phase (shared c) ∧ Forall (λ order, order ≡ₚ seq 0 WorkersCount) past;
  inv_out : out (shared c) = transcript past ++ (Line (phase (shared c)) <$> now);
  inv_now : NoDup now ∧ ∀ i, i ∈ now ↔
    ∃ w, threads c !! i = Some w ∧ has_printed (phase (shared c)) w = true }.

Lemma rounds_snoc r past order :
  transcript_from r (past ++ [order]) =
  transcript_from r past ++ (Line (r + length past) <$> order) ++ [Reached].
Proof.
  revert r. induction past as [|o past IH]; intros r; simpl.
  - by rewrite Nat.add_0_r.
  - rewrite IH, <- !app_assoc. simpl. by rewrite Nat.add_succ_r.
Qed.

(** The membership of [now] when one worker moves. *)
Lemma now_insert p p' (ws : list barrier_worker) i w w' (now : list nat) :
  (∀ j, j ∈ now ↔ ∃ v, ws !! j = Some v ∧ has_printed p v = true) →
  ws !! i = Some w → has_printed p' w' = has_printed p w → (∀ j v, ws !! j = Some v → j ≠ i →
    has_printed p' v = has_printed p v) →
  ∀ j, j ∈ now ↔ ∃ v, <[i:=w']> ws !! j = Some v ∧ has_printed p' v = true.
Proof.
  intros Hn Hi Hw Hs j. rewrite Hn. destruct (decide (j = i)) as [->|Hne].
  - rewrite list_lookup_insert_eq by (by eapply lookup_lt_Some). rewrite Hi. split.
    + intros (v & [= <-] & Hv). exists w'. by rewrite Hw.
    + intros (v & [= <-] & Hv). exists w. by rewrite <- Hw.
  - rewrite list_lookup_insert_ne by done. split; intros (v & Hv & Hp); exists v; split; try done;
      [by rewrite (Hs j)|by rewrite <- (Hs j v)].
Qed.

Lemma step_print c past now i r :
  barrier_inv c past now → threads c !! i = Some (Print r) →
  barrier_inv (Conf (BarrierState (remaining (shared c)) (phase (shared c)) (out (shared c) ++ [Line r i]))
                 (<[i:=Arrive r]> (threads c))) past (now ++ [i]).
Proof.
  intros HI Hi. pose proof (proj1 (Forall_lookup _ _) (inv_phase _ _ _ HI) _ _ Hi) as [-> Hlt].
  destruct (inv_now _ _ _ HI) as [Hnd Hn].
  constructor; cbn [shared threads remaining phase out]; try apply HI.
  - rewrite length_insert. apply HI.
  - apply Forall_insert; [apply HI|done].
  - pose proof (count_insert (has_arrived (phase (shared c))) _ _ _ (Arrive (phase (shared c))) Hi) as H.
    pose proof (inv_count _ _ _ HI). simpl in H. lia.
  - pose proof (count_insert is_complete _ _ _ (Arrive (phase (shared c))) Hi) as H. simpl in H.
    rewrite <- (inv_complete _ _ _ HI). lia.
  - by rewrite (inv_out _ _ _ HI), fmap_app, <- app_assoc.
  - assert (i ∉ now) as Hi' by (rewrite Hn; intros (w & Hw & Hp); by simplify_eq/=).
    split; [apply list.NoDup_app; split_ands; [done|set_solver|apply NoDup_singleton]|].
    intros j. rewrite elem_of_app, Hn, list_elem_of_singleton. destruct (decide (j = i)) as [->|Hne].
    + rewrite list_lookup_insert_eq by (by eapply lookup_lt_Some). split; [by eauto|by right].
    + rewrite list_lookup_insert_ne by done. split; [by intros [|]|by left].
Qed.

Lemma step_arrive c past now i r :
  barrier_inv c past now → threads c !! i = Some (Arrive r) →
  barrier_inv (Conf (BarrierState (pred (remaining (shared c))) (phase (shared c)) (out (shared c)))
     (<[i:=if bool_decide (pred (remaining (shared c)) = 0) then Complete r else Wait r]> (threads c))) past now.
Proof.
  intros HI Hi. pose proof (proj1 (Forall_lookup _ _) (inv_phase _ _ _ HI) _ _ Hi) as [-> Hlt].
  set (p := phase (shared c)) in *. destruct (inv_now _ _ _ HI) as [Hnd Hn]. pose proof (inv_count _ _ _ HI) as Hc.
  pose proof (inv_complete _ _ _ HI) as Hcc.
  set (w' := if bool_decide (pred (remaining (shared c)) = 0) then Complete p else Wait p).
  assert (has_arrived p w' = true ∧ has_printed p w' = true ∧ in_phase p w') as (Ha & Hpr & Hph).
  { unfold w'. destruct (bool_decide (pred _ = 0)); cbn; rewrite ?bool_decide_true by done; auto. }
  pose proof (count_insert (has_arrived p) _ _ _ w' Hi) as H1. rewrite Ha in H1. simpl in H1.
  pose proof (count_insert is_complete _ _ _ w' Hi) as H2. simpl in H2.
  assert (remaining (shared c) ≠ 0) as Hr.
  { intros E. rewrite E in Hc. simpl in Hc.
    pose proof (count_all _ _ _ _ (eq_trans Hc (eq_sym (inv_length _ _ _ HI))) Hi). done. }
  rewrite bool_decide_false in Hcc by done. simpl in Hcc.
  constructor; cbn [shared threads remaining phase out]; try apply HI.
  - rewrite length_insert. apply HI.
  - by apply Forall_insert; [apply HI|].
  - fold p in Hc |- *. lia.
  - unfold w' in *. case_bool_decide; simpl in *; lia.
  - split; [done|]. by eapply now_insert.
Qed.

Lemma step_complete c past now i r :
  barrier_inv c past now → threads c !! i = Some (Complete r) →
  barrier_inv (Conf (BarrierState WorkersCount (S (phase (shared c))) (out (shared c) ++ [Reached]))
     (<[i:=Wait r]> (threads c))) (past ++ [now]) [].
Proof.
  intros HI Hi. pose proof (proj1 (Forall_lookup _ _) (inv_phase _ _ _ HI) _ _ Hi) as [-> Hlt].
  set (p := phase (shared c)) in *. destruct (inv_now _ _ _ HI) as [Hnd Hn]. pose proof (inv_count _ _ _ HI) as Hc.
  pose proof (inv_complete _ _ _ HI) as Hcc. destruct (inv_past _ _ _ HI) as [Hl Hp].
  pose proof (count_pos is_complete _ _ _ Hi eq_refl) as H1.
  case_bool_decide as Hr; simpl in Hcc; [|lia]. rewrite Hr in Hc. simpl in Hc.
  assert (∀ j w, threads c !! j = Some w → has_arrived p w = true) as Hall.
  { intros j w Hj. eapply count_all; [|done]. by rewrite (inv_length _ _ _ HI). }
  assert (∀ j w, <[i:=Wait p]> (threads c) !! j = Some w → w = Wait p) as Hwait.
  { intros j w [[-> ->]|[Hne Hj]]%list_lookup_insert_Some'; [done|]. specialize (Hall _ _ Hj).
    destruct w; try done; cbn in Hall.
    - destruct Hne. eapply (count_unique is_complete); [|done..]. lia.
    - by apply bool_decide_eq_true in Hall as ->. }
  assert (threads (Conf (shared c) (<[i:=Wait p]> (threads c))) = replicate WorkersCount (Wait p)) as Er.
  { cbn. symmetry. apply replicate_as_elem_of. rewrite length_insert. split; [apply HI|].
    intros w [j Hj]%list_elem_of_lookup_1. by eapply Hwait. }
  cbn in Er. rewrite Er. constructor; cbn [shared threads remaining phase out].
  - apply length_replicate.
  - apply Forall_replicate. cbn. right. lia.
  - rewrite count_replicate. cbn. rewrite bool_decide_false by lia. simpl. lia.
  - rewrite count_replicate. cbn. rewrite bool_decide_false; [simpl; lia|].
    apply lookup_lt_Some in Hi. rewrite (inv_length _ _ _ HI) in Hi. lia.
  - rewrite length_app, Hl. split; [simpl; lia|]. apply Forall_app. split; [done|]. constructor; [|done].
    apply NoDup_Permutation; [done|apply NoDup_seq|]. intros j. rewrite Hn, elem_of_seq. split.
    + intros (w & Hw%lookup_lt_Some & _). rewrite (inv_length _ _ _ HI) in Hw. lia.
    + intros [_ Hj]. destruct (lookup_lt_is_Some_2 (threads c) j) as [w Hw]; [by rewrite (inv_length _ _ _ HI)|].
      exists w. split; [done|]. specialize (Hall _ _ Hw). by destruct w.
  - rewrite (inv_out _ _ _ HI). unfold transcript. rewrite rounds_snoc, Hl. cbn. by rewrite app_nil_r, <- app_assoc.
  - split; [constructor|]. intros j. split; [by intros ?%not_elem_of_nil|].
    intros (w & [-> _]%lookup_replicate & Hw). cbn in Hw. apply bool_decide_eq_true in Hw. lia.
Qed.

Lemma step_wait c past now i r :
  barrier_inv c past now → threads c !! i = Some (Wait r) → r < phase (shared c) →
  barrier_inv (Conf (shared c) (<[i:=if bool_decide (S r < rounds) then Print (S r) else Done]> (threads c))) past now.
Proof.
  intros HI Hi Hlt. pose proof (proj1 (Forall_lookup _ _) (inv_phase _ _ _ HI) _ _ Hi) as Hph.
  destruct Hph as [[-> _]|[Hr Hrd]]; [lia|]. destruct (inv_now _ _ _ HI) as [Hnd Hn].
  set (w' := if bool_decide (S r < rounds) then Print (S r) else Done).
  assert (has_arrived (phase (shared c)) w' = false ∧ is_complete w' = false ∧
    has_printed (phase (shared c)) w' = false ∧ in_phase (phase (shared c)) w') as (Ha & Hcm & Hpr & Hph).
  { unfold w'. case_bool_decide; cbn; split_ands; done || lia. }
  pose proof (count_insert (has_arrived (phase (shared c))) _ _ _ w' Hi) as H1.
  pose proof (count_insert is_complete _ _ _ w' Hi) as H2. rewrite Ha in H1. rewrite Hcm in H2. simpl in H1, H2.
  rewrite (bool_decide_false (r = phase (shared c))) in H1 by lia. simpl in H1.
  pose proof (inv_count _ _ _ HI) as Hc. pose proof (inv_complete _ _ _ HI) as Hcc.
  constructor; cbn [shared threads]; try apply HI.
  - rewrite length_insert. apply HI.
  - by apply Forall_insert; [apply HI|].
  - lia.
  - lia.
  - split; [done|]. eapply now_insert; [done|done| |done]. cbn. by rewrite bool_decide_false by lia.
Qed.

Lemma barrier_preserves a c c' past now :
  barrier_inv c past now → barrier_step a c = Some c' → ∃ past' now', barrier_inv c' past' now'.
Proof.
  intros HI (w & g' & w' & Hi & Hs & ->)%conf_step_inv. destruct w as [r|r|r|r|]; cbn [barrier_worker_step] in Hs.
  - simplify_eq. eexists _, _. by apply step_print.
  - simplify_eq. eexists _, _. by apply step_arrive.
  - simplify_eq. eexists _, _. by eapply step_complete.
  - case_bool_decide; simplify_eq. eexists _, _. by apply step_wait.
  - done.
Qed.

(** ** Progress and termination *)

(** The worker that moves next: one that prints, arrives or completes; if all
    wait, one of a phase that is over. *)
Lemma barrier_progress c past now :
  barrier_inv c past now →
  (∃ a c', barrier_step a c = Some c') ∨ Forall (λ w, w = Done) (threads c).
Proof.
  intros HI. destruct (Forall_or_witness (λ w, match w with Done => true | _ => false end) (threads c))
    as [HD|(i & w & Hi & Hw)]; [right; eapply Forall_impl; [|exact HD]; by intros []|left].
  destruct (Forall_or_witness (λ w, match w with Print _ | Arrive _ | Complete _ => false | _ => true end) (threads c))
    as [HB|(j & v & Hj & Hv)].
  - pose proof (proj1 (Forall_lookup _ _) HB _ _ Hi) as Hb. destruct w as [| | |r|]; try done.
    pose proof (proj1 (Forall_lookup _ _) (inv_phase _ _ _ HI) _ _ Hi) as Hp. cbn in Hp.
    destruct (decide (r < phase (shared c))) as [Hlt|Hge].
    { exists (Act i tt). apply (conf_step_enabled _ _ _ _ _ Hi). cbn. rewrite bool_decide_true by done. eauto. }
    assert (r = phase (shared c)) as -> by lia. destruct Hp as [[_ Hlt]|]; [|lia].
    destruct (Forall_or_witness (has_arrived (phase (shared c))) (threads c)) as [HA|(j & v & Hj & Hv)].
    2: { pose proof (proj1 (Forall_lookup _ _) HB _ _ Hj) as Hb'.
      pose proof (proj1 (Forall_lookup _ _) (inv_phase _ _ _ HI) _ _ Hj) as Hp'.
      destruct v as [| | |r|]; try done; cbn in Hp'; [|lia]. cbn in Hv. apply bool_decide_eq_false in Hv.
      exists (Act j tt). apply (conf_step_enabled _ _ _ _ _ Hj). cbn. rewrite bool_decide_true by lia. eauto. }
    exfalso. assert (count is_complete (threads c) = 0) as H0.
    { destruct (decide (1 ≤ count is_complete (threads c))) as [(k & v & Hk & Hv)%count_witness|]; [|lia].
      pose proof (proj1 (Forall_lookup _ _) HB _ _ Hk). by destruct v. }
    pose proof (inv_count _ _ _ HI) as Hc. rewrite (count_Forall _ _ HA), (inv_length _ _ _ HI) in Hc.
    rewrite (inv_complete _ _ _ HI), bool_decide_true in H0 by lia. done.
  - exists (Act j tt). apply (conf_step_enabled _ _ _ _ _ Hj). destruct v; try done; cbn; eauto.
Qed.

Definition worker_left (w : barrier_worker) : nat :=
  match w with
  | Print r => 4 * (rounds - r)
  | Arrive r => 4 * (rounds - r) - 1
  | Complete r => 4 * (rounds - r) - 2
  | Wait r => 4 * (rounds - r) - 3
  | Done => 0
  end.

Definition work (c : conf barrier barrier_worker) : nat := sum_list_with worker_left (threads c).

Lemma barrier_work_step a c c' past now :
  barrier_inv c past now → barrier_step a c = Some c' → work c' < work c.
Proof.
  intros HI (w & g' & w' & Hi & Hs & ->)%conf_step_inv. unfold work. cbn [threads].
  pose proof (sum_insert worker_left _ _ _ w' Hi) as H.
  pose proof (proj1 (Forall_lookup _ _) (inv_phase _ _ _ HI) _ _ Hi) as Hp.
  enough (worker_left w' < worker_left w) by lia. clear H.
  destruct w as [r|r|r|r|]; cbn [barrier_worker_step] in Hs; cbn in Hp; simplify_eq/=; try lia.
  - case_bool_decide; simpl; lia.
  - case_bool_decide; simplify_eq. case_bool_decide; simpl; lia.
Qed.

Lemma barrier_start : 0 < WorkersCount → barrier_inv barrier_main [] [].
Proof.
  intros HW. unfold barrier_main.
  assert (∀ w, (w = Print 0 ∧ 0 < rounds ∨ w = Done ∧ rounds = 0) →
    barrier_inv (Conf (BarrierState WorkersCount 0 []) (replicate WorkersCount w)) [] []) as H.
  { intros w Hw. constructor; cbn [shared threads remaining phase out].
    - apply length_replicate.
    - apply Forall_replicate. destruct Hw as [[-> ?]|[-> ->]]; done.
    - rewrite count_replicate. destruct Hw as [[-> _]|[-> _]]; simpl; lia.
    - rewrite count_replicate, bool_decide_false by lia. destruct Hw as [[-> _]|[-> _]]; simpl; lia.
    - by split.
    - done.
    - split; [constructor|]. intros i. split; [by intros ?%not_elem_of_nil|].
      intros (v & [-> _]%lookup_replicate & Hv). by destruct Hw as [[-> _]|[-> _]]. }
  apply H. case_bool_decide; [by left|right]. split; [done|lia].
Qed.

Lemma barrier_reach c :
  0 < WorkersCount → reach barrier_step barrier_main c → ∃ past now, barrier_inv c past now.
Proof.
  intros HW. apply (reach_inv _ (λ c, ∃ past now, barrier_inv c past now)).
  - eexists _, _. by apply barrier_start.
  - intros a c1 c2 (past & now & HI) Hs. by eapply barrier_preserves.
Qed.

(** At the end all rounds are over. *)
Lemma barrier_end c past now :
  0 < WorkersCount → barrier_inv c past now → Forall (λ w, w = Done) (threads c) →
  length past = rounds ∧ Forall (λ order, order ≡ₚ seq 0 WorkersCount) past ∧
  out (shared c) = transcript past.
Proof.
  intros HW HI HD. destruct (inv_past _ _ _ HI) as [Hl Hp]. destruct (inv_now _ _ _ HI) as [_ Hn].
  assert (now = []) as ->.
  { destruct now as [|i now]; [done|]. destruct (proj1 (Hn i) ltac:(by left)) as (w & Hw & Hpr).
    pose proof (proj1 (Forall_lookup _ _) HD _ _ Hw) as ->. done. }
  rewrite (inv_out _ _ _ HI), app_nil_r. split_ands; try done.
  destruct (lookup_lt_is_Some_2 (threads c) 0) as [w Hw]; [rewrite (inv_length _ _ _ HI); lia|].
  pose proof (proj1 (Forall_lookup _ _) HD _ _ Hw) as ->.
  pose proof (proj1 (Forall_lookup _ _) (inv_phase _ _ _ HI) _ _ Hw) as E. cbn in E. by rewrite Hl.
Qed.

End barrier.

(** C30: The barrier separates the rounds.  For any number of workers and
    rounds and every interleaving, no schedule is longer than four steps for each
    worker and round, and a run that cannot go on has ended with the output of the
    rounds one after the other: in each, a line of every worker, in some order, and
    then one line of the completion function. *)
Theorem barrier_separates WorkersCount rounds c :
  0 < WorkersCount → reach (barrier_step WorkersCount rounds) (barrier_main WorkersCount rounds) c →
  terminates_within (barrier_step WorkersCount rounds) (WorkersCount * (4 * rounds))
    (barrier_main WorkersCount rounds) ∧
  ((∃ a c', barrier_step WorkersCount rounds a c = Some c') ∨
   ∃ orders, length orders = rounds ∧ Forall (λ order, order ≡ₚ seq 0 WorkersCount) orders ∧
     out (shared c) = transcript orders).
Proof.
  intros HW Hr. destruct (barrier_reach _ _ _ HW Hr) as (past & now & HI). split.
  - assert (work rounds (barrier_main WorkersCount rounds) = WorkersCount * (4 * rounds)) as <-.
    { unfold work, barrier_main. cbn [threads]. clear. induction WorkersCount as [|W IH]; [done|].
      rewrite replicate_S. cbn [sum_list_with]. rewrite IH. case_bool_decide; simpl; lia. }
    apply (measure_terminates _ (λ c, ∃ past now, barrier_inv WorkersCount rounds c past now) (work rounds)).
    + eexists _, _. by apply barrier_start.
    + intros a c1 c2 (p1 & n1 & HI1) Hs. split; [by eapply barrier_preserves|by eapply barrier_work_step].
  - destruct (barrier_progress _ _ _ _ _ HI) as [|HD]; [by left|right].
    exists past. by eapply barrier_end.
Qed.

(** barrier.cpp has three workers and two rounds; here worker 2 is the first and
    worker 0 the last in the first round. *)
Lemma barrier_separates_witness :
  ∃ c, run (barrier_step 3 2)
      ((λ i, Act i tt) <$> [2; 2; 1; 1; 0; 0; 0; 0; 1; 2; 0; 0; 1; 1; 2; 2; 2; 0; 1; 2])
      (barrier_main 3 2) = Some c ∧
    out (shared c) = [Line 0 2; Line 0 1; Line 0 0; Reached; Line 1 0; Line 1 1; Line 1 2; Reached] ∧
    terminates_within (barrier_step 3 2) 24 (barrier_main 3 2).
Proof.
  assert (∃ c, run (barrier_step 3 2)
      ((λ i, Act i tt) <$> [2; 2; 1; 1; 0; 0; 0; 0; 1; 2; 0; 0; 1; 1; 2; 2; 2; 0; 1; 2])
      (barrier_main 3 2) = Some c ∧
    out (shared c) = [Line 0 2; Line 0 1; Line 0 0; Reached; Line 1 0; Line 1 1; Line 1 2; Reached])
    as (c & Hc & Ho) by (eexists; split; [vm_compute; reflexivity|reflexivity]).
  exists c. split; [exact Hc|]. split; [exact Ho|].
  refine (proj1 (barrier_separates 3 2 c _ (run_reach _ _ _ _ Hc))). lia.
Defined.

End Barrier.

(** * The latch *)

Module StdLatch.

(** The line of a worker, and the line of [main]. *)
Inductive line := Line (worker : nat) | AllFinished.

(** [std::latch], and the output. *)
Record std_latch := LatchState { counter : nat; out : list line }.

(** [main] at [wait], at its line, at the end; a worker at its line, at
    [count_down], at the end.  [main] is the thread 0, the workers are 1, 2, ... *)
Inductive latch_thread := MWait | MPrint | MDone | WPrint | WCountDown | WDone.

Definition latch_thread_step (i : nat) (_ : unit) (g : std_latch) (t : latch_thread) : option (std_latch * latch_thread) :=
  match t with
  | MWait => if bool_decide (counter g = 0) then Some (g, MPrint) else None
  | MPrint => Some (LatchState (counter g) (out g ++ [AllFinished]), MDone)
  | WPrint => Some (LatchState (counter g) (out g ++ [Line i]), WCountDown)
  | WCountDown => Some (LatchState (pred (counter g)) (out g), WDone)
  | MDone | WDone => None
  end.

Definition std_latch_step : act unit → conf std_latch latch_thread → option (conf std_latch latch_thread) := conf_step latch_thread_step.

Definition latch_main (WorkersCount : nat) : conf std_latch latch_thread :=
  Conf (LatchState WorkersCount []) (MWait :: replicate WorkersCount WPrint).

#[export] Instance latch_thread_eq_dec : EqDecision latch_thread.
Proof. solve_decision. Defined.

(** ** The invariant *)

Definition counts (t : latch_thread) : bool := match t with WPrint | WCountDown => true | _ => false end.

Definition has_printed (t : latch_thread) : bool := match t with WCountDown | WDone => true | _ => false end.

Definition is_main (t : latch_thread) : bool := match t with MWait | MPrint | MDone => true | _ => false end.

Record latch_inv (W : nat) (g : std_latch) (m : latch_thread) (ws : list latch_thread) (now : list nat) : Prop := {
  inv_length : length ws = W;
  inv_main : is_main m = true ∧ Forall (λ t, is_main t = false) ws;
  inv_counter : counter g = count counts ws;
  inv_waited : m ≠ MWait → counter g = 0;
  inv_out : out g = (Line <$> now) ++ match m with MDone => [AllFinished] | _ => [] end;
  inv_now : NoDup now ∧ ∀ i, i ∈ now ↔ ∃ j t, i = S j ∧ ws !! j = Some t ∧ has_printed t = true }.

Definition latch_ok (W : nat) (c : conf std_latch latch_thread) : Prop :=
  ∃ m ws now, threads c = m :: ws ∧ latch_inv W (shared c) m ws now.

Lemma latch_main_moves W g m ws now m' g' :
  latch_inv W g m ws now → latch_thread_step 0 tt g m = Some (g', m') → latch_inv W g' m' ws now.
Proof.
  intros HI Hs. destruct (inv_main _ _ _ _ _ HI) as [Hm Hws]. pose proof (inv_out _ _ _ _ _ HI) as Ho.
  destruct m; cbn in Hs; try done.
  - case_bool_decide; simplify_eq. constructor; try apply HI; done.
  - simplify_eq. constructor; cbn; try apply HI; try done.
    + intros _. by apply (inv_waited _ _ _ _ _ HI).
    + by rewrite Ho, app_nil_r.
Qed.

Lemma latch_worker_moves W g m ws now j t g' t' :
  latch_inv W g m ws now → ws !! j = Some t → latch_thread_step (S j) tt g t = Some (g', t') →
  ∃ now', latch_inv W g' m (<[j:=t']> ws) now'.
Proof.
  intros HI Hj Hs. destruct (inv_main _ _ _ _ _ HI) as [Hm Hws]. destruct (inv_now _ _ _ _ _ HI) as [Hnd Hn].
  pose proof (proj1 (Forall_lookup _ _) Hws _ _ Hj) as Ht. pose proof (inv_counter _ _ _ _ _ HI) as Hc.
  assert (counts t = true → m = MWait) as Hwait.
  { intros E. pose proof (count_pos counts _ _ _ Hj E). destruct (decide (m = MWait)) as [|Hne]; [done|].
    pose proof (inv_waited _ _ _ _ _ HI Hne). lia. }
  pose proof (count_insert counts _ _ _ t' Hj) as Hci.
  destruct t; cbn in Hs, Ht; try done; simplify_eq; cbn in Hci; specialize (Hwait eq_refl) as ->.
  - exists (now ++ [S j]). constructor; cbn; try apply HI; try done.
    + rewrite length_insert. apply HI.
    + split; [done|]. by apply Forall_insert.
    + lia.
    + rewrite (inv_out _ _ _ _ _ HI), fmap_app, !app_nil_r. done.
    + assert (S j ∉ now) as Hj' by (rewrite Hn; intros (k & u & [= <-] & Hu & Hp); by simplify_eq/=).
      split; [apply list.NoDup_app; split_ands; [done|set_solver|apply NoDup_singleton]|].
      intros i. rewrite elem_of_app, Hn, list_elem_of_singleton. split.
      * intros [(k & u & -> & Hu & Hp)| ->].
        -- exists k, u. rewrite list_lookup_insert_ne; [done|]. intros ->. by simplify_eq/=.
        -- exists j, WCountDown. by rewrite list_lookup_insert_eq by (by eapply lookup_lt_Some).
      * intros (k & u & -> & [[-> ->]|[Hne Hu]]%list_lookup_insert_Some' & Hp); [by right|left]. by exists k, u.
  - exists now. constructor; cbn; try apply HI; try done.
    + rewrite length_insert. apply HI.
    + split; [done|]. by apply Forall_insert.
    + lia.
    + split; [done|]. intros i. rewrite Hn. split.
      * intros (k & u & -> & Hu & Hp). destruct (decide (k = j)) as [->|Hne].
        -- exists j, WDone. by rewrite list_lookup_insert_eq by (by eapply lookup_lt_Some).
        -- exists k, u. by rewrite list_lookup_insert_ne.
      * intros (k & u & -> & [[-> ->]|[Hne Hu]]%list_lookup_insert_Some' & Hp); [by exists j, WCountDown|by exists k, u].
Qed.

Lemma std_latch_preserves W a c c' : latch_ok W c → std_latch_step a c = Some c' → latch_ok W c'.
Proof.
  intros (m & ws & now & Ec & HI) (t & g' & t' & Hi & Hs & ->)%conf_step_inv. rewrite Ec in *.
  destruct a as [[|j] []]; cbn in Hi, Hs |- *.
  - simplify_eq. exists t', ws, now. split; [done|]. by eapply latch_main_moves.
  - destruct (latch_worker_moves _ _ _ _ _ _ _ _ _ HI Hi Hs) as [now' HI']. by exists m, (<[j:=t']> ws), now'.
Qed.

Lemma latch_reach W c : reach std_latch_step (latch_main W) c → latch_ok W c.
Proof.
  apply reach_inv; [|intros; by eapply std_latch_preserves].
  exists MWait, (replicate W WPrint), []. split; [done|]. constructor; cbn; try done.
  - apply length_replicate.
  - split; [done|]. by apply Forall_replicate.
  - rewrite count_replicate. simpl. lia.
  - split; [constructor|]. intros i. split; [by intros ?%not_elem_of_nil|].
    by intros (j & t & _ & [-> _]%lookup_replicate & Ht).
Qed.

(** A worker that is not done can go on; when all are done the counter is 0. *)
Lemma latch_progress W c :
  latch_ok W c →
  (∃ a c', std_latch_step a c = Some c') ∨
  ∃ now, now ≡ₚ seq 1 W ∧ out (shared c) = (Line <$> now) ++ [AllFinished].
Proof.
  intros (m & ws & now & Ec & HI). destruct (inv_main _ _ _ _ _ HI) as [Hm Hws].
  destruct (inv_now _ _ _ _ _ HI) as [Hnd Hn].
  assert (∀ i t, threads c !! i = Some t → is_Some (latch_thread_step i tt (shared c) t) →
    ∃ a c', std_latch_step a c = Some c') as Hgo
    by (intros i t Hi He; exists (Act i tt); by apply (conf_step_enabled _ _ _ _ _ Hi)).
  destruct (Forall_or_witness (negb ∘ counts) ws) as [HD|(j & t & Hj & Ht)].
  2: { left. apply (Hgo (S j) t); [by rewrite Ec|]. destruct t; try done; cbn; eauto. }
  assert (counter (shared c) = 0) as H0.
  { rewrite (inv_counter _ _ _ _ _ HI). destruct (decide (1 ≤ count counts ws)) as [(k & v & Hk & Hv)%count_witness|]; [|lia].
    pose proof (proj1 (Forall_lookup _ _) HD _ _ Hk) as Hn'. cbn in Hn'. by rewrite Hv in Hn'. }
  destruct m; try done.
  - left. apply (Hgo 0 MWait); [by rewrite Ec|]. cbn. rewrite H0. eauto.
  - left. apply (Hgo 0 MPrint); [by rewrite Ec|]. cbn. eauto.
  - right. exists now. split; [|apply HI]. apply NoDup_Permutation; [done|apply NoDup_seq|].
    intros i. rewrite Hn, elem_of_seq. split.
    + intros (j & t & -> & Hj%lookup_lt_Some & _). rewrite (inv_length _ _ _ _ _ HI) in Hj. lia.
    + intros [H1 H2]. destruct i as [|j]; [lia|].
      destruct (lookup_lt_is_Some_2 ws j) as [t Ht]; [rewrite (inv_length _ _ _ _ _ HI); lia|].
      exists j, t. split_ands; try done. pose proof (proj1 (Forall_lookup _ _) HD _ _ Ht) as Hn'.
      pose proof (proj1 (Forall_lookup _ _) Hws _ _ Ht) as Hm'. by destruct t.
Qed.

Definition thread_left (t : latch_thread) : nat :=
  match t with MWait | WPrint => 2 | MPrint | WCountDown => 1 | MDone | WDone => 0 end.

Definition latch_work (c : conf std_latch latch_thread) : nat := sum_list_with thread_left (threads c).

Lemma latch_work_step a c c' : std_latch_step a c = Some c' → latch_work c' < latch_work c.
Proof.
  intros (t & g' & t' & Hi & Hs & ->)%conf_step_inv. unfold latch_work. cbn [threads].
  pose proof (sum_insert thread_left _ _ _ t' Hi) as H.
  enough (thread_left t' < thread_left t) by lia. clear H.
  destruct t; cbn in Hs; try case_bool_decide; simplify_eq/=; lia.
Qed.

(** [main] of latch.cpp waits for its workers.  For any number of
    workers and every interleaving, no schedule is longer than two steps for each
    thread, and a run that cannot go on has ended with a line of every worker, in
    some order, followed by the line of [main]. *)
Theorem latch_main_waits W c :
  reach std_latch_step (latch_main W) c →
  terminates_within std_latch_step (2 * W + 2) (latch_main W) ∧
  ((∃ a c', std_latch_step a c = Some c') ∨
   ∃ order, order ≡ₚ seq 1 W ∧ out (shared c) = (Line <$> order) ++ [AllFinished]).
Proof.
  intros Hr. split; [|by apply latch_progress, latch_reach].
  assert (latch_work (latch_main W) = 2 * W + 2) as <-.
  { unfold latch_work, latch_main. cbn [threads sum_list_with thread_left]. clear.
    induction W as [|W IH]; [done|]. rewrite replicate_S. cbn [sum_list_with thread_left] in *. lia. }
  apply (measure_terminates _ (λ _, True) latch_work); [done|]. intros. split; [done|]. by eapply latch_work_step.
Qed.

Lemma latch_main_waits_witness :
  ∃ c, run std_latch_step ((λ i, Act i tt) <$> [3; 1; 1; 3; 2; 2; 0; 0]) (latch_main 3) = Some c ∧
    out (shared c) = [Line 3; Line 1; Line 2; AllFinished] ∧ terminates_within std_latch_step 8 (latch_main 3).
Proof.
  assert (∃ c, run std_latch_step ((λ i, Act i tt) <$> [3; 1; 1; 3; 2; 2; 0; 0]) (latch_main 3) = Some c ∧
    out (shared c) = [Line 3; Line 1; Line 2; AllFinished]) as (c & Hc & Ho)
    by (eexists; split; [vm_compute; reflexivity|reflexivity]).
  exists c. split; [exact Hc|]. split; [exact Ho|].
  exact (proj1 (latch_main_waits 3 c (run_reach _ _ _ _ Hc))).
Defined.

End StdLatch.
