(* ===== verification/Channels.v ===== *)
(** tasks/synchronization_primitives: the benchmarks of the two channels.

    A benchmark sends the numbers below [kCount] through a channel, from several
    threads to several threads, and compares their sum.  The channels themselves are
    exercises: the headers hold empty bodies, and task.md says what they should do.
    So the programs are modelled over any channel (class [Channel]); what task.md
    promises is the class [ChannelLaws], with a buffered and an unbuffered channel as
    instances.  Over every channel that keeps the promise the sum is right under all
    interleavings and every run ends; with the headers as they are the sum is 0. *)

From S2P Require Import Prelude Machine.
From stdpp Require Import options.

Local Open Scope Z_scope.

(** * Channels *)

(** A [Send] has two parts: it hands over the value, for which it may have to wait
    for room, and it returns, for which it may have to wait for a receiver; each may
    throw.  [None] blocks, [Some None] throws.  The senders have numbers. *)
Class Channel (C : Type) := {
  chan_new : C;
  chan_offer : nat → Z → C → option (option C);
  chan_return : nat → C → option (option C);
  chan_recv : C → option (C * option Z);
  chan_close : C → C }.

(** The promise of task.md.  [held] are the values sent and not yet received. *)
Class ChannelLaws (C : Type) `{Channel C} := {
  held : C → list Z;
  closed : C → bool;
  may_return (i : nat) (c : C) : Prop := chan_return i c = Some (Some c);
  new_empty : held chan_new = [] ∧ closed chan_new = false ∧ ∀ i, may_return i chan_new;
  offer_held i v c c' : chan_offer i v c = Some (Some c') →
    held c' ≡ₚ v :: held c ∧ closed c' = closed c ∧ ∀ j, j ≠ i → may_return j c → may_return j c';
  offer_open i v c : closed c = false → chan_offer i v c ≠ Some None;
  offer_room i v c : closed c = false → held c = [] → chan_offer i v c ≠ None;
  return_same i c c' : chan_return i c = Some (Some c') → c' = c;
  return_open i c : closed c = false → chan_return i c ≠ Some None;
  return_received i c : closed c = false → held c = [] → chan_return i c ≠ None;
  recv_value c c' v : chan_recv c = Some (c', Some v) →
    held c ≡ₚ v :: held c' ∧ closed c' = closed c ∧ ∀ j, may_return j c → may_return j c';
  recv_nothing c c' : chan_recv c = Some (c', None) → closed c = true ∧ held c = [] ∧ c' = c;
  recv_ready c : held c ≠ [] ∨ closed c = true → chan_recv c ≠ None;
  close_keeps c : (∀ i, may_return i c) → held (chan_close c) = held c ∧ closed (chan_close c) = true }.

(** ** The headers as they are *)

(** [BufferedChannel] and [UnbufferedChannel] with the bodies of the repository:
    [Send] and [Close] do nothing, [Recv] returns [std::nullopt]. *)
Record StubChannel := Stub {}.

#[export] Instance stub_channel : Channel StubChannel := {
  chan_new := Stub;
  chan_offer _ _ c := Some (Some c);
  chan_return _ c := Some (Some c);
  chan_recv c := Some (c, None);
  chan_close c := c }.

(** ** What task.md asks for *)

(** A queue of at most [size] values. *)
Record buffered := Buffered { queue : list Z; b_closed : bool }.

Definition buffered_channel (size : nat) : Channel buffered := {|
  chan_new := Buffered [] false;
  chan_offer _ v c :=
    if b_closed c then Some None
    else if bool_decide (length (queue c) < size)%nat then Some (Some (Buffered (queue c ++ [v]) false)) else None;
  chan_return _ c := Some (Some c);
  chan_recv c :=
    match queue c with
    | v :: rest => Some (Buffered rest (b_closed c), Some v)
    | [] => if b_closed c then Some (c, None) else None
    end;
  chan_close c := Buffered (queue c) true |}.

(** The values offered, with their senders; a sender returns when its value has
    been taken, and throws when the channel was closed before. *)
Record unbuffered := Unbuffered { offers : list (nat * Z); failed : list nat; u_closed : bool }.

Definition unbuffered_channel : Channel unbuffered := {|
  chan_new := Unbuffered [] [] false;
  chan_offer i v c :=
    if u_closed c then Some None else Some (Some (Unbuffered (offers c ++ [(i, v)]) (failed c) false));
  chan_return i c :=
    if u_closed c && bool_decide (i ∈ failed c) then Some None
    else if bool_decide (i ∈ (offers c).*1) then None else Some (Some c);
  chan_recv c :=
    match offers c with
    | (_, v) :: rest => Some (Unbuffered rest (failed c) (u_closed c), Some v)
    | [] => if u_closed c then Some (c, None) else None
    end;
  chan_close c := Unbuffered [] (failed c ++ (offers c).*1) true |}.

Program Definition buffered_laws (size : nat) (room : (0 < size)%nat) :
    @ChannelLaws buffered (buffered_channel size) :=
  @Build_ChannelLaws buffered (buffered_channel size) queue b_closed _ _ _ _ _ _ _ _ _ _ _.
Next Obligation. by split_ands. Qed.
Next Obligation.
  intros size Hs i v c c' H. cbn in *. destruct (b_closed c) eqn:E; [done|]. case_bool_decide; simplify_eq/=.
  split_ands; [|done|done]. by rewrite Permutation_app_comm.
Qed.
Next Obligation. intros size Hs i v c H. cbn in *. rewrite H. by case_bool_decide. Qed.
Next Obligation. intros size Hs i v c H E. cbn in *. rewrite H, E. rewrite bool_decide_true; [done|]. simpl. lia. Qed.
Next Obligation. intros size Hs i c c' H. cbn in *. by simplify_eq. Qed.
Next Obligation. done. Qed.
Next Obligation. done. Qed.
Next Obligation.
  intros size Hs c c' v H. cbn in *. destruct (queue c); [by destruct (b_closed c)|]. by simplify_eq/=.
Qed.
Next Obligation.
  intros size Hs c c' H. cbn in *. destruct (queue c); [|done]. destruct (b_closed c); by simplify_eq/=.
Qed.
Next Obligation.
  intros size Hs c H. cbn in *. destruct (queue c); [|done]. destruct H as [|H]; [done|]. by rewrite H.
Qed.
Next Obligation. done. Qed.

Program Definition unbuffered_laws : @ChannelLaws unbuffered unbuffered_channel :=
  @Build_ChannelLaws unbuffered unbuffered_channel (λ c, (offers c).*2) u_closed _ _ _ _ _ _ _ _ _ _ _.
Next Obligation. by split_ands. Qed.
Next Obligation.
  intros i v c c' H. cbn in *. destruct (u_closed c) eqn:E; [done|]. simplify_eq/=.
  split_ands; [by rewrite fmap_app, Permutation_app_comm|done|].
  intros j Hj Hr. rewrite fmap_app.
  case_bool_decide; [done|]. rewrite bool_decide_false; [done|]. rewrite elem_of_app. cbn. set_solver.
Qed.
Next Obligation. intros i v c H. cbn in *. by rewrite H. Qed.
Next Obligation. intros i v c H E. cbn in *. by rewrite H. Qed.
Next Obligation. intros i c c' H. cbn in *. repeat case_match; by simplify_eq. Qed.
Next Obligation. intros i c H. cbn in *. rewrite H. simpl. by case_bool_decide. Qed.
Next Obligation.
  intros i c H E. cbn in *. rewrite H. apply fmap_nil_inv in E. rewrite E. cbn.
  rewrite bool_decide_false; [done|]. by apply not_elem_of_nil.
Qed.
Next Obligation.
  intros c c' v H. cbn in *. destruct (offers c) as [|[k w] rest] eqn:E; [by destruct (u_closed c)|].
  simplify_eq/=. split_ands; [done|done|]. intros j Hr. cbn in *. destruct (u_closed c && _); [done|].
  case_bool_decide; [done|]. rewrite bool_decide_false; [done|]. cbn in *. set_solver.
Qed.
Next Obligation.
  intros c c' H. cbn in *. destruct (offers c) as [|[k w] rest]; [|done]. destruct (u_closed c); by simplify_eq/=.
Qed.
Next Obligation.
  intros c H. cbn in *. destruct (offers c) as [|[k w] rest]; [|done]. destruct H as [|H]; [done|]. by rewrite H.
Qed.
Next Obligation.
  intros c H. cbn in *. destruct (offers c) as [|[k w] rest] eqn:E; [done|].
  specialize (H k). destruct (u_closed c && _); [done|].
  rewrite bool_decide_true in H; [done|]. cbn. set_solver.
Qed.

(** * The benchmark *)

Inductive sender := SOffer (i : Z) | SReturn (i : Z) | SDone.

(** The thread that runs [Send]: it joins the senders, then closes the channel. *)
Inductive closer := Joining | Closing | Closed.

Inductive reader := RRecv | RAdd (v : Z) | RDone.

(** An exception that leaves a thread, or an [int] that overflows. *)
Inductive bench_status := Running | Terminated | Overflowed.

#[export] Instance sender_eq_dec : EqDecision sender.
Proof. solve_decision. Defined.

Inductive bench_thread := Sender (k : nat) | Closer | Reader (k : nat).

Definition i64_wrap (z : Z) : Z := (z + 2 ^ 63) `mod` 2 ^ 64 - 2 ^ 63.

Record bench (C : Type) := Bench {
  channel : C; sum : Z; senders : list sender; closer_ : closer; readers : list reader;
  status : bench_status }.
Arguments Bench {C} _ _ _ _ _ _.
Arguments channel {C} _.
Arguments sum {C} _.
Arguments senders {C} _.
Arguments closer_ {C} _.
Arguments readers {C} _.
Arguments status {C} _.

(** [ok_ans]. *)
Definition ok_ans (kCount : Z) : Z := kCount * (kCount - 1) / 2.

Section bench.
Context {C : Type} `{Channel C} (kCount : Z) (threads_count readers_count : nat).

(** The body of [func]. *)
Definition sender_step (k : nat) (c : C) (s : sender) : option (C * sender * bench_status) :=
  match s with
  | SOffer i =>
      if i <? kCount then
        match chan_offer k i c with
        | None => None
        | Some None => Some (c, s, Terminated)
        | Some (Some c') => Some (c', SReturn i, Running)
        end
      else Some (c, SDone, Running)
  | SReturn i =>
      match chan_return k c with
      | None => None
      | Some None => Some (c, s, Terminated)
      | Some (Some c') =>
          if bool_decide (is_i32 (i + Z.of_nat threads_count))
          then Some (c', SOffer (i + Z.of_nat threads_count), Running) else Some (c, s, Overflowed)
      end
  | SDone => None
  end.

Definition closer_step (c : C) (ss : list sender) (t : closer) : option (C * closer) :=
  match t with
  | Joining => if bool_decide (Forall (λ s, s = SDone) ss) then Some (c, Closing) else None
  | Closing => Some (chan_close c, Closed)
  | Closed => None
  end.

(** The body of a reader. *)
Definition reader_step (c : C) (z : Z) (r : reader) : option (C * Z * reader) :=
  match r with
  | RRecv =>
      match chan_recv c with
      | None => None
      | Some (c', Some v) => Some (c', z, RAdd v)
      | Some (c', None) => Some (c', z, RDone)
      end
  | RAdd v => Some (c, i64_wrap (z + v), RRecv)
  | RDone => None
  end.

Definition bench_step (a : bench_thread) (b : bench C) : option (bench C) :=
  match status b with
  | Running =>
      match a with
      | Sender k =>
          s ← senders b !! k;
          '(c', s', st) ← sender_step k (channel b) s;
          Some (Bench c' (sum b) (<[k:=s']> (senders b)) (closer_ b) (readers b) st)
      | Closer =>
          '(c', t') ← closer_step (channel b) (senders b) (closer_ b);
          Some (Bench c' (sum b) (senders b) t' (readers b) Running)
      | Reader k =>
          r ← readers b !! k;
          '(c', z', r') ← reader_step (channel b) (sum b) r;
          Some (Bench c' z' (senders b) (closer_ b) (<[k:=r']> (readers b)) Running)
      end
  | _ => None
  end.

(** [CalcSum]; [Send] starts its thread [k] at [k]. *)
Definition CalcSum : bench C :=
  Bench chan_new 0 (SOffer <$> seqZ 0 (Z.of_nat threads_count)) Joining
    (replicate readers_count RRecv) Running.

(** All threads have been joined. *)
Definition joined (b : bench C) : Prop :=
  Forall (λ s, s = SDone) (senders b) ∧ closer_ b = Closed ∧ Forall (λ r, r = RDone) (readers b).

(** [Run] throws on a wrong sum. *)
Definition Run (b : bench C) : option unit := if sum b =? ok_ans kCount then Some () else None.

End bench.

(** * The numbers of the senders *)

Section strided.
Context (K T : Z) (stride : 0 < T).

(** [j] is one of [i], [i + T], [i + 2 T], ... *)
Definition on_stride (i j : Z) : bool := (i <=? j) && ((j - i) `mod` T =? 0).

(** The total of [f] over these below [K]. *)
Definition strided (f : Z → Z) (i : Z) : Z :=
  total (λ j, if on_stride i j then f j else 0) (seqZ 0 K).

Lemma total_add {A} (f g : A → Z) (l : list A) : total (λ x, f x + g x) l = total f l + total g l.
Proof. induction l as [|x l IH]; [done|]. rewrite !total_cons, IH. lia. Qed.

Lemma total_none {A} (l : list A) : total (λ _, 0) l = 0.
Proof. induction l as [|x l IH]; [done|]. rewrite total_cons, IH. lia. Qed.

Lemma total_one (f : Z → Z) i (l : list Z) :
  NoDup l → i ∈ l → total (λ j, if j =? i then f j else 0) l = f i.
Proof.
  induction 1 as [|x l Hx Hl IH]; intros Hi; [by apply not_elem_of_nil in Hi|].
  rewrite total_cons. destruct (Z.eqb_spec x i) as [->|Hne].
  - rewrite (total_ext _ (λ _, 0)), total_none; [lia|]. intros y Hy.
    destruct (Z.eqb_spec y i) as [->|]; [done|done].
  - rewrite IH; [lia|]. apply elem_of_cons in Hi as [->|]; done.
Qed.

(** Sums can be exchanged. *)
Lemma total_exchange {A B} (h : A → B → Z) (la : list A) (lb : list B) :
  total (λ a, total (h a) lb) la = total (λ b, total (λ a, h a b) la) lb.
Proof.
  induction la as [|a la IH].
  - simpl. by rewrite total_none.
  - rewrite total_cons, IH, <- total_add. apply total_ext. intros b _. by rewrite total_cons.
Qed.

Lemma on_stride_next i j : on_stride i j = (j =? i) || on_stride (i + T) j.
Proof using stride.
  unfold on_stride. apply Bool.eq_iff_eq_true.
  rewrite orb_true_iff, !andb_true_iff, !Z.eqb_eq, !Z.leb_le.
  replace (j - (i + T)) with (j - i + (-1) * T) by lia. rewrite Z.mod_add by lia. split.
  - intros [Hle Hm]. destruct (decide (j = i)) as [|Hne]; [by left|right]. split; [|done].
    apply Z.mod_divide in Hm as [q Hq]; [|lia]. assert (0 < q) by (apply Z.nle_gt; intros ?; assert (q * T ≤ 0) by (apply Z.mul_nonpos_nonneg; lia); lia). nia.
  - intros [->|[Hle Hm]]; [|split; [lia|done]]. rewrite Z.sub_diag, Z.mod_0_l by lia. lia.
Qed.

Lemma strided_next f i : 0 ≤ i < K → strided f i = f i + strided f (i + T).
Proof using stride.
  intros Hi. unfold strided.
  rewrite <- (total_one f i (seqZ 0 K)) by (apply NoDup_seqZ || (apply elem_of_seqZ; lia)).
  rewrite <- total_add. apply total_ext. intros j _. rewrite on_stride_next.
  destruct (Z.eqb_spec j i) as [->|]; simpl; [|lia].
  unfold on_stride. rewrite (proj2 (Z.leb_gt (i + T) i)) by lia. simpl. lia.
Qed.

Lemma strided_end f i : K ≤ i → strided f i = 0.
Proof.
  intros Hi. unfold strided. etrans; [|apply (total_none (seqZ 0 K))]. apply total_ext.
  intros j [_ Hj]%elem_of_seqZ. unfold on_stride. by rewrite (proj2 (Z.leb_gt i j)) by lia.
Qed.

Lemma strided_nonneg f i : (∀ j, 0 ≤ j → 0 ≤ f j) → 0 ≤ strided f i.
Proof.
  intros Hf. unfold strided. etrans; [apply Z.eq_le_incl; symmetry; apply (total_none (seqZ 0 K))|].
  assert (∀ l, Forall (λ j, 0 ≤ j) l →
    total (λ _ : Z, 0) l ≤ total (λ j, if on_stride i j then f j else 0) l) as Hl.
  { induction 1 as [|j l Hj _ IH]; [done|]. rewrite !total_cons. destruct (on_stride i j); [|lia].
    specialize (Hf j Hj). lia. }
  apply Hl, Forall_forall. intros j Hj%list_elem_of_In%elem_of_seqZ. lia.
Qed.

(** The senders share the numbers. *)
Lemma strided_share f : total (strided f) (seqZ 0 T) = total f (seqZ 0 K).
Proof using stride.
  unfold strided. rewrite total_exchange. apply total_ext. intros j [Hj _]%elem_of_seqZ.
  etrans; [|apply (total_one (λ _, f j) (j `mod` T) (seqZ 0 T))].
  - apply total_ext. intros s [Hs1 Hs2]%elem_of_seqZ.
    enough (on_stride s j = (s =? j `mod` T)) as -> by done.
    unfold on_stride. apply Bool.eq_iff_eq_true. rewrite andb_true_iff, !Z.eqb_eq, Z.leb_le. split.
    + intros [Hle Hm]. apply Z.mod_divide in Hm as [q Hq]; [|lia].
      apply (Z.mod_unique_pos j T q s); lia.
    + intros ->. pose proof (Z.mod_pos_bound j T stride). pose proof (Z.div_mod j T ltac:(lia)).
      pose proof (Z.div_pos j T Hj stride). split; [nia|].
      replace (j - j `mod` T) with (j / T * T) by lia. by apply Z.mod_mul; lia.
  - apply NoDup_seqZ.
  - apply elem_of_seqZ. pose proof (Z.mod_pos_bound j T stride). lia.
Qed.

End strided.

(** * Sums *)

Lemma total_perm (f : Z → Z) l l' : l ≡ₚ l' → total f l = total f l'.
Proof. unfold total. induction 1; simpl; lia. Qed.

Lemma total_Forall {A} (f : A → Z) l : Forall (λ x, 0 ≤ f x) l → 0 ≤ total f l.
Proof. induction 1; [done|]. rewrite total_cons. lia. Qed.

(** The whole sum. *)
Lemma total_numbers n : total id (seqZ 0 (Z.of_nat n)) * 2 = Z.of_nat n * (Z.of_nat n - 1).
Proof.
  induction n as [|n IH]; [done|]. rewrite Nat2Z.inj_succ, <- Z.add_1_r.
  rewrite seqZ_app by lia. rewrite total_app. rewrite Z.add_0_l. unfold id in *. simpl (seqZ _ 1).
  replace (seqZ (Z.of_nat n) 1) with [Z.of_nat n] by (unfold seqZ; simpl; f_equal; lia).
  rewrite total_cons. simpl (total _ []). lia.
Qed.

Lemma i64_wrap_small z : 0 ≤ z < 2 ^ 63 → i64_wrap z = z.
Proof. intros. unfold i64_wrap. rewrite Z.mod_small; lia. Qed.

(** * The invariant *)

Section bench_laws.
Context {C : Type} `{ChannelLaws C} (kCount : Z) (threads_count readers_count : nat).
Local Notation T := (Z.of_nat threads_count).

(** There are senders and readers, and [i += threads_count] stays an [int]. *)
Definition bench_params : Prop :=
  (0 < threads_count)%nat ∧ (0 < readers_count)%nat ∧ 0 ≤ kCount ∧ kCount + T ≤ INT_MAX.

(** The numbers a sender has still to hand over, weighed by [f]. *)
Definition to_send (f : Z → Z) (s : sender) : Z :=
  match s with
  | SOffer i => strided kCount T f i
  | SReturn i => strided kCount T f (i + T)
  | SDone => 0
  end.

Definition in_hand (r : reader) : Z := match r with RAdd v => v | _ => 0 end.

Definition sane_sender (s : sender) : Prop :=
  match s with SOffer i => 0 ≤ i | SReturn i => 0 ≤ i < kCount | SDone => True end.

Record bench_inv (b : bench C) : Prop := {
  inv_status : status b = Running;
  inv_sum : sum b + total in_hand (readers b) + total id (held (channel b)) + total (to_send id) (senders b) =
            total id (seqZ 0 kCount);
  inv_nonneg : 0 ≤ sum b ∧ Forall (λ v, 0 ≤ v) (held (channel b)) ∧ Forall (λ r, 0 ≤ in_hand r) (readers b);
  inv_length : length (readers b) = readers_count;
  inv_senders : Forall sane_sender (senders b);
  inv_closed : closed (channel b) = match closer_ b with Closed => true | _ => false end;
  inv_closer : closer_ b ≠ Joining → Forall (λ s, s = SDone) (senders b);
  inv_readers : ∀ k, readers b !! k = Some RDone → closed (channel b) = true ∧ held (channel b) = [];
  inv_return : closer_ b ≠ Closed → ∀ k, may_return k (channel b) ∨ ∃ i, senders b !! k = Some (SReturn i) }.

Lemma to_send_nonneg s : 0 ≤ to_send id s.
Proof. destruct s; simpl; try apply strided_nonneg; unfold id; try lia; done. Qed.

Lemma total_ok_ans : bench_params → total id (seqZ 0 kCount) = ok_ans kCount.
Proof.
  intros (_ & _ & HK & _). unfold ok_ans. pose proof (total_numbers (Z.to_nat kCount)) as E. rewrite Z2Nat.id in E by done.
  rewrite <- E, Z.div_mul by lia. done.
Qed.

Lemma sum_fits : bench_params → 0 ≤ total id (seqZ 0 kCount) < 2 ^ 63.
Proof.
  intros (_ & _ & HK & HI).
  pose proof (total_numbers (Z.to_nat kCount)) as E. rewrite Z2Nat.id in E by done.
  unfold INT_MAX in *. nia.
Qed.

Lemma inv_start : bench_params → bench_inv (CalcSum threads_count readers_count).
Proof.
  intros (HT & _ & HK & _). destruct new_empty as (Hh & Hc & Hr). unfold CalcSum.
  constructor; cbn [channel sum senders closer_ readers status]; rewrite ?Hh, ?Hc; try done.
  - rewrite total_replicate. cbn [in_hand].
    assert (total (to_send id) (SOffer <$> seqZ 0 T) = total (strided kCount T id) (seqZ 0 T)) as ->.
    { induction (seqZ 0 T) as [|x l IH]; [done|]. cbn [fmap list_fmap]. by rewrite !total_cons, IH. }
    rewrite strided_share by lia. cbn [total foldr]. lia.
  - split_ands; [done|constructor|]. by apply Forall_replicate.
  - apply length_replicate.
  - apply Forall_fmap, Forall_forall. intros j [Hj _]%list_elem_of_In%elem_of_seqZ. done.
  - by intros k [? _]%lookup_replicate.
  - intros _ k. by left.
Qed.

(** ** Preservation *)

(** What may return may still do so when the sender [k], which waited or not, is
    elsewhere. *)
Lemma return_insert (b : bench C) k s' c' :
  bench_inv b → closer_ b ≠ Closed → (k < length (senders b))%nat →
  (∀ j, j ≠ k → may_return j (channel b) → may_return j c') →
  may_return k c' ∨ (∃ i, s' = SReturn i) →
  ∀ j, may_return j c' ∨ ∃ i, <[k:=s']> (senders b) !! j = Some (SReturn i).
Proof.
  intros HI Hc Hk Hs Hks j. destruct (decide (j = k)) as [->|Hne].
  - rewrite list_lookup_insert_eq by done. destruct Hks as [|[i ->]]; [by left|right]. by exists i.
  - rewrite list_lookup_insert_ne by done. destruct (inv_return _ HI Hc j) as [Hr|Hr]; [left; auto|by right].
Qed.

(** A sender that is not done: the channel is open. *)
Lemma sender_open b k s :
  bench_inv b → senders b !! k = Some s → s ≠ SDone → closer_ b = Joining ∧ closed (channel b) = false.
Proof.
  intros HI Hk Hne. assert (closer_ b = Joining) as Hj.
  { destruct (closer_ b) eqn:E; [done|..]; destruct Hne;
      (refine (proj1 (Forall_lookup _ _) (inv_closer _ HI _) _ _ Hk); by rewrite E). }
  split; [done|]. by rewrite (inv_closed _ HI), Hj.
Qed.

(** A sender moves on with the channel [c'], in which [v] has been added. *)
Lemma sender_moves b k s s' c' new :
  bench_inv b → senders b !! k = Some s → s ≠ SDone → sane_sender s' →
  held c' ≡ₚ new ++ held (channel b) → Forall (λ v, 0 ≤ v) new → closed c' = closed (channel b) →
  to_send id s = total id new + to_send id s' →
  (∀ j, j ≠ k → may_return j (channel b) → may_return j c') →
  may_return k c' ∨ (∃ i, s' = SReturn i) →
  (∀ r, readers b !! r ≠ Some RDone) →
  bench_inv (Bench c' (sum b) (<[k:=s']> (senders b)) (closer_ b) (readers b) Running).
Proof.
  intros HI Hk Hne Hsane Hp Hnew Hcl Hto Hret Hk' Hrd. destruct (sender_open _ _ _ HI Hk Hne) as [Hj Ho].
  destruct (inv_nonneg _ HI) as (Hs0 & Hh0 & Hr0).
  constructor; cbn [channel sum senders closer_ readers status]; rewrite ?Hcl, ?Hj; try done.
  - rewrite (total_perm _ _ _ Hp), total_app, (total_insert _ _ _ _ _ Hk). pose proof (inv_sum _ HI). lia.
  - split_ands; try done. rewrite Hp. by apply Forall_app.
  - apply HI.
  - apply Forall_insert; [apply HI|done].
  - intros r Hr. by destruct (Hrd r).
  - intros _. eapply return_insert; try done; [by rewrite Hj|by eapply lookup_lt_Some].
Qed.

(** While the channel is open no reader has ended. *)
Lemma readers_there b : bench_inv b → closed (channel b) = false → ∀ r, readers b !! r ≠ Some RDone.
Proof. intros HI Ho r Hr. destruct (inv_readers _ HI _ Hr). congruence. Qed.

Lemma sender_preserves k b b' :
  bench_params → bench_inv b → bench_step kCount threads_count (Sender k) b = Some b' → bench_inv b'.
Proof.
  intros (HT & _ & HK & HM) HI Hs. unfold bench_step in Hs. rewrite (inv_status _ HI) in Hs.
  destruct (senders b !! k) as [s|] eqn:Hk; [|done]. cbn [mbind option_bind] in Hs.
  pose proof (proj1 (Forall_lookup _ _) (inv_senders _ HI) _ _ Hk) as Hsane.
  destruct (decide (s = SDone)) as [->|Hne]; [done|]. destruct (sender_open _ _ _ HI Hk Hne) as [Hj Ho].
  pose proof (readers_there _ HI Ho) as Hrd. assert (closer_ b ≠ Closed) as Hnc by (by rewrite Hj).
  destruct s as [i|i|]; cbn [sender_step] in Hs; cbn [sane_sender] in Hsane; [| |done].
  - destruct (Z.ltb_spec i kCount) as [Hi|Hi].
    + destruct (chan_offer k i (channel b)) as [[c'|]|] eqn:Eo; [|by destruct (offer_open k i _ Ho)|done].
      cbn in Hs. injection Hs as <-. destruct (offer_held _ _ _ _ Eo) as (Hp & Hc & Hret).
      eapply (sender_moves _ _ _ _ _ [i]); try done; [by constructor| |by right; eexists].
      cbn [to_send]. rewrite (strided_next kCount T ltac:(lia) id i) by lia. rewrite total_cons. cbn. lia.
    + cbn in Hs. injection Hs as <-. eapply (sender_moves _ _ _ _ _ []); try done; [|].
      * cbn [to_send]. by rewrite strided_end.
      * left. destruct (inv_return _ HI Hnc k) as [|[j Hj']]; [done|congruence].
  - destruct (chan_return k (channel b)) as [[c'|]|] eqn:Er; [|by destruct (return_open k _ Ho)|done].
    pose proof (return_same _ _ _ Er) as ->. unfold is_i32, INT_MIN, INT_MAX in *.
    rewrite bool_decide_true in Hs by lia. cbn in Hs. injection Hs as <-.
    eapply (sender_moves _ _ _ _ _ []); try done; [cbn; lia|by left].
Qed.

Lemma closer_preserves b b' :
  bench_inv b → bench_step kCount threads_count Closer b = Some b' → bench_inv b'.
Proof.
  intros HI Hs. unfold bench_step in Hs. rewrite (inv_status _ HI) in Hs.
  destruct (closer_ b) eqn:Ec; cbn [closer_step] in Hs; [| |done].
  - case_bool_decide as Hd; [|done]. cbn in Hs. injection Hs as <-.
    constructor; cbn [channel sum senders closer_ readers status]; try apply HI; try done.
    + by rewrite (inv_closed _ HI), Ec.
    + intros _. apply (inv_return _ HI). by rewrite Ec.
  - cbn in Hs. injection Hs as <-. assert (closer_ b ≠ Joining) as Hnj by (by rewrite Ec).
    pose proof (inv_closer _ HI Hnj) as Hd.
    destruct (close_keeps (channel b)) as [Hh Hc].
    { intros k. destruct (inv_return _ HI ltac:(by rewrite Ec) k) as [|[i Hi]]; [done|].
      pose proof (proj1 (Forall_lookup _ _) Hd _ _ Hi). done. }
    constructor; cbn [channel sum senders closer_ readers status]; rewrite ?Hh, ?Hc; try apply HI; try done.
    intros k Hk. split; [done|]. by apply (inv_readers _ HI k).
Qed.

Lemma reader_preserves k b b' :
  bench_params → bench_inv b → bench_step kCount threads_count (Reader k) b = Some b' → bench_inv b'.
Proof.
  intros HP HI Hs. unfold bench_step in Hs. rewrite (inv_status _ HI) in Hs.
  destruct (readers b !! k) as [r|] eqn:Hk; [|done]. cbn [mbind option_bind] in Hs.
  destruct (inv_nonneg _ HI) as (Hs0 & Hh0 & Hr0). pose proof (inv_sum _ HI) as Hsum.
  destruct r as [|v|]; cbn [reader_step] in Hs; [| |done].
  - destruct (chan_recv (channel b)) as [[c' [v|]]|] eqn:Er; [| |done]; cbn in Hs; injection Hs as <-.
    + destruct (recv_value _ _ _ Er) as (Hp & Hc & Hret).
      rewrite Hp in Hh0. apply Forall_cons_iff in Hh0 as [Hv Hh0].
      constructor; cbn [channel sum senders closer_ readers status]; rewrite ?Hc; try apply HI; try done.
      * rewrite (total_insert _ _ _ _ _ Hk). rewrite (total_perm _ _ _ Hp), total_cons in Hsum. cbn in *. lia.
      * split_ands; try done. by apply Forall_insert.
      * rewrite length_insert. apply HI.
      * intros j [[_ ?]|[_ Hj]]%list_lookup_insert_Some'; [done|]. destruct (inv_readers _ HI _ Hj) as [? E].
        rewrite E in Hp. by apply Permutation_nil_cons in Hp.
      * intros Hnc j. destruct (inv_return _ HI Hnc j); auto.
    + destruct (recv_nothing _ _ Er) as (Hc & Hh & ->).
      constructor; cbn [channel sum senders closer_ readers status]; try apply HI; try done.
      * rewrite (total_insert _ _ _ _ _ Hk). cbn [in_hand] in *. lia.
      * split_ands; try done. by apply Forall_insert.
      * rewrite length_insert. apply HI.
  - cbn in Hs. injection Hs as <-. pose proof (proj1 (Forall_lookup _ _) Hr0 _ _ Hk) as Hv. cbn in Hv.
    assert (i64_wrap (sum b + v) = sum b + v) as ->.
    { apply i64_wrap_small. pose proof (sum_fits HP) as Hf.
      pose proof (total_Forall in_hand (<[k:=RRecv]> (readers b))) as H1.
      rewrite (total_insert _ _ _ _ _ Hk) in H1. cbn [in_hand] in H1.
      pose proof (total_Forall id (held (channel b)) Hh0) as H2.
      pose proof (total_nonneg (to_send id) (senders b) to_send_nonneg) as H3.
      specialize (H1 ltac:(by apply Forall_insert)). lia. }
    constructor; cbn [channel sum senders closer_ readers status]; try apply HI; try done.
    + rewrite (total_insert _ _ _ _ _ Hk). cbn [in_hand]. lia.
    + split_ands; [lia|done|]. by apply Forall_insert.
    + rewrite length_insert. apply HI.
    + intros j [[_ ?]|[_ Hj]]%list_lookup_insert_Some'; [done|]. by apply (inv_readers _ HI j).
Qed.

Lemma bench_reach b :
  bench_params → reach (bench_step kCount threads_count) (CalcSum threads_count readers_count) b → bench_inv b.
Proof.
  intros HP. apply reach_inv; [by apply inv_start|].
  intros [k| |k] b1 b2; [by apply sender_preserves|apply closer_preserves|by apply reader_preserves].
Qed.

(** ** Progress *)

Lemma bench_able a b : bench_inv b → bench_step kCount threads_count a b ≠ None →
  ∃ a b', bench_step kCount threads_count a b = Some b'.
Proof. intros _ Hs. exists a. destruct (bench_step _ _ a b); [by eexists|done]. Qed.

Lemma reader_able b k r :
  bench_inv b → readers b !! k = Some r → r ≠ RDone →
  (r = RRecv → held (channel b) ≠ [] ∨ closed (channel b) = true) →
  ∃ a b', bench_step kCount threads_count a b = Some b'.
Proof.
  intros HI Hk Hr Hready. apply (bench_able (Reader k)); [done|]. unfold bench_step.
  rewrite (inv_status _ HI), Hk. destruct r as [|v|]; cbn; [|done|done].
  pose proof (recv_ready _ (Hready eq_refl)). destruct (chan_recv (channel b)) as [[c' [v|]]|]; done.
Qed.

Lemma sender_able b k s :
  bench_inv b → senders b !! k = Some s → s ≠ SDone → held (channel b) = [] →
  ∃ a b', bench_step kCount threads_count a b = Some b'.
Proof.
  intros HI Hk Hs Hh. destruct (sender_open _ _ _ HI Hk Hs) as [Hj Ho].
  apply (bench_able (Sender k)); [done|]. unfold bench_step. rewrite (inv_status _ HI), Hk.
  destruct s as [i|i|]; cbn; [| |done].
  - destruct (i <? kCount); [|done]. pose proof (offer_room k i _ Ho Hh).
    by destruct (chan_offer k i (channel b)) as [[]|].
  - pose proof (return_received k _ Ho Hh). destruct (chan_return k (channel b)) as [[]|]; [|done|done].
    by case_bool_decide.
Qed.

Lemma bench_progress b :
  bench_params → bench_inv b →
  (∃ a b', bench_step kCount threads_count a b = Some b') ∨ joined b.
Proof.
  intros (_ & HR & _ & _) HI.
  destruct (Forall_or_witness (λ r, match r with RDone => true | _ => false end) (readers b))
    as [HD|(k & r & Hk & Hr)].
  - destruct (lookup_lt_is_Some_2 (readers b) 0) as [r Hr]; [by rewrite (inv_length _ HI)|].
    pose proof (proj1 (Forall_lookup _ _) HD _ _ Hr) as Hd. destruct r; try done.
    destruct (inv_readers _ HI _ Hr) as [Hc _]. right. rewrite (inv_closed _ HI) in Hc.
    destruct (closer_ b) eqn:Ec; try done. unfold joined. rewrite Ec. split_ands; [|done|].
    + apply (inv_closer _ HI). by rewrite Ec.
    + eapply Forall_impl; [|exact HD]. by intros [].
  - left. destruct (decide (held (channel b) = [])) as [Hh|Hh].
    2: { eapply reader_able; [done|exact Hk|by intros ->|by left]. }
    destruct (closer_ b) eqn:Ec.
    + destruct (Forall_or_witness (λ s, match s with SDone => true | _ => false end) (senders b))
        as [HS|(j & s & Hj & Hs)]; [|eapply sender_able; [done|exact Hj|by intros ->|done]].
      apply (bench_able Closer); [done|]. unfold bench_step. rewrite (inv_status _ HI), Ec. cbn.
      rewrite bool_decide_true; [done|]. eapply Forall_impl; [|exact HS]. by intros [].
    + apply (bench_able Closer); [done|]. unfold bench_step. by rewrite (inv_status _ HI), Ec.
    + eapply reader_able; [done|exact Hk|by intros ->|]. right. by rewrite (inv_closed _ HI), Ec.
Qed.

(** ** Termination *)

Definition sender_left (s : sender) : Z :=
  match s with SDone => 0 | SOffer _ => 5 * to_send (λ _, 1) s + 1 | SReturn _ => 5 * to_send (λ _, 1) s + 2 end.

Definition reader_left (r : reader) : Z := match r with RRecv => 1 | RAdd _ => 3 | RDone => 0 end.

Definition closer_left (t : closer) : Z := match t with Joining => 2 | Closing => 1 | Closed => 0 end.

Definition bench_work (b : bench C) : Z :=
  total sender_left (senders b) + 3 * Z.of_nat (length (held (channel b))) +
  total reader_left (readers b) + closer_left (closer_ b).

Lemma sender_left_nonneg s : 0 ≤ sender_left s.
Proof.
  assert (∀ i, 0 ≤ strided kCount T (λ _, 1) i) as Hn by (intros; by apply strided_nonneg).
  destruct s as [i|i|]; cbn; [specialize (Hn i)|specialize (Hn (i + T))|]; lia.
Qed.

Lemma bench_work_nonneg b : 0 ≤ bench_work b.
Proof.
  unfold bench_work. pose proof (total_nonneg sender_left (senders b) sender_left_nonneg).
  assert (0 ≤ total reader_left (readers b)) by (apply total_nonneg; by intros []).
  destruct (closer_ b); cbn [closer_left]; lia.
Qed.

Lemma bench_work_step a b b' :
  bench_params → bench_inv b → bench_step kCount threads_count a b = Some b' → bench_work b' < bench_work b.
Proof.
  intros (HT & _ & HK & HM) HI Hs. unfold bench_step in Hs. rewrite (inv_status _ HI) in Hs. unfold bench_work.
  destruct a as [k| |k].
  - destruct (senders b !! k) as [s|] eqn:Hk; [|done]. cbn [mbind option_bind] in Hs.
    pose proof (proj1 (Forall_lookup _ _) (inv_senders _ HI) _ _ Hk) as Hsane.
    destruct (decide (s = SDone)) as [->|Hne]; [done|]. destruct (sender_open _ _ _ HI Hk Hne) as [Hj Ho].
    destruct s as [i|i|]; cbn [sender_step] in Hs; cbn [sane_sender] in Hsane; [| |done].
    + destruct (Z.ltb_spec i kCount) as [Hi|Hi].
      * destruct (chan_offer k i (channel b)) as [[c'|]|] eqn:Eo; [|by destruct (offer_open k i _ Ho)|done].
        cbn in Hs. injection Hs as <-. cbn [channel senders readers closer_].
        destruct (offer_held _ _ _ _ Eo) as (->%Permutation_length & _).
        rewrite (total_insert _ _ _ _ _ Hk). cbn [sender_left to_send length].
        rewrite (strided_next kCount T ltac:(lia) (λ _, 1) i) by lia. lia.
      * cbn in Hs. injection Hs as <-. cbn [channel senders readers closer_].
        rewrite (total_insert _ _ _ _ _ Hk). cbn [sender_left to_send]. rewrite strided_end by done. lia.
    + destruct (chan_return k (channel b)) as [[c'|]|] eqn:Er; [|by destruct (return_open k _ Ho)|done].
      pose proof (return_same _ _ _ Er) as ->. unfold is_i32, INT_MIN, INT_MAX in *.
      rewrite bool_decide_true in Hs by lia. cbn in Hs. injection Hs as <-. cbn [channel senders readers closer_].
      rewrite (total_insert _ _ _ _ _ Hk). cbn [sender_left to_send]. lia.
  - destruct (closer_ b) eqn:Ec; cbn [closer_step] in Hs; [| |done].
    + case_bool_decide; [|done]. cbn in Hs. injection Hs as <-. cbn [channel senders readers closer_ closer_left]. lia.
    + cbn in Hs. injection Hs as <-. cbn [channel senders readers closer_ closer_left].
      destruct (close_keeps (channel b)) as [-> _]; [|lia].
      intros k. destruct (inv_return _ HI ltac:(by rewrite Ec) k) as [|[i Hi]]; [done|].
      pose proof (proj1 (Forall_lookup _ _) (inv_closer _ HI ltac:(by rewrite Ec)) _ _ Hi). done.
  - destruct (readers b !! k) as [r|] eqn:Hk; [|done]. cbn [mbind option_bind] in Hs.
    destruct r as [|v|]; cbn [reader_step] in Hs; [| |done].
    + destruct (chan_recv (channel b)) as [[c' [v|]]|] eqn:Er; [| |done]; cbn in Hs; injection Hs as <-;
        cbn [channel senders readers closer_]; rewrite (total_insert _ _ _ _ _ Hk); cbn [reader_left].
      * destruct (recv_value _ _ _ Er) as (->%Permutation_length & _). cbn [length]. lia.
      * destruct (recv_nothing _ _ Er) as (_ & _ & ->). lia.
    + cbn in Hs. injection Hs as <-. cbn [channel senders readers closer_].
      rewrite (total_insert _ _ _ _ _ Hk). cbn [reader_left]. lia.
Qed.

Lemma bench_preserves a b b' :
  bench_params → bench_inv b → bench_step kCount threads_count a b = Some b' → bench_inv b'.
Proof. destruct a; eauto using sender_preserves, closer_preserves, reader_preserves. Qed.

Lemma start_work :
  bench_params →
  bench_work (CalcSum threads_count readers_count) = 5 * kCount + T + Z.of_nat readers_count + 2.
Proof.
  intros (HT & _ & HK & _). unfold bench_work, CalcSum. cbn [channel senders readers closer_ closer_left].
  destruct new_empty as (-> & _). rewrite total_replicate. cbn [reader_left length].
  assert (∀ l, total sender_left (SOffer <$> l) = 5 * total (strided kCount T (λ _, 1)) l + Z.of_nat (length l)) as ->.
  { induction l as [|x l IH]; [done|]. rewrite fmap_cons, !total_cons, IH. cbn [sender_left to_send length]. lia. }
  rewrite strided_share, length_seqZ by lia.
  assert (∀ l : list Z, total (λ _, 1) l = Z.of_nat (length l)) as ->.
  { induction l as [|x l IH]; [done|]. rewrite total_cons, IH. cbn [length]. lia. }
  rewrite length_seqZ. lia.
Qed.

(** At the end everything has been added. *)
Lemma joined_sum b : bench_params → bench_inv b → joined b → sum b = ok_ans kCount.
Proof.
  intros HP HI (HS & Hc & HR). rewrite <- (total_ok_ans HP), <- (inv_sum _ HI).
  assert (total in_hand (readers b) = 0 ∧ total (to_send id) (senders b) = 0) as [-> ->].
  { split.
    - induction HR as [|r l -> _ IH]; [done|]. by rewrite total_cons, IH.
    - induction HS as [|s l -> _ IH]; [done|]. by rewrite total_cons, IH. }
  enough (held (channel b) = []) as -> by (cbn; lia). destruct HP as (_ & HR0 & _).
  destruct (lookup_lt_is_Some_2 (readers b) 0) as [r Hr]; [by rewrite (inv_length _ HI)|].
  pose proof (proj1 (Forall_lookup _ _) HR _ _ Hr) as ->. by apply (inv_readers _ HI 0).
Qed.

End bench_laws.

(** How a run can end, and that it ends. *)
Lemma bench_outcome {C : Type} `{ChannelLaws C} kCount threads_count readers_count b :
  bench_params kCount threads_count readers_count →
  reach (bench_step kCount threads_count) (CalcSum threads_count readers_count) b →
  terminates_within (bench_step kCount threads_count)
    (Z.to_nat (5 * kCount + Z.of_nat threads_count + Z.of_nat readers_count + 2))
    (CalcSum (C := C) threads_count readers_count) ∧
  status b = Running ∧
  ((∃ a b', bench_step kCount threads_count a b = Some b') ∨ joined b ∧ Run kCount b = Some ()).
Proof.
  intros HP Hr. pose proof (bench_reach _ _ _ _ HP Hr) as HI. split_ands; [|apply HI|].
  - rewrite <- (start_work kCount threads_count readers_count HP).
    apply (measure_terminates _ (bench_inv kCount threads_count readers_count)
      (λ b, Z.to_nat (bench_work kCount threads_count b))); [by apply inv_start|].
    intros a b1 b2 HI1 Hs. split; [by eapply bench_preserves|].
    pose proof (bench_work_step _ _ _ _ _ _ HP HI1 Hs).
    pose proof (bench_work_nonneg kCount threads_count b2). lia.
  - destruct (bench_progress _ _ _ _ HP HI) as [|Hj]; [by left|right]. split; [done|].
    unfold Run. rewrite (joined_sum _ _ _ _ HP HI Hj), Z.eqb_refl. done.
Qed.

(** * Properties *)

(** The benchmarks are right over every channel that keeps the promise of
    task.md.  For any number of senders and readers, any [kCount] for which the
    loop counter stays an [int], and every interleaving: no schedule is longer than
    [5 kCount] steps and a few for each thread, no [Send] throws and nothing
    overflows, and a run that cannot go on has joined all its threads with the sum
    of the numbers below [kCount], so that [Run] does not throw. *)
Theorem channel_sum {C : Type} `{ChannelLaws C} kCount threads_count readers_count b :
  bench_params kCount threads_count readers_count →
  reach (bench_step kCount threads_count) (CalcSum threads_count readers_count) b →
  terminates_within (bench_step kCount threads_count)
    (Z.to_nat (5 * kCount + Z.of_nat threads_count + Z.of_nat readers_count + 2))
    (CalcSum (C := C) threads_count readers_count) ∧
  status b = Running ∧
  ((∃ a b', bench_step kCount threads_count a b = Some b') ∨ joined b ∧ Run kCount b = Some ()).
Proof. apply bench_outcome. Qed.

(** Two senders and one reader over the unbuffered channel, and over a buffer of
    one. *)
Lemma channel_sum_witness :
  let ub := @bench_step unbuffered unbuffered_channel 3 2 in
  terminates_within ub 20 (@CalcSum unbuffered unbuffered_channel 2 1) ∧
  terminates_within (@bench_step buffered (buffered_channel 1) 3 2) 20
    (@CalcSum buffered (buffered_channel 1) 2 1).
Proof.
  assert (bench_params 3 2 1) as HP by (unfold bench_params, INT_MAX; lia). split.
  - exact (proj1 (@channel_sum unbuffered unbuffered_channel unbuffered_laws 3 2 1 _ HP (reach_refl _ _))).
  - exact (proj1 (@channel_sum buffered (buffered_channel 1) (buffered_laws 1 ltac:(lia)) 3 2 1 _ HP
      (reach_refl _ _))).
Defined.

(** The benchmarks with the headers of the repository.  The channels there
    drop what is sent and tell every reader that they are closed: whatever the
    interleaving, the sum stays 0, and [Run] throws for every [kCount] above 1. *)
Theorem stub_channel_sum kCount threads_count readers_count (b : bench StubChannel) :
  1 < kCount → reach (bench_step kCount threads_count) (CalcSum threads_count readers_count) b →
  sum b = 0 ∧ Run kCount b = None.
Proof.
  intros HK Hr. assert (sum b = 0 ∧ Forall (λ r, ∀ v, r ≠ RAdd v) (readers b)) as [Hs _].
  { apply (reach_inv (bench_step kCount threads_count)
      (λ b : bench StubChannel, sum b = 0 ∧ Forall (λ r, ∀ v, r ≠ RAdd v) (readers b)) _ _) in Hr; [done|..].
    - split; [done|]. by apply Forall_replicate.
    - intros a b1 b2 [Hs HR] Hstep. unfold bench_step in Hstep. destruct (status b1); [|done|done].
      destruct a as [k| |k].
      + destruct (senders b1 !! k); [|done]. cbn [mbind option_bind] in Hstep.
        by destruct (sender_step _ _ _ _ _) as [[[? ?] ?]|]; simplify_eq/=.
      + by destruct (closer_step _ _ _) as [[? ?]|]; simplify_eq/=.
      + destruct (readers b1 !! k) as [r|] eqn:Hk; [|done]. cbn [mbind option_bind] in Hstep.
        pose proof (proj1 (Forall_lookup _ _) HR _ _ Hk) as Hv.
        destruct r as [|v|]; cbn in Hstep; simplify_eq/=; [|by destruct (Hv v)].
        split; [done|]. by apply Forall_insert. }
  split; [done|]. unfold Run, ok_ans. rewrite Hs. destruct (Z.eqb_spec 0 (kCount * (kCount - 1) / 2)) as [E|]; [|done].
  assert (1 ≤ kCount * (kCount - 1) / 2); [|lia]. apply Z.div_le_lower_bound; nia.
Qed.

Lemma stub_channel_sum_witness :
  Run 500000 (CalcSum (C := StubChannel) 2 2) = None.
Proof.
  refine (proj2 (stub_channel_sum 500000 2 2 (CalcSum 2 2) _ (reach_refl _ _))). lia.
Defined.
