(* ===== verification/ChannelBenchmarks.v ===== *)
(** tasks/synchronization_primitives/: the benchmarks as they are registered, with their
    arguments.

    The arguments come from [std::thread::hardware_concurrency()], which may be 0
    when it is not known.  Over channels that keep their promise every registered
    benchmark gets through any number of rounds: there are always senders and
    readers, and a buffer. *)

From S2P Require Import Prelude Machine Channels.
From stdpp Require Import options.

Local Open Scope Z_scope.

(** [const int kCount]: [5e5] for the buffered channel, [1e5] for the unbuffered. *)
Definition buffered_kCount : Z := 500000.

Definition unbuffered_kCount : Z := 100000.

(** The arguments; [cores] is what [hardware_concurrency] returns, an [unsigned]
    that becomes an [int]. *)
Definition kThreads (cores : Z) : Z := i32_wrap cores.

Definition kHalf (cores : Z) : Z := Z.max 1 (Z.quot (kThreads cores) 2).

Definition kAnotherHalf (cores : Z) : Z := Z.max 1 (kThreads cores - kHalf cores).

(** [->Args] of the buffered channel: the buffer, the senders and the readers. *)
Definition buffered_args (cores : Z) : list (Z * Z * Z) :=
  [(2, 2, Z.max 1 (kThreads cores - 2));
   (10, kHalf cores, kAnotherHalf cores);
   (100000, kHalf cores, kAnotherHalf cores)].

(** [->Args] of the unbuffered channel: the senders and the readers. *)
Definition unbuffered_args (cores : Z) : list (Z * Z) :=
  [(2, Z.max 1 (kThreads cores - 2));
   (kHalf cores, kAnotherHalf cores);
   (Z.max 1 (kThreads cores - 2), 2)].

Section rounds.
Context {C : Type} (kCount : Z).

(** A round: the threads run by a schedule until all are joined, then the sum is
    compared.  [None] is a schedule that leaves a thread unfinished, or an
    exception. *)
Definition round (ch : Channel C) (senders_count readers_count : Z) (sched : list bench_thread) : option unit :=
  b ← run (bench_step kCount (Z.to_nat senders_count)) sched
        (CalcSum (Z.to_nat senders_count) (Z.to_nat readers_count));
  if forallb (λ s, bool_decide (s = SDone)) (senders b) &&
     match closer_ b with Closed => true | _ => false end &&
     forallb (λ r, match r with RDone => true | _ => false end) (readers b)
  then Run kCount b else None.

(** [while (state.KeepRunning())], with a schedule for each round. *)
Fixpoint rounds (ch : Channel C) (senders_count readers_count : Z) (scheds : list (list bench_thread)) : option unit :=
  match scheds with
  | [] => Some ()
  | sched :: rest =>
      match round ch senders_count readers_count sched with
      | Some _ => rounds ch senders_count readers_count rest
      | None => None
      end
  end.
End rounds.

(** * Lemmas *)

Lemma args_positive kCount cores senders_count readers_count :
  0 ≤ kCount → 0 ≤ cores → kCount + cores ≤ INT_MAX - 2 →
  (senders_count, readers_count) ∈ (λ '(_, s, r), (s, r)) <$> buffered_args cores ∨
  (senders_count, readers_count) ∈ unbuffered_args cores →
  1 ≤ senders_count ∧ 1 ≤ readers_count ∧ kCount + senders_count ≤ INT_MAX ∧ is_i32 readers_count.
Proof.
  intros Hc H0 H1 Hin.
  assert (kThreads cores = cores) as Hk.
  { apply i32_wrap_small. unfold is_i32, INT_MIN, INT_MAX in *. lia. }
  assert (1 ≤ senders_count ≤ cores + 2 ∧ 1 ≤ readers_count ≤ cores + 2) as [Hs Hr].
  { unfold buffered_args, unbuffered_args, kAnotherHalf, kHalf in Hin. rewrite !Hk in Hin.
    assert (0 ≤ Z.quot cores 2 ≤ cores) by (clear Hin; Z.to_euclidean_division_equations; lia).
    cbn [fmap list_fmap] in Hin. rewrite !elem_of_cons, !elem_of_nil in Hin.
    destruct_or!; simplify_eq; lia. }
  unfold is_i32, INT_MIN, INT_MAX in *. lia.
Qed.

Lemma all_done_joined {C} (b : bench C) :
  joined b ↔ forallb (λ s, bool_decide (s = SDone)) (senders b) &&
     match closer_ b with Closed => true | _ => false end &&
     forallb (λ r, match r with RDone => true | _ => false end) (readers b) = true.
Proof.
  unfold joined. rewrite !andb_true_iff, !forallb_forall. setoid_rewrite bool_decide_eq_true. split.
  - intros (Hs & -> & Hr). split_ands; [intros s Hin|done|intros r Hin].
    + apply (proj1 (Forall_forall _ _) Hs). done.
    + by rewrite (proj1 (Forall_forall _ _) Hr r Hin).
  - intros [[Hs Hc] Hr]. split_ands; [by apply Forall_forall|by destruct (closer_ b)|].
    apply Forall_forall. intros r Hin. specialize (Hr r Hin). by destruct r.
Qed.

(** A schedule that runs a round to its end. *)
Definition complete {C} (kCount : Z) (ch : Channel C) (senders_count readers_count : Z) (sched : list bench_thread) : Prop :=
  ∃ b, run (bench_step kCount (Z.to_nat senders_count)) sched
         (CalcSum (Z.to_nat senders_count) (Z.to_nat readers_count)) = Some b ∧ joined b.

(** A benchmark with its arguments passes: the thread counts are positive and the loop
    counter of a sender stays an [int]; no schedule of a round is longer than the bound;
    a round that has not ended can go on, one that has ended has the right sum, and it
    can be ended; and [Run] does not throw however often it is repeated. *)
Definition passes {C} (kCount : Z) (ch : Channel C) (senders_count readers_count : Z) : Prop :=
  let step := bench_step kCount (Z.to_nat senders_count) in
  let start := CalcSum (Z.to_nat senders_count) (Z.to_nat readers_count) in
  (1 ≤ senders_count ∧ 1 ≤ readers_count ∧ kCount + senders_count ≤ INT_MAX ∧ is_i32 readers_count) ∧
  terminates_within step (Z.to_nat (5 * kCount + senders_count + readers_count + 2)) start ∧
  (∀ b, reach step start b → (∃ a b', step a b = Some b') ∨ joined b ∧ Run kCount b = Some ()) ∧
  (∃ sched, complete kCount ch senders_count readers_count sched) ∧
  ∀ scheds, Forall (complete kCount ch senders_count readers_count) scheds →
    rounds kCount ch senders_count readers_count scheds = Some ().

Section benchmark.
Context {C : Type} (kCount : Z) (ch : Channel C) (laws : @ChannelLaws C ch) (s r : Z).
Context (params : bench_params kCount (Z.to_nat s) (Z.to_nat r)).
#[local] Set Default Proof Using "All".

Lemma complete_exists : ∃ sched, complete kCount ch s r sched.
Proof.
  destruct (run_to_goal (bench_step kCount (Z.to_nat s)) (λ b, joined b ∧ Run kCount b = Some ()) _ _
    (proj1 (bench_outcome kCount (Z.to_nat s) (Z.to_nat r) _ params (reach_refl _ _)))) as (sched & b & Hr & Hj & _).
  - intros b Hr. by destruct (bench_outcome kCount _ _ _ params Hr) as (_ & _ & ?).
  - by exists sched, b.
Qed.

Lemma round_right sched : complete kCount ch s r sched → round kCount ch s r sched = Some ().
Proof.
  intros (b & Hr & Hj). unfold round. rewrite Hr. cbn. rewrite (proj1 (all_done_joined b) Hj).
  pose proof (bench_reach _ _ _ _ params (run_reach _ _ _ _ Hr)) as HI.
  unfold Run. by rewrite (joined_sum _ _ _ _ params HI Hj), Z.eqb_refl.
Qed.

Lemma rounds_right scheds : Forall (complete kCount ch s r) scheds → rounds kCount ch s r scheds = Some ().
Proof. induction 1 as [|sched scheds Hc _ IH]; cbn; [done|]. by rewrite round_right. Qed.
End benchmark.

Lemma args_pass {C} (kCount : Z) (ch : Channel C) (laws : @ChannelLaws C ch) cores s r :
  0 ≤ kCount → 0 ≤ cores → kCount + cores ≤ INT_MAX - 2 →
  (s, r) ∈ (λ '(_, s, r), (s, r)) <$> buffered_args cores ∨ (s, r) ∈ unbuffered_args cores → passes kCount ch s r.
Proof.
  intros Hc H0 H1 Hin. pose proof (args_positive _ _ _ _ Hc H0 H1 Hin) as HA.
  assert (bench_params kCount (Z.to_nat s) (Z.to_nat r)) as HP by (unfold bench_params; lia).
  refine (conj HA (conj _ (conj _ (conj (complete_exists _ _ _ _ _ HP) (rounds_right _ _ _ _ _ HP))))).
  - pose proof (proj1 (bench_outcome kCount _ _ _ HP (reach_refl _ _))) as HT. by rewrite !Z2Nat.id in HT by lia.
  - intros b Hr. by destruct (bench_outcome kCount _ _ _ HP Hr) as (_ & _ & ?).
Qed.

(** * Properties *)

(** C20: The registered benchmarks pass, over any buffered and unbuffered
    channels that keep the promise of task.md, on any number of cores with
    [500000 + cores <= INT_MAX - 2] (also 0, when the number is not known): each
    registered buffer is positive, and with each registered set of arguments the
    benchmark [passes]. *)
Theorem registered_benchmarks_pass {C D} (buffered_ : nat → Channel C) (unbuffered_ : Channel D) cores :
  (∀ n, (0 < n)%nat → @ChannelLaws C (buffered_ n)) → @ChannelLaws D unbuffered_ →
  0 ≤ cores → buffered_kCount + cores ≤ INT_MAX - 2 →
  (∀ buff_size s r, (buff_size, s, r) ∈ buffered_args cores →
     0 < buff_size ∧ passes buffered_kCount (buffered_ (Z.to_nat buff_size)) s r) ∧
  (∀ s r, (s, r) ∈ unbuffered_args cores → passes unbuffered_kCount unbuffered_ s r).
Proof.
  intros LB LU H0 H1. split.
  - intros n s r Hin. assert (0 < n) as Hn.
    { unfold buffered_args in Hin. rewrite !elem_of_cons, elem_of_nil in Hin. destruct_or!; by simplify_eq. }
    split; [done|]. apply (args_pass _ (buffered_ (Z.to_nat n)) (LB (Z.to_nat n) ltac:(lia)) cores); [done..|left].
    apply list_elem_of_fmap. by exists (n, s, r).
  - intros s r Hin. apply (args_pass _ _ LU cores); [done|done| |by right].
    unfold buffered_kCount, unbuffered_kCount in *. lia.
Qed.

(** On a machine with one core, and on one that does not tell. *)
Lemma registered_benchmarks_pass_witness :
  buffered_args 1 = [(2, 2, 1); (10, 1, 1); (100000, 1, 1)] ∧
  passes buffered_kCount (buffered_channel 2) 2 1 ∧ passes unbuffered_kCount unbuffered_channel 1 1.
Proof.
  split; [reflexivity|]. split.
  - refine (proj2 (proj1 (registered_benchmarks_pass buffered_channel unbuffered_channel 1 _ _ _ _) 2 2 1 _));
      [exact buffered_laws|exact unbuffered_laws|lia|by vm_compute|apply list_elem_of_here].
  - refine (proj2 (registered_benchmarks_pass buffered_channel unbuffered_channel 0 _ _ _ _) 1 1 _);
      [exact buffered_laws|exact unbuffered_laws|lia|by vm_compute|].
    apply list_elem_of_further, list_elem_of_here.
Defined.
