(* ===== verification/Descriptors.v ===== *)
(** processes_and_threads: file descriptors across [fork] and [exec].

    An open file is a description (file, offset, append flag) that descriptors of
    several processes refer to; [fork] copies the table of descriptors, [exec] drops
    the entries with the close-on-exec flag.  In fork_fd.cpp the processes share one
    offset, so that their lines do not overwrite each other; in exec_fd.cpp the
    program writer.cpp gets the number of a descriptor as text and writes through it,
    or fails when the flag has closed it. *)

From S2P Require Import Prelude Machine QueuePrograms.
From Stdlib Require Import Ascii.
From stdpp Require Import pretty options.

(** * The kernel's part *)

Record description := Desc { file : string; offset : nat; appending : bool }.

Record system := System { files : gmap string (list byte); descriptions : list description }.

(** The descriptors of a process: the description and the close-on-exec flag. *)
Notation fd_table := (list (option (nat * bool))).

Fixpoint lowest_free (t : fd_table) : nat :=
  match t with
  | Some _ :: t' => S (lowest_free t')
  | _ => 0
  end.

Definition install (t : fd_table) (e : nat * bool) : fd_table :=
  take (lowest_free t) t ++ Some e :: drop (S (lowest_free t)) t.

(** [open] with [O_WRONLY | O_CREAT], and [O_APPEND], [O_TRUNC], [O_CLOEXEC]. *)
Definition open_file (path : string) (o_append o_trunc o_cloexec : bool) (k : system) (t : fd_table) :
    system * fd_table * nat :=
  let content := if o_trunc then [] else default [] (files k !! path) in
  let d := length (descriptions k) in
  (System (<[path:=content]> (files k)) (descriptions k ++ [Desc path 0 o_append]),
   install t (d, o_cloexec), lowest_free t).

(** The bytes [bs] at the position [pos] of a file. *)
Definition write_at (pos : nat) (bs content : list byte) : list byte :=
  take pos content ++ replicate (pos - length content) x00 ++ bs ++ drop (pos + length bs) content.

(** [write]: [None] is -1. *)
Definition write_fd (fd : nat) (bs : list byte) (k : system) (t : fd_table) : option system :=
  '(d, _) ← mjoin (t !! fd);
  desc ← descriptions k !! d;
  let content := default [] (files k !! file desc) in
  let pos := if appending desc then length content else offset desc in
  Some (System (<[file desc:=write_at pos bs content]> (files k))
          (<[d:=Desc (file desc) (pos + length bs) (appending desc)]> (descriptions k))).

(** [close]: [None] is -1. *)
Definition close_fd (fd : nat) (t : fd_table) : option fd_table :=
  _ ← mjoin (t !! fd); Some (<[fd:=None]> t).

Definition exec_table (t : fd_table) : fd_table :=
  (λ e, match e with Some (_, true) => None | _ => e end) <$> t.

(** Standard input, output and error, which are no files here. *)
Definition std_fds (d : nat) : fd_table := [Some (d, false); Some (d, false); Some (d, false)].

(** * [std::to_string] and [std::stoi] *)

Definition to_string (n : nat) : string := pretty n.

Definition signed (negative : bool) (s : string) : option Z :=
  match s with
  | String c _ =>
      if digit c then
        let v := (if negative then - digits 0 s else digits 0 s)%Z in
        if bool_decide (is_i32 v) then Some v else None
      else None
  | EmptyString => None
  end.

(** [None] is an exception. *)
Definition stoi (s : string) : option Z :=
  match skip_spaces s with
  | String "-"%char t => signed true t
  | String "+"%char t => signed false t
  | t => signed false t
  end.

Lemma digit_char (x : N) : (x < 10)%N → digit (pretty_N_char x) = Some (Z.of_N x).
Proof.
  intros H. assert (x ∈ (N.of_nat <$> seq 0 10)) as Hin.
  { apply list_elem_of_fmap. exists (N.to_nat x). split; [lia|]. apply elem_of_seq. lia. }
  clear H. revert x Hin. apply Forall_forall. by repeat constructor.
Qed.

(** Reading digits undoes printing them. *)
Lemma digits_pretty (x : N) (s : string) :
  digits 0 (pretty_N_go x s) = digits (Z.of_N x) s.
Proof.
  revert s. induction (N.lt_wf_0 x) as [x _ IH]. intros s. destruct (decide (x = 0%N)) as [->|Hx].
  - by rewrite pretty_N_go_0.
  - rewrite pretty_N_go_step by lia. rewrite IH by (apply N.div_lt; lia). cbn [digits].
    rewrite digit_char by (apply N.mod_lt; lia). f_equal.
    pose proof (N.div_mod x 10 ltac:(lia)). lia.
Qed.

(** What is printed begins with a digit. *)
Lemma pretty_first (x : N) (s : string) :
  (0 < x)%N → ∃ y r, (y < 10)%N ∧ pretty_N_go x s = String (pretty_N_char y) r.
Proof.
  revert s. induction (N.lt_wf_0 x) as [x _ IH]. intros s Hx. rewrite pretty_N_go_step by done.
  destruct (decide (x `div` 10 = 0)%N) as [E|E].
  - rewrite E, pretty_N_go_0. eexists _, _. split; [|done]. apply N.mod_lt. lia.
  - apply IH; [apply N.div_lt; lia|by apply N.neq_0_lt_0].
Qed.

Lemma stoi_digit (y : N) r : (y < 10)%N → stoi (String (pretty_N_char y) r) = signed false (String (pretty_N_char y) r).
Proof.
  intros H. assert (y ∈ (N.of_nat <$> seq 0 10)) as Hin.
  { apply list_elem_of_fmap. exists (N.to_nat y). split; [lia|]. apply elem_of_seq. lia. }
  clear H. revert y Hin. apply Forall_forall. by repeat constructor.
Qed.

Lemma stoi_to_string n : (Z.of_nat n ≤ INT_MAX)%Z → stoi (to_string n) = Some (Z.of_nat n).
Proof.
  intros Hn. unfold to_string, pretty, pretty_nat, pretty, pretty_N.
  case_decide as E; [by replace n with 0 by lia|].
  destruct (pretty_first (N.of_nat n) "" ltac:(lia)) as (y & r & Hy & Er).
  rewrite Er, (stoi_digit y r Hy). unfold signed. rewrite (digit_char y Hy), <- Er, digits_pretty.
  cbn [digits]. rewrite bool_decide_true; [f_equal; lia|]. unfold is_i32, INT_MIN, INT_MAX in *. lia.
Qed.

(** * exec_fd.cpp and writer.cpp *)

Inductive out_line := Out (text : string) | SystemError.

(** The end of a process: its status, what it printed, and the kernel. *)
Record exited := Exited { status : Z; lines : list out_line; system_ : system }.

Definition Message : list byte := bytes_of ("Write from child process" +:+ String (Ascii.ascii_of_nat 10) EmptyString).

(** [main] of writer.cpp; an exception ends the process with SIGABRT. *)
Definition writer_main (argv : list string) (k : system) (t : fd_table) : exited :=
  match argv with
  | [_; arg] =>
      match stoi arg with
      | None => Exited 134 [] k
      | Some fd =>
          if (fd <? 0)%Z then Exited 1 [SystemError] k else
          match write_fd (Z.to_nat fd) Message k t with
          | None => Exited 1 [SystemError] k
          | Some k' =>
              match close_fd (Z.to_nat fd) t with
              | None => Exited 1 [SystemError] k'
              | Some _ => Exited 0 [Out "Successfully written to file from child process"] k'
              end
          end
      end
  | _ => Exited 1 [Out "Invalid input"] k
  end.

(** [execl("./writer", ...)] in the child, when the program is there or not. *)
Definition execl_writer (present : bool) (argv : list string) (k : system) (t : fd_table) : exited :=
  if present then writer_main argv k (exec_table t) else Exited 1 [SystemError] k.

(** [RunExample]: the child runs to its end while the parent waits.  [None] is a
    failed [close], which ends the program. *)
Definition RunExample (present closeOnExec : bool) (k : system) (t : fd_table) :
    option (system * fd_table) * list out_line :=
  let '(k1, t1, fd) := open_file "example.txt" true false closeOnExec k t in
  let child := execl_writer present ["writer"; to_string fd] k1 t1 in
  let printed := lines child ++ [Out "-----------------------"] in
  match close_fd fd t1 with
  | Some t2 => (Some (system_ child, t2), printed)
  | None => (None, printed ++ [SystemError])
  end.

Definition exec_fd_main (present : bool) (k : system) (t : fd_table) : option (system * fd_table) * list out_line :=
  match RunExample present false k t with
  | (Some (k1, t1), l1) => let '(r, l2) := RunExample present true k1 t1 in (r, l1 ++ l2)
  | (None, l1) => (None, l1)
  end.

(** ** Lemmas *)

Lemma install_lookup t e : install t e !! lowest_free t = Some (Some e).
Proof.
  unfold install. assert (lowest_free t ≤ length t) as Hl by (induction t as [|[] t IH]; simpl; lia).
  rewrite lookup_app_r; rewrite length_take, Nat.min_l by done; [|lia]. by rewrite Nat.sub_diag.
Qed.

Lemma install_free t e : lowest_free t < length t → <[lowest_free t:=None]> (install t e) = t.
Proof.
  unfold install. induction t as [|[x|] t IH]; simpl; [lia| |done]. intros H. by rewrite IH by lia.
Qed.

(** The table after [open] and [close]: the descriptor is free again. *)
Definition closed_again (t : fd_table) : fd_table := <[lowest_free t:=None]> (install t (0, false)).

Lemma closed_again_any t e : <[lowest_free t:=None]> (install t e) = closed_again t.
Proof.
  unfold closed_again, install. assert (lowest_free t ≤ length t) as Hl by (induction t as [|[] t IH]; simpl; lia).
  rewrite !insert_app_r_alt by (rewrite length_take; lia). by rewrite length_take, Nat.min_l, Nat.sub_diag by done.
Qed.

Lemma write_at_end bs content : write_at (length content) bs content = content ++ bs.
Proof.
  unfold write_at. rewrite take_ge, Nat.sub_diag, drop_ge by lia. simpl. by rewrite app_nil_r.
Qed.

Lemma closed_again_lowest t : lowest_free (closed_again t) = lowest_free t.
Proof. unfold closed_again, install. induction t as [|[x|] t IH]; simpl; [done| |done]. by f_equal. Qed.

(** The same descriptors are open. *)
Lemma closed_again_lookup t fd : mjoin (closed_again t !! fd) = mjoin (t !! fd).
Proof.
  unfold closed_again, install. revert fd. induction t as [|[x|] t IH]; intros [|fd]; simpl; done.
Qed.

Lemma close_installed t e : close_fd (lowest_free t) (install t e) = Some (closed_again t).
Proof. unfold close_fd. rewrite install_lookup. cbn. by rewrite closed_again_any. Qed.

(** The writer with a descriptor that is open, and with one that is not. *)
Lemma writer_writes fd e k k' t :
  (Z.of_nat fd ≤ INT_MAX)%Z → mjoin (t !! fd) = Some e → write_fd fd Message k t = Some k' →
  writer_main ["writer"; to_string fd] k t =
    Exited 0 [Out "Successfully written to file from child process"] k'.
Proof.
  intros Hb Hfd Hw. unfold writer_main. rewrite stoi_to_string by done.
  rewrite (proj2 (Z.ltb_ge _ _)) by lia. rewrite Nat2Z.id, Hw. unfold close_fd. by rewrite Hfd.
Qed.

Lemma writer_fails fd k t :
  (Z.of_nat fd ≤ INT_MAX)%Z → mjoin (t !! fd) = None →
  writer_main ["writer"; to_string fd] k t = Exited 1 [SystemError] k.
Proof.
  intros Hb Hfd. unfold writer_main. rewrite stoi_to_string by done.
  rewrite (proj2 (Z.ltb_ge _ _)) by lia. rewrite Nat2Z.id. unfold write_fd. by rewrite Hfd.
Qed.

(** The child writes through the descriptor it inherits. *)
Lemma run_example_inherits k t :
  (Z.of_nat (lowest_free t) ≤ INT_MAX)%Z →
  ∃ k', RunExample true false k t =
      (Some (k', closed_again t),
       [Out "Successfully written to file from child process"; Out "-----------------------"]) ∧
    files k' = <["example.txt":=default [] (files k !! "example.txt") ++ Message]> (files k).
Proof.
  intros Hb. unfold RunExample, open_file, execl_writer. set (d := length (descriptions k)).
  assert (mjoin (exec_table (install t (d, false)) !! lowest_free t) = Some (d, false)) as Hfd.
  { unfold exec_table. by rewrite list_lookup_fmap, install_lookup. }
  erewrite writer_writes; [|done|exact Hfd|].
  2: { unfold write_fd. rewrite Hfd. cbn [mbind option_bind descriptions].
    rewrite lookup_app_r by lia. unfold d at 1. rewrite Nat.sub_diag. reflexivity. }
  rewrite close_installed. cbn [system_ lines file appending offset files].
  eexists. split; [done|]. cbn [files]. rewrite lookup_insert_eq. cbn [default].
  by rewrite write_at_end, insert_insert_eq.
Qed.

(** With the flag the descriptor is gone, and the file is only created. *)
Lemma run_example_closes k t :
  (Z.of_nat (lowest_free t) ≤ INT_MAX)%Z →
  ∃ k', RunExample true true k t =
      (Some (k', closed_again t), [SystemError; Out "-----------------------"]) ∧
    files k' = <["example.txt":=default [] (files k !! "example.txt")]> (files k).
Proof.
  intros Hb. unfold RunExample, open_file, execl_writer.
  rewrite writer_fails; [|done|by unfold exec_table; rewrite list_lookup_fmap, install_lookup].
  rewrite close_installed. by eexists.
Qed.

(** * fork_fd.cpp *)

(** A process at its [write], at its [close], ended, or ended by an error. *)
Inductive fork_proc := FWrite (message : list byte) | FClose | FEnd | FFailed.

Record forked := Forked { table : fd_table; proc : fork_proc }.

Definition fork_fd_step (fd : nat) (_ : nat) (_ : unit) (k : system) (p : forked) : option (system * forked) :=
  match proc p with
  | FWrite m =>
      match write_fd fd m k (table p) with
      | Some k' => Some (k', Forked (table p) FClose)
      | None => Some (k, Forked (table p) FFailed)
      end
  | FClose =>
      match close_fd fd (table p) with
      | Some t => Some (k, Forked t FEnd)
      | None => Some (k, Forked (table p) FFailed)
      end
  | FEnd | FFailed => None
  end.

(** After the [open] and the [fork]s: a process for each message. *)
Definition fork_fd_main (messages : list (list byte)) (k : system) (t : fd_table) : conf system forked :=
  let '(k1, t1, fd) := open_file "example.txt" false true false k t in
  Conf k1 ((λ m, Forked t1 (FWrite m)) <$> messages).

(** ** The invariant *)

Section fork_fd.
Context (messages : list (list byte)) (k : system) (t : fd_table).

Local Notation fd := (lowest_free t).
Local Notation d := (length (descriptions k)).

Definition unwritten (p : forked) : option (list byte) :=
  match proc p with FWrite m => Some m | _ => None end.

Definition proc_ok (p : forked) : Prop :=
  match proc p with
  | FWrite _ | FClose => mjoin (table p !! fd) = Some (d, false)
  | FEnd => mjoin (table p !! fd) = None
  | FFailed => False
  end.

Record fork_inv (c : conf system forked) (order : list (list byte)) : Prop := {
  inv_desc : descriptions (shared c) !! d = Some (Desc "example.txt" (length (concat order)) false);
  inv_file : files (shared c) !! "example.txt" = Some (concat order);
  inv_rest : ∀ f, f ≠ "example.txt" → files (shared c) !! f = files k !! f;
  inv_messages : order ++ omap unwritten (threads c) ≡ₚ messages;
  inv_procs : Forall proc_ok (threads c) }.

Lemma fork_start : fork_inv (fork_fd_main messages k t) [].
Proof.
  unfold fork_fd_main, open_file. constructor; cbn [shared threads descriptions files].
  - rewrite lookup_app_r by lia. by rewrite Nat.sub_diag.
  - by rewrite lookup_insert_eq.
  - intros f Hf. by rewrite lookup_insert_ne.
  - simpl. induction messages as [|m ms IH]; [done|]. cbn. by rewrite IH.
  - apply Forall_fmap, Forall_true. intros m. cbn. by rewrite install_lookup.
Qed.

Lemma fork_write c order i p m :
  fork_inv c order → threads c !! i = Some p → proc p = FWrite m →
  ∃ k', write_fd fd m (shared c) (table p) = Some k' ∧
    fork_inv (Conf k' (<[i:=Forked (table p) FClose]> (threads c))) (order ++ [m]).
Proof.
  intros HI Hi Hp. pose proof (proj1 (Forall_lookup _ _) (inv_procs _ _ HI) _ _ Hi) as Hok.
  unfold proc_ok in Hok. rewrite Hp in Hok.
  unfold write_fd. rewrite Hok. cbn [mbind option_bind]. rewrite (inv_desc _ _ HI). cbn [mbind option_bind file appending offset].
  rewrite (inv_file _ _ HI). cbn [default]. rewrite write_at_end. eexists. split; [done|].
  assert (concat (order ++ [m]) = concat order ++ m) as Ec by (rewrite concat_app; simpl; by rewrite app_nil_r).
  constructor; cbn [shared threads descriptions files].
  - rewrite list_lookup_insert_eq by (eapply lookup_lt_Some, (inv_desc _ _ HI)). by rewrite Ec, length_app.
  - by rewrite lookup_insert_eq, Ec.
  - intros f Hf. rewrite lookup_insert_ne by done. by apply (inv_rest _ _ HI).
  - pose proof (omap_pick_perm unwritten _ _ _ (Forked (table p) FClose) Hi) as Hperm.
    unfold unwritten in Hperm at 1 3. cbn in Hperm. rewrite Hp in Hperm. cbn in Hperm.
    rewrite <- (inv_messages _ _ HI), Hperm. by rewrite <- app_assoc.
  - apply Forall_insert; [apply HI|]. done.
Qed.

Lemma fork_close c order i p :
  fork_inv c order → threads c !! i = Some p → proc p = FClose →
  ∃ t', close_fd fd (table p) = Some t' ∧ fork_inv (Conf (shared c) (<[i:=Forked t' FEnd]> (threads c))) order.
Proof.
  intros HI Hi Hp. pose proof (proj1 (Forall_lookup _ _) (inv_procs _ _ HI) _ _ Hi) as Hok.
  unfold proc_ok in Hok. rewrite Hp in Hok. unfold close_fd. rewrite Hok. cbn [mbind option_bind].
  eexists. split; [done|]. constructor; cbn [shared threads]; try apply HI.
  - pose proof (omap_pick_perm unwritten _ _ _ (Forked (<[fd:=None]> (table p)) FEnd) Hi) as Hperm.
    unfold unwritten in Hperm at 1 3. cbn in Hperm. rewrite Hp in Hperm. cbn in Hperm.
    rewrite <- Hperm. apply HI.
  - apply Forall_insert; [apply HI|]. cbn. unfold proc_ok. cbn.
    rewrite list_lookup_insert_eq; [done|]. destruct (table p !! fd) eqn:E; [|done]. by eapply lookup_lt_Some.
Qed.

Lemma fork_preserves a c c' order :
  fork_inv c order → conf_step (fork_fd_step fd) a c = Some c' → ∃ order', fork_inv c' order'.
Proof.
  intros HI (p & g' & p' & Hi & Hs & ->)%conf_step_inv. unfold fork_fd_step in Hs.
  destruct (proc p) as [m| | |] eqn:Hp; try done.
  - destruct (fork_write _ _ _ _ _ HI Hi Hp) as (k' & Hw & HI'). rewrite Hw in Hs. simplify_eq. by eexists.
  - destruct (fork_close _ _ _ _ HI Hi Hp) as (t' & Hc & HI'). rewrite Hc in Hs. simplify_eq. by eexists.
Qed.

Lemma fork_reach c :
  reach (conf_step (fork_fd_step fd)) (fork_fd_main messages k t) c → ∃ order, fork_inv c order.
Proof.
  apply (reach_inv _ (λ c, ∃ order, fork_inv c order)); [eexists; apply fork_start|].
  intros a c1 c2 [order HI] Hs. by eapply fork_preserves.
Qed.

Definition proc_left (p : forked) : nat := match proc p with FWrite _ => 2 | FClose => 1 | _ => 0 end.

Lemma proc_left_step i g p g' p' :
  fork_fd_step fd i tt g p = Some (g', p') → proc_left p' < proc_left p.
Proof.
  unfold fork_fd_step, proc_left. destruct (proc p); intros H; try done;
    case_match; simplify_eq/=; lia.
Qed.

End fork_fd.

(** * Properties *)

(** C32: fork_fd.cpp.  Processes that write through one inherited description
    do not overwrite each other: for any messages (the program has two), any state
    of the system before, and every interleaving, no schedule is longer than two
    steps for each process, and a run that cannot go on has ended with the file
    consisting of all messages, whole, in some order, the other files untouched and
    the descriptor closed in every process. *)
Theorem fork_fd_keeps_all messages k t c :
  reach (conf_step (fork_fd_step (lowest_free t))) (fork_fd_main messages k t) c →
  terminates_within (conf_step (fork_fd_step (lowest_free t))) (2 * length messages) (fork_fd_main messages k t) ∧
  ((∃ a c', conf_step (fork_fd_step (lowest_free t)) a c = Some c') ∨
   (∃ order, order ≡ₚ messages ∧ files (shared c) !! "example.txt" = Some (concat order)) ∧
   (∀ f, f ≠ "example.txt" → files (shared c) !! f = files k !! f) ∧
   Forall (λ p, proc p = FEnd ∧ mjoin (table p !! lowest_free t) = None) (threads c)).
Proof.
  intros Hr. destruct (fork_reach _ _ _ _ Hr) as [order HI]. split.
  - set (work := λ c : conf system forked, sum_list_with proc_left (threads c)).
    assert (work (fork_fd_main messages k t) = 2 * length messages) as <-.
    { unfold work, fork_fd_main, open_file. cbn [threads]. clear. induction messages as [|m ms IH]; [done|].
      cbn [fmap list_fmap sum_list_with length]. rewrite IH. simpl. lia. }
    apply (measure_terminates _ (λ _, True) work); [done|].
    intros a c1 c2 _ (p & g' & p' & Hi & Hs & ->)%conf_step_inv. split; [done|]. unfold work. cbn [threads].
    pose proof (sum_insert proc_left _ _ _ p' Hi). destruct (choice a). apply proc_left_step in Hs. lia.
  - destruct (Forall_or_witness (λ p, match proc p with FEnd => true | _ => false end) (threads c))
      as [HD|(i & p & Hi & Hp)].
    + right. pose proof (inv_procs _ _ _ _ _ HI) as HP. split_ands.
      * exists order. split; [|apply HI]. rewrite <- (inv_messages _ _ _ _ _ HI).
        replace (omap unwritten (threads c)) with (@nil (list byte)); [by rewrite app_nil_r|].
        clear - HD. induction HD as [|p l Hp _ IH]; [done|]. cbn. unfold unwritten at 1.
        destruct (proc p); try done.
      * apply HI.
      * apply Forall_lookup. intros i p Hi. pose proof (proj1 (Forall_lookup _ _) HD _ _ Hi) as Hd.
        pose proof (proj1 (Forall_lookup _ _) HP _ _ Hi) as Hok. unfold proc_ok in Hok. cbn in Hd. destruct (proc p); done.
    + left. exists (Act i tt). apply (conf_step_enabled _ _ _ _ _ Hi). unfold fork_fd_step.
      pose proof (proj1 (Forall_lookup _ _) (inv_procs _ _ _ _ _ HI) _ _ Hi) as Hok. unfold proc_ok in Hok.
      destruct (proc p); try done; case_match; eauto.
Qed.

(** The program itself: "Hello from parent" and "Hello from child". *)
Definition hello (who : string) : list byte :=
  bytes_of ("Hello from " +:+ who +:+ String (Ascii.ascii_of_nat 10) EmptyString).

Lemma fork_fd_keeps_all_witness :
  let start := fork_fd_main [hello "parent"; hello "child"] (System ∅ []) (std_fds 0) in
  let step := conf_step (fork_fd_step (lowest_free (std_fds 0))) in
  (∃ c, run step [Act 1 tt; Act 0 tt; Act 1 tt; Act 0 tt] start = Some c ∧
     files (shared c) !! "example.txt" = Some (hello "child" ++ hello "parent")) ∧
  terminates_within step 4 start.
Proof.
  split; [eexists; split; [vm_compute; reflexivity|vm_compute; reflexivity]|].
  exact (proj1 (fork_fd_keeps_all [hello "parent"; hello "child"] (System ∅ []) (std_fds 0) _ (reach_refl _ _))).
Defined.

(** exec_fd.cpp and writer.cpp.  Whatever the file holds before and
    whatever descriptors are open, as long as their numbers are [int]s: the first
    example appends the writer's line through the inherited descriptor, whose
    number survives the way through its text; in the second the close-on-exec flag
    makes the writer fail and the file stays as it is; afterwards the same
    descriptors are open as before. *)
Theorem exec_fd_inherits k t :
  (Z.of_nat (lowest_free t) ≤ INT_MAX)%Z →
  ∃ k' t', exec_fd_main true k t =
      (Some (k', t'),
       [Out "Successfully written to file from child process"; Out "-----------------------";
        SystemError; Out "-----------------------"]) ∧
    files k' = <["example.txt":=default [] (files k !! "example.txt") ++ Message]> (files k) ∧
    ∀ fd, mjoin (t' !! fd) = mjoin (t !! fd).
Proof.
  intros Hb. destruct (run_example_inherits k t Hb) as (k1 & E1 & F1).
  destruct (run_example_closes k1 (closed_again t)) as (k2 & E2 & F2); [by rewrite closed_again_lowest|].
  exists k2, (closed_again (closed_again t)). unfold exec_fd_main. rewrite E1, E2. split_ands; [done| |].
  - rewrite F2, F1, lookup_insert_eq. cbn. by rewrite insert_insert_eq.
  - intros fd. by rewrite !closed_again_lookup.
Qed.

Lemma exec_fd_inherits_witness :
  ∃ k' t', exec_fd_main true (System ∅ []) (std_fds 0) =
      (Some (k', t'),
       [Out "Successfully written to file from child process"; Out "-----------------------";
        SystemError; Out "-----------------------"]) ∧
    files k' = <["example.txt":=default [] (files (System ∅ []) !! "example.txt") ++ Message]> (files (System ∅ [])) ∧
    ∀ fd, mjoin (t' !! fd) = mjoin (std_fds 0 !! fd).
Proof. apply (exec_fd_inherits (System ∅ []) (std_fds 0)). vm_compute. discriminate. Defined.
