(* ===== verification/Signals.v ===== *)
(** ipc/signals.cpp, ipc/sema.cpp and processes_and_threads/stl/jthread.cpp: one party
    tells another that it may go on, by a signal, a semaphore or a stop request.

    The party that is told may poll for as long as it likes, so that schedules have
    no bound; what is bounded is the number of the other steps, and as long as the
    program has not ended one of those is possible.  Sleeps are nothing. *)

From S2P Require Import Prelude Machine.
From stdpp Require Import options.

(** * signals.cpp *)

Module Signal.

Inductive signal := SIGUSR1 | SIGTERM.

Inductive line :=
  | WaitingUsr
  | WaitingTerm
  | SentUsr
  | SentTerm
  | ParentExited.

(** The parent: before each [kill], each line, [wait], the last line; at its end. *)
Inductive parent := PKillUsr | PSayUsr | PKillTerm | PSayTerm | PWait | PExit | PDone.

(** The child: before [signal()]; before the test of the flag; in the bodies of the
    two loops; killed. *)
Inductive child := CInstall | CTest | CSayUsr | CSayTerm | CKilled (by_ : signal).

(** The processes; whether the child has its handler; the signals that have been
    sent and not delivered; the flag the handler sets; the output. *)
Record state := State {
  parentP : parent; childP : child; installed : bool;
  usrPending : bool; termPending : bool; g_sigUsrReceived : bool; output : list line }.

Definition say (l : line) (s : state) : state :=
  State (parentP s) (childP s) (installed s) (usrPending s) (termPending s) (g_sigUsrReceived s)
    (output s ++ [l]).

Definition set_parent (p : parent) (s : state) : state :=
  State p (childP s) (installed s) (usrPending s) (termPending s) (g_sigUsrReceived s) (output s).

Definition set_child (l : child) (s : state) : state :=
  State (parentP s) l (installed s) (usrPending s) (termPending s) (g_sigUsrReceived s) (output s).

(** [kill]: it succeeds also when the child is gone but not waited for. *)
Definition kill (g : signal) (s : state) : state :=
  let usr := match g with SIGUSR1 => true | SIGTERM => usrPending s end in
  let term := match g with SIGTERM => true | SIGUSR1 => termPending s end in
  State (parentP s) (childP s) (installed s) usr term (g_sigUsrReceived s) (output s).

Definition killed (s : state) : bool := match childP s with CKilled _ => true | _ => false end.

Definition signal_parent_move (s : state) : option state :=
  match parentP s with
  | PKillUsr => Some (set_parent PSayUsr (kill SIGUSR1 s))
  | PSayUsr => Some (set_parent PKillTerm (say SentUsr s))
  | PKillTerm => Some (set_parent PSayTerm (kill SIGTERM s))
  | PSayTerm => Some (set_parent PWait (say SentTerm s))
  | PWait => if killed s then Some (set_parent PExit s) else None
  | PExit => Some (set_parent PDone (say ParentExited s))
  | PDone => None
  end.

Definition signal_child_move (s : state) : option state :=
  match childP s with
  | CInstall =>
      Some (State (parentP s) CTest true (usrPending s) (termPending s) (g_sigUsrReceived s) (output s))
  | CTest => Some (set_child (if g_sigUsrReceived s then CSayTerm else CSayUsr) s)
  | CSayUsr => Some (set_child CTest (say WaitingUsr s))
  | CSayTerm => Some (say WaitingTerm s)
  | CKilled _ => None
  end.

(** A signal reaches the child: [SigUsrHandler] runs, or the child is killed. *)
Definition deliver (g : signal) (s : state) : option state :=
  if killed s then None else
  match g with
  | SIGUSR1 =>
      if usrPending s then
        Some (if installed s
              then State (parentP s) (childP s) true false (termPending s) true (output s)
              else State (parentP s) (CKilled SIGUSR1) false false (termPending s) (g_sigUsrReceived s) (output s))
      else None
  | SIGTERM =>
      if termPending s then
        Some (State (parentP s) (CKilled SIGTERM) (installed s) (usrPending s) false
                (g_sigUsrReceived s) (output s))
      else None
  end.

Inductive action := MoveParent | MoveChild | Deliver (g : signal).

Definition signals_step (a : action) (s : state) : option state :=
  match a with
  | MoveParent => signal_parent_move s
  | MoveChild => signal_child_move s
  | Deliver g => deliver g s
  end.

(** After the fork. *)
Definition signals_main : state := State PKillUsr CInstall false false false false [].

Definition not_child (a : action) : bool := match a with MoveChild => false | _ => true end.

(** ** The invariant *)

(** The lines of the parent, and those of the child. *)
Definition of_parent (l : line) : bool :=
  match l with SentUsr | SentTerm | ParentExited => true | _ => false end.

Definition parent_lines (s : state) : list line := List.filter of_parent (output s).

Definition child_lines (s : state) : list line := List.filter (λ l, negb (of_parent l)) (output s).

Definition said (p : parent) : list line :=
  match p with
  | PKillUsr | PSayUsr => []
  | PKillTerm | PSayTerm => [SentUsr]
  | PWait | PExit => [SentUsr; SentTerm]
  | PDone => [SentUsr; SentTerm; ParentExited]
  end.

Definition usrSent (p : parent) : bool := match p with PKillUsr => false | _ => true end.

Definition termSent (p : parent) : bool :=
  match p with PSayTerm | PWait | PExit | PDone => true | _ => false end.

(** What the child has printed, from where it is. *)
Definition heard (s : state) : Prop :=
  match childP s with
  | CInstall | CKilled SIGUSR1 => installed s = false ∧ child_lines s = []
  | CTest | CSayUsr => installed s = true ∧ ∃ n, child_lines s = replicate n WaitingUsr
  | CSayTerm =>
      installed s = true ∧ g_sigUsrReceived s = true ∧
      ∃ n m, child_lines s = replicate n WaitingUsr ++ replicate m WaitingTerm
  | CKilled SIGTERM =>
      ∃ n m, child_lines s = replicate n WaitingUsr ++ replicate m WaitingTerm ∧
        (0 < n + m → installed s = true) ∧ (0 < m → g_sigUsrReceived s = true)
  end.

Definition killed_by (g : signal) (s : state) : bool :=
  match childP s, g with
  | CKilled SIGUSR1, SIGUSR1 | CKilled SIGTERM, SIGTERM => true
  | _, _ => false
  end.

Definition waited (p : parent) : bool := match p with PExit | PDone => true | _ => false end.

(** How the signals on their way and the end of the child go with what the parent
    has done. *)
Definition consistent (s : state) : bool :=
  implb (usrPending s || g_sigUsrReceived s || killed_by SIGUSR1 s) (usrSent (parentP s)) &&
  implb (termPending s || killed_by SIGTERM s) (termSent (parentP s)) &&
  implb (termSent (parentP s)) (termPending s || killed s) &&
  implb (waited (parentP s)) (killed s).

Record signals_inv (s : state) : Prop := {
  inv_said : parent_lines s = said (parentP s);
  inv_heard : heard s;
  inv_consistent : consistent s = true }.

Lemma consistent_step a s s' : consistent s = true → signals_step a s = Some s' → consistent s' = true.
Proof.
  destruct s as [p l i u t f out]. intros HI Hs.
  destruct a as [| |[]]; [destruct p| |..]; (destruct l as [| | | |[]]); destruct i, u, t, f;
    try discriminate; cbn in Hs; simplify_eq/=; try done; by destruct p.
Qed.

Lemma said_step a s s' : signals_inv s → signals_step a s = Some s' → parent_lines s' = said (parentP s').
Proof.
  intros [Hsaid _ _] Hs. destruct s as [p l i u t f out]. unfold parent_lines in *. cbn in Hsaid.
  destruct a as [| |g]; unfold signals_step, signal_parent_move, signal_child_move, deliver in Hs; cbn in Hs.
  - destruct p; inv_opt; cbn; rewrite ?List.filter_app, Hsaid; done.
  - destruct l; inv_opt; cbn; rewrite ?List.filter_app, Hsaid; cbn; by rewrite ?app_nil_r.
  - destruct g, i; inv_opt; exact Hsaid.
Qed.

Lemma heard_parent s s' : heard s → signal_parent_move s = Some s' → heard s'.
Proof.
  intros Hh Hs. destruct s as [p l i u t f out]. unfold signal_parent_move in Hs. cbn in Hs.
  destruct p; inv_opt; unfold heard, child_lines in *; cbn in *; rewrite ?List.filter_app; cbn;
    rewrite ?app_nil_r; exact Hh.
Qed.

Lemma replicate_snoc {A} n (x : A) : replicate n x ++ [x] = replicate (S n) x.
Proof. by rewrite <- replicate_cons_app. Qed.

Lemma heard_child s s' : heard s → signal_child_move s = Some s' → heard s'.
Proof.
  intros Hh Hs. destruct s as [p l i u t f out]. unfold signal_child_move in Hs. cbn in Hs.
  destruct l; simplify_eq; unfold heard, child_lines in *; cbn in *; rewrite ?List.filter_app; cbn.
  - split; [done|]. exists 0. by destruct Hh.
  - destruct Hh as [-> [n Hn]]. destruct f; cbn; [|by eauto].
    split_ands; [done..|]. exists n, 0. by rewrite app_nil_r.
  - destruct Hh as [-> [n Hn]]. split; [done|]. exists (S n). by rewrite Hn, replicate_snoc.
  - destruct Hh as (-> & -> & n & m & Hn). split_ands; [done..|].
    exists n, (S m). by rewrite Hn, <- app_assoc, replicate_snoc.
Qed.

Lemma heard_deliver g s s' : heard s → deliver g s = Some s' → heard s'.
Proof.
  intros Hh Hs. destruct s as [p l i u t f out]. unfold deliver in Hs. cbn in Hs.
  destruct g, l, i; cbn in Hs; inv_opt; unfold heard, child_lines in *; cbn in *;
    try done; try (destruct Hh as [? _]; done).
  - destruct Hh as (_ & _ & n & m & Hn). by eauto.
  - destruct Hh as [_ Hn]. exists 0, 0. rewrite Hn. split_ands; [done|lia..].
  - destruct Hh as [_ [n Hn]]. exists n, 0. rewrite Hn, app_nil_r. split_ands; [done..|lia].
  - destruct Hh as [_ [n Hn]]. exists n, 0. rewrite Hn, app_nil_r. split_ands; [done..|lia].
  - destruct Hh as (_ & Hf & n & m & Hn). by exists n, m.
Qed.

Lemma signals_reach s : reach signals_step signals_main s → signals_inv s.
Proof.
  apply reach_inv; [by constructor|]. intros a s1 s2 HI Hs. constructor.
  - by eapply said_step.
  - destruct HI as [_ Hh _]. destruct a as [| |g]; [eapply heard_parent|eapply heard_child|eapply heard_deliver]; done.
  - destruct HI as [_ _ Hc]. by eapply consistent_step.
Qed.

(** ** Termination *)

Definition signal_left (p : parent) : nat :=
  match p with
  | PKillUsr => 8 | PSayUsr => 6 | PKillTerm => 5 | PSayTerm => 3 | PWait => 2 | PExit => 1 | PDone => 0
  end.

Definition work (s : state) : nat :=
  signal_left (parentP s) + Nat.b2n (usrPending s) + Nat.b2n (termPending s).

Lemma signals_work_step a s s' :
  signals_step a s = Some s' → work s' + Nat.b2n (not_child a) ≤ work s.
Proof.
  destruct s as [p l i u t f out]. unfold work. intros Hs.
  destruct a as [| |[]]; unfold signals_step, signal_parent_move, signal_child_move, deliver in Hs; cbn in Hs;
    [destruct p|destruct l|destruct l, i|destruct l]; destruct u, t; inv_opt; cbn; lia.
Qed.

Definition ended (s : state) : Prop := parentP s = PDone ∧ killed s = true.

Lemma signals_progress s :
  signals_inv s → ended s ∨ ∃ a s', not_child a = true ∧ signals_step a s = Some s'.
Proof.
  intros [_ _ Hc]. destruct s as [p l i u t f out]. unfold ended.
  destruct p; try (right; exists MoveParent; eexists; split; [done|reflexivity]).
  - destruct (killed (State PWait l i u t f out)) eqn:E.
    + right. exists MoveParent. eexists. split; [done|]. cbn. unfold signal_parent_move. by rewrite E.
    + right. exists (Deliver SIGTERM). unfold consistent in Hc. cbn in *. rewrite E in Hc.
      destruct t; [|by destruct u, f, l as [| | | |[]]]. eexists. split; [done|]. unfold deliver.
      by rewrite E.
  - left. split; [done|]. unfold consistent in Hc. cbn in *. by destruct t, u, f, l as [| | | |[]].
Qed.

(** ** Properties *)

(** C34: signals.cpp, under every interleaving of the processes and every
    delay of the signals.  The parent's steps and the deliveries number at most
    eight, and until both processes have ended one of them is possible, whatever
    the child does in its loops; the parent's lines come in their order; the child
    first prints only that it waits for SIGUSR1 and then only that it waits for
    SIGTERM, and the latter only when its handler has run; and SIGUSR1 kills the
    child only before the handler is installed. *)
Theorem signals_end s :
  reach signals_step signals_main s →
  (∀ sched s', run signals_step sched signals_main = Some s' → count not_child sched ≤ 8) ∧
  (ended s ∨ ∃ a s', not_child a = true ∧ signals_step a s = Some s') ∧
  (∃ rest, parent_lines s ++ rest = [SentUsr; SentTerm; ParentExited] ∧ (ended s → rest = [])) ∧
  (∃ n m, child_lines s = replicate n WaitingUsr ++ replicate m WaitingTerm ∧
     (0 < m → g_sigUsrReceived s = true)) ∧
  (childP s = CKilled SIGUSR1 → installed s = false ∧ child_lines s = []).
Proof.
  intros HI%signals_reach. split_ands.
  - intros sched s' Hr.
    pose proof (measure_counts signals_step not_child (λ _, True) work sched signals_main s' I) as H.
    cbn in H. enough (count not_child sched + work s' ≤ 8) by lia. apply H; [|done].
    intros a s1 s2 _ Hs. split; [done|]. by apply signals_work_step.
  - by apply signals_progress.
  - rewrite (inv_said _ HI). unfold ended. exists (drop (length (said (parentP s))) [SentUsr; SentTerm; ParentExited]).
    split; [by destruct (parentP s)|]. by intros [-> _].
  - pose proof (inv_heard _ HI) as Hh. unfold heard in Hh.
    destruct (childP s) as [| | | |[]]; try (destruct Hh as [_ Hn]; rewrite ?Hn).
    + exists 0, 0. split; [done|lia].
    + destruct Hn as [n ->]. exists n, 0. split; [by rewrite app_nil_r|lia].
    + destruct Hn as [n ->]. exists n, 0. split; [by rewrite app_nil_r|lia].
    + destruct Hn as (Hf & n & m & ->). by exists n, m.
    + exists 0, 0. split; [done|lia].
    + destruct Hh as (n & m & -> & _ & Hf). by exists n, m.
  - intros Hk. pose proof (inv_heard _ HI) as Hh. unfold heard in Hh. by rewrite Hk in Hh.
Qed.

(** The run the program means to show, with the child polling once in each loop. *)
Lemma signals_end_witness :
  ∃ s, run signals_step
      [MoveChild; MoveChild; MoveChild; MoveParent; MoveParent; Deliver SIGUSR1; MoveChild; MoveChild;
       MoveParent; MoveParent; Deliver SIGTERM; MoveParent; MoveParent] signals_main = Some s ∧
    output s = [WaitingUsr; SentUsr; WaitingTerm; SentTerm; ParentExited] ∧
    (∃ n m, child_lines s = replicate n WaitingUsr ++ replicate m WaitingTerm ∧
       (0 < m → g_sigUsrReceived s = true)).
Proof.
  eexists. split; [vm_compute; reflexivity|]. split; [reflexivity|].
  refine (proj1 (proj2 (proj2 (proj2 (signals_end _ _))))).
  apply (run_reach _ [MoveChild; MoveChild; MoveChild; MoveParent; MoveParent; Deliver SIGUSR1; MoveChild; MoveChild;
       MoveParent; MoveParent; Deliver SIGTERM; MoveParent; MoveParent]). vm_compute. reflexivity.
Defined.

(** Nothing but the sleep keeps the parent from sending SIGUSR1 before the child
    has a handler; then the child dies without a word. *)
Lemma signals_startup_race :
  ∃ s, run signals_step [MoveParent; Deliver SIGUSR1] signals_main = Some s ∧
    childP s = CKilled SIGUSR1 ∧ output s = [].
Proof. by eexists. Qed.

End Signal.

(** * sema.cpp *)

Module Sema.

Definition SemaPath : string := "/my_own_sema".

Inductive line := Waiting | GotSignal | Signaling.

Inductive parent := PSay | PPost | PWait | PUnlink | PDone | PFailed.

Inductive child := CSay | CWait | CSayGot | CClose | CDone.

(** The named semaphores of the system with their values; the processes; the
    output.  The program opens one of the semaphores and unlinks it when nobody
    uses it any more, so that it is named as long as it is used. *)
Record state := State {
  names : gmap string nat; parentP : parent; childP : child; output : list line }.

Definition sem_parent_move (s : state) : option state :=
  match parentP s with
  | PSay => Some (State (names s) PPost (childP s) (output s ++ [Signaling]))
  | PPost => Some (State (alter S SemaPath (names s)) PWait (childP s) (output s))
  | PWait =>
      match childP s with
      | CDone => Some (State (names s) PUnlink (childP s) (output s))
      | _ => None
      end
  | PUnlink =>
      Some match names s !! SemaPath with
        | Some _ => State (delete SemaPath (names s)) PDone (childP s) (output s)
        | None => State (names s) PFailed (childP s) (output s)
        end
  | PDone | PFailed => None
  end.

Definition sem_child_move (s : state) : option state :=
  match childP s with
  | CSay => Some (State (names s) (parentP s) CWait (output s ++ [Waiting]))
  | CWait =>
      match names s !! SemaPath with
      | Some (S v) => Some (State (<[SemaPath:=v]> (names s)) (parentP s) CSayGot (output s))
      | _ => None
      end
  | CSayGot => Some (State (names s) (parentP s) CClose (output s ++ [GotSignal]))
  | CClose => Some (State (names s) (parentP s) CDone (output s))
  | CDone => None
  end.

Definition sema_program_step (is_parent : bool) (s : state) : option state :=
  if is_parent then sem_parent_move s else sem_child_move s.

(** [sem_open] with [O_CREAT] and the value 0, which is for a new semaphore only;
    then the fork. *)
Definition sema_program_main (ns : gmap string nat) : state :=
  State (<[SemaPath:=default 0 (ns !! SemaPath)]> ns) PSay CSay [].

(** ** The invariant *)

Definition taken (l : child) : nat := match l with CSay | CWait => 0 | _ => 1 end.

Definition posted (p : parent) : nat := match p with PSay | PPost => 0 | _ => 1 end.

Definition outputs (v : nat) (p : parent) (l : child) : list (list line) :=
  match l, p with
  | CSay, PSay => [[]]
  | CSay, _ => [[Signaling]]
  | (CWait | CSayGot), PSay => [[Waiting]]
  | (CWait | CSayGot), _ => [[Waiting; Signaling]; [Signaling; Waiting]]
  | (CClose | CDone), PSay => [[Waiting; GotSignal]]
  | (CClose | CDone), _ =>
      [[Waiting; Signaling; GotSignal]; [Signaling; Waiting; GotSignal]] ++
      match v with O => [] | S _ => [[Waiting; GotSignal; Signaling]] end
  end.

Record sema_program_inv (ns : gmap string nat) (s : state) : Prop := {
  inv_names : match parentP s with
    | PDone => names s = delete SemaPath ns
    | PFailed => False
    | _ => ∃ v, names s = <[SemaPath:=v]> ns ∧
             default 0 (ns !! SemaPath) + posted (parentP s) = v + taken (childP s)
    end;
  inv_output : output s ∈ outputs (default 0 (ns !! SemaPath)) (parentP s) (childP s);
  inv_child : match parentP s with PUnlink | PDone => childP s = CDone | _ => True end }.

(** Case analysis on which of a list of outputs it is. *)
Ltac each_output :=
  repeat match goal with
  | H : _ ∈ _ :: _ |- _ => apply elem_of_cons in H as [->|H]
  | H : _ ∈ [] |- _ => by apply elem_of_nil in H
  end.

Lemma output_parent v n p l out nm s' :
  v + posted p = n + taken l → out ∈ outputs v p l →
  sem_parent_move (State nm p l out) = Some s' → output s' ∈ outputs v (parentP s') (childP s').
Proof.
  intros Hv Ho Hs. unfold sem_parent_move in Hs. cbn in Hs.
  destruct v, p, l; inv_opt; cbn in *; try done; try lia;
    each_output; repeat case_match; cbn; set_solver.
Qed.

Lemma output_child v n p l out nm s' :
  v + posted p = n + taken l → nm !! SemaPath = Some n → out ∈ outputs v p l →
  sem_child_move (State nm p l out) = Some s' → output s' ∈ outputs v (parentP s') (childP s').
Proof.
  intros Hv Hn Ho Hs. unfold sem_child_move in Hs. cbn in Hs. rewrite Hn in Hs.
  destruct v, l, p; inv_opt; cbn in *; try done; try lia;
    each_output; repeat case_match; cbn; set_solver.
Qed.

Ltac keep_names :=
  first [by rewrite delete_insert_eq
        |rewrite ?alter_insert_eq, ?insert_insert_eq; eexists; (split; [done|]); lia].

Lemma sema_program_preserves ns a s s' :
  sema_program_inv ns s → sema_program_step a s = Some s' → sema_program_inv ns s'.
Proof.
  intros [Hn Ho Hc] Hs. destruct s as [nm p l out]. cbn in *.
  assert (p ≠ PDone) as Hd.
  { intros ->. subst l. by destruct a. }
  assert (p ≠ PFailed) as Hf by (by intros ->).
  assert (∃ v, nm = <[SemaPath:=v]> ns ∧ default 0 (ns !! SemaPath) + posted p = v + taken l) as (v & -> & Hv)
    by (by destruct p).
  clear Hn. remember (default 0 (ns !! SemaPath)) as v0 eqn:Ev. constructor; rewrite <- ?Ev; clear Ev.
  - destruct a; cbn in Hs; unfold sem_parent_move, sem_child_move in Hs; cbn in Hs; rewrite ?lookup_insert_eq in Hs.
    + destruct p, l; inv_opt; keep_names.
    + destruct l, p; inv_opt; keep_names.
  - destruct a; [eapply output_parent|eapply output_child]; try done. by rewrite lookup_insert_eq.
  - destruct a; cbn in Hs; unfold sem_parent_move, sem_child_move in Hs; cbn in Hs; rewrite ?lookup_insert_eq in Hs.
    + by destruct p, l; inv_opt.
    + by destruct l, p; inv_opt.
Qed.

Lemma sema_program_reach ns s : reach sema_program_step (sema_program_main ns) s → sema_program_inv ns s.
Proof.
  apply reach_inv; [|apply sema_program_preserves]. constructor; cbn; [|set_solver|done].
  eexists. split; [done|]. lia.
Qed.

Definition work (s : state) : nat :=
  match parentP s with PSay => 4 | PPost => 3 | PWait => 2 | PUnlink => 1 | _ => 0 end +
  match childP s with CSay => 4 | CWait => 3 | CSayGot => 2 | CClose => 1 | CDone => 0 end.

Lemma sema_work_step a s s' : sema_program_step a s = Some s' → work s' < work s.
Proof.
  destruct s as [nm p l out]. destruct a; cbn; unfold sem_parent_move, sem_child_move, work; cbn; intros Hs.
  - destruct p; try destruct l; try destruct (nm !! SemaPath); inv_opt; cbn; lia.
  - destruct l; inv_opt; cbn; lia.
Qed.

(** ** Properties *)

(** sema.cpp, whatever named semaphores the system has.  Every schedule
    has at most eight steps; a run that cannot go on has ended without an error,
    with the name of the semaphore removed and no other semaphore touched; the
    child gets the signal after the parent has announced it, unless a semaphore of
    that name was left over with a positive value. *)
Theorem sema_program_ends ns s :
  reach sema_program_step (sema_program_main ns) s →
  terminates_within sema_program_step 8 (sema_program_main ns) ∧
  ((∃ a s', sema_program_step a s = Some s') ∨
   parentP s = PDone ∧ childP s = CDone ∧ names s = delete SemaPath ns ∧
   (output s = [Waiting; Signaling; GotSignal] ∨ output s = [Signaling; Waiting; GotSignal] ∨
    (∃ v, ns !! SemaPath = Some (S v)) ∧ output s = [Waiting; GotSignal; Signaling])).
Proof.
  intros [Hn Ho Hc]%sema_program_reach. split.
  - apply (measure_terminates _ (λ _, True) work); [done|]. intros. split; [done|]. by eapply sema_work_step.
  - destruct s as [nm p l out]. cbn in *.
    destruct p; try (left; exists true; eexists; reflexivity); [| |done].
    + left. destruct Hn as (v & -> & Hv).
      destruct l; [exists false; eexists; reflexivity| |exists false; eexists; reflexivity..|exists true; eexists; reflexivity].
      exists false. cbn in Hv. destruct v as [|v]; [lia|]. eexists. cbn. unfold sem_child_move. cbn.
      rewrite lookup_insert_eq. reflexivity.
    + right. subst l. split_ands; try done. cbn in Ho.
      destruct (ns !! SemaPath) as [[|v]|]; cbn in Ho; each_output; eauto 6.
Qed.

Lemma sema_program_ends_witness :
  ∃ s, run sema_program_step [false; true; true; false; false; false; true; true] (sema_program_main ∅) = Some s ∧
    output s = [Waiting; Signaling; GotSignal] ∧ names s = ∅ ∧
    terminates_within sema_program_step 8 (sema_program_main ∅).
Proof.
  eexists. split; [vm_compute; reflexivity|]. split; [reflexivity|]. split; [reflexivity|].
  exact (proj1 (sema_program_ends ∅ _ (reach_refl _ _))).
Defined.

(** A run that is killed leaves the name; a value left over lets the child of the
    next run go on before it is signalled. *)
Lemma sema_leftover :
  ∃ s, run sema_program_step [true; true] (sema_program_main ∅) = Some s ∧ names s !! SemaPath = Some 1 ∧
  ∃ s', run sema_program_step [false; false; false] (sema_program_main (names s)) = Some s' ∧
    output s' = [Waiting; GotSignal].
Proof.
  eexists. split; [vm_compute; reflexivity|]. split; [reflexivity|].
  eexists. split; [vm_compute; reflexivity|reflexivity].
Qed.

End Sema.

(** * jthread.cpp *)

Module JThread.

Inductive line := Hello | NotRequested | StopRequested.

(** [main]: in the destructor of the first thread; before the second is made;
    before [request_stop]; in the destructor of the second, which requests a stop
    again; at its [join]; at the end. *)
Inductive main_thread := MJoinFirst | MSpawn | MRequest | MDestroy | MJoin | MDone.

Inductive first_thread := FSay | FDone.

Inductive second_thread := SNone | STest | SSay | SSayStop | SDone.

(** The stop state of the second thread, the threads and the output. *)
Record state := State {
  stop : bool; mainT : main_thread; firstT : first_thread; secondT : second_thread; output : list line }.

Definition jthread_main_move (s : state) : option state :=
  match mainT s with
  | MJoinFirst =>
      match firstT s with
      | FDone => Some (State (stop s) MSpawn (firstT s) (secondT s) (output s))
      | FSay => None
      end
  | MSpawn => Some (State false MRequest (firstT s) STest (output s))
  | MRequest => Some (State true MDestroy (firstT s) (secondT s) (output s))
  | MDestroy => Some (State true MJoin (firstT s) (secondT s) (output s))
  | MJoin =>
      match secondT s with
      | SDone => Some (State (stop s) MDone (firstT s) (secondT s) (output s))
      | _ => None
      end
  | MDone => None
  end.

Definition jthread_first_move (s : state) : option state :=
  match firstT s with
  | FSay => Some (State (stop s) (mainT s) FDone (secondT s) (output s ++ [Hello]))
  | FDone => None
  end.

Definition jthread_second_move (s : state) : option state :=
  match secondT s with
  | SNone => None
  | STest => Some (State (stop s) (mainT s) (firstT s) (if stop s then SSayStop else SSay) (output s))
  | SSay => Some (State (stop s) (mainT s) (firstT s) STest (output s ++ [NotRequested]))
  | SSayStop => Some (State (stop s) (mainT s) (firstT s) SDone (output s ++ [StopRequested]))
  | SDone => None
  end.

Inductive thread := Main | First | Second.

Definition jthread_step (a : thread) (s : state) : option state :=
  match a with Main => jthread_main_move s | First => jthread_first_move s | Second => jthread_second_move s end.

Definition jthread_main : state := State false MJoinFirst FSay SNone [].

(** ** The invariant *)

Definition stop_sent (m : main_thread) : bool :=
  match m with MDestroy | MJoin | MDone => true | _ => false end.

(** Who has been started and joined when, and the output from that. *)
Definition jthread_inv (s : state) : Prop :=
  stop s = stop_sent (mainT s) ∧
  match mainT s, secondT s with
  | MJoinFirst, SNone => output s = match firstT s with FSay => [] | FDone => [Hello] end
  | MSpawn, SNone => firstT s = FDone ∧ output s = [Hello]
  | (MRequest | MDestroy | MJoin), (STest | SSay) => firstT s = FDone ∧ ∃ n, output s = Hello :: replicate n NotRequested
  | (MDestroy | MJoin), SSayStop => firstT s = FDone ∧ ∃ n, output s = Hello :: replicate n NotRequested
  | (MDestroy | MJoin | MDone), SDone =>
      firstT s = FDone ∧ ∃ n, output s = Hello :: replicate n NotRequested ++ [StopRequested]
  | _, _ => False
  end.

Lemma jthread_preserves a s s' : jthread_inv s → jthread_step a s = Some s' → jthread_inv s'.
Proof.
  intros [Hstop HI] Hs. destruct s as [st m f t out]. cbn in *. subst st.
  destruct a; cbn in Hs; unfold jthread_main_move, jthread_first_move, jthread_second_move in Hs; cbn in Hs.
  - destruct m, t; try done; destruct f; simplify_eq; (split; [done|]); try exact HI; try done;
      destruct HI as [? ->]; cbn; [done|]. split; [done|]. by exists 0.
  - destruct f; [|done]. simplify_eq. split; [done|]. cbn.
    destruct m, t; try done; try (destruct HI as [? _]; done). by subst out.
  - destruct t; try done; simplify_eq; (split; [done|]); cbn.
    + destruct m; try done; exact HI.
    + destruct m; try done; destruct HI as (-> & n & ->); (split; [done|]); exists (S n);
        cbn; by rewrite <- replicate_cons_app.
    + destruct m; try done; destruct HI as (-> & n & ->); (split; [done|]); by exists n.
Qed.

Lemma jthread_reach s : reach jthread_step jthread_main s → jthread_inv s.
Proof. apply reach_inv; [done|apply jthread_preserves]. Qed.

(** ** Termination *)

Definition is_poll (l : line) : bool := match l with NotRequested => true | _ => false end.

(** How far the threads have come, a poll counting for two steps. *)
Definition progress (s : state) : nat :=
  match mainT s with
  | MJoinFirst => 0 | MSpawn => 1 | MRequest => 2 | MDestroy => 3 | MJoin => 4 | MDone => 5
  end + match firstT s with FSay => 0 | FDone => 1 end +
  match secondT s with SNone => 0 | STest => 0 | SSay => 1 | SSayStop => 1 | SDone => 2 end +
  2 * count is_poll (output s).

Lemma progress_step a s s' : jthread_inv s → jthread_step a s = Some s' → progress s < progress s'.
Proof.
  intros [_ HI] Hs. destruct s as [st m f t out]. cbn in HI.
  destruct a; cbn in Hs; unfold jthread_main_move, jthread_first_move, jthread_second_move in Hs; cbn in Hs; unfold progress.
  - destruct m, t; try done; destruct f; simplify_eq; cbn [mainT firstT secondT output]; lia.
  - destruct f; [|done]. simplify_eq. cbn [mainT firstT secondT output]. rewrite count_snoc. cbn [is_poll]. lia.
  - destruct t, st; simplify_eq; cbn [mainT firstT secondT output]; rewrite ?count_snoc; cbn [is_poll Nat.b2n]; lia.
Qed.

(** The steps left once the stop is requested. *)
Definition left_ (s : state) : nat :=
  match mainT s with MDestroy => 2 | MJoin => 1 | _ => 0 end +
  match firstT s with FSay => 1 | FDone => 0 end +
  match secondT s with SNone | SDone => 0 | STest => 2 | SSay => 3 | SSayStop => 1 end.

Lemma left_step a s s' :
  jthread_inv s ∧ stop s = true → jthread_step a s = Some s' → (jthread_inv s' ∧ stop s' = true) ∧ left_ s' < left_ s.
Proof.
  intros [HI Hst] Hs. split; [split; [by eapply jthread_preserves|]|];
    destruct HI as [Hstop HI]; destruct s as [st m f t out]; cbn in *; subst st;
    destruct m; try done; destruct a; cbn in Hs; unfold jthread_main_move, jthread_first_move, jthread_second_move in Hs; cbn in Hs;
    destruct t, f; try done; simplify_eq; unfold left_; cbn; lia.
Qed.

(** ** Properties *)

(** jthread.cpp.  The output of a run that cannot go on is the line of
    the first thread, any number of polls and then the line that acknowledges the
    stop; a schedule is at most eight steps longer than twice the number of polls;
    until the stop is requested [main] or the first thread can move; and once it is
    requested every schedule has at most five more steps. *)
Theorem jthread_ends s :
  reach jthread_step jthread_main s →
  (∀ sched, run jthread_step sched jthread_main = Some s → length sched ≤ 2 * count is_poll (output s) + 8) ∧
  (stop s = false → ∃ a s', a ≠ Second ∧ jthread_step a s = Some s') ∧
  (stop s = true → terminates_within jthread_step 5 s) ∧
  ((∃ a s', jthread_step a s = Some s') ∨
   mainT s = MDone ∧ ∃ n, output s = Hello :: replicate n NotRequested ++ [StopRequested]).
Proof.
  intros Hr. pose proof (jthread_reach _ Hr) as HI. split_ands.
  - intros sched Hs. pose proof (run_progress jthread_step jthread_inv progress sched jthread_main s) as H.
    enough (length sched + 0 ≤ progress s) as Hle.
    { unfold progress in Hle. destruct (mainT s), (firstT s), (secondT s); lia. }
    apply H; [done| |done]. intros a s1 s2 HI1 Hs1. split; [by eapply jthread_preserves|by eapply progress_step].
  - destruct HI as [Hst HI]. intros E. rewrite E in Hst. destruct s as [st m f t out]. cbn in *.
    destruct m; try done.
    + destruct f; [exists First|exists Main]; by eexists.
    + exists Main. by eexists.
    + exists Main. by eexists.
  - intros E. assert (left_ s ≤ 5) as Hle.
    { destruct HI as [_ HI]. destruct s as [st m f t out]. unfold left_. cbn in *.
      destruct m, t; try done; try (destruct HI as [-> _]); try destruct f; cbn; lia. }
    intros sched s' Hs. etrans; [|exact Hle].
    apply (measure_terminates jthread_step (λ s, jthread_inv s ∧ stop s = true) left_ s (conj HI E) left_step sched s' Hs).
  - destruct HI as [Hst HI]. destruct s as [st m f t out]. cbn in *. subst st.
    destruct m, t; try done; try (left; exists Main; by eexists); try (left; exists Second; by eexists).
    + destruct f; left; [exists First|exists Main]; by eexists.
    + right. by destruct HI as [_ HI].
Qed.

Lemma jthread_ends_witness :
  ∃ s, run jthread_step [First; Main; Main; Second; Second; Main; Second; Second; Main; Main] jthread_main = Some s ∧
    output s = [Hello; NotRequested; StopRequested] ∧
    ((∃ a s', jthread_step a s = Some s') ∨
     mainT s = MDone ∧ ∃ n, output s = Hello :: replicate n NotRequested ++ [StopRequested]).
Proof.
  eexists. split; [vm_compute; reflexivity|]. split; [reflexivity|].
  refine (proj2 (proj2 (proj2 (jthread_ends _ _)))).
  apply (run_reach _ [First; Main; Main; Second; Second; Main; Second; Second; Main; Main]). vm_compute. reflexivity.
Defined.

End JThread.
