(* ===== verification/Processes.v ===== *)
(** processes_and_threads: what processes and threads share.

    A small language of the statements that the programs make with a few variables
    is run in three ways: by processes that have each a copy of the memory
    (fork_cow.cpp), by threads that share it and are joined one after the other
    (pthread_intro.cpp, stl_intro.cpp), and alone.  The theorems relate the first
    two to the third for all statements and all interleavings.  fork_intro.cpp adds
    the status of a child, exec_intro.cpp and dummy.cpp the arguments and the
    environment of a program. *)

From S2P Require Import Prelude Machine.
From stdpp Require Import pretty options.

(** * Statements *)

(** The two variables a program talks about: their addresses and values. *)
Record vars := Vars { first_at : Z; second_at : Z; first : Z; second : Z }.

Inductive who := PARENT | CHILD.

(** What is printed: the addresses of the variables, their values, the first of
    them with a text before it. *)
Inductive line :=
  | Addresses (w : who) (a b : Z)
  | Values (w : who) (a b : Z)
  | Value (text : string) (a : Z).

Inductive stmt :=
  | PrintAddresses (w : who)
  | PrintValues (w : who)
  | PrintValue (text : string)
  | AddFirst (n : Z)
  | SetFirst (n : Z)
  | SetSecond (n : Z).

(** [None] is an overflow. *)
Definition execute (st : stmt) (m : vars) : option (vars * list line) :=
  match st with
  | PrintAddresses w => Some (m, [Addresses w (first_at m) (second_at m)])
  | PrintValues w => Some (m, [Values w (first m) (second m)])
  | PrintValue text => Some (m, [Value text (first m)])
  | AddFirst n =>
      let v := (first m + n)%Z in
      if bool_decide (is_i32 v) then Some (Vars (first_at m) (second_at m) v (second m), []) else None
  | SetFirst n => Some (Vars (first_at m) (second_at m) n (second m), [])
  | SetSecond n => Some (Vars (first_at m) (second_at m) (first m) n, [])
  end.

Fixpoint alone (body : list stmt) (m : vars) : option (vars * list line) :=
  match body with
  | [] => Some (m, [])
  | st :: rest =>
      '(m1, out1) ← execute st m;
      '(m2, out2) ← alone rest m1;
      Some (m2, out1 ++ out2)
  end.

(** * Processes: fork_cow.cpp *)

Module Fork.

(** A process with its memory and what it has to do; the output of all, with the
    number of the process.  That [fork] gives each process a memory of its own is its
    documented behaviour and is assumed here. *)
Record process := Process { memory : vars; body : list stmt }.

Definition fork_step (i : nat) (_ : unit) (out : list (nat * line)) (p : process) :
    option (list (nat * line) * process) :=
  match body p with
  | [] => None
  | st :: rest =>
      '(m, ls) ← execute st (memory p);
      Some (out ++ ((i,.) <$> ls), Process m rest)
  end.

(** After the forks every process has its own copy of the memory. *)
Definition forked (m : vars) (bodies : list (list stmt)) : conf (list (nat * line)) process :=
  Conf [] (Process m <$> bodies).

Definition parent_body : list stmt := [PrintValues PARENT].

Definition child_body : list stmt :=
  [PrintAddresses CHILD; PrintValues CHILD; AddFirst 1; SetSecond 322; PrintAddresses CHILD; PrintValues CHILD].

(** The output before the fork and the processes after it; the arguments are the
    addresses of the variables. *)
Definition fork_cow_main (stackVar heapVar : Z) : option (list line * conf (list (nat * line)) process) :=
  '(m, out) ← alone [PrintAddresses PARENT] (Vars stackVar heapVar 42 1337);
  Some (out, forked m [parent_body; child_body]).

(** The lines of one process. *)
Definition lines_of (i : nat) (out : list (nat * line)) : list line :=
  omap (λ '(j, l), if decide (j = i) then Some l else None) out.

(** ** The invariant *)

(** What process [i] has printed, followed by what it would print alone from where
    it is, is what it would print alone from the fork. *)
Definition on_its_own (m : vars) (out : list (nat * line)) (i : nat) (b : list stmt) (p : process) : Prop :=
  alone b m = '(m', ls) ← alone (body p) (memory p); Some (m', lines_of i out ++ ls).

Definition isolated_inv (m : vars) (bodies : list (list stmt)) (c : conf (list (nat * line)) process) : Prop :=
  length (threads c) = length bodies ∧
  ∀ i b p, bodies !! i = Some b → threads c !! i = Some p → on_its_own m (shared c) i b p.

Lemma lines_of_app i out1 out2 : lines_of i (out1 ++ out2) = lines_of i out1 ++ lines_of i out2.
Proof. apply omap_app. Qed.

Lemma lines_of_own i ls : lines_of i ((i,.) <$> ls) = ls.
Proof. unfold lines_of. induction ls as [|l ls IH]; [done|]. cbn. rewrite decide_True by done. by f_equal. Qed.

Lemma lines_of_other i j ls : j ≠ i → lines_of i ((j,.) <$> ls) = [].
Proof. intros H. unfold lines_of. induction ls as [|l ls IH]; [done|]. cbn. by rewrite decide_False. Qed.

Lemma isolated_preserves m bodies a c c' :
  isolated_inv m bodies c → conf_step fork_step a c = Some c' → isolated_inv m bodies c'.
Proof.
  intros [Hlen HI] (p & out & p' & Hp & Hs & ->)%conf_step_inv. unfold fork_step in Hs.
  destruct (body p) as [|st rest] eqn:Eb; [done|].
  destruct (execute st (memory p)) as [[m1 ls]|] eqn:Ee; simplify_eq/=.
  split; [cbn; by rewrite length_insert|]. intros i b q Hb Hq. cbn [threads shared] in *.
  apply list_lookup_insert_Some' in Hq as [(-> & ->)|[Hne Hq]].
  - specialize (HI _ _ _ Hb Hp). unfold on_its_own in *. rewrite HI, Eb. cbn. rewrite Ee. cbn.
    rewrite lines_of_app, lines_of_own.
    destruct (alone rest m1) as [[m2 out2]|]; cbn; [|done]. by rewrite app_assoc.
  - specialize (HI _ _ _ Hb Hq). unfold on_its_own in *.
    by rewrite HI, lines_of_app, lines_of_other, app_nil_r by done.
Qed.

Lemma isolated_reach m bodies c :
  reach (conf_step fork_step) (forked m bodies) c → isolated_inv m bodies c.
Proof.
  apply reach_inv; [|apply isolated_preserves]. split; [apply length_fmap|].
  intros i b p Hb Hp. cbn in Hp. rewrite list_lookup_fmap, Hb in Hp. simplify_eq/=. unfold on_its_own. cbn.
  by destruct (alone b m) as [[]|].
Qed.

(** ** Properties *)

(** Forked processes do not see each other's memory (fork_cow.cpp and
    any other statements, for any number of processes and every interleaving).  No
    schedule is longer than the statements; and if alone a process would print [ls]
    and leave [m'], then under any interleaving it prints a beginning of [ls], it can
    go on until it has made all its statements, and then it has printed [ls] and its
    memory is [m']. *)
Theorem fork_isolates m bodies c :
  reach (conf_step fork_step) (forked m bodies) c →
  terminates_within (conf_step fork_step) (sum_list_with length bodies) (forked m bodies) ∧
  ∀ i b m' ls, bodies !! i = Some b → alone b m = Some (m', ls) →
    ∃ p, threads c !! i = Some p ∧ lines_of i (shared c) `prefix_of` ls ∧
      ((∃ c', conf_step fork_step (Act i tt) c = Some c') ∨
       body p = [] ∧ memory p = m' ∧ lines_of i (shared c) = ls).
Proof.
  intros Hr. split.
  - set (work := λ c : conf (list (nat * line)) process, sum_list_with (λ p, length (body p)) (threads c)).
    assert (work (forked m bodies) = sum_list_with length bodies) as <-.
    { unfold work, forked. cbn [threads]. clear. induction bodies as [|b bs IH]; [done|]. cbn. by rewrite IH. }
    apply (measure_terminates _ (λ _, True) work); [done|].
    intros a c1 c2 _ (p & out & p' & Hp & Hs & ->)%conf_step_inv. split; [done|]. unfold work. cbn [threads].
    pose proof (sum_insert (λ p, length (body p)) _ _ _ p' Hp). unfold fork_step in Hs.
    destruct (body p) as [|st rest] eqn:Eb; [done|].
    destruct (execute st (memory p)) as [[m1 ls]|]; simplify_eq/=. rewrite Eb in H. cbn in H. lia.
  - intros i b m' ls Hb Ha. destruct (isolated_reach _ _ _ Hr) as [Hlen HI].
    destruct (lookup_lt_is_Some_2 (threads c) i) as [p Hp]; [rewrite Hlen; by eapply lookup_lt_Some|].
    exists p. split; [done|]. specialize (HI _ _ _ Hb Hp). unfold on_its_own in HI. rewrite Ha in HI.
    destruct (alone (body p) (memory p)) as [[m2 ls2]|] eqn:E; simplify_eq/=. split; [by eexists|].
    destruct (body p) as [|st rest] eqn:Eb; [right; simplify_eq/=; by rewrite app_nil_r|]. left.
    apply (conf_step_enabled _ _ _ _ _ Hp). unfold fork_step. rewrite Eb. cbn in E.
    destruct (execute st (memory p)) as [[]|]; [by eexists|done].
Qed.

(** fork_cow.cpp: whatever the child does first, the parent prints the old values. *)
Lemma fork_isolates_witness :
  ∃ out start c, fork_cow_main 1000 2000 = Some (out, start) ∧ out = [Addresses PARENT 1000 2000] ∧
    run (conf_step fork_step) (replicate 6 (Act 1 tt) ++ [Act 0 tt]) start = Some c ∧
    lines_of 1 (shared c) =
      [Addresses CHILD 1000 2000; Values CHILD 42 1337; Addresses CHILD 1000 2000; Values CHILD 43 322] ∧
    ∃ p, threads c !! 0 = Some p ∧ lines_of 0 (shared c) `prefix_of` [Values PARENT 42 1337] ∧
      ((∃ c', conf_step fork_step (Act 0 tt) c = Some c') ∨
       body p = [] ∧ memory p = Vars 1000 2000 42 1337 ∧ lines_of 0 (shared c) = [Values PARENT 42 1337]).
Proof.
  eexists _, _, _. split; [vm_compute; reflexivity|]. split; [reflexivity|]. split; [vm_compute; reflexivity|].
  split; [reflexivity|].
  eapply (proj2 (fork_isolates (Vars 1000 2000 42 1337) [parent_body; child_body] _ ltac:(
    apply (run_reach _ (replicate 6 (Act 1 tt) ++ [Act 0 tt])); vm_compute; reflexivity))); reflexivity.
Defined.

End Fork.

(** * Threads: pthread_intro.cpp, stl_intro.cpp *)

Module Threads.

(** [main] makes statements itself, or starts a thread and joins it. *)
Inductive main_stmt := Do (st : stmt) | Spawn (body : list stmt) | Join.

Inductive call := Stmt (st : stmt) | Run (body : list stmt).

Definition compile (calls : list call) : list main_stmt :=
  concat ((λ k, match k with Stmt st => [Do st] | Run b => [Spawn b; Join] end) <$> calls).

(** The statements of all calls, in their order. *)
Definition inlined (calls : list call) : list stmt :=
  concat ((λ k, match k with Stmt st => [st] | Run b => b end) <$> calls).

(** The memory, [main], the thread that has been started, and the output. *)
Record state := State { mem : vars; mainT : list main_stmt; childT : option (list stmt); output : list line }.

Definition spawn_main_move (s : state) : option state :=
  match mainT s, childT s with
  | Do st :: rest, _ =>
      '(m, ls) ← execute st (mem s); Some (State m rest (childT s) (output s ++ ls))
  | Spawn b :: rest, None => Some (State (mem s) rest (Some b) (output s))
  | Join :: rest, Some [] => Some (State (mem s) rest None (output s))
  | _, _ => None
  end.

Definition spawn_child_move (s : state) : option state :=
  match childT s with
  | Some (st :: rest) =>
      '(m, ls) ← execute st (mem s); Some (State m (mainT s) (Some rest) (output s ++ ls))
  | _ => None
  end.

Definition spawn_step (is_main : bool) (s : state) : option state :=
  if is_main then spawn_main_move s else spawn_child_move s.

Definition spawn_main (calls : list call) (m : vars) : state := State m (compile calls) None [].

(** pthread_intro.cpp. *)
Definition pthread_function : list stmt := [PrintAddresses CHILD; AddFirst 10; PrintValues CHILD].

Definition pthread_main : list call := [Stmt (PrintAddresses PARENT); Run pthread_function; Stmt (PrintValues PARENT)].

(** stl_intro.cpp. *)
Definition ThreadFunction : list stmt := [PrintValue "[CHILD]: argument value: "; SetFirst 322].

Definition stl_main : list call :=
  [Run ThreadFunction; Stmt (PrintValue "[CHILD]: argument value after thread1: ");
   Run [PrintValue "[CHILD]: argument value: "; SetFirst 1337];
   Stmt (PrintValue "[CHILD]: argument value after thread2: ")].

(** ** The invariant *)

(** Where a run is: between calls, or in a thread that is then joined. *)
Definition stage (s : state) (body : list stmt) (calls : list call) : Prop :=
  match childT s with
  | None => body = [] ∧ mainT s = compile calls
  | Some b => body = b ∧ mainT s = Join :: compile calls
  end.

Definition spawn_inv (all : list call) (m : vars) (s : state) : Prop :=
  ∃ body calls, stage s body calls ∧
    alone (inlined all) m = '(m', ls) ← alone (body ++ inlined calls) (mem s); Some (m', output s ++ ls).

Lemma alone_cons st rest g m1 ls out :
  execute st g = Some (m1, ls) →
  ('(m', ls') ← alone (st :: rest) g; Some (m', out ++ ls')) =
  '(m', ls') ← alone rest m1; Some (m', (out ++ ls) ++ ls').
Proof.
  intros E. cbn. rewrite E. cbn. destruct (alone rest m1) as [[]|]; cbn; [|done]. by rewrite app_assoc.
Qed.

Lemma spawn_preserves all m a s s' : spawn_inv all m s → spawn_step a s = Some s' → spawn_inv all m s'.
Proof.
  intros (body & calls & Hst & Hal) Hs. destruct s as [g mn ch out]. unfold stage in Hst.
  cbn [mainT childT mem output] in Hst, Hal. unfold spawn_inv. rewrite Hal. clear Hal.
  destruct a; cbn in Hs; unfold spawn_main_move, spawn_child_move in Hs; cbn [mainT childT mem output] in Hs.
  - destruct ch as [b|]; destruct Hst as [-> ->].
    + destruct b as [|st b]; [|done]. simplify_eq. by exists [], calls.
    + destruct calls as [|[st|b] calls]; cbn [compile fmap list_fmap concat app] in Hs; [done| |].
      * destruct (execute st g) as [[m1 ls]|] eqn:E; [|done]. cbn in Hs. simplify_eq. exists [], calls.
        split; [done|]. exact (alone_cons _ _ _ _ _ _ E).
      * simplify_eq. by exists b, calls.
  - destruct ch as [[|st b]|]; try done. destruct Hst as [-> ->].
    destruct (execute st g) as [[m1 ls]|] eqn:E; [|done]. cbn in Hs. simplify_eq. exists b, calls.
    split; [done|]. exact (alone_cons _ _ _ _ _ _ E).
Qed.

Lemma spawn_reach calls m s : reach spawn_step (spawn_main calls m) s → spawn_inv calls m s.
Proof.
  apply reach_inv; [|intros a s1 s2; apply spawn_preserves]. exists [], calls. split; [done|]. cbn.
  by destruct (alone (inlined calls) m) as [[]|].
Qed.

(** ** Termination *)

Definition main_left (ms : list main_stmt) : nat :=
  sum_list_with (λ k, match k with Do _ | Join => 1 | Spawn b => S (length b) end) ms.

Definition spawn_work (s : state) : nat := main_left (mainT s) + length (default [] (childT s)).

Lemma spawn_work_step a s s' : spawn_step a s = Some s' → spawn_work s' < spawn_work s.
Proof.
  destruct s as [g mn ch out]. unfold spawn_work, main_left. destruct a; cbn; unfold spawn_main_move, spawn_child_move; cbn; intros Hs.
  - destruct mn as [|[st|b|] mn]; [done| | |]; destruct ch as [[|x ch]|]; inv_opt; cbn; lia.
  - destruct ch as [[|x ch]|]; inv_opt; cbn; lia.
Qed.

(** ** Properties *)

(** Threads that are joined at once are calls (pthread_intro.cpp,
    stl_intro.cpp and any other statements).  If the statements of [main] and of the
    threads, written one after the other, print [ls] and leave [m'], then every
    schedule of the program is bounded by its length, and a run that cannot go on
    has ended with that memory and that output. *)
Theorem joined_threads_are_calls calls m m' ls s :
  alone (inlined calls) m = Some (m', ls) →
  reach spawn_step (spawn_main calls m) s →
  terminates_within spawn_step (main_left (compile calls)) (spawn_main calls m) ∧
  ((∃ a s', spawn_step a s = Some s') ∨ mainT s = [] ∧ childT s = None ∧ mem s = m' ∧ output s = ls).
Proof.
  intros Ha Hr. split.
  - replace (main_left (compile calls)) with (spawn_work (spawn_main calls m)) by apply Nat.add_0_r.
    apply (measure_terminates _ (λ _, True) spawn_work); [done|]. intros. split; [done|]. by eapply spawn_work_step.
  - destruct (spawn_reach _ _ _ Hr) as (body & rest & Hst & Hal). rewrite Ha in Hal. clear Hr.
    destruct s as [g mn ch out]. unfold stage in Hst. cbn in *.
    destruct ch as [[|st b]|]; destruct Hst as [-> ->].
    + left. exists true. by eexists.
    + left. exists false. unfold spawn_step, spawn_child_move. cbn in *.
      destruct (execute st g) as [[]|]; [by eexists|done].
    + destruct rest as [|[st|b] rest]; cbn in *.
      * right. simplify_eq/=. by rewrite app_nil_r.
      * left. exists true. unfold spawn_step, spawn_main_move. cbn.
        destruct (execute st g) as [[]|]; [by eexists|done].
      * left. exists true. by eexists.
Qed.

Lemma joined_threads_are_calls_witness :
  (∃ s, run spawn_step [true; true; false; false; false; true; true] (spawn_main pthread_main (Vars 8 12 228 322)) = Some s ∧
     output s = [Addresses PARENT 8 12; Addresses CHILD 8 12; Values CHILD 238 322; Values PARENT 238 322]) ∧
  terminates_within spawn_step 7 (spawn_main pthread_main (Vars 8 12 228 322)) ∧
  terminates_within spawn_step 10 (spawn_main stl_main (Vars 8 12 42 0)).
Proof.
  split; [eexists; split; [vm_compute; reflexivity|reflexivity]|]. split.
  - refine (proj1 (joined_threads_are_calls pthread_main _ _ _ _ _ (reach_refl _ _))). vm_compute. reflexivity.
  - refine (proj1 (joined_threads_are_calls stl_main _ _ _ _ _ (reach_refl _ _))). vm_compute. reflexivity.
Defined.

End Threads.

(** * fork_intro.cpp: the status of a child *)

Module Status.

(** The status [wait] stores for a process that has exited with [code]. *)
Definition wait_status (code : Z) : Z := Z.shiftl (Z.land code 255) 8.

Definition WEXITSTATUS (status : Z) : Z := Z.land (Z.shiftr status 8) 255.

Lemma exit_status_kept code : WEXITSTATUS (wait_status code) = (code `mod` 256)%Z.
Proof.
  unfold WEXITSTATUS, wait_status. rewrite Z.shiftr_shiftl_l, Z.shiftl_0_r by done.
  change 255%Z with (Z.ones 8). by rewrite !Z.land_ones, Z.mod_mod by done.
Qed.

Inductive line := ForkReturned (pid : Z) | ChildPid (pid : Z) | WaitReturned (pid status : Z).

Inductive parent := PSay | PWait | PSayWait (exitedProcessPid childStatus : Z) | PDone.

(** The child before its line, before it returns 123, and gone. *)
Inductive child := CSay | CReturn | CDone (status : Z).

Record state := State { parentP : parent; childP : child; output : list line }.

Definition fork_intro_step (pid : Z) (is_parent : bool) (s : state) : option state :=
  if is_parent then
    match parentP s with
    | PSay => Some (State PWait (childP s) (output s ++ [ForkReturned pid]))
    | PWait =>
        match childP s with
        | CDone status => Some (State (PSayWait pid status) (childP s) (output s))
        | _ => None
        end
    | PSayWait p status => Some (State PDone (childP s) (output s ++ [WaitReturned p (WEXITSTATUS status)]))
    | PDone => None
    end
  else
    match childP s with
    | CSay => Some (State (parentP s) CReturn (output s ++ [ChildPid pid]))
    | CReturn => Some (State (parentP s) (CDone (wait_status 123)) (output s))
    | CDone _ => None
    end.

Definition fork_intro_main : state := State PSay CSay [].

Definition outputs (pid : Z) (p : parent) (l : child) : list (list line) :=
  match p, l with
  | PSay, CSay => [[]]
  | PSay, _ => [[ChildPid pid]]
  | PWait, CSay => [[ForkReturned pid]]
  | PDone, _ =>
      [[ForkReturned pid; ChildPid pid; WaitReturned pid 123]; [ChildPid pid; ForkReturned pid; WaitReturned pid 123]]
  | _, _ => [[ForkReturned pid; ChildPid pid]; [ChildPid pid; ForkReturned pid]]
  end.

Definition status_inv (pid : Z) (s : state) : Prop :=
  output s ∈ outputs pid (parentP s) (childP s) ∧
  match childP s with CDone status => status = wait_status 123 | _ => True end ∧
  match parentP s with
  | PSayWait p status => p = pid ∧ status = wait_status 123 ∧ childP s = CDone status
  | PDone => childP s = CDone (wait_status 123)
  | _ => True
  end.

Lemma status_preserves pid a s s' : status_inv pid s → fork_intro_step pid a s = Some s' → status_inv pid s'.
Proof.
  intros (Ho & Hc & Hp) Hs. destruct s as [p l out]. unfold status_inv. cbn in *.
  destruct a; [destruct p|destruct l]; try destruct l; inv_opt; cbn in *; split_ands; try done; try set_solver;
    destruct_and?; simplify_eq/=; set_solver.
Qed.

Definition status_work (s : state) : nat :=
  match parentP s with PSay => 3 | PWait => 2 | PSayWait _ _ => 1 | PDone => 0 end +
  match childP s with CSay => 2 | CReturn => 1 | CDone _ => 0 end.

Lemma status_work_step pid a s s' : fork_intro_step pid a s = Some s' → status_work s' < status_work s.
Proof.
  destruct s as [p l out]. unfold status_work. destruct a; [destruct p|]; destruct l; cbn; intros; simplify_eq/=; lia.
Qed.

(** fork_intro.cpp, for any pid the child gets: at most five steps, and a run that
    cannot go on has printed that [fork] and [wait] returned the pid that the child
    has printed as its own, and the status 123. *)
Theorem fork_intro_ends pid s :
  reach (fork_intro_step pid) fork_intro_main s →
  terminates_within (fork_intro_step pid) 5 fork_intro_main ∧
  ((∃ a s', fork_intro_step pid a s = Some s') ∨
   output s = [ForkReturned pid; ChildPid pid; WaitReturned pid 123] ∨
   output s = [ChildPid pid; ForkReturned pid; WaitReturned pid 123]).
Proof.
  intros Hr. split.
  - apply (measure_terminates _ (λ _, True) status_work fork_intro_main I). intros. split; [done|].
    by eapply status_work_step.
  - assert (status_inv pid s) as (Ho & Hc & Hp).
    { revert Hr. apply reach_inv; [|apply status_preserves]. unfold status_inv. cbn. set_solver. }
    destruct s as [p l out]. cbn in *. destruct p; try (left; by exists true; eexists).
    + left. destruct l; [exists false|exists false|exists true]; by eexists.
    + right. set_solver.
Qed.

End Status.

(** * exec_intro.cpp and dummy.cpp *)

Module Exec.

Inductive line := Out (text : string) | SystemError | SpawnerFailed.

(** A program as it is run: with its arguments and its environment. *)
Definition program : Type := list string → list string → list line.

(** What follows [p] in a string that begins with it. *)
Fixpoint after_prefix (p s : string) : option string :=
  match p, s with
  | EmptyString, _ => Some s
  | String a p', String b s' => if decide (a = b) then after_prefix p' s' else None
  | _, _ => None
  end.

Fixpoint getenv (name : string) (env : list string) : option string :=
  match env with
  | [] => None
  | e :: rest =>
      match after_prefix (name +:+ "=") e with
      | Some v => Some v
      | None => getenv name rest
      end
  end.

(** [main] of dummy.cpp. *)
Definition dummy_main : program := λ argv env,
  [Out "Dummy called with arguments: "] ++
  imap (λ i arg, Out ("argv[" +:+ pretty i +:+ "]=" +:+ arg)) argv ++
  [match getenv "EXAMPLE_ENV" env with
   | Some envVar => Out ("EXAMPLE_ENV=" +:+ envVar)
   | None => Out "EXAMPLE_ENV is not set"
   end].

(** The programs by their paths, the directories of [PATH], the environment. *)
Record system := System { programs : gmap string program; path : list string; environ : list string }.

Inductive exec_call :=
  | Execl (file : string) (args : list string)
  | Execv (file : string) (args : list string)
  | Execvp (file : string) (args : list string)
  | Execve (file : string) (args env : list string).

(** [execvp] of a name without a slash. *)
Fixpoint search (k : system) (dirs : list string) (file : string) : option program :=
  match dirs with
  | [] => None
  | d :: rest =>
      match programs k !! (d +:+ "/" +:+ file) with
      | Some p => Some p
      | None => search k rest file
      end
  end.

(** The lines of the program that replaces the process; [None] is -1. *)
Definition exec (k : system) (e : exec_call) : option (list line) :=
  let start (p : option program) args env := (λ q : program, q args env) <$> p in
  match e with
  | Execl file args | Execv file args => start (programs k !! file) args (environ k)
  | Execvp file args => start (search k (path k) file) args (environ k)
  | Execve file args env => start (programs k !! file) args env
  end.

(** How a process gets out of its spawner: replaced, ended by [std::exit], or by
    returning. *)
Inductive outcome := Replaced (ls : list line) | Exited (ls : list line) | Returned (ls : list line).

(** The lambdas of [main]: a line, then [CHECK_ERROR] of a call. *)
Definition spawner (title : string) (e : exec_call) (k : system) : outcome :=
  match exec k e with
  | Some ls => Replaced (Out title :: ls)
  | None => Exited [Out title; SystemError]
  end.

(** The parent waits, so that its line comes last. *)
Definition RunDummy (sp : system → outcome) (k : system) : list line :=
  match sp k with
  | Replaced ls | Exited ls => ls
  | Returned ls => ls ++ [SpawnerFailed]
  end ++ [Out "-----------------------"].

Definition spawners : list (string * exec_call) :=
  [("execl: ", Execl "./dummy" ["dummy"; "hello"; "from"; "execl"]);
   ("execv: ", Execv "./dummy" ["./dummy"; "vector"; "data"]);
   ("execvp: ", Execvp "dummy" ["dummy"; "found"; "in"; "path"]);
   ("execve without env override: ", Execve "./dummy" ["dummy"; "with"; "env"] []);
   ("execve with env override: ", Execve "./dummy" ["dummy"; "with"; "env"] ["EXAMPLE_ENV=322"])].

Definition exec_intro_main (k : system) : list line :=
  concat ((λ '(title, e), RunDummy (spawner title e) k) <$> spawners).

Lemma after_prefix_app p s : after_prefix p (p +:+ s) = Some s.
Proof. induction p as [|a p IH]; [done|]. simpl. by case_decide. Qed.

(** Reading back the first setting of a variable. *)
Lemma getenv_set name value env : getenv name ((name +:+ "=" +:+ value) :: env) = Some value.
Proof.
  cbn [getenv]. replace (name +:+ "=" +:+ value) with ((name +:+ "=") +:+ value).
  - by rewrite after_prefix_app.
  - induction name as [|a name IH]; [done|]. exact (f_equal (String a) IH).
Qed.

(** What the dummy prints of its environment. *)
Definition env_line (env : list string) : line :=
  match getenv "EXAMPLE_ENV" env with
  | Some v => Out ("EXAMPLE_ENV=" +:+ v)
  | None => Out "EXAMPLE_ENV is not set"
  end.

Definition dashes : line := Out "-----------------------".

Lemma search_found k dirs file p : search k dirs file = Some p → ∃ q, programs k !! q = Some p.
Proof. induction dirs as [|d dirs IH]; cbn; [done|]. case_match; [|done]. intros. simplify_eq. eauto. Qed.

Lemma run_dummy_quiet k title e :
  (∀ file p argv env, programs k !! file = Some p → SpawnerFailed ∉ p argv env) →
  SpawnerFailed ∉ RunDummy (spawner title e) k.
Proof.
  intros Hq. unfold RunDummy, spawner. destruct (exec k e) as [ls|] eqn:E; [|set_solver].
  enough (SpawnerFailed ∉ ls) by set_solver.
  destruct e; cbn in E; inv_opt; try (by eapply Hq).
  apply search_found in Heqo as [q Hf]. by eapply Hq.
Qed.

(** exec_intro.cpp with dummy.cpp.  Where ./dummy is the program of
    dummy.cpp and so is the first dummy of [PATH], in any environment: the five
    examples print the arguments they pass, in order and numbered; the first three
    inherit the environment, the fourth has none and the fifth has its own.  Where
    neither can be found every example reports the error of its call.  Whatever
    programs the system has, if they do not print it themselves, "spawner failed" is
    never printed: a call that fails has ended the process before. *)
Theorem exec_intro_prints (k : system) :
  (programs k !! "./dummy" = Some dummy_main → search k (path k) "dummy" = Some dummy_main →
   exec_intro_main k =
     [Out "execl: "; Out "Dummy called with arguments: "; Out "argv[0]=dummy"; Out "argv[1]=hello";
      Out "argv[2]=from"; Out "argv[3]=execl"; env_line (environ k); dashes;
      Out "execv: "; Out "Dummy called with arguments: "; Out "argv[0]=./dummy"; Out "argv[1]=vector";
      Out "argv[2]=data"; env_line (environ k); dashes;
      Out "execvp: "; Out "Dummy called with arguments: "; Out "argv[0]=dummy"; Out "argv[1]=found";
      Out "argv[2]=in"; Out "argv[3]=path"; env_line (environ k); dashes;
      Out "execve without env override: "; Out "Dummy called with arguments: "; Out "argv[0]=dummy";
      Out "argv[1]=with"; Out "argv[2]=env"; Out "EXAMPLE_ENV is not set"; dashes;
      Out "execve with env override: "; Out "Dummy called with arguments: "; Out "argv[0]=dummy";
      Out "argv[1]=with"; Out "argv[2]=env"; Out "EXAMPLE_ENV=322"; dashes]) ∧
  (programs k !! "./dummy" = None → search k (path k) "dummy" = None →
   exec_intro_main k = concat ((λ '(title, _), [Out title; SystemError; dashes]) <$> spawners)) ∧
  ((∀ file p argv env, programs k !! file = Some p → SpawnerFailed ∉ p argv env) →
   SpawnerFailed ∉ exec_intro_main k).
Proof.
  split_ands.
  - intros H1 H2. unfold exec_intro_main, spawners. cbn [fmap list_fmap concat]. unfold RunDummy, spawner, exec.
    rewrite H1, H2. reflexivity.
  - intros H1 H2. unfold exec_intro_main, spawners. cbn [fmap list_fmap concat]. unfold RunDummy, spawner, exec.
    rewrite H1, H2. reflexivity.
  - intros Hq. unfold exec_intro_main. generalize spawners. intros l.
    induction l as [|[title e] l IH]; cbn; [apply not_elem_of_nil|].
    apply not_elem_of_app. split; [by apply run_dummy_quiet|done].
Qed.

(** A system with the dummy in the working directory and in [PATH]. *)
Definition some_system : system :=
  System {["./dummy" := dummy_main; "/bin/dummy" := dummy_main]} ["/usr/bin"; "/bin"] ["HOME=/root"; "EXAMPLE_ENV=1"].

Lemma exec_intro_prints_witness :
  length (exec_intro_main some_system) = 37 ∧
  exec_intro_main some_system !! 6 = Some (Out "EXAMPLE_ENV=1") ∧
  programs some_system !! "./dummy" = Some dummy_main ∧ search some_system (path some_system) "dummy" = Some dummy_main.
Proof.
  rewrite (proj1 (exec_intro_prints some_system)); [|reflexivity..]. split_ands; reflexivity.
Defined.

End Exec.
