(* ===== verification/SystemErrors.v ===== *)
(** The error helper include/utils/error.hpp, and the starts of the programs that
    create named objects with the ways in which a system call can fail there.

    A process computes with a state of the system until it returns a value or
    ends: through [std::exit] in [CHECK_ERROR], through an exception that nobody
    catches, or through undefined behaviour.  Which calls fail, and with which
    [errno], is a parameter: the theorems hold for every such system.  The other
    files model the programs from the point where all these calls have succeeded;
    here that point is reached, or the process ends with the right report and
    leaves a system from which the next start sees nothing of it. *)

From S2P Require Import Prelude Machine IpcSemaphores IpcPrograms Signals.
From stdpp Require Import pretty options.

(** * Processes that end early *)

(** [std::exit] with what went to the error stream; an uncaught exception, which is
    [std::terminate]; undefined behaviour. *)
Inductive ending :=
  | Exit (status : Z) (stderr : string)
  | Terminate (what : string)
  | UndefinedBehaviour.

Definition proc (S A : Type) : Type := S → S * (A + ending).

#[export] Instance proc_ret {S} : MRet (proc S) := λ A a s, (s, inl a).
#[export] Instance proc_bind {S} : MBind (proc S) := λ A B f m s,
  match m s with
  | (s', inl a) => f a s'
  | (s', inr e) => (s', inr e)
  end.

Definition gets {S A} (f : S → A) : proc S A := λ s, (s, inl (f s)).

Definition throw {S A} (what : string) : proc S A := λ s, (s, inr (Terminate what)).

(** What a system call returns, and [errno] after it. *)
Record answer := Answer { res : Z; errno : Z }.

Inductive syscall :=
  | SemOpen (path : string)
  | ShmUnlink (path : string)
  | ShmOpen (path : string)
  | Ftruncate
  | Mmap
  | Fork
  | Wait
  | Munmap
  | PthreadCreate
  | PthreadJoin.

(** * error.hpp *)

(** [std::source_location]. *)
Record source_location := SourceLocation { function_name : string; file_name : string; line_number : nat }.

Definition endl : string := String (Ascii.ascii_of_nat 10) "".

Definition EXIT_FAILURE : Z := 1.

Section system.
(** The texts of the errors, and the calls that fail, with their [errno]. *)
Context (strerror : Z → string) (fails : syscall → option Z).

Definition LogSystemError (loc : source_location) (errno : Z) : string :=
  "Error in " +:+ function_name loc +:+ endl +:+
  "  File: " +:+ file_name loc +:+ ":" +:+ pretty (line_number loc) +:+ endl +:+
  "  Reason: " +:+ strerror errno +:+ " (errno: " +:+ pretty errno +:+ ")" +:+ endl.

Definition CHECK_ERROR {S} (loc : source_location) (r : answer) : proc S unit := λ s,
  if (res r =? -1)%Z
  then (s, inr (Exit EXIT_FAILURE (LogSystemError loc (errno r))))
  else (s, inl tt).

(** A call that returns -1 and sets [errno] when it fails, and changes nothing. *)
Definition sys {S} (k : syscall) (result : Z) (effect : S → S) : proc S answer := λ s,
  match fails k with
  | Some e => (s, inl (Answer (-1) e))
  | None => (effect s, inl (Answer result 0))
  end.

(** A call of the pthread library returns the error number instead. *)
Definition pthread_sys {S} (k : syscall) (effect : S → S) : proc S answer := λ s,
  match fails k with
  | Some e => (s, inl (Answer e 0))
  | None => (effect s, inl (Answer 0 0))
  end.

(** A place in [main]. *)
Definition in_main (file : string) (n : nat) : source_location := SourceLocation "int main()" file n.

(** * The starts of shm_intro.cpp and mmap_intro.cpp *)

(** [sem_open] reports a failure as [SEM_FAILED]. *)
Definition MakeSemaphore_or_throw (path : string) : proc names unit :=
  r ← sys (SemOpen path) 0 (MakeSemaphore path);
  if (res r =? -1)%Z then throw ("Opening semaphore failed, error: " +:+ strerror (errno r)) else mret tt.

(** [shm_open] without [O_EXCL] takes an object that is there as it is. *)
Definition shm_open_effect (ns : names) : names :=
  Names (semas ns) (<[ShmFile:=default 0 (objects ns !! ShmFile)]> (objects ns)).

Definition ftruncate_effect (ns : names) : names :=
  Names (semas ns) (<[ShmFile:=DataSize]> (objects ns)).

(** [mmap] reports a failure as [MAP_FAILED]. *)
Definition mmap_or_throw {S} : proc S unit :=
  r ← sys Mmap 0 id;
  if (res r =? -1)%Z then throw ("mmap failed, error: " +:+ strerror (errno r)) else mret tt.

Definition fork_or_exit {S} (loc : source_location) : proc S unit :=
  pid ← sys Fork 1 id; CHECK_ERROR loc pid.

Definition shared_object (file : string) : proc names unit :=
  _ ← sys (ShmUnlink ShmFile) 0 (λ ns, default ns (shm_unlink ShmFile ns));
  shmFd ← sys (ShmOpen ShmFile) 3 shm_open_effect;
  _ ← CHECK_ERROR (in_main file 44) shmFd;
  r ← sys Ftruncate 0 ftruncate_effect;
  CHECK_ERROR (in_main file 46) r.

(** The two processes after the fork. *)
Definition forked_program (v : variant) (inputs : list (list byte)) : proc names program :=
  gets (λ ns, let value path := default 0 (semas ns !! path) in
    Program ns (sema_init (value WriteDoneSema) (value ReadDoneSema) inputs) (removals v) false).

Definition fork_line (v : variant) : nat := match v with ShmIntro => 58 | MmapIntro => 50 end.

Definition start (v : variant) (file : string) (inputs : list (list byte)) : proc names program :=
  _ ← MakeSemaphore_or_throw WriteDoneSema;
  _ ← MakeSemaphore_or_throw ReadDoneSema;
  _ ← match v with ShmIntro => shared_object file | MmapIntro => mret tt end;
  _ ← mmap_or_throw;
  _ ← fork_or_exit (in_main file (fork_line v));
  forked_program v inputs.

(** * The start of sema.cpp *)

Definition sema_start (file : string) : proc (gmap string nat) Sema.state :=
  r ← sys (SemOpen Sema.SemaPath) 0 (λ ns, <[Sema.SemaPath:=default 0 (ns !! Sema.SemaPath)]> ns);
  _ ← (if (res r =? -1)%Z then throw ("Opening semaphore failed, error: " +:+ strerror (errno r)) else mret tt);
  _ ← fork_or_exit (in_main file 22);
  gets (λ ns, Sema.State ns Sema.PSay Sema.CSay []).

(** * The calls of pthread_intro.cpp *)

(** The state says whether there is a thread; [pthread_join] needs one. *)
Definition pthread_join : proc bool answer := λ created,
  if created then pthread_sys PthreadJoin (λ _, false) created else (created, inr UndefinedBehaviour).

Definition pthread_calls (file : string) : proc bool unit :=
  r ← pthread_sys PthreadCreate (λ _, true);
  _ ← CHECK_ERROR (in_main file 42) r;
  r ← pthread_join;
  CHECK_ERROR (in_main file 43) r.

(** * What a failing call should lead to *)

(** The calls a start depends on, in their order ([shm_unlink] may fail). *)
Definition needed (v : variant) : list syscall :=
  [SemOpen WriteDoneSema; SemOpen ReadDoneSema] ++
  match v with ShmIntro => [ShmOpen ShmFile; Ftruncate] | MmapIntro => [] end ++ [Mmap; Fork].

Definition first_failure (ks : list syscall) : option (syscall * Z) :=
  head (omap (λ k, pair k <$> fails k) ks).

Definition report (loc : syscall → source_location) (f : syscall * Z) : ending :=
  match f with
  | (SemOpen _, e) => Terminate ("Opening semaphore failed, error: " +:+ strerror e)
  | (Mmap, e) => Terminate ("mmap failed, error: " +:+ strerror e)
  | (k, e) => Exit 1 (LogSystemError (loc k) e)
  end.

Definition place (v : variant) (file : string) (k : syscall) : source_location :=
  in_main file match k with ShmOpen _ => 44 | Ftruncate => 46 | _ => fork_line v end.

(** The start either gets through, or ends at the first failing call with a state
    that [P] holds of. *)
Definition ends_at_first {S A} (m : proc S A) (loc : syscall → source_location) (ks : list syscall)
    (s : S) (P : S → Prop) (done : S → A → Prop) : Prop :=
  match first_failure ks with
  | None => ∃ s' a, m s = (s', inl a) ∧ done s' a
  | Some f => ∃ s', m s = (s', inr (report loc f)) ∧ P s'
  end.

Lemma ends_bind {S A B} (m : proc S A) (f : A → proc S B) loc ks1 ks2 s P done :
  ends_at_first m loc ks1 s P (λ s1 a, ends_at_first (f a) loc ks2 s1 P done) →
  ends_at_first (m ≫= f) loc (ks1 ++ ks2) s P done.
Proof.
  unfold ends_at_first, first_failure. rewrite omap_app.
  destruct (omap _ ks1) as [|[k e] r]; cbn [head app].
  - intros (s1 & a & E & H). unfold mbind, proc_bind. by rewrite E.
  - intros (s1 & E & H). exists s1. unfold mbind, proc_bind. by rewrite E.
Qed.

Lemma ends_ret {S A} (a : A) loc (s : S) (P : S → Prop) (done : S → A → Prop) :
  done s a → ends_at_first (mret a) loc [] s P done.
Proof. intros H. by exists s, a. Qed.

Lemma sem_ends path loc ns P done :
  P ns → done (MakeSemaphore path ns) tt →
  ends_at_first (MakeSemaphore_or_throw path) loc [SemOpen path] ns P done.
Proof.
  intros HP Hd. unfold ends_at_first, first_failure, MakeSemaphore_or_throw, mbind, proc_bind, sys. cbn.
  by destruct (fails (SemOpen path)); cbn; eauto.
Qed.

Lemma mmap_ends {S} loc (s : S) (P : S → Prop) (done : S → unit → Prop) :
  P s → done s tt → ends_at_first mmap_or_throw loc [Mmap] s P done.
Proof.
  intros HP Hd. unfold ends_at_first, first_failure, mmap_or_throw, mbind, proc_bind, sys. cbn.
  by destruct (fails Mmap); cbn; eauto.
Qed.

Lemma fork_ends {S} loc (s : S) (P : S → Prop) (done : S → unit → Prop) :
  P s → done s tt → ends_at_first (fork_or_exit (loc Fork)) loc [Fork] s P done.
Proof.
  intros HP Hd. unfold ends_at_first, first_failure, fork_or_exit, mbind, proc_bind, sys, CHECK_ERROR. cbn.
  by destruct (fails Fork); cbn; eauto.
Qed.

Definition unlinked (ns : names) : names :=
  match fails (ShmUnlink ShmFile) with Some _ => ns | None => default ns (shm_unlink ShmFile ns) end.

Lemma object_ends v file ns (P : names → Prop) (done : names → unit → Prop) :
  P (unlinked ns) → P (shm_open_effect (unlinked ns)) →
  done (ftruncate_effect (shm_open_effect (unlinked ns))) tt →
  ends_at_first (shared_object file) (place v file) [ShmOpen ShmFile; Ftruncate] ns P done.
Proof.
  intros H1 H2 H3. unfold ends_at_first, first_failure, shared_object, mbind, proc_bind, sys, CHECK_ERROR.
  fold (unlinked ns). unfold unlinked in *. cbn.
  destruct (fails (ShmUnlink ShmFile)), (fails (ShmOpen ShmFile)), (fails Ftruncate); cbn; eauto.
Qed.

(** * What a failed start leaves *)

(** New semaphores have the value 0 and the shared-memory object may be a fresh one;
    everything else is as it was. *)
Record harmless (v : variant) (ns ns' : names) : Prop := {
  same_values path : default 0 (semas ns' !! path) = default 0 (semas ns !! path);
  other_semas path : path ≠ WriteDoneSema → path ≠ ReadDoneSema → semas ns' !! path = semas ns !! path;
  other_objects path : path ≠ ShmFile ∨ v = MmapIntro → objects ns' !! path = objects ns !! path }.

Lemma harmless_sema v path ns ns' :
  path = WriteDoneSema ∨ path = ReadDoneSema → harmless v ns ns' → harmless v ns (MakeSemaphore path ns').
Proof.
  intros Hp [Hv Hs Ho]. split; cbn [MakeSemaphore semas objects]; [|intros q H1 H2|done].
  - intros q. rewrite <- Hv. destruct (decide (q = path)) as [->|Hne]; by simplify_map_eq.
  - rewrite lookup_insert_ne by (intros ->; naive_solver). auto.
Qed.

Lemma harmless_objects ns ns' ns'' :
  semas ns'' = semas ns' → (∀ path, path ≠ ShmFile → objects ns'' !! path = objects ns' !! path) →
  harmless ShmIntro ns ns' → harmless ShmIntro ns ns''.
Proof.
  intros E1 E2 [Hv Hs Ho]. split; rewrite ?E1; [done..|]. intros path [H|?]; [|done]. rewrite E2; auto.
Qed.

Lemma unlinked_same ns :
  semas (unlinked ns) = semas ns ∧ ∀ path, path ≠ ShmFile → objects (unlinked ns) !! path = objects ns !! path.
Proof.
  unfold unlinked, shm_unlink. destruct (fails _), (objects ns !! ShmFile); cbn; split_ands; try done.
  intros path H. by rewrite lookup_delete_ne.
Qed.

Lemma harmless_unlinked ns ns' : harmless ShmIntro ns ns' → harmless ShmIntro ns (unlinked ns').
Proof. apply harmless_objects; apply unlinked_same. Qed.

Lemma harmless_opened ns ns' : harmless ShmIntro ns ns' → harmless ShmIntro ns (shm_open_effect ns').
Proof. apply harmless_objects; [done|]. intros path H. cbn. by rewrite lookup_insert_ne. Qed.

Lemma harmless_truncated ns ns' : harmless ShmIntro ns ns' → harmless ShmIntro ns (ftruncate_effect ns').
Proof. apply harmless_objects; [done|]. intros path H. cbn. by rewrite lookup_insert_ne. Qed.
End system.

(** The objects after [open_all]. *)
Lemma open_all_is v ns :
  open_all v ns = Names
    (<[ReadDoneSema:=default 0 (semas ns !! ReadDoneSema)]>
      (<[WriteDoneSema:=default 0 (semas ns !! WriteDoneSema)]> (semas ns)))
    match v with ShmIntro => <[ShmFile:=DataSize]> (objects ns) | MmapIntro => objects ns end.
Proof.
  unfold open_all, MakeSemaphore, shm_create, shm_unlink. cbn [semas objects].
  rewrite lookup_insert_ne by done. destruct v; cbn [semas objects]; [|done].
  destruct (objects ns !! ShmFile); cbn; [by rewrite insert_delete_eq|done].
Qed.

(** The next start does not see a harmless one before it. *)
Lemma harmless_next v ns ns' inputs : harmless v ns ns' → program_main v ns' inputs = program_main v ns inputs.
Proof.
  intros [Hv Hs Ho]. unfold program_main. rewrite !open_all_is, !Hv. f_equal. f_equal.
  - apply map_eq. intros path.
    destruct (decide (path = ReadDoneSema)) as [->|H1]; [by simplify_map_eq|].
    rewrite !(lookup_insert_ne _ ReadDoneSema) by done.
    destruct (decide (path = WriteDoneSema)) as [->|H2]; [by simplify_map_eq|].
    rewrite !(lookup_insert_ne _ WriteDoneSema) by done. auto.
  - destruct v; apply map_eq; intros path; [|by apply Ho; right].
    destruct (decide (path = ShmFile)) as [->|H]; [by simplify_map_eq|].
    rewrite !lookup_insert_ne by done. auto.
Qed.

Lemma object_is fails ns :
  ftruncate_effect (shm_open_effect (unlinked fails ns)) = Names (semas ns) (<[ShmFile:=DataSize]> (objects ns)).
Proof.
  unfold ftruncate_effect, shm_open_effect. cbn. rewrite insert_insert_eq.
  destruct (unlinked_same fails ns) as [-> H]. f_equal. apply map_eq. intros path.
  destruct (decide (path = ShmFile)) as [->|Hne]; [by simplify_map_eq|]. rewrite !lookup_insert_ne by done. auto.
Qed.

(** [mmap], [fork] and the two processes. *)
Lemma tail_ends strerror fails v file inputs ns s :
  s = open_all v ns → harmless v ns s →
  ends_at_first strerror fails
    (_ ← mmap_or_throw strerror fails; _ ← fork_or_exit strerror fails (in_main file (fork_line v)); forked_program v inputs)
    (place v file) [Mmap; Fork] s (harmless v ns) (λ s' a, s' = open_all v ns ∧ a = program_main v ns inputs).
Proof.
  intros -> Hh. apply (ends_bind _ _ _ _ _ [Mmap]), mmap_ends; [done|].
  apply (ends_bind _ _ _ _ _ [Fork] []), (fork_ends _ _ (place v file)); [done|].
  eexists _, _. split; [reflexivity|]. split; [done|]. unfold program_main. f_equal.
  rewrite open_all_is. cbn [semas]. by rewrite lookup_insert_eq, lookup_insert_ne, lookup_insert_eq by done.
Qed.

(** * Properties *)

(** C36: The starts of shm_intro.cpp and mmap_intro.cpp, whichever system calls fail and
    with whichever [errno].  If none of the needed calls fails the start gets to the
    two processes that [programs_clean_up] is about; the [shm_unlink] whose errors are
    ignored on purpose may fail.  Otherwise the process ends at the first call that
    fails and does none of the later ones: with the exception that names the cause, or
    with status 1 and the three lines of [LogSystemError] for the right place.  A
    failed start does no harm: other semaphores and objects are untouched, and the next
    start finds what it would have found without it. *)
Theorem start_reports strerror fails v file inputs ns :
  match first_failure fails (needed v) with
  | None => start strerror fails v file inputs ns = (open_all v ns, inl (program_main v ns inputs))
  | Some f => ∃ ns', start strerror fails v file inputs ns = (ns', inr (report strerror (place v file) f)) ∧
      (∀ inputs', program_main v ns' inputs' = program_main v ns inputs') ∧
      (∀ path, path ≠ WriteDoneSema → path ≠ ReadDoneSema → semas ns' !! path = semas ns !! path) ∧
      (∀ path, path ≠ ShmFile → objects ns' !! path = objects ns !! path)
  end.
Proof.
  assert (harmless v ns ns) as H0 by done.
  pose proof (harmless_sema v WriteDoneSema ns ns (or_introl eq_refl) H0) as H1.
  pose proof (harmless_sema v ReadDoneSema ns _ (or_intror eq_refl) H1) as H2.
  assert (ends_at_first strerror fails (start strerror fails v file inputs) (place v file) (needed v) ns
    (harmless v ns) (λ s' a, s' = open_all v ns ∧ a = program_main v ns inputs)) as H.
  { unfold start, needed. cbn [app].
    apply (ends_bind _ _ _ _ _ [SemOpen WriteDoneSema]), sem_ends; [done|].
    apply (ends_bind _ _ _ _ _ [SemOpen ReadDoneSema]), sem_ends; [done|].
    apply ends_bind. destruct v.
    - apply object_ends; [by apply harmless_unlinked|by apply harmless_opened, harmless_unlinked|].
      apply tail_ends; [by rewrite object_is, open_all_is; cbn; rewrite lookup_insert_ne|].
      by apply harmless_truncated, harmless_opened, harmless_unlinked.
    - apply ends_ret, tail_ends; done. }
  unfold ends_at_first in H. destruct (first_failure fails (needed v)) as [f|].
  - destruct H as (ns' & E & Hh). exists ns'. split_ands; [done|intros; by apply harmless_next|apply Hh|].
    intros path Hne. apply Hh. by left.
  - by destruct H as (s' & a & E & -> & ->).
Qed.

(** sema.cpp in the same way: its start gets to the processes of [Signals.Sema], or
    ends with the report of the call that failed and leaves at most a new semaphore
    with the value 0, which the next start would have made. *)
Theorem sema_start_reports strerror fails file ns :
  match first_failure fails [SemOpen Sema.SemaPath; Fork] with
  | None => ∃ ns', sema_start strerror fails file ns = (ns', inl (Sema.sema_program_main ns))
  | Some f => ∃ ns',
      sema_start strerror fails file ns = (ns', inr (report strerror (λ _, in_main file 22) f)) ∧
      Sema.sema_program_main ns' = Sema.sema_program_main ns
  end.
Proof.
  unfold first_failure, sema_start, fork_or_exit, mbind, proc_bind, sys, CHECK_ERROR, Sema.sema_program_main. cbn.
  destruct (fails (SemOpen Sema.SemaPath)) as [e|]; cbn; [by exists ns|].
  destruct (fails Fork) as [e|]; cbn; eexists; [split|]; [reflexivity| |reflexivity].
  by rewrite lookup_insert_eq, insert_insert_eq.
Qed.

(** [CHECK_ERROR] does not see the errors of the pthread calls, which are returned as
    positive numbers: when no thread could be created, [main] goes on to join one. *)
Theorem pthread_failure_unchecked strerror fails file e :
  fails PthreadCreate = Some e → (0 < e)%Z →
  pthread_calls strerror fails file false = (false, inr UndefinedBehaviour).
Proof.
  intros He Hpos. unfold pthread_calls, mbind, proc_bind, pthread_sys. rewrite He.
  unfold CHECK_ERROR. cbn [res]. rewrite (proj2 (Z.eqb_neq _ _)) by lia. reflexivity.
Qed.

(** What the helper prints for a failing [fork] of shm_intro.cpp (EAGAIN). *)
Example fork_failure_report :
  (start (λ _, "Resource temporarily unavailable") (λ k, match k with Fork => Some 11%Z | _ => None end)
     ShmIntro "shm_intro.cpp" [] (Names ∅ ∅)).2 =
  inr (Exit 1 ("Error in int main()" +:+ endl +:+ "  File: shm_intro.cpp:58" +:+ endl +:+
    "  Reason: Resource temporarily unavailable (errno: 11)" +:+ endl)).
Proof. vm_compute. reflexivity. Qed.
