(* ===== verification/ShmAtomics.v ===== *)
(** ipc/shm_atomics.cpp as a whole program: the shared mapping, the fork, the two
    loops on the stack of [BufferedStack], and the end with [wait] and [munmap].

    The child is the producer and the parent the consumer; both work on the stack in
    the mapping they share.  A loop may spin for as long as the schedule wants, so
    that runs have no bound; but from every state the program can be brought to its
    end, which the failing calls decide alone. *)

From S2P Require Import Prelude Machine Stacks BufferedStack SystemErrors.
From stdpp Require Import options.

(** * The program *)

Definition NumberOfElements : nat := 1000000.
Definition Capacity : nat := 1024.

Inductive child := CPush | CEnded.

Inductive parent := PPop | PWait | PMunmap | PExit | PEnded (status : Z).

Record atomics := Atomics {
  stack : conf (bstack Z) (bthread Z); childP : child; parentP : parent;
  stdout : list string; stderr : list string }.

(** A step inside a loop, or one of the statements after it. *)
Inductive move := Loop (a : act bool) | ChildMove | ParentMove.

Section program.
Context (strerror : Z → string) (fails : syscall → option Z) (file : string).

(** The loop of process [i] has ended. *)
Definition loop_done (i : nat) (c : conf (bstack Z) (bthread Z)) : bool :=
  match threads c !! i with Some (Outside cl) => client_done cl | _ => false end.

Definition child_exits (s : atomics) : option atomics :=
  match childP s with
  | CPush =>
      if loop_done 0 (stack s)
      then Some (Atomics (stack s) CEnded (parentP s) (stdout s ++ ["[CHILD]: exited"]) (stderr s))
      else None
  | CEnded => None
  end.

(** A failing call of the parent: [CHECK_ERROR] at line [n]. *)
Definition parent_fails (n : nat) (e : Z) (s : atomics) : atomics :=
  Atomics (stack s) (childP s) (PEnded EXIT_FAILURE) (stdout s)
    (stderr s ++ [LogSystemError strerror (in_main file n) e]).

Definition parent_goes (p : parent) (s : atomics) : atomics :=
  Atomics (stack s) (childP s) p (stdout s) (stderr s).

Definition parent_ends (s : atomics) : option atomics :=
  match parentP s with
  | PPop => if loop_done 1 (stack s) then Some (parent_goes PWait s) else None
  | PWait =>
      match fails Wait, childP s with
      | Some e, _ => Some (parent_fails 88 e s)
      | None, CEnded => Some (parent_goes PMunmap s)
      | None, CPush => None
      end
  | PMunmap =>
      Some match fails Munmap with
        | Some e => parent_fails 90 e s
        | None => parent_goes PExit s
        end
  | PExit => Some (Atomics (stack s) (childP s) (PEnded 0) (stdout s ++ ["[PARENT]: exited"]) (stderr s))
  | PEnded _ => None
  end.

Definition shm_atomics_step (m : move) (s : atomics) : option atomics :=
  match m with
  | Loop a =>
      c ← buffered_step a (stack s);
      Some (Atomics c (childP s) (parentP s) (stdout s) (stderr s))
  | ChildMove => child_exits s
  | ParentMove => parent_ends s
  end.

(** [main]: the mapping with a new stack in it, then the fork.  Of the elements, any
    number; the capacity is a template argument. *)
Definition shm_atomics_main (capacity elements : nat) : proc unit atomics :=
  _ ← mmap_or_throw strerror fails;
  _ ← fork_or_exit strerror fails (in_main file 69);
  gets (λ _, Atomics (buffered_init capacity 0%Z (spsc_main elements)) CPush PPop [] []).

(** * The end, from the failing calls alone *)

Definition final_status : Z := match fails Wait, fails Munmap with None, None => 0 | _, _ => EXIT_FAILURE end.

Definition final_stdout : list string :=
  "[CHILD]: exited" :: match fails Wait, fails Munmap with None, None => ["[PARENT]: exited"] | _, _ => [] end.

Definition final_stderr : list string :=
  match fails Wait, fails Munmap with
  | Some e, _ => [LogSystemError strerror (in_main file 88) e]
  | None, Some e => [LogSystemError strerror (in_main file 90) e]
  | None, None => []
  end.

(** The end of the program: both processes have ended, the consumer has popped as
    many values as were pushed, and the output is as the failing calls say. *)
Definition ended (elements : nat) (s : atomics) : Prop :=
  pair_done elements (stack s) ∧ childP s = CEnded ∧ parentP s = PEnded final_status ∧
  stdout s = final_stdout ∧ stderr s = final_stderr.

(** * The invariant *)

Definition said (s : atomics) : list string := match childP s with CPush => [] | CEnded => ["[CHILD]: exited"] end.

Record shm_inv (capacity elements : nat) (s : atomics) : Prop := {
  inv_stack : pair_inv capacity elements (stack s);
  inv_childP : match childP s with CPush => True | CEnded => loop_done 0 (stack s) = true end;
  inv_parentP : match parentP s with
    | PPop => stdout s = said s ∧ stderr s = []
    | PWait => loop_done 1 (stack s) = true ∧ stdout s = said s ∧ stderr s = []
    | PMunmap => loop_done 1 (stack s) = true ∧ childP s = CEnded ∧ fails Wait = None ∧
        stdout s = said s ∧ stderr s = []
    | PExit => loop_done 1 (stack s) = true ∧ childP s = CEnded ∧ fails Wait = None ∧ fails Munmap = None ∧
        stdout s = said s ∧ stderr s = []
    | PEnded st => loop_done 1 (stack s) = true ∧ st = final_status ∧ stderr s = final_stderr ∧
        match childP s with
        | CEnded => stdout s = final_stdout
        | CPush => is_Some (fails Wait) ∧ stdout s = []
        end
    end }.

(** A loop that has ended takes no more steps. *)
Lemma loop_done_step i a (c c' : conf (bstack Z) (bthread Z)) :
  buffered_step a c = Some c' → loop_done i c = true → loop_done i c' = true.
Proof.
  intros (l & g' & l' & Hl & Hs & ->)%conf_step_inv. unfold loop_done. cbn [threads].
  destruct (decide (tid a = i)) as [<-|Hne]; [|by rewrite list_lookup_insert_ne].
  rewrite Hl. destruct l as [[[|]|want rs]| | | | |]; try done. cbn in Hs |- *.
  intros Hd%negb_true_iff. unfold buffered_tstep in Hs. cbn in Hs. by rewrite Hd in Hs.
Qed.

Lemma shm_preserves capacity elements m s s' :
  (Z.of_nat capacity ≤ INT_MAX)%Z → shm_inv capacity elements s → shm_atomics_step m s = Some s' →
  shm_inv capacity elements s'.
Proof.
  intros HC [Hst Hc Hp] Hs. destruct s as [st cp pp out err]. destruct m as [a| |]; cbn in *.
  - destruct (buffered_step a st) as [st'|] eqn:E; simplify_eq/=. split; cbn.
    + by eapply pair_preserves.
    + destruct cp; [done|]. by eapply loop_done_step.
    + destruct pp; naive_solver eauto using loop_done_step.
  - unfold child_exits in Hs. cbn in Hs. destruct cp; [|done]. destruct (loop_done 0 st) eqn:E; simplify_eq/=.
    split; cbn; [done..|]. unfold said in *. cbn in *.
    destruct pp; destruct_and?; simplify_eq/=; split_ands; try done.
    unfold final_stdout. by destruct (fails Wait) as [e|]; [|destruct_and?; by destruct (is_Some_None (A:=Z))].
  - unfold parent_ends in Hs. cbn in Hs. unfold said, final_status, final_stderr, final_stdout in *. cbn in Hp.
    destruct pp; [destruct (loop_done 1 st) eqn:E1|destruct (fails Wait) eqn:Ew; [|destruct cp]
      |destruct (fails Munmap) eqn:Em| |]; destruct_and?; simplify_eq/=; (split; [done..|]);
      unfold said, final_status, final_stderr, final_stdout; cbn; rewrite ?Ew, ?Em; try done.
    { by destruct cp. }
    all: by repeat match goal with E : fails _ = None |- _ => rewrite E end.
Qed.

Lemma shm_start capacity elements :
  shm_inv capacity elements (Atomics (buffered_init capacity 0%Z (spsc_main elements)) CPush PPop [] []).
Proof. split; cbn; [apply pair_start|done..]. Qed.

(** * The way to the end *)

(** When both loops have ended everything that was pushed has been popped. *)
Lemma loops_done capacity elements c :
  pair_inv capacity elements c → loop_done 0 c = true → loop_done 1 c = true → pair_done elements c.
Proof.
  intros HP. destruct (pair_threads _ _ _ HP) as (p & q & Ht & Hp & Hq). destruct HP as [[_ Hh _ Hn] _].
  unfold loop_done. rewrite Ht in *. cbn [lookup list_lookup]. cbn [total foldr] in Hn.
  destruct p as [[todo|w0 rs0]| | | | |], q as [[todo0|w1 rs]| | | | |]; try done. cbn in Hq |- *. simplify_eq.
  intros ->%bool_decide_eq_true%nil_length_inv Hd%negb_true_iff. apply Nat.ltb_ge in Hd. cbn in Hn.
  exists rs. split_ands; [done|lia|lia].
Qed.

Lemma done_loops elements c : pair_done elements c → loop_done 0 c = true ∧ loop_done 1 c = true.
Proof.
  intros (rs & Ht & Hr & _). unfold loop_done. rewrite Ht. cbn. split; [done|].
  apply negb_true_iff, Nat.ltb_ge. lia.
Qed.

(** The steps of the loops are steps of the program. *)
Lemma loops_run sched s c :
  run buffered_step sched (stack s) = Some c →
  run shm_atomics_step (Loop <$> sched) s = Some (Atomics c (childP s) (parentP s) (stdout s) (stderr s)).
Proof.
  revert s. induction sched as [|a sched IH]; intros s H; cbn in *; [by destruct s; simplify_eq|].
  destruct (buffered_step a (stack s)) as [c1|]; cbn in *; [|done]. apply (IH (Atomics c1 _ _ _ _) H).
Qed.

Definition statements_left (s : atomics) : nat :=
  match childP s with CPush => 1 | CEnded => 0 end +
  match parentP s with PPop => 4 | PWait => 3 | PMunmap => 2 | PExit => 1 | PEnded _ => 0 end.

Lemma closing_step capacity elements s :
  (Z.of_nat capacity ≤ INT_MAX)%Z → shm_inv capacity elements s → pair_done elements (stack s) →
  ended elements s ∨ ∃ m s', shm_atomics_step m s = Some s' ∧ stack s' = stack s ∧
    statements_left s' < statements_left s.
Proof.
  intros HC HI Hd. destruct (done_loops _ _ Hd) as [H0 H1]. pose proof HI as [_ _ Hp].
  destruct s as [st cp pp out err]. unfold ended. cbn in *. destruct cp.
  - right. exists ChildMove. cbn. unfold child_exits. cbn. rewrite H0. eexists. split_ands; [done..|]. cbn. lia.
  - destruct pp as [| | | |status]; [right; exists ParentMove; cbn; unfold parent_ends; cbn..|].
    + rewrite H1. eexists. split_ands; [done..|]. cbn. lia.
    + destruct (fails Wait); eexists; (split_ands; [done..|]); cbn; lia.
    + destruct (fails Munmap); eexists; (split_ands; [done..|]); cbn; lia.
    + eexists. split_ands; [done..|]. cbn. lia.
    + left. naive_solver.
Qed.

Lemma shm_can_end capacity elements s :
  (0 < Z.of_nat capacity ≤ INT_MAX)%Z → shm_inv capacity elements s →
  ∃ sched s', run shm_atomics_step sched s = Some s' ∧ ended elements s'.
Proof.
  intros HC HI. destruct (pair_can_end _ _ _ HC (inv_stack _ _ _ HI)) as (sched & c & Hr & Hd).
  pose proof (loops_run _ _ _ Hr) as Hr'. set (s1 := Atomics c (childP s) (parentP s) (stdout s) (stderr s)) in *.
  assert (shm_inv capacity elements s1) as HI1.
  { eapply (reach_inv _ (shm_inv capacity elements)); [exact HI| |by eapply run_reach].
    intros m s2 s3. apply shm_preserves. lia. }
  destruct (descend_to_goal shm_atomics_step (λ s, shm_inv capacity elements s ∧ pair_done elements (stack s))
    (ended elements) statements_left s1) as (sched' & s' & Hrun & He); [|done|].
  - intros s2 [H2 Hd2]. destruct (closing_step _ _ _ (proj2 HC) H2 Hd2) as [?|(m & s3 & Hs & E & Hlt)]; [by left|].
    right. exists m, s3. split_ands; [done| |by rewrite E|done]. eapply shm_preserves; [apply HC|done..].
  - exists ((Loop <$> sched) ++ sched'), s'. split; [|done]. by rewrite run_app, Hr'.
Qed.
End program.

(** * Properties *)

(** C37: ipc/shm_atomics.cpp, with any number of elements, whichever system calls fail.
    If [mmap] or [fork] fails the process ends with the report of that call.
    Otherwise no index leaves the array, and whatever the two processes have done so
    far, full and empty stacks and failed exchanges included, the program can be
    brought to its end; the processes have ended only when every pushed value has been
    popped.  The end is the same for all schedules: the child's line before the
    parent's and status 0, or, if [wait] or [munmap] fails, the child's line alone,
    one report and status 1. *)
Theorem shm_atomics_ends strerror fails file capacity elements :
  (0 < Z.of_nat capacity ≤ INT_MAX)%Z →
  match first_failure fails [Mmap; Fork] with
  | Some f => shm_atomics_main strerror fails file capacity elements tt =
      (tt, inr (report strerror (λ _, in_main file 69) f))
  | None => ∃ s0, shm_atomics_main strerror fails file capacity elements tt = (tt, inl s0) ∧
      ∀ s, reach (shm_atomics_step strerror fails file) s0 s →
        Undefined ∉ threads (stack s) ∧
        (∃ sched s', run (shm_atomics_step strerror fails file) sched s = Some s' ∧
          ended strerror fails file elements s') ∧
        (childP s = CEnded → (∃ status, parentP s = PEnded status) → ended strerror fails file elements s)
  end.
Proof.
  intros HC.
  assert (ends_at_first strerror fails (shm_atomics_main strerror fails file capacity elements)
    (λ _, in_main file 69) [Mmap; Fork] tt (λ _, True)
    (λ _ a, a = Atomics (buffered_init capacity 0%Z (spsc_main elements)) CPush PPop [] [])) as H.
  { apply (ends_bind _ _ _ _ _ [Mmap]), mmap_ends; [done|].
    apply (ends_bind _ _ _ _ _ [Fork] []), (fork_ends _ _ (λ _, in_main file 69)); [done|].
    by eexists _, _. }
  unfold ends_at_first in H. destruct (first_failure fails [Mmap; Fork]) as [f|].
  - by destruct H as ([] & E & _).
  - destruct H as ([] & s0 & E & ->). eexists. split; [exact E|]. intros s Hr.
    assert (shm_inv strerror fails file capacity elements s) as HI.
    { eapply (reach_inv _ (shm_inv strerror fails file capacity elements)); [apply shm_start| |exact Hr].
      intros m s1 s2. apply shm_preserves. lia. }
    split_ands; [|by eapply shm_can_end|].
    + intros [i Hi]%list_elem_of_lookup.
      by apply (proj1 (Forall_lookup _ _) (inv_tops _ _ _ (proj1 (inv_stack _ _ _ _ _ _ HI))) _ _ Hi).
    + intros Hc [status Hp]. pose proof HI as [Hst Hl Hpar]. rewrite Hc in Hl. rewrite Hp, Hc in Hpar.
      destruct Hpar as (Hl1 & -> & Herr & Hout). split; [by eapply loops_done|done].
Qed.

(** The program of the source, when [munmap] fails (EINVAL). *)
Definition munmap_fails (k : syscall) : option Z := match k with Munmap => Some 22%Z | _ => None end.

Lemma shm_atomics_ends_witness :
  (0 < Z.of_nat Capacity ≤ INT_MAX)%Z ∧
  ∃ s0, shm_atomics_main (λ _, "Invalid argument") munmap_fails "shm_atomics.cpp" Capacity NumberOfElements tt =
      (tt, inl s0) ∧
    ∃ sched s', run (shm_atomics_step (λ _, "Invalid argument") munmap_fails "shm_atomics.cpp") sched s0 = Some s' ∧
      stdout s' = ["[CHILD]: exited"] ∧ parentP s' = PEnded 1.
Proof.
  assert (0 < Z.of_nat Capacity ≤ INT_MAX)%Z as HC by (vm_compute; split; [reflexivity|discriminate]).
  split; [exact HC|].
  destruct (shm_atomics_ends (λ _, "Invalid argument") munmap_fails "shm_atomics.cpp" Capacity NumberOfElements HC)
    as (s0 & E & H).
  exists s0. split; [exact E|]. destruct (H s0 (reach_refl _ _)) as (_ & (sched & s' & Hr & He) & _).
  destruct He as (_ & _ & Hp & Ho & _). exists sched, s'. split; [exact Hr|]. split; [exact Ho|exact Hp].
Defined.
