(* ===== verification/FalseSharing.v ===== *)
(** cache/false_sharing.cpp: threads that count in neighbouring members of one
    structure, behind a latch.

    The program measures time; what it computes is that every member gets all its
    increments, although [++value] is a load and a store, because no two threads use
    the same one.  That they share cache lines all the same is a fact about the
    layout of [SharedState]. *)

From S2P Require Import Prelude Machine.
From stdpp Require Import options.

Local Open Scope Z_scope.

(** * The machine *)

(** The latch and the members of [SharedState], one for each thread. *)
Record shared_state := SharedState { latch : nat; members : list Z }.

(** A thread before [arrive_and_wait], waiting in it, between two increments and
    between the halves of one. *)
Inductive counting_thread := Arriving | Waiting | Counting (rest : nat) | Loaded (rest : nat) (tmp : Z) | Overflown.

Definition counting_step (iterations : nat) (i : nat) (_ : unit) (g : shared_state) (l : counting_thread) :
    option (shared_state * counting_thread) :=
  match l with
  | Arriving => Some (SharedState (latch g - 1) (members g), Waiting)
  | Waiting => if (latch g =? 0)%nat then Some (g, Counting iterations) else None
  | Counting O => None
  | Counting (S rest) => v ← members g !! i; Some (g, Loaded rest v)
  | Loaded rest tmp =>
      Some (if bool_decide (is_i32 (tmp + 1))
            then (SharedState (latch g) (<[i:=tmp + 1]> (members g)), Counting rest)
            else (g, Overflown))
  | Overflown => None
  end.

Definition false_sharing_step (iterations : nat) : act unit → conf shared_state counting_thread → option (conf shared_state counting_thread) :=
  conf_step (counting_step iterations).

(** [main] with any number of workers; the program has three and 500 000 000
    iterations. *)
Definition false_sharing_main (WorkerThreads : nat) : conf shared_state counting_thread :=
  Conf (SharedState WorkerThreads (replicate WorkerThreads 0)) (replicate WorkerThreads Arriving).

(** * The invariant *)

Definition arriving (l : counting_thread) : bool := match l with Arriving => true | _ => false end.

Definition started (l : counting_thread) : bool := match l with Counting _ | Loaded _ _ => true | _ => false end.

(** The member of a thread from where it is. *)
Definition member_ok (iterations : nat) (l : counting_thread) (v : Z) : Prop :=
  match l with
  | Arriving | Waiting => v = 0
  | Counting rest => (rest ≤ iterations)%nat ∧ v = Z.of_nat (iterations - rest)
  | Loaded rest tmp => (S rest ≤ iterations)%nat ∧ tmp = v ∧ v = Z.of_nat (iterations - S rest)
  | Overflown => False
  end.

Record sharing_inv (iterations W : nat) (c : conf shared_state counting_thread) : Prop := {
  inv_latch : latch (shared c) = count arriving (threads c);
  inv_members : Forall2 (member_ok iterations) (threads c) (members (shared c));
  inv_started : ∀ i l, threads c !! i = Some l → started l = true → latch (shared c) = 0%nat;
  inv_workers : length (threads c) = W }.

Lemma sharing_start iterations W : sharing_inv iterations W (false_sharing_main W).
Proof.
  constructor; cbn [shared threads latch members false_sharing_main].
  - rewrite count_replicate. cbn. lia.
  - apply Forall2_replicate. done.
  - intros i l [-> _]%lookup_replicate. done.
  - apply length_replicate.
Qed.

Section steps.
Context (iterations W : nat) (Hint : Z.of_nat iterations ≤ INT_MAX).

Lemma sharing_preserves a c c' :
  sharing_inv iterations W c → false_sharing_step iterations a c = Some c' → sharing_inv iterations W c'.
Proof using Hint.
  intros [Hla Hm Hst Hw] (l & g' & l' & Hl & Hs & ->)%conf_step_inv.
  destruct (Forall2_lookup_l _ _ _ _ _ Hm Hl) as (v & Hv & Hok).
  pose proof (count_insert arriving _ _ _ l' Hl) as Hcount.
  assert (∀ v', member_ok iterations l' v' →
    Forall2 (member_ok iterations) (<[tid a:=l']> (threads c)) (<[tid a:=v']> (members (shared c)))) as Hins.
  { intros v' Hv'. by apply Forall2_insert. }
  assert (member_ok iterations l' v → Forall2 (member_ok iterations) (<[tid a:=l']> (threads c)) (members (shared c))) as Hsame.
  { intros Hv'. rewrite <- (list_insert_id (members (shared c)) (tid a) v) by done. by apply Hins. }
  assert (∀ (P : nat), (started l' = true → P = 0%nat) → (latch (shared c) = 0%nat → P = 0%nat) →
    ∀ i li, <[tid a:=l']> (threads c) !! i = Some li → started li = true → P = 0%nat) as Hstart.
  { intros P H1 H2 i li [(-> & ->)|[_ Hi]]%list_lookup_insert_Some' Hsi; [auto|]. apply H2. by eapply Hst. }
  destruct l as [| |[|rest]|rest tmp|]; cbn in Hs; try done.
  - simplify_eq. cbn in Hcount. constructor; cbn [shared threads latch members].
    + lia.
    + by apply Hsame.
    + apply Hstart; [done|lia].
    + by rewrite length_insert.
  - destruct (Nat.eqb_spec (latch (shared c)) 0) as [E|E]; simplify_eq. cbn in Hcount, Hok.
    constructor; cbn [shared threads latch members]; [lia| |by apply Hstart|by rewrite length_insert].
    apply Hsame. cbn. rewrite Nat.sub_diag. done.
  - rewrite Hv in Hs. cbn in Hs. simplify_eq. cbn in Hcount, Hok. destruct Hok as [Hle ->].
    constructor; cbn [shared threads latch members]; [lia|by apply Hsame| |by rewrite length_insert].
    apply Hstart; [|done]. intros _. by eapply Hst.
  - cbn in Hok. destruct Hok as (Hle & -> & ->). rewrite bool_decide_true in Hs.
    2: { unfold is_i32, INT_MIN. unfold INT_MAX in *. lia. }
    simplify_eq. cbn in Hcount. constructor; cbn [shared threads latch members]; [lia| | |by rewrite length_insert].
    + apply Hins. cbn. lia.
    + apply Hstart; [|done]. intros _. by eapply Hst.
Qed.

Lemma sharing_reach c :
  reach (false_sharing_step iterations) (false_sharing_main W) c → sharing_inv iterations W c.
Proof using Hint. apply reach_inv; [apply sharing_start|apply sharing_preserves]. Qed.
End steps.

(** ** Progress and termination *)

Definition ended (l : counting_thread) : bool := match l with Counting O => true | _ => false end.

Lemma sharing_progress iterations W c :
  sharing_inv iterations W c →
  (∃ a c', false_sharing_step iterations a c = Some c') ∨ Forall (λ l, ended l = true) (threads c).
Proof.
  intros [Hla Hm Hst Hw]. destruct (Forall_or_witness ended (threads c)) as [HD|(i & l & Hl & He)]; [by right|left].
  destruct (Forall2_lookup_l _ _ _ _ _ Hm Hl) as (v & Hv & Hok).
  destruct (decide (latch (shared c) = 0%nat)) as [E|E].
  - exists (Act i tt). apply (conf_step_enabled _ _ _ _ _ Hl). destruct l as [| |[|rest]|rest tmp|]; cbn; try done.
    + rewrite E. cbn. by eexists.
    + rewrite Hv. by eexists.
  - destruct (count_witness arriving (threads c)) as (j & lj & Hj & Ha); [lia|].
    exists (Act j tt). apply (conf_step_enabled _ _ _ _ _ Hj). by destruct lj.
Qed.

Definition counting_left (iterations : nat) (l : counting_thread) : nat :=
  match l with
  | Arriving => 2 * iterations + 2
  | Waiting => 2 * iterations + 1
  | Counting rest => 2 * rest
  | Loaded rest _ => 2 * rest + 1
  | Overflown => 0
  end.

Lemma counting_left_step iterations i ch g l g' l' :
  counting_step iterations i ch g l = Some (g', l') → (counting_left iterations l' < counting_left iterations l)%nat.
Proof. destruct l as [| |[|rest]|rest tmp|]; cbn; intros Hs; inv_opt; lia. Qed.

(** * Properties *)

(** false_sharing.cpp, for any number of workers and any number of
    iterations that an [int] can hold.  No worker counts before all have arrived at
    the latch; no [int] overflows; no schedule is longer than [2 n + 2] steps for
    each worker; and a run that cannot go on has ended with every member at the
    number of iterations: sharing the structure loses no increment. *)
Theorem false_sharing_counts iterations W c :
  Z.of_nat iterations ≤ INT_MAX →
  reach (false_sharing_step iterations) (false_sharing_main W) c →
  (∀ l, l ∈ threads c → started l = true → count arriving (threads c) = 0%nat) ∧
  Overflown ∉ threads c ∧
  terminates_within (false_sharing_step iterations) ((2 * iterations + 2) * W) (false_sharing_main W) ∧
  ((∃ a c', false_sharing_step iterations a c = Some c') ∨
   members (shared c) = replicate W (Z.of_nat iterations)).
Proof.
  intros Hint Hr. pose proof (sharing_reach _ _ Hint _ Hr) as HI. split_ands.
  - intros l [i Hl]%list_elem_of_lookup Hs. rewrite <- (inv_latch _ _ _ HI). by eapply (inv_started _ _ _ HI).
  - intros [i Hl]%list_elem_of_lookup. by destruct (Forall2_lookup_l _ _ _ _ _ (inv_members _ _ _ HI) Hl) as (v & _ & []).
  - set (work := λ c : conf shared_state counting_thread, sum_list_with (counting_left iterations) (threads c)).
    replace ((2 * iterations + 2) * W)%nat with (work (false_sharing_main W)).
    + apply (measure_terminates _ (λ _, True) work); [done|].
      intros a c1 c2 _ (l & g' & l' & Hl & Hs & ->)%conf_step_inv. split; [done|]. unfold work. cbn [threads].
      pose proof (sum_insert (counting_left iterations) _ _ _ l' Hl). apply counting_left_step in Hs. lia.
    + unfold work, false_sharing_main. cbn [threads]. clear. induction W as [|W IH]; [cbn; lia|].
      cbn [replicate sum_list_with]. rewrite IH. cbn [counting_left]. lia.
  - destruct (sharing_progress _ _ _ HI) as [?|HD]; [by left|right].
    rewrite <- (inv_workers _ _ _ HI). pose proof (inv_members _ _ _ HI) as Hm. clear - HD Hm.
    induction Hm as [|l v ls vs Hok Hm IH]; cbn; [done|]. apply Forall_cons_iff in HD as [He HD].
    rewrite IH by done. f_equal. destruct l as [| |[|]| |]; try done. destruct Hok as [_ ->]. f_equal. lia.
Qed.

Lemma false_sharing_counts_witness :
  (∃ c, run (false_sharing_step 2)
      ((λ i, Act i tt) <$> [0; 1; 2; 1; 0; 2; 0; 1; 2; 0; 1; 2; 2; 2; 1; 1; 0; 0]%nat) (false_sharing_main 3) = Some c ∧
     members (shared c) = [2; 2; 2]) ∧
  terminates_within (false_sharing_step (Z.to_nat 500000000)) ((2 * Z.to_nat 500000000 + 2) * 3) (false_sharing_main 3).
Proof.
  split; [eexists; split; [vm_compute; reflexivity|reflexivity]|].
  refine (proj1 (proj2 (proj2 (false_sharing_counts (Z.to_nat 500000000) 3 _ _ (reach_refl _ _))))).
  rewrite Z2Nat.id by lia. by vm_compute.
Defined.

(** * The cache *)

(** The cache line of a member of [SharedState] that lies at [base]. *)
Definition cache_line (line_size base : Z) (member : nat) : Z := (base + 4 * Z.of_nat member) / line_size.

(** Wherever the structure lies, two of its three members are in one line of 64
    bytes, so that the threads do share. *)
Theorem members_share_a_line base :
  (4 | base) →
  cache_line 64 base 0 = cache_line 64 base 1 ∨ cache_line 64 base 1 = cache_line 64 base 2.
Proof.
  intros [k ->]. unfold cache_line. cbn [Z.of_nat Z.mul Pos.of_succ_nat].
  pose proof (Z.div_mod (k * 4) 64). pose proof (Z.mod_pos_bound (k * 4) 64).
  pose proof (Z.div_mod (k * 4 + 4) 64). pose proof (Z.mod_pos_bound (k * 4 + 4) 64).
  pose proof (Z.div_mod (k * 4 + 8) 64). pose proof (Z.mod_pos_bound (k * 4 + 8) 64).
  rewrite Z.mul_0_r, Z.add_0_r. change (4 * Z.of_nat 1) with 4. change (4 * Z.of_nat 2) with 8. lia.
Qed.
