(* ===== verification/Senders.v ===== *)
(** structured_concurrency/continuations.cpp and stdexec_intro.cpp: programs over the
    senders of stdexec.

    The library is not part of the repository; what the programs rely on is a class
    of its operations and a class of their documented laws.  A sender is known by
    how it can complete: the characters printed on the way and the value, error or stop
    it sends.  The tasks of stdexec_intro.cpp print at the same time, so that their
    characters may mix.  The programs are proved for every library that keeps the
    laws, and one is given. *)

From S2P Require Import Prelude Machine.
From Stdlib Require Import Ascii.
From stdpp Require Import pretty.
From stdpp Require Import options.

Local Open Scope Z_scope.

(** * What running code can do *)

(** What is printed, as characters: concurrent insertions into [std::cout] may mix. *)
Definition text : Type := list Ascii.ascii.

Definition put (s : string) : text := String.list_ascii_of_string s.

Definition endl : text := [Ascii.ascii_of_nat 10].

(** Whole lines. *)
Definition lines (ls : list string) : text := concat ((λ s, put s ++ endl) <$> ls).

(** A value, an exception with its text, or undefined behaviour (an overflow). *)
Inductive result (A : Type) := Ok (a : A) | Throws (what : string) | Undefined.
Arguments Ok {A} _.
Arguments Throws {A} _.
Arguments Undefined {A}.

(** A function that prints and returns. *)
Definition fn (A B : Type) : Type := A → text * result B.

(** A program: which output and which result it can have. *)
Definition prog (A : Type) : Type := text → result A → Prop.

Definition pret {A} (a : A) : prog A := λ out r, out = [] ∧ r = Ok a.

Definition pprint (t : text) : prog unit := λ out r, out = t ∧ r = Ok tt.

Definition pthrow {A} (what : string) : prog A := λ out r, out = [] ∧ r = Throws what.

Definition pbind {A B} (p : prog A) (k : A → prog B) : prog B := λ out r,
  (∃ a out1 out2, p out1 (Ok a) ∧ k a out2 r ∧ out = out1 ++ out2) ∨
  (∃ e, p out (Throws e) ∧ r = Throws e) ∨
  (p out Undefined ∧ r = Undefined).

(** [try { p } catch (const std::exception &ex) { handler }] *)
Definition pcatch {A} (p : prog A) (handler : string → prog A) : prog A := λ out r,
  (∃ e out1 out2, p out1 (Throws e) ∧ handler e out2 r ∧ out = out1 ++ out2) ∨
  (∃ a, p out (Ok a) ∧ r = Ok a) ∨
  (p out Undefined ∧ r = Undefined).

Declare Scope prog_scope.
Notation "x ⇜ p ; q" := (pbind p (λ x, q)) (at level 100, p at next level, right associativity) : prog_scope.
Notation "p ⨾ q" := (pbind p (λ _, q)) (at level 100, right associativity) : prog_scope.
Local Open Scope prog_scope.

(** The program can only do that, and does it. *)
Definition only {A} (p : prog A) (out : text) (r : result A) : Prop :=
  p out r ∧ ∀ out' r', p out' r' → out' = out ∧ r' = r.

Lemma only_ret {A} (a : A) : only (pret a) [] (Ok a).
Proof. by split. Qed.

Lemma only_print t : only (pprint t) t (Ok tt).
Proof. by split. Qed.

Lemma only_bind {A B} (p : prog A) (k : A → prog B) a out1 out2 r :
  only p out1 (Ok a) → only (k a) out2 r → only (pbind p k) (out1 ++ out2) r.
Proof.
  intros [H1 U1] [H2 U2]. split; [left; eauto 6|].
  intros out' r' [(b & o1 & o2 & Hp & Hk & ->)|[(e & Hp & ->)|[Hp ->]]]; apply U1 in Hp as [E1 E2]; simplify_eq.
  by apply U2 in Hk as [-> ->].
Qed.

Lemma only_bind_throws {A B} (p : prog A) (k : A → prog B) out e :
  only p out (Throws e) → only (pbind p k) out (Throws e).
Proof.
  intros [H1 U1]. split; [right; left; eauto|].
  intros out' r' [(b & o1 & o2 & Hp & Hk & ->)|[(e' & Hp & ->)|[Hp ->]]]; apply U1 in Hp as [E1 E2]; by simplify_eq.
Qed.

Lemma only_catch {A} (p : prog A) (handler : string → prog A) out1 e out2 r :
  only p out1 (Throws e) → only (handler e) out2 r → only (pcatch p handler) (out1 ++ out2) r.
Proof.
  intros [H1 U1] [H2 U2]. split; [left; eauto 6|].
  intros out' r' [(e' & o1 & o2 & Hp & Hk & ->)|[(a & Hp & ->)|[Hp ->]]]; apply U1 in Hp as [E1 E2]; simplify_eq.
  by apply U2 in Hk as [-> ->].
Qed.

(** * The library *)

(** What a sender completes with. *)
Inductive completion (A : Type) := Value (a : A) | Error (what : string) | Stopped | Broken.
Arguments Value {A} _.
Arguments Error {A} _.
Arguments Stopped {A}.
Arguments Broken {A}.

Definition completed {B} (r : result B) : completion B :=
  match r with Ok b => Value b | Throws e => Error e | Undefined => Broken end.

Class Senders := {
  sender : Type → Type;
  scheduler : Type;
  get_scheduler : nat → scheduler;
  just {A} : A → sender A;
  then_ {A B} : sender A → fn A B → sender B;
  starts_on {A} : scheduler → sender A → sender A;
  when_all {A B C} : sender A → sender B → sender C → sender (A * B * C);
  completes {A} : sender A → text → completion A → Prop }.

(** [l] is made of [l1], [l2] and [l3] in any order that keeps each one's own. *)
Inductive interleaved {T} : list T → list T → list T → list T → Prop :=
  | interleaved_nil : interleaved [] [] [] []
  | interleaved_1 x l1 l2 l3 l : interleaved l1 l2 l3 l → interleaved (x :: l1) l2 l3 (x :: l)
  | interleaved_2 x l1 l2 l3 l : interleaved l1 l2 l3 l → interleaved l1 (x :: l2) l3 (x :: l)
  | interleaved_3 x l1 l2 l3 l : interleaved l1 l2 l3 l → interleaved l1 l2 (x :: l3) (x :: l).

(** The sender completes, and always with a value. *)
Definition sends_values `{Senders} {A} (s : sender A) : Prop :=
  (∃ l o, completes s l o) ∧ ∀ l o, completes s l o → ∃ a, o = Value a.

(** The documentation of stdexec: [just] sends its value at once; [then] calls its
    function with a value, sends what it returns or throws, and passes anything
    else on; [starts_on] with the scheduler of a pool that has a thread does the work of
    the sender there, to which nothing changes in what it does, as long as no stop is
    requested; [when_all] of senders that all complete with values completes too, with
    their values, and whatever it prints is what they print, each in its own order. *)
Class SendersLaws `{Senders} : Prop := {
  just_law {A} (a : A) l o : completes (just a) l o ↔ l = [] ∧ o = Value a;
  then_law {A B} (s : sender A) (f : fn A B) l o : completes (then_ s f) l o ↔
    (∃ a l1, completes s l1 (Value a) ∧ l = l1 ++ (f a).1 ∧ o = completed (f a).2) ∨
    (∃ e, completes s l (Error e) ∧ o = Error e) ∨
    (completes s l Stopped ∧ o = Stopped) ∨ (completes s l Broken ∧ o = Broken);
  starts_on_law {A} n (s : sender A) l o : (0 < n)%nat →
    completes (starts_on (get_scheduler n) s) l o ↔ completes s l o;
  when_all_completes {A B C} (s1 : sender A) (s2 : sender B) (s3 : sender C) :
    sends_values s1 → sends_values s2 → sends_values s3 → ∃ l o, completes (when_all s1 s2 s3) l o;
  when_all_values {A B C} (s1 : sender A) (s2 : sender B) (s3 : sender C) l o :
    sends_values s1 → sends_values s2 → sends_values s3 → completes (when_all s1 s2 s3) l o →
    ∃ a l1 b l2 c l3, completes s1 l1 (Value a) ∧ completes s2 l2 (Value b) ∧ completes s3 l3 (Value c) ∧
      interleaved l1 l2 l3 l ∧ o = Value (a, b, c) }.

(** [stdexec::sync_wait(s).value()]: an error is thrown, and after a stop there is no
    value. *)
Definition sync_wait_value `{Senders} {A} (s : sender A) : prog A := λ out r,
  ∃ o, completes s out o ∧
    r = match o with
        | Value a => Ok a
        | Error e => Throws e
        | Stopped => Throws "bad optional access"
        | Broken => Undefined
        end.

(** * The programs *)

Definition in_int (z : Z) : result Z := if bool_decide (is_i32 z) then Ok z else Undefined.

(** continuations.cpp. *)
Definition Adder : fn Z Z := λ i, (lines ["Adder: " +:+ pretty i], in_int (i + 10)).

Definition Multiplier : fn Z Z := λ i, (lines ["Multiplier: " +:+ pretty i], in_int (i * 2)).

Definition Divider : fn Z Z := λ i, (lines ["Divider: " +:+ pretty i], in_int (Z.quot i 3)).

Definition errorSpawner : fn Z Z := λ i, ([], Throws "Some error").

Section programs.
Context `{Senders}.

Definition HappyPath (sched : scheduler) : prog unit :=
  let work := starts_on sched (then_ (then_ (then_ (just 20) Adder) Multiplier) Divider) in
  result ⇜ sync_wait_value work;
  pprint (lines ["Result: " +:+ pretty result]).

Definition ErrorPath (sched : scheduler) : prog unit :=
  let work := starts_on sched
    (then_ (then_ (then_ (then_ (just 20) Adder) Multiplier) errorSpawner) Divider) in
  pcatch (result ⇜ sync_wait_value work; pprint (lines ["Result: " +:+ pretty result]))
    (λ what, pprint (lines ["Exception caught: " +:+ what])).

Definition continuations_main : prog Z :=
  let sched := get_scheduler 3 in
  HappyPath sched ⨾ ErrorPath sched ⨾ pret 0.

(** stdexec_intro.cpp. *)
Definition fun_ : fn Z Z := λ i, (put "Executing task for " ++ put (pretty i) ++ endl, in_int (i * i)).

Definition task (sched : scheduler) (i : Z) : sender Z := starts_on sched (then_ (just i) fun_).

Definition stdexec_intro_main : prog Z :=
  let sched := get_scheduler 3 in
  let work := when_all (task sched 0) (task sched 1) (task sched 2) in
  pprint (lines ["Before sync_wait"]) ⨾
  r ⇜ sync_wait_value work;
  (let '(i, j, k) := r in pprint (lines [pretty i +:+ " " +:+ pretty j +:+ " " +:+ pretty k])) ⨾ pret 0.
End programs.

(** * Lemmas *)

Section laws.
Context `{SendersLaws}.
#[local] Set Default Proof Using "All".

(** The sender completes in that way and in no other. *)
Definition sure {A} (s : sender A) (l : text) (o : completion A) : Prop :=
  completes s l o ∧ ∀ l' o', completes s l' o' → l' = l ∧ o' = o.

Lemma sure_just {A} (a : A) : sure (just a) [] (Value a).
Proof. split; [by apply just_law|]. by intros l' o' ?%just_law. Qed.

Lemma sure_then {A B} (s : sender A) (f : fn A B) l a :
  sure s l (Value a) → sure (then_ s f) (l ++ (f a).1) (completed (f a).2).
Proof.
  intros [H1 U1]. split; [apply then_law; left; eauto|].
  intros l' o' [(b & l1 & Hc & -> & ->)|[(e & Hc & ->)|[[Hc ->]|[Hc ->]]]]%then_law;
    apply U1 in Hc as [-> E]; by simplify_eq.
Qed.

Lemma sure_then_error {A B} (s : sender A) (f : fn A B) l e :
  sure s l (Error e) → sure (then_ s f) l (Error e).
Proof.
  intros [H1 U1]. split; [apply then_law; right; left; eauto|].
  intros l' o' [(b & l1 & Hc & -> & ->)|[(e' & Hc & ->)|[[Hc ->]|[Hc ->]]]]%then_law;
    apply U1 in Hc as [-> E]; by simplify_eq.
Qed.

Lemma sure_starts_on {A} n (s : sender A) l o :
  (0 < n)%nat → sure s l o → sure (starts_on (get_scheduler n) s) l o.
Proof.
  intros Hn [H1 U1]. split; [by apply starts_on_law|]. intros l' o' Hc. apply starts_on_law in Hc; [|done].
  by apply U1.
Qed.

Lemma only_wait_value {A} (s : sender A) l a : sure s l (Value a) → only (sync_wait_value s) l (Ok a).
Proof. intros [H1 U1]. split; [by exists (Value a)|]. by intros l' r (o & [-> ->]%U1 & ->). Qed.

Lemma only_wait_error {A} (s : sender A) l e : sure s l (Error e) → only (sync_wait_value s) l (Throws e).
Proof. intros [H1 U1]. split; [by exists (Error e)|]. by intros l' r (o & [-> ->]%U1 & ->). Qed.

(** The value after the first two steps of both pipelines. *)
Lemma sure_sixty : sure (then_ (then_ (just 20) Adder) Multiplier) (lines ["Adder: 20"; "Multiplier: 30"]) (Value 60).
Proof. exact (sure_then _ Multiplier _ 30 (sure_then _ Adder _ 20 (sure_just 20))). Qed.

Lemma happy_path n :
  (0 < n)%nat →
  only (HappyPath (get_scheduler n)) (lines ["Adder: 20"; "Multiplier: 30"; "Divider: 60"; "Result: 20"]) (Ok tt).
Proof.
  intros Hn. apply (only_bind _ _ 20 (lines ["Adder: 20"; "Multiplier: 30"; "Divider: 60"]) (lines ["Result: 20"]));
    [|apply only_print].
  apply only_wait_value, sure_starts_on; [done|]. exact (sure_then _ Divider _ 60 sure_sixty).
Qed.

Lemma error_path n :
  (0 < n)%nat →
  only (ErrorPath (get_scheduler n)) (lines ["Adder: 20"; "Multiplier: 30"; "Exception caught: Some error"]) (Ok tt).
Proof.
  intros Hn. apply (only_catch _ _ (lines ["Adder: 20"; "Multiplier: 30"]) "Some error"
    (lines ["Exception caught: Some error"])); [|apply only_print].
  apply only_bind_throws, only_wait_error, sure_starts_on, sure_then_error; [done|].
  exact (sure_then _ errorSpawner _ 60 sure_sixty).
Qed.

Definition executing (i : string) : text := lines ["Executing task for " +:+ i].

Lemma sure_tasks n :
  (0 < n)%nat →
  sure (task (get_scheduler n) 0) (executing "0") (Value 0) ∧
  sure (task (get_scheduler n) 1) (executing "1") (Value 1) ∧
  sure (task (get_scheduler n) 2) (executing "2") (Value 4).
Proof.
  intros Hn. split_ands; apply sure_starts_on; [done| |done| |done|].
  - exact (sure_then _ fun_ _ 0 (sure_just 0)).
  - exact (sure_then _ fun_ _ 1 (sure_just 1)).
  - exact (sure_then _ fun_ _ 2 (sure_just 2)).
Qed.

Lemma sure_sends {A} (s : sender A) l a : sure s l (Value a) → sends_values s.
Proof. intros [Hc U]. split; [eauto|]. intros l' o' [_ ->]%U. eauto. Qed.

(** The three tasks together. *)
Lemma stdexec_tasks n :
  (0 < n)%nat →
  let work := when_all (task (get_scheduler n) 0) (task (get_scheduler n) 1) (task (get_scheduler n) 2) in
  (∃ l, completes work l (Value (0, 1, 4))) ∧
  ∀ l o, completes work l o →
    o = Value (0, 1, 4) ∧ interleaved (executing "0") (executing "1") (executing "2") l.
Proof.
  intros Hn. destruct (sure_tasks n Hn) as (T0 & T1 & T2). cbv zeta.
  assert (∀ l o, completes (when_all (task (get_scheduler n) 0) (task (get_scheduler n) 1) (task (get_scheduler n) 2)) l o →
    o = Value (0, 1, 4) ∧ interleaved (executing "0") (executing "1") (executing "2") l) as Hall.
  { intros l o (a & l1 & b & l2 & c & l3 & H1 & H2 & H3 & Hi & ->)%when_all_values; [|by eapply sure_sends..].
    apply T0 in H1 as [-> [= ->]]. apply T1 in H2 as [-> [= ->]]. apply T2 in H3 as [-> [= ->]]. done. }
  split; [|done].
  destruct (when_all_completes (task (get_scheduler n) 0) (task (get_scheduler n) 1) (task (get_scheduler n) 2))
    as (l & o & Hc); [by eapply sure_sends..|].
  exists l. by destruct (Hall _ _ Hc) as [-> _].
Qed.

Lemma intro_results : only (pbind (pprint (lines ["0 1 4"])) (λ _, pret 0)) (lines ["0 1 4"]) (Ok 0).
Proof. apply (only_bind _ _ tt (lines ["0 1 4"]) []); [apply only_print|apply only_ret]. Qed.
End laws.

(** * A library *)

(** Senders that are their completions.  An error or a stop of one sender becomes
    that of [when_all]. *)
Definition all_of {A B C} (o1 : completion A) (o2 : completion B) (o3 : completion C) : completion (A * B * C) :=
  match o1, o2, o3 with
  | Value a, Value b, Value c => Value (a, b, c)
  | Broken, _, _ | _, Broken, _ | _, _, Broken => Broken
  | Error e, _, _ | _, Error e, _ | _, _, Error e => Error e
  | _, _, _ => Stopped
  end.

#[export] Instance model_senders : Senders := {
  sender A := text → completion A → Prop;
  scheduler := unit;
  get_scheduler _ := tt;
  just A a := λ l o, l = [] ∧ o = Value a;
  then_ A B s f := λ l o,
    (∃ a l1, s l1 (Value a) ∧ l = l1 ++ (f a).1 ∧ o = completed (f a).2) ∨
    (∃ e, s l (Error e) ∧ o = Error e) ∨ (s l Stopped ∧ o = Stopped) ∨ (s l Broken ∧ o = Broken);
  starts_on A _ s := s;
  when_all A B C s1 s2 s3 := λ l o,
    ∃ o1 l1 o2 l2 o3 l3, s1 l1 o1 ∧ s2 l2 o2 ∧ s3 l3 o3 ∧ interleaved l1 l2 l3 l ∧ o = all_of o1 o2 o3;
  completes A s l o := s l o }.

Lemma interleaved_all {T} (l1 l2 l3 : list T) : ∃ l, interleaved l1 l2 l3 l.
Proof.
  induction l1 as [|x l1 [l IH]]; [|by exists (x :: l); constructor].
  induction l2 as [|x l2 [l IH]]; [|by exists (x :: l); constructor].
  induction l3 as [|x l3 [l IH]]; [exists []; constructor|by exists (x :: l); constructor].
Qed.

#[export] Instance model_senders_laws : SendersLaws.
Proof.
  constructor; try done.
  - intros A B C s1 s2 s3 [(l1 & o1 & H1) _] [(l2 & o2 & H2) _] [(l3 & o3 & H3) _].
    destruct (interleaved_all l1 l2 l3) as [l Hl]. exists l, (all_of o1 o2 o3). by exists o1, l1, o2, l2, o3, l3.
  - intros A B C s1 s2 s3 l o [_ V1] [_ V2] [_ V3] (o1 & l1 & o2 & l2 & o3 & l3 & H1 & H2 & H3 & Hi & ->).
    destruct (V1 _ _ H1) as [a ->], (V2 _ _ H2) as [b ->], (V3 _ _ H3) as [c ->]. by exists a, l1, b, l2, c, l3.
Qed.

(** * Properties *)

(** C38: continuations.cpp and stdexec_intro.cpp, over every library of senders
    that keeps the laws.  The first program prints exactly its seven lines and returns 0:
    the value 20 goes through the three functions, and the error of the second pipeline
    skips the last function and is caught.  The second can complete, and however it
    completes it returns 0 and prints the line before the wait, then the characters of
    the three tasks' lines, each line's in its order but the three possibly mixed, then
    the three squares in the order of the tasks. *)
Theorem stdexec_programs_print `{SendersLaws} :
  only continuations_main
    (lines ["Adder: 20"; "Multiplier: 30"; "Divider: 60"; "Result: 20";
            "Adder: 20"; "Multiplier: 30"; "Exception caught: Some error"]) (Ok 0) ∧
  (∃ out, stdexec_intro_main out (Ok 0)) ∧
  ∀ out r, stdexec_intro_main out r →
    r = Ok 0 ∧ ∃ l,
      interleaved (lines ["Executing task for 0"]) (lines ["Executing task for 1"]) (lines ["Executing task for 2"]) l ∧
      out = lines ["Before sync_wait"] ++ l ++ lines ["0 1 4"].
Proof.
  destruct (stdexec_tasks 3 ltac:(lia)) as [[l Hl] Hall]. split_ands.
  - apply (only_bind _ _ tt (lines ["Adder: 20"; "Multiplier: 30"; "Divider: 60"; "Result: 20"])
      (lines ["Adder: 20"; "Multiplier: 30"; "Exception caught: Some error"])); [apply happy_path; lia|].
    apply (only_bind _ _ tt (lines ["Adder: 20"; "Multiplier: 30"; "Exception caught: Some error"]) []);
      [apply error_path; lia|apply only_ret].
  - exists (lines ["Before sync_wait"] ++ l ++ lines ["0 1 4"]). left.
    exists tt, (lines ["Before sync_wait"]), (l ++ lines ["0 1 4"]). split; [by split|]. split; [|done]. left.
    exists (0, 1, 4), l, (lines ["0 1 4"]). split; [by exists (Value (0, 1, 4))|]. split; [|done]. apply intro_results.
  - intros out r [(u & o1 & o2 & [-> _] & Hk & ->)|[(e & [_ He] & _)|[[_ He] _]]]; [|done..].
    destruct Hk as [(v & l1 & l2 & (o & [-> Hi]%Hall & [= ->]) & Hp & ->)|[(e & (o & [-> _]%Hall & He) & _)|[(o & [-> _]%Hall & He) _]]];
      [|done..].
    apply intro_results in Hp as [-> ->]. split; [done|]. by exists l1.
Qed.

Lemma stdexec_programs_print_witness :
  only (@continuations_main model_senders)
    (lines ["Adder: 20"; "Multiplier: 30"; "Divider: 60"; "Result: 20";
            "Adder: 20"; "Multiplier: 30"; "Exception caught: Some error"]) (Ok 0) ∧
  ∃ out l, @stdexec_intro_main model_senders out (Ok 0) ∧
    out = lines ["Before sync_wait"] ++ l ++ lines ["0 1 4"].
Proof.
  destruct (@stdexec_programs_print model_senders model_senders_laws) as (Hc & [out Ho] & Hall).
  split; [exact Hc|]. destruct (Hall _ _ Ho) as (_ & l & _ & E). exists out, l. exact (conj Ho E).
Defined.
