(* ===== verification/EchoServer.v ===== *)
(** structured_concurrency/echo_server.cpp: a sketch of a server.

    [Socket] is declared and not defined, so that it is a parameter: clients arrive
    in some order, and [Receive] gives something.  What can be read is the loop of
    [main] and [ServeClient].  A [std::thread] that is neither joined nor detached
    calls [std::terminate] when it goes out of scope, which it does at the end of
    each round; and [ValidateClientData] ends without a [return]. *)

From S2P Require Import Prelude Machine.
From stdpp Require Import options.

Section server.
Context {Socket : Type} (Receive : Socket → string).

(** [main]: at [Accept], with the clients to come; at the end of the round, with the
    thread it has started; ended by [std::terminate]. *)
Inductive server :=
  | Accepting (incoming : list Socket)
  | LeavingScope (incoming : list Socket)
  | Terminated.

(** [ServeClient]: before [Receive]; after it; in undefined behaviour. *)
Inductive connection := Connected (clientSocket : Socket) | Received (data : string) | Undefined_.

(** The server, the threads it has started, and how many clients it has accepted. *)
Record state := State { main_ : server; connections : list connection; accepted : nat }.

Inductive action := Serve | Connection (i : nat).

(** [ValidateClientData()]: its end is reached without a [return]. *)
Definition ValidateClientData : option bool := None.

Definition ServeClient_step (c : connection) : option connection :=
  match c with
  | Connected clientSocket => Some (Received (Receive clientSocket))
  | Received data =>
      match ValidateClientData with
      | None => Some Undefined_
      | Some _ => None
      end
  | Undefined_ => None
  end.

Definition server_step (a : action) (s : state) : option state :=
  match a with
  | Serve =>
      match main_ s with
      | Accepting (client :: rest) =>
          Some (State (LeavingScope rest) (connections s ++ [Connected client]) (S (accepted s)))
      | Accepting [] => None
      | LeavingScope rest => Some (State Terminated (connections s) (accepted s))
      | Terminated => None
      end
  | Connection i =>
      match main_ s with
      | Terminated => None
      | _ =>
          c ← connections s !! i; c' ← ServeClient_step c;
          Some (State (main_ s) (<[i:=c']> (connections s)) (accepted s))
      end
  end.

Definition echo_server_main (incoming : list Socket) : state := State (Accepting incoming) [] 0.

(** * Lemmas *)

Definition server_inv (incoming : list Socket) (s : state) : Prop :=
  match main_ s with
  | Accepting rest => rest = incoming ∧ connections s = [] ∧ accepted s = 0
  | LeavingScope _ | Terminated => incoming ≠ [] ∧ length (connections s) = 1 ∧ accepted s = 1
  end.

Lemma server_preserves incoming a s s' : server_inv incoming s → server_step a s = Some s' → server_inv incoming s'.
Proof.
  intros HI Hs. destruct s as [m cs n]. unfold server_inv in *. cbn in *. destruct a as [|i]; cbn in Hs.
  - destruct m as [[|client rest]|rest|]; simplify_eq/=; [|done]. by destruct HI as (<- & -> & ->).
  - destruct m as [rest|rest|]; [| |done];
      destruct (cs !! i) as [c|] eqn:Ec; try done; cbn in Hs;
      destruct (ServeClient_step c); try done; cbn in Hs; simplify_eq/=; rewrite ?length_insert; [|done].
    destruct HI as (_ & -> & _). done.
Qed.

Definition connection_left (c : connection) : nat :=
  match c with Connected _ => 2 | Received _ => 1 | Undefined_ => 0 end.

Definition server_left (s : state) : nat :=
  match main_ s with Accepting [] => 0 | Accepting _ => 4 | LeavingScope _ => 1 | Terminated => 0 end +
  sum_list_with connection_left (connections s).

Lemma server_left_step a s s' : server_step a s = Some s' → server_left s' < server_left s.
Proof.
  intros Hs. destruct s as [m cs n]. unfold server_left. destruct a as [|i]; cbn in Hs.
  - destruct m as [[|client rest]|rest|]; simplify_eq/=; [|lia]. rewrite sum_list_with_app. cbn. lia.
  - destruct m as [rest|rest|]; [| |done];
      destruct (cs !! i) as [c|] eqn:Ec; try done; cbn in Hs;
      destruct c as [sock|data|]; try done; cbn in Hs; simplify_eq; cbn [main_ connections];
      match goal with |- context [<[i:=?c']> cs] => pose proof (sum_insert connection_left _ _ _ c' Ec) as Hsum end;
      cbn [connection_left] in Hsum; lia.
Qed.

(** * Properties *)

(** echo_server.cpp serves nobody.  Whatever clients come and whatever
    they send, under every interleaving: at most one client is ever accepted, and
    no schedule has more than four steps; with no client the server waits, and
    otherwise a run that cannot go on has ended in [std::terminate], for the thread
    of the first client is still joinable when it goes out of scope. *)
Theorem echo_server_terminates incoming s :
  reach server_step (echo_server_main incoming) s →
  accepted s ≤ 1 ∧
  terminates_within server_step 4 (echo_server_main incoming) ∧
  ((∃ a s', server_step a s = Some s') ∨
   incoming = [] ∧ main_ s = Accepting [] ∨ incoming ≠ [] ∧ main_ s = Terminated).
Proof.
  intros Hr. assert (server_inv incoming s) as HI.
  { revert Hr. apply reach_inv; [done|apply server_preserves]. }
  split_ands.
  - unfold server_inv in HI. destruct (main_ s); destruct HI as (_ & _ & ->); lia.
  - intros sched s' Hs. etrans; [apply (measure_terminates _ (λ _, True) server_left (echo_server_main incoming) I) with (2 := Hs)|].
    + intros. split; [done|]. by eapply server_left_step.
    + destruct incoming; cbn; lia.
  - unfold server_inv in HI. destruct s as [m cs n]. cbn in *. destruct m as [[|client rest]|rest|].
    + destruct HI as (<- & _). auto.
    + left. exists Serve. by eexists.
    + left. exists Serve. by eexists.
    + right. right. by destruct HI.
Qed.
End server.

Arguments server : clear implicits.
Arguments connection : clear implicits.
Arguments state : clear implicits.

(** Two clients: the first is accepted, and the process ends; its thread may have
    got as far as the missing [return]. *)
Lemma echo_server_terminates_witness :
  ∃ s, run (server_step (λ name : string, "hello from " +:+ name)) [Serve; Connection 0; Connection 0; Serve]
      (echo_server_main ["a"; "b"]) = Some s ∧
    main_ s = Terminated ∧ connections s = [Undefined_] ∧ accepted s ≤ 1.
Proof.
  eexists. split; [vm_compute; reflexivity|]. split; [reflexivity|]. split; [reflexivity|].
  refine (proj1 (echo_server_terminates (λ name : string, "hello from " +:+ name) ["a"; "b"] _ _)).
  apply (run_reach _ [Serve; Connection 0; Connection 0; Serve]). vm_compute. reflexivity.
Defined.
